(* ===== verification/_CoqProject ===== *)
-Q . S2P
Prelude.v
StdAlgo.v
Charconv.v
TypeTraits.v
Version.v
FlatCore.v
FlatMap.v
FlatSet.v
Fifo.v
CircularBuffer.v
StackAllocator.v
BinarySerializer.v
Hash.v
JsonParser.v
JsonGrammar.v
JsonLexer.v
JsonProofs.v
JsonSafety.v
JsonDecode.v
StringSplitter.v
StringBuilder.v
StringFormatter.v
CliParser.v
CliProofs.v
CliGrammar.v
FloatText.v
Monitor.v
Wakeups.v
Semaphore.v
ReaderWriterLock.v
ObjectPool.v
LockFreeQueue.v
WeakMemory.v
QueueOrders.v
Heap.v
ThreadPool.v
TaskFuture.v
TaskPromise.v
TaskPool.v
Posix.v
UdpLifetime.v
UdpDatagram.v
Logger.v
LoggerWake.v
LogLine.v
LogSinks.v
Stopwatch.v
LogFront.v
StackTrace.v
UniqueRef.v
HeapArray.v
FileHost.v
FileSystem.v
FileStream.v
FileSession.v
SocketHost.v
TcpSocket.v
SocketSignals.v
TcpSession.v
Conversation.v
Fuzz.v
Bench.v
BenchHarness.v
