(* ===== verification/Prelude.v ===== *)
(** * egl-util-cpp: a verification development

    The library under [src/main/cpp/it/d4np/util] is a set of independent C++20 components: containers,
    text and binary codecs, synchronisation primitives, a thread pool, a logger, files and sockets.  This
    development models each component as written -- its data members as a record, its member functions as functions or
    critical sections, the exceptions as results -- and proves what it promises to its users.

    ** The files, and the code they model

    - Shared: [Prelude] (machine integers, exceptions, transition systems, lists), [StdAlgo] and [Heap] (the
      parts of the C++ standard library the code calls, each with its documented guarantee), [Charconv]
      ([std::to_chars], [std::from_chars]), [WeakMemory] (the atomics of C++: views, acquire, release and relaxed accesses), [Posix]
      (system calls that fail, are interrupted or do less than asked).
    - Compile time: [TypeTraits] (type_traits.hpp: detection and classification of types), [Version] (version.hpp, version.cpp).
    - Containers: [FlatCore] (sorted vectors), [FlatMap] (flat_map.hpp), [FlatSet] (flat_set.hpp), [Fifo] (the
      interface of a bounded queue), [CircularBuffer] (circular_buffer.hpp), [HeapArray] (heap_array.hpp).
    - Memory: [StackAllocator] (stack_allocator.hpp), [ObjectPool] (object_pool.hpp), [UniqueRef] (unique_ref.hpp).
    - Codecs: [BinarySerializer] (binary_serializer.hpp), [Hash] (hash.hpp), [JsonParser] (json_parser.hpp: the
      pull parser), [JsonGrammar], [JsonLexer], [JsonProofs], [JsonSafety] (its grammar and proofs), [JsonDecode] ([decode_string],
      [to_number]).
    - Text: [StringSplitter], [StringBuilder], [StringFormatter] (the headers of the same names), [CliParser]
      (cli_parser.hpp), [CliProofs], [CliGrammar] (the grammar of its documentation), [FloatText] (the two ways the parsers convert
      floating-point numbers).
    - Concurrency: [Monitor] (mutexes and condition variables: interleavings, notifications, spurious wake-ups,
      timeouts), [Wakeups] (a rule against lost wake-ups), [Semaphore], [ReaderWriterLock], [ThreadPool] (the headers of
      the same names), [TaskFuture], [TaskPromise] (task_future.hpp), [TaskPool] (the pool and the futures of its tasks
      together), [LockFreeQueue] (lock_free_queue.hpp, its protocol on sequentially consistent memory), [QueueOrders] (the same
      queue with the memory orders the code names).
    - Diagnostics: [Logger], [LoggerWake] (logger.hpp, logger.cpp), [LogFront] (the caller's side of [log], with the format strings it
      takes), [LogLine] (the rendered line), [LogSinks] (the built-in sinks, and the logger with them), [UdpLifetime] (the socket
      and the Winsock session of the UDP sink), [UdpDatagram] (the call that sends one line, on each platform, and the thread ids), [Stopwatch] (stopwatch.hpp), [StackTrace] (stack_trace.hpp, stack_trace.cpp).
    - Input and output: [FileHost] (the functions of file_stream.cpp that differ between POSIX and Windows), [FileSystem] (files with
      names, and what open, write, seek and close mean for them), [FileStream] (file_stream.hpp, file_stream.cpp), [FileSession]
      (programs of several streams over several files), [SocketHost] (the same for tcp_socket.cpp), [TcpSocket] (tcp_socket.hpp,
      tcp_socket.cpp), [SocketSignals] (which sockets are kept from raising SIGPIPE), [TcpSession] (programs that use sockets), [Conversation] (two sockets of the library talking to each other).
    - Drivers: [Fuzz] (the three harnesses under src/fuzz, their entry points and the replay program), [Bench] (the scenarios of
      bench_main.cpp), [BenchHarness] (timing, statistics and report, and bench_main's main).

    Components interact where the code does: the codecs and the logger build text with [StringBuilder] and
    [Charconv]; [CircularBuffer] and [LockFreeQueue] implement [Fifo]; every blocking component is an instance of
    [Monitor]; [TaskPool] runs [ThreadPool] with the promises of [TaskPromise]; [LogSinks] runs [Logger] with [LogLine] and the sinks, the
    UDP one over [UdpDatagram]; [FileStream], [TcpSocket] and
    [StackTrace] are written over an interface to the host, which both platforms implement -- each with its own
    system calls -- and theorems about them use the laws of that interface only; [Fuzz] and [Bench] drive the components as
    the repository's own programs do.

    ** What the theorems show

    - Containers answer any sequence of calls as the mathematical object they stand for: [FlatMap.map_client_refinement],
      [FlatSet.set_client_refinement], [CircularBuffer.buffer_client_refinement], [HeapArray.last_write_wins].
    - Memory: blocks of [StackAllocator] are disjoint and inside the buffer; objects of [ObjectPool] have one
      borrower, objects of [UniqueRef] one owner.
    - Codecs: SHA-256 and MurmurHash3 equal their published definitions; binary records round-trip between hosts
      of either byte order; [JsonParser] accepts exactly the RFC 8259 documents within its depth limit, yields the events of
      their value, ends, and never leaves its bounds; strings decode exactly.
    - Text: the format-string validator is exact and a validated string cannot make the renderer read out of
      bounds; splitting is lossless; [CliParser] accepts exactly the spellings of the documented grammar.
    - Concurrency, for every interleaving: counts are conserved, locks exclude, tasks start in priority order and are all
      started, one outcome per future, every submitted task answers its own future, tickets leave in order; under the memory orders
      the code names, the queue's payload accesses never race and tickets still leave in order ([QueueOrders.memory_orders_suffice]); and (liveness) once the steps under way have
      run, nobody sleeps on something that has happened.
    - Logging: records are written once, in order; [flush] is a barrier; when it returns, the rendered lines are
      in the sinks' destinations; a line is read back to its record.
    - Files and sockets: a program of several streams leaves every file as the same program of whole-file operations does, on POSIX and
      on Windows ([FileSession.sessions_refine_files]); reads return the file, lines are those of the file, retry
      loops end ([FileHost.host_loops_end]); descriptors have one owner and are closed once; what one end of a connection is
      given is what the other has sent, and [closed] means all of it ([Conversation.conversations_are_exact]); a UDP sink leaks
      neither socket nor session ([UdpLifetime.udp_sink_leaks_nothing]); all of it on both platforms.
    - Drivers: no input makes a fuzz harness throw or run on ([Fuzz.fuzz_targets_complete]); the benchmarks time successful
      operations only ([Bench.benchmarks_time_successes]), and the median and the percentile they print are samples they took
      ([BenchHarness.statistics_are_samples]); the replay program runs every file it can open ([Fuzz.replay_completes]).
    - Platforms: a connected socket never raises SIGPIPE ([SocketSignals.connected_sockets_never_raise]); JSON numbers convert alike
      with either floating-point conversion ([FloatText.json_floats_agree]).

    Some theorems record defects: [StackAllocator.uninitialized_count_overflows], [LockFreeQueue.capacity_one_overwrites],
    [FileStream.retried_flush_duplicates], [Logger.flush_during_shutdown_returns_early], [CliProofs.missing_short_option_unnamed],
    [TcpSession.unresolved_host_reports_no_error], [TcpSession.wait_connected_defined] (descriptors from FD_SETSIZE on),
    [Conversation.empty_recv_reports_closed], [BinarySerializer.later_field_is_written], [UdpDatagram.oversized_line_reported_sent],
    [SocketSignals.accepted_sockets_may_raise], [FloatText.blanks_depend_on_library], [BenchHarness.rows_overhang] (the table); and [Bench.window_at_repeats] shows what a benchmark really hashes.

    ** Bounds and fuel

    Loops that are not structural carry fuel, and lemmas show it is enough: one more than the length of the input for the
    parsers and the renderer; 64 for the digits of a 64-bit number; the length of the message for SHA-256's padding; for loops that
    retry interrupted system calls, [patience] -- a bound on the interruptions (on Windows, writes of nothing) still to come, which every
    such call decreases -- plus what is left to transfer.  Sizes and counters that can wrap are 64-bit
    numbers with [wrap]; ticket, sequence and task counters are assumed not to reach 2^64 where a theorem says so.

    ** Not modelled

    - Sequentially consistent atomics and fences (the code has none), and values out of thin air, in [WeakMemory]; the relaxed counters
      and level of [Logger] are read inside its sections, the level being any value a load may return.
    - Failing allocations, and exceptions thrown by copying elements; the lock around DbgHelp, whose calls are single steps here.
    - Critical sections are atomic: the mutex is assumed to work.  [Logger.flush] is split in two sections, which allows more
      interleavings than the code.
    - What the standard library makes of the characters of a floating-point number, and its rendering of one, the resolver, [gmtime_r], the stack walk and the symbol tables
      of both platforms, and the demangler are parameters.
    - util.hpp, which only includes; the tests, the build files and the tools, which hold none of the library's logic.  Member
      functions that only hand out iterators or allocators, and the deleted copy operations, have no definition of their own. *)

From stdpp Require Export prelude list gmap strings relations sorting.
From Stdlib Require Export ZArith Ascii Lia.

#[global] Set Default Goal Selector "!".

(** ** Scopes and notations *)

Declare Scope egl_scope.
Delimit Scope egl_scope with egl.
#[global] Open Scope egl_scope.

(** Text as the code sees it: a sequence of 8-bit characters. *)
Abbreviation text := (list ascii).
Notation "$ s" := (String.list_ascii_of_string s%string) (at level 1, format "$ s") : egl_scope.

(** ** Machine integers

    A [w]-bit unsigned integer is a [Z] in [0, 2^w); every arithmetic step the code takes on
    such a type goes through [wrap]. *)

Definition wrap (w z : Z) : Z := (z mod 2 ^ w)%Z.

(** Reinterpretation of a [w]-bit pattern as a two's complement signed integer
    (the [static_cast] from [std::size_t] to [std::ptrdiff_t]). *)
Definition to_signed (w z : Z) : Z :=
  (if z mod 2 ^ w <? 2 ^ (w - 1) then z mod 2 ^ w else z mod 2 ^ w - 2 ^ w)%Z.

Abbreviation u8 := (wrap 8).
Abbreviation u32 := (wrap 32).
Abbreviation u64 := (wrap 64).

(** Characters and bytes: [code] is [static_cast<unsigned char>], [chr] the cast back. *)
Definition code (c : ascii) : Z := Z.of_N (N_of_ascii c).
Definition chr (z : Z) : ascii := ascii_of_N (Z.to_N (wrap 8 z)).

(** The bytes of a pattern, least significant first, and the number they stand for. *)
Fixpoint le_bytes (n : nat) (v : Z) : text :=
  match n with
  | O => []
  | S n => chr v :: le_bytes n (v / 256)%Z
  end.

Fixpoint le_value (bs : text) : Z :=
  match bs with
  | [] => 0%Z
  | b :: bs => (code b + 256 * le_value bs)%Z
  end.

(** ** Exceptions

    The code reports programmer errors by throwing.  A throwing operation returns an
    [outcome]; nothing is caught implicitly. *)

Inductive exn : Set :=
  | out_of_range
  | logic_error
  | invalid_argument
  | overflow_error
  | runtime_error
  | bad_alloc.

Inductive outcome (A : Type) : Type :=
  | Ret (a : A)
  | Throw (e : exn).
Arguments Ret {A} a.
Arguments Throw {A} e.

Definition outcome_bind {A B} (x : outcome A) (k : A -> outcome B) : outcome B :=
  match x with
  | Ret a => k a
  | Throw e => Throw e
  end.

Notation "'let!' x ':=' c1 'in' c2" := (outcome_bind c1 (fun x => c2))
  (at level 10, x pattern, c1 at level 100, c2 at level 200) : egl_scope.

#[export] Instance exn_eq_dec : EqDecision exn.
Proof. solve_decision. Defined.
#[export] Instance outcome_eq_dec {A} `{EqDecision A} : EqDecision (outcome A).
Proof. solve_decision. Defined.

(** ** Labelled transition systems

    The concurrent components are step relations over a shared state.  A component gives an
    instance of [System]; reachability and the induction principle for invariants are shared. *)

Class System (S L : Type) := {
  initial : S -> Prop;
  step : S -> L -> S -> Prop
}.

Inductive reachable {S L : Type} `{System S L} : S -> Prop :=
  | reach_init s : initial s -> reachable s
  | reach_step s l s' : reachable s -> step s l s' -> reachable s'.

(** A finite execution and the labels it shows. *)
Inductive exec {S L : Type} `{System S L} : S -> list L -> S -> Prop :=
  | exec_nil s : exec s [] s
  | exec_snoc s ls s' l s'' : exec s ls s' -> step s' l s'' -> exec s (ls ++ [l]) s''.

Definition inductive_invariant {S L : Type} `{System S L} (I : S -> Prop) : Prop :=
  (forall s, initial s -> I s) /\ (forall s l s', I s -> step s l s' -> I s').

(** ** Strict weak orderings: the contract of every [Compare] parameter *)

Class StrictWeakOrder {A} (lt : A -> A -> bool) : Prop := {
  swo_irrefl : forall x, lt x x = false;
  swo_trans : forall x y z, lt x y = true -> lt y z = true -> lt x z = true;
  swo_cotrans : forall x y z, lt x z = true -> lt x y = true \/ lt y z = true
}.

(** Two values are equivalent when neither is less than the other. *)
Definition equivalent {A} (lt : A -> A -> bool) (x y : A) : bool :=
  negb (lt x y) && negb (lt y x).

(** ** Automation *)

Create HintDb egl.
Create Rewrite HintDb egl.

(** Case analysis on every [match], [if] and [decide] of the goal and the context. *)
Ltac split_cases :=
  repeat first
    [ progress simplify_eq/=
    | case_match
    | case_decide ].

(** Texts up to reassociation. *)
Ltac lists := repeat progress (simpl; rewrite <- ?app_assoc); try done.

(** Case analysis on the conditionals of the goal only. *)
Ltac tests := repeat (match goal with |- context [if ?b then _ else _] => destruct b eqn:? end; simpl).

(** Booleans to propositions, everywhere. *)
Ltac bools :=
  repeat match goal with
  | H : _ && _ = true |- _ => apply andb_true_iff in H; destruct H
  | H : _ || _ = false |- _ => apply orb_false_iff in H; destruct H
  | H : negb _ = true |- _ => apply negb_true_iff in H
  | H : negb _ = false |- _ => apply negb_false_iff in H
  | H : (_ =? _)%nat = true |- _ => apply Nat.eqb_eq in H
  | H : (_ =? _)%nat = false |- _ => apply Nat.eqb_neq in H
  | H : (_ <? _)%nat = true |- _ => apply Nat.ltb_lt in H
  | H : (_ <? _)%nat = false |- _ => apply Nat.ltb_ge in H
  | H : (_ <=? _)%nat = true |- _ => apply Nat.leb_le in H
  | H : (_ <=? _)%nat = false |- _ => apply Nat.leb_gt in H
  | H : (_ =? _)%Z = true |- _ => apply Z.eqb_eq in H
  | H : (_ =? _)%Z = false |- _ => apply Z.eqb_neq in H
  | H : (_ <? _)%Z = true |- _ => apply Z.ltb_lt in H
  | H : (_ <? _)%Z = false |- _ => apply Z.ltb_ge in H
  | H : (_ <=? _)%Z = true |- _ => apply Z.leb_le in H
  | H : (_ <=? _)%Z = false |- _ => apply Z.leb_gt in H
  | H : Ascii.eqb _ _ = true |- _ => apply Ascii.eqb_eq in H
  | H : Ascii.eqb _ _ = false |- _ => apply Ascii.eqb_neq in H
  end.

(** ** Lemmas on machine integers *)

Lemma wrap_bound w z : (0 <= w)%Z -> (0 <= wrap w z < 2 ^ w)%Z.
Proof. intros. apply Z.mod_pos_bound. lia. Qed.

Lemma wrap_small w z : (0 <= z < 2 ^ w)%Z -> wrap w z = z.
Proof. apply Z.mod_small. Qed.

Lemma wrap_wrap w z : wrap w (wrap w z) = wrap w z.
Proof. apply Zmod_mod. Qed.

Lemma wrap_add_l w x y : wrap w (wrap w x + y) = wrap w (x + y).
Proof. apply Zplus_mod_idemp_l. Qed.

Lemma wrap_add_r w x y : wrap w (x + wrap w y) = wrap w (x + y).
Proof. apply Zplus_mod_idemp_r. Qed.

Lemma wrap_sub_l w x y : wrap w (wrap w x - y) = wrap w (x - y).
Proof. apply Zminus_mod_idemp_l. Qed.

Lemma wrap_sub_r w x y : wrap w (x - wrap w y) = wrap w (x - y).
Proof. apply Zminus_mod_idemp_r. Qed.

#[export] Hint Rewrite wrap_wrap wrap_add_l wrap_add_r wrap_sub_l wrap_sub_r : egl.

Lemma to_signed_wrap w z : (0 < w)%Z -> (- 2 ^ (w - 1) <= z < 2 ^ (w - 1))%Z -> to_signed w (wrap w z) = z.
Proof.
  intros Hw Hz. unfold to_signed, wrap. rewrite Zmod_mod.
  assert (2 ^ w = 2 * 2 ^ (w - 1))%Z as E.
  { replace w with (Z.succ (w - 1)) at 1 by lia. apply Z.pow_succ_r. lia. }
  destruct (decide (0 <= z)%Z).
  - rewrite Z.mod_small by lia. destruct (Z.ltb_spec z (2 ^ (w - 1))); lia.
  - rewrite <- (Z.mod_add z 1 (2 ^ w)) by lia. rewrite Z.mod_small by lia.
    destruct (Z.ltb_spec (z + 1 * 2 ^ w) (2 ^ (w - 1))); lia.
Qed.

(** ** Lemmas on characters *)

Lemma code_bound c : (0 <= code c < 256)%Z.
Proof.
  unfold code. pose proof (N_ascii_bounded c). lia.
Qed.

Lemma code_chr z : code (chr z) = wrap 8 z.
Proof.
  unfold code, chr. rewrite N_ascii_embedding.
  - rewrite Z2N.id; [done|]. apply wrap_bound; lia.
  - pose proof (wrap_bound 8 z). change (2 ^ 8)%Z with 256%Z in *. lia.
Qed.

Lemma chr_code c : chr (code c) = c.
Proof.
  unfold chr. rewrite wrap_small by (apply (code_bound c)).
  unfold code. rewrite N2Z.id. apply ascii_N_embedding.
Qed.

Lemma code_inj c d : code c = code d -> c = d.
Proof. intros H. by rewrite <- (chr_code c), <- (chr_code d), H. Qed.

#[export] Hint Rewrite code_chr chr_code : egl.
#[export] Hint Resolve code_bound : egl.

(** ** Lemmas on byte patterns *)

Lemma length_le_bytes n v : length (le_bytes n v) = n.
Proof. revert v. induction n; intros; simpl; [done|]. by f_equal. Qed.

Lemma le_value_bytes n v : (0 <= v < 256 ^ Z.of_nat n)%Z -> le_value (le_bytes n v) = v.
Proof.
  revert v. induction n as [|n IH]; intros v Hv; simpl; [change (256 ^ Z.of_nat 0)%Z with 1%Z in Hv; lia|].
  rewrite code_chr. unfold wrap. change (2 ^ 8)%Z with 256%Z.
  rewrite Nat2Z.inj_succ, Z.pow_succ_r in Hv by lia.
  rewrite IH; [pose proof (Z.div_mod v 256 ltac:(lia)); lia|].
  split; [apply Z.div_pos; lia|]. apply Z.div_lt_upper_bound; lia.
Qed.

Lemma le_value_bound bs : (0 <= le_value bs < 256 ^ Z.of_nat (length bs))%Z.
Proof.
  induction bs as [|b bs IH]; simpl length; [simpl; lia|].
  rewrite Nat2Z.inj_succ, Z.pow_succ_r by lia. simpl. pose proof (code_bound b). lia.
Qed.

Lemma le_bytes_lookup n v i : i < n -> le_bytes n v !! i = Some (chr (v / 256 ^ Z.of_nat i)).
Proof.
  revert v i. induction n as [|n IH]; intros v [|i] Hi; simpl; try lia.
  - by rewrite Z.div_1_r.
  - rewrite IH by lia. rewrite Z.div_div by lia.
    change (Z.pow_pos 256 _) with (256 ^ Z.of_nat (S i))%Z. by rewrite Nat2Z.inj_succ, Z.pow_succ_r by lia.
Qed.

(** Pasting a field above [n] bits: the [|] of shifted parts is their sum. *)
Lemma lor_shiftl_add x b n : (0 <= n)%Z -> (0 <= b < 2 ^ n)%Z -> Z.lor (Z.shiftl x n) b = (x * 2 ^ n + b)%Z.
Proof.
  intros Hn Hb. assert (Z.land (Z.shiftl x n) b = 0%Z) as E.
  { apply Z.bits_inj'. intros i Hi. rewrite Z.land_spec, Z.bits_0, Z.shiftl_spec by done.
    destruct (decide (i < n)%Z).
    - rewrite Z.testbit_neg_r by lia. done.
    - rewrite <- (Z.mod_small b (2 ^ n)) by done. rewrite Z.mod_pow2_bits_high by lia. apply andb_false_r. }
  rewrite <- Z.lxor_lor, <- Z.add_nocarry_lxor by done. rewrite Z.shiftl_mul_pow2 by done. done.
Qed.

Lemma lor_add x b n : (0 <= n)%Z -> (x mod 2 ^ n = 0)%Z -> (0 <= b < 2 ^ n)%Z -> Z.lor x b = (x + b)%Z.
Proof.
  intros Hn Hx Hb. pose proof (Z.div_mod x (2 ^ n)%Z ltac:(lia)) as E.
  replace x with (Z.shiftl (x / 2 ^ n) n)%Z at 1 by (rewrite Z.shiftl_mul_pow2; lia).
  rewrite lor_shiftl_add by done. lia.
Qed.

(** ** Reachability and invariants *)

Lemma invariant_reachable {S L : Type} `{System S L} (I : S -> Prop) :
  inductive_invariant I -> forall s, reachable s -> I s.
Proof. intros [Hi Hs] s. induction 1; eauto. Qed.

Lemma exec_reachable {S L : Type} `{System S L} s ls s' : exec s ls s' -> reachable s -> reachable s'.
Proof. induction 1; eauto using reachable. Qed.

Lemma exec_app {S L : Type} `{System S L} s ls s' ls' s'' :
  exec s ls s' -> exec s' ls' s'' -> exec s (ls ++ ls') s''.
Proof.
  intros H1. induction 1.
  - by rewrite app_nil_r.
  - rewrite app_assoc. econstructor; eauto.
Qed.

Lemma exec_cons {S L : Type} `{System S L} s l s1 ls s2 : step s l s1 -> exec s1 ls s2 -> exec s (l :: ls) s2.
Proof. intros Hs Hx. apply (exec_app s [l] s1); [apply (exec_snoc s [] s); [apply exec_nil|done]|done]. Qed.

(** Splitting an execution at its last step. *)
Lemma exec_last {S L : Type} `{System S L} s0 es e s : exec s0 (es ++ [e]) s -> exists s1, exec s0 es s1 /\ step s1 e s.
Proof.
  intros Hx. remember (es ++ [e]) as ls eqn:E. destruct Hx as [s|s ls s1 l s2 Hx Hs]; [by destruct es|].
  apply app_inj_tail in E as [-> ->]. eauto.
Qed.

(** ** Strict weak orderings *)

Section swo.
Context {A} (lt : A -> A -> bool) `{!StrictWeakOrder lt}.

Lemma swo_asym x y : lt x y = true -> lt y x = false.
Proof.
  intros H. destruct (lt y x) eqn:E; [|done].
  pose proof (swo_trans x y x H E). pose proof (swo_irrefl x). congruence.
Qed.

Lemma swo_ge_trans x y z : lt x y = false -> lt y z = false -> lt x z = false.
Proof.
  intros H1 H2. destruct (lt x z) eqn:E; [|done].
  destruct (swo_cotrans x y z E); congruence.
Qed.

Lemma swo_lt_ge x y z : lt x y = true -> lt z y = false -> lt x z = true.
Proof. intros H1 H2. destruct (swo_cotrans x z y H1); congruence. Qed.

Lemma swo_ge_lt x y z : lt y x = false -> lt y z = true -> lt x z = true.
Proof. intros H1 H2. destruct (swo_cotrans y x z H2); congruence. Qed.

Lemma equivalent_refl x : equivalent lt x x = true.
Proof. unfold equivalent. by rewrite (swo_irrefl (lt:=lt)). Qed.

Lemma equivalent_sym x y : equivalent lt x y = equivalent lt y x.
Proof. unfold equivalent. by rewrite andb_comm. Qed.

Lemma equivalent_spec x y : equivalent lt x y = true <-> lt x y = false /\ lt y x = false.
Proof. unfold equivalent. by rewrite andb_true_iff, !negb_true_iff. Qed.

Lemma equivalent_trans x y z :
  equivalent lt x y = true -> equivalent lt y z = true -> equivalent lt x z = true.
Proof. rewrite !equivalent_spec. intros [] []. eauto using swo_ge_trans. Qed.

End swo.

#[export] Instance Z_ltb_swo : StrictWeakOrder Z.ltb.
Proof. split; intros; bools; rewrite ?Z.ltb_lt, ?Z.ltb_ge; lia. Qed.
#[export] Instance nat_ltb_swo : StrictWeakOrder Nat.ltb.
Proof. split; intros; bools; rewrite ?Nat.ltb_lt, ?Nat.ltb_ge; lia. Qed.

(** ** Lists *)

Lemma length_tail {A} (l : list A) : length (tail l) = length l - 1.
Proof. destruct l; simpl; lia. Qed.

Lemma filter_all {A} (P : A -> Prop) `{forall x, Decision (P x)} (l : list A) :
  Forall P l -> filter P l = l.
Proof. induction 1 as [|x l Hx _ IH]; [done|]. by rewrite filter_cons_True, IH. Qed.

(** A prefix is determined by its length. *)
Lemma take_length_take {A} (l : list A) n : take (length (take n l)) l = take n l.
Proof.
  rewrite length_take. destruct (decide (n <= length l)); [by rewrite Nat.min_l|]. rewrite Nat.min_r by lia.
  by rewrite firstn_all, take_ge by lia.
Qed.

(** What is left of a list at an index. *)
Lemma drop_cons_lookup {A} (l t : list A) i c : drop i l = c :: t -> l !! i = Some c /\ drop (S i) l = t.
Proof.
  intros H. split.
  - rewrite <- (Nat.add_0_r i), <- lookup_drop. by rewrite H.
  - rewrite <- Nat.add_1_r, <- drop_drop, H. done.
Qed.

Lemma drop_nil_lookup {A} (l : list A) i : drop i l = [] -> l !! i = None /\ length l <= i.
Proof.
  intros H. apply (f_equal length) in H. rewrite length_drop in H. simpl in H.
  split; [apply lookup_ge_None_2|]; lia.
Qed.

#[export] Hint Rewrite @length_tail @length_app @length_insert @length_alter : egl.
