(* ===== verification/StdAlgo.v ===== *)
(** * The standard-library routines the containers and codecs call

    Executable models of the parts of the C++ standard library that several components share,
    each with the guarantee the standard documents for it, proved here once:
    [std::lower_bound] / [std::upper_bound] ([partition_point], the halving loop),
    [std::vector::insert] / [erase], [std::unique] followed by [erase], [std::stable_sort],
    and [std::string_view::find].
    [std::sort], whose result on equivalent elements is not specified, is a class ([SortImpl]). *)

From S2P Require Import Prelude.

(** ** Definitions *)

(** The loop of [std::lower_bound]: [first] and [len] delimit the range still to be searched,
    [p] is "the element is ordered before the key".  [std::upper_bound] is the same loop with
    "the key is not ordered before the element". *)
Fixpoint partition_loop {A} (fuel : nat) (p : A -> bool) (l : list A) (first len : nat) : nat :=
  match fuel with
  | O => first
  | S fuel =>
      if (len =? 0)%nat then first
      else
        let half := Nat.div2 len in
        let middle := (first + half)%nat in
        match l !! middle with
        | None => first
        | Some x =>
            if p x then partition_loop fuel p l (S middle) (len - half - 1)
            else partition_loop fuel p l first half
        end
  end.

Definition partition_point {A} (p : A -> bool) (l : list A) : nat :=
  partition_loop (S (length l)) p l 0 (length l).

(** [vector::insert(pos, x)] and [vector::erase(pos)]. *)
Definition insert_at {A} (i : nat) (x : A) (l : list A) : list A := take i l ++ x :: drop i l.
Definition erase_at {A} (i : nat) (l : list A) : list A := take i l ++ drop (S i) l.

(** [std::unique] keeps the first element of every run; [kept] is the last element kept. *)
Fixpoint unique_after {A} (same : A -> A -> bool) (kept : A) (l : list A) : list A :=
  match l with
  | [] => []
  | x :: l => if same kept x then unique_after same kept l else x :: unique_after same x l
  end.

Definition unique {A} (same : A -> A -> bool) (l : list A) : list A :=
  match l with
  | [] => []
  | x :: l => x :: unique_after same x l
  end.

(** [std::stable_sort]: the sorted arrangement that keeps equivalent elements in order. *)
Fixpoint stable_insert {A} (lt : A -> A -> bool) (x : A) (l : list A) : list A :=
  match l with
  | [] => [x]
  | y :: l' => if lt y x then y :: stable_insert lt x l' else x :: l
  end.

Definition stable_sort {A} (lt : A -> A -> bool) (l : list A) : list A :=
  foldr (stable_insert lt) [] l.

(** Sorted for a strict ordering: no element is ordered before an earlier one. *)
Definition sorted {A} (lt : A -> A -> bool) (l : list A) : Prop :=
  StronglySorted (fun x y => lt y x = false) l.

(** Sorted without equivalent elements: the invariant of the flat containers. *)
Definition strictly_sorted {A} (lt : A -> A -> bool) (l : list A) : Prop :=
  StronglySorted (fun x y => lt x y = true) l.

(** [std::sort]: a sorted permutation of its input, equivalent elements in any order. *)
Class SortImpl {A} (lt : A -> A -> bool) (sort : list A -> list A) : Prop := {
  sort_perm : forall l, sort l ≡ₚ l;
  sort_sorted : forall l, sorted lt (sort l)
}.

(** [std::string_view::starts_with] and [find]; [None] is [npos]. *)
Fixpoint starts_with (prefix t : text) : bool :=
  match prefix, t with
  | [], _ => true
  | _ :: _, [] => false
  | c :: prefix, d :: t => Ascii.eqb c d && starts_with prefix t
  end.

Fixpoint find_first (needle t : text) : option nat :=
  if starts_with needle t then Some 0
  else
    match t with
    | [] => None
    | _ :: t => S <$> find_first needle t
    end.

Definition find_from (needle t : text) (pos : nat) : option nat :=
  if (length t <? pos)%nat then None else Nat.add pos <$> find_first needle (drop pos t).

(** ** Binary search *)

Section partition.
Context {A} (p : A -> bool).

(** A list partitioned by [p] at [k]: exactly the first [k] elements satisfy [p]. *)
Definition partitioned (l : list A) (k : nat) : Prop :=
  k <= length l /\ forall i x, l !! i = Some x -> (p x = true <-> i < k).

Lemma partition_loop_spec fuel l first len k :
  partitioned l k -> first <= k <= first + len -> first + len <= length l -> len < fuel ->
  partition_loop fuel p l first len = k.
Proof.
  intros [Hk Hp]. revert first len.
  induction fuel as [|fuel IH]; intros first len H1 H2 H3; [lia|]. simpl.
  destruct (Nat.eqb_spec len 0); [lia|].
  pose proof (Nat.lt_div2 len ltac:(lia)) as Hhalf. generalize dependent (Nat.div2 len). intros half Hhalf.
  destruct (l !! (first + half)) as [x|] eqn:E.
  - pose proof (Hp _ _ E) as Hx. destruct (p x).
    + apply IH; [|lia..]. apply proj1 in Hx. specialize (Hx eq_refl). lia.
    + apply IH; [|lia..]. split; [lia|]. apply Nat.nlt_ge. intros ?. destruct Hx as [_ Hx].
      by specialize (Hx ltac:(lia)).
  - apply lookup_ge_None in E. lia.
Qed.

(** Binary search finds the boundary of every partitioned list. *)
Lemma partition_point_spec l k : partitioned l k -> partition_point p l = k.
Proof. intros H. apply partition_loop_spec; [done|destruct H; lia..]. Qed.

Lemma partition_loop_le fuel l first len :
  first + len <= length l -> partition_loop fuel p l first len <= length l.
Proof.
  revert first len. induction fuel as [|fuel IH]; intros first len H; simpl; [lia|].
  destruct (Nat.eqb_spec len 0); [lia|].
  pose proof (Nat.lt_div2 len ltac:(lia)) as Hhalf. generalize dependent (Nat.div2 len). intros half Hhalf.
  repeat case_match; [apply IH; lia..|lia].
Qed.

Lemma partition_point_le l : partition_point p l <= length l.
Proof. by apply partition_loop_le. Qed.

Lemma partitioned_app l1 l2 :
  Forall (fun x => p x = true) l1 -> Forall (fun x => p x = false) l2 ->
  partitioned (l1 ++ l2) (length l1).
Proof.
  rewrite !Forall_lookup. intros H1 H2. split; [rewrite length_app; lia|].
  intros i x [H|[Hi H]]%lookup_app_Some.
  - split; intros _; [by eapply lookup_lt_Some|by eapply H1].
  - split; [|lia]. intros. specialize (H2 _ _ H). congruence.
Qed.

Lemma partition_point_app l1 l2 :
  Forall (fun x => p x = true) l1 -> Forall (fun x => p x = false) l2 ->
  partition_point p (l1 ++ l2) = length l1.
Proof. intros. by apply partition_point_spec, partitioned_app. Qed.

End partition.

(** A sorted list splits at any key into what is before it and what is not. *)
Lemma sorted_split {A} (R : A -> A -> Prop) (p : A -> bool) l :
  StronglySorted R l -> (forall x y, R x y -> p y = true -> p x = true) ->
  exists l1 l2, l = l1 ++ l2 /\ Forall (fun x => p x = true) l1 /\ Forall (fun x => p x = false) l2.
Proof.
  intros Hs Hp. induction Hs as [|x l Hs IH Hx].
  - by exists [], [].
  - destruct (p x) eqn:E.
    + destruct IH as (l1 & l2 & -> & ? & ?). exists (x :: l1), l2. auto.
    + exists [], (x :: l). repeat split; [constructor|]. constructor; [done|].
      eapply Forall_impl; [exact Hx|]. intros y Hxy. simpl in Hxy.
      destruct (p y) eqn:E'; [|done]. by rewrite (Hp _ _ Hxy E') in E.
Qed.

(** ** Positional insertion and erasure *)

Lemma insert_at_app {A} (x : A) l1 l2 : insert_at (length l1) x (l1 ++ l2) = l1 ++ x :: l2.
Proof. unfold insert_at. by rewrite take_app_length, drop_app_length. Qed.

Lemma erase_at_app {A} (x : A) l1 l2 : erase_at (length l1) (l1 ++ x :: l2) = l1 ++ l2.
Proof.
  unfold erase_at. rewrite take_app_length. f_equal.
  rewrite drop_app_ge by lia.
  replace (S (length l1) - length l1) with 1 by lia. by rewrite skipn_cons, drop_0.
Qed.

(** ** Stable sorting and removal of duplicates *)

Section sorting.
Context {A} (lt : A -> A -> bool) `{!StrictWeakOrder lt}.

Lemma stable_insert_perm x l : stable_insert lt x l ≡ₚ x :: l.
Proof.
  induction l as [|y l IH]; simpl; [done|]. case_match; [|done].
  rewrite IH. constructor.
Qed.

Lemma stable_insert_sorted x l : sorted lt l -> sorted lt (stable_insert lt x l).
Proof.
  induction 1 as [|y l Hs IH Hy]; simpl; [repeat constructor|].
  destruct (lt y x) eqn:E.
  - constructor; [done|]. rewrite stable_insert_perm. constructor; [|done].
    by apply swo_asym.
  - constructor; [by constructor|]. constructor; [done|].
    eapply Forall_impl; [exact Hy|]. intros z Hz. simpl in Hz. by eapply swo_ge_trans.
Qed.

Lemma stable_sort_perm l : stable_sort lt l ≡ₚ l.
Proof.
  induction l as [|x l IH]; simpl; [done|]. by rewrite stable_insert_perm, IH.
Qed.

Lemma stable_sort_sorted l : sorted lt (stable_sort lt l).
Proof. induction l; simpl; [constructor|]. by apply stable_insert_sorted. Qed.

#[export] Instance stable_sort_impl : SortImpl lt (stable_sort lt).
Proof. split; [apply stable_sort_perm|apply stable_sort_sorted]. Qed.

(** The duplicates of a sorted list are adjacent: [unique] leaves a strictly sorted one. *)
Lemma unique_after_sorted kept l :
  sorted lt (kept :: l) -> strictly_sorted lt (kept :: unique_after (equivalent lt) kept l).
Proof.
  revert kept. induction l as [|x l IH]; intros kept Hs; simpl; [repeat constructor|].
  inv Hs. match goal with H : Forall _ (x :: l) |- _ => inv H end.
  destruct (equivalent lt kept x) eqn:E.
  - apply IH. match goal with H : StronglySorted _ (x :: l) |- _ => inv H end. by constructor.
  - assert (lt kept x = true) as Hlt.
    { unfold equivalent in E. apply andb_false_iff in E. rewrite !negb_false_iff in E.
      destruct E; congruence. }
    specialize (IH x ltac:(done)). constructor; [done|]. constructor; [done|].
    inv IH. eapply Forall_impl; [eassumption|]. intros y Hy. simpl in Hy.
    by eapply swo_trans.
Qed.

Lemma unique_sorted l : sorted lt l -> strictly_sorted lt (unique (equivalent lt) l).
Proof. destruct l; [constructor|]. apply unique_after_sorted. Qed.

Lemma unique_after_sublist kept (l : list A) : unique_after (equivalent lt) kept l `sublist_of` l.
Proof.
  revert kept. induction l as [|x l IH]; intros kept; simpl; [constructor|].
  case_match; by constructor.
Qed.

Lemma unique_sublist l : unique (equivalent lt) l `sublist_of` l.
Proof. destruct l; [constructor|]. simpl. constructor. apply unique_after_sublist. Qed.

End sorting.

(** ** Text search *)

Lemma starts_with_app p t : starts_with p (p ++ t) = true.
Proof. induction p; simpl; [done|]. by rewrite Ascii.eqb_refl. Qed.

Lemma starts_with_true p t : starts_with p t = true <-> exists t', t = p ++ t'.
Proof.
  split; [|intros [? ->]; apply starts_with_app].
  revert t. induction p as [|c p IH]; intros [|d t]; simpl; intros H; bools; subst; eauto.
  - done.
  - destruct (IH t) as [t' ->]; eauto.
Qed.

(** The needle occurs at the position found and at no earlier one. *)
Lemma find_first_spec needle t i :
  find_first needle t = Some i ->
  i <= length t /\ starts_with needle (drop i t) = true /\
  (forall j, j < i -> starts_with needle (drop j t) = false).
Proof.
  revert i. induction t as [|c t IH]; intros i; simpl; case_match eqn:E; intros H; simplify_eq/=.
  - split_and!; [lia|done|intros; lia].
  - split_and!; [lia|done|intros; lia].
  - destruct (find_first needle t) as [j|] eqn:Ej; simplify_eq/=.
    destruct (IH j eq_refl) as (? & ? & Hno). split_and!; [lia|done|].
    intros [|k] Hk; [done|]. simpl. apply Hno. lia.
Qed.

Lemma find_first_none needle t :
  find_first needle t = None <-> forall i, starts_with needle (drop i t) = false.
Proof.
  induction t as [|c t IH]; simpl; case_match eqn:E.
  - split; [done|]. intros H. specialize (H 0). simpl in H. congruence.
  - split; [|done]. intros _ i. by rewrite drop_nil.
  - split; [done|]. intros H. specialize (H 0). simpl in H. congruence.
  - rewrite fmap_None, IH. split; intros H i; [by destruct i; simpl|]. apply (H (S i)).
Qed.
