(* ===== verification/Charconv.v ===== *)
(** * Integer text conversion: [std::to_chars] and [std::from_chars]

    The integer overloads the code calls ([StringBuilder::append], [CliParser], [JsonParser],
    [Logger], [StackTrace]), with the round trip between them. *)

From S2P Require Import Prelude.

(** ** Definitions *)

(** [std::to_chars]: the digits of a value in a base, most significant first.  64 steps are
    enough for a 64-bit value in any base from 2 on. *)
Definition digit_char (d : Z) : ascii := chr (if d <? 10 then 48 + d else 87 + d)%Z.

Fixpoint digits_loop (fuel : nat) (base n : Z) (acc : text) : text :=
  match fuel with
  | O => acc
  | S fuel =>
      let acc := digit_char (n mod base)%Z :: acc in
      if (n / base =? 0)%Z then acc else digits_loop fuel base (n / base)%Z acc
  end.

Definition digits (base n : Z) : text := digits_loop 64 base n [].

(** The rendering of [value], or [None] ([errc::value_too_large]) when it does not fit [cap]. *)
Definition to_chars (cap : nat) (base value : Z) : option text :=
  let t := if (value <? 0)%Z then "-"%char :: digits base (- value)%Z else digits base value in
  if (length t <=? cap)%nat then Some t else None.

(** [std::from_chars] for an integer type with range [lo, hi]: an optional minus sign (signed
    types only), the longest run of digits, the value if it is in range.  The result carries
    the unconsumed rest. *)
Definition is_digit (c : ascii) : bool := ((48 <=? code c) && (code c <=? 57))%Z.

Fixpoint take_digits (t : text) : text * text :=
  match t with
  | c :: t' => if is_digit c then let '(ds, r) := take_digits t' in (c :: ds, r) else ([], t)
  | [] => ([], [])
  end.

Definition digits_value (ds : text) : Z :=
  foldl (fun acc c => 10 * acc + (code c - 48))%Z 0%Z ds.

Definition from_chars (lo hi : Z) (t : text) : option (Z * text) :=
  let '(negative, body) :=
    match t with
    | c :: t' => if ((lo <? 0)%Z && Ascii.eqb c "-") then (true, t') else (false, t)
    | [] => (false, t)
    end in
  let '(ds, rest) := take_digits body in
  match ds with
  | [] => None
  | _ =>
      let v := if negative then (- digits_value ds)%Z else digits_value ds in
      if ((lo <=? v) && (v <=? hi))%Z then Some (v, rest) else None
  end.


(** ** Digits *)

Lemma digit_char_code d : (0 <= d < 10)%Z -> code (digit_char d) = (48 + d)%Z.
Proof.
  intros. unfold digit_char. destruct (Z.ltb_spec d 10); [|lia].
  rewrite code_chr. apply wrap_small. lia.
Qed.

Lemma digit_char_is_digit d : (0 <= d < 10)%Z -> is_digit (digit_char d) = true.
Proof. intros. unfold is_digit. rewrite digit_char_code by done. apply andb_true_iff; lia. Qed.

Lemma is_digit_bound c : is_digit c = true -> (48 <= code c <= 57)%Z.
Proof. unfold is_digit. intros. bools. lia. Qed.

Lemma digits_value_snoc ds c : digits_value (ds ++ [c]) = (10 * digits_value ds + (code c - 48))%Z.
Proof. unfold digits_value. by rewrite foldl_app. Qed.

(** What the rendering of a non-negative number looks like. *)
Record decimal_of (n : Z) (ds : text) : Prop := {
  decimal_digits : Forall (fun c => is_digit c = true) ds;
  decimal_nonempty : ds <> [];
  decimal_value : digits_value ds = n;
  decimal_length : forall k, 1 <= k -> (n < 10 ^ Z.of_nat k)%Z -> length ds <= k
}.

Lemma decimal_one n : (0 <= n < 10)%Z -> decimal_of n [digit_char n].
Proof.
  intros Hn. split.
  - repeat constructor. by apply digit_char_is_digit.
  - done.
  - unfold digits_value. simpl. rewrite digit_char_code; lia.
  - intros. simpl. lia.
Qed.

Lemma decimal_more n ds :
  (10 <= n)%Z -> decimal_of (n / 10) ds -> decimal_of n (ds ++ [digit_char (n mod 10)]).
Proof.
  intros Hn [Hd Hne Hv Hl]. pose proof (Z.mod_pos_bound n 10 ltac:(lia)).
  pose proof (Z.div_mod n 10 ltac:(lia)). split.
  - apply Forall_app. split; [done|]. repeat constructor. by apply digit_char_is_digit.
  - by destruct ds.
  - rewrite digits_value_snoc, Hv, digit_char_code by lia. lia.
  - intros k Hk Hlt. rewrite length_app. simpl.
    destruct k as [|[|k]]; [lia|change (10 ^ Z.of_nat 1)%Z with 10%Z in Hlt; lia|].
    enough (length ds <= S k) by lia. apply Hl; [lia|].
    apply Z.div_lt_upper_bound; [lia|].
    rewrite (Nat2Z.inj_succ (S k)), Z.pow_succ_r in Hlt by lia. done.
Qed.

Lemma digits_loop_spec fuel n acc :
  (0 <= n < 10 ^ Z.of_nat fuel)%Z ->
  1 <= fuel -> exists ds, digits_loop fuel 10 n acc = ds ++ acc /\ decimal_of n ds.
Proof.
  revert n acc. induction fuel as [|fuel IH]; intros n acc Hn Hf; [lia|]. simpl.
  pose proof (Z.mod_pos_bound n 10 ltac:(lia)). pose proof (Z.div_mod n 10 ltac:(lia)).
  destruct (Z.eqb_spec (n / 10) 0) as [E|E].
  - exists [digit_char n]. replace (n mod 10)%Z with n by lia. split; [done|].
    apply decimal_one. lia.
  - assert (0 <= n / 10)%Z by (apply Z.div_pos; lia).
    destruct fuel as [|fuel]; [change (10 ^ Z.of_nat 1)%Z with 10%Z in Hn; lia|].
    destruct (IH (n / 10)%Z (digit_char (n mod 10) :: acc)) as (ds & -> & Hds); [|lia|].
    + split; [done|]. apply Z.div_lt_upper_bound; [lia|].
      rewrite (Nat2Z.inj_succ (S fuel)), Z.pow_succ_r in Hn by lia. lia.
    + exists (ds ++ [digit_char (n mod 10)]). rewrite <- app_assoc. split; [done|].
      apply decimal_more; [lia|done].
Qed.

Lemma digits_spec n : (0 <= n < 2 ^ 64)%Z -> decimal_of n (digits 10 n).
Proof.
  intros Hn. destruct (digits_loop_spec 64 n []) as (ds & E & Hds); [|lia|].
  - split; [lia|]. eapply Z.lt_trans; [apply Hn|]. by vm_compute.
  - unfold digits. by rewrite E, app_nil_r.
Qed.

(** ** Reading digits back *)

Lemma take_digits_app ds rest :
  Forall (fun c => is_digit c = true) ds ->
  match rest with [] => True | c :: _ => is_digit c = false end ->
  take_digits (ds ++ rest) = (ds, rest).
Proof.
  intros Hds Hr. induction Hds as [|c ds Hc Hds IH]; simpl.
  - destruct rest; simpl; [done|]. by rewrite Hr.
  - by rewrite Hc, IH.
Qed.

Lemma take_digits_spec t ds rest :
  take_digits t = (ds, rest) ->
  t = ds ++ rest /\ Forall (fun c => is_digit c = true) ds /\
  match rest with [] => True | c :: _ => is_digit c = false end.
Proof.
  revert ds rest. induction t as [|c t IH]; simpl; intros ds rest H; simplify_eq; [done|].
  destruct (is_digit c) eqn:E; simplify_eq/=; [|by rewrite E].
  destruct (take_digits t) as [ds' r']. simplify_eq.
  destruct (IH _ _ eq_refl) as (-> & ? & ?). auto.
Qed.

Lemma minus_not_digit : is_digit "-" = false.
Proof. reflexivity. Qed.

(** [to_chars] never overflows the 24-byte buffer on a 64-bit value ... *)
Lemma to_chars_fits cap v :
  21 <= cap -> (- 2 ^ 63 <= v < 2 ^ 64)%Z ->
  exists t, to_chars cap 10 v = Some t /\
    t = if (v <? 0)%Z then "-"%char :: digits 10 (- v) else digits 10 v.
Proof.
  intros Hc Hv. unfold to_chars.
  assert (forall n, (0 <= n < 2 ^ 64)%Z -> length (digits 10 n) <= 20) as Hlen.
  { intros n Hn. apply (decimal_length n); [by apply digits_spec|lia|].
    eapply Z.lt_trans; [apply Hn|]. by vm_compute. }
  set (t := if (v <? 0)%Z then "-"%char :: digits 10 (- v) else digits 10 v).
  assert (length t <= 21) as Ht.
  { unfold t. destruct (Z.ltb_spec v 0); simpl.
    - specialize (Hlen (- v)%Z ltac:(lia)). lia.
    - specialize (Hlen v ltac:(lia)). lia. }
  exists t. destruct (Nat.leb_spec (length t) cap); [done|lia].
Qed.

(** ... and [from_chars] reads every rendering back, leaving what follows it. *)
Lemma from_to_chars cap v t lo hi rest :
  (lo <= v <= hi)%Z -> (- 2 ^ 63 <= v < 2 ^ 64)%Z ->
  match rest with [] => True | c :: _ => is_digit c = false end ->
  to_chars cap 10 v = Some t -> from_chars lo hi (t ++ rest) = Some (v, rest).
Proof.
  intros Hr Hv Hrest. unfold to_chars.
  destruct (_ <=? cap); [|done]. intros [= <-].
  destruct (Z.ltb_spec v 0) as [Hneg|Hneg].
  - pose proof (digits_spec (- v) ltac:(lia)) as [Hd Hne Hval _]. unfold from_chars. simpl.
    destruct (Z.ltb_spec lo 0); [|lia]. simpl.
    rewrite take_digits_app by done. destruct (digits 10 (- v)) eqn:E; [congruence|]. rewrite <- E in *.
    rewrite Hval, Z.opp_involutive.
    destruct (Z.leb_spec lo v), (Z.leb_spec v hi); simpl; [done|lia..].
  - pose proof (digits_spec v ltac:(lia)) as [Hd Hne Hval _]. unfold from_chars.
    destruct (digits 10 v) as [|c ds] eqn:E; [done|]. simpl.
    assert (Ascii.eqb c "-" = false) as ->.
    { apply Ascii.eqb_neq. intros ->. by inv Hd. }
    rewrite andb_false_r. change (c :: ds ++ rest) with ((c :: ds) ++ rest).
    rewrite take_digits_app by done. rewrite Hval.
    destruct (Z.leb_spec lo v), (Z.leb_spec v hi); simpl; [done|lia..].
Qed.

(** ** Any base *)

Definition digit_value (c : ascii) : Z := (if is_digit c then code c - 48 else code c - 87)%Z.
Definition base_value (base : Z) (ds : text) : Z := foldl (fun acc c => base * acc + digit_value c)%Z 0%Z ds.

Lemma digit_char_value d : (0 <= d < 36)%Z -> digit_value (digit_char d) = d.
Proof.
  intros Hd. unfold digit_value, is_digit, digit_char. rewrite code_chr.
  destruct (Z.ltb_spec d 10); rewrite wrap_small by lia.
  - destruct (Z.leb_spec 48 (48 + d)), (Z.leb_spec (48 + d) 57); simpl; lia.
  - destruct (Z.leb_spec 48 (87 + d)), (Z.leb_spec (87 + d) 57); simpl; lia.
Qed.

Lemma digits_loop_value fuel base n acc :
  (2 <= base <= 36)%Z -> (0 <= n < base ^ Z.of_nat fuel)%Z -> 1 <= fuel ->
  exists ds, digits_loop fuel base n acc = ds ++ acc /\ base_value base ds = n /\
    forall k, 1 <= k -> (n < base ^ Z.of_nat k)%Z -> length ds <= k.
Proof.
  intros Hb. revert n acc. induction fuel as [|fuel IH]; intros n acc Hn Hf; [lia|]. simpl.
  pose proof (Z.mod_pos_bound n base ltac:(lia)). pose proof (Z.div_mod n base ltac:(lia)).
  destruct (Z.eqb_spec (n / base) 0) as [E|E].
  - exists [digit_char (n mod base)]. split_and!; [done| |simpl; lia]. unfold base_value. simpl. rewrite digit_char_value by lia. lia.
  - assert (0 <= n / base)%Z by (apply Z.div_pos; lia).
    destruct fuel as [|fuel]; [exfalso; apply E, Z.div_small; change (Z.of_nat 1) with 1%Z in Hn; lia|].
    destruct (IH (n / base)%Z (digit_char (n mod base) :: acc)) as (ds & -> & Hv & Hl); [|lia|].
    + split; [done|]. apply Z.div_lt_upper_bound; [lia|]. rewrite (Nat2Z.inj_succ (S fuel)), Z.pow_succ_r in Hn by lia. lia.
    + exists (ds ++ [digit_char (n mod base)]). rewrite <- app_assoc. split_and!; [done| |].
      * unfold base_value in *. rewrite foldl_app. simpl. rewrite Hv, digit_char_value by lia. lia.
      * intros [|[|k]] Hk Hlt; [lia|exfalso; apply E, Z.div_small; change (Z.of_nat 1) with 1%Z in Hlt; lia|].
        rewrite length_app. simpl. enough (length ds <= S k) by lia. apply Hl; [lia|].
        apply Z.div_lt_upper_bound; [lia|]. rewrite (Nat2Z.inj_succ (S k)), Z.pow_succ_r in Hlt by lia. lia.
Qed.

(** A 64-bit value in hexadecimal: it fits 16 digits, which stand for it. *)
Lemma hex_digits n : (0 <= n < 2 ^ 64)%Z -> base_value 16 (digits 16 n) = n /\ length (digits 16 n) <= 16.
Proof.
  intros Hn. destruct (digits_loop_value 64 16 n []) as (ds & E & Hv & Hl); [lia| |lia|].
  - split; [lia|]. eapply Z.lt_trans; [apply Hn|]. by vm_compute.
  - unfold digits. rewrite E, app_nil_r. split; [done|]. apply Hl; [lia|]. change (16 ^ Z.of_nat 16)%Z with (2 ^ 64)%Z. lia.
Qed.
