(* ===== verification/TypeTraits.v ===== *)
(** * Compile-time traits (type_traits.hpp)

    What a trait computes is a function on types.  A type is a name, a specialization of a class template whose parameters are types,
    or one of these with qualifiers or a declarator around it; an alias template [Op] either names a type for its arguments or is
    ill-formed, which the detection idiom turns into an answer. *)

From S2P Require Import Prelude.

Inductive declarator : Set := Const | Volatile | Pointer | LvalueReference | RvalueReference.

Section types.
#[local] Unset Elimination Schemes.
Inductive ctype : Type :=
  | Named (name : text)
  | Specialization (primary : text) (args : list ctype)
  | Declared (d : declarator) (t : ctype).
End types.

Section induction.
Context (P : ctype -> Prop) (HN : forall name, P (Named name)) (HS : forall primary args, Forall P args -> P (Specialization primary args))
  (HD : forall d t, P t -> P (Declared d t)).

Fixpoint ctype_ind (t : ctype) : P t :=
  match t with
  | Named name => HN name
  | Specialization primary args =>
      HS primary args ((fix all (ts : list ctype) : Forall P ts :=
        match ts with [] => List.Forall_nil P | t :: ts => List.Forall_cons P t ts (ctype_ind t) (all ts) end) args)
  | Declared d t => HD d t (ctype_ind t)
  end.
End induction.

#[export] Instance declarator_eq_dec : EqDecision declarator.
Proof. solve_decision. Defined.

(** [std::is_same]. *)
Fixpoint is_same (a b : ctype) : bool :=
  match a, b with
  | Named x, Named y => bool_decide (x = y)
  | Specialization p xs, Specialization q ys =>
      bool_decide (p = q) &&
      (fix all (xs ys : list ctype) : bool :=
         match xs, ys with [], [] => true | x :: xs, y :: ys => is_same x y && all xs ys | _, _ => false end) xs ys
  | Declared d x, Declared e y => bool_decide (d = e) && is_same x y
  | _, _ => false
  end.

Lemma is_same_spec a b : is_same a b = true <-> a = b.
Proof.
  revert b. induction a as [x|p xs IH|d x IH] using ctype_ind; intros [y|q ys|e y]; simpl; try (split; [done|congruence]).
  - rewrite bool_decide_eq_true. split; congruence.
  - rewrite andb_true_iff, bool_decide_eq_true. 
    assert ((fix all (xs ys : list ctype) : bool :=
      match xs, ys with [], [] => true | x :: xs, y :: ys => is_same x y && all xs ys | _, _ => false end) xs ys = true <-> xs = ys) as ->.
    { revert ys. induction IH as [|x xs Hx _ IHx]; intros [|y ys]; try (split; [done|congruence]). rewrite andb_true_iff, Hx, IHx. split; [intros [-> ->]; done|]. by intros [= -> ->]. }
    split; [intros [-> ->]; done|by intros [= -> ->]].
  - rewrite andb_true_iff, bool_decide_eq_true, IH. split; [intros [-> ->]; done|by intros [= -> ->]].
Qed.

#[export] Instance ctype_eq_dec : EqDecision ctype.
Proof. refine (fun a b => cast_if (decide (is_same a b = true))); by rewrite <- is_same_spec. Defined.

(** ** The traits *)

Definition always_false_v (Ts : list ctype) : bool := false.

(** [detail::nonesuch]: a type of its own. *)
Definition nonesuch : ctype := Named ($"it::d4np::util::detail::nonesuch").

(** [Op<Args...>]: [None] when it is ill-formed. *)
Definition alias_template : Type := list ctype -> option ctype.

(** The primary template, and the specialization chosen when [void_t<Op<Args...>>] is well-formed: [value_t] and [type]. *)
Definition detector (Default : ctype) (Op : alias_template) (Args : list ctype) : bool * ctype :=
  match Op Args with Some t => (true, t) | None => (false, Default) end.

Definition is_detected_v (Op : alias_template) (Args : list ctype) : bool := (detector nonesuch Op Args).1.
Definition detected_t (Op : alias_template) (Args : list ctype) : ctype := (detector nonesuch Op Args).2.
Definition detected_or_t (Default : ctype) (Op : alias_template) (Args : list ctype) : ctype := (detector Default Op Args).2.

(** Only [Primary<Args...>] itself matches the partial specialization, not a qualified type or a reference. *)
Definition is_specialization_of_v (T : ctype) (Primary : text) : bool :=
  match T with Specialization primary _ => bool_decide (primary = Primary) | _ => false end.

Definition is_any_of_v (T : ctype) (Us : list ctype) : bool := existsb (is_same T) Us.

(** ** What they answer *)

(** Detection is exact: the type when there is one, whatever the default; the default when there is none. *)
Theorem detection_exact Default Op Args :
  match Op Args with
  | Some t => is_detected_v Op Args = true /\ detected_t Op Args = t /\ detected_or_t Default Op Args = t
  | None => is_detected_v Op Args = false /\ detected_t Op Args = nonesuch /\ detected_or_t Default Op Args = Default
  end.
Proof. unfold is_detected_v, detected_t, detected_or_t, detector. by destruct (Op Args). Qed.

Lemma is_any_of_spec T Us : is_any_of_v T Us = bool_decide (T ∈ Us).
Proof.
  apply eq_true_iff_eq. unfold is_any_of_v. rewrite bool_decide_eq_true, existsb_exists, list_elem_of_In. split.
  - intros (u & Hu & ->%is_same_spec). done.
  - intros H. exists T. split; [done|]. by apply is_same_spec.
Qed.

Lemma is_specialization_of_spec T Primary : is_specialization_of_v T Primary = true <-> exists Args, T = Specialization Primary Args.
Proof.
  unfold is_specialization_of_v. destruct T as [|p args|]; [split; [done|by intros [? ?]]| |split; [done|by intros [? ?]]].
  rewrite bool_decide_eq_true. split; [intros ->; by exists args|by intros [? [= -> _]]].
Qed.

(** The assertions of the repository's own test. *)
Definition int_t : ctype := Named ($"int").
Definition vector_of (t : ctype) : ctype := Specialization ($"std::vector") [t].
Definition value_type_t : alias_template :=
  fun args => match args with [Specialization p (t :: _)] => if bool_decide (p = $"std::vector") then Some t else None | _ => None end.

Example test_assertions :
  is_detected_v value_type_t [vector_of int_t] = true /\ is_detected_v value_type_t [int_t] = false /\
  detected_t value_type_t [vector_of int_t] = int_t /\ detected_or_t (Named ($"long")) value_type_t [int_t] = Named ($"long") /\
  is_specialization_of_v (vector_of int_t) ($"std::vector") = true /\ is_specialization_of_v int_t ($"std::vector") = false /\
  is_specialization_of_v (Declared Const (vector_of int_t)) ($"std::vector") = false /\
  is_any_of_v int_t [Named ($"char"); int_t; Named ($"double")] = true /\ is_any_of_v (Named ($"float")) [Named ($"char"); int_t] = false.
Proof. by vm_compute. Qed.
