(* ===== verification/Version.v ===== *)
(** * The version of the library (version.hpp, version.cpp) *)

From S2P Require Import Prelude Charconv.

Definition version_major : Z := 1.
Definition version_minor : Z := 1.
Definition version_patch : Z := 0.
Definition version_string : text := $"1.1.0".

(** What the compiled tier was built from: the same macro. *)
Definition library_version : text := version_string.

(** The two forms of the version agree: the string is the three numbers with dots between them. *)
Lemma version_forms_agree :
  version_string = digits 10 version_major ++ $"." ++ digits 10 version_minor ++ $"." ++ digits 10 version_patch /\ library_version = version_string.
Proof. by vm_compute. Qed.
