(* ===== verification/FlatCore.v ===== *)
(** * Sorted contiguous storage: the reasoning FlatMap and FlatSet share

    Both containers keep one sorted vector without equivalent keys and find everything by
    binary search.  This file proves, once and for a key projection, where the binary search
    lands, what insertion and erasure at that place do, and that a strictly sorted vector is
    determined by its entries. *)

From S2P Require Import Prelude StdAlgo.

Section flat.
Context {K E : Type} (key : E -> K) (lt : K -> K -> bool).

(** The ordering of the elements induced by their keys. *)
Definition elt_lt (a b : E) : bool := lt (key a) (key b).

(** The entry for [k]: the first element with an equivalent key. *)
Definition entry (l : list E) (k : K) : option E := List.find (fun e => equivalent lt (key e) k) l.

(** What a binary search for [k] can meet in a strictly sorted vector. *)
Inductive located (l : list E) (k : K) : Prop :=
  | located_found l1 e l2 :
      l = l1 ++ e :: l2 -> equivalent lt (key e) k = true ->
      Forall (fun x => lt (key x) k = true) l1 -> Forall (fun x => lt k (key x) = true) l2 ->
      located l k
  | located_absent l1 l2 :
      l = l1 ++ l2 ->
      Forall (fun x => lt (key x) k = true) l1 -> Forall (fun x => lt k (key x) = true) l2 ->
      located l k.

Context `{!StrictWeakOrder lt}.

#[export] Instance elt_lt_swo : StrictWeakOrder elt_lt.
Proof.
  unfold elt_lt. split; intros *.
  - apply swo_irrefl.
  - apply swo_trans.
  - apply swo_cotrans.
Qed.

Lemma wf_located l k : strictly_sorted elt_lt l -> located l k.
Proof.
  intros Hs.
  destruct (sorted_split _ (fun e => lt (key e) k) _ Hs) as (l1 & l2 & -> & H1 & H2).
  { unfold elt_lt. intros x y. apply swo_trans. }
  destruct l2 as [|e l2]; [by eapply (located_absent _ _ l1 [])|].
  apply Forall_cons in H2 as [He H2].
  assert (Forall (fun x => lt (key e) (key x) = true) l2) as Hgt.
  { apply StronglySorted_app in Hs as (_ & _ & Hs). by inv Hs. }
  destruct (lt k (key e)) eqn:Hk.
  - eapply (located_absent _ _ l1 (e :: l2)); [done..|]. constructor; [done|].
    eapply Forall_impl; [exact Hgt|]. intros x Hx. by eapply swo_trans.
  - eapply located_found; [done|by apply equivalent_spec|done|].
    eapply Forall_impl; [exact Hgt|]. intros x Hx. by eapply swo_ge_lt.
Qed.

Lemma lower_bound_app l1 l2 k :
  Forall (fun x => lt (key x) k = true) l1 -> Forall (fun x => lt (key x) k = false) l2 ->
  partition_point (fun e => lt (key e) k) (l1 ++ l2) = length l1.
Proof. apply partition_point_app. Qed.

Lemma above_not_below l k :
  Forall (fun x => lt k (key x) = true) l -> Forall (fun x => lt (key x) k = false) l.
Proof. intros H. eapply Forall_impl; [exact H|]. intros x Hx. by apply swo_asym. Qed.

(** ** Entries *)

Lemma entry_app l1 l2 k : entry (l1 ++ l2) k = match entry l1 k with Some e => Some e | None => entry l2 k end.
Proof. unfold entry. induction l1 as [|x l1 IH]; simpl; [done|]. destruct (equivalent _ _ _); [done|apply IH]. Qed.

Lemma entry_none l k :
  Forall (fun x => equivalent lt (key x) k = false) l -> entry l k = None.
Proof. unfold entry. induction 1 as [|x l Hx _ IH]; simpl; [done|]. by rewrite Hx. Qed.

Lemma entry_some l k e : entry l k = Some e -> e ∈ l /\ equivalent lt (key e) k = true.
Proof. intros H. apply List.find_some in H as [? ?]. split; [by apply list_elem_of_In|done]. Qed.

Lemma below_not_equivalent l k :
  Forall (fun x => lt (key x) k = true) l -> Forall (fun x => equivalent lt (key x) k = false) l.
Proof. intros H. eapply Forall_impl; [exact H|]. intros x Hx. unfold equivalent. simpl in Hx. by rewrite Hx. Qed.

Lemma above_not_equivalent l k :
  Forall (fun x => lt k (key x) = true) l -> Forall (fun x => equivalent lt (key x) k = false) l.
Proof.
  intros H. eapply Forall_impl; [exact H|]. intros x Hx. unfold equivalent. simpl in Hx.
  by rewrite Hx, andb_false_r.
Qed.

(** Equivalent keys have the same entry. *)
Lemma equivalent_congr x k k' :
  equivalent lt k k' = true -> equivalent lt x k = equivalent lt x k'.
Proof.
  intros H. apply eq_true_iff_eq. split; intros E'.
  - by apply (equivalent_trans lt x k k').
  - apply (equivalent_trans lt x k' k); [done|]. by rewrite equivalent_sym.
Qed.

Lemma entry_congr l k k' : equivalent lt k k' = true -> entry l k = entry l k'.
Proof.
  intros H. unfold entry. induction l as [|x l IH]; simpl; [done|].
  rewrite (equivalent_congr _ k k') by done. by case_match.
Qed.

(** Entries of the two shapes of [located]. *)
Lemma entry_found l1 e l2 k :
  equivalent lt (key e) k = true -> Forall (fun x => lt (key x) k = true) l1 ->
  entry (l1 ++ e :: l2) k = Some e.
Proof.
  intros He H1. rewrite entry_app, entry_none by by apply below_not_equivalent.
  unfold entry. simpl. by rewrite He.
Qed.

Lemma entry_absent l1 l2 k :
  Forall (fun x => lt (key x) k = true) l1 -> Forall (fun x => lt k (key x) = true) l2 ->
  entry (l1 ++ l2) k = None.
Proof.
  intros H1 H2. rewrite entry_app, !entry_none; [done|by apply above_not_equivalent|].
  by apply below_not_equivalent.
Qed.

(** An element slipped in between what is below and what is above its key. *)
Lemma entry_insert l1 e l2 k :
  Forall (fun x => lt (key x) (key e) = true) l1 ->
  Forall (fun x => lt (key e) (key x) = true) l2 ->
  entry (l1 ++ e :: l2) k = if equivalent lt (key e) k then Some e else entry (l1 ++ l2) k.
Proof.
  intros H1 H2. destruct (equivalent lt (key e) k) eqn:Ek.
  - apply entry_found; [done|]. eapply Forall_impl; [exact H1|]. intros x Hx. simpl in Hx.
    apply equivalent_spec in Ek as [? ?]. by eapply swo_lt_ge.
  - rewrite !entry_app. unfold entry at 2. simpl. by rewrite Ek.
Qed.

Lemma wf_insert l1 e l2 :
  strictly_sorted elt_lt (l1 ++ l2) ->
  Forall (fun x => lt (key x) (key e) = true) l1 ->
  Forall (fun x => lt (key e) (key x) = true) l2 ->
  strictly_sorted elt_lt (l1 ++ e :: l2).
Proof.
  intros (H12 & Hs1 & Hs2)%StronglySorted_app H1 H2. apply StronglySorted_app. split_and!; [|done|by constructor].
  intros x y Hx [->|Hy]%elem_of_cons; [|by apply H12].
  rewrite Forall_forall in H1. by apply H1.
Qed.

Lemma wf_erase l1 e l2 : strictly_sorted elt_lt (l1 ++ e :: l2) -> strictly_sorted elt_lt (l1 ++ l2).
Proof.
  intros (H12 & Hs1 & Hs2)%StronglySorted_app. apply StronglySorted_app. split_and!; [|done|by inv Hs2].
  intros x y Hx Hy. apply H12; [done|]. by apply elem_of_cons; right.
Qed.

(** ** A strictly sorted vector is determined by its entries *)

Lemma entry_tail e l k :
  strictly_sorted elt_lt (e :: l) ->
  entry l k = if equivalent lt (key e) k then None else entry (e :: l) k.
Proof.
  intros Hs. inv Hs. destruct (equivalent lt (key e) k) eqn:Ek.
  - apply entry_none, above_not_equivalent. eapply Forall_impl; [eassumption|]. intros x Hx.
    apply equivalent_spec in Ek as [? ?]. unfold elt_lt in Hx. by eapply swo_ge_lt.
  - unfold entry. simpl. by rewrite Ek.
Qed.

Lemma head_le e e' l' :
  strictly_sorted elt_lt (e' :: l') -> entry (e' :: l') (key e) = Some e -> e = e' \/ elt_lt e' e = true.
Proof.
  intros Hs [[->|He]%elem_of_cons _]%entry_some; [by left|right].
  inv Hs. match goal with H : Forall _ l' |- _ => rewrite Forall_forall in H; by apply H end.
Qed.

Lemma wf_entry_ext l l' :
  strictly_sorted elt_lt l -> strictly_sorted elt_lt l' -> (forall k, entry l k = entry l' k) -> l = l'.
Proof.
  assert (forall e l0, entry (e :: l0) (key e) = Some e) as Hhd.
  { intros. unfold entry. simpl. by rewrite equivalent_refl. }
  intros Hs. revert l'. induction Hs as [|e l Hs IH He]; intros l' Hs' Hext.
  - destruct l' as [|e' l']; [done|]. specialize (Hext (key e')). by rewrite Hhd in Hext.
  - destruct l' as [|e' l']; [specialize (Hext (key e)); by rewrite Hhd in Hext|].
    assert (strictly_sorted elt_lt (e :: l)) as Hs0 by (by constructor).
    assert (e = e') as <-.
    { destruct (head_le e e' l') as [?|H1]; [done|rewrite <- Hext; apply Hhd|done|].
      destruct (head_le e' e l) as [?|H2]; [done|rewrite Hext; apply Hhd|done|].
      apply (swo_asym elt_lt) in H1. congruence. }
    f_equal. apply IH; [by inv Hs'|]. intros k.
    rewrite (entry_tail e l), (entry_tail e l') by done. by rewrite Hext.
Qed.

(** ** What sorting and deduplication do to entries *)

Lemma entry_stable_insert x l k :
  entry (stable_insert elt_lt x l) k = if equivalent lt (key x) k then Some x else entry l k.
Proof.
  induction l as [|y l IH]; [unfold entry; simpl; by case_match|]. simpl.
  destruct (elt_lt y x) eqn:Eyx; [|unfold entry; simpl; by case_match].
  change (entry (y :: stable_insert elt_lt x l) k) with
    (if equivalent lt (key y) k then Some y else entry (stable_insert elt_lt x l) k).
  change (entry (y :: l) k) with (if equivalent lt (key y) k then Some y else entry l k).
  rewrite IH. destruct (equivalent lt (key y) k) eqn:Ey, (equivalent lt (key x) k) eqn:Ex; try done.
  exfalso. rewrite equivalent_sym in Ex. pose proof (equivalent_trans lt _ _ _ Ey Ex) as E'.
  apply equivalent_spec in E' as [? ?]. unfold elt_lt in Eyx. congruence.
Qed.

Lemma entry_stable_sort l k : entry (stable_sort elt_lt l) k = entry l k.
Proof.
  induction l as [|x l IH]; simpl; [done|]. rewrite entry_stable_insert, IH.
  unfold entry. simpl. by case_match.
Qed.

Lemma entry_unique_after kept l k :
  equivalent lt (key kept) k = false ->
  entry (unique_after (equivalent elt_lt) kept l) k = entry l k.
Proof.
  revert kept. induction l as [|x l IH]; intros kept Hk; simpl; [done|].
  destruct (equivalent elt_lt kept x) eqn:Ex.
  - rewrite IH by done. unfold entry. simpl.
    destruct (equivalent lt (key x) k) eqn:E'; [|done].
    assert (equivalent lt (key kept) (key x) = true) as E'' by done.
    by rewrite (equivalent_trans lt _ _ _ E'' E') in Hk.
  - unfold entry. simpl. destruct (equivalent lt (key x) k) eqn:E'; [done|]. by apply IH.
Qed.

Lemma entry_unique l k : entry (unique (equivalent elt_lt) l) k = entry l k.
Proof.
  destruct l as [|x l]; [done|]. unfold entry. simpl.
  destruct (equivalent lt (key x) k) eqn:E'; [done|]. by apply entry_unique_after.
Qed.

End flat.
