(* ===== verification/FlatMap.v ===== *)
(** * FlatMap (flat_map.hpp)

    The sorted-vector map: its operations as the code composes them (binary search, comparison
    of the key found, positional insertion or erasure) and the two construction strategies.
    Iterators are positions in the vector, [end_] is its length; a [Value&] is the position it
    refers to, read by [deref] and written by [assign].  [std::vector]'s capacity is not
    modelled: [reserve] and [capacity] leave the entries alone. *)

From S2P Require Import Prelude StdAlgo FlatCore.

Section flat_map.
Context {K V : Type} (comp : K -> K -> bool) (default : V).

Record flat_map := FlatMap { data_ : list (K * V) }.

Definition empty_map : flat_map := FlatMap [].

(** ** Capacity and iterators *)

Definition size (m : flat_map) : nat := length (data_ m).
Definition empty (m : flat_map) : bool := (size m =? 0)%nat.
Definition clear (m : flat_map) : flat_map := FlatMap [].
Definition end_ (m : flat_map) : nat := length (data_ m).

(** ** Lookup *)

Definition element_less (element : K * V) (key : K) : bool := comp element.1 key.
Definition key_less (key : K) (element : K * V) : bool := comp key element.1.

Definition lower_bound (m : flat_map) (key : K) : nat :=
  partition_point (fun element => element_less element key) (data_ m).

Definition upper_bound (m : flat_map) (key : K) : nat :=
  partition_point (fun element => negb (key_less key element)) (data_ m).

Definition find (m : flat_map) (key : K) : nat :=
  let pos := lower_bound m key in
  match data_ m !! pos with
  | Some e => if negb (comp key e.1) then pos else end_ m
  | None => end_ m
  end.

Definition contains (m : flat_map) (key : K) : bool := negb (find m key =? end_ m)%nat.
Definition count (m : flat_map) (key : K) : nat := if contains m key then 1 else 0.

(** The private [locate], shared by [at] and [erase]. *)
Definition locate (container : list (K * V)) (key : K) : nat :=
  let pos := partition_point (fun element => element_less element key) container in
  match container !! pos with
  | Some e => if negb (comp key e.1) then pos else length container
  | None => length container
  end.

Definition at_ (m : flat_map) (key : K) : outcome nat :=
  let pos := locate (data_ m) key in
  if (pos =? end_ m)%nat then Throw out_of_range else Ret pos.

(** Reading and writing through the reference [at] and [operator[]] return. *)
Definition deref (m : flat_map) (pos : nat) : option V := snd <$> data_ m !! pos.
Definition assign (m : flat_map) (pos : nat) (v : V) : flat_map :=
  FlatMap (alter (fun e => (e.1, v)) pos (data_ m)).

(** [operator[]]: the position of the value, inserting a value-initialised one if absent. *)
Definition subscript (m : flat_map) (key : K) : flat_map * nat :=
  let pos := lower_bound m key in
  match data_ m !! pos with
  | Some e =>
      if comp key e.1 then (FlatMap (insert_at pos (key, default) (data_ m)), pos) else (m, pos)
  | None => (FlatMap (insert_at pos (key, default) (data_ m)), pos)
  end.

(** ** Modifiers *)

Definition insert_impl (m : flat_map) (kv : K * V) : flat_map * (nat * bool) :=
  let pos := lower_bound m kv.1 in
  match data_ m !! pos with
  | Some e =>
      if negb (comp kv.1 e.1) then (m, (pos, false))
      else (FlatMap (insert_at pos kv (data_ m)), (pos, true))
  | None => (FlatMap (insert_at pos kv (data_ m)), (pos, true))
  end.

Definition insert (m : flat_map) (key : K) (value : V) : flat_map * (nat * bool) :=
  insert_impl m (key, value).

Definition erase (m : flat_map) (key : K) : flat_map * nat :=
  let pos := locate (data_ m) key in
  if (pos =? end_ m)%nat then (m, 0) else (FlatMap (erase_at pos (data_ m)), 1).

(** [erase(const_iterator)]: the position must be dereferenceable. *)
Definition erase_pos (m : flat_map) (pos : nat) : flat_map * nat :=
  (FlatMap (erase_at pos (data_ m)), pos).

(** ** Construction: both branches of [build_from] *)

(** During constant evaluation: sorted insertion, element by element. *)
Definition build_constexpr (init : list (K * V)) : flat_map :=
  foldl (fun m kv => (insert_impl m kv).1) empty_map init.

(** At run time: assign, stable sort by key, drop the later entries of equal keys. *)
Definition same_key (lhs rhs : K * V) : bool :=
  negb (comp lhs.1 rhs.1) && negb (comp rhs.1 lhs.1).

Definition build_runtime (init : list (K * V)) : flat_map :=
  FlatMap (unique same_key (stable_sort (fun lhs rhs => comp lhs.1 rhs.1) init)).

Definition build_from (constant_evaluated : bool) (init : list (K * V)) : flat_map :=
  if constant_evaluated then build_constexpr init else build_runtime init.

(** ** The client's view

    A client drives a map through calls and sees their results.  [run] executes a call on the
    vector; [spec_run] executes it on a plain function from keys to optional values. *)

Inductive call : Type :=
  | Insert (key : K) (value : V)
  | Erase (key : K)
  | Contains (key : K)
  | At (key : K)
  | AtAssign (key : K) (value : V)
  | Subscript (key : K)
  | SubscriptAssign (key : K) (value : V)
  | Clear.

Inductive result : Type :=
  | Flag (b : bool)
  | Count (n : nat)
  | Value (v : option V)
  | Thrown (e : exn)
  | Done.

Definition run (m : flat_map) (c : call) : flat_map * result :=
  match c with
  | Insert key value => let '(m', (_, b)) := insert m key value in (m', Flag b)
  | Erase key => let '(m', n) := erase m key in (m', Count n)
  | Contains key => (m, Flag (contains m key))
  | At key => match at_ m key with Ret pos => (m, Value (deref m pos)) | Throw e => (m, Thrown e) end
  | AtAssign key value =>
      match at_ m key with Ret pos => (assign m pos value, Done) | Throw e => (m, Thrown e) end
  | Subscript key => let '(m', pos) := subscript m key in (m', Value (deref m' pos))
  | SubscriptAssign key value => let '(m', pos) := subscript m key in (assign m' pos value, Done)
  | Clear => (clear m, Done)
  end.

Fixpoint runs (m : flat_map) (cs : list call) : flat_map * list result :=
  match cs with
  | [] => (m, [])
  | c :: cs => let '(m, r) := run m c in let '(m, rs) := runs m cs in (m, r :: rs)
  end.

(** The specification: keys up to equivalence, no vector, no search. *)
Definition spec_update (f : K -> option V) (key : K) (o : option V) : K -> option V :=
  fun k => if equivalent comp key k then o else f k.

Definition spec_run (f : K -> option V) (c : call) : (K -> option V) * result :=
  match c with
  | Insert key value =>
      match f key with
      | Some _ => (f, Flag false)
      | None => (spec_update f key (Some value), Flag true)
      end
  | Erase key =>
      match f key with
      | Some _ => (spec_update f key None, Count 1)
      | None => (f, Count 0)
      end
  | Contains key => (f, Flag (bool_decide (is_Some (f key))))
  | At key => match f key with Some v => (f, Value (Some v)) | None => (f, Thrown out_of_range) end
  | AtAssign key value =>
      match f key with
      | Some _ => (spec_update f key (Some value), Done)
      | None => (f, Thrown out_of_range)
      end
  | Subscript key =>
      match f key with
      | Some v => (f, Value (Some v))
      | None => (spec_update f key (Some default), Value (Some default))
      end
  | SubscriptAssign key value => (spec_update f key (Some value), Done)
  | Clear => (fun _ => None, Done)
  end.

Fixpoint spec_runs (f : K -> option V) (cs : list call) : list result :=
  match cs with
  | [] => []
  | c :: cs => let '(f, r) := spec_run f c in r :: spec_runs f cs
  end.

(** The vector's invariant and the function it stands for. *)
Definition wf (m : flat_map) : Prop := strictly_sorted (elt_lt fst comp) (data_ m).
Definition model (m : flat_map) (k : K) : option V := snd <$> entry fst comp (data_ m) k.

Definition refines (m : flat_map) (f : K -> option V) : Prop := wf m /\ forall k, model m k = f k.

(** ** The operations on the two shapes a search can meet *)

Context `{!StrictWeakOrder comp}.

Section found.
Context (l1 : list (K * V)) (e : K * V) (l2 : list (K * V)) (k : K).
Context (He : equivalent comp e.1 k = true).
Context (H1 : Forall (fun x => comp x.1 k = true) l1) (H2 : Forall (fun x => comp k x.1 = true) l2).

Lemma found_search : partition_point (fun x => element_less x k) (l1 ++ e :: l2) = length l1.
Proof.
  apply equivalent_spec in He as [Hek Hke].
  apply (lower_bound_app fst comp); [done|]. constructor; [done|]. by apply above_not_below.
Qed.

Lemma found_locate : locate (l1 ++ e :: l2) k = length l1.
Proof.
  unfold locate. rewrite found_search, list_lookup_middle by done.
  apply equivalent_spec in He as [Hek Hke]. by rewrite Hke.
Qed.

Lemma found_insert v : insert_impl (FlatMap (l1 ++ e :: l2)) (k, v) = (FlatMap (l1 ++ e :: l2), (length l1, false)).
Proof.
  unfold insert_impl, lower_bound. simpl. rewrite found_search, list_lookup_middle by done.
  apply equivalent_spec in He as [Hek Hke]. by rewrite Hke.
Qed.

Lemma found_subscript : subscript (FlatMap (l1 ++ e :: l2)) k = (FlatMap (l1 ++ e :: l2), length l1).
Proof.
  unfold subscript, lower_bound. simpl. rewrite found_search, list_lookup_middle by done.
  apply equivalent_spec in He as [Hek Hke]. by rewrite Hke.
Qed.

Lemma found_not_end : (length l1 =? length (l1 ++ e :: l2))%nat = false.
Proof. apply Nat.eqb_neq. rewrite length_app. simpl. lia. Qed.

Lemma found_at : at_ (FlatMap (l1 ++ e :: l2)) k = Ret (length l1).
Proof. unfold at_, end_. simpl. by rewrite found_locate, found_not_end. Qed.

Lemma found_erase : erase (FlatMap (l1 ++ e :: l2)) k = (FlatMap (l1 ++ l2), 1).
Proof. unfold erase, end_. simpl. by rewrite found_locate, found_not_end, erase_at_app. Qed.

Lemma found_find : find (FlatMap (l1 ++ e :: l2)) k = length l1.
Proof.
  unfold find, lower_bound. simpl. rewrite found_search, list_lookup_middle by done.
  apply equivalent_spec in He as [Hek Hke]. by rewrite Hke.
Qed.

Lemma found_contains : contains (FlatMap (l1 ++ e :: l2)) k = true.
Proof. unfold contains, end_. simpl. by rewrite found_find, found_not_end. Qed.

Lemma found_upper : upper_bound (FlatMap (l1 ++ e :: l2)) k = S (length l1).
Proof.
  unfold upper_bound. simpl. rewrite cons_middle, app_assoc, partition_point_app.
  - rewrite length_app. simpl. lia.
  - apply equivalent_spec in He as [Hek Hke]. apply Forall_app. split.
    + eapply Forall_impl; [exact H1|]. intros x Hx. unfold key_less. by rewrite (swo_asym comp).
    + repeat constructor. unfold key_less. by rewrite Hke.
  - eapply Forall_impl; [exact H2|]. intros x Hx. unfold key_less. simpl in Hx. by rewrite Hx.
Qed.

Lemma found_model : model (FlatMap (l1 ++ e :: l2)) k = Some e.2.
Proof. unfold model. simpl. by erewrite entry_found. Qed.

Lemma found_assign v : assign (FlatMap (l1 ++ e :: l2)) (length l1) v = FlatMap (l1 ++ (e.1, v) :: l2).
Proof.
  unfold assign. simpl. f_equal. rewrite <- (Nat.add_0_r (length l1)). by rewrite alter_app_r.
Qed.

End found.

Section absent.
Context (l1 l2 : list (K * V)) (k : K).
Context (H1 : Forall (fun x => comp x.1 k = true) l1) (H2 : Forall (fun x => comp k x.1 = true) l2).

Lemma absent_search : partition_point (fun x => element_less x k) (l1 ++ l2) = length l1.
Proof. apply (lower_bound_app fst comp); [done|]. by apply above_not_below. Qed.

Lemma absent_next e : (l1 ++ l2) !! length l1 = Some e -> comp k e.1 = true.
Proof.
  rewrite lookup_app_r, Nat.sub_diag by done. destruct l2; intros [= ->]. by inv H2.
Qed.

Lemma absent_insert v : insert_impl (FlatMap (l1 ++ l2)) (k, v) = (FlatMap (l1 ++ (k, v) :: l2), (length l1, true)).
Proof.
  unfold insert_impl, lower_bound. simpl. rewrite absent_search, insert_at_app.
  destruct ((l1 ++ l2) !! length l1) as [e|] eqn:E; [|done]. by rewrite (absent_next e).
Qed.

Lemma absent_subscript : subscript (FlatMap (l1 ++ l2)) k = (FlatMap (l1 ++ (k, default) :: l2), length l1).
Proof.
  unfold subscript, lower_bound. simpl. rewrite absent_search, insert_at_app.
  destruct ((l1 ++ l2) !! length l1) as [e|] eqn:E; [|done]. by rewrite (absent_next e).
Qed.

Lemma absent_locate : locate (l1 ++ l2) k = length (l1 ++ l2).
Proof.
  unfold locate. rewrite absent_search.
  destruct ((l1 ++ l2) !! length l1) as [e|] eqn:E; [|done]. by rewrite (absent_next e).
Qed.

Lemma absent_at : at_ (FlatMap (l1 ++ l2)) k = Throw out_of_range.
Proof. unfold at_, end_. simpl. by rewrite absent_locate, Nat.eqb_refl. Qed.

Lemma absent_erase : erase (FlatMap (l1 ++ l2)) k = (FlatMap (l1 ++ l2), 0).
Proof. unfold erase, end_. simpl. by rewrite absent_locate, Nat.eqb_refl. Qed.

Lemma absent_find : find (FlatMap (l1 ++ l2)) k = length (l1 ++ l2).
Proof.
  unfold find, lower_bound, end_. simpl. rewrite absent_search.
  destruct ((l1 ++ l2) !! length l1) as [e|] eqn:E; [|done]. by rewrite (absent_next e).
Qed.

Lemma absent_contains : contains (FlatMap (l1 ++ l2)) k = false.
Proof. unfold contains, end_. simpl. by rewrite absent_find, Nat.eqb_refl. Qed.

Lemma absent_upper : upper_bound (FlatMap (l1 ++ l2)) k = length l1.
Proof.
  unfold upper_bound. simpl. rewrite partition_point_app; [done|..].
  - eapply Forall_impl; [exact H1|]. intros x Hx. unfold key_less. by rewrite (swo_asym comp).
  - eapply Forall_impl; [exact H2|]. intros x Hx. unfold key_less. simpl in Hx. by rewrite Hx.
Qed.

Lemma absent_model : model (FlatMap (l1 ++ l2)) k = None.
Proof. unfold model. simpl. by rewrite entry_absent. Qed.

End absent.

(** ** Preservation of the invariant, and what each operation does to the model *)

Lemma model_congr m k k' : equivalent comp k k' = true -> model m k = model m k'.
Proof. intros. unfold model. by erewrite entry_congr. Qed.

Lemma empty_refines : refines empty_map (fun _ => None).
Proof. split; [constructor|done]. Qed.

Lemma model_middle l1 k v l2 k' :
  Forall (fun x => comp x.1 k = true) l1 -> Forall (fun x => comp k x.1 = true) l2 ->
  model (FlatMap (l1 ++ (k, v) :: l2)) k' =
    if equivalent comp k k' then Some v else model (FlatMap (l1 ++ l2)) k'.
Proof.
  intros H1 H2. unfold model. simpl. rewrite (entry_insert fst comp l1 (k, v) l2) by done.
  simpl. by destruct (equivalent comp k k').
Qed.

Lemma refines_add l1 l2 f k v :
  refines (FlatMap (l1 ++ l2)) f ->
  Forall (fun x => comp x.1 k = true) l1 -> Forall (fun x => comp k x.1 = true) l2 ->
  refines (FlatMap (l1 ++ (k, v) :: l2)) (spec_update f k (Some v)).
Proof.
  intros [Hwf Hf] H1 H2. split; [by apply wf_insert|]. intros k'.
  rewrite model_middle, Hf by done. done.
Qed.

Section found_effects.
Context (l1 l2 : list (K * V)) (e : K * V) (k : K) (f : K -> option V).
Context (Hr : refines (FlatMap (l1 ++ e :: l2)) f) (He : equivalent comp e.1 k = true).
Context (H1 : Forall (fun x => comp x.1 k = true) l1) (H2 : Forall (fun x => comp k x.1 = true) l2).

Lemma found_below : Forall (fun x => comp x.1 e.1 = true) l1.
Proof.
  apply equivalent_spec in He as [? ?]. eapply Forall_impl; [exact H1|]. intros x Hx. by apply (swo_lt_ge comp _ k).
Qed.

Lemma found_above : Forall (fun x => comp e.1 x.1 = true) l2.
Proof.
  apply equivalent_spec in He as [? ?]. eapply Forall_impl; [exact H2|]. intros x Hx. by apply (swo_ge_lt comp _ k).
Qed.

Lemma equivalent_found k' : equivalent comp k k' = equivalent comp e.1 k'.
Proof. rewrite (equivalent_sym comp k), (equivalent_sym comp e.1). apply (equivalent_congr comp). by rewrite equivalent_sym. Qed.

Lemma found_without k' : equivalent comp e.1 k' = false -> model (FlatMap (l1 ++ l2)) k' = f k'.
Proof.
  intros Hk. destruct Hr as [_ <-].
  pose proof (model_middle l1 e.1 e.2 l2 k' found_below found_above) as Hm.
  rewrite <- surjective_pairing in Hm. by rewrite Hm, Hk.
Qed.

Lemma refines_replace v : refines (FlatMap (l1 ++ (e.1, v) :: l2)) (spec_update f k (Some v)).
Proof.
  split.
  - destruct Hr as [Hwf _]. apply (wf_insert fst comp l1 (e.1, v) l2); [exact (wf_erase fst comp _ _ _ Hwf)|apply found_below|apply found_above].
  - intros k'. rewrite model_middle; [|apply found_below|apply found_above].
    unfold spec_update. rewrite equivalent_found. case_match; [done|]. by apply found_without.
Qed.

Lemma refines_drop : refines (FlatMap (l1 ++ l2)) (spec_update f k None).
Proof.
  split; [destruct Hr as [Hwf _]; exact (wf_erase fst comp _ _ _ Hwf)|]. intros k'. unfold spec_update.
  destruct (equivalent comp k k') eqn:E; [|apply found_without; by rewrite <- equivalent_found].
  rewrite <- (model_congr _ k k') by done. by apply absent_model.
Qed.

End found_effects.

(** Every call keeps the vector sorted without duplicates and answers as the specification. *)
Lemma run_refines m f c :
  refines m f -> refines (run m c).1 (spec_run f c).1 /\ (run m c).2 = (spec_run f c).2.
Proof.
  intros Hr. destruct m as [l]. pose proof Hr as [Hwf Hf].
  destruct c as [k v|k|k|k|k v|k|k v|]; [..|simpl; by split; [apply empty_refines|]];
    destruct (wf_located fst comp l k Hwf) as [l1 e l2 -> He H1 H2|l1 l2 -> H1 H2];
    simpl; unfold insert.
  all: first
    [ rewrite <- (Hf k), (found_model l1 e l2 k) by done
    | rewrite <- (Hf k), (absent_model l1 l2 k) by done | idtac ].
  all: rewrite ?(found_insert l1 e l2 k), ?(found_erase l1 e l2 k), ?(found_contains l1 e l2 k),
    ?(found_at l1 e l2 k), ?(found_subscript l1 e l2 k), ?(absent_insert l1 l2 k), ?(absent_erase l1 l2 k),
    ?(absent_contains l1 l2 k), ?(absent_at l1 l2 k), ?(absent_subscript l1 l2 k) by done; simpl.
  all: rewrite ?(found_assign l1 e l2).
  all: try (rewrite (found_assign l1 (k, default) l2)).
  all: try (split; [done|]; unfold deref; simpl; by rewrite list_lookup_middle).
  all: try (split; [|unfold deref; simpl; by rewrite ?list_lookup_middle]).
  all: eauto using refines_drop, refines_replace, refines_add.
Qed.

Lemma runs_refines m f cs :
  refines m f -> wf (runs m cs).1 /\ (runs m cs).2 = spec_runs f cs.
Proof.
  revert m f. induction cs as [|c cs IH]; intros m f Hr; simpl; [by split; [apply Hr|]|].
  destruct (run_refines m f c Hr) as [Hr' Hres].
  destruct (run m c) as [m' r], (spec_run f c) as [f' r']. simpl in *. subst.
  specialize (IH m' f' Hr'). destruct (runs m' cs) as [m'' rs]. simpl in *.
  destruct IH. by split; [|f_equal].
Qed.

(** ** Construction *)

Lemma insert_impl_refines m kv :
  wf m -> wf (insert_impl m kv).1 /\
  forall k, entry fst comp (data_ (insert_impl m kv).1) k =
    match entry fst comp (data_ m) k with
    | Some e => Some e
    | None => if equivalent comp kv.1 k then Some kv else None
    end.
Proof.
  destruct kv as [k0 v], m as [l]. intros Hwf.
  destruct (wf_located fst comp l k0 Hwf) as [l1 e l2 -> He H1 H2|l1 l2 -> H1 H2].
  - rewrite (found_insert l1 e l2 k0) by done. simpl. split; [done|]. intros k.
    destruct (entry fst comp (l1 ++ e :: l2) k) eqn:E; [done|].
    destruct (equivalent comp k0 k) eqn:Ek; [|done].
    rewrite <- (entry_congr fst comp _ k0) in E by done. by erewrite entry_found in E.
  - rewrite (absent_insert l1 l2 k0) by done. simpl. split; [by apply wf_insert|]. intros k.
    rewrite (entry_insert fst comp l1 (k0, v) l2) by done. simpl.
    destruct (equivalent comp k0 k) eqn:Ek; [|by destruct (entry _ _ _ _)].
    rewrite <- (entry_congr fst comp _ k0) by done. by rewrite entry_absent.
Qed.

Lemma build_constexpr_spec init :
  wf (build_constexpr init) /\ forall k, entry fst comp (data_ (build_constexpr init)) k = entry fst comp init k.
Proof.
  unfold build_constexpr. induction init as [|kv init IH] using rev_ind; simpl; [by split; [constructor|]|].
  rewrite foldl_app. simpl. destruct IH as [Hwf Hk].
  destruct (insert_impl_refines _ kv Hwf) as [Hwf' Hk']. split; [done|]. intros k.
  rewrite Hk', Hk, entry_app. by destruct (entry fst comp init k).
Qed.

Lemma build_runtime_spec init :
  wf (build_runtime init) /\ forall k, entry fst comp (data_ (build_runtime init)) k = entry fst comp init k.
Proof.
  split.
  - apply (unique_sorted (elt_lt fst comp)), stable_sort_sorted. apply _.
  - intros k. unfold build_runtime. simpl.
    change same_key with (equivalent (elt_lt (@fst K V) comp)).
    change (fun lhs rhs : K * V => comp lhs.1 rhs.1) with (elt_lt (@fst K V) comp).
    by rewrite entry_unique, entry_stable_sort.
Qed.

Lemma build_from_refines b init :
  refines (build_from b init) (fun k => snd <$> entry fst comp init k).
Proof.
  destruct b; [destruct (build_constexpr_spec init) as [? Hk]|destruct (build_runtime_spec init) as [? Hk]];
    (split; [done|]; intros k; unfold model; simpl; by rewrite Hk).
Qed.

(** ** Properties *)

(** Both construction strategies of FlatMap (constant evaluation by sorted insertion, run
    time by stable sort and deduplication) build the same vector from any initialiser. *)
Theorem build_from_paths_agree init : build_from true init = build_from false init.
Proof.
  destruct (build_constexpr_spec init) as [Hc Hck], (build_runtime_spec init) as [Hr Hrk].
  simpl. destruct (build_constexpr init) as [lc], (build_runtime init) as [lr]. f_equal.
  apply (wf_entry_ext fst comp); [done..|]. intros k. simpl in *. by rewrite Hck, Hrk.
Qed.

(** C6. A FlatMap built either way from any initialiser answers every sequence of calls
    (insert, erase, contains, at, operator[], clear and assignments through the references
    they return) exactly as a function from keys to values in which the first of several
    entries with equivalent keys wins, and its vector is strictly sorted at the end. *)
Theorem map_client_refinement b init cs :
  wf (runs (build_from b init) cs).1 /\
  (runs (build_from b init) cs).2 =
    spec_runs (fun k => snd <$> List.find (fun e => equivalent comp e.1 k) init) cs.
Proof. apply runs_refines, build_from_refines. Qed.

(** On a strictly sorted vector the searches are exact: [find] returns the position of the
    entry with an equivalent key, or the end when there is none, and the half-open range from
    [lower_bound] to [upper_bound] holds exactly the [count] entries equivalent to the key. *)
Theorem search_positions m k :
  wf m ->
  (forall e, data_ m !! find m k = Some e <-> entry fst comp (data_ m) k = Some e) /\
  (contains m k = false <-> find m k = end_ m) /\
  upper_bound m k = lower_bound m k + count m k.
Proof.
  intros Hwf. destruct m as [l]. unfold count, lower_bound. simpl.
  destruct (wf_located fst comp l k Hwf) as [l1 e l2 -> He H1 H2|l1 l2 -> H1 H2].
  - rewrite (found_find l1 e l2), (found_contains l1 e l2), (found_upper l1 e l2), (found_search l1 e l2),
      list_lookup_middle, entry_found by done.
    split_and!; [done|..|lia]. split; [done|]. unfold end_. simpl. rewrite length_app. simpl. lia.
  - rewrite (absent_find l1 l2), (absent_contains l1 l2), (absent_upper l1 l2), (absent_search l1 l2),
      entry_absent by done.
    split_and!; [|done|lia]. intros e. by rewrite lookup_ge_None_2.
Qed.
End flat_map.

(** ** Concrete runs *)

Example build_dedup :
  data_ (build_runtime Z.ltb [(2, "b"); (1, "a"); (2, "c")]%Z) = [(1, "a"); (2, "b")]%Z.
Proof. reflexivity. Qed.

Lemma build_from_paths_agree_witness :
  build_from Z.ltb true [(3, 30); (1, 10); (3, 31)]%Z = build_from Z.ltb false [(3, 30); (1, 10); (3, 31)]%Z.
Proof. apply (build_from_paths_agree Z.ltb). Defined.

Lemma map_client_refinement_witness :
  wf Z.ltb (runs Z.ltb 0%Z (build_from Z.ltb false [(3, 30)]%Z) [Insert 1 10; Erase 3; At 3]%Z).1 /\
  (runs Z.ltb 0%Z (build_from Z.ltb false [(3, 30)]%Z) [Insert 1 10; Erase 3; At 3]%Z).2 =
    [Flag true; Count 1; Thrown out_of_range].
Proof. apply (map_client_refinement Z.ltb 0%Z false [(3, 30)]%Z [Insert 1 10; Erase 3; At 3]%Z). Defined.

Lemma search_positions_witness :
  find Z.ltb (FlatMap [(1, 10); (3, 30)]%Z) 3%Z = 1 /\
  upper_bound Z.ltb (FlatMap [(1, 10); (3, 30)]%Z) 3%Z = 1 + 1.
Proof.
  assert (wf Z.ltb (FlatMap [(1, 10); (3, 30)]%Z)) as Hwf by (repeat constructor).
  destruct (search_positions Z.ltb (FlatMap [(1, 10); (3, 30)]%Z) 3%Z Hwf) as (_ & _ & Hu).
  split; [reflexivity|exact Hu].
Defined.
