(* ===== verification/FlatSet.v ===== *)
(** * FlatSet (flat_set.hpp)

    The sorted-vector set.  Iterators are positions, [end_] is the length of the vector.
    Construction sorts with [std::sort], which leaves the order of equivalent elements open,
    so the sorting function is a parameter with the guarantee of [SortImpl]. *)

From S2P Require Import Prelude StdAlgo FlatCore.

Section flat_set.
Context {T : Type} (comp : T -> T -> bool) (sort : list T -> list T).

Record flat_set := FlatSet { data_ : list T }.

Definition size (s : flat_set) : nat := length (data_ s).
Definition empty (s : flat_set) : bool := (size s =? 0)%nat.
Definition clear (s : flat_set) : flat_set := FlatSet [].
Definition end_ (s : flat_set) : nat := length (data_ s).

(** ** Lookup *)

Definition lower_bound (s : flat_set) (value : T) : nat :=
  partition_point (fun x => comp x value) (data_ s).

Definition upper_bound (s : flat_set) (value : T) : nat :=
  partition_point (fun x => negb (comp value x)) (data_ s).

Definition find (s : flat_set) (value : T) : nat :=
  let it := lower_bound s value in
  match data_ s !! it with
  | Some x => if negb (comp value x) then it else end_ s
  | None => end_ s
  end.

Definition contains (s : flat_set) (value : T) : bool := negb (find s value =? end_ s)%nat.
Definition count (s : flat_set) (value : T) : nat := if contains s value then 1 else 0.

(** ** Modifiers *)

Definition insert_impl (s : flat_set) (value : T) : flat_set * (nat * bool) :=
  let pos := lower_bound s value in
  match data_ s !! pos with
  | Some x =>
      if negb (comp value x) then (s, (pos, false))
      else (FlatSet (insert_at pos value (data_ s)), (pos, true))
  | None => (FlatSet (insert_at pos value (data_ s)), (pos, true))
  end.

Definition insert (s : flat_set) (value : T) : flat_set * (nat * bool) := insert_impl s value.

Definition erase (s : flat_set) (value : T) : flat_set * nat :=
  let it := find s value in
  if (it =? end_ s)%nat then (s, 0) else (FlatSet (erase_at it (data_ s)), 1).

Definition erase_pos (s : flat_set) (pos : nat) : flat_set * nat :=
  (FlatSet (erase_at pos (data_ s)), pos).

(** ** Construction *)

Definition same_element (lhs rhs : T) : bool := negb (comp lhs rhs) && negb (comp rhs lhs).

Definition sort_unique (l : list T) : flat_set := FlatSet (unique same_element (sort l)).

Definition build (init : list T) : flat_set := sort_unique init.

(** ** The client's view: calls, and their meaning on a membership predicate *)

Inductive call : Type :=
  | Insert (value : T)
  | Erase (value : T)
  | Contains (value : T)
  | Count (value : T)
  | Clear.

Inductive result : Type := Flag (b : bool) | Number (n : nat) | Done.

Definition run (s : flat_set) (c : call) : flat_set * result :=
  match c with
  | Insert value => let '(s', (_, b)) := insert s value in (s', Flag b)
  | Erase value => let '(s', n) := erase s value in (s', Number n)
  | Contains value => (s, Flag (contains s value))
  | Count value => (s, Number (count s value))
  | Clear => (clear s, Done)
  end.

Fixpoint runs (s : flat_set) (cs : list call) : flat_set * list result :=
  match cs with
  | [] => (s, [])
  | c :: cs => let '(s, r) := run s c in let '(s, rs) := runs s cs in (s, r :: rs)
  end.

Definition spec_update (f : T -> bool) (value : T) (b : bool) : T -> bool :=
  fun x => if equivalent comp value x then b else f x.

Definition spec_run (f : T -> bool) (c : call) : (T -> bool) * result :=
  match c with
  | Insert value => if f value then (f, Flag false) else (spec_update f value true, Flag true)
  | Erase value => if f value then (spec_update f value false, Number 1) else (f, Number 0)
  | Contains value => (f, Flag (f value))
  | Count value => (f, Number (if f value then 1 else 0))
  | Clear => (fun _ => false, Done)
  end.

Fixpoint spec_runs (f : T -> bool) (cs : list call) : list result :=
  match cs with
  | [] => []
  | c :: cs => let '(f, r) := spec_run f c in r :: spec_runs f cs
  end.

Definition wf (s : flat_set) : Prop := strictly_sorted comp (data_ s).

(** An element is a member when the vector holds an equivalent one. *)
Definition member (l : list T) (value : T) : bool := existsb (fun x => equivalent comp x value) l.

Definition refines (s : flat_set) (f : T -> bool) : Prop :=
  wf s /\ forall x, member (data_ s) x = f x.

Context `{!StrictWeakOrder comp}.

(** ** Membership *)

Lemma member_app l1 l2 x : member (l1 ++ l2) x = member l1 x || member l2 x.
Proof. apply existsb_app. Qed.

Lemma member_entry l x : member l x = bool_decide (is_Some (entry id comp l x)).
Proof.
  unfold member, entry. induction l as [|y l IH]; simpl; [done|].
  change (equivalent comp (id y) x) with (equivalent comp y x).
  by destruct (equivalent comp y x).
Qed.

Lemma member_perm l l' x : l ≡ₚ l' -> member l x = member l' x.
Proof.
  unfold member. induction 1; simpl; [done|congruence| |congruence].
  rewrite !orb_assoc. f_equal. apply orb_comm.
Qed.

Lemma member_congr l x y : equivalent comp x y = true -> member l x = member l y.
Proof. intros. rewrite !member_entry. by erewrite entry_congr. Qed.

Section found.
Context (l1 : list T) (e : T) (l2 : list T) (v : T).
Context (He : equivalent comp e v = true).
Context (H1 : Forall (fun x => comp x v = true) l1) (H2 : Forall (fun x => comp v x = true) l2).

Lemma set_found_search : partition_point (fun x => comp x v) (l1 ++ e :: l2) = length l1.
Proof.
  apply equivalent_spec in He as [Hek Hke].
  apply (lower_bound_app id comp); [done|]. constructor; [done|]. by apply (above_not_below id comp).
Qed.

Lemma set_found_find : find (FlatSet (l1 ++ e :: l2)) v = length l1.
Proof.
  unfold find, lower_bound. simpl. rewrite set_found_search, list_lookup_middle by done.
  apply equivalent_spec in He as [Hek Hke]. by rewrite Hke.
Qed.

Lemma set_found_not_end : (length l1 =? length (l1 ++ e :: l2))%nat = false.
Proof. apply Nat.eqb_neq. rewrite length_app. simpl. lia. Qed.

Lemma set_found_contains : contains (FlatSet (l1 ++ e :: l2)) v = true.
Proof. unfold contains, end_. simpl. by rewrite set_found_find, set_found_not_end. Qed.

Lemma set_found_insert : insert (FlatSet (l1 ++ e :: l2)) v = (FlatSet (l1 ++ e :: l2), (length l1, false)).
Proof.
  unfold insert, insert_impl, lower_bound. simpl. rewrite set_found_search, list_lookup_middle by done.
  apply equivalent_spec in He as [Hek Hke]. by rewrite Hke.
Qed.

Lemma set_found_erase : erase (FlatSet (l1 ++ e :: l2)) v = (FlatSet (l1 ++ l2), 1).
Proof. unfold erase, end_. simpl. by rewrite set_found_find, set_found_not_end, erase_at_app. Qed.

Lemma found_member : member (l1 ++ e :: l2) v = true.
Proof. rewrite member_app. simpl. by rewrite He, orb_true_r. Qed.

End found.

Section absent.
Context (l1 l2 : list T) (v : T).
Context (H1 : Forall (fun x => comp x v = true) l1) (H2 : Forall (fun x => comp v x = true) l2).

Lemma set_absent_search : partition_point (fun x => comp x v) (l1 ++ l2) = length l1.
Proof. apply (lower_bound_app id comp); [done|]. by apply (above_not_below id comp). Qed.

Lemma set_absent_next e : (l1 ++ l2) !! length l1 = Some e -> comp v e = true.
Proof.
  rewrite lookup_app_r, Nat.sub_diag by done. destruct l2; intros [= ->]. by inv H2.
Qed.

Lemma set_absent_find : find (FlatSet (l1 ++ l2)) v = length (l1 ++ l2).
Proof.
  unfold find, lower_bound, end_. simpl. rewrite set_absent_search.
  destruct ((l1 ++ l2) !! length l1) as [e|] eqn:E; [|done]. by rewrite (set_absent_next e).
Qed.

Lemma set_absent_contains : contains (FlatSet (l1 ++ l2)) v = false.
Proof. unfold contains, end_. simpl. by rewrite set_absent_find, Nat.eqb_refl. Qed.

Lemma set_absent_insert : insert (FlatSet (l1 ++ l2)) v = (FlatSet (l1 ++ v :: l2), (length l1, true)).
Proof.
  unfold insert, insert_impl, lower_bound. simpl. rewrite set_absent_search, insert_at_app.
  destruct ((l1 ++ l2) !! length l1) as [e|] eqn:E; [|done]. by rewrite (set_absent_next e).
Qed.

Lemma set_absent_erase : erase (FlatSet (l1 ++ l2)) v = (FlatSet (l1 ++ l2), 0).
Proof. unfold erase, end_. simpl. by rewrite set_absent_find, Nat.eqb_refl. Qed.

Lemma absent_member : member (l1 ++ l2) v = false.
Proof. rewrite member_entry. by rewrite (entry_absent id comp). Qed.

End absent.

(** ** Refinement *)

Lemma spec_update_insert l1 v l2 f x :
  (forall y, member (l1 ++ l2) y = f y) -> member (l1 ++ v :: l2) x = spec_update f v true x.
Proof.
  intros Hf. unfold spec_update. rewrite <- Hf, !member_app. simpl.
  destruct (equivalent comp v x); [by rewrite orb_true_r|done].
Qed.

Lemma spec_update_erase l1 e l2 v f x :
  equivalent comp e v = true -> wf (FlatSet (l1 ++ e :: l2)) ->
  (forall y, member (l1 ++ e :: l2) y = f y) -> member (l1 ++ l2) x = spec_update f v false x.
Proof.
  intros He Hwf Hf. unfold spec_update. rewrite <- Hf, !member_app. simpl.
  rewrite (equivalent_sym comp v x), <- (equivalent_congr comp x e v), (equivalent_sym comp x e) by done.
  destruct (equivalent comp e x) eqn:E; [|done].
  rewrite <- !(member_congr _ e x) by done. rewrite <- member_app. apply equivalent_spec in He as [? ?].
  apply StronglySorted_app in Hwf as (H12 & _ & Hs2). inv Hs2.
  apply absent_member; [|done]. apply Forall_forall. intros y Hy. apply H12; [done|]. by left.
Qed.

Lemma set_run_refines s f c :
  refines s f -> refines (run s c).1 (spec_run f c).1 /\ (run s c).2 = (spec_run f c).2.
Proof.
  intros [Hwf Hf]. destruct s as [l]. unfold wf in Hwf. simpl in *.
  destruct c as [v|v|v|v|]; [..|by repeat split; constructor];
    destruct (wf_located id comp l v Hwf) as [l1 e l2 -> He H1 H2|l1 l2 -> H1 H2];
    simpl; unfold count; rewrite <- (Hf v).
  all: rewrite ?(found_member l1 e l2 v), ?(set_found_insert l1 e l2 v), ?(set_found_erase l1 e l2 v),
    ?(set_found_contains l1 e l2 v), ?(absent_member l1 l2 v), ?(set_absent_insert l1 l2 v),
    ?(set_absent_erase l1 l2 v), ?(set_absent_contains l1 l2 v) by done; simpl.
  all: split; [|done]; split; try done; simpl.
  - by apply (wf_insert id comp).
  - intros x. by apply spec_update_insert.
  - by apply (wf_erase id comp l1 e l2).
  - intros x. by apply (spec_update_erase l1 e l2).
Qed.

Lemma set_runs_refines s f cs : refines s f -> wf (runs s cs).1 /\ (runs s cs).2 = spec_runs f cs.
Proof.
  revert s f. induction cs as [|c cs IH]; intros s f Hr; simpl; [by split; [apply Hr|]|].
  destruct (set_run_refines s f c Hr) as [Hr' Hres].
  destruct (run s c) as [s' r], (spec_run f c) as [f' r']. simpl in *. subst.
  specialize (IH s' f' Hr'). destruct (runs s' cs) as [s'' rs]. simpl in *.
  destruct IH. by split; [|f_equal].
Qed.

Lemma build_refines init : SortImpl comp sort -> refines (build init) (member init).
Proof.
  intros Hsort. split; [apply (unique_sorted comp), sort_sorted|]. intros x.
  unfold build, sort_unique. simpl. rewrite member_entry.
  rewrite (entry_unique id comp : forall l k, entry id comp (unique same_element l) k = _).
  rewrite <- member_entry. apply member_perm, sort_perm.
Qed.

(** ** Properties *)

(** C7. Whatever sorted arrangement [std::sort] chooses, a FlatSet built from any initialiser
    answers every sequence of calls (insert, erase, contains, count, clear) exactly as
    membership up to equivalence does, and its vector is strictly sorted at the end. *)
Theorem set_client_refinement init cs (Hsort : SortImpl comp sort) :
  wf (runs (build init) cs).1 /\
  (runs (build init) cs).2 = spec_runs (fun v => existsb (fun x => equivalent comp x v) init) cs.
Proof. apply set_runs_refines. by apply build_refines. Qed.

End flat_set.

(** ** Concrete runs *)

Lemma set_client_refinement_witness :
  wf Z.ltb (runs Z.ltb (build Z.ltb (stable_sort Z.ltb) [5; 2; 5]%Z) [Erase 5; Insert 5; Contains 3; Count 2]%Z).1 /\
  (runs Z.ltb (build Z.ltb (stable_sort Z.ltb) [5; 2; 5]%Z) [Erase 5; Insert 5; Contains 3; Count 2]%Z).2 =
    [Number 1; Flag true; Flag false; Number 1].
Proof.
  apply (set_client_refinement Z.ltb (stable_sort Z.ltb) [5; 2; 5]%Z [Erase 5; Insert 5; Contains 3; Count 2]%Z).
  apply (stable_sort_impl Z.ltb).
Defined.
