(* ===== verification/Fifo.v ===== *)
(** * Bounded FIFO queues: the interface CircularBuffer and LockFreeQueue promise

    [BoundedFifo] states what a client of a bounded queue may rely on; the client's theorem
    (delivery in order, nothing lost or duplicated) is proved here against the interface, and
    each implementation discharges the laws in its own file. *)

From S2P Require Import Prelude.

Class BoundedFifo (Q T : Type) := {
  fifo_ok : Q -> Prop;
  fifo_capacity : Q -> nat;
  fifo_contents : Q -> list T;
  fifo_push : Q -> T -> Q * bool;
  fifo_pop : Q -> Q * option T;
  (** A push is accepted exactly when there is room, and then appends. *)
  fifo_push_spec q x :
    fifo_ok q ->
    fifo_ok (fifo_push q x).1 /\
    fifo_capacity (fifo_push q x).1 = fifo_capacity q /\
    (if (length (fifo_contents q) <? fifo_capacity q)%nat
     then (fifo_push q x).2 = true /\ fifo_contents (fifo_push q x).1 = fifo_contents q ++ [x]
     else (fifo_push q x).2 = false /\ fifo_contents (fifo_push q x).1 = fifo_contents q);
  (** A pop takes the oldest element, if there is one. *)
  fifo_pop_spec q :
    fifo_ok q ->
    fifo_ok (fifo_pop q).1 /\
    fifo_capacity (fifo_pop q).1 = fifo_capacity q /\
    (fifo_pop q).2 = head (fifo_contents q) /\
    fifo_contents (fifo_pop q).1 = tail (fifo_contents q);
  fifo_bound q : fifo_ok q -> length (fifo_contents q) <= fifo_capacity q
}.

Section client.
Context {Q T : Type} `{BoundedFifo Q T}.

(** A client session: values offered, and pops. *)
Inductive request : Type := Offer (x : T) | Take.

(** What the session did: the values accepted and the values delivered, in order. *)
Fixpoint session (q : Q) (rs : list request) : Q * list T * list T :=
  match rs with
  | [] => (q, [], [])
  | Offer x :: rs =>
      let '(q, b) := fifo_push q x in
      let '(q, accepted, delivered) := session q rs in
      (q, if b then x :: accepted else accepted, delivered)
  | Take :: rs =>
      let '(q, o) := fifo_pop q in
      let '(q, accepted, delivered) := session q rs in
      (q, accepted, match o with Some x => x :: delivered | None => delivered end)
  end.

(** Everything delivered, followed by what is still queued, is what was queued at the start
    followed by everything accepted. *)
Lemma session_order q rs :
  fifo_ok q ->
  let '(q', accepted, delivered) := session q rs in
  fifo_ok q' /\ fifo_capacity q' = fifo_capacity q /\
  delivered ++ fifo_contents q' = fifo_contents q ++ accepted.
Proof.
  revert q. induction rs as [|[x|] rs IH]; intros q Hq; simpl.
  - split_and!; [done..|]. by rewrite app_nil_r.
  - destruct (fifo_push_spec q x Hq) as (Hok & Hcap & Hpush).
    destruct (fifo_push q x) as [q1 b]. simpl in *. specialize (IH q1 Hok).
    destruct (session q1 rs) as [[q2 acc] del]. destruct IH as (? & ? & E).
    split_and!; [done|congruence|]. rewrite E.
    case_match; destruct Hpush as [-> ->]; [by rewrite <- app_assoc|done].
  - destruct (fifo_pop_spec q Hq) as (Hok & Hcap & Hres & Hcont).
    destruct (fifo_pop q) as [q1 o]. simpl in *. specialize (IH q1 Hok).
    destruct (session q1 rs) as [[q2 acc] del]. destruct IH as (? & ? & E).
    split_and!; [done|congruence|]. rewrite Hcont in E. subst o.
    destruct (fifo_contents q); simpl in *; congruence.
Qed.

End client.
Arguments request : clear implicits.
