(* ===== verification/CircularBuffer.v ===== *)
(** * CircularBuffer (circular_buffer.hpp)

    The ring over a fixed vector: [head_] is the oldest element's slot, [count_] the number of
    elements.  [pop] moves the element out of its slot; what a moved-from slot then holds is
    the element type's business, so it is a parameter ([moved]). *)

From S2P Require Import Prelude Fifo.

Section circular_buffer.
Context {T : Type} (moved : T -> T).

Record circular_buffer := CircularBuffer {
  buffer_ : list T;
  head_ : nat;
  count_ : nat
}.

(** The constructor: [capacity] value-initialised slots. *)
Definition make (capacity : nat) (value_initialised : T) : circular_buffer :=
  CircularBuffer (replicate capacity value_initialised) 0 0.

Definition capacity (b : circular_buffer) : nat := length (buffer_ b).
Definition size (b : circular_buffer) : nat := count_ b.
Definition empty (b : circular_buffer) : bool := (count_ b =? 0)%nat.
Definition full (b : circular_buffer) : bool := (count_ b =? length (buffer_ b))%nat.
Definition clear (b : circular_buffer) : circular_buffer := CircularBuffer (buffer_ b) 0 0.

(** ** Indices *)

Definition advance (b : circular_buffer) (index : nat) : nat :=
  let next := index + 1 in
  if (next =? length (buffer_ b))%nat then 0 else next.

Definition tail_index (b : circular_buffer) : nat :=
  let tail := head_ b + count_ b in
  if (length (buffer_ b) <=? tail)%nat then tail - length (buffer_ b) else tail.

Definition back_index (b : circular_buffer) : nat :=
  let back := head_ b + count_ b - 1 in
  if (length (buffer_ b) <=? back)%nat then back - length (buffer_ b) else back.

(** ** Push and pop *)

Definition push_impl (b : circular_buffer) (value : T) : circular_buffer * bool :=
  if full b then (b, false)
  else (CircularBuffer (<[tail_index b := value]> (buffer_ b)) (head_ b) (count_ b + 1), true).

Definition push_overwrite_impl (b : circular_buffer) (value : T) : circular_buffer :=
  if full b then
    CircularBuffer (<[head_ b := value]> (buffer_ b)) (advance b (head_ b)) (count_ b)
  else
    CircularBuffer (<[tail_index b := value]> (buffer_ b)) (head_ b) (count_ b + 1).

Definition pop (b : circular_buffer) : circular_buffer * option T :=
  if empty b then (b, None)
  else
    (CircularBuffer (alter moved (head_ b) (buffer_ b)) (advance b (head_ b)) (count_ b - 1),
     buffer_ b !! head_ b).

(** ** Access; undefined on an empty buffer (asserted in debug builds) *)

Definition front (b : circular_buffer) : option T := buffer_ b !! head_ b.
Definition back (b : circular_buffer) : option T := buffer_ b !! back_index b.

(** ** The client's view: calls on the ring and on a plain list *)

Inductive call : Type := TryPush (x : T) | PushOverwrite (x : T) | Pop | Size | Full | Clear | Front | Back.

Inductive result : Type := Flag (b : bool) | Popped (o : option T) | Number (n : nat) | Done.

Definition run (b : circular_buffer) (c : call) : circular_buffer * result :=
  match c with
  | TryPush x => let '(b, ok) := push_impl b x in (b, Flag ok)
  | PushOverwrite x => (push_overwrite_impl b x, Done)
  | Pop => let '(b, o) := pop b in (b, Popped o)
  | Size => (b, Number (size b))
  | Full => (b, Flag (full b))
  | Clear => (clear b, Done)
  | Front => (b, Popped (if empty b then None else front b))
  | Back => (b, Popped (if empty b then None else back b))
  end.

Definition spec_run (cap : nat) (q : list T) (c : call) : list T * result :=
  match c with
  | TryPush x => if (length q <? cap)%nat then (q ++ [x], Flag true) else (q, Flag false)
  | PushOverwrite x => (if (length q <? cap)%nat then q ++ [x] else tail q ++ [x], Done)
  | Pop => (tail q, Popped (head q))
  | Size => (q, Number (length q))
  | Full => (q, Flag (length q =? cap)%nat)
  | Clear => ([], Done)
  | Front => (q, Popped (head q))
  | Back => (q, Popped (last q))
  end.

Fixpoint runs (b : circular_buffer) (cs : list call) : list result :=
  match cs with
  | [] => []
  | c :: cs => let '(b, r) := run b c in r :: runs b cs
  end.

Fixpoint spec_runs (cap : nat) (q : list T) (cs : list call) : list result :=
  match cs with
  | [] => []
  | c :: cs => let '(q, r) := spec_run cap q c in r :: spec_runs cap q cs
  end.

(** ** Invariant and contents *)

Definition wf (b : circular_buffer) : Prop := head_ b < length (buffer_ b) /\ count_ b <= length (buffer_ b).

(** The elements, oldest first: the slots from [head_] on, wrapping around. *)
Definition contents (b : circular_buffer) : list T :=
  take (count_ b) (drop (head_ b) (buffer_ b) ++ take (head_ b) (buffer_ b)).

(** The slot [i] places after [head_]. *)
Definition slot (b : circular_buffer) (i : nat) : nat :=
  if (length (buffer_ b) <=? head_ b + i)%nat then head_ b + i - length (buffer_ b) else head_ b + i.

Lemma length_contents b : wf b -> length (contents b) = count_ b.
Proof.
  intros [Hh Hc]. unfold contents. rewrite length_take, length_app, length_drop, length_take. lia.
Qed.

Lemma contents_lookup b i :
  wf b -> contents b !! i = if (i <? count_ b)%nat then buffer_ b !! slot b i else None.
Proof.
  intros [Hh Hc]. unfold contents, slot. destruct (Nat.ltb_spec i (count_ b)).
  - rewrite lookup_take_lt by done. destruct (Nat.leb_spec (length (buffer_ b)) (head_ b + i)).
    + rewrite lookup_app_r by (rewrite length_drop; lia). rewrite length_drop, lookup_take_lt by lia.
      f_equal. lia.
    + rewrite lookup_app_l by (rewrite length_drop; lia). by rewrite lookup_drop.
  - by rewrite lookup_take_ge.
Qed.

Lemma contents_ext b q :
  wf b -> length q = count_ b -> (forall i, i < count_ b -> buffer_ b !! slot b i = q !! i) -> contents b = q.
Proof.
  intros Hwf Hl Hi. apply list_eq. intros i. rewrite contents_lookup by done.
  destruct (Nat.ltb_spec i (count_ b)); [by apply Hi|]. symmetry. apply lookup_ge_None. lia.
Qed.

(** Decide every index comparison in sight. *)
Ltac indices :=
  repeat match goal with
  | |- context [(?x <=? ?y)%nat] => destruct (Nat.leb_spec x y)
  | |- context [(?x <? ?y)%nat] => destruct (Nat.ltb_spec x y)
  | |- context [(?x =? ?y)%nat] => destruct (Nat.eqb_spec x y)
  end; try lia.

Lemma push_contents b x :
  wf b -> count_ b < length (buffer_ b) ->
  let b' := CircularBuffer (<[tail_index b := x]> (buffer_ b)) (head_ b) (count_ b + 1) in
  wf b' /\ contents b' = contents b ++ [x].
Proof.
  intros Hwf Hlt b'. pose proof Hwf as [Hh Hc]. assert (wf b') as Hwf'.
  { unfold wf, b'. simpl. rewrite length_insert. lia. }
  split; [done|]. apply contents_ext; [done|rewrite length_app, length_contents by done; simpl; lia|].
  unfold slot, b', tail_index. simpl. rewrite length_insert. intros i Hi.
  destruct (decide (i = count_ b)) as [->|Hne].
  - rewrite lookup_app_r, length_contents, Nat.sub_diag by (rewrite ?length_contents; done).
    simpl. apply list_lookup_insert_eq. indices.
  - rewrite lookup_app_l, contents_lookup by (rewrite ?length_contents by done; lia || done).
    unfold slot. rewrite list_lookup_insert_ne by indices. indices; done.
Qed.

Lemma overwrite_contents b x :
  wf b -> count_ b = length (buffer_ b) ->
  let b' := CircularBuffer (<[head_ b := x]> (buffer_ b)) (advance b (head_ b)) (count_ b) in
  wf b' /\ contents b' = tail (contents b) ++ [x].
Proof.
  intros Hwf Hfull b'. pose proof Hwf as [Hh Hc]. assert (wf b') as Hwf'.
  { unfold wf, b', advance. simpl. rewrite length_insert. indices. }
  assert (length (tail (contents b)) = count_ b - 1) as Hl.
  { rewrite length_tail, length_contents by done. lia. }
  split; [done|]. apply contents_ext; [done|rewrite length_app, Hl; simpl; lia|].
  unfold slot, b', advance. simpl. rewrite length_insert. intros i Hi.
  destruct (decide (i = count_ b - 1)) as [->|Hne].
  - rewrite lookup_app_r, Hl, Nat.sub_diag by lia. simpl.
    rewrite <- (list_lookup_insert_eq (buffer_ b) (head_ b) x) by done. f_equal. indices.
  - rewrite lookup_app_l, lookup_tail, contents_lookup by (done || lia).
    unfold slot. rewrite list_lookup_insert_ne by indices. indices; f_equal; lia.
Qed.

Lemma pop_contents b :
  wf b -> 0 < count_ b ->
  let b' := CircularBuffer (alter moved (head_ b) (buffer_ b)) (advance b (head_ b)) (count_ b - 1) in
  wf b' /\ contents b' = tail (contents b).
Proof.
  intros Hwf Hpos b'. pose proof Hwf as [Hh Hc]. assert (wf b') as Hwf'.
  { unfold wf, b', advance. simpl. rewrite length_alter. indices. }
  split; [done|]. apply contents_ext; [done|by rewrite length_tail, length_contents|].
  unfold slot, b', advance. simpl. rewrite length_alter. intros i Hi.
  rewrite lookup_tail, contents_lookup by done. unfold slot.
  rewrite list_lookup_alter_ne by indices. indices; f_equal; lia.
Qed.

Lemma front_contents b : wf b -> 0 < count_ b -> front b = head (contents b).
Proof.
  intros Hwf Hpos. pose proof Hwf as [Hh Hc]. rewrite head_lookup, contents_lookup by done.
  unfold front, slot. rewrite Nat.add_0_r. indices. done.
Qed.

Lemma back_contents b : wf b -> 0 < count_ b -> back b = last (contents b).
Proof.
  intros Hwf Hpos. pose proof Hwf as [Hh Hc]. rewrite last_lookup, length_contents, contents_lookup by done.
  unfold back, back_index, slot. indices; f_equal; lia.
Qed.

Lemma contents_nil b : wf b -> count_ b = 0 -> contents b = [].
Proof. intros Hwf H0. apply nil_length_inv. by rewrite length_contents. Qed.

(** Every call on the ring answers, and changes the contents, as on a bounded list. *)
Lemma buffer_run_refines b c :
  wf b ->
  wf (run b c).1 /\ length (buffer_ (run b c).1) = length (buffer_ b) /\
  (contents (run b c).1, (run b c).2) = spec_run (length (buffer_ b)) (contents b) c.
Proof.
  intros Hwf. pose proof Hwf as [Hh Hc].
  destruct c; simpl; unfold push_impl, push_overwrite_impl, pop, full, empty, size;
    rewrite ?length_contents by done.
  - destruct (Nat.eqb_spec (count_ b) (length (buffer_ b))); simpl.
    + split_and!; [done..|]. by indices.
    + destruct (push_contents b x Hwf ltac:(lia)) as [? E]. simpl in *. rewrite E, length_insert.
      split_and!; [done..|]. by indices.
  - destruct (Nat.eqb_spec (count_ b) (length (buffer_ b))); simpl.
    + destruct (overwrite_contents b x Hwf ltac:(done)) as [? E]. simpl in *. rewrite E, length_insert.
      split_and!; [done..|]. by indices.
    + destruct (push_contents b x Hwf ltac:(lia)) as [? E]. simpl in *. rewrite E, length_insert.
      split_and!; [done..|]. by indices.
  - destruct (Nat.eqb_spec (count_ b) 0); simpl.
    + by rewrite contents_nil.
    + destruct (pop_contents b Hwf ltac:(lia)) as [? E]. simpl in *. rewrite E, length_alter.
      split_and!; [done..|]. by rewrite <- front_contents by (done || lia).
  - done.
  - done.
  - split_and!; [unfold wf; simpl; lia|done|]. by rewrite contents_nil by (unfold wf; simpl; lia).
  - split_and!; [done..|]. destruct (Nat.eqb_spec (count_ b) 0); [by rewrite contents_nil|].
    by rewrite front_contents by (done || lia).
  - split_and!; [done..|]. destruct (Nat.eqb_spec (count_ b) 0); [by rewrite contents_nil|].
    by rewrite back_contents by (done || lia).
Qed.

Lemma buffer_runs_refines b cs : wf b -> runs b cs = spec_runs (length (buffer_ b)) (contents b) cs.
Proof.
  revert b. induction cs as [|c cs IH]; intros b Hwf; simpl; [done|].
  destruct (buffer_run_refines b c Hwf) as (Hwf' & Hl & E). destruct (run b c) as [b' r].
  simpl in *. rewrite <- E. by rewrite IH, Hl.
Qed.

Lemma buffer_make_wf cap v : 0 < cap -> wf (make cap v).
Proof. intros. unfold wf. simpl. rewrite length_replicate. lia. Qed.

(** The ring satisfies the queue interface. *)
#[export] Program Instance circular_buffer_fifo : BoundedFifo circular_buffer T := {
  fifo_ok := wf;
  fifo_capacity := capacity;
  fifo_contents := contents;
  fifo_push := push_impl;
  fifo_pop := pop
}.
Next Obligation.
  intros b x Hwf. unfold capacity. destruct (buffer_run_refines b (TryPush x) Hwf) as (? & ? & E). simpl in *.
  rewrite length_contents in * by done. destruct (push_impl b x) as [b' ok]. simpl in *.
  destruct (Nat.ltb_spec (count_ b) (length (buffer_ b))); by simplify_eq.
Qed.
Next Obligation.
  intros b Hwf. unfold capacity. destruct (buffer_run_refines b Pop Hwf) as (? & ? & E). simpl in *.
  destruct (pop b) as [b' o]. simpl in *. by simplify_eq.
Qed.
Next Obligation.
  intros b Hwf. rewrite length_contents by done. apply Hwf.
Qed.

(** ** Properties *)

(** C8. A CircularBuffer of positive capacity answers every sequence of calls (try_push,
    push_overwrite, pop, size, full, clear, front, back) exactly as a list bounded by the
    capacity, whatever a moved-from slot holds: try_push refuses when full, push_overwrite
    then drops the oldest element, pop and front see the oldest, back the newest. *)
Theorem buffer_client_refinement cap v cs : 0 < cap -> runs (make cap v) cs = spec_runs cap [] cs.
Proof.
  intros Hcap. rewrite buffer_runs_refines by by apply buffer_make_wf. simpl. by rewrite length_replicate.
Qed.

(** Streaming through the ring: over any mix of offers and takes, the values delivered
    followed by those still queued are exactly the accepted offers, in order, and the ring
    never holds more than its capacity. *)
Theorem stream_order cap v (rs : list (request T)) :
  0 < cap ->
  let '(b, accepted, delivered) := session (make cap v) rs in
  delivered ++ contents b = accepted /\ size b <= cap.
Proof.
  intros Hcap. pose proof (session_order (make cap v) rs (buffer_make_wf cap v Hcap)) as H.
  destruct (session (make cap v) rs) as [[b acc] del]. simpl in H.
  destruct H as ([Hh Hc] & Hl & E). split; [exact E|].
  unfold capacity in Hl. simpl in Hl. rewrite length_replicate in Hl. unfold size. lia.
Qed.

End circular_buffer.
Arguments call : clear implicits.

(** ** Concrete runs *)

Lemma buffer_client_refinement_witness :
  runs id (make 2 0) [TryPush 1; TryPush 2; TryPush 3; PushOverwrite 4; Front; Back; Pop; Pop; Pop] =
    [Flag true; Flag true; Flag false; Done; Popped (Some 2); Popped (Some 4);
     Popped (Some 2); Popped (Some 4); Popped None].
Proof. apply (buffer_client_refinement id 2 0). lia. Defined.

Lemma stream_order_witness :
  let '(b, accepted, delivered) := @session _ _ (circular_buffer_fifo id) (make 2 0) [Offer 1; Offer 2; Offer 3; Take; Offer 4] in
  delivered ++ contents b = accepted /\ size b <= 2.
Proof. apply (stream_order id 2 0 [Offer 1; Offer 2; Offer 3; Take; Offer 4]). lia. Defined.
