(* ===== verification/StackAllocator.v ===== *)
(** * StackAllocator (stack_allocator.hpp)

    The bump allocator over [Size] bytes at address [base].  Addresses and sizes are 64-bit;
    [std::align] is modelled by its documented contract (the first aligned address in the free
    space, if the block fits there). *)

From S2P Require Import Prelude.
Local Open Scope Z_scope.

(** [std::align(alignment, size, ptr, space)]. *)
Definition std_align (alignment size ptr space : Z) : option Z :=
  if space <? size then None
  else
    let aligned := (ptr + (alignment - 1)) / alignment * alignment in
    if space - size <? aligned - ptr then None else Some aligned.

Section stack_allocator.
Context (Size base : Z).

Record stack_allocator := StackAllocator { offset_ : Z }.

Definition make : stack_allocator := StackAllocator 0.

Definition allocate (s : stack_allocator) (bytes alignment : Z) : stack_allocator * outcome Z :=
  let cursor := base + offset_ s in
  let space := Size - offset_ s in
  match std_align alignment bytes cursor space with
  | None => (s, Throw bad_alloc)
  | Some aligned => (StackAllocator ((aligned - base) + bytes), Ret aligned)
  end.

(** [allocate_uninitialized<T>(count)]: the byte count is a [std::size_t] product. *)
Definition allocate_uninitialized (s : stack_allocator) (sizeof alignof count : Z) : stack_allocator * outcome Z :=
  allocate s (u64 (count * sizeof)) alignof.

Definition reset (s : stack_allocator) : stack_allocator := StackAllocator 0.
Definition mark (s : stack_allocator) : Z := offset_ s.
Definition rewind (s : stack_allocator) (marker : Z) : stack_allocator := StackAllocator marker.
Definition capacity : Z := Size.
Definition used (s : stack_allocator) : Z := offset_ s.
Definition remaining (s : stack_allocator) : Z := Size - offset_ s.

(** ** Sessions: the blocks a client holds *)

(** A block the allocator handed out: its address and its length in bytes. *)
Definition block : Type := Z * Z.
Definition block_end (b : block) : Z := b.1 + b.2.

Inductive command : Type :=
  | Allocate (bytes alignment : Z)
  | Rewind (marker : Z)
  | Reset.

(** The allocator with the blocks still valid, latest first: rewinding invalidates what was
    allocated past the marker. *)
Inductive session : stack_allocator -> list block -> Prop :=
  | session_start : session make []
  | session_allocate s live bytes alignment s' p :
      session s live -> 0 <= bytes -> (exists k, 0 <= k /\ alignment = 2 ^ k) ->
      allocate s bytes alignment = (s', Ret p) -> session s' ((p, bytes) :: live)
  | session_refused s live bytes alignment s' e :
      session s live -> 0 <= bytes -> (exists k, 0 <= k /\ alignment = 2 ^ k) ->
      allocate s bytes alignment = (s', Throw e) -> session s' live
  | session_rewind s live marker :
      session s live -> 0 <= marker <= mark s ->
      session (rewind s marker) (filter (fun b => block_end b <= base + marker) live)
  | session_reset s live : session s live -> session (reset s) [].

Definition wf (s : stack_allocator) : Prop := 0 <= offset_ s <= Size.

(** Blocks lie one above the other, latest highest, all below [top]. *)
Fixpoint stacked (top : Z) (live : list block) : Prop :=
  match live with
  | [] => base <= top
  | b :: live => 0 <= b.2 /\ block_end b <= top /\ stacked b.1 live
  end.

(** ** [std::align] *)

Lemma align_up alignment ptr :
  0 < alignment ->
  let a := (ptr + (alignment - 1)) / alignment * alignment in
  ptr <= a < ptr + alignment /\ (alignment | a) /\ (forall q, (alignment | q) -> ptr <= q -> a <= q).
Proof.
  intros Ha a. pose proof (Z.div_mod (ptr + (alignment - 1)) alignment ltac:(lia)) as E.
  pose proof (Z.mod_pos_bound (ptr + (alignment - 1)) alignment Ha). unfold a.
  split_and!; [lia|lia|by exists ((ptr + (alignment - 1)) / alignment)|].
  intros q [c ->] Hq. apply Z.mul_le_mono_nonneg_r; [lia|].
  apply Z.lt_succ_r, Z.div_lt_upper_bound; [done|]. nia.
Qed.

Lemma power_positive alignment : (exists k, 0 <= k /\ alignment = 2 ^ k) -> 0 < alignment.
Proof. intros (k & Hk & ->). by apply Z.pow_pos_nonneg. Qed.

Lemma allocate_cases s bytes alignment :
  0 < alignment ->
  (exists p, allocate s bytes alignment = (StackAllocator (p - base + bytes), Ret p) /\
    (alignment | p) /\ base + offset_ s <= p < base + offset_ s + alignment /\ p + bytes <= base + Size) \/
  (allocate s bytes alignment = (s, Throw bad_alloc) /\
    forall p, (alignment | p) -> base + offset_ s <= p -> base + Size < p + bytes).
Proof.
  intros Ha. destruct (align_up alignment (base + offset_ s) Ha) as (Hp & Hdiv & Hmin).
  unfold allocate, std_align.
  set (a := (base + offset_ s + (alignment - 1)) / alignment * alignment) in *.
  destruct (Z.ltb_spec (Size - offset_ s) bytes); [right; split; [done|]; intros; lia|].
  destruct (Z.ltb_spec (Size - offset_ s - bytes) (a - (base + offset_ s))).
  - right. split; [done|]. intros p Hd Hle. specialize (Hmin p Hd Hle). lia.
  - left. exists a. split_and!; [done|done|lia..].
Qed.

Lemma stacked_base top live : stacked top live -> base <= top.
Proof.
  revert top. induction live as [|b live IH]; intros top; simpl; [done|].
  intros (? & ? & Hs). apply IH in Hs. unfold block_end in *. lia.
Qed.

Lemma stacked_weaken top top' live : stacked top live -> top <= top' -> stacked top' live.
Proof. destruct live; simpl; [lia|]. intros (? & ? & ?) ?. split_and!; [done|lia|done]. Qed.

Lemma stacked_ends top live : stacked top live -> Forall (fun b => block_end b <= top) live.
Proof.
  revert top. induction live as [|b live IH]; intros top; simpl; [by constructor|].
  intros (? & ? & Hs). constructor; [done|]. eapply Forall_impl; [by apply IH|].
  intros c Hc. simpl in Hc. unfold block_end in *. lia.
Qed.

Lemma stacked_below top live limit :
  stacked top live -> base <= limit -> stacked limit (filter (fun b => block_end b <= limit) live).
Proof.
  revert top. induction live as [|b live IH]; intros top; simpl; [done|]. intros (? & ? & Hs) Hl.
  destruct (decide (block_end b <= limit)).
  - rewrite filter_cons_True by done. simpl. split_and!; [done..|].
    rewrite filter_all; [done|]. eapply Forall_impl; [by apply stacked_ends|].
    intros c Hc. simpl in Hc. unfold block_end in *. lia.
  - rewrite filter_cons_False by done. by eapply IH.
Qed.

Lemma stacked_inside top live b :
  stacked top live -> b ∈ live -> base <= b.1 /\ 0 <= b.2 /\ block_end b <= top.
Proof.
  revert top. induction live as [|c live IH]; intros top Hs Hb; [by apply not_elem_of_nil in Hb|].
  simpl in Hs. destruct Hs as (? & ? & Hs). apply elem_of_cons in Hb as [->|Hb].
  - split_and!; [by apply stacked_base in Hs|done|done].
  - destruct (IH _ Hs Hb) as (? & ? & ?). unfold block_end in *. split_and!; lia.
Qed.

Lemma session_invariant s live : 0 <= Size -> session s live -> wf s /\ stacked (base + offset_ s) live.
Proof.
  intros HS. unfold wf. induction 1 as
    [|s live bytes alignment s' p _ [Hwf Hst] Hb Hp E|s live bytes alignment s' e _ [Hwf Hst] Hb Hp E
     |s live marker _ [Hwf Hst] Hm|s live _ [Hwf Hst]]; simpl.
  - lia.
  - destruct (allocate_cases s bytes alignment (power_positive _ Hp)) as [(q & E' & _ & Hq & Hend)|[E' _]];
      rewrite E' in E; simplify_eq/=.
    split; [lia|]. unfold block_end. simpl. split_and!; [done|lia|]. eapply stacked_weaken; [done|lia].
  - destruct (allocate_cases s bytes alignment (power_positive _ Hp)) as [(q & E' & _)|[E' _]];
      rewrite E' in E; by simplify_eq/=.
  - unfold mark in Hm. split; [lia|]. eapply stacked_below; [done|lia].
  - lia.
Qed.

Lemma stacked_disjoint top live i j b c :
  stacked top live -> (i < j)%nat -> live !! i = Some b -> live !! j = Some c -> block_end c <= b.1.
Proof.
  revert top i j. induction live as [|d live IH]; intros top [|i] [|j] Hs ? Hb Hc; simpl in *; try lia; try done.
  - simplify_eq. destruct Hs as (_ & _ & Hs). apply stacked_ends in Hs.
    by apply (proj1 (Forall_lookup _ _) Hs j).
  - destruct Hs as (_ & _ & Hs). by eapply (IH d.1 i j); [| lia |..].
Qed.
(** ** Properties *)

(** [allocate] hands out the lowest sufficiently aligned address at or above the high-water
    mark at which the block still fits, and moves the mark to the end of the block; it throws
    [bad_alloc], leaving the allocator as it was, exactly when no aligned address fits. *)
Theorem allocate_exact s bytes alignment :
  (exists k, 0 <= k /\ alignment = 2 ^ k) ->
  match allocate s bytes alignment with
  | (s', Ret p) =>
      (alignment | p) /\ base + offset_ s <= p /\ p + bytes <= base + Size /\
      offset_ s' = p + bytes - base /\
      (forall q, (alignment | q) -> base + offset_ s <= q -> p <= q)
  | (s', Throw e) =>
      e = bad_alloc /\ s' = s /\
      (forall q, (alignment | q) -> base + offset_ s <= q -> base + Size < q + bytes)
  end.
Proof.
  intros Hp%power_positive.
  destruct (allocate_cases s bytes alignment Hp) as [(p & -> & Hd & Hr & He)|[-> Hno]]; [|done].
  simpl. split_and!; [done|lia..|]. intros q [c ->] Hq. destruct Hd as [d ->].
  apply Z.mul_le_mono_nonneg_r; [lia|]. apply Z.lt_succ_r, (Z.mul_lt_mono_pos_r alignment); lia.
Qed.

(** C9. Over any session of allocations, rewinds to earlier marks and resets, the offset never
    leaves the buffer, every block still valid lies inside the used part of the buffer, and of
    two valid blocks the later one starts at or after the end of the earlier one. *)
Theorem live_blocks_disjoint s live :
  0 <= Size -> session s live ->
  0 <= offset_ s <= Size /\
  (forall b, b ∈ live -> base <= b.1 /\ 0 <= b.2 /\ block_end b <= base + offset_ s) /\
  (forall i j b c, (i < j)%nat -> live !! i = Some b -> live !! j = Some c -> block_end c <= b.1).
Proof.
  intros HS Hses. destruct (session_invariant s live HS Hses) as [Hwf Hst]. split_and!; [apply Hwf..| |].
  - intros b Hb. by apply (stacked_inside _ live).
  - intros i j b c. by apply (stacked_disjoint (base + offset_ s) live).
Qed.

(** [allocate_uninitialized] does not guard the product of the count and the object size:
    asking a fresh allocator for [2^61 + 1] eight-byte objects succeeds, and reserves 8 bytes. *)
Theorem uninitialized_count_overflows :
  8 <= Size -> (8 | base) ->
  allocate_uninitialized make 8 8 (2 ^ 61 + 1) = (StackAllocator 8, Ret base).
Proof.
  intros HS Hb. unfold allocate_uninitialized. change (u64 ((2 ^ 61 + 1) * 8)) with 8.
  destruct (allocate_cases make 8 8 ltac:(lia)) as [(p & -> & Hd & Hr & He)|[_ Hno]]; simpl in *.
  - assert (p = base) as -> by (destruct Hd as [c ->], Hb as [d ->]; lia).
    by rewrite Z.sub_diag.
  - specialize (Hno base Hb ltac:(lia)). lia.
Qed.

End stack_allocator.

(** ** Concrete runs *)

Lemma allocate_exact_witness :
  match allocate 64 4096 (StackAllocator 3) 16 8 with
  | (s', Ret p) =>
      (8 | p) /\ 4096 + 3 <= p /\ p + 16 <= 4096 + 64 /\ offset_ s' = p + 16 - 4096 /\
      (forall q, (8 | q) -> 4096 + 3 <= q -> p <= q)
  | (s', Throw e) => False
  end.
Proof. apply (allocate_exact 64 4096 (StackAllocator 3) 16 8). exists 3. split; [lia|reflexivity]. Defined.

Lemma live_blocks_disjoint_witness :
  exists s live, session 64 4096 s live /\ length live = 2%nat /\
    (forall i j b c, (i < j)%nat -> live !! i = Some b -> live !! j = Some c -> block_end c <= b.1).
Proof.
  exists (StackAllocator 24), [(4104, 16); (4096, 4)].
  assert (session 64 4096 (StackAllocator 24) [(4104, 16); (4096, 4)]) as H.
  { eapply (session_allocate _ _ (StackAllocator 4) _ 16 8); [|lia|exists 3; split; [lia|reflexivity]|reflexivity].
    eapply (session_allocate _ _ (StackAllocator 0) _ 4 4); [|lia|exists 2; split; [lia|reflexivity]|reflexivity].
    constructor. }
  split_and!; [exact H|reflexivity|].
  destruct (live_blocks_disjoint 64 4096 (StackAllocator 24) [(4104, 16); (4096, 4)] ltac:(lia) H) as (_ & _ & Hd).
  exact Hd.
Defined.

Lemma uninitialized_count_overflows_witness :
  allocate_uninitialized 64 4096 make 8 8 (2 ^ 61 + 1) = (StackAllocator 8, Ret 4096).
Proof. apply (uninitialized_count_overflows 64 4096); [lia|]. by exists 512. Defined.
