(* ===== verification/BinarySerializer.v ===== *)
(** * BinarySerializer and BinaryDeserializer (binary_serializer.hpp)

    The writer over a caller-owned buffer and the reader that mirrors it.  A scalar type is
    given by its size and its bit pattern ([Scalar]): [std::bit_cast] to a byte array lays the
    pattern out in the host's order ([native]), and the codec reverses the bytes when the wire
    order differs.  The host's order is a parameter, and may differ between the two ends. *)

From S2P Require Import Prelude.

Inductive endian : Set := little | big.
#[export] Instance endian_eq_dec : EqDecision endian.
Proof. solve_decision. Defined.

(** A [TriviallySerializable] type: [bits] and [unbits] are the two directions of
    [std::bit_cast] between a value and its object representation read as a number. *)
Class Scalar (T : Type) := {
  sizeof : nat;
  bits : T -> Z;
  unbits : Z -> T;
  bits_range v : (0 <= bits v < 256 ^ Z.of_nat sizeof)%Z;
  unbits_bits v : unbits (bits v) = v
}.
Arguments sizeof T {_}.

(** The representation of a pattern in a given byte order, and back (it is an involution). *)
Definition layout (order : endian) (bs : text) : text :=
  match order with little => bs | big => rev bs end.

(** [std::bit_cast] between a value and [std::array<std::byte, sizeof(T)>] on this host. *)
Definition bit_cast_to {T} `{Scalar T} (native : endian) (v : T) : text :=
  layout native (le_bytes (sizeof T) (bits v)).
Definition bit_cast_from {T} `{Scalar T} (native : endian) (raw : text) : T :=
  unbits (le_value (layout native raw)).

(** [std::ranges::copy(src, buffer.subspan(pos).begin())]. *)
Definition copy_at (pos : nat) (src buffer : text) : text :=
  take pos buffer ++ src ++ drop (pos + length src) buffer.

(** ** The writer *)

Record serializer := Serializer {
  buffer_ : text;
  pos_ : nat;
  order_ : endian;
  overflowed_ : bool
}.

Definition make_serializer (buffer : text) (order : endian) : serializer :=
  Serializer buffer 0 order false.

Definition data (s : serializer) : text := take (pos_ s) (buffer_ s).
Definition bytes_written (s : serializer) : nat := pos_ s.
Definition capacity (s : serializer) : nat := length (buffer_ s).
Definition remaining (s : serializer) : nat := length (buffer_ s) - pos_ s.

Definition write_raw (native : endian) (s : serializer) (raw : text) : serializer * bool :=
  if (remaining s <? length raw)%nat then
    (Serializer (buffer_ s) (pos_ s) (order_ s) true, false)
  else
    let raw := if decide (order_ s = native) then raw else rev raw in
    (Serializer (copy_at (pos_ s) raw (buffer_ s)) (pos_ s + length raw) (order_ s) (overflowed_ s), true).

Definition write {T} `{Scalar T} (native : endian) (s : serializer) (value : T) : serializer * bool :=
  write_raw native s (bit_cast_to native value).

Definition write_bytes (s : serializer) (src : text) : serializer * bool :=
  if (remaining s <? length src)%nat then
    (Serializer (buffer_ s) (pos_ s) (order_ s) true, false)
  else
    (Serializer (copy_at (pos_ s) src (buffer_ s)) (pos_ s + length src) (order_ s) (overflowed_ s), true).

(** ** The reader *)

Record deserializer := Deserializer {
  source_ : text;
  cursor_ : nat;
  wire_ : endian
}.

Definition make_deserializer (source : text) (order : endian) : deserializer := Deserializer source 0 order.

Definition available (d : deserializer) : nat := length (source_ d) - cursor_ d.
Definition bytes_read (d : deserializer) : nat := cursor_ d.
Definition exhausted (d : deserializer) : bool := (cursor_ d =? length (source_ d))%nat.

Definition read {T} `{Scalar T} (native : endian) (d : deserializer) : deserializer * option T :=
  if (available d <? sizeof T)%nat then (d, None)
  else
    let raw := take (sizeof T) (drop (cursor_ d) (source_ d)) in
    let raw := if decide (wire_ d = native) then raw else rev raw in
    (Deserializer (source_ d) (cursor_ d + sizeof T) (wire_ d), Some (bit_cast_from native raw)).

Definition read_bytes (d : deserializer) (n : nat) : deserializer * option text :=
  if (available d <? n)%nat then (d, None)
  else
    (Deserializer (source_ d) (cursor_ d + n) (wire_ d), Some (take n (drop (cursor_ d) (source_ d)))).

(** ** Records of mixed fields *)

(** A field of a record: a scalar of any serialisable type, or a raw block. *)
Inductive field : Type :=
  | Value (T : Type) (S : Scalar T) (v : T)
  | Block (bs : text).

Definition write_field (native : endian) (s : serializer) (f : field) : serializer * bool :=
  match f with
  | Value _ _ v => write native s v
  | Block bs => write_bytes s bs
  end.

Fixpoint write_fields (native : endian) (s : serializer) (fs : list field) : serializer * list bool :=
  match fs with
  | [] => (s, [])
  | f :: fs =>
      let '(s, b) := write_field native s f in
      let '(s, bs) := write_fields native s fs in (s, b :: bs)
  end.

(** The wire form of a field: it depends on the wire order only, not on the host. *)
Definition encode (order : endian) (f : field) : text :=
  match f with
  | Value T _ v => layout order (le_bytes (sizeof T) (bits v))
  | Block bs => bs
  end.

(** The fields that fit, one after the other, in [room] bytes: one that does not fit is
    skipped and the later ones still get their chance. *)
Fixpoint accepted (order : endian) (room : nat) (fs : list field) : list field * list bool :=
  match fs with
  | [] => ([], [])
  | f :: fs =>
      let n := length (encode order f) in
      if (n <=? room)%nat
      then let '(a, bs) := accepted order (room - n) fs in (f :: a, true :: bs)
      else let '(a, bs) := accepted order room fs in (a, false :: bs)
  end.

(** The longest beginning of the list whose fields fit one after the other. *)
Fixpoint fitting (order : endian) (room : nat) (fs : list field) : list field :=
  match fs with
  | [] => []
  | f :: fs => if (length (encode order f) <=? room)%nat then f :: fitting order (room - length (encode order f)) fs else []
  end.

(** Reading a record back field by field yields the values written and ends at [d']. *)
Fixpoint reads_back (native : endian) (d : deserializer) (fs : list field) (d' : deserializer) : Prop :=
  match fs with
  | [] => d = d'
  | Value T _ v :: fs =>
      (read (T := T) native d).2 = Some v /\ reads_back native (read (T := T) native d).1 fs d'
  | Block bs :: fs =>
      (read_bytes d (length bs)).2 = Some bs /\ reads_back native (read_bytes d (length bs)).1 fs d'
  end.

Definition wf (s : serializer) : Prop := pos_ s <= length (buffer_ s).

(** ** Byte patterns *)

Lemma length_layout o bs : length (layout o bs) = length bs.
Proof. destruct o; simpl; [done|apply length_rev]. Qed.

Lemma layout_involutive o bs : layout o (layout o bs) = bs.
Proof. destruct o; simpl; [done|apply rev_involutive]. Qed.

(** Reversing when the orders differ turns the host's layout into the wire's, and back. *)
Lemma to_wire (wire native : endian) bs :
  (if decide (wire = native) then layout native bs else rev (layout native bs)) = layout wire bs.
Proof. destruct wire, native; simpl; try done. apply rev_involutive. Qed.

Lemma from_wire (wire native : endian) bs :
  layout native (if decide (wire = native) then layout wire bs else rev (layout wire bs)) = bs.
Proof.
  destruct wire, native; simpl; rewrite ?rev_involutive; done.
Qed.

Lemma length_bit_cast_to {T} `{Scalar T} native (v : T) : length (bit_cast_to native v) = sizeof T.
Proof. unfold bit_cast_to. by rewrite length_layout, length_le_bytes. Qed.

(** ** Writing *)

Lemma take_copy_at pos src buffer :
  pos + length src <= length buffer ->
  take (pos + length src) (copy_at pos src buffer) = take pos buffer ++ src.
Proof.
  intros H. unfold copy_at. rewrite app_assoc, take_app_length'; [done|].
  rewrite length_app, length_take. lia.
Qed.

Lemma length_copy_at pos src buffer :
  pos + length src <= length buffer -> length (copy_at pos src buffer) = length buffer.
Proof. intros H. unfold copy_at. rewrite !length_app, length_take, length_drop. lia. Qed.

Lemma drop_copy_at pos src buffer n :
  pos + length src <= length buffer -> pos + length src <= n ->
  drop n (copy_at pos src buffer) = drop n buffer.
Proof.
  intros H Hn. unfold copy_at. rewrite app_assoc, drop_app_ge by (rewrite length_app, length_take; lia).
  rewrite drop_drop. f_equal. rewrite length_app, length_take. lia.
Qed.

(** Every field is written, or refused, the same way: by its wire form. *)
Lemma write_field_spec native s f :
  write_field native s f =
    if (remaining s <? length (encode (order_ s) f))%nat
    then (Serializer (buffer_ s) (pos_ s) (order_ s) true, false)
    else (Serializer (copy_at (pos_ s) (encode (order_ s) f) (buffer_ s))
            (pos_ s + length (encode (order_ s) f)) (order_ s) (overflowed_ s), true).
Proof.
  destruct f as [T S v|bs]; simpl; [|done].
  unfold write, write_raw. rewrite length_bit_cast_to, length_layout, length_le_bytes.
  case_match; [done|]. unfold bit_cast_to. rewrite to_wire. by rewrite length_layout, length_le_bytes.
Qed.

Lemma write_fields_spec native s fs :
  wf s ->
  let '(s', results) := write_fields native s fs in
  let '(acc, expected) := accepted (order_ s) (remaining s) fs in
  results = expected /\ wf s' /\ order_ s' = order_ s /\ length (buffer_ s') = length (buffer_ s) /\
  data s' = data s ++ concat (map (encode (order_ s)) acc) /\
  drop (pos_ s') (buffer_ s') = drop (pos_ s') (buffer_ s) /\ pos_ s <= pos_ s' /\
  overflowed_ s' = overflowed_ s || existsb negb results.
Proof.
  unfold wf. revert s. induction fs as [|f fs IH]; intros s Hwf; simpl.
  - rewrite app_nil_r, orb_false_r. by split_and!.
  - rewrite write_field_spec. set (e := encode (order_ s) f).
    destruct (Nat.ltb_spec (remaining s) (length e)), (Nat.leb_spec (length e) (remaining s)); try lia.
    + specialize (IH (Serializer (buffer_ s) (pos_ s) (order_ s) true) Hwf). simpl in IH.
      destruct (write_fields _ _ fs) as [s' bs].
      change (remaining (Serializer (buffer_ s) (pos_ s) (order_ s) true)) with (remaining s) in IH.
      destruct (accepted (order_ s) (remaining s) fs) as [acc exp].
      destruct IH as (-> & ? & ? & ? & ? & ? & ? & ?). split_and!; try done.
      simpl. by rewrite orb_true_r.
    + unfold remaining in *. assert (pos_ s + length e <= length (buffer_ s)) as Hfit by lia.
      specialize (IH (Serializer (copy_at (pos_ s) e (buffer_ s)) (pos_ s + length e) (order_ s) (overflowed_ s))).
      simpl in IH. rewrite length_copy_at in IH by done. specialize (IH ltac:(lia)).
      destruct (write_fields _ _ fs) as [s' bs].
      replace (length (buffer_ s) - pos_ s - length e) with (length (buffer_ s) - (pos_ s + length e)) by lia.
      destruct (accepted (order_ s) _ fs) as [acc exp].
      destruct IH as (-> & ? & ? & ? & Hd & Hdr & ? & ?). split_and!; try done; simpl.
      * rewrite Hd. unfold data. simpl. rewrite take_copy_at by done. by rewrite <- app_assoc.
      * rewrite Hdr. by apply drop_copy_at.
      * lia.
Qed.

(** From a fresh writer. *)
Lemma write_fields_make native order buffer fs :
  let '(s, results) := write_fields native (make_serializer buffer order) fs in
  let '(acc, expected) := accepted order (length buffer) fs in
  results = expected /\ data s = concat (map (encode order) acc) /\ overflowed_ s = existsb negb expected.
Proof.
  pose proof (write_fields_spec native (make_serializer buffer order) fs ltac:(unfold wf; simpl; lia)) as H.
  unfold remaining in H. simpl in H. rewrite Nat.sub_0_r in H. destruct (write_fields _ _ fs) as [s results].
  destruct (accepted order (length buffer) fs) as [acc expected]. destruct H as (-> & _ & _ & _ & Hd & _ & _ & Ho). by split_and!.
Qed.

(** A list that fits is accepted as a whole. *)
Lemma accepted_all order n fs : length (concat (map (encode order) fs)) <= n -> accepted order n fs = (fs, replicate (length fs) true).
Proof.
  revert n. induction fs as [|f fs IH]; intros n Hn; simpl; [done|]. simpl in Hn. rewrite length_app in Hn.
  destruct (Nat.leb_spec (length (encode order f)) n); [|lia]. by rewrite IH by lia.
Qed.

Lemma write_fitting native (s : serializer) p :
  let wire := concat (map (encode (order_ s)) p) in
  pos_ s = 0 -> overflowed_ s = false -> length wire <= length (buffer_ s) ->
  let '(s', results) := write_fields native s p in
  results = replicate (length p) true /\ data s' = wire /\ length (buffer_ s') = length (buffer_ s) /\
  drop (pos_ s') (buffer_ s') = drop (pos_ s') (buffer_ s) /\ order_ s' = order_ s /\ pos_ s' = length wire /\ overflowed_ s' = false.
Proof.
  intros wire H0 Hov Hl. pose proof (write_fields_spec native s p ltac:(unfold wf; lia)) as H.
  unfold remaining in H. rewrite accepted_all in H by (fold wire; lia). destruct (write_fields native s p) as [s' results].
  destruct H as (-> & Hw & Ho & Hlen & Hd & Hdr & _ & Hf). unfold data in Hd at 2. rewrite H0 in Hd. simpl in Hd. split_and!; try done.
  - apply (f_equal length) in Hd. unfold data in Hd. rewrite length_take in Hd. unfold wf in Hw. unfold wire. lia.
  - rewrite Hf, Hov. simpl. clear. induction p; simpl; auto.
Qed.

Lemma fitting_prefix order n fs : fitting order n fs `prefix_of` fs.
Proof. revert n. induction fs as [|f fs IH]; intros n; simpl; [done|]. case_match; [by apply prefix_cons|apply prefix_nil]. Qed.

Lemma fitting_fits order n fs : length (concat (map (encode order) (fitting order n fs))) <= n.
Proof.
  revert n. induction fs as [|f fs IH]; intros n; simpl; [lia|]. destruct (Nat.leb_spec (length (encode order f)) n); simpl; [|lia].
  specialize (IH (n - length (encode order f))). rewrite length_app. lia.
Qed.

Lemma fitting_stops order n fs f rest :
  fs = fitting order n fs ++ f :: rest -> n - length (concat (map (encode order) (fitting order n fs))) < length (encode order f).
Proof.
  revert n. induction fs as [|g fs IH]; intros n; simpl; [done|]. destruct (Nat.leb_spec (length (encode order g)) n); simpl.
  - intros [= H']. rewrite length_app. specialize (IH _ H'). lia.
  - intros [= -> _]. lia.
Qed.

Lemma accepted_fitting order n fs :
  exists more, (accepted order n fs).1 = fitting order n fs ++ more /\
    existsb negb (accepted order n fs).2 = negb (length (fitting order n fs) =? length fs).
Proof.
  revert n. induction fs as [|f fs IH]; intros n; simpl; [by exists []|].
  destruct (Nat.leb_spec (length (encode order f)) n).
  - destruct (IH (n - length (encode order f))) as (more & Ea & Ee). destruct (accepted order _ fs) as [a bs]. exists more. simpl in *. by rewrite Ea, Ee.
  - destruct (accepted order n fs) as [a bs]. by exists a.
Qed.

(** ** Reading *)

Lemma read_at {T} `{Scalar T} native wire (v : T) pre post :
  read (T := T) native (Deserializer (pre ++ layout wire (le_bytes (sizeof T) (bits v)) ++ post) (length pre) wire) =
    (Deserializer (pre ++ layout wire (le_bytes (sizeof T) (bits v)) ++ post)
       (length (pre ++ layout wire (le_bytes (sizeof T) (bits v)))) wire, Some v).
Proof.
  unfold read, available. simpl. rewrite !length_app, length_layout, length_le_bytes.
  destruct (Nat.ltb_spec (length pre + (sizeof T + length post) - length pre) (sizeof T)); [lia|].
  rewrite drop_app_length, take_app_length' by by rewrite length_layout, length_le_bytes.
  unfold bit_cast_from. rewrite from_wire, le_value_bytes by apply bits_range. by rewrite unbits_bits.
Qed.

Lemma read_bytes_at wire bs pre post :
  read_bytes (Deserializer (pre ++ bs ++ post) (length pre) wire) (length bs) =
    (Deserializer (pre ++ bs ++ post) (length (pre ++ bs)) wire, Some bs).
Proof.
  unfold read_bytes, available. simpl. rewrite !length_app.
  destruct (Nat.ltb_spec (length pre + (length bs + length post) - length pre) (length bs)); [lia|].
  by rewrite drop_app_length, take_app_length.
Qed.

Lemma reads_back_spec native wire fs pre post :
  let wire_form := concat (map (encode wire) fs) in
  reads_back native (Deserializer (pre ++ wire_form ++ post) (length pre) wire) fs
    (Deserializer (pre ++ wire_form ++ post) (length (pre ++ wire_form)) wire).
Proof.
  revert pre. induction fs as [|[T S v|bs] fs IH]; intros pre; simpl.
  - by rewrite app_nil_r.
  - rewrite <- !app_assoc, read_at. split; [done|]. simpl.
    rewrite !(app_assoc pre). apply IH.
  - rewrite <- !app_assoc, read_bytes_at. split; [done|]. simpl.
    rewrite !(app_assoc pre). apply IH.
Qed.

(** ** Properties *)

(** C10. Writing any list of fields to a buffer of any size, on any host, up to and including the first overflow: the fields that
    fit one after the other are all accepted, the bytes written are their wire forms in order, and nothing else of the buffer changes; the first
    field that does not fit is refused and changes nothing but the overflow flag.  Whatever is written afterwards, the flag
    is set exactly when some field did not fit, and the bytes written before stay as they are.  (What later, smaller fields do is
    [later_field_is_written].) *)
Theorem writes_exact native order buffer fs :
  let p := fitting order (length buffer) fs in
  let wire := concat (map (encode order) p) in
  p `prefix_of` fs /\
  (let '(s, results) := write_fields native (make_serializer buffer order) p in
   results = replicate (length p) true /\ data s = wire /\ length (buffer_ s) = length buffer /\
   drop (length wire) (buffer_ s) = drop (length wire) buffer /\ overflowed_ s = false /\
   forall f rest, fs = p ++ f :: rest -> write_field native s f = (Serializer (buffer_ s) (pos_ s) (order_ s) true, false)) /\
  (let s := (write_fields native (make_serializer buffer order) fs).1 in
   overflowed_ s = negb (length p =? length fs) /\ take (length wire) (data s) = wire).
Proof.
  intros p wire. destruct (fitting_prefix order (length buffer) fs) as [rest Hp]. fold p in Hp. split_and!; [by exists rest|..].
  - pose proof (write_fitting native (make_serializer buffer order) p eq_refl eq_refl (fitting_fits _ _ _)) as H.
    destruct (write_fields native _ p) as [s results]. simpl in H. fold wire in H.
    destruct H as (-> & Hd & Hl & Hdr & Ho & Hpos & Hov).
    split_and!; try done; [by rewrite <- Hpos|]. intros f rest' Hf. rewrite write_field_spec, Ho. unfold remaining. rewrite Hl, Hpos.
    pose proof (fitting_stops _ _ _ _ _ Hf) as Hn. fold p wire in Hn. simpl. by rewrite (proj2 (Nat.ltb_lt _ _)).
  - pose proof (write_fields_make native order buffer fs) as H. destruct (write_fields native _ fs) as [s results].
    destruct (accepted_fitting order (length buffer) fs) as (more & Ea & Ee). fold p in Ea, Ee.
    destruct (accepted order (length buffer) fs) as [acc expected]. simpl in *. subst acc. destruct H as (-> & Hd & Hov). split; [by rewrite Hov|].
    rewrite Hd, map_app, concat_app. by rewrite take_app_length.
Qed.

(** After an overflow a field that still fits is written, although the class comment says that the buffer is left untouched from the overflow
    on. *)
Theorem later_field_is_written native s f :
  wf s -> overflowed_ s = true -> length (encode (order_ s) f) <= remaining s ->
  let '(s', ok) := write_field native s f in
  ok = true /\ data s' = data s ++ encode (order_ s) f /\ overflowed_ s' = true.
Proof.
  unfold wf, remaining. intros Hw Ho Hf. rewrite write_field_spec. unfold remaining. rewrite (proj2 (Nat.ltb_ge _ _)) by done.
  split_and!; try done. unfold data. simpl. apply take_copy_at. lia.
Qed.

(** C11. A record that fits is read back intact, field by field, by a reader with the same wire
    order on a host of either byte order; the reader has then consumed exactly what was
    written. *)
Theorem record_round_trip writer_host reader_host order buffer fs :
  length (concat (map (encode order) fs)) <= length buffer ->
  let s := (write_fields writer_host (make_serializer buffer order) fs).1 in
  exists d, reads_back reader_host (make_deserializer (data s) order) fs d /\ exhausted d = true.
Proof.
  intros Hfit. pose proof (write_fields_spec writer_host (make_serializer buffer order) fs) as H.
  unfold wf, remaining in H. simpl in H. rewrite Nat.sub_0_r in H. specialize (H ltac:(lia)).
  destruct (write_fields writer_host (make_serializer buffer order) fs) as [s results].
  pose proof (accepted_all order _ fs Hfit) as E.
  rewrite E in H. destruct H as (_ & _ & _ & _ & Hd & _). 
  change (data (make_serializer buffer order)) with (@nil ascii) in Hd. simpl in Hd.
  intros s0. subst s0. simpl. rewrite Hd.
  pose proof (reads_back_spec reader_host order fs [] []) as Hr. simpl in Hr. rewrite app_nil_r in Hr.
  eexists. split; [exact Hr|]. unfold exhausted. simpl. apply Nat.eqb_refl.
Qed.

(** A read past the end returns nothing and leaves the cursor where it was; otherwise the
    cursor advances by the size read and never passes the end of the source. *)
Theorem reads_stay_inside {T} `{Scalar T} native d :
  cursor_ d <= length (source_ d) ->
  let '(d', v) := read (T := T) native d in
  source_ d' = source_ d /\ cursor_ d' <= length (source_ d) /\
  (v = None <-> length (source_ d) < cursor_ d + sizeof T) /\
  (v = None -> d' = d) /\ (v <> None -> cursor_ d' = cursor_ d + sizeof T).
Proof.
  intros Hc. unfold read, available.
  destruct (Nat.ltb_spec (length (source_ d) - cursor_ d) (sizeof T)); simpl; split_and!; try done; try lia.
  - split; [lia|done].
  - split; [done|lia].
Qed.

(** ** Instances for the integer types *)

#[export] Program Instance uint32_scalar : Scalar {z : Z | bool_decide (0 <= z < 2 ^ 32)%Z} := {
  sizeof := 4;
  bits v := `v;
  unbits z := exist _ (u32 z) _
}.
Next Obligation. intros z. apply bool_decide_pack, wrap_bound. lia. Qed.
Next Obligation. intros [z Hz]. simpl. by apply bool_decide_unpack in Hz. Qed.
Next Obligation.
  intros [z Hz]. apply (sig_eq_pi _). simpl. apply bool_decide_unpack in Hz. by apply wrap_small.
Qed.

#[export] Program Instance bool_scalar : Scalar bool := {
  sizeof := 1;
  bits v := Z.b2z v;
  unbits z := Z.odd z
}.
Next Obligation. intros []; simpl; lia. Qed.
Next Obligation. by intros []. Qed.

(** An unsigned integer of [n] bytes; [float] and [double] are known by their object representations. *)
Definition word (n : nat) : Type := {z : Z | bool_decide (0 <= z < 256 ^ Z.of_nat n)%Z}.

#[export] Program Instance word_scalar (n : nat) : Scalar (word n) | 10 := {
  sizeof := n;
  bits v := `v;
  unbits z := exist _ (z mod 256 ^ Z.of_nat n)%Z _
}.
Next Obligation. intros n z. apply bool_decide_pack, Z.mod_pos_bound. apply Z.pow_pos_nonneg; lia. Qed.
Next Obligation. intros n [z Hz]. simpl. by apply bool_decide_unpack in Hz. Qed.
Next Obligation. intros n [z Hz]. apply (sig_eq_pi _). simpl. apply bool_decide_unpack in Hz. by apply Z.mod_small. Qed.

(** ** Concrete runs *)

Definition sample_u32 (z : Z) (H : bool_decide (0 <= z < 2 ^ 32)%Z) : {z : Z | bool_decide (0 <= z < 2 ^ 32)%Z} := exist _ z H.

Example little_endian_layout :
  data (write_fields big (make_serializer (replicate 8 "000"%char) little)
    [Value _ _ (sample_u32 258 I); Block ($"ab"); Value _ _ true]).1 =
  ["002"; "001"; "000"; "000"; "a"; "b"; "001"]%char.
Proof. reflexivity. Qed.

(** A buffer of seven bytes: a word and a block fit, the next word does not, the flag after it would. *)
Lemma writes_exact_witness :
  let fs := [Value _ _ (sample_u32 258 I); Block ($"ab"); Value _ _ (sample_u32 7 I); Value _ _ true] in
  let s := (write_fields big (make_serializer (replicate 7 "000"%char) little) (fitting little 7 fs)).1 in
  length (fitting little 7 fs) = 2 /\ data s = ["002"; "001"; "000"; "000"; "a"; "b"]%char /\
  write_field big s (Value _ _ (sample_u32 7 I)) = (Serializer (buffer_ s) (pos_ s) (order_ s) true, false).
Proof.
  intros fs s. destruct (writes_exact big little (replicate 7 "000"%char) fs) as (_ & H & _).
  split; [reflexivity|]. split; [exact (proj1 (proj2 H))|].
  destruct H as (_ & _ & _ & _ & _ & H). exact (H (Value _ _ (sample_u32 7 I)) [Value _ _ true] eq_refl).
Defined.

Lemma later_field_is_written_witness :
  let s := (write_fields little (make_serializer (replicate 2 "000"%char) little) [Value _ _ (sample_u32 258 I)]).1 in
  overflowed_ s = true /\ let '(s', ok) := write_field little s (Block ($"ab")) in ok = true /\ data s' = data s ++ $"ab" /\ overflowed_ s' = true.
Proof. intros s. split; [reflexivity|]. apply (later_field_is_written little s (Block ($"ab"))); [vm_compute; lia|reflexivity|vm_compute; lia]. Defined.

Lemma record_round_trip_witness :
  let fs := [Value _ _ (sample_u32 3735928559 I); Block ($"xyz"); Value _ _ true] in
  let s := (write_fields little (make_serializer (replicate 8 "000"%char) big) fs).1 in
  exists d, reads_back big (make_deserializer (data s) big) fs d /\ exhausted d = true.
Proof. apply (record_round_trip little big big). vm_compute. lia. Defined.

Lemma reads_stay_inside_witness :
  let '(d', v) := read (T := bool) little (make_deserializer [] little) in v = None /\ cursor_ d' <= 0.
Proof.
  pose proof (reads_stay_inside (T := bool) little (make_deserializer [] little) ltac:(simpl; lia)) as H.
  destruct H as (_ & ? & _). split; [reflexivity|assumption].
Defined.
