(* ===== verification/Hash.v ===== *)
(** * Hash algorithms (hash.hpp)

    FNV-1a, MurmurHash3 (x86, 32 bits) and SHA-256 as the code computes them: unsigned words are
    numbers below [2^32] or [2^64], every [+], [*] and [<<] wraps.  The second half gives the
    published definitions, by structural recursion over materialised blocks, and proves the
    indexed loops equal to them.  A read [data[i]] past the end would be undefined: it yields
    an arbitrary byte [junk], and the theorems hold for every [junk]. *)

From S2P Require Import Prelude Charconv.

Local Open Scope Z_scope.

(** ** FNV-1a *)

Definition fnv1a (w prime : Z) (hash : Z) (data : text) : Z :=
  foldl (fun hash ch => wrap w (Z.lxor hash (code ch) * prime)) hash data.

Definition fnv1a_64 (data : text) : Z := fnv1a 64 0x100000001b3 0xcbf29ce484222325 data.
Definition fnv1a_32 (data : text) : Z := fnv1a 32 0x01000193 0x811c9dc5 data.

(** ** 32-bit word operations *)

Definition add32 (x y : Z) : Z := u32 (x + y).
Definition mul32 (x y : Z) : Z := u32 (x * y).
Definition shl32 (x n : Z) : Z := u32 (Z.shiftl x n).
Definition not32 (x : Z) : Z := u32 (Z.lnot x).

Section algorithms.
Variable junk : ascii.

(** [data[i]] as an unsigned byte. *)
Definition byte_at (data : text) (i : Z) : Z := code (nth (Z.to_nat i) data junk).

(** ** MurmurHash3 *)

Definition c1 : Z := 0xcc9e2d51.
Definition c2 : Z := 0x1b873593.

Definition mix_k1 (k1 : Z) : Z :=
  let k1 := mul32 k1 c1 in
  let k1 := Z.lor (shl32 k1 15) (Z.shiftr k1 17) in
  mul32 k1 c2.

Definition mix_h1 (h1 k1 : Z) : Z :=
  let h1 := Z.lxor h1 k1 in
  let h1 := Z.lor (shl32 h1 13) (Z.shiftr h1 19) in
  add32 (mul32 h1 5) 0xe6546b64.

Definition murmur_block (data : text) (h1 : Z) (i : nat) : Z :=
  let byte := byte_at data in
  let j := Z.of_nat i * 4 in
  let k1 := Z.lor (Z.lor (Z.lor (byte j) (shl32 (byte (j + 1)) 8)) (shl32 (byte (j + 2)) 16))
              (shl32 (byte (j + 3)) 24) in
  mix_h1 h1 (mix_k1 k1).

(** The [switch] on the length of the tail, with its fallthroughs. *)
Definition murmur_tail (data : text) (h1 tail rest : Z) : Z :=
  let byte := byte_at data in
  let k1 := 0 in
  let k1 := if decide (rest = 3) then Z.lxor k1 (shl32 (byte (tail + 2)) 16) else k1 in
  let k1 := if decide (rest = 3 \/ rest = 2) then Z.lxor k1 (shl32 (byte (tail + 1)) 8) else k1 in
  if decide (rest = 3 \/ rest = 2 \/ rest = 1) then
    Z.lxor h1 (mix_k1 (Z.lxor k1 (byte tail)))
  else h1.

Definition fmix (h1 : Z) : Z :=
  let h1 := Z.lxor h1 (Z.shiftr h1 16) in
  let h1 := mul32 h1 0x85ebca6b in
  let h1 := Z.lxor h1 (Z.shiftr h1 13) in
  let h1 := mul32 h1 0xc2b2ae35 in
  Z.lxor h1 (Z.shiftr h1 16).

Definition murmur3_x86_32 (data : text) (seed : Z) : Z :=
  let len := Z.of_nat (length data) in
  let blocks := len / 4 in
  let h1 := foldl (murmur_block data) seed (seq 0 (Z.to_nat blocks)) in
  let h1 := murmur_tail data h1 (blocks * 4) (Z.land len 3) in
  fmix (Z.lxor h1 (u32 len)).

(** ** SHA-256 *)

Definition sha256_k : list Z := concat
  [[0x428a2f98; 0x71374491; 0xb5c0fbcf; 0xe9b5dba5; 0x3956c25b; 0x59f111f1; 0x923f82a4; 0xab1c5ed5];
   [0xd807aa98; 0x12835b01; 0x243185be; 0x550c7dc3; 0x72be5d74; 0x80deb1fe; 0x9bdc06a7; 0xc19bf174];
   [0xe49b69c1; 0xefbe4786; 0x0fc19dc6; 0x240ca1cc; 0x2de92c6f; 0x4a7484aa; 0x5cb0a9dc; 0x76f988da];
   [0x983e5152; 0xa831c66d; 0xb00327c8; 0xbf597fc7; 0xc6e00bf3; 0xd5a79147; 0x06ca6351; 0x14292967];
   [0x27b70a85; 0x2e1b2138; 0x4d2c6dfc; 0x53380d13; 0x650a7354; 0x766a0abb; 0x81c2c92e; 0x92722c85];
   [0xa2bfe8a1; 0xa81a664b; 0xc24b8b70; 0xc76c51a3; 0xd192e819; 0xd6990624; 0xf40e3585; 0x106aa070];
   [0x19a4c116; 0x1e376c08; 0x2748774c; 0x34b0bcb5; 0x391c0cb3; 0x4ed8aa4a; 0x5b9cca4f; 0x682e6ff3];
   [0x748f82ee; 0x78a5636f; 0x84c87814; 0x8cc70208; 0x90befffa; 0xa4506ceb; 0xbef9a3f7; 0xc67178f2]].

Definition rotr (x n : Z) : Z := Z.lor (Z.shiftr x n) (shl32 x (32 - n)).

Definition initial_h : list Z :=
  [0x6a09e667; 0xbb67ae85; 0x3c6ef372; 0xa54ff53a; 0x510e527f; 0x9b05688c; 0x1f83d9ab; 0x5be0cd19].

(** [while (total % 64u != 56u) ++total;] -- 64 steps always reach the exit. *)
Fixpoint pad_loop (fuel : nat) (total : Z) : Z :=
  match fuel with
  | O => total
  | S fuel => if decide (total mod 64 <> 56) then pad_loop fuel (u64 (total + 1)) else total
  end.

Definition padded_total (len : Z) : Z := u64 (pad_loop 64 (u64 (len + 1)) + 8).

(** The [i]-th byte of the padded message, without materialising it. *)
Definition padded (data : text) (len bitlen total i : Z) : Z :=
  if decide (i < len) then byte_at data i
  else if decide (i = len) then 0x80
  else if decide (u64 (total - 8) <= i) then
    let shift := u64 (u64 (total - 1 - i) * 8) in
    Z.land (Z.shiftr bitlen shift) 0xff
  else 0.

Definition load_word (pad : Z -> Z) (blk t : nat) : Z :=
  let base := Z.of_nat blk * 64 + Z.of_nat t * 4 in
  Z.lor (Z.lor (Z.lor (shl32 (pad base) 24) (shl32 (pad (base + 1)) 16)) (shl32 (pad (base + 2)) 8)) (pad (base + 3)).

Definition expand_word (w : list Z) (t : nat) : Z :=
  let s0 := Z.lxor (Z.lxor (rotr (w !!! (t - 15)%nat) 7) (rotr (w !!! (t - 15)%nat) 18)) (Z.shiftr (w !!! (t - 15)%nat) 3) in
  let s1 := Z.lxor (Z.lxor (rotr (w !!! (t - 2)%nat) 17) (rotr (w !!! (t - 2)%nat) 19)) (Z.shiftr (w !!! (t - 2)%nat) 10) in
  add32 (add32 (add32 (w !!! (t - 16)%nat) s0) (w !!! (t - 7)%nat)) s1.

Definition schedule (pad : Z -> Z) (blk : nat) : list Z :=
  let w := replicate 64 0 in
  let w := foldl (fun w t => <[t := load_word pad blk t]> w) w (seq 0 16) in
  foldl (fun w t => <[t := expand_word w t]> w) w (seq 16 48).

Record registers := Registers { ra : Z; rb : Z; rc : Z; rd : Z; re : Z; rf : Z; rg : Z; rhh : Z }.

Definition round (w : list Z) (r : registers) (t : nat) : registers :=
  let '(Registers a b c d e f g hh) := r in
  let s1 := Z.lxor (Z.lxor (rotr e 6) (rotr e 11)) (rotr e 25) in
  let ch := Z.lxor (Z.land e f) (Z.land (not32 e) g) in
  let temp1 := add32 (add32 (add32 (add32 hh s1) ch) (sha256_k !!! t)) (w !!! t) in
  let s0 := Z.lxor (Z.lxor (rotr a 2) (rotr a 13)) (rotr a 22) in
  let maj := Z.lxor (Z.lxor (Z.land a b) (Z.land a c)) (Z.land b c) in
  let temp2 := add32 s0 maj in
  Registers (add32 temp1 temp2) a b c (add32 d temp1) e f g.

Definition sha256_block (pad : Z -> Z) (h : list Z) (blk : nat) : list Z :=
  let w := schedule pad blk in
  let r := foldl (round w) (Registers (h !!! 0%nat) (h !!! 1%nat) (h !!! 2%nat) (h !!! 3%nat) (h !!! 4%nat)
                              (h !!! 5%nat) (h !!! 6%nat) (h !!! 7%nat)) (seq 0 64) in
  [add32 (h !!! 0%nat) (ra r); add32 (h !!! 1%nat) (rb r); add32 (h !!! 2%nat) (rc r); add32 (h !!! 3%nat) (rd r);
   add32 (h !!! 4%nat) (re r); add32 (h !!! 5%nat) (rf r); add32 (h !!! 6%nat) (rg r); add32 (h !!! 7%nat) (rhh r)].

Definition digest_word (h : list Z) (i : nat) : text :=
  [chr (Z.shiftr (h !!! i) 24); chr (Z.shiftr (h !!! i) 16); chr (Z.shiftr (h !!! i) 8); chr (h !!! i)].

Definition sha256 (data : text) : text :=
  let len := Z.of_nat (length data) in
  let bitlen := u64 (len * 8) in
  let total := padded_total len in
  let nblocks := total / 64 in
  let h := foldl (sha256_block (padded data len bitlen total)) initial_h (seq 0 (Z.to_nat nblocks)) in
  concat (map (digest_word h) (seq 0 8)).

Definition hex_digits : text := $"0123456789abcdef".
Definition hex_digit (v : Z) : ascii := nth (Z.to_nat v) hex_digits junk.

Definition sha256_hex (data : text) : text :=
  concat (map (fun b => [hex_digit (Z.land (Z.shiftr (code b) 4) 0x0f); hex_digit (Z.land (code b) 0x0f)])
            (sha256 data)).

End algorithms.

(** ** The published definitions *)

(** The list cut into [n] pieces of [k]. *)
Fixpoint chunks {A} (k n : nat) (l : list A) : list (list A) :=
  match n with
  | O => []
  | S n => take k l :: chunks k n (drop k l)
  end.

(** MurmurHash3_x86_32, with its own constants, rotations and final mix: whole little-endian words are scrambled and absorbed one by one,
    the last one to three bytes are scrambled as a short little-endian number, and the length is mixed in at the end. *)
Definition rotate_left (n x : Z) : Z := x * 2 ^ n mod 2 ^ 32 + x / 2 ^ (32 - n).
Definition murmur_scramble (k : Z) : Z := rotate_left 15 (k * 0xcc9e2d51 mod 2 ^ 32) * 0x1b873593 mod 2 ^ 32.
Definition murmur_absorb (h k : Z) : Z := (rotate_left 13 (Z.lxor h (murmur_scramble k)) * 5 + 0xe6546b64) mod 2 ^ 32.

Fixpoint murmur_body (h : Z) (data : text) : Z :=
  match data with
  | b0 :: b1 :: b2 :: b3 :: rest => murmur_body (murmur_absorb h (le_value [b0; b1; b2; b3])) rest
  | [] => h
  | tail => Z.lxor h (murmur_scramble (le_value tail))
  end.

Definition xor_shift (n h : Z) : Z := Z.lxor h (h / 2 ^ n).
Definition murmur_avalanche (h : Z) : Z :=
  xor_shift 16 (xor_shift 13 (xor_shift 16 h * 0x85ebca6b mod 2 ^ 32) * 0xc2b2ae35 mod 2 ^ 32).

Definition murmur_reference (data : text) (seed : Z) : Z :=
  murmur_avalanche (Z.lxor (murmur_body seed data) (Z.of_nat (length data) mod 2 ^ 32)).

(** The same traversal with the code's mixing steps. *)
Fixpoint murmur_words (h1 : Z) (data : text) : Z :=
  match data with
  | b0 :: b1 :: b2 :: b3 :: rest => murmur_words (mix_h1 h1 (mix_k1 (le_value [b0; b1; b2; b3]))) rest
  | [] => h1
  | tail => Z.lxor h1 (mix_k1 (le_value tail))
  end.

(** FIPS 180-4. *)
Definition rotate_right (n x : Z) : Z := x / 2 ^ n + x mod 2 ^ n * 2 ^ (32 - n).
Definition big_sigma0 (x : Z) : Z := Z.lxor (Z.lxor (rotate_right 2 x) (rotate_right 13 x)) (rotate_right 22 x).
Definition big_sigma1 (x : Z) : Z := Z.lxor (Z.lxor (rotate_right 6 x) (rotate_right 11 x)) (rotate_right 25 x).
Definition small_sigma0 (x : Z) : Z := Z.lxor (Z.lxor (rotate_right 7 x) (rotate_right 18 x)) (x / 2 ^ 3).
Definition small_sigma1 (x : Z) : Z := Z.lxor (Z.lxor (rotate_right 17 x) (rotate_right 19 x)) (x / 2 ^ 10).
Definition Ch (x y z : Z) : Z := Z.lxor (Z.land x y) (Z.land (2 ^ 32 - 1 - x) z).
Definition Maj (x y z : Z) : Z := Z.lxor (Z.lxor (Z.land x y) (Z.land x z)) (Z.land y z).

Definition be_bytes (n : nat) (v : Z) : text := rev (le_bytes n v).
Definition be_value (bs : text) : Z := le_value (rev bs).

(** Section 5.1.1: a one bit, zeros up to 56 modulo 64 bytes, and the length in bits. *)
Definition pad_message (m : text) : text :=
  m ++ [chr 0x80] ++ replicate (Z.to_nat ((55 - Z.of_nat (length m)) mod 64)) (chr 0)
    ++ be_bytes 8 (8 * Z.of_nat (length m)).

(** Section 6.2.2, step 1: the message schedule, one word after the other. *)
Definition next_word (w : list Z) : Z :=
  let t := length w in
  (small_sigma1 (w !!! (t - 2)%nat) + w !!! (t - 7)%nat + small_sigma0 (w !!! (t - 15)%nat) + w !!! (t - 16)%nat)
    mod 2 ^ 32.

Fixpoint extend (next : list Z -> Z) (n : nat) (w : list Z) : list Z :=
  match n with
  | O => w
  | S n => extend next n (w ++ [next w])
  end.

Definition message_schedule (block : text) : list Z := extend next_word 48 (map be_value (chunks 4 16 block)).

(** Steps 2 to 4. *)
Definition fips_round (r : registers) (kw : Z * Z) : registers :=
  let '(Registers a b c d e f g h) := r in
  let t1 := h + big_sigma1 e + Ch e f g + kw.1 + kw.2 in
  let t2 := big_sigma0 a + Maj a b c in
  Registers ((t1 + t2) mod 2 ^ 32) a b c ((d + t1) mod 2 ^ 32) e f g.

Definition fips_block (h : list Z) (block : text) : list Z :=
  match h with
  | [h0; h1; h2; h3; h4; h5; h6; h7] =>
      let r := foldl fips_round (Registers h0 h1 h2 h3 h4 h5 h6 h7) (zip sha256_k (message_schedule block)) in
      zip_with (fun x y => (x + y) mod 2 ^ 32) h [ra r; rb r; rc r; rd r; re r; rf r; rg r; rhh r]
  | _ => h
  end.

Definition sha256_reference (m : text) : text :=
  let padded := pad_message m in
  concat (map (be_bytes 4) (foldl fips_block initial_h (chunks 64 (length padded / 64)%nat padded))).

(** Values of the code's word type. *)
Definition word (x : Z) : Prop := 0 <= x < 2 ^ 32.

Definition word_registers (r : registers) : Prop :=
  Forall word [ra r; rb r; rc r; rd r; re r; rf r; rg r; rhh r].

(** ** Test vectors *)

Example fnv_vectors :
  fnv1a_64 ($"foobar") = 0x85944171f73967e8 /\ fnv1a_32 ($"a") = 0xe40c292c /\ fnv1a_64 [] = 0xcbf29ce484222325.
Proof. vm_compute. done. Qed.

Example murmur_vectors :
  murmur3_x86_32 "x" [] 1 = 0x514e28b7 /\ murmur3_x86_32 "x" ($"abc") 0 = 0xb3dd93fa /\
  murmur3_x86_32 "x" ($"hello") 0 = 0x248bfa47.
Proof. vm_compute. done. Qed.

Example sha256_vectors :
  sha256_hex "x" [] = $"e3b0c44298fc1c149afbf4c8996fb92427ae41e4649b934ca495991b7852b855" /\
  sha256_hex "x" ($"abc") = $"ba7816bf8f01cfea414140de5dae2223b00361a396177a9cb410ff61f20015ad" /\
  sha256_hex "x" ($"abcdbcdecdefdefgefghfghighijhijkijkljklmklmnlmnomnopnopq") =
    $"248d6a61d20638b8e5c026930c3e6039a33ce45964ff2167f6ecedd419db06c1".
Proof. vm_compute. done. Qed.

(** ** Word lemmas *)

Lemma word_wrap z : word (u32 z).
Proof. apply wrap_bound. lia. Qed.

Lemma word_mod z : word (z mod 2 ^ 32).
Proof. apply word_wrap. Qed.

Lemma word_add32 x y : word (add32 x y).
Proof. apply word_wrap. Qed.

#[local] Hint Resolve word_wrap word_mod word_add32 : egl.

(** [^] of parts that do not overlap adds them. *)
Lemma lxor_add x b n : 0 <= n -> x mod 2 ^ n = 0 -> 0 <= b < 2 ^ n -> Z.lxor x b = x + b.
Proof.
  intros Hn Hx Hb. rewrite <- (lor_add x b n) by done. apply Z.lxor_lor.
  apply Z.bits_inj'. intros i Hi. rewrite Z.land_spec, Z.bits_0.
  pose proof (Z.div_mod x (2 ^ n) ltac:(lia)) as E. rewrite Hx, Z.add_0_r, Z.mul_comm in E.
  rewrite E, <- Z.shiftl_mul_pow2 by done. rewrite Z.shiftl_spec by done.
  destruct (decide (i < n)).
  - by rewrite Z.testbit_neg_r by lia.
  - rewrite <- (Z.mod_small b (2 ^ n)) by done. rewrite Z.mod_pow2_bits_high by lia. apply andb_false_r.
Qed.

Lemma shl32_byte c n k : n = 8 * k -> 0 <= k < 4 -> shl32 (code c) n = code c * 256 ^ k.
Proof.
  intros -> Hk. unfold shl32. rewrite Z.shiftl_mul_pow2, Z.pow_mul_r by lia. change (2 ^ 8) with 256.
  apply wrap_small. pose proof (code_bound c). change (2 ^ 32) with (256 ^ 3 * 256).
  assert (256 ^ k <= 256 ^ 3) by (apply Z.pow_le_mono_r; lia).
  assert (0 < 256 ^ k) by (apply Z.pow_pos_nonneg; lia). nia.
Qed.

Lemma be_word b0 b1 b2 b3 :
  Z.lor (Z.lor (Z.lor (shl32 (code b0) 24) (shl32 (code b1) 16)) (shl32 (code b2) 8)) (code b3) =
  be_value [b0; b1; b2; b3].
Proof.
  pose proof (code_bound b0). pose proof (code_bound b1). pose proof (code_bound b2). pose proof (code_bound b3).
  rewrite (shl32_byte b0 24 3), (shl32_byte b1 16 2), (shl32_byte b2 8 1) by lia.
  change (256 ^ 3) with 16777216. change (256 ^ 2) with 65536. change (256 ^ 1) with 256.
  rewrite (lor_add _ (code b1 * 65536) 24), (lor_add _ (code b2 * 256) 16), (lor_add _ (code b3) 8);
    unfold be_value; simpl; rewrite ?Z.pow_pos_fold; try lia; Z.div_mod_to_equations; lia.
Qed.

Lemma le_word b0 b1 b2 b3 :
  Z.lor (Z.lor (Z.lor (code b0) (shl32 (code b1) 8)) (shl32 (code b2) 16)) (shl32 (code b3) 24) =
  le_value [b0; b1; b2; b3].
Proof.
  rewrite <- (rev_involutive [b0; b1; b2; b3]). fold (be_value (rev [b0; b1; b2; b3])). simpl rev.
  rewrite <- be_word.
  rewrite (Z.lor_comm (code b0)), (Z.lor_comm _ (shl32 (code b2) 16)), (Z.lor_comm _ (shl32 (code b3) 24)).
  by rewrite !Z.lor_assoc.
Qed.

Lemma rotr_rotate x n : word x -> 0 < n < 32 -> rotr x n = rotate_right n x.
Proof.
  intros Hx Hn. unfold rotr, rotate_right, shl32, wrap.
  rewrite Z.shiftl_mul_pow2, Z.shiftr_div_pow2 by lia.
  assert (2 ^ 32 = 2 ^ n * 2 ^ (32 - n)) as E by (rewrite <- Z.pow_add_r by lia; f_equal; lia).
  rewrite E, Z.mul_mod_distr_r by lia. rewrite Z.lor_comm.
  rewrite (lor_add _ _ (32 - n)); [lia|lia|apply Z.mod_mul; lia|].
  split; [apply Z.div_pos; unfold word in Hx; lia|].
  apply Z.div_lt_upper_bound; [lia|]. unfold word in Hx. lia.
Qed.

Lemma not32_complement x : word x -> not32 x = 2 ^ 32 - 1 - x.
Proof.
  intros Hx. unfold not32, wrap, word in *. rewrite <- (Z.mod_add _ 1) by lia.
  rewrite Z.mod_small; pose proof (Z.add_lnot_diag x); lia.
Qed.

Lemma shiftr_div x n : 0 <= n -> Z.shiftr x n = x / 2 ^ n.
Proof. apply Z.shiftr_div_pow2. Qed.

Lemma be_value_word bs : length bs = 4%nat -> word (be_value bs).
Proof.
  intros H. unfold be_value, word. pose proof (le_value_bound (rev bs)) as B.
  rewrite length_rev, H in B. done.
Qed.

(** ** Loop lemmas *)

(** A counted loop that looks its data up is a fold over the data. *)
Lemma foldl_indexed {R X} (I : R -> Prop) (f : R -> X -> R) (g : R -> nat -> R) (l : list X) n r :
  I r -> (forall r t x, I r -> l !! t = Some x -> g r (n + t)%nat = f r x /\ I (f r x)) ->
  foldl g r (seq n (length l)) = foldl f r l /\ I (foldl f r l).
Proof.
  revert n r. induction l as [|x l IH]; intros n r Hr H; simpl; [done|].
  destruct (H r 0%nat x Hr eq_refl) as [E Hx]. rewrite Nat.add_0_r in E. rewrite E.
  apply IH; [done|]. intros r' t y Hr' Hy. rewrite Nat.add_succ_comm. by apply H.
Qed.

Lemma length_chunks {A} k n (l : list A) : length (chunks k n l) = n.
Proof. revert l. induction n; intros; simpl; [done|]. f_equal. by auto. Qed.

Lemma chunks_lookup {A} k n (l : list A) i c :
  chunks k n l !! i = Some c -> (i < n)%nat /\ c = take k (drop (k * i) l).
Proof.
  revert l i. induction n as [|n IH]; intros l [|i] H; simpl in *; simplify_eq.
  - split; [lia|]. by rewrite Nat.mul_0_r.
  - apply IH in H as [? ->]. split; [lia|]. rewrite drop_drop. do 2 f_equal. lia.
Qed.

Lemma chunks_map {A} k n (l : list A) : chunks k n l = map (fun t => take k (drop (k * t) l)) (seq 0 n).
Proof.
  enough (forall o, chunks k n (drop (k * o) l) = map (fun t => take k (drop (k * t) l)) (seq o n)) as H.
  { specialize (H 0%nat). by rewrite Nat.mul_0_r in H. }
  induction n as [|n IH]; intros o; simpl; [done|].
  f_equal. rewrite drop_drop. replace (k * o + k)%nat with (k * S o)%nat by lia. apply IH.
Qed.

Lemma take4 (l : text) k b0 b1 b2 b3 :
  l !! k = Some b0 -> l !! (k + 1)%nat = Some b1 -> l !! (k + 2)%nat = Some b2 -> l !! (k + 3)%nat = Some b3 ->
  take 4 (drop k l) = [b0; b1; b2; b3].
Proof.
  intros H0 H1 H2 H3. rewrite (drop_S _ _ _ H0).
  replace (k + 1)%nat with (S k) in H1 by lia. rewrite (drop_S _ _ _ H1).
  replace (k + 2)%nat with (S (S k)) in H2 by lia. rewrite (drop_S _ _ _ H2).
  replace (k + 3)%nat with (S (S (S k))) in H3 by lia. by rewrite (drop_S _ _ _ H3).
Qed.

Lemma length_extend next n w : length (extend next n w) = (length w + n)%nat.
Proof. revert w. induction n; intros; simpl; [lia|]. rewrite IHn, length_app. simpl. lia. Qed.

Lemma extend_map (f : nat -> Z) n acc :
  extend (fun w => f (length w)) n acc = acc ++ map f (seq (length acc) n).
Proof.
  revert acc. induction n as [|n IH]; intros acc; simpl; [by rewrite app_nil_r|].
  rewrite IH, length_app, <- app_assoc. simpl. by rewrite Nat.add_1_r.
Qed.

Lemma foldl_fill (P : Z -> Prop) next g n k w :
  (forall w t, (n <= t < n + k)%nat -> (t < length w)%nat -> Forall P w -> g w t = next (take t w) /\ P (g w t)) ->
  (n + k <= length w)%nat -> Forall P w ->
  let w' := foldl (fun w t => <[t := g w t]> w) w (seq n k) in
  length w' = length w /\ take (n + k) w' = extend next k (take n w) /\ Forall P w'.
Proof.
  revert n w. induction k as [|k IH]; intros n w Hg Hk HP; simpl.
  - by rewrite Nat.add_0_r.
  - destruct (Hg w n ltac:(lia) ltac:(lia) HP) as [E Hp].
    destruct (IH (S n) (<[n := g w n]> w)) as (Hl & Ht & HP').
    + intros w0 t Ht. apply Hg. lia.
    + rewrite length_insert. lia.
    + by apply Forall_insert.
    + rewrite length_insert in Hl. split_and!; [done| |done].
      rewrite Nat.add_succ_r. simpl in Ht. rewrite Ht. f_equal.
      rewrite (take_S_r _ _ (g w n)) by (apply list_lookup_insert_eq; lia).
      by rewrite take_insert_ge, E by lia.
Qed.

(** ** FNV-1a and MurmurHash3 *)

Lemma odd_multiple_injective w p x y :
  0 < w -> Z.gcd p (2 ^ w) = 1 -> 0 <= x < 2 ^ w -> 0 <= y < 2 ^ w ->
  wrap w (x * p) = wrap w (y * p) -> x = y.
Proof.
  intros Hw Hp Hx Hy E. unfold wrap in E.
  assert (2 ^ w | x - y) as [q Hq].
  { apply (Z.gauss _ p); [|by rewrite Z.gcd_comm].
    apply Z.mod_divide; [lia|]. replace (p * (x - y)) with (x * p - y * p) by lia.
    by rewrite Zminus_mod, E, Z.sub_diag, Zmod_0_l. }
  assert (q = 0) by nia. lia.
Qed.

Lemma lxor_bound w x y : 0 <= w -> 0 <= x < 2 ^ w -> 0 <= y < 2 ^ w -> 0 <= Z.lxor x y < 2 ^ w.
Proof.
  intros Hw Hx Hy. assert (0 <= Z.lxor x y) by (apply Z.lxor_nonneg; lia). split; [done|].
  rewrite <- (Z.mod_small x (2 ^ w)), <- (Z.mod_small y (2 ^ w)) by done.
  rewrite <- !Z.land_ones by done.
  assert (Z.lxor (Z.land x (Z.ones w)) (Z.land y (Z.ones w)) = Z.land (Z.lxor x y) (Z.ones w)) as ->.
  { apply Z.bits_inj'. intros i Hi. rewrite !Z.lxor_spec, !Z.land_spec, Z.lxor_spec.
    destruct (Z.testbit x i), (Z.testbit y i), (Z.testbit (Z.ones w) i); done. }
  rewrite Z.land_ones by done. apply Z.mod_pos_bound. lia.
Qed.

Lemma lxor_cancel_r x y z : Z.lxor x z = Z.lxor y z -> x = y.
Proof.
  intros E. assert (Z.lxor (Z.lxor x z) z = Z.lxor (Z.lxor y z) z) as E' by by rewrite E.
  by rewrite !Z.lxor_assoc, Z.lxor_nilpotent, !Z.lxor_0_r in E'.
Qed.

Section fnv.
Context (w prime : Z) (Hw : 8 <= w) (Hprime : Z.gcd prime (2 ^ w) = 1).

Lemma byte_fits c : 0 <= code c < 2 ^ w.
Proof.
  pose proof (code_bound c). assert (2 ^ 8 <= 2 ^ w) by (apply Z.pow_le_mono_r; lia).
  change (2 ^ 8) with 256 in *. lia.
Qed.

Lemma fnv1a_bound h data : 0 <= h < 2 ^ w -> 0 <= fnv1a w prime h data < 2 ^ w.
Proof.
  revert h. induction data as [|c data IH]; intros h Hh; simpl; [done|].
  apply IH, wrap_bound. lia.
Qed.

(** From different states the same bytes lead to different states. *)
Lemma fnv1a_injective g h data :
  0 <= g < 2 ^ w -> 0 <= h < 2 ^ w -> fnv1a w prime g data = fnv1a w prime h data -> g = h.
Proof.
  revert g h. induction data as [|c data IH]; intros g h Hg Hh E; [done|]. simpl in E.
  apply IH in E; [|apply wrap_bound; lia..].
  apply odd_multiple_injective in E; try done; try lia.
  - by apply lxor_cancel_r in E.
  - apply lxor_bound; [lia|done|apply byte_fits].
  - apply lxor_bound; [lia|done|apply byte_fits].
Qed.

Lemma fnv1a_substitution h a x y b :
  0 <= h < 2 ^ w -> fnv1a w prime h (a ++ x :: b) = fnv1a w prime h (a ++ y :: b) -> x = y.
Proof.
  intros Hh E. unfold fnv1a in E. rewrite !foldl_app in E. simpl in E.
  pose proof (fnv1a_bound h a Hh) as Ha. pose proof (byte_fits x). pose proof (byte_fits y).
  apply fnv1a_injective in E; [|apply wrap_bound; lia..].
  apply odd_multiple_injective in E; try done; try lia; [|apply lxor_bound; try done; lia..].
  rewrite !(Z.lxor_comm (foldl _ h a)) in E. apply lxor_cancel_r in E. by apply code_inj.
Qed.
End fnv.

Section proofs.
Variable junk : ascii.

Lemma byte_at_lookup data i c : data !! i = Some c -> byte_at junk data (Z.of_nat i) = code c.
Proof. intros H. unfold byte_at. rewrite Nat2Z.id. f_equal. by apply nth_lookup_Some. Qed.

Lemma lookup_byte (l : text) i : (i < length l)%nat -> exists c, l !! i = Some c.
Proof. apply lookup_lt_is_Some_2. Qed.

Lemma murmur_block_chunk data h i :
  (4 * i + 4 <= length data)%nat ->
  murmur_block junk data h i = mix_h1 h (mix_k1 (le_value (take 4 (drop (4 * i) data)))).
Proof.
  intros Hi.
  destruct (lookup_byte data (4 * i) ltac:(lia)) as [b0 H0]. destruct (lookup_byte data (4 * i + 1) ltac:(lia)) as [b1 H1].
  destruct (lookup_byte data (4 * i + 2) ltac:(lia)) as [b2 H2]. destruct (lookup_byte data (4 * i + 3) ltac:(lia)) as [b3 H3].
  rewrite (take4 _ _ b0 b1 b2 b3) by done. rewrite <- le_word. unfold murmur_block.
  replace (Z.of_nat i * 4) with (Z.of_nat (4 * i)) by lia.
  replace (Z.of_nat (4 * i) + 1) with (Z.of_nat (4 * i + 1)) by lia.
  replace (Z.of_nat (4 * i) + 2) with (Z.of_nat (4 * i + 2)) by lia.
  replace (Z.of_nat (4 * i) + 3) with (Z.of_nat (4 * i + 3)) by lia.
  by rewrite (byte_at_lookup _ _ _ H0), (byte_at_lookup _ _ _ H1), (byte_at_lookup _ _ _ H2), (byte_at_lookup _ _ _ H3).
Qed.

Lemma murmur_words_chunks n h data :
  (4 * n <= length data)%nat ->
  murmur_words h data =
    murmur_words (foldl (fun h b => mix_h1 h (mix_k1 (le_value b))) h (chunks 4 n data)) (drop (4 * n) data).
Proof.
  revert h data. induction n as [|n IH]; intros h data Hn; [done|].
  destruct data as [|b0 [|b1 [|b2 [|b3 data]]]]; simpl in Hn; try lia.
  cbn [murmur_words chunks take drop foldl]. rewrite IH by lia.
  replace (4 * S n)%nat with (S (S (S (S (4 * n))))) by lia. done.
Qed.

Lemma tail_word1 b0 : Z.lxor 0 (code b0) = le_value [b0].
Proof. simpl. rewrite Z.lxor_0_l. lia. Qed.

Lemma tail_word2 b0 b1 : Z.lxor (Z.lxor 0 (shl32 (code b1) 8)) (code b0) = le_value [b0; b1].
Proof.
  rewrite Z.lxor_0_l, (shl32_byte b1 8 1) by lia. change (256 ^ 1) with 256. pose proof (code_bound b0).
  rewrite (lxor_add _ _ 8); simpl; rewrite ?Z.pow_pos_fold; try lia; Z.div_mod_to_equations; lia.
Qed.

Lemma tail_word3 b0 b1 b2 :
  Z.lxor (Z.lxor (Z.lxor 0 (shl32 (code b2) 16)) (shl32 (code b1) 8)) (code b0) = le_value [b0; b1; b2].
Proof.
  rewrite Z.lxor_0_l, (shl32_byte b1 8 1), (shl32_byte b2 16 2) by lia.
  change (256 ^ 1) with 256. change (256 ^ 2) with 65536. pose proof (code_bound b0). pose proof (code_bound b1).
  rewrite (lxor_add _ (code b1 * 256) 16), (lxor_add _ (code b0) 8);
    simpl; rewrite ?Z.pow_pos_fold; try lia; Z.div_mod_to_equations; lia.
Qed.

Lemma murmur_tail_words data h t :
  let n := (length data / 4)%nat in
  t = Z.of_nat n * 4 ->
  murmur_tail junk data h t (Z.land (Z.of_nat (length data)) 3) = murmur_words h (drop (4 * n) data).
Proof.
  intros n ->. change 3 with (Z.ones 2) at 1. rewrite Z.land_ones by lia. change (2 ^ 2) with 4.
  pose proof (Nat.div_mod_eq (length data) 4) as E. pose proof (Nat.mod_upper_bound (length data) 4 ltac:(lia)) as B.
  change (Z.of_nat (length data) mod 4) with (Z.of_nat (length data) mod Z.of_nat 4). rewrite <- Nat2Z.inj_mod. fold n in E.
  assert (forall i c, drop (4 * n) data !! i = Some c -> byte_at junk data (Z.of_nat n * 4 + Z.of_nat i) = code c) as R.
  { intros i c H. rewrite lookup_drop in H. apply byte_at_lookup in H. rewrite <- H. f_equal. lia. }
  assert (length (drop (4 * n) data) = length data mod 4)%nat as L by (rewrite length_drop; lia).
  rewrite <- L in B |- *. clear E L. unfold murmur_tail.
  destruct (drop (4 * n) data) as [|b0 [|b1 [|b2 [|b3 rest]]]]; simpl length in *; repeat case_decide; try done; try lia.
  all: pose proof (R 0%nat b0 eq_refl) as R0; simpl in R0; rewrite Z.add_0_r in R0; rewrite R0.
  - cbn [murmur_words]. by rewrite tail_word1.
  - rewrite (R 1%nat b1 eq_refl : byte_at junk data (Z.of_nat n * 4 + 1) = _). cbn [murmur_words]. by rewrite tail_word2.
  - rewrite (R 1%nat b1 eq_refl : byte_at junk data (Z.of_nat n * 4 + 1) = _).
    rewrite (R 2%nat b2 eq_refl : byte_at junk data (Z.of_nat n * 4 + 2) = _). cbn [murmur_words]. by rewrite tail_word3.
Qed.

(** The indexed loop and the switch are the traversal. *)
Lemma murmur_traversal data seed :
  murmur3_x86_32 junk data seed = fmix (Z.lxor (murmur_words seed data) (u32 (Z.of_nat (length data)))).
Proof.
  unfold murmur3_x86_32. do 2 f_equal.
  set (n := (length data / 4)%nat).
  assert (Z.of_nat (length data) / 4 = Z.of_nat n) as En by (unfold n; by rewrite Nat2Z.inj_div).
  rewrite En, Nat2Z.id. pose proof (Nat.div_mod_eq (length data) 4) as E. fold n in E.
  rewrite (murmur_words_chunks n) by lia. rewrite murmur_tail_words by done. fold n. f_equal.
  rewrite <- (length_chunks 4 n data) at 1.
  apply (foldl_indexed (fun _ => True)); [done|]. intros r t x _ Hx. split; [|done].
  apply chunks_lookup in Hx as [? ->]. apply murmur_block_chunk. lia.
Qed.

(** The code's mixing steps are the published ones. *)
Lemma rotl_rotate x n m : word x -> 0 < n < 32 -> m = 32 - n -> Z.lor (shl32 x n) (Z.shiftr x m) = rotate_left n x.
Proof.
  intros Hx Hn ->. unfold rotate_left, shl32, wrap, word in *. rewrite Z.shiftl_mul_pow2, Z.shiftr_div_pow2 by lia.
  assert (2 ^ 32 = 2 ^ (32 - n) * 2 ^ n) as E by (rewrite <- Z.pow_add_r by lia; f_equal; lia).
  apply (lor_add _ _ n); [lia|rewrite E, Z.mul_mod_distr_r by lia; apply Z.mod_mul; lia|].
  split; [apply Z.div_pos; lia|]. apply Z.div_lt_upper_bound; lia.
Qed.

Lemma mix_k1_scramble k : mix_k1 k = murmur_scramble k.
Proof. unfold mix_k1, murmur_scramble, mul32. by rewrite (rotl_rotate _ 15 17) by (lia || apply word_wrap). Qed.

Lemma mix_h1_absorb h k : word h -> mix_h1 h (mix_k1 k) = murmur_absorb h k.
Proof.
  intros Hh. unfold mix_h1, murmur_absorb, mul32, add32. rewrite mix_k1_scramble.
  rewrite (rotl_rotate _ 13 19); [apply wrap_add_l|apply (lxor_bound 32); [lia|done|apply word_mod]|lia|lia].
Qed.

Lemma fmix_avalanche h : fmix h = murmur_avalanche h.
Proof. unfold fmix, murmur_avalanche, xor_shift, mul32, wrap. by rewrite !Z.shiftr_div_pow2 by lia. Qed.

Lemma murmur_words_body h data : word h -> murmur_words h data = murmur_body h data.
Proof.
  revert h. induction data as [data IH] using (induction_ltof1 _ length). unfold ltof in IH. intros h Hh.
  destruct data as [|b0 [|b1 [|b2 [|b3 data]]]]; cbn [murmur_words murmur_body]; [done|by rewrite mix_k1_scramble..|].
  rewrite mix_h1_absorb by done. apply IH; [simpl; lia|apply word_mod].
Qed.

Lemma murmur_reference_eq data seed : word seed -> murmur3_x86_32 junk data seed = murmur_reference data seed.
Proof. intros Hs. unfold murmur_reference. by rewrite murmur_traversal, fmix_avalanche, murmur_words_body. Qed.

(** ** Padding *)

Lemma u64_mod64 z : u64 z mod 64 = z mod 64.
Proof. unfold wrap. Z.div_mod_to_equations. lia. Qed.

(** How many steps the padding loop takes. *)
Lemma pad_loop_spec fuel total :
  0 <= total < 2 ^ 64 -> (56 - total) mod 64 < Z.of_nat fuel ->
  pad_loop fuel total = u64 (total + (56 - total) mod 64).
Proof.
  revert total. induction fuel as [|fuel IH]; intros total Ht Hf; simpl.
  - pose proof (Z.mod_pos_bound (56 - total) 64). lia.
  - destruct (decide (total mod 64 <> 56)) as [N|E].
    + assert ((56 - u64 (total + 1)) mod 64 = (56 - total) mod 64 - 1) as E.
      { rewrite Zminus_mod, u64_mod64, <- Zminus_mod. Z.div_mod_to_equations. lia. }
      rewrite IH; [|apply wrap_bound; lia|lia]. rewrite E, wrap_add_l. f_equal. lia.
    + assert ((56 - total) mod 64 = 0) as -> by (Z.div_mod_to_equations; lia).
      rewrite Z.add_0_r. symmetry. by apply wrap_small.
Qed.

Lemma padded_total_spec data :
  Z.of_nat (length data) < 2 ^ 61 ->
  padded_total (Z.of_nat (length data)) = Z.of_nat (length (pad_message data)) /\
  Z.of_nat (length (pad_message data)) = 64 * (Z.of_nat (length data + 8) / 64 + 1).
Proof.
  intros Hl. unfold padded_total, pad_message, be_bytes.
  rewrite !length_app, length_rev, length_le_bytes, length_replicate. simpl (length [_]).
  rewrite (wrap_small 64 (_ + 1)) by lia.
  pose proof (Z.mod_pos_bound (55 - Z.of_nat (length data)) 64 ltac:(lia)).
  rewrite pad_loop_spec; [|lia|pose proof (Z.mod_pos_bound (56 - (Z.of_nat (length data) + 1)) 64); lia].
  replace (56 - (Z.of_nat (length data) + 1)) with (55 - Z.of_nat (length data)) by lia.
  rewrite wrap_add_l, wrap_small by lia. split; [lia|]. Z.div_mod_to_equations. lia.
Qed.

(** The closure that stands for the padded message agrees with it at every index. *)
Lemma padded_lookup data i c :
  Z.of_nat (length data) < 2 ^ 61 -> pad_message data !! i = Some c ->
  let len := Z.of_nat (length data) in
  padded junk data len (u64 (len * 8)) (padded_total len) (Z.of_nat i) = code c.
Proof.
  intros Hl Hc len. unfold padded. destruct (padded_total_spec data Hl) as [E Hlen].
  fold len in E, Hl. rewrite E. clear E.
  rewrite (wrap_small 64 (len * 8)) by lia.
  assert (i < length (pad_message data))%nat as Hi by (by apply lookup_lt_Some in Hc).
  assert (0 <= Z.of_nat (length (pad_message data)) - 8 < 2 ^ 64) as Hw.
  { rewrite Hlen. Z.div_mod_to_equations. lia. }
  rewrite (wrap_small 64 (_ - 8)) by done.
  assert (length (pad_message data) = length data + 1 + Z.to_nat ((55 - len) mod 64) + 8)%nat as Hsum.
  { unfold pad_message, be_bytes. rewrite !length_app, length_rev, length_le_bytes, length_replicate. fold len. simpl. lia. }
  unfold pad_message in Hc. fold len in Hc. apply lookup_app_Some in Hc as [Hc|[Hge Hc]].
  { apply lookup_lt_Some in Hc as ?. case_decide; [|lia]. by apply byte_at_lookup. }
  case_decide; [lia|]. apply lookup_app_Some in Hc as [Hc|[Hge' Hc]].
  { apply list_lookup_singleton_Some in Hc as [? <-]. case_decide; [done|lia]. }
  simpl in Hge', Hc. case_decide; [lia|]. apply lookup_app_Some in Hc as [Hc|[Hge'' Hc]].
  { apply lookup_replicate in Hc as [-> ?]. case_decide; [lia|done]. }
  rewrite length_replicate in Hge'', Hc. case_decide; [|lia].
  set (j := (i - length data - 1 - Z.to_nat ((55 - len) mod 64))%nat) in *.
  unfold be_bytes in Hc. rewrite rev_alt in Hc. apply reverse_lookup_Some in Hc as [Hc Hj].
  rewrite length_le_bytes in Hc, Hj. rewrite le_bytes_lookup in Hc by lia. simplify_eq.
  rewrite code_chr. change 255 with (Z.ones 8). rewrite Z.land_ones by lia. unfold wrap. f_equal.
  rewrite Hlen in *. rewrite !(Z.mod_small _ (2 ^ 64)) by (Z.div_mod_to_equations; lia).
  rewrite Z.shiftr_div_pow2 by lia. rewrite (Z.mul_comm len). f_equal.
  change 256 with (2 ^ 8). rewrite <- Z.pow_mul_r by lia. f_equal. lia.
Qed.

(** ** One block *)

Lemma add32_l x y : add32 (u32 x) y = u32 (x + y).
Proof. apply wrap_add_l. Qed.

Lemma add32_r x y : add32 x (u32 y) = u32 (x + y).
Proof. apply wrap_add_r. Qed.

(** Sums of words, taken in the order of the code. *)
Lemma add32_sum4 a b c d : add32 (add32 (add32 a b) c) d = u32 (a + b + c + d).
Proof. change (add32 a b) with (u32 (a + b)). by rewrite !add32_l. Qed.

Lemma add32_sum5 a b c d e : add32 (add32 (add32 (add32 a b) c) d) e = u32 (a + b + c + d + e).
Proof. by rewrite (add32_sum4 a b c d), add32_l. Qed.

Section block.
Context (pad : Z -> Z) (msg : text) (blk : nat).
Context (Hpad : forall i c, msg !! i = Some c -> pad (Z.of_nat i) = code c).
Context (Hblk : (64 * blk + 64 <= length msg)%nat).

Lemma load_word_spec t :
  (t < 16)%nat -> load_word pad blk t = be_value (take 4 (drop (4 * t) (take 64 (drop (64 * blk) msg)))).
Proof.
  intros Ht. remember (64 * blk + 4 * t)%nat as k eqn:Ek.
  destruct (lookup_byte msg k ltac:(lia)) as [b0 H0]. destruct (lookup_byte msg (k + 1) ltac:(lia)) as [b1 H1].
  destruct (lookup_byte msg (k + 2) ltac:(lia)) as [b2 H2]. destruct (lookup_byte msg (k + 3) ltac:(lia)) as [b3 H3].
  rewrite (take4 _ _ b0 b1 b2 b3); try (rewrite lookup_take_lt, lookup_drop by lia; rewrite <- ?H0, <- ?H1, <- ?H2, <- ?H3; f_equal; lia).
  rewrite <- be_word. unfold load_word. replace (Z.of_nat blk * 64 + Z.of_nat t * 4) with (Z.of_nat k) by lia.
  replace (Z.of_nat k + 1) with (Z.of_nat (k + 1)) by lia. replace (Z.of_nat k + 2) with (Z.of_nat (k + 2)) by lia.
  replace (Z.of_nat k + 3) with (Z.of_nat (k + 3)) by lia.
  by rewrite (Hpad _ _ H0), (Hpad _ _ H1), (Hpad _ _ H2), (Hpad _ _ H3).
Qed.

Lemma load_word_word t : (t < 16)%nat -> word (load_word pad blk t).
Proof.
  intros Ht. rewrite load_word_spec by done. apply be_value_word.
  rewrite length_take, length_drop, length_take, length_drop. lia.
Qed.

Lemma lookup_total_word w i : Forall word w -> word (w !!! i).
Proof.
  intros H. rewrite list_lookup_total_alt. destruct (w !! i) as [x|] eqn:E; simpl.
  - by eapply Forall_lookup_1.
  - unfold word. simpl. lia.
Qed.

Lemma expand_word_next w t :
  (16 <= t < length w)%nat -> Forall word w ->
  expand_word w t = next_word (take t w) /\ word (expand_word w t).
Proof.
  intros Ht Hw. split; [|apply word_wrap]. unfold expand_word, next_word.
  rewrite length_take_le by lia. rewrite !lookup_total_take_lt by lia.
  unfold small_sigma0, small_sigma1. rewrite add32_sum4.
  rewrite !rotr_rotate, !shiftr_div by (try apply lookup_total_word; done || lia).
  unfold wrap. f_equal. lia.
Qed.

Lemma schedule_spec :
  schedule pad blk = message_schedule (take 64 (drop (64 * blk) msg)) /\
  length (schedule pad blk) = 64%nat /\ Forall word (schedule pad blk).
Proof.
  unfold schedule. set (w0 := replicate 64 0).
  destruct (foldl_fill word (fun w => load_word pad blk (length w)) (fun _ t => load_word pad blk t)
              0 16 w0) as (Hl & Ht & Hw).
  { intros w t Ht Hw _. rewrite length_take_le by lia. split; [done|]. apply load_word_word. lia. }
  { simpl. lia. }
  { apply Forall_replicate. unfold word. lia. }
  set (w1 := foldl _ w0 _) in *. change (length w0) with 64%nat in Hl.
  rewrite extend_map in Ht.
  change (take 16 w1 = map (load_word pad blk) (seq 0 16)) in Ht.
  destruct (foldl_fill word next_word expand_word 16 48 w1) as (Hl2 & Ht2 & Hw2).
  { intros w t Hb Hlt Hall. apply expand_word_next; [lia|done]. }
  { lia. }
  { done. }
  split_and!; [|by rewrite Hl2|done].
  rewrite <- (firstn_all2 (n := 16 + 48) (foldl _ w1 _)) by (rewrite Hl2; lia).
  rewrite Ht2. unfold message_schedule. f_equal. rewrite Ht.
  rewrite chunks_map, map_map. apply map_ext_in. intros t Hin. apply in_seq in Hin.
  apply load_word_spec. lia.
Qed.

Lemma round_fips w r t k x :
  word_registers r -> sha256_k !! t = Some k -> w !! t = Some x ->
  round w r t = fips_round r (k, x) /\ word_registers (fips_round r (k, x)).
Proof.
  destruct r as [a b c d e f g hh]. intros Hr Hk Hx. unfold word_registers in *. simpl in Hr.
  rewrite !Forall_cons in Hr. destruct Hr as (Ha & Hb & Hc & Hd & He & Hf & Hg & Hhh & _).
  split; [|simpl; repeat (constructor; [by auto with egl|]); constructor].
  unfold round, fips_round. cbv zeta. cbn [fst snd].
  rewrite (list_lookup_total_correct _ _ _ Hk), (list_lookup_total_correct _ _ _ Hx).
  unfold big_sigma0, big_sigma1, Ch, Maj.
  rewrite !rotr_rotate by (done || lia). rewrite not32_complement by done.
  rewrite (add32_sum5 hh). unfold add32 at 2. rewrite add32_l, !add32_r.
  f_equal; unfold wrap; rewrite ?Zplus_mod_idemp_r; f_equal; lia.
Qed.

Lemma sha256_block_fips h :
  length h = 8%nat -> Forall word h ->
  sha256_block pad h blk = fips_block h (take 64 (drop (64 * blk) msg)) /\
  length (sha256_block pad h blk) = 8%nat /\ Forall word (sha256_block pad h blk).
Proof.
  intros Hlen Hw. split_and!; [|done|unfold sha256_block; repeat (constructor; [by auto with egl|]); constructor].
  destruct h as [|h0 [|h1 [|h2 [|h3 [|h4 [|h5 [|h6 [|h7 [|]]]]]]]]]; try done. clear Hlen.
  unfold sha256_block, fips_block. destruct schedule_spec as (<- & Hl & Hs).
  destruct (foldl_indexed word_registers fips_round (round (schedule pad blk)) (zip sha256_k (schedule pad blk)) 0
    (Registers h0 h1 h2 h3 h4 h5 h6 h7)) as [E _].
  - done.
  - intros r t [k x] Hr Hz. apply lookup_zip_with_Some in Hz as (k' & x' & E & Hk & Hx). simplify_eq.
    by apply round_fips.
  - rewrite length_zip_with, Hl in E. change (length sha256_k `min` 64)%nat with 64%nat in E.
    change (Registers ([h0; h1; h2; h3; h4; h5; h6; h7] !!! 0%nat) _ _ _ _ _ _ _) with (Registers h0 h1 h2 h3 h4 h5 h6 h7).
    by rewrite E.
Qed.
End block.

Lemma digest_word_be h i x : h !! i = Some x -> digest_word h i = be_bytes 4 x.
Proof.
  intros H. unfold digest_word, be_bytes. rewrite (list_lookup_total_correct _ _ _ H).
  rewrite !Z.shiftr_div_pow2 by lia. cbn [le_bytes rev app]. by rewrite !Z.div_div by lia.
Qed.

Lemma sha256_conforms_aux data :
  Z.of_nat (length data) < 2 ^ 61 -> sha256 junk data = sha256_reference data.
Proof.
  intros Hl. unfold sha256, sha256_reference.
  destruct (padded_total_spec data Hl) as [E Hlen]. rewrite E.
  set (n := (length (pad_message data) / 64)%nat).
  assert (Z.to_nat (Z.of_nat (length (pad_message data)) / 64) = n) as ->.
  { change 64 with (Z.of_nat 64). by rewrite <- Nat2Z.inj_div, Nat2Z.id. }
  rewrite <- E.
  set (pad := padded _ _ _ _ _).
  destruct (foldl_indexed (fun h => length h = 8%nat /\ Forall word h) fips_block (sha256_block pad)
    (chunks 64 n (pad_message data)) 0 initial_h) as [F [Hh _]].
  - split; [done|]. repeat (constructor; [unfold word; lia|]). constructor.
  - intros h blk block [H8 Hw] Hblk. apply chunks_lookup in Hblk as [Hn ->].
    rewrite Nat.add_0_l. destruct (sha256_block_fips pad (pad_message data) blk) with (h := h) as (-> & ? & ?); try done.
    + intros i c Hc. by apply padded_lookup.
    + pose proof (Nat.Div0.mul_div_le (length (pad_message data)) 64). lia.
  - rewrite length_chunks in F. rewrite F. set (h := foldl fips_block _ _) in *.
    f_equal. rewrite <- Hh. apply list_eq. intros i. rewrite !list_lookup_fmap.
    destruct (decide (i < length h)%nat) as [Hi|Hi].
    + destruct (lookup_lt_is_Some_2 h i Hi) as [x Hx]. rewrite Hx, lookup_seq_lt by done. simpl.
      f_equal. by apply digest_word_be.
    + rewrite (lookup_ge_None_2 h), lookup_seq_ge by lia. done.
Qed.
End proofs.

(** ** Properties *)

(** C12. SHA-256: for every message FIPS 180-4 allows, the indexed loops over the virtual padding
    compute the published digest of the materially padded message, whatever a read past the end
    of the data would give. *)
Theorem sha256_conforms junk data :
  Z.of_nat (length data) < 2 ^ 61 -> sha256 junk data = sha256_reference data.
Proof. apply sha256_conforms_aux. Qed.

(** The padding loop exits for every 64-bit counter, wrap-around included: 64 steps suffice,
    more change nothing, and the exit condition holds. *)
Theorem padding_loop_exits fuel total :
  (64 <= fuel)%nat -> 0 <= total < 2 ^ 64 ->
  pad_loop fuel total = pad_loop 64 total /\ pad_loop fuel total mod 64 = 56.
Proof.
  intros Hf Ht. pose proof (Z.mod_pos_bound (56 - total) 64 ltac:(lia)).
  rewrite !pad_loop_spec by lia. split; [done|]. rewrite u64_mod64.
  Z.div_mod_to_equations. lia.
Qed.

(** C13. MurmurHash3: for every 32-bit seed the block loop, the fall-through switch and the mixing steps compute the published
    hash -- its constants, rotations and final mix stated on their own -- and read nothing past the end of the data. *)
Theorem murmur3_conforms junk data seed : 0 <= seed < 2 ^ 32 -> murmur3_x86_32 junk data seed = murmur_reference data seed.
Proof. apply murmur_reference_eq. Qed.

Lemma murmur3_conforms_witness : murmur3_x86_32 "x" ($"hello") 0x9747b28c = murmur_reference ($"hello") 0x9747b28c /\ murmur_reference ($"abc") 0 = 0xb3dd93fa.
Proof. split; [apply (murmur3_conforms "x" ($"hello") 0x9747b28c); lia|reflexivity]. Defined.

(** FNV-1a, in both widths, detects every substitution of a single byte: two inputs that
    differ in exactly one position never collide. *)
Theorem fnv1a_detects_substitution a x y b :
  x <> y ->
  fnv1a_64 (a ++ x :: b) <> fnv1a_64 (a ++ y :: b) /\ fnv1a_32 (a ++ x :: b) <> fnv1a_32 (a ++ y :: b).
Proof.
  intros Hne. split; intros E; apply Hne.
  - apply fnv1a_substitution in E; [done|lia|vm_compute; reflexivity|lia].
  - apply fnv1a_substitution in E; [done|lia|vm_compute; reflexivity|lia].
Qed.

Lemma hex_digit_char junk v : 0 <= v < 16 -> hex_digit junk v = digit_char v.
Proof.
  intros Hv. replace v with (Z.of_nat (Z.to_nat v)) by lia.
  assert (Z.to_nat v < 16)%nat as H by lia. revert H. generalize (Z.to_nat v). clear Hv v. intros n Hn.
  do 16 (destruct n as [|n]; [reflexivity|]). lia.
Qed.

Lemma length_sha256 junk data : length (sha256 junk data) = 32%nat.
Proof. unfold sha256. set (h := foldl _ _ _). clearbody h. reflexivity. Qed.

(** The hex digest has 64 characters: for each of the 32 bytes of the digest, in order, its
    two base-16 digits, high half first. *)
Theorem sha256_hex_renders junk data :
  sha256_hex junk data =
    concat (map (fun b => [digit_char (code b / 16); digit_char (code b mod 16)]) (sha256 junk data)) /\
  length (sha256 junk data) = 32%nat /\ length (sha256_hex junk data) = 64%nat.
Proof.
  assert (sha256_hex junk data =
    concat (map (fun b => [digit_char (code b / 16); digit_char (code b mod 16)]) (sha256 junk data))) as E.
  { unfold sha256_hex. f_equal. apply map_ext. intros b. pose proof (code_bound b).
    change 15 with (Z.ones 4). rewrite !Z.land_ones, Z.shiftr_div_pow2 by lia. change (2 ^ 4) with 16.
    rewrite !hex_digit_char by (Z.div_mod_to_equations; lia). rewrite (Z.mod_small (code b / 16)); [done|].
    Z.div_mod_to_equations. lia. }
  split_and!; [done|apply length_sha256|].
  rewrite E. pose proof (length_sha256 junk data) as H. revert H. generalize (sha256 junk data).
  intros l Hl. replace 64%nat with (2 * length l)%nat by (by rewrite Hl). clear. induction l; simpl in *; lia.
Qed.

(** ** Witnesses *)

Lemma sha256_conforms_witness : sha256 "x" ($"abc") = sha256_reference ($"abc").
Proof. apply sha256_conforms. vm_compute. reflexivity. Defined.

Lemma padding_loop_exits_witness :
  pad_loop 100 (2 ^ 64 - 1) = pad_loop 64 (2 ^ 64 - 1) /\ pad_loop 100 (2 ^ 64 - 1) mod 64 = 56.
Proof. apply padding_loop_exits; lia. Defined.

Lemma fnv1a_detects_substitution_witness :
  fnv1a_64 ($"foobar") <> fnv1a_64 ($"fopbar") /\ fnv1a_32 ($"foobar") <> fnv1a_32 ($"fopbar").
Proof. apply (fnv1a_detects_substitution ($"fo") "o" "p" ($"bar")). discriminate. Defined.
