(* ===== verification/JsonParser.v ===== *)
(** * JsonParser (json_parser.hpp): the pull parser

    The parser object is a [parser] record with the members of the class; every member function
    is a state transformer.  [source_[pos_]] at the end of the input is [None]; the loops carry
    fuel [S (length source_)], which the lemmas of JsonLexer.v show to be enough.  The grammar
    the parser is measured against is in JsonGrammar.v. *)

From S2P Require Import Prelude StdAlgo Charconv.

Inductive JsonToken : Set :=
  | begin_object | end_object | begin_array | end_array | key | string_ | number | boolean
  | null_value | end_ | error.

Record JsonEvent := Event { type_ : JsonToken; text_ : text }.

Definition bare (t : JsonToken) : JsonEvent := Event t [].

Inductive State : Set := running | finished | errored.

Record Frame := MkFrame { is_object : bool; seen_element : bool; expect_value : bool }.

Record parser := Parser {
  source_ : text;
  pos_ : nat;
  stack_ : list Frame;
  depth_ : nat;
  top_level_started_ : bool;
  state_ : State;
  error_message_ : text;
  error_offset_ : nat
}.

#[export] Instance token_eq_dec : EqDecision JsonToken.
Proof. solve_decision. Defined.
#[export] Instance event_eq_dec : EqDecision JsonEvent.
Proof. solve_decision. Defined.
#[export] Instance state_eq_dec : EqDecision State.
Proof. solve_decision. Defined.
#[export] Instance frame_inhabited : Inhabited Frame := populate (MkFrame false false false).

(** Member updates. *)
Definition set_pos (p : parser) (pos : nat) : parser :=
  Parser (source_ p) pos (stack_ p) (depth_ p) (top_level_started_ p) (state_ p) (error_message_ p) (error_offset_ p).
Definition set_frame (p : parser) (i : nat) (f : Frame) : parser :=
  Parser (source_ p) (pos_ p) (<[i := f]> (stack_ p)) (depth_ p) (top_level_started_ p) (state_ p)
    (error_message_ p) (error_offset_ p).
Definition set_depth (p : parser) (depth : nat) : parser :=
  Parser (source_ p) (pos_ p) (stack_ p) depth (top_level_started_ p) (state_ p) (error_message_ p) (error_offset_ p).
Definition set_started (p : parser) : parser :=
  Parser (source_ p) (pos_ p) (stack_ p) (depth_ p) true (state_ p) (error_message_ p) (error_offset_ p).
Definition set_finished (p : parser) : parser :=
  Parser (source_ p) (pos_ p) (stack_ p) (depth_ p) (top_level_started_ p) finished (error_message_ p) (error_offset_ p).

(** ** Low-level cursor *)

Definition bump (p : parser) : parser := set_pos p (S (pos_ p)).

Definition current (p : parser) : option ascii := source_ p !! pos_ p.

Definition peek (p : parser) : ascii := default "000"%char (current p).

Definition make_error (p : parser) (message : text) : parser * JsonEvent :=
  (if decide (state_ p <> errored) then
     Parser (source_ p) (pos_ p) (stack_ p) (depth_ p) (top_level_started_ p) errored message (pos_ p)
   else p,
   bare error).

Definition is_whitespace (c : ascii) : bool :=
  Ascii.eqb c " " || Ascii.eqb c "009" || Ascii.eqb c "010" || Ascii.eqb c "013".

Definition is_hex (c : ascii) : bool :=
  is_digit c || ((97 <=? code c) && (code c <=? 102))%Z || ((65 <=? code c) && (code c <=? 70))%Z.

(** [while (pos_ < source_.size() && f(source_[pos_])) ++pos_;] *)
Fixpoint skip_while (fuel : nat) (f : ascii -> bool) (p : parser) : parser :=
  match fuel with
  | O => p
  | S fuel =>
      match current p with
      | Some c => if f c then skip_while fuel f (bump p) else p
      | None => p
      end
  end.

Definition skip_whitespace (p : parser) : parser := skip_while (length (source_ p)) is_whitespace p.

(** [while (is_digit(peek())) ++pos_;] -- the end of input reads as a NUL, which is no digit. *)
Definition skip_digits (p : parser) : parser := skip_while (length (source_ p)) is_digit p.

(** ** Scalar scanners *)

Fixpoint four_hex (digits : nat) (p : parser) : parser * bool :=
  match digits with
  | O => (p, true)
  | S digits =>
      match current p with
      | Some c =>
          if is_hex c then four_hex digits (bump p)
          else ((make_error p ($"invalid \u escape: expected four hex digits")).1, false)
      | None => ((make_error p ($"invalid \u escape: expected four hex digits")).1, false)
      end
  end.

Definition is_simple_escape (c : ascii) : bool :=
  existsb (Ascii.eqb c) ["034"; "\"; "/"; "b"; "f"; "n"; "r"; "t"]%char.

Definition validate_escape (p : parser) : parser * bool :=
  let start := pos_ p in
  let p := bump p in
  match current p with
  | None => ((make_error (set_pos p start) ($"unterminated escape sequence")).1, false)
  | Some c =>
      if is_simple_escape c then (bump p, true)
      else if Ascii.eqb c "u" then four_hex 4 (bump p)
      else ((make_error p ($"invalid escape sequence")).1, false)
  end.

Fixpoint string_loop (fuel open content : nat) (p : parser) : parser * option text :=
  match fuel with
  | O => (p, None)
  | S fuel =>
      match current p with
      | None => ((make_error (set_pos p open) ($"unterminated string")).1, None)
      | Some c =>
          if Ascii.eqb c "034" then (bump p, Some (take (pos_ p - content) (drop content (source_ p))))
          else if Ascii.eqb c "\" then
            let '(p, ok) := validate_escape p in
            if ok then string_loop fuel open content p else (p, None)
          else if (code c <? 32)%Z then ((make_error p ($"unescaped control character in string")).1, None)
          else string_loop fuel open content (bump p)
      end
  end.

Definition scan_string (p : parser) : parser * option text :=
  let open := pos_ p in
  let p := bump p in
  string_loop (S (length (source_ p))) open (pos_ p) p.

Definition number_event (p : parser) (start : nat) : parser * JsonEvent :=
  (p, Event number (take (pos_ p - start) (drop start (source_ p)))).

Definition scan_exponent (p : parser) (start : nat) : parser * JsonEvent :=
  if Ascii.eqb (peek p) "e" || Ascii.eqb (peek p) "E" then
    let p := bump p in
    let p := if Ascii.eqb (peek p) "+" || Ascii.eqb (peek p) "-" then bump p else p in
    if negb (is_digit (peek p)) then make_error p ($"invalid number: expected a digit in the exponent")
    else number_event (skip_digits p) start
  else number_event p start.

Definition scan_fraction (p : parser) (start : nat) : parser * JsonEvent :=
  if Ascii.eqb (peek p) "." then
    let p := bump p in
    if negb (is_digit (peek p)) then make_error p ($"invalid number: expected a digit after '.'")
    else scan_exponent (skip_digits p) start
  else scan_exponent p start.

Definition scan_number (p : parser) : parser * JsonEvent :=
  let start := pos_ p in
  let p := if Ascii.eqb (peek p) "-" then bump p else p in
  if Ascii.eqb (peek p) "0" then scan_fraction (bump p) start
  else if is_digit (peek p) then scan_fraction (skip_digits p) start
  else make_error p ($"invalid number: expected a digit").

Definition scan_literal (p : parser) (literal : text) (token : JsonToken) : parser * JsonEvent :=
  if starts_with literal (drop (pos_ p) (source_ p)) then (set_pos p (pos_ p + length literal), Event token literal)
  else make_error p ($"invalid literal").

(** ** Value dispatch and container walking *)

Section walking.
Variable MaxDepth : nat.

Definition make (source : text) : parser :=
  Parser source 0 (replicate MaxDepth (MkFrame false false false)) 0 false running [] 0.

Definition open_frame (p : parser) (object : bool) (token : JsonToken) : parser * JsonEvent :=
  if (MaxDepth <=? depth_ p)%nat then make_error p ($"maximum nesting depth exceeded")
  else
    let p := bump p in
    let p := set_frame p (depth_ p) (MkFrame object false false) in
    (set_depth p (S (depth_ p)), bare token).

Definition start_value (p : parser) : parser * JsonEvent :=
  let p := skip_whitespace p in
  match current p with
  | None => make_error p ($"expected a value but reached end of input")
  | Some c =>
      if Ascii.eqb c "{" then open_frame p true begin_object
      else if Ascii.eqb c "[" then open_frame p false begin_array
      else if Ascii.eqb c "034" then
        let '(p, raw) := scan_string p in
        match raw with
        | Some raw => (p, Event string_ raw)
        | None => (p, bare error)
        end
      else if Ascii.eqb c "t" then scan_literal p ($"true") boolean
      else if Ascii.eqb c "f" then scan_literal p ($"false") boolean
      else if Ascii.eqb c "n" then scan_literal p ($"null") null_value
      else if Ascii.eqb c "-" || is_digit c then scan_number p
      else make_error p ($"unexpected character; expected a value")
  end.

Definition close_frame (p : parser) (token : JsonToken) : parser * JsonEvent :=
  (set_depth p (depth_ p - 1), bare token).

Definition top (p : parser) : Frame := stack_ p !!! (depth_ p - 1).
Definition set_top (p : parser) (f : Frame) : parser := set_frame p (depth_ p - 1) f.

(** The part after a member separator: a key and its colon. *)
Definition object_key (p : parser) : parser * JsonEvent :=
  let p := set_top p (MkFrame (is_object (top p)) true (expect_value (top p))) in
  if negb (Ascii.eqb (peek p) "034") then make_error p ($"expected a string key")
  else
    let '(p, raw) := scan_string p in
    match raw with
    | None => (p, bare error)
    | Some raw =>
        let p := skip_whitespace p in
        if negb (Ascii.eqb (peek p) ":") then make_error p ($"expected ':' after object key")
        else
          let p := bump p in
          let p := set_top p (MkFrame (is_object (top p)) (seen_element (top p)) true) in
          (p, Event key raw)
    end.

Definition next_in_object (p : parser) : parser * JsonEvent :=
  if expect_value (top p) then
    start_value (set_top p (MkFrame (is_object (top p)) (seen_element (top p)) false))
  else
    let p := skip_whitespace p in
    if Ascii.eqb (peek p) "}" then close_frame (bump p) end_object
    else if seen_element (top p) then
      if negb (Ascii.eqb (peek p) ",") then make_error p ($"expected ',' or '}' in object")
      else
        let p := skip_whitespace (bump p) in
        if Ascii.eqb (peek p) "}" then make_error p ($"trailing comma before '}'")
        else object_key p
    else object_key p.

Definition array_element (p : parser) : parser * JsonEvent :=
  start_value (set_top p (MkFrame (is_object (top p)) true (expect_value (top p)))).

Definition next_in_array (p : parser) : parser * JsonEvent :=
  let p := skip_whitespace p in
  if Ascii.eqb (peek p) "]" then close_frame (bump p) end_array
  else if seen_element (top p) then
    if negb (Ascii.eqb (peek p) ",") then make_error p ($"expected ',' or ']' in array")
    else
      let p := skip_whitespace (bump p) in
      if Ascii.eqb (peek p) "]" then make_error p ($"trailing comma before ']'")
      else array_element p
  else array_element p.

Definition next (p : parser) : parser * JsonEvent :=
  match state_ p with
  | errored => (p, bare error)
  | finished => (p, bare end_)
  | running =>
      if decide (depth_ p = 0) then
        if negb (top_level_started_ p) then start_value (set_started p)
        else
          let p := skip_whitespace p in
          match current p with
          | Some _ => make_error p ($"unexpected trailing characters after the top-level value")
          | None => (set_finished p, bare end_)
          end
      else if is_object (top p) then next_in_object p else next_in_array p
  end.

Definition done_ (p : parser) : bool := bool_decide (state_ p <> running).
Definition failed (p : parser) : bool := bool_decide (state_ p = errored).

(** Calling [next] [n] times: the events in order and the parser left. *)
Fixpoint pull (n : nat) (p : parser) : list JsonEvent * parser :=
  match n with
  | O => ([], p)
  | S n => let '(p, e) := next p in let '(es, p) := pull n p in (e :: es, p)
  end.

End walking.

(** The loop of the class documentation: call [next] until the parser is done, and collect the
    events.  A document of [n] bytes needs at most [n + 1] calls. *)
Fixpoint drive (MaxDepth fuel : nat) (p : parser) : list JsonEvent :=
  match fuel with
  | O => []
  | S fuel =>
      let '(p, e) := next MaxDepth p in
      if done_ p then [e] else e :: drive MaxDepth fuel p
  end.

Definition events (MaxDepth : nat) (source : text) : list JsonEvent :=
  drive MaxDepth (S (length source)) (make MaxDepth source).

(** Single quotes for double ones, in the samples. *)
Definition quoted (t : text) : text := map (fun c => if Ascii.eqb c "'" then "034"%char else c) t.

Example walk_sample :
  events 64 (quoted ($"{'a':1,'b':[true, null]} ")) =
    [bare begin_object; Event key ($"a"); Event number ($"1"); Event key ($"b"); bare begin_array;
     Event boolean ($"true"); Event null_value ($"null"); bare end_array; bare end_object; bare end_] /\
  map type_ (events 1 ($"[[]]")) = [begin_array; error] /\
  map type_ (events 64 ($"[1,]")) = [begin_array; number; error].
Proof. by vm_compute. Qed.
