(* ===== verification/JsonGrammar.v ===== *)
(** * The JSON grammar, and the pushdown machine between it and the parser

    [document] is the grammar of RFC 8259 with its whitespace; [walk] the pre-order events of a
    value.  [mstep] is the machine the parser implements, on the text that is left and the open
    frames, one event per step; [completes] says a configuration can be run to the end of the
    document.  The two lemmas at the end relate machine and grammar. *)

From S2P Require Import Prelude Charconv JsonParser.

(** ** Lexical grammar *)

Abbreviation quote := ("034"%char) (only parsing).

Definition ws (t : text) : Prop := Forall (fun c => is_whitespace c = true) t.

Inductive escape_seq : text -> Prop :=
  | escape_simple c : is_simple_escape c = true -> escape_seq ["\"%char; c]
  | escape_unicode a b c d :
      is_hex a = true -> is_hex b = true -> is_hex c = true -> is_hex d = true ->
      escape_seq ["\"; "u"; a; b; c; d]%char.

Inductive string_body : text -> Prop :=
  | body_nil : string_body []
  | body_char c t : c <> quote -> c <> "\"%char -> (32 <= code c)%Z -> string_body t -> string_body (c :: t)
  | body_escape e t : escape_seq e -> string_body t -> string_body (e ++ t).

Definition all_digits (t : text) : Prop := Forall (fun c => is_digit c = true) t.

Inductive integer_part : text -> Prop :=
  | integer_zero : integer_part ["0"%char]
  | integer_digits d t : is_digit d = true -> d <> "0"%char -> all_digits t -> integer_part (d :: t).

Inductive fraction_part : text -> Prop :=
  | fraction_none : fraction_part []
  | fraction_some t : all_digits t -> t <> [] -> fraction_part ("."%char :: t).

Inductive exponent_part : text -> Prop :=
  | exponent_none : exponent_part []
  | exponent_some e sign t :
      e = "e"%char \/ e = "E"%char -> sign = [] \/ sign = ["+"%char] \/ sign = ["-"%char] ->
      all_digits t -> t <> [] -> exponent_part (e :: sign ++ t).

Inductive number_literal : text -> Prop :=
  | number_intro sign i f e :
      sign = [] \/ sign = ["-"%char] -> integer_part i -> fraction_part f -> exponent_part e ->
      number_literal (sign ++ i ++ f ++ e).

(** ** Values and documents *)

#[warnings="-register-all"]
Inductive json : Type :=
  | JNull
  | JBool (b : bool)
  | JNumber (literal : text)
  | JString (raw : text)
  | JArray (elements : list json)
  | JObject (members : list (text * json)).

Inductive value : json -> text -> Prop :=
  | value_null : value JNull ($"null")
  | value_true : value (JBool true) ($"true")
  | value_false : value (JBool false) ($"false")
  | value_number t : number_literal t -> value (JNumber t) t
  | value_string t : string_body t -> value (JString t) (quote :: t ++ [quote])
  | value_array_nil w : ws w -> value (JArray []) ("["%char :: w ++ ["]"%char])
  | value_array v vs w t t' :
      ws w -> value v t -> more_elements vs t' -> value (JArray (v :: vs)) ("["%char :: w ++ t ++ t')
  | value_object_nil w : ws w -> value (JObject []) ("{"%char :: w ++ ["}"%char])
  | value_object m ms w t t' :
      ws w -> member m t -> more_members ms t' -> value (JObject (m :: ms)) ("{"%char :: w ++ t ++ t')
with more_elements : list json -> text -> Prop :=
  | elements_nil w : ws w -> more_elements [] (w ++ ["]"%char])
  | elements_cons v vs w w' t t' :
      ws w -> ws w' -> value v t -> more_elements vs t' ->
      more_elements (v :: vs) (w ++ ","%char :: w' ++ t ++ t')
with member : text * json -> text -> Prop :=
  | member_intro k v w w' t :
      string_body k -> ws w -> ws w' -> value v t -> member (k, v) (quote :: k ++ quote :: w ++ ":"%char :: w' ++ t)
with more_members : list (text * json) -> text -> Prop :=
  | members_nil w : ws w -> more_members [] (w ++ ["}"%char])
  | members_cons m ms w w' t t' :
      ws w -> ws w' -> member m t -> more_members ms t' ->
      more_members (m :: ms) (w ++ ","%char :: w' ++ t ++ t').

Scheme value_mut := Induction for value Sort Prop
  with elements_mut := Induction for more_elements Sort Prop
  with member_mut := Induction for member Sort Prop
  with members_mut := Induction for more_members Sort Prop.

Definition document (v : json) (t : text) : Prop :=
  exists w b w', ws w /\ value v b /\ ws w' /\ t = w ++ b ++ w'.

(** ** The events of a value, and how deep it nests *)

Fixpoint walk (v : json) : list JsonEvent :=
  match v with
  | JNull => [Event null_value ($"null")]
  | JBool true => [Event boolean ($"true")]
  | JBool false => [Event boolean ($"false")]
  | JNumber t => [Event number t]
  | JString t => [Event string_ t]
  | JArray vs => bare begin_array :: concat (map walk vs) ++ [bare end_array]
  | JObject ms => bare begin_object :: concat (map (fun m => Event key m.1 :: walk m.2) ms) ++ [bare end_object]
  end.

Fixpoint nesting (v : json) : nat :=
  match v with
  | JArray vs => S (foldr Nat.max 0 (map nesting vs))
  | JObject ms => S (foldr Nat.max 0 (map (fun m => nesting m.2) ms))
  | _ => 0
  end.

Definition elements_walk (vs : list json) : list JsonEvent := concat (map walk vs).
Definition members_walk (ms : list (text * json)) : list JsonEvent :=
  concat (map (fun m => Event key m.1 :: walk m.2) ms).
Definition elements_nesting (vs : list json) : nat := foldr Nat.max 0 (map nesting vs).
Definition members_nesting (ms : list (text * json)) : nat := foldr Nat.max 0 (map (fun m => nesting m.2) ms).

(** ** The machine *)

Definition config : Type := text * list Frame * bool.

(** What may not follow a number: a character that would make it longer. *)
Definition delimited (t : text) : Prop :=
  match t with
  | [] => True
  | c :: _ => is_digit c = false /\ c <> "."%char /\ c <> "e"%char /\ c <> "E"%char
  end.

Section machine.
Variable MaxDepth : nat.
(** The condition on the text after a number: none, or [delimited]. *)
Variable after_number : text -> Prop.

Inductive starts : text -> list Frame -> JsonEvent -> text -> list Frame -> Prop :=
  | starts_object w t fs :
      ws w -> length fs < MaxDepth ->
      starts (w ++ "{"%char :: t) fs (bare begin_object) t (MkFrame true false false :: fs)
  | starts_array w t fs :
      ws w -> length fs < MaxDepth ->
      starts (w ++ "["%char :: t) fs (bare begin_array) t (MkFrame false false false :: fs)
  | starts_string w raw t fs :
      ws w -> string_body raw -> starts (w ++ quote :: raw ++ quote :: t) fs (Event string_ raw) t fs
  | starts_true w t fs : ws w -> starts (w ++ $"true" ++ t) fs (Event boolean ($"true")) t fs
  | starts_false w t fs : ws w -> starts (w ++ $"false" ++ t) fs (Event boolean ($"false")) t fs
  | starts_null w t fs : ws w -> starts (w ++ $"null" ++ t) fs (Event null_value ($"null")) t fs
  | starts_number w n t fs :
      ws w -> number_literal n -> after_number t -> starts (w ++ n ++ t) fs (Event number n) t fs.

Inductive mstep : config -> JsonEvent -> config -> Prop :=
  | m_top t e t' fs' : starts t [] e t' fs' -> mstep (t, [], false) e (t', fs', true)
  | m_member_value t seen fs e t' fs' s :
      starts t (MkFrame true seen false :: fs) e t' fs' -> mstep (t, MkFrame true seen true :: fs, s) e (t', fs', s)
  | m_first_element t x fs e t' fs' s :
      starts t (MkFrame false true x :: fs) e t' fs' -> mstep (t, MkFrame false false x :: fs, s) e (t', fs', s)
  | m_next_element w t x fs e t' fs' s :
      ws w -> starts t (MkFrame false true x :: fs) e t' fs' ->
      mstep (w ++ ","%char :: t, MkFrame false true x :: fs, s) e (t', fs', s)
  | m_end_array w t seen x fs s :
      ws w -> mstep (w ++ "]"%char :: t, MkFrame false seen x :: fs, s) (bare end_array) (t, fs, s)
  | m_end_object w t seen fs s :
      ws w -> mstep (w ++ "}"%char :: t, MkFrame true seen false :: fs, s) (bare end_object) (t, fs, s)
  | m_first_key w k w' t fs s :
      ws w -> string_body k -> ws w' ->
      mstep (w ++ quote :: k ++ quote :: w' ++ ":"%char :: t, MkFrame true false false :: fs, s) (Event key k)
            (t, MkFrame true true true :: fs, s)
  | m_next_key w w1 k w' t fs s :
      ws w -> ws w1 -> string_body k -> ws w' ->
      mstep (w ++ ","%char :: w1 ++ quote :: k ++ quote :: w' ++ ":"%char :: t, MkFrame true true false :: fs, s)
            (Event key k) (t, MkFrame true true true :: fs, s).

Inductive completes : config -> list JsonEvent -> Prop :=
  | completes_end w : ws w -> completes (w, [], true) [bare end_]
  | completes_step a e a' es : mstep a e a' -> completes a' es -> completes a (e :: es).
End machine.

(** A document for the concrete runs. *)
Definition sample : text := quoted ($"[1,{'k':null}]").

(** ** Delimiters *)

Lemma ws_head w c t : ws (c :: w) -> delimited (c :: t).
Proof.
  intros H. apply Forall_cons in H as [H _]. unfold is_whitespace in H.
  rewrite !orb_true_iff, !Ascii.eqb_eq in H. destruct H as [[[-> | ->] | ->] | ->]; by split_and!.
Qed.

Lemma delimited_ws w t : ws w -> delimited t -> delimited (w ++ t).
Proof. destruct w as [|c w]; [done|]. intros H _. by apply (ws_head w). Qed.

Lemma delimited_elements vs t rest : more_elements vs t -> delimited (t ++ rest).
Proof.
  destruct 1; rewrite <- app_assoc; apply delimited_ws; try done; by split_and!.
Qed.

Lemma delimited_members ms t rest : more_members ms t -> delimited (t ++ rest).
Proof.
  destruct 1; rewrite <- app_assoc; apply delimited_ws; try done; by split_and!.
Qed.

(** ** From the grammar to the machine *)

Section complete.
Context (M : nat).

Abbreviation starts := (starts M delimited).
Abbreviation mstep := (mstep M delimited).
Abbreviation completes := (completes M delimited).

(** A value read from a configuration that can go on: its first event, and a configuration that
    yields the rest of its walk before going on. *)
Definition reads (t : text) (fs : list Frame) (evs es : list JsonEvent) : Prop :=
  exists e t1 fs1 es1, starts t fs e t1 fs1 /\ completes (t1, fs1, true) es1 /\ e :: es1 = evs ++ es.

Definition value_reads v t : Prop :=
  forall w rest fs es, ws w -> delimited rest -> nesting v + length fs <= M -> completes (rest, fs, true) es ->
  reads (w ++ t ++ rest) fs (walk v) es.

Definition elements_read vs t : Prop :=
  forall rest x fs es, S (elements_nesting vs) + length fs <= M -> completes (rest, fs, true) es ->
  completes (t ++ rest, MkFrame false true x :: fs, true) (elements_walk vs ++ bare end_array :: es).

Definition member_reads m t : Prop :=
  forall rest fs es, delimited rest -> S (nesting m.2) + length fs <= M ->
  completes (rest, MkFrame true true false :: fs, true) es ->
  exists k w t1, t = quote :: k ++ quote :: w ++ ":"%char :: t1 /\ string_body k /\ ws w /\ k = m.1 /\
    completes (t1 ++ rest, MkFrame true true true :: fs, true) (walk m.2 ++ es).

Definition members_read ms t : Prop :=
  forall rest fs es, S (members_nesting ms) + length fs <= M -> completes (rest, fs, true) es ->
  completes (t ++ rest, MkFrame true true false :: fs, true) (members_walk ms ++ bare end_object :: es).

Lemma scalar_reads e t rest fs es :
  completes (rest, fs, true) es -> starts t fs e rest fs -> reads t fs [e] es.
Proof. intros H Hs. by exists e, rest, fs, es. Qed.

Lemma read_first_element v vs t t' w x :
  value_reads v t -> elements_read vs t' -> more_elements vs t' -> ws w ->
  forall rest fs es, S (elements_nesting (v :: vs)) + length fs <= M -> completes (rest, fs, true) es ->
  reads (w ++ t ++ t' ++ rest) (MkFrame false true x :: fs) (walk v)
    (elements_walk vs ++ bare end_array :: es).
Proof.
  intros Hv Hvs Hm Hw rest fs es Hn Hc. unfold elements_nesting in Hn. simpl in Hn.
  apply Hv; [done|by eapply delimited_elements|simpl; lia|].
  apply Hvs; [unfold elements_nesting; lia|done].
Qed.

Lemma read_array v vs w t t' :
  ws w -> value_reads v t -> more_elements vs t' -> elements_read vs t' ->
  value_reads (JArray (v :: vs)) ("["%char :: w ++ t ++ t').
Proof.
  intros Hw Hv Hm Hvs w0 rest fs es Hw0 Hd Hn Hc. simpl in Hn.
  destruct (read_first_element v vs t t' w false Hv Hvs Hm Hw rest fs es) as (e & t1 & fs1 & es1 & Hs & H1 & E);
    [by unfold elements_nesting; simpl; lia|done|].
  exists (bare begin_array), (w ++ t ++ t' ++ rest), (MkFrame false false false :: fs), (e :: es1).
  split_and!.
  - simpl. rewrite <- !app_assoc. by constructor; [|lia].
  - by eapply completes_step; [apply m_first_element|].
  - rewrite E. simpl. unfold elements_walk. by rewrite <- !app_assoc.
Qed.

Lemma read_elements v vs w w' t t' :
  ws w -> ws w' -> value_reads v t -> more_elements vs t' -> elements_read vs t' ->
  elements_read (v :: vs) (w ++ ","%char :: w' ++ t ++ t').
Proof.
  intros Hw Hw' Hv Hm Hvs rest x fs es Hn Hc.
  destruct (read_first_element v vs t t' w' x Hv Hvs Hm Hw' rest fs es) as (e & t1 & fs1 & es1 & Hs & H1 & E); [done|done|].
  unfold elements_walk in *. simpl. rewrite <- !app_assoc, <- E. simpl. rewrite <- !app_assoc.
  by eapply completes_step; [apply m_next_element|].
Qed.

Lemma read_member k v w w' t :
  string_body k -> ws w -> ws w' -> value_reads v t ->
  member_reads (k, v) (quote :: k ++ quote :: w ++ ":"%char :: w' ++ t).
Proof.
  intros Hk Hw Hw' Hv rest fs es Hd Hn Hc. exists k, w, (w' ++ t). split_and!; try done.
  destruct (Hv w' rest (MkFrame true true false :: fs) es) as (e & t1 & fs1 & es1 & Hs & H1 & E);
    [done|done|simpl in *; lia|done|].
  simpl. rewrite <- E, <- app_assoc. by eapply completes_step; [apply m_member_value|].
Qed.

Lemma read_object m ms w t t' :
  ws w -> member_reads m t -> more_members ms t' -> members_read ms t' ->
  value_reads (JObject (m :: ms)) ("{"%char :: w ++ t ++ t').
Proof.
  intros Hw Hm Hmm Hms w0 rest fs es Hw0 Hd Hn Hc. simpl in Hn.
  destruct (Hm (t' ++ rest) fs (members_walk ms ++ bare end_object :: es)) as (k & w1 & t1 & -> & Hk & Hw1 & -> & Hc1).
  { by eapply delimited_members. }
  { lia. }
  { apply Hms; [unfold members_nesting; lia|done]. }
  eexists (bare begin_object), _, (MkFrame true false false :: fs), _. split_and!.
  - simpl. constructor; [done|lia].
  - eapply completes_step; [|exact Hc1].
    match goal with |- mstep (?u, _, _) _ _ =>
      replace u with (w ++ quote :: m.1 ++ quote :: w1 ++ ":"%char :: t1 ++ t' ++ rest) by lists end.
    by apply m_first_key.
  - simpl. unfold members_walk. by rewrite <- !app_assoc.
Qed.

Lemma read_members m ms w w' t t' :
  ws w -> ws w' -> member_reads m t -> more_members ms t' -> members_read ms t' ->
  members_read (m :: ms) (w ++ ","%char :: w' ++ t ++ t').
Proof.
  intros Hw Hw' Hm Hmm Hms rest fs es Hn Hc. unfold members_nesting in Hn. simpl in Hn.
  destruct (Hm (t' ++ rest) fs (members_walk ms ++ bare end_object :: es)) as (k & w1 & t1 & -> & Hk & Hw1 & -> & Hc1).
  { by eapply delimited_members. }
  { lia. }
  { apply Hms; [unfold members_nesting; lia|done]. }
  unfold members_walk in *. simpl. rewrite <- !app_assoc. eapply completes_step; [|exact Hc1].
  match goal with |- mstep (?u, _, _) _ _ =>
    replace u with (w ++ ","%char :: w' ++ quote :: m.1 ++ quote :: w1 ++ ":"%char :: t1 ++ t' ++ rest) by lists end.
  by apply m_next_key.
Qed.

Lemma value_complete v t : value v t -> value_reads v t.
Proof.
  revert v t. apply (value_mut (fun v t _ => value_reads v t) (fun vs t _ => elements_read vs t)
    (fun m t _ => member_reads m t) (fun ms t _ => members_read ms t));
    eauto using read_array, read_elements, read_member, read_object, read_members.
  all: try (intros; intros ? ? ? ? ? ? ? ?; eapply scalar_reads; [eassumption|]; by constructor).
  - intros t Ht w rest fs es Hw Hd Hn Hc. eapply scalar_reads; [exact Hc|]. simpl. rewrite <- app_assoc. by constructor.
  - intros w Hw w0 rest fs es Hw0 Hd Hn Hc. simpl in *.
    exists (bare begin_array), (w ++ "]"%char :: rest), (MkFrame false false false :: fs), (bare end_array :: es).
    split_and!; [rewrite <- app_assoc; by constructor; [|lia]| |done].
    eapply completes_step; [by apply m_end_array|done].
  - intros w Hw w0 rest fs es Hw0 Hd Hn Hc. simpl in *.
    exists (bare begin_object), (w ++ "}"%char :: rest), (MkFrame true false false :: fs), (bare end_object :: es).
    split_and!; [rewrite <- app_assoc; by constructor; [|lia]| |done].
    eapply completes_step; [by apply m_end_object|done].
  - intros w Hw rest x fs es Hn Hc. rewrite <- app_assoc. eapply completes_step; [by apply m_end_array|done].
  - intros w Hw rest fs es Hn Hc. rewrite <- app_assoc. eapply completes_step; [by apply m_end_object|done].
Qed.

Lemma document_complete v t :
  document v t -> nesting v <= M -> completes (t, [], false) (walk v ++ [bare end_]).
Proof.
  intros (w & b & w' & Hw & Hv & Hw' & ->) Hn.
  destruct (value_complete v b Hv w w' [] [bare end_]) as (e & t1 & fs1 & es1 & Hs & Hc & E); try done.
  - rewrite <- (app_nil_r w'). by apply delimited_ws.
  - simpl. lia.
  - by constructor.
  - rewrite <- E. by eapply completes_step; [apply m_top|].
Qed.
End complete.

(** ** From the machine to the grammar *)

Section sound.
Context (M : nat) (P : text -> Prop).

Abbreviation starts := (starts M P).
Abbreviation mstep := (mstep M P).
Abbreviation completes := (completes M P).

(** What a run that completes has read, when it starts a value or continues a container; the
    run left over is shorter. *)
Definition value_read (n : nat) : Prop := forall t fs e t1 fs1 es,
  length es <= n -> starts t fs e t1 fs1 -> completes (t1, fs1, true) es -> length fs <= M ->
  exists v w b rest es2, ws w /\ t = w ++ b ++ rest /\ value v b /\ e :: es = walk v ++ es2 /\
    completes (rest, fs, true) es2 /\ nesting v + length fs <= M /\ length es2 <= length es.

Definition array_read (n : nat) : Prop := forall t x fs es,
  length es <= n -> S (length fs) <= M -> completes (t, MkFrame false true x :: fs, true) es ->
  exists vs b rest es2, t = b ++ rest /\ more_elements vs b /\ es = elements_walk vs ++ bare end_array :: es2 /\
    completes (rest, fs, true) es2 /\ S (elements_nesting vs + length fs) <= M /\ length es2 < length es.

Definition object_read (n : nat) : Prop := forall t fs es,
  length es <= n -> S (length fs) <= M -> completes (t, MkFrame true true false :: fs, true) es ->
  exists ms b rest es2, t = b ++ rest /\ more_members ms b /\ es = members_walk ms ++ bare end_object :: es2 /\
    completes (rest, fs, true) es2 /\ S (members_nesting ms + length fs) <= M /\ length es2 < length es.

(** After a key, the member's value and what follows it. *)
Lemma key_read n t fs es :
  value_read n -> length es <= S n -> S (length fs) <= M ->
  completes (t, MkFrame true true true :: fs, true) es ->
  exists v w b rest es2, ws w /\ t = w ++ b ++ rest /\ value v b /\ es = walk v ++ es2 /\
    completes (rest, MkFrame true true false :: fs, true) es2 /\ S (nesting v + length fs) <= M /\ length es2 < length es.
Proof.
  intros IHv Hn Hf Hc. inv Hc as [|a e a' es' Hs Hc']. simpl in Hn. inv Hs.
  match goal with H : starts _ _ _ _ _ |- _ => destruct (IHv _ _ _ _ _ es' ltac:(lia) H Hc' ltac:(simpl; lia))
    as (v & w & b & rest & es2 & ? & -> & ? & ? & ? & Hd & ?) end.
  exists v, w, b, rest, es2. split_and!; try done; simpl in *; lia.
Qed.

Lemma array_read_step n : value_read n -> array_read n -> array_read (S n).
Proof.
  intros IHv IHa t x fs es Hn Hf Hc. inv Hc as [|a e a' es' Hs Hc']. simpl in Hn. inv Hs.
  - match goal with H : starts _ _ _ _ _ |- _ => destruct (IHv _ _ _ _ _ es' ltac:(lia) H Hc' ltac:(simpl; lia))
      as (v & w' & b & rest & es2 & Hw' & -> & Hv & E & Hc2 & Hd & Hl) end.
    destruct (IHa _ _ _ es2 ltac:(lia) Hf Hc2) as (vs & b' & rest' & es3 & -> & Hvs & -> & Hc3 & Hd' & Hl').
    exists (v :: vs), (w ++ ","%char :: w' ++ b ++ b'), rest', es3. split_and!; try done.
    + lists.
    + by constructor.
    + rewrite E. unfold elements_walk. lists.
    + unfold elements_nesting in *. simpl in *. lia.
    + simpl. lia.
  - exists [], (w ++ ["]"%char]), t0, es'. split_and!; try done; [lists|by constructor|simpl; lia].
Qed.

Lemma object_read_step n : value_read n -> object_read n -> object_read (S n).
Proof.
  intros IHv IHo t fs es Hn Hf Hc. inv Hc as [|a e a' es' Hs Hc']. simpl in Hn. inv Hs.
  - exists [], (w ++ ["}"%char]), t0, es'. split_and!; try done; [lists|by constructor|simpl; lia].
  - destruct (key_read n _ _ es' IHv ltac:(lia) Hf Hc') as (v & w2 & b & rest & es2 & Hw2 & -> & Hv & -> & Hc2 & Hd & Hl).
    destruct (IHo _ _ es2 ltac:(lia) Hf Hc2) as (ms & b' & rest' & es3 & -> & Hms & -> & Hc3 & Hd' & Hl').
    exists ((k, v) :: ms), (w ++ ","%char :: w1 ++ (quote :: k ++ quote :: w' ++ ":"%char :: w2 ++ b) ++ b'), rest', es3.
    split_and!; try done.
    + lists.
    + constructor; done || by constructor.
    + unfold members_walk. lists.
    + unfold members_nesting in *. simpl in *. lia.
    + simpl. lia.
Qed.

Lemma value_read_step n : value_read n -> array_read n -> object_read n -> value_read (S n).
Proof.
  intros IHv IHa IHo t fs e t1 fs1 es Hn Hs Hc Hf. inv Hs as [w ? ? Hw Hlt|w ? ? Hw Hlt|w raw ? ? Hw Hb|w ? ? Hw|w ? ? Hw|w ? ? Hw|w ? ? ? Hw Hb HP].
  - inv Hc as [|a e a' es' Hs Hc']. simpl in Hn. inv Hs.
    + exists (JObject []), w, ("{"%char :: w0 ++ ["}"%char]), t, es'. split_and!; try done; [lists|by constructor|simpl; lia..].
    + destruct (key_read n _ fs es' IHv ltac:(lia) ltac:(lia) Hc') as (v & w2 & b & rest & es2 & Hw2 & -> & Hv & -> & Hc2 & Hd & Hl).
      destruct (IHo _ fs es2 ltac:(lia) ltac:(lia) Hc2) as (ms & b' & rest' & es3 & -> & Hms & -> & Hc3 & Hd' & Hl').
      exists (JObject ((k, v) :: ms)), w,
        ("{"%char :: w0 ++ (quote :: k ++ quote :: w' ++ ":"%char :: w2 ++ b) ++ b'), rest', es3.
      split_and!; try done.
      * lists.
      * constructor; done || by constructor.
      * unfold members_walk. lists.
      * unfold members_nesting in *. simpl in *. lia.
      * simpl. lia.
  - inv Hc as [|a e a' es' Hs Hc']. simpl in Hn. inv Hs.
    + match goal with H : starts _ _ _ _ _ |- _ => destruct (IHv _ _ _ _ _ es' ltac:(lia) H Hc' ltac:(simpl; lia))
        as (v & w' & b & rest & es2 & Hw' & -> & Hv & E & Hc2 & Hd & Hl) end.
      destruct (IHa _ _ fs es2 ltac:(lia) ltac:(lia) Hc2) as (vs & b' & rest' & es3 & -> & Hvs & -> & Hc3 & Hd' & Hl').
      exists (JArray (v :: vs)), w, ("["%char :: w' ++ b ++ b'), rest', es3. split_and!; try done.
      * lists.
      * by constructor.
      * simpl. rewrite E. unfold elements_walk. lists.
      * unfold elements_nesting in *. simpl in *. lia.
      * simpl. lia.
    + exists (JArray []), w, ("["%char :: w0 ++ ["]"%char]), t, es'. split_and!; try done; [lists|by constructor|simpl; lia..].
  - exists (JString raw), w, (quote :: raw ++ [quote]), t1, es. split_and!; try done; [lists|by constructor].
  - exists (JBool true), w, ($"true"), t1, es. split_and!; try done. by constructor.
  - exists (JBool false), w, ($"false"), t1, es. split_and!; try done. by constructor.
  - exists JNull, w, ($"null"), t1, es. split_and!; try done. by constructor.
  - exists (JNumber n0), w, n0, t1, es. split_and!; try done. by constructor.
Qed.

Lemma machine_read n : value_read n /\ array_read n /\ object_read n.
Proof.
  assert (forall a es, completes a es -> es <> []) as Hne by by destruct 1.
  induction n as [|n (IHv & IHa & IHo)]; [|split_and!; eauto using value_read_step, array_read_step, object_read_step].
  split_and!.
  - intros t fs e t1 fs1 [|] Hn Hs Hc; [by apply Hne in Hc|simpl in Hn; lia].
  - intros t x fs [|] Hn Hf Hc; [by apply Hne in Hc|simpl in Hn; lia].
  - intros t fs [|] Hn Hf Hc; [by apply Hne in Hc|simpl in Hn; lia].
Qed.

Lemma document_sound t es :
  completes (t, [], false) es -> exists v, document v t /\ nesting v <= M /\ es = walk v ++ [bare end_].
Proof.
  intros Hc. inv Hc as [|a e a' es' Hs Hc']. inv Hs.
  match goal with H : starts _ _ _ _ _ |- _ => destruct (proj1 (machine_read (length es')) _ _ _ _ _ es' ltac:(lia) H Hc'
    ltac:(simpl; lia)) as (v & w & b & rest & es2 & Hw & -> & Hv & E & Hc2 & Hd & Hl) end.
  inv Hc2 as [w' Hw'|a e1 a' es1 Hs1]; [|inv Hs1].
  exists v. split_and!; [by exists w, b, rest|simpl in Hd; lia|done].
Qed.
End sound.

(** ** The sample is a document *)

Lemma sample_value :
  value (JArray [JNumber ($"1"); JObject [($"k", JNull)]]) sample.
Proof.
  apply (value_array (JNumber ($"1")) [JObject [($"k", JNull)]] [] ($"1") (quoted ($",{'k':null}]"))).
  - constructor.
  - constructor. apply (number_intro [] ($"1") [] []); [by left| |constructor..].
    by constructor; [| |constructor].
  - apply (elements_cons (JObject [($"k", JNull)]) [] [] [] (quoted ($"{'k':null}")) ($"]")); try constructor.
    + apply (value_object ($"k", JNull) [] [] (quoted ($"'k':null")) ($"}")); [constructor| |].
      * apply (member_intro ($"k") JNull [] [] ($"null")); try constructor; [discriminate|discriminate| |constructor].
        by vm_compute.
      * apply (members_nil []). constructor.
    + apply (elements_nil []). constructor.
Qed.

Lemma sample_document : document (JArray [JNumber ($"1"); JObject [($"k", JNull)]]) (" "%char :: sample).
Proof.
  exists [" "%char], sample, []. split_and!; [by repeat constructor|apply sample_value|constructor|done].
Qed.
