(* ===== verification/JsonLexer.v ===== *)
(** * The scanners of JsonParser against the lexical grammar

    [rest p] is the text at the cursor and [adv p n] the parser [n] characters further.  Every
    scanner is characterised twice: what it consumes when the grammar matches, and that it only
    succeeds when the grammar matches.  The fuel of the loops is shown to be enough on the way. *)

From S2P Require Import Prelude StdAlgo Charconv JsonParser JsonGrammar.

Definition rest (p : parser) : text := drop (pos_ p) (source_ p).
Definition adv (p : parser) (n : nat) : parser := set_pos p (pos_ p + n).

(** The text does not go on with a character of the class. *)
Definition stops (f : ascii -> bool) (t : text) : Prop := match t with [] => True | c :: _ => f c = false end.

#[local] Arguments make_error : simpl never.

(** ** The cursor *)

Lemma current_rest p : current p = head (rest p).
Proof.
  unfold current, rest. rewrite <- (Nat.add_0_r (pos_ p)) at 1. rewrite <- lookup_drop.
  by destruct (drop (pos_ p) (source_ p)).
Qed.

Lemma peek_rest p c t : rest p = c :: t -> peek p = c.
Proof. intros H. unfold peek. by rewrite current_rest, H. Qed.

Lemma peek_not p c : c <> "000"%char -> peek p = c -> exists t, rest p = c :: t.
Proof.
  unfold peek. rewrite current_rest. intros Hc H. destruct (rest p) as [|d t]; simpl in *; [by subst|]. subst. eauto.
Qed.

Lemma rest_adv p n : rest (adv p n) = drop n (rest p).
Proof. unfold rest, adv. simpl. by rewrite drop_drop. Qed.

Lemma rest_adv_app p a b : rest p = a ++ b -> rest (adv p (length a)) = b.
Proof. intros H. by rewrite rest_adv, H, drop_app_length. Qed.

Lemma rest_bump p c t : rest p = c :: t -> rest (bump p) = t.
Proof. intros H. replace (bump p) with (adv p 1); [by rewrite rest_adv, H|]. unfold bump, adv. by rewrite Nat.add_1_r. Qed.

Lemma bump_adv p : bump p = adv p 1.
Proof. unfold bump, adv. by rewrite Nat.add_1_r. Qed.

Lemma adv_0 p : adv p 0 = p.
Proof. unfold adv. rewrite Nat.add_0_r. by destruct p. Qed.

Lemma adv_adv p m n : adv (adv p m) n = adv p (m + n).
Proof. unfold adv. simpl. by rewrite Nat.add_assoc. Qed.

Lemma bump_of_adv p n : bump (adv p n) = adv p (S n).
Proof. rewrite bump_adv, adv_adv. f_equal. lia. Qed.

Lemma length_rest p : length (rest p) = length (source_ p) - pos_ p.
Proof. unfold rest. apply length_drop. Qed.

Lemma rest_length_le p : length (rest p) <= length (source_ p).
Proof. rewrite length_rest. lia. Qed.

(** The slice between two positions of the cursor. *)
Lemma slice p a b : rest p = a ++ b -> take (length a) (drop (pos_ p) (source_ p)) = a.
Proof. intros H. fold (rest p). by rewrite H, take_app_length. Qed.

(** ** Skipping a class of characters *)

Lemma span_unique f a b a' b' :
  a ++ b = a' ++ b' -> Forall (fun c => f c = true) a -> Forall (fun c => f c = true) a' ->
  stops f b -> stops f b' -> a = a' /\ b = b'.
Proof.
  revert a'. induction a as [|c a IH]; intros [|c' a'] E Ha Ha' Hb Hb'; simpl in *; subst.
  - done.
  - simpl in Hb. apply Forall_cons in Ha' as [? _]. congruence.
  - simpl in Hb'. apply Forall_cons in Ha as [? _]. congruence.
  - apply Forall_cons in Ha as [_ Ha]. apply Forall_cons in Ha' as [_ Ha']. simplify_eq.
    destruct (IH a') as [-> ->]; done.
Qed.

Lemma skip_while_spec f fuel p :
  length (rest p) <= fuel ->
  exists a b, rest p = a ++ b /\ Forall (fun c => f c = true) a /\ stops f b /\ skip_while fuel f p = adv p (length a).
Proof.
  revert p. induction fuel as [|fuel IH]; intros p Hl; simpl.
  - exists [], []. destruct (rest p); simpl in Hl; [|lia]. by rewrite adv_0.
  - rewrite current_rest. destruct (rest p) as [|c t] eqn:E; simpl.
    + exists [], []. by rewrite adv_0.
    + destruct (f c) eqn:Ef.
      * pose proof (rest_bump _ _ _ E) as Eb. destruct (IH (bump p)) as (a & b & Hab & Ha & Hb & ->).
        { rewrite Eb. simpl in Hl. lia. }
        exists (c :: a), b. split_and!; [by rewrite <- Eb, Hab|by constructor|done|].
        by rewrite bump_adv, adv_adv.
      * exists [], (c :: t). by rewrite adv_0.
Qed.

Lemma skip_while_eq f fuel p a b :
  length (rest p) <= fuel -> rest p = a ++ b -> Forall (fun c => f c = true) a -> stops f b ->
  skip_while fuel f p = adv p (length a).
Proof.
  intros Hl E Ha Hb. destruct (skip_while_spec f fuel p Hl) as (a' & b' & E' & Ha' & Hb' & ->).
  rewrite E in E'. by destruct (span_unique f _ _ _ _ E' Ha Ha' Hb Hb') as [-> _].
Qed.

Lemma skip_whitespace_eq p a b :
  rest p = a ++ b -> ws a -> stops is_whitespace b -> skip_whitespace p = adv p (length a).
Proof. apply skip_while_eq, rest_length_le. Qed.

Lemma skip_whitespace_spec p :
  exists a b, rest p = a ++ b /\ ws a /\ stops is_whitespace b /\ skip_whitespace p = adv p (length a) /\
    rest (skip_whitespace p) = b.
Proof.
  destruct (skip_while_spec is_whitespace (length (source_ p)) p) as (a & b & E & Ha & Hb & Hs);
    [apply rest_length_le|].
  exists a, b. unfold skip_whitespace. rewrite Hs. split_and!; try done. by apply rest_adv_app in E.
Qed.

Lemma skip_digits_eq p a b :
  rest p = a ++ b -> all_digits a -> stops is_digit b -> skip_digits p = adv p (length a).
Proof. apply skip_while_eq, rest_length_le. Qed.

Lemma skip_digits_spec p :
  exists a b, rest p = a ++ b /\ all_digits a /\ stops is_digit b /\ skip_digits p = adv p (length a) /\
    rest (skip_digits p) = b.
Proof.
  destruct (skip_while_spec is_digit (length (source_ p)) p) as (a & b & E & Ha & Hb & Hs);
    [apply rest_length_le|].
  exists a, b. unfold skip_digits. rewrite Hs. split_and!; try done. by apply rest_adv_app in E.
Qed.

(** ** Escapes *)

Lemma four_hex_true n p p' :
  four_hex n p = (p', true) ->
  exists h t, rest p = h ++ t /\ length h = n /\ Forall (fun c => is_hex c = true) h /\ p' = adv p n.
Proof.
  revert p. induction n as [|n IH]; intros p H; simpl in H.
  - exists [], (rest p). simplify_eq. by rewrite adv_0.
  - rewrite current_rest in H. destruct (rest p) as [|c t] eqn:E; simpl in H; [done|].
    destruct (is_hex c) eqn:Ec; [|done]. apply IH in H as (h & t' & E' & <- & Hh & ->).
    exists (c :: h), t'.
    split_and!; try done; [by rewrite <- (rest_bump _ _ _ E), E'|by constructor|]. by rewrite bump_adv, adv_adv.
Qed.

Lemma four_hex_eq h p t :
  rest p = h ++ t -> Forall (fun c => is_hex c = true) h -> four_hex (length h) p = (adv p (length h), true).
Proof.
  revert p. induction h as [|c h IH]; intros p E Hh; simpl.
  - by rewrite adv_0.
  - apply Forall_cons in Hh as [Hc Hh]. rewrite current_rest, E. simpl. rewrite Hc.
    apply rest_bump in E. rewrite (IH (bump p)) by done. by rewrite bump_adv, adv_adv.
Qed.

#[local] Arguments four_hex : simpl never.

Lemma validate_escape_true p p' t :
  rest p = "\"%char :: t -> validate_escape p = (p', true) ->
  exists e t', escape_seq e /\ rest p = e ++ t' /\ p' = adv p (length e).
Proof.
  intros E H. unfold validate_escape in H. pose proof (rest_bump _ _ _ E) as Eb. rewrite current_rest, Eb in H.
  destruct t as [|c t]; simpl in H; [done|]. destruct (is_simple_escape c) eqn:Ec.
  - simplify_eq. exists ["\"%char; c], t. split_and!; [by constructor|done|]. by rewrite !bump_adv, adv_adv.
  - destruct (Ascii.eqb_spec c "u") as [->|]; [|done].
    apply four_hex_true in H as (h & t' & E' & Hl & Hh & ->). rewrite (rest_bump _ _ _ Eb) in E'. subst t.
    destruct h as [|a [|b [|c [|d [|]]]]]; try done. rewrite !Forall_cons in Hh. destruct Hh as (? & ? & ? & ? & _).
    exists ["\"; "u"; a; b; c; d]%char, t'. split_and!; [by constructor|done|]. by rewrite !bump_adv, !adv_adv.
Qed.

Lemma simple_not_u c : is_simple_escape c = true -> Ascii.eqb c "u" = false.
Proof. intros H. destruct (Ascii.eqb_spec c "u") as [->|]; [done|done]. Qed.

Lemma validate_escape_eq p e t : rest p = e ++ t -> escape_seq e -> validate_escape p = (adv p (length e), true).
Proof.
  intros E He. unfold validate_escape. destruct He as [c Hc|a b c d]; simpl in E; pose proof (rest_bump _ _ _ E) as Eb;
    rewrite current_rest, Eb; simpl.
  - rewrite Hc. by rewrite !bump_adv, !adv_adv.
  - pose proof (rest_bump _ _ _ Eb) as Ebb.
    pose proof (four_hex_eq [a; b; c; d] _ t Ebb ltac:(by repeat constructor)) as F. simpl in F.
    rewrite F. by rewrite !bump_adv, !adv_adv.
Qed.

(** ** Strings *)

Lemma string_loop_eq body p t fuel open content :
  string_body body -> rest p = body ++ quote :: t -> length (rest p) <= fuel -> content <= pos_ p ->
  string_loop fuel open content p =
    (adv p (S (length body)), Some (take (pos_ p + length body - content) (drop content (source_ p)))).
Proof.
  intros Hb. revert p fuel. induction Hb as [|c b Hq Hs Hc Hb IH|e b He Hb IH]; intros p fuel E Hl Hp;
    (destruct fuel as [|fuel]; [rewrite E in Hl; simpl in Hl; rewrite ?length_app in Hl; simpl in Hl; lia|]); simpl;
    rewrite current_rest, E; simpl.
  - rewrite Nat.add_0_r. by rewrite bump_adv.
  - destruct (Ascii.eqb_spec c "034"); [done|]. destruct (Ascii.eqb_spec c "\"); [done|].
    destruct (Z.ltb_spec (code c) 32); [lia|]. simpl in E. pose proof (rest_bump _ _ _ E) as Eb.
    rewrite (IH (bump p) fuel); try done.
    + rewrite bump_adv, adv_adv. simpl. do 3 f_equal. lia.
    + rewrite Eb. rewrite E in Hl. simpl in Hl. lia.
    + simpl. lia.
  - pose proof He as He'. assert (exists e', e = "\"%char :: e' /\ 1 <= length e') as (e' & -> & Hlen).
    { destruct He; eexists; split; [done|simpl; lia|done|simpl; lia]. }
    rewrite <- app_assoc in E. simpl. rewrite (validate_escape_eq _ _ _ E He').
    pose proof (rest_adv_app _ _ _ E) as Ea. rewrite (IH _ fuel Ea).
    + rewrite adv_adv. simpl. rewrite length_app. do 3 f_equal; lia.
    + rewrite Ea. rewrite E, length_app in Hl. simpl in *. lia.
    + simpl. lia.
Qed.

Lemma string_loop_some fuel open content p p' raw :
  string_loop fuel open content p = (p', Some raw) -> exists body t, rest p = body ++ quote :: t /\ string_body body.
Proof.
  revert p. induction fuel as [|fuel IH]; intros p H; simpl in H; [done|].
  rewrite current_rest in H. destruct (rest p) as [|c t] eqn:E; simpl in H; [done|].
  destruct (Ascii.eqb_spec c "034") as [->|Hq]; [exists [], t; split; [done|constructor]|].
  destruct (Ascii.eqb_spec c "\") as [->|Hs].
  - destruct (validate_escape p) as [p1 [|]] eqn:Ev; [|done].
    apply (validate_escape_true _ _ t) in Ev as (e & t' & He & E' & ->); [|done].
    apply IH in H as (body & t2 & Eb & Hb). rewrite (rest_adv_app _ _ _ E') in Eb.
    exists (e ++ body), t2. split; [by rewrite <- app_assoc, <- Eb, <- E', E|by constructor].
  - destruct (Z.ltb_spec (code c) 32) as [|Hc]; [done|]. apply IH in H as (body & t2 & Eb & Hb).
    rewrite (rest_bump _ _ _ E) in Eb. exists (c :: body), t2. split; [by rewrite Eb|by constructor].
Qed.

Lemma scan_string_eq p body t :
  rest p = quote :: body ++ quote :: t -> string_body body -> scan_string p = (adv p (length body + 2), Some body).
Proof.
  intros E Hb. pose proof (rest_bump _ _ _ E) as Eb. unfold scan_string.
  rewrite (string_loop_eq body (bump p) t) by (done || (pose proof (rest_length_le (bump p)); simpl in *; lia)).
  rewrite Nat.add_sub_swap, Nat.sub_diag by lia. rewrite Nat.add_0_l, (slice (bump p) body (quote :: t)) by done.
  rewrite bump_adv, adv_adv. do 2 f_equal. lia.
Qed.

Lemma scan_string_some p p' raw u :
  rest p = quote :: u -> scan_string p = (p', Some raw) ->
  exists t, rest p = quote :: raw ++ quote :: t /\ string_body raw /\ p' = adv p (length raw + 2).
Proof.
  intros E H. pose proof H as H'. unfold scan_string in H.
  apply string_loop_some in H as (body & t & Eb & Hb). rewrite (rest_bump _ _ _ E) in Eb. subst u.
  rewrite (scan_string_eq p body t) in H' by done. simplify_eq. eauto.
Qed.

(** ** Numbers *)

Lemma number_event_eq p a t :
  rest p = a ++ t -> number_event (adv p (length a)) (pos_ p) = (adv p (length a), Event number a).
Proof.
  intros E. unfold number_event. simpl. rewrite Nat.add_sub_swap, Nat.sub_diag, Nat.add_0_l by lia.
  by rewrite (slice p a t).
Qed.

Lemma delimited_digit t : delimited t -> stops is_digit t.
Proof. destruct t; [done|]. by intros []. Qed.

Lemma exponent_stops e t : exponent_part e -> delimited t -> stops is_digit (e ++ t).
Proof. destruct 1 as [|? ? ? [-> | ->]]; [apply delimited_digit|done..]. Qed.

Lemma fraction_stops f e t :
  fraction_part f -> exponent_part e -> delimited t -> stops is_digit (f ++ e ++ t).
Proof. destruct 1; [apply exponent_stops|done]. Qed.

Lemma digits_head t : all_digits t -> t <> [] -> exists d u, t = d :: u /\ is_digit d = true.
Proof. destruct t as [|d u]; [done|]. intros H _. apply Forall_cons in H as [? _]. eauto. Qed.

Lemma peek_digit p : is_digit (peek p) = true -> exists d t, rest p = d :: t /\ is_digit d = true.
Proof.
  intros H. unfold peek in H. rewrite current_rest in H. destruct (rest p) as [|d t]; simpl in H; [done|eauto].
Qed.

(** A run of digits at the cursor. *)
Lemma skip_digits_some p :
  is_digit (peek p) = true ->
  exists a b, rest p = a ++ b /\ all_digits a /\ a <> [] /\ skip_digits p = adv p (length a) /\ rest (adv p (length a)) = b.
Proof.
  intros H. apply peek_digit in H as (d & t & E & Hd).
  destruct (skip_digits_spec p) as (a & b & E' & Ha & Hb & -> & Er). exists a, b. split_and!; try done.
  intros ->. simpl in E'. rewrite <- E', E in Hb. simpl in Hb. congruence.
Qed.

Section number_at.
Context (p0 : parser).

Lemma scan_exponent_eq a e t :
  rest p0 = a ++ e ++ t -> exponent_part e -> delimited t ->
  scan_exponent (adv p0 (length a)) (pos_ p0) = (adv p0 (length (a ++ e)), Event number (a ++ e)).
Proof.
  intros E He Ht. unfold scan_exponent. pose proof (rest_adv_app _ _ _ E) as Ea.
  destruct He as [|x sign ds Hx Hsign Hds Hne].
  - rewrite app_nil_r in *. simpl in Ea. rewrite (number_event_eq p0 a t) by done.
    destruct t as [|c t]; [unfold peek; by rewrite current_rest, Ea|].
    rewrite (peek_rest _ _ _ Ea). destruct Ht as (_ & _ & ? & ?).
    destruct (Ascii.eqb_spec c "e"); [done|]. by destruct (Ascii.eqb_spec c "E").
  - rewrite (peek_rest _ _ _ Ea).
    assert (Ascii.eqb x "e" || Ascii.eqb x "E" = true) as -> by (by destruct Hx as [-> | ->]).
    rewrite bump_of_adv.
    set (p1 := adv p0 (S (length a))).
    assert (rest p1 = sign ++ ds ++ t) as E1.
    { unfold p1. rewrite <- bump_of_adv. simpl in Ea. rewrite <- app_assoc in Ea. by apply rest_bump in Ea. }
    destruct (digits_head ds Hds Hne) as (d & u & -> & Hd).
    assert ((if Ascii.eqb (peek p1) "+" || Ascii.eqb (peek p1) "-" then bump p1 else p1) = adv p1 (length sign)) as ->.
    { destruct Hsign as [-> | [-> | ->]]; simpl in E1; rewrite (peek_rest _ _ _ E1); simpl; rewrite ?bump_adv, ?adv_0; try done.
      destruct (Ascii.eqb_spec d "+") as [->|]; [done|]. by destruct (Ascii.eqb_spec d "-") as [->|]. }
    pose proof (rest_adv_app _ _ _ E1) as E2. rewrite (peek_rest _ _ _ E2), Hd. simpl negb. cbv iota.
    rewrite (skip_digits_eq _ (d :: u) t E2 Hds) by by apply delimited_digit.
    unfold p1. rewrite !adv_adv.
    replace (S (length a) + (length sign + length (d :: u))) with (length (a ++ x :: sign ++ d :: u))
      by (rewrite length_app; simpl; rewrite length_app; simpl; lia).
    by apply (number_event_eq p0 _ t); rewrite <- app_assoc.
Qed.

Lemma scan_exponent_some a r p' ev :
  rest p0 = a ++ r -> scan_exponent (adv p0 (length a)) (pos_ p0) = (p', ev) -> ev <> bare error ->
  exists e t, r = e ++ t /\ exponent_part e /\ p' = adv p0 (length (a ++ e)) /\ ev = Event number (a ++ e).
Proof.
  intros E H Hne. unfold scan_exponent in H. pose proof (rest_adv_app _ _ _ E) as Ea.
  set (p := adv p0 (length a)) in *.
  destruct (Ascii.eqb (peek p) "e" || Ascii.eqb (peek p) "E") eqn:Ex.
  - assert (exists x u, r = x :: u /\ (x = "e"%char \/ x = "E"%char)) as (x & u & -> & Hx).
    { apply orb_true_iff in Ex as [Ex|Ex]; apply Ascii.eqb_eq in Ex; apply peek_not in Ex as [u Eu]; try done;
        rewrite Eu in Ea; subst r; eauto. }
    apply rest_bump in Ea. set (p1 := bump p) in *.
    assert (exists sign, (sign = [] \/ sign = ["+"%char] \/ sign = ["-"%char]) /\ (exists u', u = sign ++ u') /\
      (if Ascii.eqb (peek p1) "+" || Ascii.eqb (peek p1) "-" then bump p1 else p1) = adv p1 (length sign)) as
      (sign & Hs & [u' ->] & Hp1).
    { destruct (Ascii.eqb_spec (peek p1) "+") as [Ep|_]; [|destruct (Ascii.eqb_spec (peek p1) "-") as [Ep|_]]; simpl.
      - apply peek_not in Ep as [t Et]; [|done]. rewrite Et in Ea. subst u. exists ["+"%char]. rewrite bump_adv. eauto 6.
      - apply peek_not in Ep as [t Et]; [|done]. rewrite Et in Ea. subst u. exists ["-"%char]. rewrite bump_adv. eauto 6.
      - exists []. rewrite adv_0. eauto. }
    rewrite Hp1 in H. pose proof (rest_adv_app _ _ _ Ea) as E2.
    destruct (is_digit (peek (adv p1 (length sign)))) eqn:Ed; simpl in H; [|unfold make_error in H; by simplify_eq].
    apply skip_digits_some in Ed as (ds & t & Eds & Hds & Hn & Hsk & _). rewrite Hsk, E2 in *. subst u'.
    exists (x :: sign ++ ds), t. unfold p1, p in H. rewrite bump_of_adv, !adv_adv in H.
    replace (S (length a) + (length sign + length ds)) with (length (a ++ x :: sign ++ ds)) in H
      by (rewrite length_app; simpl; rewrite length_app; simpl; lia).
    rewrite (number_event_eq p0 _ t) in H by (by rewrite E; lists). simplify_eq.
    split_and!; [lists|by constructor|done|done].
  - exists [], r. unfold p in H. rewrite (number_event_eq p0 _ r) in H by done. simplify_eq. rewrite app_nil_r.
    split_and!; try done. constructor.
Qed.

Lemma scan_fraction_eq a f e t :
  rest p0 = a ++ f ++ e ++ t -> fraction_part f -> exponent_part e -> delimited t ->
  scan_fraction (adv p0 (length a)) (pos_ p0) = (adv p0 (length (a ++ f ++ e)), Event number (a ++ f ++ e)).
Proof.
  intros E Hf He Ht. unfold scan_fraction. pose proof (rest_adv_app _ _ _ E) as Ea.
  destruct Hf as [|ds Hds Hne].
  - simpl in *. replace (Ascii.eqb (peek (adv p0 (length a))) ".") with false; [by apply (scan_exponent_eq a e t)|].
    symmetry. unfold peek. rewrite current_rest, Ea. destruct He as [|x sign ds [-> | ->]]; [|done..].
    destruct t as [|c t]; [done|]. destruct Ht as (_ & Hc & _). simpl. by destruct (Ascii.eqb_spec c ".").
  - simpl in Ea. rewrite (peek_rest _ _ _ Ea). change (Ascii.eqb "." ".") with true. cbv iota.
    apply rest_bump in Ea. rewrite bump_of_adv in *.
    destruct (digits_head ds Hds Hne) as (d & u & -> & Hd). rewrite (peek_rest _ _ _ Ea), Hd. simpl negb. cbv iota.
    rewrite (skip_digits_eq _ (d :: u) (e ++ t) Ea Hds) by by apply exponent_stops.
    rewrite adv_adv. replace (S (length a) + length (d :: u)) with (length (a ++ "."%char :: d :: u))
      by (rewrite length_app; simpl; lia).
    rewrite (scan_exponent_eq _ e t) by (try done; rewrite E; lists). do 2 f_equal; [f_equal; lists|lists].
Qed.

Lemma scan_fraction_some a r p' ev :
  rest p0 = a ++ r -> scan_fraction (adv p0 (length a)) (pos_ p0) = (p', ev) -> ev <> bare error ->
  exists f e t, r = f ++ e ++ t /\ fraction_part f /\ exponent_part e /\
    p' = adv p0 (length (a ++ f ++ e)) /\ ev = Event number (a ++ f ++ e).
Proof.
  intros E H Hne. unfold scan_fraction in H. pose proof (rest_adv_app _ _ _ E) as Ea.
  destruct (Ascii.eqb_spec (peek (adv p0 (length a))) ".") as [Ep|Ep].
  - apply peek_not in Ep as [u Eu]; [|done]. rewrite Eu in Ea. subst r. apply rest_bump in Eu.
    rewrite bump_of_adv in *.
    destruct (is_digit (peek (adv p0 (S (length a))))) eqn:Ed; simpl in H; [|unfold make_error in H; by simplify_eq].
    apply skip_digits_some in Ed as (ds & t & Eds & Hds & Hn & Hsk & _). rewrite Hsk, adv_adv in H.
    rewrite Eu in Eds. subst u.
    replace (S (length a) + length ds) with (length (a ++ "."%char :: ds)) in H by (rewrite length_app; simpl; lia).
    apply (scan_exponent_some _ t) in H as (e & t' & -> & He & -> & ->); [|by rewrite E; lists|done].
    exists ("."%char :: ds), e, t'. split_and!; try done; [by constructor|f_equal; f_equal; lists|f_equal; lists].
  - apply (scan_exponent_some _ r) in H as (e & t' & -> & He & -> & ->); [|done|done].
    exists [], e, t'. split_and!; try done. constructor.
Qed.
End number_at.

Lemma scan_number_eq p n t :
  rest p = n ++ t -> number_literal n -> delimited t -> scan_number p = (adv p (length n), Event number n).
Proof.
  intros E Hn Ht. destruct Hn as [sign i f e Hs Hi Hf He]. rewrite <- !app_assoc in E. unfold scan_number.
  assert ((if Ascii.eqb (peek p) "-" then bump p else p) = adv p (length sign)) as ->.
  { destruct Hs as [-> | ->]; simpl in E.
    - rewrite adv_0. replace (Ascii.eqb (peek p) "-") with false; [done|]. symmetry.
      destruct Hi as [|d ds Hd]; rewrite (peek_rest _ _ _ E); [done|]. by destruct (Ascii.eqb_spec d "-") as [->|].
    - rewrite (peek_rest _ _ _ E). by rewrite bump_adv. }
  pose proof (rest_adv_app _ _ _ E) as Ea. rewrite app_assoc in E.
  destruct Hi as [|d ds Hd Hd0 Hds]; simpl in Ea; rewrite (peek_rest _ _ _ Ea).
  - change (Ascii.eqb "0" "0") with true. cbv iota. rewrite bump_of_adv.
    replace (S (length sign)) with (length (sign ++ ["0"%char])) by (rewrite length_app; simpl; lia).
    rewrite (scan_fraction_eq p _ f e t) by done. by rewrite <- app_assoc.
  - destruct (Ascii.eqb_spec d "0"); [done|]. rewrite Hd.
    rewrite (skip_digits_eq _ (d :: ds) (f ++ e ++ t)); [|done|by constructor|by apply fraction_stops].
    rewrite adv_adv, <- length_app. rewrite (scan_fraction_eq p _ f e t) by done. by rewrite <- app_assoc.
Qed.

Lemma scan_number_some p p' ev :
  scan_number p = (p', ev) -> ev <> bare error ->
  exists n t, rest p = n ++ t /\ number_literal n /\ p' = adv p (length n) /\ ev = Event number n.
Proof.
  intros H Hne. unfold scan_number in H.
  assert (exists sign, (sign = [] \/ sign = ["-"%char]) /\ (exists u, rest p = sign ++ u) /\
    (if Ascii.eqb (peek p) "-" then bump p else p) = adv p (length sign)) as (sign & Hs & [u E] & Hp).
  { destruct (Ascii.eqb_spec (peek p) "-") as [Ep|_].
    - apply peek_not in Ep as [u Eu]; [|done]. exists ["-"%char]. rewrite bump_adv. split_and!; [by right|by exists u|done].
    - exists []. rewrite adv_0. eauto. }
  rewrite Hp in H. pose proof (rest_adv_app _ _ _ E) as Ea. clear Hp.
  assert (exists i v, u = i ++ v /\ integer_part i /\ scan_fraction (adv p (length (sign ++ i))) (pos_ p) = (p', ev))
    as (i & v & -> & Hi & H').
  { destruct (Ascii.eqb_spec (peek (adv p (length sign))) "0") as [Ep|Ep].
    - apply peek_not in Ep as [v Ev]; [|done]. rewrite Ev in Ea. subst u. exists ["0"%char], v.
      split_and!; [done|constructor|]. rewrite bump_of_adv in H. by rewrite length_app, Nat.add_1_r.
    - destruct (is_digit (peek (adv p (length sign)))) eqn:Ed; [|unfold make_error in H; by simplify_eq].
      pose proof Ed as Ed'. apply skip_digits_some in Ed as (ds & v & Eds & Hds & Hn & Hsk & _).
      rewrite Hsk, adv_adv, <- length_app in H. rewrite Eds in Ea. subst u. exists ds, v. split_and!; [done| |done].
      destruct ds as [|d ds]; [done|]. simpl in Eds. rewrite (peek_rest _ _ _ Eds) in Ep, Ed'.
      apply Forall_cons in Hds as [_ Hds]. by constructor. }
  apply (scan_fraction_some _ _ v) in H' as (f & e & t & -> & Hf & He & -> & ->); [|by rewrite E; lists|done].
  exists (sign ++ i ++ f ++ e), t. rewrite <- !app_assoc. split_and!; try done.
Qed.

(** ** Literals *)

Lemma scan_literal_eq p l t tok :
  rest p = l ++ t -> scan_literal p l tok = (adv p (length l), Event tok l).
Proof. intros E. unfold scan_literal. fold (rest p). by rewrite E, starts_with_app. Qed.

Lemma scan_literal_some p l tok p' ev :
  scan_literal p l tok = (p', ev) -> ev <> bare error ->
  exists t, rest p = l ++ t /\ p' = adv p (length l) /\ ev = Event tok l.
Proof.
  unfold scan_literal. fold (rest p). intros H Hne. destruct (starts_with l (rest p)) eqn:Es.
  - apply starts_with_true in Es as [t Et]. simplify_eq. eauto.
  - unfold make_error in H. by simplify_eq.
Qed.
