(* ===== verification/JsonProofs.v ===== *)
(** * JsonParser accepts exactly the JSON documents

    [next] is matched, call by call, with a step of the machine of JsonGrammar.v ([config_of] is
    the correspondence).  Together with the two lemmas on the machine this gives the theorems:
    the events of an accepted document are the walk of its value, every document within the
    depth limit is accepted, the loop of calls ends within [n + 1] of them, errors latch. *)

From S2P Require Import Prelude StdAlgo Charconv JsonParser JsonGrammar JsonLexer.

(** ** Well-formed parsers and the configurations they stand for *)

Definition wf (M : nat) (p : parser) : Prop :=
  length (stack_ p) = M /\ depth_ p <= M /\ pos_ p <= length (source_ p).

(** The open frames, innermost first. *)
Definition frames (p : parser) : list Frame := rev (take (depth_ p) (stack_ p)).

Definition config_of (p : parser) : config := (rest p, frames p, top_level_started_ p).

(** The parser moved on: same document, same state, strictly further. *)
Definition advances (M : nat) (p p' : parser) : Prop :=
  source_ p' = source_ p /\ state_ p' = state_ p /\ wf M p' /\ pos_ p < pos_ p'.

Definition anything (t : text) : Prop := True.

#[local] Arguments make_error : simpl never.

(** ** Frames *)

Section step.
Context (M : nat).

Lemma length_frames p : wf M p -> length (frames p) = depth_ p.
Proof. intros (Hs & Hd & _). unfold frames. rewrite length_rev, length_take. lia. Qed.

Lemma frames_top p : wf M p -> 0 < depth_ p -> frames p = top p :: rev (take (depth_ p - 1) (stack_ p)).
Proof.
  intros (Hs & Hd & _) Hp. unfold frames, top. destruct (depth_ p) as [|d]; [lia|].
  rewrite Nat.sub_succ, Nat.sub_0_r.
  destruct (lookup_lt_is_Some_2 (stack_ p) d ltac:(lia)) as [f Hf].
  rewrite (take_S_r _ _ _ Hf), rev_unit. by rewrite (list_lookup_total_correct _ _ _ Hf).
Qed.

Lemma frames_set_top p f : wf M p -> 0 < depth_ p -> frames (set_top p f) = f :: rev (take (depth_ p - 1) (stack_ p)).
Proof.
  intros (Hs & Hd & _) Hp. unfold frames, set_top. simpl. destruct (depth_ p) as [|d]; [lia|].
  rewrite Nat.sub_succ, Nat.sub_0_r.
  rewrite (take_S_r _ _ f) by (apply list_lookup_insert_eq; lia). by rewrite rev_unit, take_insert_ge by lia.
Qed.

Lemma wf_set_top p f : wf M p -> wf M (set_top p f).
Proof. intros (Hs & Hd & Hp). unfold wf, set_top. simpl. by rewrite length_insert. Qed.

Lemma adv_pos p a t : wf M p -> rest p = a ++ t -> pos_ p + length a <= length (source_ p).
Proof.
  intros (_ & _ & Hp) E. pose proof (length_rest p) as H. rewrite E, length_app in H. lia.
Qed.

Lemma wf_adv p a t : wf M p -> rest p = a ++ t -> wf M (adv p (length a)).
Proof. intros Hw E. pose proof (adv_pos p a t Hw E). destruct Hw as (? & ? & ?). by split_and!. Qed.

Lemma adv_advances p a t : wf M p -> rest p = a ++ t -> a <> [] -> advances M p (adv p (length a)).
Proof.
  intros Hw E Ha. split_and!; try done; [by eapply wf_adv|]. simpl. destruct a; simpl; [done|lia].
Qed.

Lemma advances_trans p p' p'' : advances M p p' -> advances M p' p'' -> advances M p p''.
Proof. intros (? & ? & _ & ?) (? & ? & ? & ?). split_and!; try done; [congruence..|lia]. Qed.

(** Skipping whitespace first. *)
Lemma skip_advances p w t p' :
  rest p = w ++ t -> wf M p -> advances M (adv p (length w)) p' -> advances M p p'.
Proof.
  intros E Hw (Hs & Hst & Hw' & Hp). split_and!; try done. simpl in Hp. lia.
Qed.

Lemma open_frame_spec p c t object tok :
  wf M p -> rest p = c :: t ->
  if decide (depth_ p < M) then
    exists p', open_frame M p object tok = (p', bare tok) /\ rest p' = t /\
      frames p' = MkFrame object false false :: frames p /\ advances M p p' /\
      top_level_started_ p' = top_level_started_ p
  else (open_frame M p object tok).2 = bare error.
Proof.
  intros Hw E. unfold open_frame. case_decide as Hd; destruct (Nat.leb_spec M (depth_ p)); try lia; [|done].
  eexists. split; [reflexivity|]. pose proof (rest_bump _ _ _ E) as Eb.
  pose proof (adv_pos p [c] t Hw E) as Hpos. simpl in Hpos. destruct Hw as (Hs & Hdd & Hp). split_and!; try done.
  - unfold frames. simpl. rewrite (take_S_r _ _ (MkFrame object false false)) by (apply list_lookup_insert_eq; lia).
    by rewrite rev_unit, take_insert_ge by lia.
  - split_and!; simpl; try done; try lia. split_and!; simpl; [by rewrite length_insert|lia|lia].
Qed.

(** ** Starting a value *)

Lemma start_value_some p p' e :
  wf M p -> start_value M p = (p', e) -> e <> bare error ->
  starts M anything (rest p) (frames p) e (rest p') (frames p') /\ advances M p p' /\
  top_level_started_ p' = top_level_started_ p /\ e <> bare end_.
Proof.
  intros Hw H He. unfold start_value in H. pose proof (length_frames p Hw) as Hlen.
  destruct (skip_whitespace_spec p) as (w & b & E & Hws & Hst & Hsk & Er). rewrite Hsk in *.
  pose proof (wf_adv p w b Hw E) as Hw1. rewrite E.
  enough (starts M anything (w ++ b) (frames (adv p (length w))) e (rest p') (frames p') /\
    advances M (adv p (length w)) p' /\ top_level_started_ p' = top_level_started_ p /\ e <> bare end_) as (? & ? & ? & ?).
  { split_and!; try done. by eapply skip_advances. }
  change (top_level_started_ p) with (top_level_started_ (adv p (length w))).
  set (p1 := adv p (length w)) in *. rewrite current_rest, Er in H.
  change (frames p) with (frames p1) in Hlen. change (depth_ p) with (depth_ p1) in Hlen. clearbody p1. clear p Hw E Hsk.
  destruct b as [|c t]; simpl in H; [unfold make_error in H; by simplify_eq|].
  destruct (Ascii.eqb_spec c "{") as [->|_].
  { pose proof (open_frame_spec p1 _ t true begin_object Hw1 Er) as Ho. rewrite H in Ho.
    case_decide; [|done]. destruct Ho as (q & ? & Er' & Ef & ? & ?). simplify_eq. rewrite Ef.
    split_and!; try done. by constructor; [|lia]. }
  destruct (Ascii.eqb_spec c "[") as [->|_].
  { pose proof (open_frame_spec p1 _ t false begin_array Hw1 Er) as Ho. rewrite H in Ho.
    case_decide; [|done]. destruct Ho as (q & ? & Er' & Ef & ? & ?). simplify_eq. rewrite Ef.
    split_and!; try done. by constructor; [|lia]. }
  destruct (Ascii.eqb_spec c "034") as [->|_].
  { destruct (scan_string p1) as [q [raw|]] eqn:Es; simplify_eq.
    apply (scan_string_some _ _ _ t) in Es as (u & Eu & Hb & ->); [|done].
    rewrite Er in Eu. simplify_eq. replace (length raw + 2) with (length (quote :: raw ++ [quote])) by (simpl; rewrite length_app; simpl; lia).
    assert (rest p1 = (quote :: raw ++ [quote]) ++ u) as Ec by (rewrite Er; lists).
    rewrite (rest_adv_app _ _ _ Ec). split_and!; try done; [by constructor|by eapply adv_advances]. }
  assert (forall l tok, In (l, tok) [($"true", boolean); ($"false", boolean); ($"null", null_value)] ->
    scan_literal p1 l tok = (p', e) ->
    starts M anything (w ++ c :: t) (frames p1) e (rest p') (frames p') /\
    advances M p1 p' /\ top_level_started_ p' = top_level_started_ p1 /\ e <> bare end_) as Hlit.
  { intros l tok Hin Hl. apply scan_literal_some in Hl as (u & Eu & -> & ->); [|done].
    rewrite (rest_adv_app _ _ _ Eu). rewrite <- Er, Eu.
    assert (l <> [] /\ Event tok l <> bare end_) as [? ?] by (by repeat destruct Hin as [Hin|Hin]; simplify_eq).
    split_and!; try done; [|by eapply adv_advances].
    repeat destruct Hin as [Hin|Hin]; simplify_eq; [by apply starts_true|by apply starts_false|by apply starts_null]. }
  destruct (Ascii.eqb_spec c "t") as [->|_]; [by apply (Hlit ($"true") boolean); [simpl; tauto|]|].
  destruct (Ascii.eqb_spec c "f") as [->|_]; [by apply (Hlit ($"false") boolean); [simpl; tauto|]|].
  destruct (Ascii.eqb_spec c "n") as [->|_]; [by apply (Hlit ($"null") null_value); [simpl; tauto|]|].
  destruct (Ascii.eqb c "-" || is_digit c); [|unfold make_error in H; by simplify_eq].
  apply scan_number_some in H as (n & u & Eu & Hn & -> & ->); [|done].
  rewrite (rest_adv_app _ _ _ Eu), <- Er, Eu. split_and!; try done; [by constructor|].
  eapply adv_advances; [done|done|]. intros ->.
  inv Hn as [sign i f x Hs Hi]. destruct sign; [|done]. by destruct Hi.
Qed.

Lemma number_head n : number_literal n -> exists c u, n = c :: u /\ (Ascii.eqb c "-" || is_digit c = true).
Proof.
  destruct 1 as [sign i f x [-> | ->] Hi]; [|by eexists _, _].
  destruct Hi as [|d ds Hd]; eexists _, _; (split; [done|]); [done|]. by rewrite Hd, orb_true_r.
Qed.

Lemma skip_nothing p c t : rest p = c :: t -> is_whitespace c = false -> skip_whitespace p = p.
Proof. intros E Hc. rewrite (skip_whitespace_eq p [] (c :: t)); [apply adv_0|done|constructor|done]. Qed.

Lemma start_value_skip p w c t :
  rest p = w ++ c :: t -> ws w -> is_whitespace c = false -> start_value M p = start_value M (adv p (length w)).
Proof.
  intros E Hw Hc. unfold start_value. rewrite (skip_whitespace_eq p w (c :: t)) by done.
  by rewrite (skip_nothing (adv p (length w)) c t) by (done || by eapply rest_adv_app).
Qed.

(** What a value starts with, past the whitespace. *)
Definition value_at (p : parser) (e : JsonEvent) (t' : text) (fs' : list Frame) : Prop :=
  exists p', start_value M p = (p', e) /\ rest p' = t' /\ frames p' = fs' /\ advances M p p' /\
    top_level_started_ p' = top_level_started_ p.

Lemma value_at_skip p w c t e t' fs' :
  wf M p -> rest p = w ++ c :: t -> ws w -> is_whitespace c = false ->
  value_at (adv p (length w)) e t' fs' -> value_at p e t' fs'.
Proof.
  intros Hw E Hws Hc (p' & Hs & ? & ? & ? & ?). exists p'. rewrite (start_value_skip p w c t) by done.
  split_and!; try done. by eapply skip_advances.
Qed.

Lemma value_at_open p c t object tok :
  wf M p -> depth_ p < M -> rest p = c :: t ->
  (c = "{"%char /\ object = true /\ tok = begin_object) \/ (c = "["%char /\ object = false /\ tok = begin_array) ->
  value_at p (bare tok) t (MkFrame object false false :: frames p).
Proof.
  intros Hw Hd E Hc. pose proof (open_frame_spec p c t object tok Hw E) as Ho. rewrite decide_True in Ho by done.
  destruct Ho as (p' & Ho & ? & ? & ? & ?). exists p'. split_and!; try done. unfold start_value.
  destruct Hc as [(-> & -> & ->)|(-> & -> & ->)]; by rewrite (skip_nothing _ _ _ E), current_rest, E.
Qed.

(** A scanner that consumes [n] and says [e]. *)
Lemma value_at_scan p n t e :
  wf M p -> n <> [] -> rest p = n ++ t -> start_value M p = (adv p (length n), e) ->
  value_at p e t (frames p).
Proof.
  intros Hw Hn E Hs. exists (adv p (length n)). split_and!; try done; [by eapply rest_adv_app|by eapply adv_advances].
Qed.

Lemma value_at_string p raw t :
  wf M p -> rest p = quote :: raw ++ quote :: t -> string_body raw -> value_at p (Event string_ raw) t (frames p).
Proof.
  intros Hw E Hb. apply (value_at_scan p (quote :: raw ++ [quote]) t); [done|done|rewrite E; lists|].
  unfold start_value. rewrite (skip_nothing _ _ _ E), current_rest, E by done. simpl.
  rewrite (scan_string_eq p raw t) by done. do 2 f_equal. rewrite length_app. simpl. lia.
Qed.

Lemma value_at_literal p l t tok :
  wf M p -> rest p = l ++ t -> In (l, tok) [($"true", boolean); ($"false", boolean); ($"null", null_value)] ->
  value_at p (Event tok l) t (frames p).
Proof.
  intros Hw E Hin. apply (value_at_scan p l t); [done|by repeat destruct Hin as [Hin|Hin]; simplify_eq|done|].
  rewrite <- (scan_literal_eq p l t tok) by done.
  unfold start_value. destruct Hin as [Hin|[Hin|[Hin|[]]]]; simplify_eq; simpl in E;
    by rewrite (skip_nothing _ _ _ E), current_rest, E.
Qed.

Lemma number_not_space c : Ascii.eqb c "-" || is_digit c = true -> is_whitespace c = false.
Proof.
  intros Hc. unfold is_whitespace. destruct (Ascii.eqb_spec c " ") as [->|]; [done|].
  destruct (Ascii.eqb_spec c "009") as [->|]; [done|]. destruct (Ascii.eqb_spec c "010") as [->|]; [done|].
  by destruct (Ascii.eqb_spec c "013") as [->|].
Qed.

Lemma value_at_number p n t :
  wf M p -> rest p = n ++ t -> number_literal n -> delimited t -> value_at p (Event number n) t (frames p).
Proof.
  intros Hw E Hn Ht. destruct (number_head n Hn) as (c & u & -> & Hc). apply (value_at_scan p (c :: u) t); [done..|].
  rewrite <- (scan_number_eq p (c :: u) t) by done. unfold start_value. simpl in E.
  rewrite (skip_nothing _ _ _ E (number_not_space c Hc)), current_rest, E. simpl.
  destruct (Ascii.eqb_spec c "{") as [->|_]; [done|]. destruct (Ascii.eqb_spec c "[") as [->|_]; [done|].
  destruct (Ascii.eqb_spec c "034") as [->|_]; [done|]. destruct (Ascii.eqb_spec c "t") as [->|_]; [done|].
  destruct (Ascii.eqb_spec c "f") as [->|_]; [done|]. destruct (Ascii.eqb_spec c "n") as [->|_]; [done|].
  by rewrite Hc.
Qed.

Lemma start_value_eq p e t' fs' :
  wf M p -> starts M delimited (rest p) (frames p) e t' fs' -> value_at p e t' fs'.
Proof.
  intros Hw H. pose proof (length_frames p Hw) as Hlen.
  inv H as [w t fs Hws Hd E Hfs|w t fs Hws Hd E Hfs|w raw t fs Hws Hb E|w t fs Hws E|w t fs Hws E|w t fs Hws E
    |w n t fs Hws Hn Hdel E]; symmetry in E; pose proof (rest_adv_app _ _ _ E) as Ea;
    pose proof (wf_adv _ _ _ Hw E) as Hw1.
  - eapply value_at_skip; [done|done|done|done|].
    change (frames p) with (frames (adv p (length w))).
    eapply (value_at_open _ _ _ true); [done|simpl; lia|done|by left].
  - eapply value_at_skip; [done|done|done|done|].
    change (frames p) with (frames (adv p (length w))).
    eapply (value_at_open _ _ _ false); [done|simpl; lia|done|by right].
  - eapply value_at_skip; [done|done|done|done|]. by apply (value_at_string (adv p (length w))).
  - eapply value_at_skip; [done|done|done|done|].
    apply (value_at_literal (adv p (length w)) ($"true")); [done|done|simpl; tauto].
  - eapply value_at_skip; [done|done|done|done|].
    apply (value_at_literal (adv p (length w)) ($"false")); [done|done|simpl; tauto].
  - eapply value_at_skip; [done|done|done|done|].
    apply (value_at_literal (adv p (length w)) ($"null")); [done|done|simpl; tauto].
  - destruct (number_head n Hn) as (c & u & -> & Hc).
    eapply value_at_skip; [done|exact E|done| |by apply (value_at_number (adv p (length w)) (c :: u))].
    by apply number_not_space.
Qed.

(** ** Keys *)

Lemma top_set_top p f : wf M p -> 0 < depth_ p -> top (set_top p f) = f.
Proof.
  intros (Hs & Hd & _) Hp. unfold top, set_top. simpl. apply list_lookup_total_insert_eq. lia.
Qed.

Lemma frames_tail_set_top p f n : n <= depth_ p - 1 -> take n (stack_ (set_top p f)) = take n (stack_ p).
Proof. intros H. unfold set_top. simpl. by rewrite take_insert_ge. Qed.

(** The parser after a key, [n] characters on. *)
Definition after_key (p : parser) (n : nat) : parser :=
  let p := set_top p (MkFrame (is_object (top p)) true (expect_value (top p))) in
  let p := adv p n in
  set_top p (MkFrame (is_object (top p)) (seen_element (top p)) true).

Lemma after_key_spec p a t :
  wf M p -> 0 < depth_ p -> is_object (top p) = true -> rest p = a ++ t -> a <> [] ->
  rest (after_key p (length a)) = t /\
  frames (after_key p (length a)) = MkFrame true true true :: rev (take (depth_ p - 1) (stack_ p)) /\
  advances M p (after_key p (length a)) /\ top_level_started_ (after_key p (length a)) = top_level_started_ p.
Proof.
  intros Hw Hd Ho E Ha. unfold after_key.
  set (q := set_top p (MkFrame (is_object (top p)) true (expect_value (top p)))).
  assert (wf M q) as Hq by by apply wf_set_top.
  assert (wf M (adv q (length a))) as Hqa by by apply (wf_adv q a t).
  assert (top (adv q (length a)) = MkFrame (is_object (top p)) true (expect_value (top p))) as -> by by apply top_set_top.
  simpl. rewrite Ho. split_and!.
  - by apply (rest_adv_app q a t).
  - rewrite frames_set_top by done. do 2 f_equal. change (depth_ (adv q (length a))) with (depth_ p).
    change (stack_ (adv q (length a))) with (stack_ q). by apply frames_tail_set_top.
  - pose proof (adv_advances q a t Hq E Ha) as (? & ? & ? & ?). split_and!; try done. by apply wf_set_top.
  - done.
Qed.

Lemma object_key_some p p' e :
  wf M p -> 0 < depth_ p -> object_key p = (p', e) -> e <> bare error ->
  exists k w t, rest p = quote :: k ++ quote :: w ++ ":"%char :: t /\ string_body k /\ ws w /\ e = Event key k /\
    p' = after_key p (length (quote :: k ++ quote :: w ++ [":"%char])).
Proof.
  intros Hw Hd H He. unfold object_key in H.
  set (q := set_top p _) in *. change (rest p) with (rest q).
  destruct (Ascii.eqb_spec (peek q) "034") as [Ep|]; simpl in H; [|unfold make_error in H; by simplify_eq].
  apply peek_not in Ep as [u Eu]; [|done].
  destruct (scan_string q) as [q1 [k|]] eqn:Es; [|by simplify_eq].
  apply (scan_string_some _ _ _ u) in Es as (t & Et & Hb & ->); [|done].
  set (n1 := length k + 2) in *.
  assert (rest (adv q n1) = t) as E1.
  { rewrite Et in Eu. rewrite rest_adv, Et. unfold n1. rewrite Nat.add_comm. simpl.
    rewrite <- (Nat.add_1_r (length k)). rewrite <- drop_drop, drop_app_length. done. }
  destruct (skip_whitespace_spec (adv q n1)) as (w & b & Ew & Hws & _ & Hsk & Er). rewrite Hsk in *.
  destruct (Ascii.eqb_spec (peek (adv (adv q n1) (length w))) ":") as [Ec|]; simpl in H;
    [|unfold make_error in H; by simplify_eq].
  apply peek_not in Ec as [t' Et']; [|done]. rewrite Er in Et'. subst b. rewrite E1 in Ew. subst t.
  exists k, w, t'. split_and!; try done; [by rewrite Et, Ew, Et'|by simplify_eq|].
  inv H. rewrite bump_adv, !adv_adv. unfold after_key. fold q.
  replace (n1 + (length w + 1)) with (length (quote :: k ++ quote :: w ++ [":"%char])); [done|].
  unfold n1. simpl. rewrite length_app. simpl. rewrite length_app. simpl. lia.
Qed.

Lemma object_key_eq p k w t :
  wf M p -> 0 < depth_ p -> rest p = quote :: k ++ quote :: w ++ ":"%char :: t -> string_body k -> ws w ->
  object_key p = (after_key p (length (quote :: k ++ quote :: w ++ [":"%char])), Event key k).
Proof.
  intros Hw Hd E Hk Hws. unfold object_key, after_key. set (q := set_top p _). change (rest p) with (rest q) in E.
  rewrite (peek_rest _ _ _ E). simpl negb. cbv iota.
  rewrite (scan_string_eq q k _ E Hk).
  assert (rest q = (quote :: k ++ [quote]) ++ w ++ ":"%char :: t) as E' by (rewrite E; lists).
  apply rest_adv_app in E'. replace (length (quote :: k ++ [quote])) with (length k + 2) in E'
    by (simpl; rewrite length_app; simpl; lia).
  rewrite (skip_whitespace_eq _ w (":"%char :: t)) by done.
  rewrite (peek_rest _ _ _ (rest_adv_app _ _ _ E')). simpl negb. cbv iota.
  rewrite bump_adv, !adv_adv.
  replace (length (quote :: k ++ quote :: w ++ [":"%char])) with (length k + 2 + (length w + 1)); [done|].
  simpl. rewrite length_app. simpl. rewrite length_app. simpl. lia.
Qed.

(** ** One call of [next], inside a container *)

Abbreviation tail_frames p := (rev (take (depth_ p - 1) (stack_ p))).

Lemma config_top p :
  wf M p -> 0 < depth_ p ->
  config_of p = (rest p, MkFrame (is_object (top p)) (seen_element (top p)) (expect_value (top p)) :: tail_frames p,
    top_level_started_ p).
Proof. intros Hw Hd. unfold config_of. rewrite frames_top by done. by destruct (top p). Qed.

Lemma close_step p w c t tok :
  wf M p -> 0 < depth_ p -> rest p = w ++ c :: t ->
  let p' := (close_frame (bump (adv p (length w))) tok).1 in
  config_of p' = (t, tail_frames p, top_level_started_ p) /\ advances M p p'.
Proof.
  intros Hw Hd E p'. pose proof (rest_adv_app _ _ _ E) as Ea. split.
  - unfold config_of. f_equal. f_equal. by apply (rest_bump _ c).
  - assert (rest p = (w ++ [c]) ++ t) as E' by (rewrite E; lists).
    pose proof (adv_pos _ _ _ Hw E') as Hp. rewrite length_app in Hp. simpl in Hp.
    destruct Hw as (? & ? & ?). split_and!; simpl; try done; try lia. split_and!; simpl; try done; lia.
Qed.

Lemma key_step p p' e a :
  wf M p -> 0 < depth_ p -> is_object (top p) = true -> (exists b, rest p = a ++ b) ->
  object_key (adv p (length a)) = (p', e) -> e <> bare error ->
  exists k w t, rest p = a ++ quote :: k ++ quote :: w ++ ":"%char :: t /\ string_body k /\ ws w /\ e = Event key k /\
    config_of p' = (t, MkFrame true true true :: tail_frames p, top_level_started_ p) /\ advances M p p'.
Proof.
  intros Hw Hd Ho [b E] H He. pose proof (wf_adv _ _ _ Hw E) as Hw1.
  apply object_key_some in H as (k & w & t & Ek & Hk & Hws & -> & ->); [|done..].
  exists k, w, t. pose proof (rest_adv_app _ _ _ E) as Ea. rewrite Ek in Ea. subst b.
  edestruct (after_key_spec (adv p (length a)) (quote :: k ++ quote :: w ++ [":"%char]) t Hw1) as (Er & Ef & Had & Hst);
    [done|done|by rewrite Ek; lists|done|].
  split_and!; try done.
  - unfold config_of. by rewrite Er, Ef, Hst.
  - by eapply skip_advances.
Qed.

Lemma next_in_object_some p p' e :
  wf M p -> 0 < depth_ p -> is_object (top p) = true -> next_in_object M p = (p', e) -> e <> bare error ->
  mstep M anything (config_of p) e (config_of p') /\ advances M p p' /\ e <> bare end_.
Proof.
  intros Hw Hd Ho H He. rewrite (config_top p Hw Hd), Ho. unfold next_in_object in H. rewrite Ho in H.
  destruct (expect_value (top p)) eqn:Ev.
  { set (q := set_top p _) in *. assert (wf M q) as Hq by by apply wf_set_top.
    destruct (start_value_some q p' e Hq H He) as (Hs & Ha & Hst & Hne). split_and!; try done.
    unfold config_of. rewrite Hst. apply m_member_value. unfold q in Hs. by rewrite frames_set_top in Hs. }
  destruct (skip_whitespace_spec p) as (w & b & E & Hws & _ & Hsk & Er). rewrite Hsk in *.
  change (top (adv p (length w))) with (top p) in H.
  destruct (Ascii.eqb_spec (peek (adv p (length w))) "}") as [Ep|_].
  { apply peek_not in Ep as [t Et]; [|done]. rewrite Et in Er. subst b.
    destruct (close_step p w _ t end_object Hw Hd E) as [Hc Ha]. rewrite H in Hc, Ha. simpl in Hc, Ha.
    inv H. rewrite Hc, E. split_and!; try done. by constructor. }
  destruct (seen_element (top p)) eqn:Es.
  - destruct (Ascii.eqb_spec (peek (adv p (length w))) ",") as [Ep|_]; simpl in H; [|unfold make_error in H; by simplify_eq].
    apply peek_not in Ep as [t Et]; [|done]. rewrite Et in Er. subst b.
    destruct (skip_whitespace_spec (bump (adv p (length w)))) as (w1 & b & E1 & Hws1 & _ & Hsk1 & Er1).
    rewrite Hsk1 in H. rewrite (rest_bump _ _ _ Et) in E1. subst t.
    destruct (Ascii.eqb_spec (peek (adv (bump (adv p (length w))) (length w1))) "}"); [unfold make_error in H; by simplify_eq|].
    rewrite bump_of_adv, adv_adv in H.
    replace (S (length w) + length w1) with (length (w ++ ","%char :: w1)) in H by (rewrite length_app; simpl; lia).
    apply key_step in H as (k & w2 & t & Ek & Hk & Hw2 & -> & Hc & Ha); try done; [|exists b; rewrite E; lists].
    rewrite Hc, Ek. split_and!; try done. rewrite <- app_assoc. simpl. by constructor.
  - apply key_step in H as (k & w2 & t & Ek & Hk & Hw2 & -> & Hc & Ha); try done; [|by exists b].
    rewrite Hc, Ek. split_and!; try done. by constructor.
Qed.

Lemma starts_prefix (P : text -> Prop) w t fs e t' fs' :
  ws w -> starts M P t fs e t' fs' -> starts M P (w ++ t) fs e t' fs'.
Proof. intros Hw H. inv H; rewrite app_assoc; constructor; try done; by apply Forall_app. Qed.

Lemma element_step p p' e a b :
  wf M p -> 0 < depth_ p -> is_object (top p) = false -> rest p = a ++ b ->
  array_element M (adv p (length a)) = (p', e) -> e <> bare error ->
  starts M anything b (MkFrame false true (expect_value (top p)) :: tail_frames p) e (rest p') (frames p') /\
    advances M p p' /\ top_level_started_ p' = top_level_started_ p /\ e <> bare end_.
Proof.
  intros Hw Hd Ho E H He. unfold array_element in H. pose proof (wf_adv _ _ _ Hw E) as Hw1.
  set (q := set_top (adv p (length a)) _) in *. assert (wf M q) as Hq by by apply wf_set_top.
  destruct (start_value_some q p' e Hq H He) as (Hs & Ha & Hst & Hne). split_and!; try done.
  - change (rest q) with (rest (adv p (length a))) in Hs. rewrite (rest_adv_app _ _ _ E) in Hs.
    unfold q in Hs. rewrite frames_set_top in Hs by done. change (top (adv p (length a))) with (top p) in Hs.
    by rewrite Ho in Hs.
  - eapply skip_advances; [done|done|]. by destruct Ha as (? & ? & ? & ?).
Qed.

Lemma next_in_array_some p p' e :
  wf M p -> 0 < depth_ p -> is_object (top p) = false -> next_in_array M p = (p', e) -> e <> bare error ->
  mstep M anything (config_of p) e (config_of p') /\ advances M p p' /\ e <> bare end_.
Proof.
  intros Hw Hd Ho H He. rewrite (config_top p Hw Hd), Ho. unfold next_in_array in H.
  destruct (skip_whitespace_spec p) as (w & b & E & Hws & _ & Hsk & Er). rewrite Hsk in *.
  change (top (adv p (length w))) with (top p) in H.
  destruct (Ascii.eqb_spec (peek (adv p (length w))) "]") as [Ep|_].
  { apply peek_not in Ep as [t Et]; [|done]. rewrite Et in Er. subst b.
    destruct (close_step p w _ t end_array Hw Hd E) as [Hc Ha]. rewrite H in Hc, Ha. simpl in Hc, Ha.
    inv H. rewrite Hc, E. split_and!; try done. by constructor. }
  destruct (seen_element (top p)) eqn:Es.
  - destruct (Ascii.eqb_spec (peek (adv p (length w))) ",") as [Ep|_]; simpl in H; [|unfold make_error in H; by simplify_eq].
    apply peek_not in Ep as [t Et]; [|done]. rewrite Et in Er. subst b.
    destruct (skip_whitespace_spec (bump (adv p (length w)))) as (w1 & b & E1 & Hws1 & _ & Hsk1 & Er1).
    rewrite Hsk1 in H. rewrite (rest_bump _ _ _ Et) in E1. subst t.
    destruct (Ascii.eqb_spec (peek (adv (bump (adv p (length w))) (length w1))) "]"); [unfold make_error in H; by simplify_eq|].
    rewrite bump_of_adv, adv_adv in H.
    replace (S (length w) + length w1) with (length (w ++ ","%char :: w1)) in H by (rewrite length_app; simpl; lia).
    apply (element_step p p' e _ b) in H as (Hs & Ha & Hst & Hne); try done; [|rewrite E; lists].
    split_and!; try done. unfold config_of. rewrite E, Hst. constructor; [done|]. by apply starts_prefix.
  - apply (element_step p p' e _ b) in H as (Hs & Ha & Hst & Hne); try done.
    split_and!; try done. unfold config_of. rewrite E, Hst. constructor. by apply starts_prefix.
Qed.

Lemma next_some p p' e :
  wf M p -> state_ p = running -> next M p = (p', e) -> e <> bare error ->
  (e = bare end_ /\ state_ p' = finished /\ exists w, ws w /\ config_of p = (w, [], true)) \/
  (mstep M anything (config_of p) e (config_of p') /\ advances M p p' /\ e <> bare end_).
Proof.
  intros Hw Hr H He. unfold next in H. rewrite Hr in H. destruct (decide (depth_ p = 0)) as [Hd|Hd].
  - assert (frames p = []) as Hf by (unfold frames; by rewrite Hd).
    destruct (top_level_started_ p) eqn:Ht; simpl in H.
    + left. destruct (skip_whitespace_spec p) as (w & b & E & Hws & _ & Hsk & Er). rewrite Hsk in H, Er.
      rewrite current_rest, Er in H. destruct b as [|c b]; simpl in H; [|unfold make_error in H; by simplify_eq].
      simplify_eq. split_and!; try done. exists w. split; [done|]. unfold config_of. by rewrite E, Hf, Ht, app_nil_r.
    + right. destruct (start_value_some (set_started p) p' e) as (Hs & Ha & Hst & Hne); try done.
      split_and!; try done. unfold config_of. rewrite Hf, Ht, Hst. apply m_top. by change (frames (set_started p)) with (frames p) in Hs; rewrite Hf in Hs.
  - right. destruct (is_object (top p)) eqn:Ho; [apply next_in_object_some|apply next_in_array_some]; (done || lia).
Qed.

(** ** The converse: every step of the machine is a call of [next] *)

Lemma frames_cons p f fs : wf M p -> frames p = f :: fs -> 0 < depth_ p /\ top p = f /\ tail_frames p = fs.
Proof.
  intros Hw E. assert (0 < depth_ p) as Hd.
  { pose proof (length_frames p Hw) as H. rewrite E in H. simpl in H. lia. }
  rewrite frames_top in E by done. by simplify_eq.
Qed.

Definition next_does (p : parser) (e : JsonEvent) (c : config) : Prop :=
  exists p', next M p = (p', e) /\ config_of p' = c /\ advances M p p'.

Lemma next_container p :
  state_ p = running -> 0 < depth_ p -> next M p = if is_object (top p) then next_in_object M p else next_in_array M p.
Proof. intros Hr Hd. unfold next. rewrite Hr. by rewrite decide_False by lia. Qed.

Lemma value_at_set_top p f e t' fs' :
  wf M p -> 0 < depth_ p -> starts M delimited (rest p) (f :: tail_frames p) e t' fs' ->
  exists p', start_value M (set_top p f) = (p', e) /\ config_of p' = (t', fs', top_level_started_ p) /\ advances M p p'.
Proof.
  intros Hw Hd H. destruct (start_value_eq (set_top p f) e t' fs') as (p' & Hs & <- & <- & Ha & Hst).
  - by apply wf_set_top.
  - by rewrite frames_set_top.
  - exists p'. split_and!; try done. unfold config_of. by rewrite Hst.
Qed.

Lemma not_space_delimiter c : In c [","; "}"; "]"; ":"]%char -> is_whitespace c = false.
Proof. intros H. repeat destruct H as [<-|H]; done. Qed.

Lemma next_end_array p w t :
  wf M p -> 0 < depth_ p -> is_object (top p) = false -> state_ p = running -> rest p = w ++ "]"%char :: t -> ws w ->
  next_does p (bare end_array) (t, tail_frames p, top_level_started_ p).
Proof.
  intros Hw Hd Ho Hr E Hws. unfold next_does. rewrite next_container, Ho by done. unfold next_in_array.
  rewrite (skip_whitespace_eq p w _ E) by done. pose proof (rest_adv_app _ _ _ E) as Ea.
  rewrite (peek_rest _ _ _ Ea). destruct (close_step p w _ t end_array Hw Hd E) as [Hc Ha]. eauto.
Qed.

Lemma next_end_object p w t :
  wf M p -> 0 < depth_ p -> is_object (top p) = true -> expect_value (top p) = false -> state_ p = running ->
  rest p = w ++ "}"%char :: t -> ws w -> next_does p (bare end_object) (t, tail_frames p, top_level_started_ p).
Proof.
  intros Hw Hd Ho Hx Hr E Hws. unfold next_does. rewrite next_container, Ho by done. unfold next_in_object. rewrite Hx.
  rewrite (skip_whitespace_eq p w _ E) by done. pose proof (rest_adv_app _ _ _ E) as Ea.
  rewrite (peek_rest _ _ _ Ea). destruct (close_step p w _ t end_object Hw Hd E) as [Hc Ha]. eauto.
Qed.

(** Past the comma and the whitespace after it. *)
Lemma skip_comma p w w1 c t :
  rest p = w ++ ","%char :: w1 ++ c :: t -> ws w1 -> is_whitespace c = false ->
  skip_whitespace (bump (adv p (length w))) = adv p (length (w ++ ","%char :: w1)) /\
  rest (adv p (length (w ++ ","%char :: w1))) = c :: t.
Proof.
  intros E Hw1 Hc. pose proof (rest_adv_app _ _ _ E) as Ea. apply rest_bump in Ea.
  rewrite (skip_whitespace_eq _ w1 (c :: t)) by done. split.
  - rewrite bump_of_adv, adv_adv. f_equal. rewrite length_app. simpl. lia.
  - apply rest_adv_app. rewrite E. lists.
Qed.

Lemma key_does p a k w t :
  wf M p -> 0 < depth_ p -> is_object (top p) = true ->
  rest p = a ++ quote :: k ++ quote :: w ++ ":"%char :: t -> string_body k -> ws w ->
  exists p', object_key (adv p (length a)) = (p', Event key k) /\
    config_of p' = (t, MkFrame true true true :: tail_frames p, top_level_started_ p) /\ advances M p p'.
Proof.
  intros Hw Hd Ho E Hk Hws. pose proof (rest_adv_app _ _ _ E) as Ea. pose proof (wf_adv _ _ _ Hw E) as Hw1.
  pose proof (object_key_eq (adv p (length a)) k w t Hw1 Hd Ea Hk Hws) as H.
  eexists. split; [exact H|].
  destruct (after_key_spec (adv p (length a)) (quote :: k ++ quote :: w ++ [":"%char]) t Hw1) as (Er & Ef & Had & Hst);
    [done|done|rewrite Ea; lists|done|].
  split; [unfold config_of; by rewrite Er, Ef, Hst|by eapply skip_advances].
Qed.

Lemma skip_then_set_top p f : start_value M (set_top (skip_whitespace p) f) = start_value M (set_top p f).
Proof.
  destruct (skip_whitespace_spec p) as (w & b & E & Hws & Hst & Hsk & Er).
  unfold start_value. rewrite (skip_whitespace_eq (set_top p f) w b) by done.
  change (adv (set_top p f) (length w)) with (set_top (adv p (length w)) f). rewrite <- Hsk.
  rewrite (skip_whitespace_eq (set_top (skip_whitespace p) f) [] b) by (done || constructor).
  simpl length. by rewrite adv_0.
Qed.

Lemma starts_head (P : text -> Prop) t fs e t' fs' :
  starts M P t fs e t' fs' ->
  exists w c u, t = w ++ c :: u /\ ws w /\ is_whitespace c = false /\ Ascii.eqb c "]" = false /\ Ascii.eqb c "}" = false.
Proof.
  destruct 1 as [w|w|w|w|w|w|w n t fs Hws Hn]; try by (eexists w, _, _; split_and!).
  destruct (number_head n Hn) as (c & u & -> & Hc). exists w, c, (u ++ t). split_and!; try done.
  - by apply number_not_space.
  - by destruct (Ascii.eqb_spec c "]") as [->|].
  - by destruct (Ascii.eqb_spec c "}") as [->|].
Qed.

Lemma next_first_element p x t' fs' e :
  wf M p -> state_ p = running -> 0 < depth_ p -> top p = MkFrame false false x ->
  starts M delimited (rest p) (MkFrame false true x :: tail_frames p) e t' fs' ->
  next_does p e (t', fs', top_level_started_ p).
Proof.
  intros Hw Hr Hd Ht H. unfold next_does. rewrite next_container, Ht by done. simpl. unfold next_in_array.
  destruct (starts_head _ _ _ _ _ _ H) as (w & c & u & E & Hws & Hc & Hb & _).
  assert (skip_whitespace p = adv p (length w)) as Hsk by (by apply (skip_whitespace_eq p w (c :: u))).
  assert (top (skip_whitespace p) = top p) as Htop by (by rewrite Hsk).
  assert (peek (skip_whitespace p) = c) as -> by (rewrite Hsk; by apply (peek_rest _ _ u), rest_adv_app).
  rewrite Hb, Htop, Ht. simpl. unfold array_element. rewrite Htop, Ht. simpl.
  rewrite skip_then_set_top. by apply value_at_set_top.
Qed.

Lemma next_next_element p w t x t' fs' e :
  wf M p -> state_ p = running -> 0 < depth_ p -> top p = MkFrame false true x ->
  rest p = w ++ ","%char :: t -> ws w ->
  starts M delimited t (MkFrame false true x :: tail_frames p) e t' fs' ->
  next_does p e (t', fs', top_level_started_ p).
Proof.
  intros Hw Hr Hd Ht E Hws H. unfold next_does. rewrite next_container, Ht by done. simpl. unfold next_in_array.
  rewrite (skip_whitespace_eq p w _ E) by done. pose proof (rest_adv_app _ _ _ E) as Ea.
  rewrite (peek_rest _ _ _ Ea). change (top (adv p (length w))) with (top p). rewrite Ht. simpl.
  destruct (starts_head _ _ _ _ _ _ H) as (w1 & c & u & -> & Hw1 & Hc & Hb & _).
  destruct (skip_comma p w w1 c u E Hw1 Hc) as [Hsk Er].
  assert (peek (skip_whitespace (bump (adv p (length w)))) = c) as -> by (rewrite Hsk; by apply (peek_rest _ _ u)).
  assert (top (skip_whitespace (bump (adv p (length w)))) = top p) as Htop by (by rewrite Hsk).
  rewrite Hb. unfold array_element. rewrite Htop, Ht. simpl. rewrite skip_then_set_top.
  assert (rest p = (w ++ [","%char]) ++ w1 ++ c :: u) as E' by (rewrite E; lists).
  pose proof (wf_adv _ _ _ Hw E') as Hwb. rewrite length_app, Nat.add_1_r, <- bump_of_adv in Hwb.
  destruct (value_at_set_top (bump (adv p (length w))) (MkFrame false true x) e t' fs') as (p' & Hs & Hc' & Ha);
    [done|done|by rewrite (rest_bump _ _ _ Ea)|].
  exists p'. split_and!; try done. destruct Ha as (? & ? & ? & Hp). split_and!; try done. simpl in Hp. lia.
Qed.

Lemma next_first_key p w k w' t :
  wf M p -> state_ p = running -> 0 < depth_ p -> top p = MkFrame true false false ->
  rest p = w ++ quote :: k ++ quote :: w' ++ ":"%char :: t -> ws w -> string_body k -> ws w' ->
  next_does p (Event key k) (t, MkFrame true true true :: tail_frames p, top_level_started_ p).
Proof.
  intros Hw Hr Hd Ht E Hws Hk Hw'. unfold next_does. rewrite next_container, Ht by done. simpl. unfold next_in_object.
  rewrite Ht. simpl. rewrite (skip_whitespace_eq p w _ E) by done. rewrite (peek_rest _ _ _ (rest_adv_app _ _ _ E)).
  change (top (adv p (length w))) with (top p). rewrite Ht. simpl. apply (key_does p w k w' t); try done. by rewrite Ht.
Qed.

Lemma next_next_key p w w1 k w' t :
  wf M p -> state_ p = running -> 0 < depth_ p -> top p = MkFrame true true false ->
  rest p = w ++ ","%char :: w1 ++ quote :: k ++ quote :: w' ++ ":"%char :: t -> ws w -> ws w1 -> string_body k -> ws w' ->
  next_does p (Event key k) (t, MkFrame true true true :: tail_frames p, top_level_started_ p).
Proof.
  intros Hw Hr Hd Ht E Hws Hw1 Hk Hw'. unfold next_does. rewrite next_container, Ht by done. simpl. unfold next_in_object.
  rewrite Ht. simpl. rewrite (skip_whitespace_eq p w _ E) by done. rewrite (peek_rest _ _ _ (rest_adv_app _ _ _ E)).
  change (top (adv p (length w))) with (top p). rewrite Ht. simpl.
  destruct (skip_comma p w w1 quote _ E Hw1 eq_refl) as [Hsk Er]. rewrite Hsk, (peek_rest _ _ _ Er). simpl.
  apply (key_does p (w ++ ","%char :: w1) k w' t); try done; [by rewrite Ht|rewrite E; lists].
Qed.

Lemma next_eq p e c :
  wf M p -> state_ p = running -> mstep M delimited (config_of p) e c -> next_does p e c.
Proof.
  intros Hw Hr H. unfold config_of in H. pose proof (length_frames p Hw) as Hlen. inv H;
    try (match goal with E : _ :: _ = frames p |- _ => symmetry in E; destruct (frames_cons _ _ _ Hw E) as (Hd & Ht & <-) end);
    try match goal with E : _ = rest p |- _ => symmetry in E end.
  - match goal with E : [] = frames p |- _ => rewrite <- E in Hlen; simpl in Hlen; rename E into Ef end.
    match goal with E : false = _ |- _ => rename E into Es end.
    destruct (start_value_eq (set_started p) e t' fs') as (p' & Hs & <- & <- & Ha & Hst); [done|by rewrite Ef in *|].
    exists p'. split_and!; try done.
    + unfold next. rewrite Hr, decide_True, <- Es by done. done.
    + unfold config_of. by rewrite Hst.
  - match goal with H : starts _ _ _ _ _ _ _ |- _ =>
      destruct (value_at_set_top p _ e t' fs' Hw Hd H) as (p' & Hs & Hc & Ha) end.
    exists p'. split_and!; try done. rewrite next_container, Ht by done. simpl. unfold next_in_object. by rewrite Ht.
  - by eapply next_first_element.
  - by eapply next_next_element.
  - eapply next_end_array; try done. by rewrite Ht.
  - eapply next_end_object; try done; by rewrite Ht.
  - by eapply next_first_key.
  - by eapply next_next_key.
Qed.
End step.

(** ** Errors latch *)

(** An error event is returned only with the error state set. *)
Definition latched (r : parser * JsonEvent) : Prop := r.2 = bare error -> state_ r.1 = errored.

Lemma make_error_state p m : state_ (make_error p m).1 = errored.
Proof. unfold make_error. case_decide as H; [done|]. simpl. destruct (decide (state_ p = errored)); naive_solver. Qed.

Lemma latched_make_error p m : latched (make_error p m).
Proof. intros _. apply make_error_state. Qed.

Lemma four_hex_state n p p' : four_hex n p = (p', false) -> state_ p' = errored.
Proof.
  revert p. induction n as [|n IH]; intros p H; simpl in H; [done|].
  destruct (current p) as [c|]; [destruct (is_hex c); [by apply IH in H|]|]; simplify_eq; apply make_error_state.
Qed.

#[local] Arguments four_hex : simpl never.

Lemma validate_escape_state p p' : validate_escape p = (p', false) -> state_ p' = errored.
Proof.
  unfold validate_escape. intros H. destruct (current (bump p)) as [c|].
  - destruct (is_simple_escape c); [done|]. destruct (Ascii.eqb c "u"); [by apply four_hex_state in H|].
    simplify_eq. apply make_error_state.
  - simplify_eq. apply make_error_state.
Qed.

Lemma string_loop_state fuel open content p p' :
  length (rest p) < fuel -> string_loop fuel open content p = (p', None) -> state_ p' = errored.
Proof.
  revert p. induction fuel as [|fuel IH]; intros p Hl H; [lia|]. cbn [string_loop] in H. rewrite current_rest in H.
  destruct (rest p) as [|c t] eqn:E; cbn [hd_error] in H; [apply pair_equal_spec in H as [<- _]; apply make_error_state|].
  destruct (Ascii.eqb c "034"); [done|]. destruct (Ascii.eqb_spec c "\") as [->|_].
  - destruct (validate_escape p) as [q [|]] eqn:Ev; [|simplify_eq; by apply validate_escape_state in Ev].
    apply (validate_escape_true _ _ t) in Ev as (e & t' & He & E' & ->); [|done].
    apply IH in H; [done|]. rewrite (rest_adv_app _ _ _ E'). rewrite <- E, E', length_app in Hl.
    destruct He; simpl in Hl; lia.
  - destruct (code c <? 32)%Z; [apply pair_equal_spec in H as [<- _]; apply make_error_state|].
    apply IH in H; [done|]. rewrite (rest_bump _ _ _ E). simpl in Hl. lia.
Qed.

Lemma scan_string_state p p' : scan_string p = (p', None) -> state_ p' = errored.
Proof.
  apply string_loop_state. pose proof (rest_length_le (bump p)). simpl in *. lia.
Qed.

(** Case analysis down to the events a scanner can return. *)
Ltac latch := repeat first
  [ apply latched_make_error
  | match goal with
    | |- latched (if ?b then _ else _) => destruct b
    | |- latched (number_event _ _) => discriminate
    | |- latched (_, _) => discriminate
    end ].

Lemma scan_exponent_latched p start : latched (scan_exponent p start).
Proof. unfold scan_exponent. latch. Qed.

Lemma scan_fraction_latched p start : latched (scan_fraction p start).
Proof. unfold scan_fraction. latch; apply scan_exponent_latched. Qed.

Lemma scan_number_latched p : latched (scan_number p).
Proof. unfold scan_number. cbv zeta. latch; apply scan_fraction_latched. Qed.

Lemma scan_literal_latched p l tok : tok <> error -> latched (scan_literal p l tok).
Proof. intros Ht. unfold scan_literal. latch. intros H. unfold bare in H. simpl in H. congruence. Qed.

Lemma start_value_latched M p : latched (start_value M p).
Proof.
  unfold start_value, open_frame. cbv zeta. destruct (current _) as [c|]; [|apply latched_make_error]. latch.
  - destruct (scan_string _) as [q [raw|]] eqn:E; [discriminate|]. intros _. by apply scan_string_state in E.
  - by apply scan_literal_latched.
  - by apply scan_literal_latched.
  - by apply scan_literal_latched.
  - apply scan_number_latched.
Qed.

Lemma object_key_latched p : latched (object_key p).
Proof.
  unfold object_key. cbv zeta. latch. destruct (scan_string _) as [q [raw|]] eqn:E; [latch|].
  intros _. by apply scan_string_state in E.
Qed.

Lemma next_latched M p : latched (next M p).
Proof.
  unfold next, next_in_object, next_in_array, array_element, close_frame. cbv zeta. destruct (state_ p) eqn:E.
  - destruct (decide (depth_ p = 0)).
    + destruct (negb _); [apply start_value_latched|]. destruct (current _); [apply latched_make_error|discriminate].
    + latch; (apply start_value_latched || apply object_key_latched).
  - discriminate.
  - by intros _.
Qed.

(** ** The loop of calls *)

Section drive.
Context (M : nat).

Lemma done_errored p : state_ p = errored -> done_ p = true.
Proof. unfold done_. intros ->. by apply bool_decide_eq_true. Qed.

(** One call from a running parser: the end, an error, or a step that moves on. *)
Lemma next_cases p p' e :
  wf M p -> state_ p = running -> next M p = (p', e) ->
  (done_ p' = true /\ (e = bare end_ \/ e = bare error)) \/
  (done_ p' = false /\ e <> bare error /\ e <> bare end_ /\ wf M p' /\ state_ p' = running /\ length (rest p') < length (rest p)).
Proof.
  intros Hw Hr H. destruct (decide (e = bare error)) as [->|He].
  - left. split; [|by right]. apply done_errored. pose proof (next_latched M p) as Hl. rewrite H in Hl. by apply Hl.
  - destruct (next_some M p p' e Hw Hr H He) as [(-> & Hf & _)|(_ & (Hs & Hst & Hw' & Hp) & Hne)].
    + left. split; [|by left]. unfold done_. rewrite Hf. by apply bool_decide_eq_true.
    + right. rewrite Hr in Hst. unfold done_. rewrite Hst. split_and!; try done.
      rewrite !length_rest, Hs. destruct Hw' as (_ & _ & Hw'). rewrite Hs in Hw'. lia.
Qed.

Lemma drive_ends fuel p :
  wf M p -> state_ p = running -> length (rest p) < fuel ->
  exists e, last (drive M fuel p) = Some e /\ (e = bare end_ \/ e = bare error).
Proof.
  revert p. induction fuel as [|fuel IH]; intros p Hw Hr Hl; [lia|]. simpl.
  destruct (next M p) as [p' e] eqn:E.
  destruct (next_cases p p' e Hw Hr E) as [(-> & He)|(-> & _ & _ & Hw' & Hr' & Hlt)]; [by exists e|].
  destruct (IH p') as (e' & Hlast & He'); [done|done|lia|]. exists e'. split; [|done].
  rewrite last_cons, Hlast. done.
Qed.

Lemma drive_fuel fuel fuel' p :
  wf M p -> state_ p = running -> length (rest p) < fuel -> fuel <= fuel' -> drive M fuel' p = drive M fuel p.
Proof.
  revert fuel' p. induction fuel as [|fuel IH]; intros [|fuel'] p Hw Hr Hl Hf; try lia. simpl.
  destruct (next M p) as [p' e] eqn:E.
  destruct (next_cases p p' e Hw Hr E) as [(-> & He)|(-> & _ & _ & Hw' & Hr' & Hlt)]; [done|].
  f_equal. apply IH; try done; lia.
Qed.

Lemma drive_sound fuel p :
  wf M p -> state_ p = running -> last (drive M fuel p) = Some (bare end_) ->
  completes M anything (config_of p) (drive M fuel p).
Proof.
  revert p. induction fuel as [|fuel IH]; intros p Hw Hr Hl; [done|]. simpl in *.
  destruct (next M p) as [p' e] eqn:E.
  destruct (next_cases p p' e Hw Hr E) as [(Hd & He)|(Hd & He & Hne & Hw' & Hr' & Hlt)]; rewrite Hd in *.
  - simpl in Hl. simplify_eq.
    destruct (next_some M p p' (bare end_) Hw Hr E) as [(_ & _ & w & Hws & ->)|(_ & _ & ?)]; [done|by constructor|done].
  - destruct (next_some M p p' e Hw Hr E He) as [(-> & _)|(Hstep & _)]; [done|].
    apply (completes_step _ _ _ _ (config_of p')); [done|]. apply IH; [done..|].
    rewrite last_cons in Hl. destruct (last (drive M fuel p')); [done|]. simplify_eq.
Qed.

Lemma drive_complete p c es fuel :
  completes M delimited c es -> c = config_of p -> wf M p -> state_ p = running -> length es <= fuel ->
  drive M fuel p = es.
Proof.
  intros Hc. revert p fuel. induction Hc as [w Hws|a e a' es Hs Hc IH]; intros p fuel E Hw Hr Hf;
    (destruct fuel as [|fuel]; [simpl in Hf; lia|]); simpl.
  - unfold config_of in E. simplify_eq. pose proof (length_frames M p Hw) as Hlen.
    match goal with H : [] = frames p |- _ => rewrite <- H in Hlen end. simpl in Hlen.
    unfold next. rewrite Hr, decide_True by done.
    match goal with H : true = _ |- _ => rewrite <- H end. simpl.
    rewrite (skip_whitespace_eq p (rest p) []) by (rewrite ?app_nil_r; done).
    rewrite current_rest, rest_adv, drop_all. done.
  - subst a. destruct (next_eq M p e a' Hw Hr Hs) as (p' & Hn & <- & (Hsrc & Hst & Hw' & Hp)). rewrite Hn.
    rewrite Hr in Hst. assert (done_ p' = false) as ->.
    { unfold done_. rewrite Hst. apply bool_decide_eq_false. by intros []. }
    f_equal. apply IH; try done. simpl in Hf. lia.
Qed.

Lemma make_wf source : wf M (make M source) /\ config_of (make M source) = (source, [], false).
Proof.
  split; [|done]. unfold wf. simpl. rewrite length_replicate. lia.
Qed.

Lemma events_complete source es :
  completes M delimited (source, [], false) es -> events M source = es.
Proof.
  intros Hc. destruct (make_wf source) as [Hw Hcfg]. unfold events.
  rewrite <- (drive_fuel (S (length source)) (S (length source) + length es)); try done; [|change (rest (make M source)) with source; lia|lia].
  eapply drive_complete; [exact Hc|done..|simpl; lia].
Qed.
End drive.

(** ** Properties *)

(** C1. Every RFC 8259 document whose nesting is within [MaxDepth] is accepted: the loop of [next]
    calls yields exactly the pre-order events of its value, with the raw source slices, then
    [end]. *)
Theorem document_accepted M v source :
  document v source -> nesting v <= M -> events M source = walk v ++ [bare end_].
Proof. intros Hd Hn. apply events_complete. by apply document_complete. Qed.

(** C2. Whatever is accepted is an RFC 8259 document within the depth limit, and the events are
    the walk of its value. *)
Theorem accepted_is_document M source :
  last (events M source) = Some (bare end_) ->
  exists v, document v source /\ nesting v <= M /\ events M source = walk v ++ [bare end_].
Proof.
  intros Hl. destruct (make_wf M source) as [Hw Hc].
  apply (document_sound M anything). rewrite <- Hc. by apply drive_sound.
Qed.

(** C3. Parsing any input ends, with [end] or [error], within one call more than the input has
    bytes; more fuel changes nothing. *)
Theorem parsing_terminates M source fuel :
  S (length source) <= fuel ->
  drive M fuel (make M source) = events M source /\ length (events M source) <= S (length source) /\
  exists e, last (events M source) = Some e /\ (e = bare end_ \/ e = bare error).
Proof.
  intros Hf. destruct (make_wf M source) as [Hw _]. split_and!.
  - apply drive_fuel; try done. change (rest (make M source)) with source. lia.
  - unfold events. generalize (S (length source)) (make M source). induction n as [|n IH]; intros p; simpl; [done|].
    destruct (next M p) as [p' e]. destruct (done_ p'); simpl; [lia|]. specialize (IH p'). lia.
  - apply drive_ends; try done. change (rest (make M source)) with source. lia.
Qed.

(** ** Witnesses *)

Lemma document_accepted_witness :
  events 2 (" "%char :: sample) = walk (JArray [JNumber ($"1"); JObject [($"k", JNull)]]) ++ [bare end_].
Proof. apply (document_accepted 2 _ _ sample_document). vm_compute. lia. Defined.

Lemma accepted_is_document_witness :
  last (events 2 sample) = Some (bare end_) /\
  exists v, document v sample /\ nesting v <= 2 /\ events 2 sample = walk v ++ [bare end_].
Proof.
  assert (last (events 2 sample) = Some (bare end_)) as H by (vm_compute; reflexivity).
  split; [exact H|apply (accepted_is_document 2 sample H)].
Defined.

Lemma parsing_terminates_witness :
  drive 4 100 (make 4 ($"[1,}")) = events 4 ($"[1,}") /\ length (events 4 ($"[1,}")) <= 5.
Proof.
  destruct (parsing_terminates 4 ($"[1,}") 100) as (H1 & H2 & _); [simpl; lia|]. split; [exact H1|exact H2].
Defined.
