(* ===== verification/JsonSafety.v ===== *)
(** * JsonParser never leaves its bounds, and its errors latch

    The invariant [ok] -- cursor and error offset within the document, frames within the fixed
    stack -- holds of every parser any sequence of calls can produce, on any input, malformed
    input included; so every [source_[pos_]] and every [stack_[depth_ - 1]] the code evaluates
    is in range. *)

From S2P Require Import Prelude StdAlgo Charconv JsonParser JsonGrammar JsonLexer JsonProofs.

Record ok (M : nat) (source : text) (p : parser) : Prop := {
  ok_source : source_ p = source;
  ok_stack : length (stack_ p) = M;
  ok_depth : depth_ p <= M;
  ok_pos : pos_ p <= length source;
  ok_offset : error_offset_ p <= length source
}.

Section ok.
Context (M : nat) (source : text).
Abbreviation ok := (ok M source).

Lemma ok_set_pos p n : ok p -> n <= length source -> ok (set_pos p n).
Proof. intros [] Hn. by split. Qed.

Lemma ok_bump p c : ok p -> current p = Some c -> ok (bump p).
Proof.
  intros Hp Hc. apply ok_set_pos; [done|]. unfold current in Hc. apply lookup_lt_Some in Hc.
  destruct Hp as [<-]. lia.
Qed.

Lemma ok_bump_peek p : ok p -> peek p <> "000"%char -> ok (bump p).
Proof. unfold peek. intros Hp. destruct (current p) eqn:E; simpl; intros Hc; [by eapply ok_bump|done]. Qed.

Lemma ok_make_error p m : ok p -> ok (make_error p m).1.
Proof. intros Hp. unfold make_error. case_decide; [|done]. destruct Hp. by split. Qed.

#[local] Opaque make_error.

Lemma ok_skip fuel f p : ok p -> ok (skip_while fuel f p).
Proof.
  revert p. induction fuel as [|fuel IH]; intros p Hp; simpl; [done|].
  destruct (current p) eqn:E; [|done]. destruct (f a); [|done]. by eapply IH, ok_bump.
Qed.

Lemma ok_skip_whitespace p : ok p -> ok (skip_whitespace p).
Proof. apply ok_skip. Qed.

Lemma ok_skip_digits p : ok p -> ok (skip_digits p).
Proof. apply ok_skip. Qed.

Lemma ok_set_frame p i f : ok p -> ok (set_frame p i f).
Proof. intros []. split; try done. simpl. by rewrite length_insert. Qed.

Lemma ok_set_top p f : ok p -> ok (set_top p f).
Proof. apply ok_set_frame. Qed.

Lemma ok_set_depth p d : ok p -> d <= M -> ok (set_depth p d).
Proof. intros [] Hd. by split. Qed.

(** A character that was seen at the cursor can be stepped over. *)
Lemma ok_bump_eqb p c : ok p -> Ascii.eqb (peek p) c = true -> c <> "000"%char -> ok (bump p).
Proof. intros Hp Hc Hn. apply Ascii.eqb_eq in Hc. apply ok_bump_peek; congruence. Qed.

Lemma ok_sign p b : ok p -> (b = true -> peek p <> "000"%char) -> ok (if b then bump p else p).
Proof. intros Hp Hb. destruct b; [by apply ok_bump_peek; auto|done]. Qed.

Lemma peek_sign p : Ascii.eqb (peek p) "+" || Ascii.eqb (peek p) "-" = true -> peek p <> "000"%char.
Proof. intros H E. by rewrite E in H. Qed.

Lemma ok_four_hex n p : ok p -> ok (four_hex n p).1.
Proof.
  revert p. induction n as [|n IH]; intros p Hp; simpl; [done|].
  destruct (current p) as [c|] eqn:E; [|by apply ok_make_error].
  destruct (is_hex c); [by eapply IH, ok_bump|by apply ok_make_error].
Qed.

Lemma ok_validate_escape p c : ok p -> current p = Some c -> ok (validate_escape p).1.
Proof.
  intros Hp Hc. pose proof (ok_bump p c Hp Hc) as Hb. unfold validate_escape. cbv zeta.
  destruct (current (bump p)) eqn:E.
  - destruct (is_simple_escape a); [by eapply ok_bump|].
    destruct (Ascii.eqb a "u"); [by eapply ok_four_hex, ok_bump|by apply ok_make_error].
  - apply ok_make_error, ok_set_pos; [done|apply Hp].
Qed.

Lemma ok_string_loop fuel open content p :
  ok p -> open <= length source -> ok (string_loop fuel open content p).1.
Proof.
  intros Hp Ho. revert p Hp. induction fuel as [|fuel IH]; intros p Hp; simpl; [done|].
  destruct (current p) as [c|] eqn:E; simpl; [|by apply ok_make_error, ok_set_pos].
  destruct (Ascii.eqb c "034"); [by eapply ok_bump|].
  destruct (Ascii.eqb c "\").
  - pose proof (ok_validate_escape p c Hp E) as He. destruct (validate_escape p) as [q [|]]; [by apply IH|done].
  - destruct (code c <? 32)%Z; [by apply ok_make_error|]. by eapply IH, ok_bump.
Qed.

Lemma ok_scan_string p c : ok p -> current p = Some c -> ok (scan_string p).1.
Proof.
  intros Hp Hc. apply ok_string_loop; [by eapply ok_bump|apply Hp].
Qed.

Lemma ok_scan_exponent p start : ok p -> ok (scan_exponent p start).1.
Proof.
  intros Hp. unfold scan_exponent. destruct (Ascii.eqb (peek p) "e" || Ascii.eqb (peek p) "E") eqn:E; [|done].
  assert (ok (bump p)) as Hb.
  { apply ok_bump_peek; [done|]. intros E0. by rewrite E0 in E. }
  cbv zeta. pose proof (ok_sign (bump p) _ Hb (peek_sign (bump p))) as Hs.
  destruct (negb (is_digit _)); [by apply ok_make_error|by apply ok_skip_digits].
Qed.

Lemma ok_scan_fraction p start : ok p -> ok (scan_fraction p start).1.
Proof.
  intros Hp. unfold scan_fraction. destruct (Ascii.eqb (peek p) ".") eqn:E; [|by apply ok_scan_exponent].
  assert (ok (bump p)) as Hb by by eapply ok_bump_eqb.
  cbv zeta. destruct (negb (is_digit _)); [by apply ok_make_error|by apply ok_scan_exponent, ok_skip_digits].
Qed.

Lemma ok_scan_number p : ok p -> ok (scan_number p).1.
Proof.
  intros Hp. unfold scan_number. cbv zeta.
  assert (ok (if Ascii.eqb (peek p) "-" then bump p else p)) as Hs.
  { apply ok_sign; [done|]. intros E E0. by rewrite E0 in E. }
  set (q := if Ascii.eqb (peek p) "-" then _ else _) in *. clearbody q.
  destruct (Ascii.eqb (peek q) "0") eqn:E; [by eapply ok_scan_fraction, ok_bump_eqb|].
  destruct (is_digit (peek q)); [by apply ok_scan_fraction, ok_skip_digits|by apply ok_make_error].
Qed.

Lemma ok_scan_literal p l tok : ok p -> ok (scan_literal p l tok).1.
Proof.
  intros Hp. unfold scan_literal. destruct (starts_with l (drop (pos_ p) (source_ p))) eqn:E; [|by apply ok_make_error].
  apply ok_set_pos; [done|]. apply starts_with_true in E as [t Et]. apply (f_equal length) in Et.
  rewrite length_drop, length_app in Et. destruct Hp as [Es _ _ ? _]. rewrite Es in Et. lia.
Qed.

Lemma ok_open_frame p c object tok : ok p -> current p = Some c -> ok (open_frame M p object tok).1.
Proof.
  intros Hp Hc. unfold open_frame. destruct (Nat.leb_spec M (depth_ p)); [by apply ok_make_error|].
  apply ok_set_depth; [by eapply ok_set_frame, ok_bump|simpl; lia].
Qed.

Lemma ok_start_value p : ok p -> ok (start_value M p).1.
Proof.
  intros Hp. unfold start_value. apply ok_skip_whitespace in Hp. cbv zeta. set (q := skip_whitespace p) in *. clearbody q.
  destruct (current q) as [c|] eqn:E; [|by apply ok_make_error].
  destruct (Ascii.eqb c "{"); [by eapply ok_open_frame|]. destruct (Ascii.eqb c "["); [by eapply ok_open_frame|].
  destruct (Ascii.eqb c "034").
  { pose proof (ok_scan_string q c Hp E) as Hs. by destruct (scan_string q) as [r [raw|]]. }
  destruct (Ascii.eqb c "t"); [by apply ok_scan_literal|]. destruct (Ascii.eqb c "f"); [by apply ok_scan_literal|].
  destruct (Ascii.eqb c "n"); [by apply ok_scan_literal|].
  destruct (Ascii.eqb c "-" || is_digit c); [by apply ok_scan_number|by apply ok_make_error].
Qed.

Lemma current_eqb p c : Ascii.eqb (peek p) c = true -> c <> "000"%char -> exists d, current p = Some d.
Proof.
  intros H Hc. apply Ascii.eqb_eq in H. unfold peek in H. destruct (current p) as [d|]; [eauto|]. simpl in H. congruence.
Qed.

Lemma ok_object_key p : ok p -> ok (object_key p).1.
Proof.
  intros Hp. unfold object_key. cbv zeta. set (q := set_top p _). assert (ok q) as Hq by by apply ok_set_top.
  clearbody q. destruct (Ascii.eqb (peek q) "034") eqn:E; simpl; [|by apply ok_make_error].
  destruct (current_eqb _ _ E ltac:(done)) as [d Hd]. pose proof (ok_scan_string q d Hq Hd) as Hs.
  destruct (scan_string q) as [r [raw|]]; [|done]. simpl in Hs. apply ok_skip_whitespace in Hs.
  destruct (Ascii.eqb (peek (skip_whitespace r)) ":") eqn:E2; simpl; [|by apply ok_make_error].
  by eapply ok_set_top, ok_bump_eqb.
Qed.

Lemma ok_close p tok : ok p -> ok (close_frame p tok).1.
Proof. intros Hp. apply ok_set_depth; [done|]. destruct Hp. lia. Qed.

Lemma ok_separated p (k : parser -> parser * JsonEvent) close m1 m2 tok :
  (forall p, ok p -> ok (k p).1) -> ok p -> close <> "000"%char ->
  ok (let p := skip_whitespace p in
      if Ascii.eqb (peek p) close then close_frame (bump p) tok
      else if seen_element (top p) then
        if negb (Ascii.eqb (peek p) ",") then make_error p m1
        else
          let p := skip_whitespace (bump p) in
          if Ascii.eqb (peek p) close then make_error p m2 else k p
      else k p).1.
Proof.
  intros Hk Hp Hc. apply ok_skip_whitespace in Hp. cbv zeta. set (q := skip_whitespace p) in *. clearbody q.
  destruct (Ascii.eqb (peek q) close) eqn:E; [by eapply ok_close, ok_bump_eqb|].
  destruct (seen_element (top q)); [|by apply Hk].
  destruct (Ascii.eqb (peek q) ",") eqn:E2; simpl; [|by apply ok_make_error].
  assert (ok (skip_whitespace (bump q))) as Hq by by eapply ok_skip_whitespace, ok_bump_eqb.
  destruct (Ascii.eqb (peek (skip_whitespace (bump q))) close); [by apply ok_make_error|by apply Hk].
Qed.

Lemma ok_next p : ok p -> ok (next M p).1.
Proof.
  intros Hp. unfold next. destruct (state_ p); [|done..]. destruct (decide (depth_ p = 0)).
  - destruct (negb _).
    + apply ok_start_value. destruct Hp. by split.
    + cbv zeta. apply ok_skip_whitespace in Hp. set (q := skip_whitespace p) in *. clearbody q.
      destruct (current q); [by apply ok_make_error|]. destruct Hp. by split.
  - destruct (is_object (top p)).
    + unfold next_in_object. destruct (expect_value (top p)); [by apply ok_start_value, ok_set_top|].
      apply ok_separated; [apply ok_object_key|done|done].
    + unfold next_in_array. apply (ok_separated p (array_element M)); [|done|done].
      intros q Hq. by apply ok_start_value, ok_set_top.
Qed.

Lemma ok_pull n p : ok p -> ok (pull M n p).2.
Proof.
  revert p. induction n as [|n IH]; intros p Hp; simpl; [done|]. apply ok_next in Hp.
  destruct (next M p) as [p' e]. specialize (IH p' Hp). by destruct (pull M n p').
Qed.
End ok.

(** ** How deep a run of events nests *)

Fixpoint peak (d : nat) (es : list JsonEvent) : nat :=
  match es with
  | [] => 0
  | e :: es =>
      match type_ e with
      | begin_object | begin_array => Nat.max (S d) (peak (S d) es)
      | end_object | end_array => peak (d - 1) es
      | _ => peak d es
      end
  end.

(** The peak of a walk, in a run that goes on with [es]. *)
Definition reach (d n : nat) : nat := if decide (n = 0) then 0 else d + n.

Definition value_peak (v : json) (t : text) : Prop :=
  forall d es, peak d (walk v ++ es) = Nat.max (reach d (nesting v)) (peak d es).
Definition elements_peak (vs : list json) (t : text) : Prop :=
  forall d es, peak d (elements_walk vs ++ es) = Nat.max (reach d (elements_nesting vs)) (peak d es).
Definition member_peak (m : text * json) (t : text) : Prop :=
  forall d es, peak d (Event key m.1 :: walk m.2 ++ es) = Nat.max (reach d (nesting m.2)) (peak d es).
Definition members_peak (ms : list (text * json)) (t : text) : Prop :=
  forall d es, peak d (members_walk ms ++ es) = Nat.max (reach d (members_nesting ms)) (peak d es).

Lemma reach_max d m n : reach d (Nat.max m n) = Nat.max (reach d m) (reach d n).
Proof. unfold reach. repeat case_decide; lia. Qed.

Lemma elements_peak_cons v vs t t' : value_peak v t -> elements_peak vs t' -> elements_peak (v :: vs) t'.
Proof.
  intros Hv Hvs d es. unfold elements_walk, elements_nesting. simpl. rewrite <- app_assoc, Hv.
  fold (elements_walk vs). rewrite Hvs. fold (elements_nesting vs). rewrite reach_max. lia.
Qed.

Lemma members_peak_cons m ms t t' : member_peak m t -> members_peak ms t' -> members_peak (m :: ms) t'.
Proof.
  intros Hm Hms d es. unfold members_walk, members_nesting. simpl. rewrite <- app_assoc.
  change (peak d (Event key m.1 :: walk m.2 ++ members_walk ms ++ es) =
    Nat.max (reach d (Nat.max (nesting m.2) (members_nesting ms))) (peak d es)).
  rewrite Hm, Hms, reach_max. lia.
Qed.

Lemma array_peak vs t t' : elements_peak vs t -> value_peak (JArray vs) t'.
Proof.
  intros H d es. simpl. fold (elements_walk vs). rewrite <- app_assoc, H. simpl.
  rewrite Nat.sub_0_r. fold (elements_nesting vs). unfold reach. repeat case_decide; lia.
Qed.

Lemma object_peak ms t t' : members_peak ms t -> value_peak (JObject ms) t'.
Proof.
  intros H d es. simpl. fold (members_walk ms). rewrite <- app_assoc, H. simpl.
  rewrite Nat.sub_0_r. fold (members_nesting ms). unfold reach. repeat case_decide; lia.
Qed.

Lemma value_peaks v t : value v t -> value_peak v t.
Proof.
  revert v t. apply (value_mut (fun v t _ => value_peak v t) (fun vs t _ => elements_peak vs t)
    (fun m t _ => member_peak m t) (fun ms t _ => members_peak ms t)); try (by intros; intros d es).
  - intros w _. by apply (array_peak [] []).
  - intros v vs w t t' _ _ Hv _ Hvs. by eapply array_peak, elements_peak_cons.
  - intros w _. by apply (object_peak [] []).
  - intros m ms w t t' _ _ Hm _ Hms. by eapply object_peak, members_peak_cons.
  - intros v vs w w' t t' _ _ _ Hv _ Hvs d es. by apply (elements_peak_cons v vs t t').
  - intros k v w w' t _ _ _ _ Hv d es. apply Hv.
  - intros m ms w w' t t' _ _ _ Hm _ Hms d es. by apply (members_peak_cons m ms t t').
Qed.

(** ** Properties *)

(** C4. On any input, after any number of calls: the cursor and the error offset are within the
    document, the depth within the fixed stack, and the document is untouched. *)
Theorem cursor_stays_inside M source n :
  let p := (pull M n (make M source)).2 in
  source_ p = source /\ pos_ p <= length source /\ depth_ p <= M /\ length (stack_ p) = M /\
  error_offset_ p <= length source.
Proof.
  intros p. assert (ok M source p) as [].
  - apply ok_pull. split; simpl; try done; try lia. apply length_replicate.
  - by split_and!.
Qed.

(** Errors latch: once [next] has returned an error, every later call returns it again and
    changes nothing, so the message and the offset stay those of the first failure. *)
Theorem errors_latch M p p' :
  next M p = (p', bare error) ->
  failed p' = true /\ done_ p' = true /\ forall n, pull M n p' = (replicate n (bare error), p').
Proof.
  intros H. assert (state_ p' = errored) as Hs.
  { pose proof (next_latched M p) as Hl. rewrite H in Hl. by apply Hl. }
  split_and!; [by apply bool_decide_eq_true|by apply done_errored|].
  induction n as [|n IH]; simpl; [done|]. unfold next. by rewrite Hs, IH.
Qed.

(** A document nested deeper than [MaxDepth] is rejected with an error event. *)
Theorem deep_document_rejected M v source :
  document v source -> M < nesting v -> last (events M source) = Some (bare error).
Proof.
  intros Hd Hn. destruct (make_wf M source) as [Hw Hc].
  destruct (drive_ends M (S (length source)) (make M source)) as (e & Hl & [-> | ->]); try done.
  { change (rest (make M source)) with source. lia. }
  exfalso. apply drive_sound in Hl; [|done..]. rewrite Hc in Hl.
  destruct (document_sound M anything _ _ Hl) as (v' & Hd' & Hn' & _).
  pose proof (events_complete (nesting v) source _ (document_complete (nesting v) v source Hd ltac:(lia))) as E1.
  pose proof (events_complete (nesting v) source _ (document_complete (nesting v) v' source Hd' ltac:(lia))) as E2.
  rewrite E1 in E2.
  destruct Hd as (? & b & ? & _ & Hv & _), Hd' as (? & b' & ? & _ & Hv' & _).
  pose proof (value_peaks v b Hv 0 [bare end_]) as P1. pose proof (value_peaks v' b' Hv' 0 [bare end_]) as P2.
  rewrite E2, P2 in P1. unfold reach in P1. simpl in P1. repeat case_decide; lia.
Qed.

(** ** Witnesses *)

Lemma errors_latch_witness :
  let p := (next 1 (make 1 ($"?"))).1 in failed p = true /\ pull 1 2 p = (replicate 2 (bare error), p).
Proof.
  destruct (errors_latch 1 (make 1 ($"?")) (next 1 (make 1 ($"?"))).1) as (H1 & _ & H2); [reflexivity|].
  split; [exact H1|exact (H2 2)].
Defined.

Lemma deep_document_rejected_witness : last (events 1 (" "%char :: sample)) = Some (bare error).
Proof.
  apply (deep_document_rejected 1 _ _ sample_document). vm_compute. lia.
Defined.
