(* ===== verification/JsonDecode.v ===== *)
(** * JsonParser's conversions: [decode_string] and [to_number]

    The opt-in helpers on the slices the parser yields.  [decode_string] is an index loop over
    the raw slice; [None] is its [false].  The reference shares no definition with the code: the escapes are the
    table of RFC 8259 (section 7), hexadecimal digits are places in a row of digits, surrogates are joined as in RFC 2781, and the
    bytes of a code point are those that a strict UTF-8 decoder reads as that code point. *)

From S2P Require Import Prelude Charconv JsonParser JsonGrammar.

Local Open Scope Z_scope.

(** ** The code *)

(** [c - '0'], [c - 'a' + 10] or [c - 'A' + 10]. *)
Definition hex_value (c : ascii) : option Z :=
  let z := code c in
  if (48 <=? z) && (z <=? 57) then Some (z - 48)
  else if (97 <=? z) && (z <=? 102) then Some (z - 97 + 10)
  else if (65 <=? z) && (z <=? 70) then Some (z - 65 + 10)
  else None.

Fixpoint hex4_loop (digits : nat) (raw : text) (i : nat) (value : Z) : option (nat * Z) :=
  match digits with
  | O => Some (i, value)
  | S digits =>
      match raw !! i with
      | None => None
      | Some c =>
          match hex_value c with
          | None => None
          | Some d => hex4_loop digits raw (S i) (Z.lor (u32 (Z.shiftl value 4)) d)
          end
      end
  end.

Definition read_hex4 (raw : text) (i : nat) : option (nat * Z) :=
  if (length raw <? i + 4)%nat then None else hex4_loop 4 raw i 0.

Definition append_utf8 (out : text) (code : Z) : text :=
  if code <=? 0x7F then out ++ [chr code]
  else if code <=? 0x7FF then
    out ++ [chr (Z.lor 0xC0 (Z.shiftr code 6)); chr (Z.lor 0x80 (Z.land code 0x3F))]
  else if code <=? 0xFFFF then
    out ++ [chr (Z.lor 0xE0 (Z.shiftr code 12)); chr (Z.lor 0x80 (Z.land (Z.shiftr code 6) 0x3F));
            chr (Z.lor 0x80 (Z.land code 0x3F))]
  else
    out ++ [chr (Z.lor 0xF0 (Z.shiftr code 18)); chr (Z.lor 0x80 (Z.land (Z.shiftr code 12) 0x3F));
            chr (Z.lor 0x80 (Z.land (Z.shiftr code 6) 0x3F)); chr (Z.lor 0x80 (Z.land code 0x3F))].

(** The escapes of one character. *)
Definition unescape (esc : ascii) : option ascii :=
  if Ascii.eqb esc "034" then Some "034"%char
  else if Ascii.eqb esc "\" then Some "\"%char
  else if Ascii.eqb esc "/" then Some "/"%char
  else if Ascii.eqb esc "b" then Some "008"%char
  else if Ascii.eqb esc "f" then Some "012"%char
  else if Ascii.eqb esc "n" then Some "010"%char
  else if Ascii.eqb esc "r" then Some "013"%char
  else if Ascii.eqb esc "t" then Some "009"%char
  else None.

(** The [case 'u'] of the switch: the index past the escape (or the pair) and the code point. *)
Definition decode_unicode (raw : text) (i : nat) : option (nat * Z) :=
  match read_hex4 raw i with
  | None => None
  | Some (i, code) =>
      if (0xD800 <=? code) && (code <=? 0xDBFF) then
        if (length raw <=? i + 1)%nat || negb (bool_decide (raw !! i = Some "\"%char))
           || negb (bool_decide (raw !! (i + 1)%nat = Some "u"%char)) then None
        else
          match read_hex4 raw (i + 2) with
          | None => None
          | Some (i, low) =>
              if (low <? 0xDC00) || (0xDFFF <? low) then None
              else Some (i, u32 (0x10000 + Z.shiftl (code - 0xD800) 10 + (low - 0xDC00)))
          end
      else if (0xDC00 <=? code) && (code <=? 0xDFFF) then None
      else Some (i, code)
  end.

Fixpoint decode_loop (fuel : nat) (raw : text) (i : nat) (out : text) : option text :=
  match fuel with
  | O => None
  | S fuel =>
      match raw !! i with
      | None => Some out
      | Some c =>
          if negb (Ascii.eqb c "\") then decode_loop fuel raw (S i) (out ++ [c])
          else
            match raw !! S i with
            | None => None
            | Some esc =>
                let i := (i + 2)%nat in
                match unescape esc with
                | Some c => decode_loop fuel raw i (out ++ [c])
                | None =>
                    if Ascii.eqb esc "u" then
                      match decode_unicode raw i with
                      | None => None
                      | Some (i, code) => decode_loop fuel raw i (append_utf8 out code)
                      end
                    else None
                end
            end
      end
  end.

Definition decode_string (raw : text) : option text := decode_loop (S (length raw)) raw 0 [].

(** [to_number] for an integer type with range [lo, hi], and [to_bool]. *)
Definition parse_arithmetic (lo hi : Z) (literal : text) : option Z :=
  match from_chars lo hi literal with
  | Some (value, []) => Some value
  | _ => None
  end.

Definition to_number (lo hi : Z) (literal : text) : option Z := parse_arithmetic lo hi literal.

Definition to_bool (literal : text) : bool := bool_decide (literal = $"true").

(** ** The reference *)

(** A slice spells bytes and UTF-16 code units. *)
Inductive piece : Type := Byte (c : ascii) | Unit_ (u : Z).

(** RFC 8259, section 7: quotation mark, reverse solidus, solidus, backspace, form feed, line feed, carriage return, tab. *)
Definition escape_table : list (ascii * Z) :=
  [("034"%char, 0x22); ("\"%char, 0x5C); ("/"%char, 0x2F); ("b"%char, 0x08); ("f"%char, 0x0C); ("n"%char, 0x0A); ("r"%char, 0x0D); ("t"%char, 0x09)].

(** The value of a hexadecimal digit is its place, in either case. *)
Definition hex_digit (c : ascii) (d : Z) : Prop :=
  exists n, d = Z.of_nat n /\ ($"0123456789abcdef" !! n = Some c \/ $"0123456789ABCDEF" !! n = Some c).

Inductive spells : text -> list piece -> Prop :=
  | spells_nil : spells [] []
  | spells_byte c t ps : c <> "\"%char -> spells t ps -> spells (c :: t) (Byte c :: ps)
  | spells_escape e v c t ps : (e, v) ∈ escape_table -> code c = v -> spells t ps -> spells ("\"%char :: e :: t) (Byte c :: ps)
  | spells_unit a b c d x y z w t ps :
      hex_digit a x -> hex_digit b y -> hex_digit c z -> hex_digit d w ->
      spells t ps ->
      spells ("\"%char :: "u"%char :: a :: b :: c :: d :: t) (Unit_ (4096 * x + 256 * y + 16 * z + w) :: ps).

Definition is_high (u : Z) : bool := (0xD800 <=? u) && (u <=? 0xDBFF).
Definition is_low (u : Z) : bool := (0xDC00 <=? u) && (u <=? 0xDFFF).

(** The same as a function of the pieces, over the encoder of the code ([reads_join] shows they agree). *)
Fixpoint join (ps : list piece) : option text :=
  match ps with
  | [] => Some []
  | Byte c :: ps => cons c <$> join ps
  | Unit_ u :: ps =>
      if is_high u then
        match ps with
        | Unit_ l :: ps =>
            if is_low l then app (append_utf8 [] (0x10000 + (u - 0xD800) * 0x400 + (l - 0xDC00))) <$> join ps else None
        | _ => None
        end
      else if is_low u then None
      else app (append_utf8 [] u) <$> join ps
  end.

(** The Unicode definition of UTF-8: lead byte, continuation bytes, no overlong form, no surrogate,
    nothing above U+10FFFF. *)
Definition continuation (c : ascii) : option Z := if (128 <=? code c) && (code c <? 192) then Some (code c - 128) else None.

Definition utf8_decode (t : text) : option (Z * text) :=
  match t with
  | [] => None
  | a :: t =>
      if code a <? 128 then Some (code a, t)
      else if (192 <=? code a) && (code a <? 224) then
        match t with
        | b :: t =>
            x ← continuation b;
            let v := (code a - 192) * 64 + x in
            if 128 <=? v then Some (v, t) else None
        | _ => None
        end
      else if (224 <=? code a) && (code a <? 240) then
        match t with
        | b :: c :: t =>
            x ← continuation b; y ← continuation c;
            let v := (code a - 224) * 4096 + x * 64 + y in
            if (2048 <=? v) && negb ((0xD800 <=? v) && (v <=? 0xDFFF)) then Some (v, t) else None
        | _ => None
        end
      else if (240 <=? code a) && (code a <? 248) then
        match t with
        | b :: c :: d :: t =>
            x ← continuation b; y ← continuation c; z ← continuation d;
            let v := (code a - 240) * 262144 + x * 4096 + y * 64 + z in
            if (65536 <=? v) && (v <=? 0x10FFFF) then Some (v, t) else None
        | _ => None
        end
      else None
  end.

(** The bytes of a code point: what the decoder reads as that code point, and no more. *)
Definition utf8 (v : Z) (bs : text) : Prop := utf8_decode bs = Some (v, []).

(** What the pieces read as: bytes as they are, code points in UTF-8, each high surrogate with the low one that follows it; a
    lone surrogate reads as nothing. *)
Inductive reads : list piece -> text -> Prop :=
  | reads_nil : reads [] []
  | reads_byte c ps out : reads ps out -> reads (Byte c :: ps) (c :: out)
  | reads_unit u bs ps out : ~ (0xD800 <= u <= 0xDFFF) -> utf8 u bs -> reads ps out -> reads (Unit_ u :: ps) (bs ++ out)
  | reads_pair h l bs ps out :
      0xD800 <= h <= 0xDBFF -> 0xDC00 <= l <= 0xDFFF -> utf8 (0x10000 + (h - 0xD800) * 0x400 + (l - 0xDC00)) bs ->
      reads ps out -> reads (Unit_ h :: Unit_ l :: ps) (bs ++ out).

Definition scalar_value (v : Z) : Prop := 0 <= v < 0xD800 \/ 0xDFFF < v <= 0x10FFFF.

Example decode_sample :
  decode_string ($"a\u00e9\n\uD83D\uDE00") = Some (["a"; "195"; "169"; "010"; "240"; "159"; "152"; "128"]%char) /\
  decode_string ($"\uD83D") = None /\ decode_string ($"\x") = None.
Proof. by vm_compute. Qed.

(** ** UTF-8 *)

Lemma code_chr_small z : 0 <= z < 256 -> code (chr z) = z.
Proof. intros H. rewrite code_chr. by apply wrap_small. Qed.

Lemma low6 v : Z.lor 0x80 (Z.land v 0x3F) = 128 + v mod 64.
Proof.
  change 0x3F with (Z.ones 6). rewrite Z.land_ones by lia. apply (lor_add _ _ 6); [lia|done|].
  apply Z.mod_pos_bound. lia.
Qed.

Lemma continuation_chr v : continuation (chr (128 + v mod 64)) = Some (v mod 64).
Proof.
  pose proof (Z.mod_pos_bound v 64 ltac:(lia)). unfold continuation. rewrite code_chr_small by lia.
  destruct (Z.leb_spec 128 (128 + v mod 64)), (Z.ltb_spec (128 + v mod 64) 192); try lia. simpl. f_equal. lia.
Qed.

(** Comparisons on literals and linear terms, decided. *)
Ltac compare_z := repeat match goal with
  | |- context [(?x <=? ?y)%Z] => destruct (Z.leb_spec x y); try lia; simpl
  | |- context [(?x <? ?y)%Z] => destruct (Z.ltb_spec x y); try lia; simpl
  end.

Lemma utf8_decode_append v t : scalar_value v -> utf8_decode (append_utf8 [] v ++ t) = Some (v, t).
Proof.
  intros Hv. unfold append_utf8, scalar_value in *. rewrite !low6, !Z.shiftr_div_pow2 by lia. cbn [app].
  change (2 ^ 6) with 64. change (2 ^ 12) with 4096. change (2 ^ 18) with 262144.
  pose proof (Z.div_mod v 64 ltac:(lia)). pose proof (Z.div_mod (v / 64) 64 ltac:(lia)).
  pose proof (Z.div_mod (v / 4096) 64 ltac:(lia)).
  pose proof (Z.mod_pos_bound v 64 ltac:(lia)). pose proof (Z.mod_pos_bound (v / 64) 64 ltac:(lia)).
  pose proof (Z.mod_pos_bound (v / 4096) 64 ltac:(lia)).
  assert (v / 64 / 64 = v / 4096) as E1 by (rewrite Z.div_div; [done|lia..]).
  assert (v / 4096 / 64 = v / 262144) as E2 by (rewrite Z.div_div; [done|lia..]).
  rewrite E1, E2 in *.
  destruct (Z.leb_spec v 0x7F); [|destruct (Z.leb_spec v 0x7FF); [|destruct (Z.leb_spec v 0xFFFF)]]; cbn [app].
  - unfold utf8_decode. rewrite code_chr_small by lia. compare_z. done.
  - rewrite (lor_add _ _ 5) by (done || lia). unfold utf8_decode.
    rewrite (code_chr_small (192 + v / 64)) by lia. compare_z. rewrite continuation_chr. simpl. compare_z. do 2 f_equal. lia.
  - rewrite (lor_add _ _ 4) by (done || lia). unfold utf8_decode.
    rewrite (code_chr_small (224 + v / 4096)) by lia. compare_z. rewrite !continuation_chr. simpl. compare_z; do 2 f_equal; lia.
  - rewrite (lor_add _ _ 3) by (done || lia). unfold utf8_decode.
    rewrite (code_chr_small (240 + v / 262144)) by lia. compare_z. rewrite !continuation_chr. simpl. compare_z. do 2 f_equal. lia.
Qed.

(** One continuation byte, and what it contributes. *)
Lemma continuation_some c x : continuation c = Some x -> 0 <= x < 64 /\ c = chr (128 + x).
Proof.
  unfold continuation. intros H. case_match; simplify_eq. bools. split; [lia|]. replace (128 + (code c - 128)) with (code c) by lia. by rewrite chr_code.
Qed.

Lemma chr_eq c z : code c = z -> chr z = c.
Proof. intros <-. apply chr_code. Qed.

(** The strict decoder determines the bytes: they are those of the encoder. *)
Lemma utf8_unique v bs : utf8 v bs -> bs = append_utf8 [] v.
Proof.
  assert (forall a n x, 0 <= x < n -> (a * n + x) / n = a /\ (a * n + x) mod n = x) as Hdm.
  { intros a n x Hx. split; [rewrite Z.div_add_l, Z.div_small; lia|rewrite Z.add_comm, Z.mod_add, Z.mod_small; lia]. }
  unfold utf8, append_utf8. rewrite !low6, !Z.shiftr_div_pow2 by lia. change (2 ^ 6) with 64. change (2 ^ 12) with 4096. change (2 ^ 18) with 262144.
  destruct bs as [|a t]; [done|]. simpl. pose proof (code_bound a).
  destruct (Z.ltb_spec (code a) 128); [intros; simplify_eq; destruct (Z.leb_spec (code a) 0x7F); [by rewrite chr_code|lia]|].
  destruct (andb _ _) eqn:E2 at 1; [bools|clear E2; destruct (andb _ _) eqn:E3 at 1; [bools|clear E3; destruct (andb _ _) eqn:E4 at 1; [bools|done]]].
  - destruct t as [|b t]; [done|]. simpl. destruct (continuation b) as [x|] eqn:Eb; [|done]. apply continuation_some in Eb as [Hx ->]. simpl.
    destruct (Z.leb_spec 128 ((code a - 192) * 64 + x)); [|done]. intros [= <- ->]. compare_z.
    destruct (Hdm (code a - 192) 64 x Hx) as [-> ->]. rewrite (lor_add _ _ 5) by (done || lia). do 2 f_equal. symmetry. apply chr_eq. lia.
  - destruct t as [|b [|c t]]; [done..|]. simpl. destruct (continuation b) as [x|] eqn:Eb; [|done]. simpl. destruct (continuation c) as [y|] eqn:Ec; [|done].
    apply continuation_some in Eb as [Hx ->], Ec as [Hy ->]. simpl. set (w := (code a - 224) * 4096 + x * 64 + y).
    destruct (Z.leb_spec 2048 w); [|done]. simpl. destruct (negb _); [|done]. intros [= <- ->].
    assert (w / 64 = (code a - 224) * 64 + x /\ w mod 64 = y) as [-> ->] by (replace w with (((code a - 224) * 64 + x) * 64 + y) by lia; by apply Hdm).
    assert (w / 4096 = code a - 224) as -> by (unfold w; Z.div_mod_to_equations; lia). destruct (Hdm (code a - 224) 64 x Hx) as [_ ->].
    compare_z. rewrite (lor_add _ _ 4) by (done || lia). do 2 f_equal. symmetry. apply chr_eq. lia.
  - destruct t as [|b [|c [|d t]]]; [done..|]. simpl. destruct (continuation b) as [x|] eqn:Eb; [|done]. simpl. destruct (continuation c) as [y|] eqn:Ec; [|done]. simpl.
    destruct (continuation d) as [z|] eqn:Ed; [|done]. apply continuation_some in Eb as [Hx ->], Ec as [Hy ->], Ed as [Hz ->]. simpl.
    set (w := (code a - 240) * 262144 + x * 4096 + y * 64 + z). destruct (Z.leb_spec 65536 w); [|done]. simpl. destruct (Z.leb_spec w 0x10FFFF); [|done]. intros [= <- ->].
    assert (w / 64 = ((code a - 240) * 64 + x) * 64 + y /\ w mod 64 = z) as [-> ->]
      by (replace w with ((((code a - 240) * 64 + x) * 64 + y) * 64 + z) by lia; by apply Hdm).
    destruct (Hdm ((code a - 240) * 64 + x) 64 y Hy) as [_ ->].
    assert (w / 4096 = (code a - 240) * 64 + x) as -> by (unfold w; Z.div_mod_to_equations; lia). destruct (Hdm (code a - 240) 64 x Hx) as [_ ->].
    assert (w / 262144 = code a - 240) as -> by (unfold w; Z.div_mod_to_equations; lia).
    compare_z. rewrite (lor_add _ _ 3) by (done || lia). do 2 f_equal. symmetry. apply chr_eq. lia.
Qed.

Lemma append_utf8_app out v : append_utf8 out v = out ++ append_utf8 [] v.
Proof. unfold append_utf8. by repeat case_match. Qed.

(** ** Escapes *)

Lemma hex_value_bound c d : hex_value c = Some d -> 0 <= d < 16.
Proof. unfold hex_value. intros H. repeat case_match; simplify_eq; bools; lia. Qed.

Lemma hex_digit_or v d : 0 <= v < 2 ^ 28 -> 0 <= d < 16 -> Z.lor (u32 (Z.shiftl v 4)) d = 16 * v + d.
Proof.
  intros Hv Hd. rewrite Z.shiftl_mul_pow2 by lia. rewrite wrap_small by lia.
  rewrite (lor_add _ _ 4); [lia|lia|apply Z.mod_mul; lia|lia].
Qed.

(** The code's escapes are those of the table, its hexadecimal digits those of the rows. *)
Lemma escape_table_unescape e c : (e, code c) ∈ escape_table <-> unescape e = Some c.
Proof.
  split.
  - intros H. unfold escape_table in H. repeat (apply elem_of_cons in H as [[= -> H]|H]; [apply (f_equal chr) in H; rewrite chr_code in H; by subst c|]).
    by apply elem_of_nil in H.
  - unfold unescape. intros H. repeat case_match; simplify_eq; bools; subst; repeat constructor.
Qed.

Lemma hex_digit_value c d : hex_digit c d <-> hex_value c = Some d.
Proof.
  split.
  - intros (n & -> & H). do 16 (destruct n as [|n]; [destruct H as [[= <-]|[= <-]]; reflexivity|]). by destruct H.
  - intros H. exists (Z.to_nat d). destruct c as [[] [] [] [] [] [] [] []]; vm_compute in H; try discriminate H; injection H as <-;
      (split; [reflexivity|first [left; reflexivity|right; reflexivity]]).
Qed.

Lemma unescape_not_u c : unescape c = None <-> is_simple_escape c = false.
Proof.
  unfold unescape, is_simple_escape. simpl. repeat case_match; simpl; rewrite ?orb_true_r; done.
Qed.

Lemma is_hex_value c : is_hex c = true -> exists d, hex_value c = Some d.
Proof.
  unfold is_hex, is_digit, hex_value. intros H. repeat case_match; eauto. done.
Qed.

Lemma read_hex4_eq raw i a b c d x y z w t :
  drop i raw = a :: b :: c :: d :: t ->
  hex_value a = Some x -> hex_value b = Some y -> hex_value c = Some z -> hex_value d = Some w ->
  read_hex4 raw i = Some ((i + 4)%nat, 4096 * x + 256 * y + 16 * z + w) /\ drop (i + 4) raw = t.
Proof.
  intros E Ha Hb Hc Hd. pose proof (hex_value_bound _ _ Ha). pose proof (hex_value_bound _ _ Hb).
  pose proof (hex_value_bound _ _ Hc). pose proof (hex_value_bound _ _ Hd).
  assert (length (drop i raw) = 4 + length t)%nat as Hl by by rewrite E. rewrite length_drop in Hl.
  apply drop_cons_lookup in E as [Ea E]. apply drop_cons_lookup in E as [Eb E].
  apply drop_cons_lookup in E as [Ec E]. apply drop_cons_lookup in E as [Ed E].
  split; [|by replace (i + 4)%nat with (S (S (S (S i)))) by lia].
  unfold read_hex4. destruct (Nat.ltb_spec (length raw) (i + 4)); [lia|].
  cbn [hex4_loop]. rewrite Ea, Ha, Eb, Hb, Ec, Hc, Ed, Hd. rewrite (hex_digit_or 0 x) by lia.
  rewrite (hex_digit_or (16 * 0 + x) y) by lia. rewrite (hex_digit_or _ z) by lia. rewrite (hex_digit_or _ w) by lia.
  do 2 f_equal; lia.
Qed.

Lemma read_hex4_some raw i j v :
  read_hex4 raw i = Some (j, v) ->
  exists a b c d x y z w t, drop i raw = a :: b :: c :: d :: t /\
    hex_value a = Some x /\ hex_value b = Some y /\ hex_value c = Some z /\ hex_value d = Some w.
Proof.
  unfold read_hex4. destruct (length raw <? i + 4)%nat; [done|]. cbn [hex4_loop]. intros H.
  destruct (raw !! i) as [a|] eqn:Ea; [|done]. destruct (hex_value a) as [x|] eqn:Ha; [|done].
  destruct (raw !! S i) as [b|] eqn:Eb; [|done]. destruct (hex_value b) as [y|] eqn:Hb; [|done].
  destruct (raw !! S (S i)) as [c|] eqn:Ec; [|done]. destruct (hex_value c) as [z|] eqn:Hc; [|done].
  destruct (raw !! S (S (S i))) as [d|] eqn:Ed; [|done]. destruct (hex_value d) as [w|] eqn:Hd; [|done].
  exists a, b, c, d, x, y, z, w, (drop (S (S (S (S i)))) raw).
  by rewrite (drop_S _ _ _ Ea), (drop_S _ _ _ Eb), (drop_S _ _ _ Ec), (drop_S _ _ _ Ed).
Qed.

(** ** The loop against the reference *)

(** What is left of a reading after its first unit. *)
Definition join_unit (u : Z) (ps : list piece) : option text := join (Unit_ u :: ps).

Lemma surrogate_test raw i t :
  drop i raw = t ->
  ((length raw <=? i + 1)%nat || negb (bool_decide (raw !! i = Some "\"%char))
    || negb (bool_decide (raw !! (i + 1)%nat = Some "u"%char))) = false <->
  exists t', t = "\"%char :: "u"%char :: t'.
Proof.
  intros E. rewrite !orb_false_iff, !negb_false_iff, !bool_decide_eq_true, Nat.leb_gt. split.
  - intros [[Hl Ha] Hb]. exists (drop (i + 2) raw). rewrite <- E, (drop_S _ _ _ Ha).
    rewrite Nat.add_1_r in Hb. rewrite (drop_S _ _ _ Hb). by replace (i + 2)%nat with (S (S i)) by lia.
  - intros [t' ->]. assert (length (drop i raw) = 2 + length t')%nat as Hl by by rewrite E.
    rewrite length_drop in Hl. apply drop_cons_lookup in E as [Ea E]. apply drop_cons_lookup in E as [Eb E].
    rewrite Nat.add_1_r. split_and!; try done. lia.
Qed.

Lemma spells_u t ps : spells ("\"%char :: "u"%char :: t) ps ->
  exists a b c d x y z w t' ps', t = a :: b :: c :: d :: t' /\ ps = Unit_ (4096 * x + 256 * y + 16 * z + w) :: ps' /\
    hex_value a = Some x /\ hex_value b = Some y /\ hex_value c = Some z /\ hex_value d = Some w /\ spells t' ps'.
Proof.
  intros H. inv H.
  - match goal with H : (_, _) ∈ escape_table |- _ => by apply escape_table_unescape in H end.
  - repeat match goal with H : hex_digit _ _ |- _ => apply hex_digit_value in H end. repeat eexists; eassumption.
Qed.

Lemma spells_not_unit t ps u : spells t (Unit_ u :: ps) -> exists t', t = "\"%char :: "u"%char :: t'.
Proof. intros H. inv H. eauto. Qed.

(** The case of a unicode escape: the code point it contributes, and the pieces after it. *)
Lemma decode_unicode_spec raw i a b c d x y z w t ps :
  drop i raw = a :: b :: c :: d :: t ->
  hex_value a = Some x -> hex_value b = Some y -> hex_value c = Some z -> hex_value d = Some w -> spells t ps ->
  match decode_unicode raw i with
  | None => join (Unit_ (4096 * x + 256 * y + 16 * z + w) :: ps) = None
  | Some (j, v) => exists ps', spells (drop j raw) ps' /\ (length (drop j raw) < length (drop i raw))%nat /\
      join (Unit_ (4096 * x + 256 * y + 16 * z + w) :: ps) = app (append_utf8 [] v) <$> join ps'
  end.
Proof.
  intros E Ha Hb Hc Hd Hs. destruct (read_hex4_eq raw i a b c d x y z w t E Ha Hb Hc Hd) as [Er Et].
  unfold decode_unicode. rewrite Er. set (u := 4096 * x + 256 * y + 16 * z + w) in *.
  change ((0xD800 <=? u) && (u <=? 0xDBFF)) with (is_high u). change ((0xDC00 <=? u) && (u <=? 0xDFFF)) with (is_low u).
  destruct (is_high u) eqn:Hh; [|destruct (is_low u) eqn:Hlo].
  - pose proof (surrogate_test raw (i + 4) t Et) as Htest.
    destruct (_ || _ || _) eqn:Eb.
    + assert (forall t', t <> "\"%char :: "u"%char :: t') as Hno by (intros t' Ht'; discriminate (proj2 Htest (ex_intro _ t' Ht'))).
      simpl. rewrite Hh. destruct ps as [|[|l] ps]; [done..|].
      apply spells_not_unit in Hs as [t' ->]. by destruct (Hno t').
    + destruct (proj1 Htest eq_refl) as [t' ->]. apply spells_u in Hs as (a' & b' & c' & d' & x' & y' & z' & w' & t2 & ps' & -> & -> & Ha' & Hb' & Hc' & Hd' & Hs).
      assert (drop (i + 4 + 2) raw = a' :: b' :: c' :: d' :: t2) as E2 by by rewrite <- drop_drop, Et.
      destruct (read_hex4_eq raw (i + 4 + 2) _ _ _ _ _ _ _ _ _ E2 Ha' Hb' Hc' Hd') as [-> Et2].
      set (l := 4096 * x' + 256 * y' + 16 * z' + w').
      assert ((l <? 0xDC00) || (0xDFFF <? l) = negb (is_low l)) as ->.
      { unfold is_low. by rewrite negb_andb, !Z.leb_antisym, !negb_involutive. }
      simpl. rewrite Hh. destruct (is_low l) eqn:Hll; simpl; [|done].
      exists ps'. rewrite Et2. split_and!; [done|rewrite E; simpl; lia|].
      unfold is_high, is_low in *. bools. rewrite Z.shiftl_mul_pow2 by lia. by rewrite wrap_small by lia.
  - simpl. by rewrite Hh, Hlo.
  - exists ps. rewrite Et. simpl. rewrite Hh, Hlo. split_and!; [done|rewrite E; simpl; lia|done].
Qed.

Lemma decode_loop_spells fuel raw i out ps :
  spells (drop i raw) ps -> (length (drop i raw) < fuel)%nat -> decode_loop fuel raw i out = app out <$> join ps.
Proof.
  revert i out ps. induction fuel as [|fuel IH]; intros i out ps Hs Hf; [lia|]. simpl.
  remember (drop i raw) as t eqn:E. symmetry in E. destruct Hs as [|c t ps Hc Hs|e v c t ps He Hv Hs|a b c d x y z w t ps Ha Hb Hc Hd Hs].
  - destruct (drop_nil_lookup _ _ E) as [-> _]. simpl. by rewrite app_nil_r.
  - destruct (drop_cons_lookup _ _ _ _ E) as [-> E']. destruct (Ascii.eqb_spec c "\"); [done|]. simpl.
    rewrite (IH _ _ ps); [|by rewrite E'|rewrite E'; simpl in Hf; lia].
    destruct (join ps); simpl; [|done]. by rewrite <- app_assoc.
  - destruct (drop_cons_lookup _ _ _ _ E) as [-> E']. destruct (drop_cons_lookup _ _ _ _ E') as [-> E2]. subst v. apply escape_table_unescape in He. simpl. rewrite He.
    replace (i + 2)%nat with (S (S i)) by lia. rewrite (IH _ _ ps); [|by rewrite E2|rewrite E2; simpl in Hf; lia].
    destruct (join ps); simpl; [|done]. by rewrite <- app_assoc.
  - apply hex_digit_value in Ha, Hb, Hc, Hd.
    destruct (drop_cons_lookup _ _ _ _ E) as [-> E']. destruct (drop_cons_lookup _ _ _ _ E') as [-> E2]. cbn [negb Ascii.eqb unescape].
    replace (S (S i)) with (i + 2)%nat in E2 by lia.
    pose proof (decode_unicode_spec raw (i + 2) a b c d x y z w t ps E2 Ha Hb Hc Hd Hs) as Hu.
    change (match decode_unicode raw (i + 2) with None => None | Some (j, v) => decode_loop fuel raw j (append_utf8 out v) end
      = app out <$> join (Unit_ (4096 * x + 256 * y + 16 * z + w) :: ps)).
    destruct (decode_unicode raw (i + 2)) as [[j v]|]; [|by rewrite Hu].
    destruct Hu as (ps' & Hs' & Hlen & ->). rewrite E2 in Hlen.
    rewrite (IH _ _ ps'); [|done|simpl in *; lia]. rewrite append_utf8_app.
    destruct (join ps'); simpl; [|done]. by rewrite <- app_assoc.
Qed.

Lemma decode_unicode_some raw i j v ps :
  decode_unicode raw i = Some (j, v) -> spells (drop j raw) ps ->
  exists ps', spells ("\"%char :: "u"%char :: drop i raw) ps'.
Proof.
  intros H Hs. unfold decode_unicode in H. destruct (read_hex4 raw i) as [[k u]|] eqn:Er; [|done].
  pose proof Er as Er'. apply read_hex4_some in Er as (a & b & c & d & x & y & z & w & t & E & Ha & Hb & Hc & Hd).
  destruct (read_hex4_eq raw i a b c d x y z w t E Ha Hb Hc Hd) as [Er Et]. rewrite Er' in Er. simplify_eq.
  rewrite E. destruct ((0xD800 <=? _) && _).
  - pose proof (surrogate_test raw (i + 4) _ eq_refl) as Htest. destruct (_ || _ || _); [done|].
    destruct (proj1 Htest eq_refl) as [t' Et'].
    destruct (read_hex4 raw (i + 4 + 2)) as [[k u]|] eqn:Er2; [|done]. pose proof Er2 as Er2'.
    apply read_hex4_some in Er2 as (a' & b' & c' & d' & x' & y' & z' & w' & t2 & E2 & Ha' & Hb' & Hc' & Hd').
    destruct (read_hex4_eq _ _ _ _ _ _ _ _ _ _ _ E2 Ha' Hb' Hc' Hd') as [Er2 Et2]. rewrite Er2' in Er2. simplify_eq.
    destruct (_ || _); [done|]. simplify_eq.
    eexists. constructor; [by apply hex_digit_value..|]. rewrite Et'. rewrite <- drop_drop, Et' in E2. simpl in E2. rewrite drop_0 in E2. subst t'.
    constructor; [by apply hex_digit_value..|eassumption].
  - destruct (_ && _); [done|]. simplify_eq. eexists. constructor; [by apply hex_digit_value..|eassumption].
Qed.

Lemma decode_loop_some fuel raw i out r :
  decode_loop fuel raw i out = Some r -> exists ps, spells (drop i raw) ps.
Proof.
  revert i out. induction fuel as [|fuel IH]; intros i out H; simpl in H; [done|].
  destruct (raw !! i) as [c|] eqn:E.
  - rewrite (drop_S _ _ _ E). destruct (Ascii.eqb_spec c "\") as [->|Hc]; simpl in H.
    + destruct (raw !! S i) as [esc|] eqn:E2; [|done]. rewrite (drop_S _ _ _ E2).
      replace (i + 2)%nat with (S (S i)) in H by lia. destruct (unescape esc) as [u|] eqn:Eu.
      * apply IH in H as [ps Hps]. eexists. by apply (spells_escape _ (code u) u); [apply escape_table_unescape| |].
      * destruct (Ascii.eqb_spec esc "u") as [->|]; [|done].
        destruct (decode_unicode raw (S (S i))) as [[j v]|] eqn:Ed; [|done]. apply IH in H as [ps Hps].
        by eapply decode_unicode_some.
    + apply IH in H as [ps Hps]. eexists. by constructor.
  - exists []. rewrite drop_ge; [constructor|]. by apply lookup_ge_None_1.
Qed.

Lemma string_body_spells raw : string_body raw -> exists ps, spells raw ps.
Proof.
  induction 1 as [|c t Hq Hs Hc Hb [ps IH]|e t He Hb [ps IH]].
  - exists []. constructor.
  - eexists. by constructor.
  - destruct He as [c Hc|a b c d Ha Hb' Hc Hd]; simpl.
    + destruct (unescape c) as [u|] eqn:Eu; [|apply unescape_not_u in Eu; congruence].
      eexists. by apply (spells_escape _ (code u) u); [apply escape_table_unescape| |].
    + apply is_hex_value in Ha as [x Hx], Hb' as [y Hy], Hc as [z Hz], Hd as [w Hw].
      eexists. constructor; [by apply hex_digit_value..|eassumption].
Qed.

Lemma decode_string_join raw ps : spells raw ps -> decode_string raw = join ps.
Proof.
  intros Hps. unfold decode_string. rewrite (decode_loop_spells _ raw 0 [] ps) by (done || (rewrite drop_0; simpl; lia)). by destruct (join ps).
Qed.

(** The units of a slice have 16 bits. *)
Definition unit16 (p : piece) : Prop := match p with Byte _ => True | Unit_ u => 0 <= u < 65536 end.

Lemma spells_units raw ps : spells raw ps -> Forall unit16 ps.
Proof.
  induction 1 as [|c t ps Hc Hs IH|e v c t ps He Hv Hs IH|a b c d x y z w t ps Ha Hb Hc Hd Hs IH]; constructor; try done.
  apply hex_digit_value, hex_value_bound in Ha, Hb, Hc, Hd. simpl. lia.
Qed.

Lemma utf8_encoder v : scalar_value v -> utf8 v (append_utf8 [] v).
Proof. intros Hv. unfold utf8. rewrite <- (app_nil_r (append_utf8 [] v)). by apply utf8_decode_append. Qed.

Lemma reads_join ps out : Forall unit16 ps -> (reads ps out <-> join ps = Some out).
Proof.
  intros Hu. split.
  - clear Hu. induction 1 as [|c ps out Hr IH|u bs ps out Hn Hb Hr IH|h l bs ps out Hh Hl Hb Hr IH]; simpl; [done|by rewrite IH|..].
    + assert (is_high u = false /\ is_low u = false) as [-> ->].
      { unfold is_high, is_low. split; apply andb_false_iff; rewrite !Z.leb_gt; lia. }
      rewrite IH. simpl. by rewrite (utf8_unique u bs Hb).
    + assert (is_high h = true /\ is_low l = true) as [-> ->].
      { unfold is_high, is_low. split; apply andb_true_iff; rewrite !Z.leb_le; lia. }
      rewrite IH. simpl. by rewrite (utf8_unique _ bs Hb).
  - revert out Hu. induction ps as [ps IH] using (induction_ltof1 _ length). unfold ltof in IH. intros out Hu H.
    destruct ps as [|[c|u] ps]; [injection H as <-; constructor|..]; apply Forall_cons in Hu as [Hp Hu]; simpl in H, Hp.
    + apply fmap_Some in H as (o & Ho & ->). constructor. apply IH; [simpl; lia|done|done].
    + destruct (is_high u) eqn:Hh.
      * destruct ps as [|[|l] ps]; [done..|]. apply Forall_cons in Hu as [_ Hu]. destruct (is_low l) eqn:Hl; [|done].
        apply fmap_Some in H as (o & Ho & ->). unfold is_high, is_low in *. bools.
        constructor; [lia|lia|apply utf8_encoder; right; lia|]. apply IH; [simpl; lia|done|done].
      * destruct (is_low u) eqn:Hl; [done|]. apply fmap_Some in H as (o & Ho & ->). unfold is_high, is_low in *.
        apply andb_false_iff in Hh, Hl. rewrite !Z.leb_gt in Hh, Hl.
        constructor; [lia|apply utf8_encoder; unfold scalar_value; lia|]. apply IH; [simpl; lia|done|done].
Qed.

(** ** Numbers *)

Lemma digits_not_minus d : is_digit d = true -> Ascii.eqb d "-" = false.
Proof. intros H. by destruct (Ascii.eqb_spec d "-") as [->|]. Qed.

Lemma integer_head i : integer_part i -> exists d t, i = d :: t /\ is_digit d = true /\ all_digits i.
Proof.
  destruct 1 as [|d t Hd Hd0 Ht]; [exists "0"%char, []|exists d, t]; split_and!; try done; by repeat constructor.
Qed.

Lemma fraction_exponent_stops f e :
  fraction_part f -> exponent_part e -> match f ++ e with [] => True | c :: _ => is_digit c = false end.
Proof. destruct 1; [destruct 1 as [|? ? ? [-> | ->]]|]; done. Qed.

(** What [from_chars] makes of a number literal: the integer part, and the rest of the literal. *)
Lemma from_chars_literal lo hi sign i f e :
  sign = [] \/ sign = ["-"%char] -> integer_part i -> fraction_part f -> exponent_part e -> lo <= 0 ->
  from_chars lo hi (sign ++ i ++ f ++ e) =
    let v := match sign with [] => digits_value i | _ => - digits_value i end in
    if bool_decide (sign <> [] /\ lo = 0) then None
    else if (lo <=? v) && (v <=? hi) then Some (v, f ++ e) else None.
Proof.
  intros Hs Hi Hf He Hlo. destruct (integer_head i Hi) as (d & t & -> & Hd & Hall).
  pose proof (take_digits_app (d :: t) (f ++ e) Hall (fraction_exponent_stops f e Hf He)) as Htd.
  unfold from_chars. destruct Hs as [-> | ->]; cbn [app] in *.
  - rewrite (digits_not_minus d Hd), andb_false_r, Htd. rewrite bool_decide_eq_false_2 by naive_solver. done.
  - rewrite andb_true_r. destruct (Z.ltb_spec lo 0).
    + rewrite Htd. rewrite bool_decide_eq_false_2 by (intros []; lia). done.
    + rewrite bool_decide_eq_true_2 by (split; [done|lia]). by simpl.
Qed.

(** ** Properties *)

(** C5. [decode_string] succeeds exactly on the slices that spell bytes and UTF-16 units whose
    surrogates pair up, and yields their UTF-8 text: malformed escapes, truncated escapes and lone
    surrogates are its only failures.  The escapes are RFC 8259's, and the bytes of a code point those a strict decoder reads as it. *)
Theorem decode_string_exact raw out :
  decode_string raw = Some out <-> exists ps, spells raw ps /\ reads ps out.
Proof.
  split.
  - intros H. pose proof H as H'. unfold decode_string in H'. apply decode_loop_some in H' as [ps Hps]. exists ps. split; [done|].
    rewrite (decode_string_join raw ps Hps) in H. apply reads_join; [by apply (spells_units raw)|done].
  - intros (ps & Hps & Hr). rewrite (decode_string_join raw ps Hps). apply reads_join; [by apply (spells_units raw)|done].
Qed.

(** Every string or key slice the parser yields spells some pieces, so it fails to decode only
    for a lone surrogate; without a unicode escape it always decodes. *)
Theorem yielded_strings_decode raw :
  string_body raw ->
  exists ps, spells raw ps /\ decode_string raw = join ps /\
    (Forall (fun p => match p with Byte _ => True | Unit_ u => is_high u || is_low u = false end) ps ->
     exists out, decode_string raw = Some out).
Proof.
  intros Hb. destruct (string_body_spells raw Hb) as [ps Hps]. exists ps. split; [done|].
  pose proof (decode_string_join raw ps Hps) as E.
  split; [done|]. intros Hall. rewrite E. clear E Hps Hb.
  induction Hall as [|[c|u] ps Hp Hall [out IH]]; simpl; [eauto|rewrite IH; simpl; eauto|].
  apply orb_false_iff in Hp as [-> ->]. rewrite IH. simpl. eauto.
Qed.

(** The UTF-8 encoder is right: for every Unicode scalar value, a strict decoder reads the
    bytes back to that value and leaves what follows them. *)
Theorem append_utf8_decodes v out t :
  scalar_value v -> exists bytes, append_utf8 out v = out ++ bytes /\ utf8_decode (bytes ++ t) = Some (v, t).
Proof.
  intros Hv. exists (append_utf8 [] v). split; [apply append_utf8_app|by apply utf8_decode_append].
Qed.

(** [to_number] into an integer type with range [lo, hi] yields the value of a number token
    exactly when the token has no fraction and no exponent and the value is in range (a minus sign
    needs a signed type). *)
Theorem to_number_integral lo hi sign i f e :
  sign = [] \/ sign = ["-"%char] -> integer_part i -> fraction_part f -> exponent_part e -> lo <= 0 ->
  to_number lo hi (sign ++ i ++ f ++ e) =
    let v := match sign with [] => digits_value i | _ => - digits_value i end in
    if bool_decide (f = [] /\ e = [] /\ (sign = [] \/ lo <> 0) /\ lo <= v <= hi) then Some v else None.
Proof.
  intros Hs Hi Hf He Hlo. unfold to_number, parse_arithmetic. rewrite (from_chars_literal lo hi sign i f e) by done.
  cbv zeta. set (v := match sign with [] => _ | _ => _ end).
  case_bool_decide as H1; [rewrite bool_decide_eq_false_2; [done|]|].
  { destruct H1. intros (_ & _ & [|] & _); done. }
  destruct (Z.leb_spec lo v), (Z.leb_spec v hi); simpl; [|rewrite bool_decide_eq_false_2; [done|lia]..].
  destruct (f ++ e) as [|c u] eqn:E.
  - apply app_nil in E as [-> ->]. rewrite bool_decide_eq_true_2; [done|]. split_and!; try done.
    destruct (decide (sign = [])); [by left|right; naive_solver].
  - rewrite bool_decide_eq_false_2; [done|]. by intros (-> & -> & _).
Qed.

(** ** Witnesses *)

Lemma yielded_strings_decode_witness : exists ps, spells ($"a\n") ps /\ decode_string ($"a\n") = join ps.
Proof.
  destruct (yielded_strings_decode ($"a\n")) as (ps & H1 & H2 & _).
  - apply body_char; [discriminate|discriminate|by vm_compute|].
    apply (body_escape ($"\n") []); [by constructor|constructor].
  - exists ps. split; [exact H1|exact H2].
Defined.

Lemma append_utf8_decodes_witness :
  exists bytes, append_utf8 [] 0x1F600 = [] ++ bytes /\ utf8_decode (bytes ++ $"x") = Some (0x1F600, $"x").
Proof. apply (append_utf8_decodes 0x1F600 [] ($"x")). right. lia. Defined.

Lemma to_number_integral_witness :
  to_number (-128) 127 ($"-128") = Some (-128) /\ to_number 0 255 ($"-0") = None /\ to_number 0 255 ($"1e2") = None.
Proof.
  assert (integer_part ($"128")) as Hi by (apply integer_digits; [done|discriminate|by repeat constructor]).
  assert (integer_part ($"0")) as H0 by constructor.
  assert (integer_part ($"1")) as H1 by (apply integer_digits; [done|discriminate|constructor]).
  assert (exponent_part ($"e2")) as He by (apply (exponent_some "e" [] ($"2")); [by left|by left|by repeat constructor|done]).
  split; [|split].
  - exact (to_number_integral (-128) 127 ($"-") ($"128") [] [] (or_intror eq_refl) Hi fraction_none exponent_none ltac:(lia)).
  - exact (to_number_integral 0 255 ($"-") ($"0") [] [] (or_intror eq_refl) H0 fraction_none exponent_none ltac:(lia)).
  - exact (to_number_integral 0 255 [] ($"1") [] ($"e2") (or_introl eq_refl) H1 fraction_none He ltac:(lia)).
Defined.
