(* ===== verification/StringSplitter.v ===== *)
(** * StringSplitter (string_splitter.hpp)

    The forward iterator as a state machine: a token is a slice of the text, given by its offset
    and length ([None] is the null view of the end iterator).  [tokens] is the range-based loop
    over it. *)

From S2P Require Import Prelude StdAlgo.

Record iterator := Iterator {
  text_ : text;
  delimiter_ : text;
  current_ : option (nat * nat);
  cursor_ : nat;
  final_ : bool;
  finished_ : bool
}.

(** [text_.substr(pos, n)], as the pair it views. *)
Definition slice (t : text) (view : option (nat * nat)) : text :=
  match view with
  | Some (pos, n) => take n (drop pos t)
  | None => []
  end.

Definition advance (it : iterator) : iterator :=
  if final_ it then Iterator (text_ it) (delimiter_ it) None (cursor_ it) true true
  else
    match find_from (delimiter_ it) (text_ it) (cursor_ it) with
    | None =>
        Iterator (text_ it) (delimiter_ it) (Some (cursor_ it, length (text_ it) - cursor_ it)) (cursor_ it) true (finished_ it)
    | Some pos =>
        Iterator (text_ it) (delimiter_ it) (Some (cursor_ it, pos - cursor_ it)) (pos + length (delimiter_ it))
          (final_ it) (finished_ it)
    end.

Definition begin (t delimiter : text) : iterator := advance (Iterator t delimiter None 0 false false).
Definition end_ : iterator := Iterator [] [] None 0 false true.

Definition deref (it : iterator) : text := slice (text_ it) (current_ it).
Definition increment (it : iterator) : iterator := advance it.

(** [operator==]: the end state, or the same view (the data pointers of views into one text are
    equal when the offsets are). *)
Definition iterator_eq (it other : iterator) : bool :=
  if finished_ it || finished_ other then finished_ it && finished_ other
  else bool_decide (current_ it = current_ other).

(** [for (token : StringSplitter{text, delimiter}) ...] *)
Fixpoint collect (fuel : nat) (it : iterator) : list text :=
  match fuel with
  | O => []
  | S fuel => if iterator_eq it end_ then [] else deref it :: collect fuel (increment it)
  end.

Definition tokens (t delimiter : text) : list text := collect (length t + 3) (begin t delimiter).

(** ** The reference *)

Fixpoint join (delimiter : text) (ts : list text) : text :=
  match ts with
  | [] => []
  | [t] => t
  | t :: ts => t ++ delimiter ++ join delimiter ts
  end.

(** The token ends at the first place where the delimiter occurs. *)
Definition cut (delimiter t : text) : Prop := find_first delimiter (t ++ delimiter) = Some (length t).

(** A faithful split of a text. *)
Inductive splits (delimiter : text) : text -> list text -> Prop :=
  | splits_last t : find_first delimiter t = None -> splits delimiter t [t]
  | splits_cut t rest ts :
      cut delimiter t -> splits delimiter rest ts -> splits delimiter (t ++ delimiter ++ rest) (t :: ts).

Example split_sample :
  tokens ($"a,,b") ($",") = [$"a"; []; $"b"] /\ tokens [] ($",") = [[]] /\ tokens ($"x--y---") ($"--") = [$"x"; $"y"; $"-"].
Proof. by vm_compute. Qed.

(** ** Searching *)

Lemma starts_with_length p t : starts_with p t = true -> length p <= length t.
Proof. intros H. apply starts_with_true in H as [u ->]. rewrite length_app. lia. Qed.

Lemma starts_with_app_l p t u : starts_with p t = true -> starts_with p (t ++ u) = true.
Proof. intros H. apply starts_with_true in H as [v ->]. rewrite <- app_assoc. apply starts_with_app. Qed.

Lemma starts_with_app_long p t u : length p <= length t -> starts_with p (t ++ u) = starts_with p t.
Proof.
  revert t. induction p as [|c p IH]; intros [|d t] H; simpl in *; try done; [lia|]. by rewrite IH by lia.
Qed.

Lemma find_first_app_some n t u i : find_first n t = Some i -> find_first n (t ++ u) = Some i.
Proof.
  revert i. induction t as [|c t IH]; intros i; simpl; case_match eqn:E; intros H; simplify_eq/=.
  - destruct n; [|done]. destruct u; by simpl.
  - rewrite (starts_with_app_l n (c :: t) u E : starts_with n (c :: t ++ u) = true). done.
  - destruct (find_first n t) as [j|] eqn:Ej; simplify_eq/=. rewrite (IH j eq_refl).
    destruct (starts_with n (c :: t ++ u)) eqn:E2; [|done]. exfalso.
    pose proof (find_first_spec n t j Ej) as (_ & Hs & _). apply starts_with_length in Hs. rewrite length_drop in Hs.
    assert (length n <= length (c :: t)) as Hl by (simpl; lia).
    change (c :: t ++ u) with ((c :: t) ++ u) in E2. rewrite starts_with_app_long in E2 by done. congruence.
Qed.

(** Where the first occurrence is found, the text before it is a cut. *)
Lemma find_first_cut n t i :
  find_first n t = Some i -> exists rest, t = take i t ++ n ++ rest /\ cut n (take i t) /\ drop (i + length n) t = rest.
Proof.
  intros H. destruct (find_first_spec n t i H) as (Hi & Hs & Hno). apply starts_with_true in Hs as [rest Hr].
  assert (t = take i t ++ n ++ rest) as E by (by rewrite <- Hr, take_drop).
  exists rest. split_and!; [done| |by rewrite <- drop_drop, Hr, drop_app_length].
  unfold cut. rewrite length_take_le by done. set (u := take i t ++ n).
  assert (forall j, j < i -> starts_with n (drop j u) = false) as Hno'.
  { intros j Hj. specialize (Hno j Hj). rewrite E in Hno. destruct (starts_with n (drop j u)) eqn:Ej; [|done].
    rewrite app_assoc in Hno. fold u in Hno. rewrite drop_app_le in Hno; [|unfold u; rewrite length_app, length_take; lia].
    by rewrite (starts_with_app_l _ _ rest Ej) in Hno. }
  destruct (find_first n u) as [j|] eqn:Ej.
  - destruct (find_first_spec n u j Ej) as (_ & Hj & Hnoj). f_equal.
    destruct (decide (j < i)) as [Hl|Hl]; [by rewrite (Hno' j Hl) in Hj|].
    destruct (decide (i < j)) as [Hg|Hg]; [|lia]. specialize (Hnoj i Hg). unfold u in Hnoj.
    rewrite drop_app_length' in Hnoj by (rewrite length_take; lia).
    rewrite <- (app_nil_r n) in Hnoj at 2. by rewrite starts_with_app in Hnoj.
  - apply (proj1 (find_first_none n u)) with (i := i) in Ej. unfold u in Ej.
    rewrite drop_app_length' in Ej by (rewrite length_take; lia).
    rewrite <- (app_nil_r n) in Ej at 2. by rewrite starts_with_app in Ej.
Qed.

(** ** The loop *)

(** The iterator positioned at a cursor, before its token is loaded. *)
Definition at_cursor (t delimiter : text) (view : option (nat * nat)) (c : nat) : iterator := Iterator t delimiter view c false false.

Section loop.
Context (t d : text) (Hd : d <> []).

Lemma collect_finished fuel view c f : collect fuel (Iterator t d view c f true) = [].
Proof. by destruct fuel. Qed.

Lemma collect_from fuel view c :
  c <= length t -> length t - c + 2 < fuel ->
  exists ts, collect fuel (advance (at_cursor t d view c)) = ts /\ splits d (drop c t) ts.
Proof.
  revert view c. induction fuel as [|fuel IH]; intros view c Hc Hf; [lia|].
  unfold advance at 1, find_from. simpl. destruct (Nat.ltb_spec (length t) c); [lia|].
  destruct (find_first d (drop c t)) as [i|] eqn:E; simpl.
  - destruct (find_first_cut d _ _ E) as (rest & Hr & Hcut & Hdr).
    assert (1 <= length d) as Hd1 by (destruct d; [done|simpl; lia]).
    assert (c + i + length d <= length t) as Hle.
    { apply (f_equal length) in Hr. rewrite !length_app, length_take, length_drop in Hr.
      pose proof (find_first_spec _ _ _ E) as (Hi & _). rewrite length_drop in Hi. lia. }
    destruct (IH (Some (c, c + i - c)) (c + i + length d)) as (ts & Hts & Hsp); [lia|lia|].
    eexists. split; [reflexivity|]. unfold increment. unfold at_cursor in Hts. rewrite Hts.
    unfold deref. simpl. replace (c + i - c) with i by lia.
    rewrite Hr at 1. constructor; [done|]. rewrite <- Hdr, drop_drop. by rewrite Nat.add_assoc.
  - destruct fuel as [|fuel]; [lia|]. eexists. split; [reflexivity|].
    unfold increment. simpl. rewrite ?collect_finished. unfold deref. simpl.
    rewrite take_ge by (rewrite length_drop; lia). by constructor.
Qed.

Lemma tokens_split : splits d t (tokens t d).
Proof.
  destruct (collect_from (length t + 3) None 0) as (ts & E & H); [lia|lia|]. unfold tokens, begin.
  unfold at_cursor in E. rewrite E. by rewrite drop_0 in H.
Qed.
End loop.

Lemma splits_join d t ts : splits d t ts -> join d ts = t.
Proof. induction 1 as [|t rest ts Hc Hs IH]; [done|]. simpl. rewrite IH. by destruct Hs. Qed.

Lemma splits_deterministic d t ts ts' : d <> [] -> splits d t ts -> splits d t ts' -> ts = ts'.
Proof.
  intros Hd H. revert ts'. induction H as [t Hn|t rest ts Hc Hs IH]; intros ts' H'; inv H' as [? Hn' E|t' rest' ts2 Hc' Hs' E].
  - done.
  - unfold cut in Hc'. apply (find_first_app_some _ _ rest') in Hc'. rewrite <- app_assoc in Hc'. congruence.
  - unfold cut in Hc. apply (find_first_app_some _ _ rest) in Hc. rewrite <- app_assoc in Hc. congruence.
  - unfold cut in Hc, Hc'. apply (find_first_app_some _ _ rest) in Hc. apply (find_first_app_some _ _ rest') in Hc'.
    rewrite <- app_assoc in Hc, Hc'. rewrite E, Hc in Hc'. simplify_eq.
    apply app_inj_1 in E as [-> E]; [|done]. apply app_inv_head in E. subst rest'. f_equal. by apply IH.
Qed.

(** ** Properties *)

(** C16. Splitting is faithful: the tokens joined by the delimiter give the text back, there is at
    least one token, each token but the last ends at the first occurrence of the delimiter and the
    last contains none; and this split is the only one. *)
Theorem split_faithful t d ts :
  d <> [] -> (tokens t d = ts <-> splits d t ts) /\ join d (tokens t d) = t /\ tokens t d <> [].
Proof.
  intros Hd. pose proof (tokens_split t d Hd) as Hs. split_and!.
  - split; [by intros <-|]. intros H. by apply (splits_deterministic d t).
  - by apply splits_join.
  - by destruct Hs.
Qed.

(** Fields without the delimiter survive joining and splitting; in particular [n] occurrences
    of a one-character delimiter yield [n + 1] tokens, empty fields included. *)
Theorem split_join_round_trip d ts :
  d <> [] -> ts <> [] -> Forall (cut d) ts -> tokens (join d ts) d = ts.
Proof.
  intros Hd Hne Hts. apply (splits_deterministic d (join d ts)); [done|by apply tokens_split|].
  induction Hts as [|t ts Ht Hts IH]; [done|]. destruct ts as [|u ts]; simpl in *; [|by constructor; auto].
  constructor. destruct (find_first d t) as [i|] eqn:E; [|done]. exfalso.
  pose proof (find_first_spec d t i E) as (Hi & Hs & _). apply starts_with_length in Hs. rewrite length_drop in Hs.
  apply (find_first_app_some _ _ d) in E. unfold cut in Ht. rewrite E in Ht. simplify_eq. destruct d; [done|simpl in Hs; lia].
Qed.

(** ** Witnesses *)

Lemma split_faithful_witness : splits ($",") ($"a,b") [$"a"; $"b"] /\ join ($",") (tokens ($"a,b") ($",")) = $"a,b".
Proof.
  destruct (split_faithful ($"a,b") ($",") [$"a"; $"b"] ltac:(discriminate)) as (H1 & H2 & _).
  split; [apply H1; vm_compute; reflexivity|exact H2].
Defined.

Lemma split_join_round_trip_witness : tokens (join ($"::") [$"x"; []; $"y:z"]) ($"::") = [$"x"; []; $"y:z"].
Proof.
  apply (split_join_round_trip ($"::") [$"x"; []; $"y:z"]); [discriminate|discriminate|].
  repeat constructor.
Defined.
