(* ===== verification/StringBuilder.v ===== *)
(** * StringBuilder (string_builder.hpp): the fluent text accumulator *)

From S2P Require Import Prelude Charconv.

Record builder := Builder { buffer_ : text }.

Definition empty_builder : builder := Builder [].
Definition seeded (initial : text) : builder := Builder initial.

Definition append_text (b : builder) (t : text) : builder := Builder (buffer_ b ++ t).
Definition append_char (b : builder) (c : ascii) : builder := Builder (buffer_ b ++ [c]).

(** [std::to_chars] into a local array of 24 characters; on failure nothing is appended. *)
Definition append_int (b : builder) (value : Z) : builder :=
  match to_chars 24 10 value with
  | Some t => Builder (buffer_ b ++ t)
  | None => b
  end.

Definition clear (b : builder) : builder := Builder [].
Definition size (b : builder) : nat := length (buffer_ b).
Definition empty (b : builder) : bool := bool_decide (buffer_ b = []).
Definition view (b : builder) : text := buffer_ b.

(** [str() &&]: the text moved out, and the builder left empty. *)
Definition str_move (b : builder) : text * builder := (buffer_ b, Builder []).

(** ** Properties *)

(** Appending any integer of a type of up to 64 bits, signed or unsigned, appends a text that
    [std::from_chars] reads back to the same value: the 24-character buffer never overflows, so no
    value is dropped silently. *)
Theorem append_int_round_trip b v lo hi rest :
  (lo <= v <= hi)%Z -> (- 2 ^ 63 <= v < 2 ^ 64)%Z ->
  match rest with [] => True | c :: _ => is_digit c = false end ->
  exists t, view (append_int b v) = view b ++ t /\ from_chars lo hi (t ++ rest) = Some (v, rest).
Proof.
  intros Hr Hv Hrest. destruct (to_chars_fits 24 v ltac:(lia) Hv) as (t & Ht & _).
  exists t. unfold append_int. rewrite Ht. split; [done|]. by eapply from_to_chars.
Qed.

Lemma append_int_round_trip_witness :
  exists t, view (append_int (seeded ($"x=")) (-9223372036854775808)) = $"x=" ++ t /\
    from_chars (- 2 ^ 63) (2 ^ 63 - 1) (t ++ $",") = Some (-9223372036854775808, $",")%Z.
Proof. apply (append_int_round_trip (seeded ($"x="))); [lia|lia|reflexivity]. Defined.
