(* ===== verification/StringFormatter.v ===== *)
(** * StringFormatter (string_formatter.hpp)

    The validator that runs at compile time and the renderer that runs on a validated format
    string.  The renderer reads [rest[i + 1]] without a bounds check: that read is an [option] here
    ([None]: out of bounds), and the theorem shows a validated string never gets there.  The text of
    a floating-point argument is the standard library's ([float_chars]). *)

From S2P Require Import Prelude Charconv StringBuilder.

Inductive FormatStringError : Set :=
  | none | unterminated_open_brace | stray_close_brace | argument_count_mismatch.

(** ** The validator *)

Fixpoint check_loop (fuel : nat) (t : text) (argument_count i placeholders : nat) : FormatStringError :=
  match fuel with
  | O => none
  | S fuel =>
      match t !! i with
      | None => if (placeholders =? argument_count)%nat then none else argument_count_mismatch
      | Some ch =>
          if Ascii.eqb ch "{" then
            match t !! (i + 1) with
            | None => unterminated_open_brace
            | Some c =>
                if Ascii.eqb c "{" then check_loop fuel t argument_count (i + 2) placeholders
                else if Ascii.eqb c "}" then check_loop fuel t argument_count (i + 2) (S placeholders)
                else unterminated_open_brace
            end
          else if Ascii.eqb ch "}" then
            match t !! (i + 1) with
            | None => stray_close_brace
            | Some c =>
                if negb (Ascii.eqb c "}") then stray_close_brace
                else check_loop fuel t argument_count (i + 2) placeholders
            end
          else check_loop fuel t argument_count (S i) placeholders
      end
  end.

Definition check_format_string (t : text) (argument_count : nat) : FormatStringError :=
  check_loop (S (length t)) t argument_count 0 0.

(** ** The renderer *)

Section render.
Context {F : Type} (float_chars : F -> text).

(** The [Formattable] categories. *)
Inductive argument : Type :=
  | ABool (b : bool)
  | AChar (c : ascii)
  | AInt (z : Z)
  | AFloat (f : F)
  | AText (t : text).

(** [to_chars] of a floating-point value into 32 characters, or nothing if it does not fit. *)
Definition append_float (out : builder) (f : F) : builder :=
  if (length (float_chars f) <=? 32)%nat then append_text out (float_chars f) else out.

Definition append_value (out : builder) (value : argument) : builder :=
  match value with
  | ABool b => append_text out (if b then $"true" else $"false")
  | AChar c => append_char out c
  | AInt z => append_int out z
  | AFloat f => append_float out f
  | AText t => append_text out t
  end.

Fixpoint advance_loop (fuel : nat) (out : builder) (rest : text) (run i : nat) : option (builder * text * bool) :=
  match fuel with
  | O => None
  | S fuel =>
      match rest !! i with
      | None => Some (append_text out (drop run rest), [], false)
      | Some ch =>
          if negb (Ascii.eqb ch "{") && negb (Ascii.eqb ch "}") then advance_loop fuel out rest run (S i)
          else
            let out := append_text out (take (i - run) (drop run rest)) in
            match rest !! (i + 1) with
            | None => None
            | Some c =>
                if Ascii.eqb c ch then advance_loop fuel (append_char out ch) rest (i + 2) (i + 2)
                else Some (out, drop (i + 2) rest, true)
            end
      end
  end.

Definition advance_to_placeholder (out : builder) (rest : text) : option (builder * text * bool) :=
  advance_loop (S (length rest)) out rest 0 0.

Definition append_segment (out : builder) (rest : text) (value : argument) : option (builder * text) :=
  match advance_to_placeholder out rest with
  | None => None
  | Some (out, rest, true) => Some (append_value out value, rest)
  | Some (out, rest, false) => Some (out, rest)
  end.

Fixpoint append_segments (out : builder) (rest : text) (args : list argument) : option (builder * text) :=
  match args with
  | [] => Some (out, rest)
  | a :: args =>
      match append_segment out rest a with
      | None => None
      | Some (out, rest) => append_segments out rest args
      end
  end.

Definition format_to (out : builder) (fmt : text) (args : list argument) : option builder :=
  match append_segments out fmt args with
  | None => None
  | Some (out, rest) =>
      match advance_to_placeholder out rest with
      | None => None
      | Some (out, _, _) => Some out
      end
  end.

Definition format (fmt : text) (args : list argument) : option text :=
  (fun out => (str_move out).1) <$> format_to empty_builder fmt args.

(** ** The reference: a format string is a sequence of literal characters and holes *)

Inductive piece : Type := Lit (c : ascii) | Hole.

Inductive parses : text -> list piece -> Prop :=
  | parses_nil : parses [] []
  | parses_char c t ps : c <> "{"%char -> c <> "}"%char -> parses t ps -> parses (c :: t) (Lit c :: ps)
  | parses_open t ps : parses t ps -> parses ("{"%char :: "{"%char :: t) (Lit "{" :: ps)
  | parses_close t ps : parses t ps -> parses ("}"%char :: "}"%char :: t) (Lit "}" :: ps)
  | parses_hole t ps : parses t ps -> parses ("{"%char :: "}"%char :: t) (Hole :: ps).

Definition holes (ps : list piece) : nat := length (List.filter (fun p => match p with Hole => true | Lit _ => false end) ps).

(** Each hole takes the next argument. *)
Fixpoint render (out : text) (ps : list piece) (args : list argument) : text :=
  match ps, args with
  | [], _ => out
  | Lit c :: ps, _ => render (out ++ [c]) ps args
  | Hole :: ps, a :: args => render (buffer_ (append_value (Builder out) a)) ps args
  | Hole :: ps, [] => render out ps []
  end.

End render.

(** ** The validator *)

Section check.
Context (t : text) (n : nat).

(** The verdict on what is left from an index on, [k] placeholders having been counted. *)
Definition verdict (r : FormatStringError) (u : text) (k : nat) : Prop :=
  match r with
  | none => exists ps, parses u ps /\ k + holes ps = n
  | argument_count_mismatch => exists ps, parses u ps /\ k + holes ps <> n
  | unterminated_open_brace => exists a ps b, u = a ++ "{"%char :: b /\ parses a ps /\
      match b with [] => True | c :: _ => c <> "{"%char /\ c <> "}"%char end
  | stray_close_brace => exists a ps b, u = a ++ "}"%char :: b /\ parses a ps /\
      match b with [] => True | c :: _ => c <> "}"%char end
  end.

(** A verdict on the rest is one on the whole, after one more piece. *)
Lemma verdict_piece r a u k (p : piece) j :
  (forall v ps, parses v ps -> parses (a ++ v) (p :: ps)) -> holes [p] + k = j ->
  verdict r u j -> verdict r (a ++ u) k.
Proof.
  intros Hp Hj. assert (forall ps, k + holes (p :: ps) = j + holes ps) as Hh.
  { intros ps. change (holes (p :: ps)) with (length (List.filter (fun p => match p with Hole => true | Lit _ => false end) ([p] ++ ps))).
    rewrite List.filter_app, length_app. unfold holes in *. lia. }
  destruct r; simpl.
  - intros (ps & H & E). exists (p :: ps). split; [auto|]. rewrite Hh. done.
  - intros (a' & ps & b & -> & H & E). exists (a ++ a'), (p :: ps), b. split_and!; [lists|auto|done].
  - intros (a' & ps & b & -> & H & E). exists (a ++ a'), (p :: ps), b. split_and!; [lists|auto|done].
  - intros (ps & H & E). exists (p :: ps). split; [auto|]. rewrite Hh. done.
Qed.

Lemma check_loop_verdict fuel i k :
  length (drop i t) < fuel -> verdict (check_loop fuel t n i k) (drop i t) k.
Proof.
  revert i k. induction fuel as [|fuel IH]; intros i k Hf; [lia|]. cbn [check_loop].
  destruct (drop i t) as [|ch u] eqn:E.
  - destruct (drop_nil_lookup _ _ E) as [-> _]. destruct (Nat.eqb_spec k n); exists []; (split; [constructor|unfold holes; simpl; lia]).
  - destruct (drop_cons_lookup _ _ _ _ E) as [-> E1]. rewrite Nat.add_1_r. simpl in Hf.
    destruct (Ascii.eqb_spec ch "{") as [->|Ho]; [|destruct (Ascii.eqb_spec ch "}") as [->|Hc]].
    + destruct u as [|c v].
      * destruct (drop_nil_lookup _ _ E1) as [-> _]. exists [], [], []. split_and!; [done|constructor|done].
      * destruct (drop_cons_lookup _ _ _ _ E1) as [-> E2]. replace (i + 2) with (S (S i)) by lia. simpl in Hf.
        destruct (Ascii.eqb_spec c "{") as [->|H1]; [|destruct (Ascii.eqb_spec c "}") as [->|H2]].
        -- apply (verdict_piece _ ["{"; "{"]%char _ _ (Lit "{") k); [intros; by constructor|done|].
           rewrite <- E2. apply IH. rewrite E2. lia.
        -- apply (verdict_piece _ ["{"; "}"]%char _ _ Hole (S k)); [intros; by constructor|done|].
           rewrite <- E2. apply IH. rewrite E2. lia.
        -- exists [], [], (c :: v). split_and!; [done|constructor|done|done].
    + destruct u as [|c v].
      * destruct (drop_nil_lookup _ _ E1) as [-> _]. exists [], [], []. split_and!; [done|constructor|done].
      * destruct (drop_cons_lookup _ _ _ _ E1) as [-> E2]. replace (i + 2) with (S (S i)) by lia. simpl in Hf.
        destruct (Ascii.eqb_spec c "}") as [->|H1]; simpl.
        -- apply (verdict_piece _ ["}"; "}"]%char _ _ (Lit "}") k); [intros; by constructor|done|].
           rewrite <- E2. apply IH. rewrite E2. lia.
        -- exists [], [], (c :: v). split_and!; [done|constructor|done].
    + apply (verdict_piece _ [ch] _ _ (Lit ch) k); [intros; by constructor|done|].
      rewrite <- E1. apply IH. rewrite E1. lia.
Qed.
End check.

Lemma parses_deterministic t ps ps' : parses t ps -> parses t ps' -> ps = ps'.
Proof.
  intros H. revert ps'. induction H; intros ps' H'; inv H'; try done; f_equal; auto.
Qed.

(** ** The renderer *)

Section rendering.
Context {F : Type} (float_chars : F -> text).

(** What one advance does on a parsed rest: the literal characters up to the hole, or all of them. *)
Lemma advance_loop_spec fuel (out : builder) rest run i ps :
  parses (drop i rest) ps -> run <= i <= length rest -> length (drop i rest) < fuel ->
  exists lits, let text := buffer_ out ++ take (i - run) (drop run rest) ++ lits in
    (ps = map Lit lits /\ advance_loop fuel out rest run i = Some (Builder text, [], false)) \/
    (exists ps' j, ps = map Lit lits ++ Hole :: ps' /\ parses (drop j rest) ps' /\ j <= length rest /\
      advance_loop fuel out rest run i = Some (Builder text, drop j rest, true)).
Proof.
  revert out run i ps. induction fuel as [|fuel IH]; intros out run i ps Hp Hi Hf; [lia|]. cbn [advance_loop].
  remember (drop i rest) as u eqn:E. symmetry in E.
  assert (forall c, rest !! i = Some c -> take (S i - run) (drop run rest) = take (i - run) (drop run rest) ++ [c]) as Hrun.
  { intros c Hc. replace (S i - run) with (S (i - run)) by lia. apply take_S_r. rewrite lookup_drop.
    by replace (run + (i - run)) with i by lia. }
  destruct Hp as [|c t ps Ho Hc Hp|t ps Hp|t ps Hp|t ps Hp].
  - destruct (drop_nil_lookup _ _ E) as [-> Hle]. exists []. left. split; [done|].
    unfold append_text. rewrite app_nil_r. by rewrite (take_ge (drop run rest)) by (rewrite length_drop; lia).
  - destruct (drop_cons_lookup _ _ _ _ E) as [Hc' E1]. rewrite Hc'.
    destruct (Ascii.eqb_spec c "{"); [done|]. destruct (Ascii.eqb_spec c "}"); [done|]. simpl.
    apply lookup_lt_Some in Hc' as Hlt.
    destruct (IH out run (S i) ps) as (lits & H); [by rewrite E1|lia|rewrite E1; simpl in Hf; lia|].
    exists (c :: lits). rewrite (Hrun c Hc'), <- app_assoc in H. destruct H as [[-> H]|(ps' & j & -> & Hps & Hj & H)].
    + by left.
    + right. by exists ps', j.
  - destruct (drop_cons_lookup _ _ _ _ E) as [-> E1]. destruct (drop_cons_lookup _ _ _ _ E1) as [Hc' E2]. simpl.
    rewrite Nat.add_1_r, Hc'. replace (i + 2) with (S (S i)) by lia. apply lookup_lt_Some in Hc' as Hlt.
    destruct (IH (append_char (append_text out (take (i - run) (drop run rest))) "{") (S (S i)) (S (S i)) ps)
      as (lits & H); [by rewrite E2|lia|rewrite E2; simpl in Hf; lia|].
    exists ("{"%char :: lits). rewrite Nat.sub_diag, take_0 in H. simpl in H. rewrite <- !app_assoc in H.
    destruct H as [[-> H]|(ps' & j & -> & Hps & Hj & H)]; [by left|right; by exists ps', j].
  - destruct (drop_cons_lookup _ _ _ _ E) as [-> E1]. destruct (drop_cons_lookup _ _ _ _ E1) as [Hc' E2]. simpl.
    rewrite Nat.add_1_r, Hc'. replace (i + 2) with (S (S i)) by lia. apply lookup_lt_Some in Hc' as Hlt.
    destruct (IH (append_char (append_text out (take (i - run) (drop run rest))) "}") (S (S i)) (S (S i)) ps)
      as (lits & H); [by rewrite E2|lia|rewrite E2; simpl in Hf; lia|].
    exists ("}"%char :: lits). rewrite Nat.sub_diag, take_0 in H. simpl in H. rewrite <- !app_assoc in H.
    destruct H as [[-> H]|(ps' & j & -> & Hps & Hj & H)]; [by left|right; by exists ps', j].
  - destruct (drop_cons_lookup _ _ _ _ E) as [-> E1]. destruct (drop_cons_lookup _ _ _ _ E1) as [Hc' E2]. simpl.
    rewrite Nat.add_1_r, Hc'. replace (i + 2) with (S (S i)) by lia. apply lookup_lt_Some in Hc' as Hlt.
    exists []. right. exists ps, (S (S i)). split_and!; [done|by rewrite E2|lia|]. unfold append_text. by rewrite app_nil_r.
Qed.

Lemma advance_spec (out : builder) rest ps :
  parses rest ps ->
  exists lits,
    (ps = map Lit lits /\ advance_to_placeholder out rest = Some (append_text out lits, [], false)) \/
    (exists ps' rest', ps = map Lit lits ++ Hole :: ps' /\ parses rest' ps' /\
      advance_to_placeholder out rest = Some (append_text out lits, rest', true)).
Proof.
  intros Hp. destruct (advance_loop_spec (S (length rest)) out rest 0 0 ps) as (lits & H); [done|lia|rewrite drop_0; lia|].
  exists lits. simpl in H. destruct H as [H|(ps' & j & ? & ? & _ & ?)]; [by left|right; eauto].
Qed.

Lemma holes_lits lits ps : holes (map Lit lits ++ ps) = holes ps.
Proof. unfold holes. rewrite List.filter_app, length_app. by induction lits. Qed.

Lemma render_lits out lits ps args : render float_chars out (map Lit lits ++ ps) args = render float_chars (out ++ lits) ps args.
Proof.
  revert out. induction lits as [|c lits IH]; intros out; simpl; [by rewrite app_nil_r|].
  destruct args; by rewrite IH, <- app_assoc.
Qed.

Lemma format_to_render (out : builder) fmt ps args :
  parses fmt ps -> holes ps = length args ->
  format_to float_chars out fmt args = Some (Builder (render float_chars (buffer_ out) ps args)).
Proof.
  unfold format_to. revert out fmt ps. induction args as [|a args IH]; intros out fmt ps Hp Hh; simpl.
  - destruct (advance_spec out fmt ps Hp) as (lits & [[-> ->]|(ps' & rest' & -> & _)]).
    + rewrite <- (app_nil_r (map Lit lits)), render_lits. done.
    + rewrite holes_lits in Hh. unfold holes in Hh. simpl in Hh. lia.
  - unfold append_segment. destruct (advance_spec out fmt ps Hp) as (lits & [[-> ->]|(ps' & rest' & -> & Hp' & ->)]).
    + rewrite <- (app_nil_r (map Lit lits)), holes_lits in Hh. unfold holes in Hh. simpl in Hh. lia.
    + rewrite holes_lits in Hh. rewrite (IH _ _ ps' Hp') by (unfold holes in *; simpl in *; lia).
      rewrite render_lits. by destruct out.
Qed.
End rendering.

(** ** Properties *)

(** C15. The validator's verdict is exact: [none] means a sequence of literals, escapes and
    placeholders with as many placeholders as arguments, a count mismatch the same with another
    number, and the two brace errors that a parseable prefix is followed by a brace that starts
    nothing. *)
Theorem check_format_string_exact t n :
  verdict n (check_format_string t n) t 0.
Proof.
  pose proof (check_loop_verdict t n (S (length t)) 0 0) as V. rewrite drop_0 in V. apply V. lia.
Qed.

Lemma format_validated {F} (float_chars : F -> text) fmt args :
  check_format_string fmt (length args) = none ->
  exists ps, parses fmt ps /\ holes ps = length args /\ format float_chars fmt args = Some (render float_chars [] ps args).
Proof.
  intros H. pose proof (check_loop_verdict fmt (length args) (S (length fmt)) 0 0) as V.
  unfold check_format_string in H. rewrite H, drop_0 in V. destruct V as (ps & Hp & Hh); [lia|]. simpl in Hh.
  exists ps. split_and!; [done|done|]. unfold format. by rewrite (format_to_render float_chars empty_builder fmt ps args).
Qed.

(** C14. Formatting with a validated string never reads out of bounds: the result is the literal
    text, escapes undone, with every placeholder replaced by its argument, in order, none left
    over. *)
Theorem format_renders {F} (float_chars : F -> text) fmt args :
  check_format_string fmt (length args) = none ->
  exists ps, parses fmt ps /\ holes ps = length args /\
    format float_chars fmt args = Some (render float_chars [] ps args).
Proof. apply format_validated. Qed.

(** ** Witnesses *)

Example format_sample :
  format (fun _ : unit => $"1.5") ($"{} + {{{}}} = {}") [AInt 1; ABool true; AFloat tt] = Some ($"1 + {true} = 1.5") /\
  check_format_string ($"{} {0}") 1 = unterminated_open_brace /\ check_format_string ($"a}") 0 = stray_close_brace.
Proof. by vm_compute. Qed.

Lemma format_renders_witness :
  exists ps, parses ($"{}={{{}}}") ps /\ holes ps = 2 /\
    format (fun _ : unit => []) ($"{}={{{}}}") [AText ($"x"); AInt (-5)] = Some (render (fun _ : unit => []) [] ps [AText ($"x"); AInt (-5)]).
Proof. apply (format_renders (fun _ : unit => []) ($"{}={{{}}}") [AText ($"x"); AInt (-5)]). vm_compute. reflexivity. Defined.
