(* ===== verification/CliParser.v ===== *)
(** * CliParser (cli_parser.hpp): registration, parsing and help

    The bound variables of the caller are a store, addressed by number: an option and a positional
    may be bound to the same variable, and the model keeps that aliasing.  The callables
    [assign]/[set_flag] of the specs are the targets they capture ([None]: an empty
    [std::function], whose call throws).  Floating-point conversion is the standard library's
    ([float_parse]). *)

From S2P Require Import Prelude StdAlgo Charconv StringBuilder.

Abbreviation NUL := ("000"%char) (only parsing).

Inductive CliError : Set :=
  | none | unknown_option | missing_value | unexpected_value | invalid_value | missing_required | unexpected_positional.

Inductive Status : Set := success_ | help_requested_ | error_.

Record ParseResult := MkResult { status_ : Status; cli_error_ : CliError; message_ : text }.

Definition success : ParseResult := MkResult success_ none [].
Definition help_result : ParseResult := MkResult help_requested_ none [].
Definition failure (e : CliError) (message : text) : ParseResult := MkResult error_ e message.
Definition ok (r : ParseResult) : bool := match status_ r with success_ => true | _ => false end.

Section cli.
Context {F : Type} (float_parse : text -> option F).

(** ** Values, targets and the caller's variables *)

Inductive cli_value : Type := VText (t : text) | VBool (b : bool) | VInt (z : Z) | VFloat (f : F).

(** The target types; an integer type is given by its range. *)
Inductive kind : Type := KText | KBool | KInt (lo hi : Z) | KFloat.

Record target := Target { var : nat; target_kind : kind }.

Abbreviation store := (gmap nat cli_value).

Definition one_of (t : text) (words : list text) : bool := existsb (fun w => bool_decide (t = w)) words.

(** [detail::cli_parse]: the converted value, or [None] ([false]) with the target untouched. *)
Definition cli_parse (k : kind) (t : text) : option cli_value :=
  match k with
  | KText => Some (VText t)
  | KBool =>
      if one_of t [$"true"; $"1"; $"yes"; $"on"] then Some (VBool true)
      else if one_of t [$"false"; $"0"; $"no"; $"off"] then Some (VBool false)
      else None
  | KInt lo hi =>
      match from_chars lo hi t with
      | Some (v, []) => Some (VInt v)
      | _ => None
      end
  | KFloat => VFloat <$> float_parse t
  end.

(** ** The parser object *)

Record OptionSpec := MkOption {
  long_name : text;
  short_name : ascii;
  option_help_ : text;
  value_name : text;
  takes_value : bool;
  required : bool;
  is_help : bool;
  seen : bool;
  assign : option target;
  set_flag : option nat
}.

Record PositionalSpec := MkPositional {
  name : text;
  positional_help : text;
  positional_required : bool;
  positional_seen : bool;
  positional_assign : option target
}.

Record parser := Parser {
  program_name_ : text;
  description_ : text;
  options_ : list OptionSpec;
  positionals_ : list PositionalSpec
}.

Definition set_seen (o : OptionSpec) (b : bool) : OptionSpec :=
  MkOption (long_name o) (short_name o) (option_help_ o) (value_name o) (takes_value o) (required o) (is_help o) b
    (assign o) (set_flag o).
Definition set_positional_seen (q : PositionalSpec) (b : bool) : PositionalSpec :=
  MkPositional (name q) (positional_help q) (positional_required q) b (positional_assign q).
Definition set_options (p : parser) (os : list OptionSpec) : parser :=
  Parser (program_name_ p) (description_ p) os (positionals_ p).
Definition set_positionals (p : parser) (qs : list PositionalSpec) : parser :=
  Parser (program_name_ p) (description_ p) (options_ p) qs.

(** ** Registration *)

Definition help_spec : OptionSpec :=
  MkOption ($"help") "h" ($"Show this help message and exit.") ($"VALUE") false false true false None None.

Definition make_parser (program_name description : text) : parser := Parser program_name description [help_spec] [].

(** The first position that satisfies a test: a pointer into [options_], or null. *)
Fixpoint find_index {A} (f : A -> bool) (l : list A) : option nat :=
  match l with
  | [] => None
  | x :: l => if f x then Some 0 else S <$> find_index f l
  end.

Definition find_long (p : parser) (n : text) : option nat :=
  find_index (fun o => negb (bool_decide (long_name o = [])) && bool_decide (long_name o = n)) (options_ p).

Definition find_short (p : parser) (c : ascii) : option nat :=
  find_index (fun o => negb (Ascii.eqb (short_name o) NUL) && Ascii.eqb (short_name o) c) (options_ p).

Definition make_named_spec (p : parser) (long : text) (short : ascii) (help : text) : outcome OptionSpec :=
  if bool_decide (long = []) && Ascii.eqb short NUL then Throw logic_error
  else if negb (bool_decide (long = [])) && bool_decide (find_long p long <> None) then Throw logic_error
  else if negb (Ascii.eqb short NUL) && bool_decide (find_short p short <> None) then Throw logic_error
  else Ret (MkOption long short help ($"VALUE") false false false false None None).

Definition add_flag (p : parser) (long : text) (short : ascii) (help : text) (bound : nat) : outcome parser :=
  let! spec := make_named_spec p long short help in
  Ret (set_options p (options_ p ++ [MkOption (long_name spec) (short_name spec) (option_help_ spec) (value_name spec)
    false (required spec) (is_help spec) (seen spec) (assign spec) (Some bound)])).

Definition add_option (p : parser) (long : text) (short : ascii) (help : text) (tgt : target) (req : bool)
    (value : text) : outcome parser :=
  let! spec := make_named_spec p long short help in
  Ret (set_options p (options_ p ++ [MkOption (long_name spec) (short_name spec) (option_help_ spec) value
    true req (is_help spec) (seen spec) (Some tgt) (set_flag spec)])).

Definition add_positional (p : parser) (n help : text) (tgt : target) (req : bool) : outcome parser :=
  if bool_decide (n = []) then Throw logic_error
  else if existsb (fun q => bool_decide (name q = n)) (positionals_ p) then Throw logic_error
  else Ret (set_positionals p (positionals_ p ++ [MkPositional n help req false (Some tgt)])).

(** ** Parsing *)

(** What a step of the parse can change: the parser's seen marks and the caller's variables. *)
Definition world : Type := parser * store.

(** Calling a captured [assign] or [set_flag]; an empty callable throws [std::bad_function_call],
    listed here under [logic_error]. *)
Definition call_assign (s : store) (f : option target) (t : text) : outcome (store * bool) :=
  match f with
  | None => Throw logic_error
  | Some tgt =>
      match cli_parse (target_kind tgt) t with
      | Some v => Ret (<[var tgt := v]> s, true)
      | None => Ret (s, false)
      end
  end.

Definition call_set_flag (s : store) (f : option nat) : outcome store :=
  match f with
  | None => Throw logic_error
  | Some v => Ret (<[v := VBool true]> s)
  end.

Definition mark_seen (p : parser) (i : nat) : parser := set_options p (alter (fun o => set_seen o true) i (options_ p)).

Definition assign_option (w : world) (i : nat) (o : OptionSpec) (label value : text) : outcome (world * ParseResult) :=
  let! (s, converted) := call_assign w.2 (assign o) value in
  if negb converted then
    Ret ((w.1, s), failure invalid_value ($"invalid value '" ++ value ++ $"' for option '" ++ label ++ $"'"))
  else Ret ((mark_seen w.1 i, s), success).

(** [body.find('=')] and the two sides of it. *)
Definition split_equals (body : text) : text * option text :=
  match find_first ($"=") body with
  | Some eq => (take eq body, Some (drop (eq + 1) body))
  | None => (body, None)
  end.

(** The result carries the index, which moves past a separate value token. *)
Definition parse_long (w : world) (body : text) (args : list text) (index : nat) : outcome (world * nat * ParseResult) :=
  let '(n, inline_value) := split_equals body in
  match find_long w.1 n with
  | None => Ret (w, index, failure unknown_option ($"unknown option '--" ++ n ++ $"'"))
  | Some i =>
      match options_ w.1 !! i with
      | None => Throw logic_error
      | Some o =>
          if is_help o then Ret (w, index, help_result)
          else if negb (takes_value o) then
            match inline_value with
            | Some _ => Ret (w, index, failure unexpected_value ($"flag '--" ++ long_name o ++ $"' takes no value"))
            | None =>
                let! s := call_set_flag w.2 (set_flag o) in
                Ret ((mark_seen w.1 i, s), index, success)
            end
          else
            match inline_value with
            | Some value =>
                let! (w, r) := assign_option w i o ($"--" ++ long_name o) value in Ret (w, index, r)
            | None =>
                match args !! (index + 1) with
                | None => Ret (w, index, failure missing_value ($"option '--" ++ long_name o ++ $"' requires a value"))
                | Some value =>
                    let! (w, r) := assign_option w i o ($"--" ++ long_name o) value in Ret (w, index + 1, r)
                end
            end
      end
  end.

(** The loop over the letters of a cluster: structural, the body being a finite view. *)
Fixpoint parse_short (w : world) (body : text) (args : list text) (index : nat) : outcome (world * nat * ParseResult) :=
  match body with
  | [] => Ret (w, index, success)
  | letter :: rest =>
      match find_short w.1 letter with
      | None => Ret (w, index, failure unknown_option ($"unknown option '-" ++ [letter] ++ $"'"))
      | Some i =>
          match options_ w.1 !! i with
          | None => Throw logic_error
          | Some o =>
              if is_help o then Ret (w, index, help_result)
              else
                let label := $"-" ++ [letter] in
                if negb (takes_value o) then
                  let! s := call_set_flag w.2 (set_flag o) in
                  parse_short (mark_seen w.1 i, s) rest args index
                else
                  match rest with
                  | c :: rest' =>
                      let value := if Ascii.eqb c "=" then rest' else rest in
                      let! (w, r) := assign_option w i o label value in Ret (w, index, r)
                  | [] =>
                      match args !! (index + 1) with
                      | None => Ret (w, index, failure missing_value ($"option '" ++ label ++ $"' requires a value"))
                      | Some value => let! (w, r) := assign_option w i o label value in Ret (w, index + 1, r)
                      end
                  end
          end
      end
  end.

Definition consume_positional (w : world) (token : text) (positional_index : nat) : outcome (world * nat * ParseResult) :=
  match positionals_ w.1 !! positional_index with
  | None => Ret (w, positional_index, failure unexpected_positional ($"unexpected positional argument '" ++ token ++ $"'"))
  | Some q =>
      let! (s, converted) := call_assign w.2 (positional_assign q) token in
      if negb converted then
        Ret ((w.1, s), S positional_index,
             failure invalid_value ($"invalid value '" ++ token ++ $"' for argument '" ++ name q ++ $"'"))
      else
        Ret ((set_positionals w.1 (alter (fun q => set_positional_seen q true) positional_index (positionals_ w.1)), s),
             S positional_index, success)
  end.

Definition check_required (p : parser) : ParseResult :=
  match List.find (fun o => required o && negb (seen o)) (options_ p) with
  | Some o => failure missing_required ($"missing required option '--" ++ long_name o ++ $"'")
  | None =>
      match List.find (fun q => positional_required q && negb (positional_seen q)) (positionals_ p) with
      | Some q => failure missing_required ($"missing required argument '" ++ name q ++ $"'")
      | None => success
      end
  end.

Definition is_long (token : text) : bool := starts_with ($"--") token.
Definition is_short (token : text) : bool :=
  (2 <=? length token)%nat && match token with c :: _ => Ascii.eqb c "-" | [] => false end.

(** [for (std::size_t i = 0; i < args.size(); ++i)]: [i] strictly grows, so [length args + 1] steps
    are enough. *)
Fixpoint parse_loop (fuel : nat) (w : world) (args : list text) (i positional_index : nat) (options_ended : bool)
    : outcome (world * ParseResult) :=
  match fuel with
  | O => Throw logic_error
  | S fuel =>
      match args !! i with
      | None => Ret (w, check_required w.1)
      | Some token =>
          if negb options_ended && bool_decide (token = $"--") then parse_loop fuel w args (S i) positional_index true
          else if negb options_ended && is_long token then
            let! (w, i, result) := parse_long w (drop 2 token) args i in
            if negb (ok result) then Ret (w, result) else parse_loop fuel w args (S i) positional_index options_ended
          else if negb options_ended && is_short token then
            let! (w, i, result) := parse_short w (drop 1 token) args i in
            if negb (ok result) then Ret (w, result) else parse_loop fuel w args (S i) positional_index options_ended
          else
            let! (w, positional_index, result) := consume_positional w token positional_index in
            if negb (ok result) then Ret (w, result) else parse_loop fuel w args (S i) positional_index options_ended
      end
  end.

Definition clear_seen (p : parser) : parser :=
  Parser (program_name_ p) (description_ p) (map (fun o => set_seen o false) (options_ p))
    (map (fun q => set_positional_seen q false) (positionals_ p)).

Definition parse (p : parser) (s : store) (args : list text) : outcome (world * ParseResult) :=
  parse_loop (S (length args)) (clear_seen p, s) args 0 0 false.

(** [parse(argc, argv)]: the program name is skipped. *)
Definition parse_main (p : parser) (s : store) (argv : list text) : outcome (world * ParseResult) := parse p s (tail argv).

(** ** Help *)

Definition option_label (o : OptionSpec) : text :=
  (if negb (Ascii.eqb (short_name o) NUL) then
     ["-"%char; short_name o] ++ (if negb (bool_decide (long_name o = [])) then $", " else [])
   else $"    ")
  ++ (if negb (bool_decide (long_name o = [])) then $"--" ++ long_name o else [])
  ++ (if takes_value o then $" " ++ value_name o else []).

Definition option_help (o : OptionSpec) : text := if required o then option_help_ o ++ $" (required)" else option_help_ o.

Definition label_column_width (p : parser) : nat :=
  let width := foldl (fun w q => Nat.max w (length (name q))) 0 (positionals_ p) in
  foldl (fun w o => Nat.max w (length (option_label o))) width (options_ p).

Fixpoint append_padding (out : builder) (n : nat) : builder :=
  match n with
  | O => out
  | S n => append_padding (append_char out " ") n
  end.

Definition append_help_row (out : builder) (label help : text) (width : nat) : builder :=
  let out := append_text out ($"  ") in
  let out := append_text out label in
  let out := append_padding out (width - length label) in
  let out := append_text out ($"  ") in
  let out := append_text out help in
  append_char out "010".

Definition usage_line (p : parser) (out : builder) : builder :=
  let out := append_text (append_text out ($"Usage: ")) (program_name_ p) in
  let out := if negb (bool_decide (options_ p = [])) then append_text out ($" [OPTIONS]") else out in
  let out := foldl (fun out q =>
    let out := append_text out (if positional_required q then $" <" else $" [") in
    let out := append_text out (name q) in
    append_text out (if positional_required q then $">" else $"]")) out (positionals_ p) in
  append_char out "010".

Definition newline : ascii := "010".

Definition help (p : parser) : text :=
  let out := usage_line p empty_builder in
  let out := if negb (bool_decide (description_ p = [])) then
    append_char (append_text (append_char out newline) (description_ p)) newline else out in
  let width := label_column_width p in
  let out := if negb (bool_decide (positionals_ p = [])) then
    foldl (fun out q => append_help_row out (name q) (positional_help q) width)
      (append_text out (newline :: $"Positional arguments:" ++ [newline])) (positionals_ p) else out in
  let out := append_text out (newline :: $"Options:" ++ [newline]) in
  let out := foldl (fun out o => append_help_row out (option_label o) (option_help o) width) out (options_ p) in
  (str_move out).1.

End cli.
