(* ===== verification/CliProofs.v ===== *)
(** * CliParser: what parsing guarantees

    Parsers built by the registration functions resolve every name to its own option and never
    call an empty callable, so [parse] returns a result on any input.  The grammar of the class
    documentation is stated as equalities between spellings, in any state of the loop ([run]: the
    loop on the tokens that are left). *)

From S2P Require Import Prelude StdAlgo Charconv StringBuilder CliParser.

(** ** Finding *)

Lemma find_index_some {A} (f : A -> bool) l i :
  find_index f l = Some i -> exists x, l !! i = Some x /\ f x = true /\ forall j y, j < i -> l !! j = Some y -> f y = false.
Proof.
  revert i. induction l as [|x l IH]; intros i H; simpl in H; [done|]. destruct (f x) eqn:E.
  - simplify_eq. exists x. split_and!; try done. intros j y Hj. lia.
  - destruct (find_index f l) as [k|]; simplify_eq/=. destruct (IH k eq_refl) as (z & Hz & Hf & Hno).
    exists z. split_and!; try done. intros [|j] y Hj Hy; simpl in Hy; [by simplify_eq|]. apply (Hno j); [lia|done].
Qed.

Lemma find_index_none {A} (f : A -> bool) l : find_index f l = None -> Forall (fun x => f x = false) l.
Proof.
  induction l as [|x l IH]; intros H; simpl in H; [constructor|]. destruct (f x) eqn:E; [done|].
  constructor; [done|]. apply IH. by destruct (find_index f l).
Qed.

Lemma find_index_ext {A} (f g : A -> bool) l l' :
  Forall2 (fun x y => f x = g y) l l' -> find_index f l = find_index g l'.
Proof. induction 1 as [|x y l l' E H IH]; simpl; [done|]. by rewrite E, IH. Qed.

Lemma Forall_snoc_2 {A} (P : A -> Prop) l x : Forall P l -> P x -> Forall P (l ++ [x]).
Proof. intros Hl Hx. apply Forall_app. split; [done|]. by apply Forall_singleton. Qed.

Section proofs.
Context {F : Type} (float_parse : text -> option F).
Abbreviation store := (gmap nat (cli_value (F := F))).
Abbreviation world := (world (F := F)).

(** ** Parsers as the registration functions build them *)

Inductive built : parser -> Prop :=
  | built_make n d : built (make_parser n d)
  | built_flag p long short h v p' : built p -> add_flag p long short h v = Ret p' -> built p'
  | built_option p long short h tgt req value p' : built p -> add_option p long short h tgt req value = Ret p' -> built p'
  | built_positional p n h tgt req p' : built p -> add_positional p n h tgt req = Ret p' -> built p'.

(** No empty callable will be called. *)
Definition callable (o : OptionSpec) : Prop :=
  is_help o = false -> if takes_value o then assign o <> None else set_flag o <> None.

Definition complete (p : parser) : Prop :=
  Forall callable (options_ p) /\ Forall (fun q => positional_assign q <> None) (positionals_ p).

Definition names_distinct (os : list OptionSpec) : Prop :=
  forall i j o o', os !! i = Some o -> os !! j = Some o' -> i <> j ->
    (long_name o <> [] -> long_name o <> long_name o') /\ (short_name o <> NUL -> short_name o <> short_name o').

Lemma names_distinct_snoc os o :
  names_distinct os ->
  Forall (fun x => (long_name o <> [] -> long_name x <> long_name o) /\ (short_name o <> NUL -> short_name x <> short_name o)) os ->
  names_distinct (os ++ [o]).
Proof.
  intros Hd Hf i j a b Hi Hj Hij. rewrite Forall_forall in Hf.
  apply lookup_app_Some in Hi as [Hi|[Hi Ha]], Hj as [Hj|[Hj Hb]].
  - by apply (Hd i j).
  - apply list_lookup_singleton_Some in Hb as [? <-]. apply list_elem_of_lookup_2, Hf in Hi as [H1 H2].
    split; intros Hne E; [apply H1|apply H2]; congruence.
  - apply list_lookup_singleton_Some in Ha as [? <-]. apply list_elem_of_lookup_2, Hf in Hj as [H1 H2].
    split; intros Hne E; [by apply H1|by apply H2].
  - apply list_lookup_singleton_Some in Ha as [? _], Hb as [? _]. lia.
Qed.

Lemma make_named_spec_ret p long short h spec :
  make_named_spec p long short h = Ret spec ->
  spec = MkOption long short h ($"VALUE") false false false false None None /\ (long <> [] \/ short <> NUL) /\
  Forall (fun x => (long <> [] -> long_name x <> long) /\ (short <> NUL -> short_name x <> short)) (options_ p).
Proof.
  unfold make_named_spec. intros H.
  destruct (bool_decide (long = []) && Ascii.eqb short NUL) eqn:E1; [done|].
  destruct (negb (bool_decide (long = [])) && bool_decide (find_long p long <> None)) eqn:E2; [done|].
  destruct (negb (Ascii.eqb short NUL) && bool_decide (find_short p short <> None)) eqn:E3; [done|].
  simplify_eq. split_and!; [done| |].
  - apply andb_false_iff in E1 as [E1|E1]; [left; by apply bool_decide_eq_false in E1|right; by apply Ascii.eqb_neq in E1].
  - apply Forall_forall. intros x Hx. split; intros Hne E.
    + rewrite bool_decide_eq_false_2 in E2 by done. simpl in E2. apply bool_decide_eq_false, dec_stable in E2.
      apply find_index_none in E2. rewrite Forall_forall in E2. specialize (E2 x Hx).
      rewrite bool_decide_eq_false_2, bool_decide_eq_true_2 in E2 by congruence. done.
    + destruct (Ascii.eqb_spec short NUL); [done|]. simpl in E3. apply bool_decide_eq_false, dec_stable in E3.
      apply find_index_none in E3. rewrite Forall_forall in E3. specialize (E3 x Hx). rewrite E, Ascii.eqb_refl in E3.
      by destruct (Ascii.eqb_spec short NUL).
Qed.

Lemma built_spec p :
  built p -> complete p /\ names_distinct (options_ p) /\ Forall (fun o => long_name o <> [] \/ short_name o <> NUL) (options_ p).
Proof.
  unfold complete. induction 1 as [n d|p long short h v p' Hb IH H|p long short h tgt req value p' Hb IH H|p n h tgt req p' Hb IH H].
  - simpl. split; [by repeat constructor|]. split; [|apply Forall_singleton; by left].
    intros i j o o' Hi Hj Hij. apply list_lookup_singleton_Some in Hi as [-> _], Hj as [-> _]. done.
  - unfold add_flag in H. destruct (make_named_spec p long short h) as [spec|] eqn:E; simpl in H; [|done].
    apply make_named_spec_ret in E as (-> & Hn & Hf). simplify_eq. simpl. destruct IH as ((H1 & H2) & H3 & H4).
    split_and!; [by apply Forall_snoc_2|done|by apply names_distinct_snoc|by apply Forall_snoc_2].
  - unfold add_option in H. destruct (make_named_spec p long short h) as [spec|] eqn:E; simpl in H; [|done].
    apply make_named_spec_ret in E as (-> & Hn & Hf). simplify_eq. simpl. destruct IH as ((H1 & H2) & H3 & H4).
    split_and!; [by apply Forall_snoc_2|done|by apply names_distinct_snoc|by apply Forall_snoc_2].
  - unfold add_positional in H. destruct (bool_decide (n = [])); [done|]. destruct (existsb _ _); [done|]. simplify_eq.
    simpl. destruct IH as ((H1 & H2) & H3 & H4). split_and!; try done. by apply Forall_snoc_2.
Qed.

(** ** Parsing changes the seen marks and the variables, nothing else *)

Definition same_specs (p p' : parser) : Prop := clear_seen p' = clear_seen p.

Lemma clear_seen_fixed p : clear_seen (clear_seen p) = clear_seen p.
Proof. unfold clear_seen. simpl. by rewrite !map_map. Qed.

Lemma mark_seen_same p i : same_specs p (mark_seen p i).
Proof.
  unfold same_specs, clear_seen, mark_seen. simpl. f_equal. apply list_eq. intros j. rewrite !list_lookup_fmap.
  destruct (decide (i = j)) as [->|]; [rewrite list_lookup_alter_eq|by rewrite list_lookup_alter_ne].
  by destruct (options_ p !! j).
Qed.

Lemma mark_positional_same p i :
  same_specs p (set_positionals p (alter (fun q => set_positional_seen q true) i (positionals_ p))).
Proof.
  unfold same_specs, clear_seen. simpl. f_equal. apply list_eq. intros j. rewrite !list_lookup_fmap.
  destruct (decide (i = j)) as [->|]; [rewrite list_lookup_alter_eq|by rewrite list_lookup_alter_ne].
  by destruct (positionals_ p !! j).
Qed.

Lemma same_specs_lookup p p' i o' :
  same_specs p p' -> options_ p' !! i = Some o' -> exists o, options_ p !! i = Some o /\ set_seen o false = set_seen o' false.
Proof.
  intros H Ho. apply (f_equal options_) in H. simpl in H. apply (f_equal (lookup i)) in H.
  rewrite !list_lookup_fmap, Ho in H. destruct (options_ p !! i) as [o|]; [|done].
  exists o. split; [done|]. simpl in H. congruence.
Qed.

Lemma complete_same p p' : same_specs p p' -> complete p -> complete p'.
Proof.
  intros H [H1 H2]. split; apply Forall_lookup; intros i x Hx.
  - destruct (same_specs_lookup _ _ _ _ H Hx) as (o & Ho & E). rewrite Forall_lookup in H1. specialize (H1 i o Ho).
    unfold callable in *. destruct o, x; simpl in *. by simplify_eq.
  - apply (f_equal positionals_) in H. simpl in H. apply (f_equal (lookup i)) in H.
    rewrite !list_lookup_fmap, Hx in H. destruct (positionals_ p !! i) as [q|] eqn:Eq; simplify_eq/=.
    rewrite Forall_lookup in H2. specialize (H2 i q Eq). destruct q, x; simpl in *. by simplify_eq.
Qed.

(** ** Every call returns

    [keeps]: the registered options and positionals are the same up to the seen marks, and only
    variables bound by one of them can have changed. *)

Definition bound_vars (p : parser) : list nat :=
  flat_map (fun o => option_list (var <$> assign o) ++ option_list (set_flag o)) (options_ p) ++
  flat_map (fun q => option_list (var <$> positional_assign q)) (positionals_ p).

Definition keeps (w w' : world) : Prop :=
  same_specs w.1 w'.1 /\ forall v, v ∉ bound_vars w.1 -> w'.2 !! v = w.2 !! v.

Lemma flat_map_map {A B C} (f : B -> list C) (g : A -> B) l : flat_map f (map g l) = flat_map (fun x => f (g x)) l.
Proof. induction l as [|x l IH]; simpl; [done|]. by rewrite IH. Qed.

Lemma bound_vars_same p p' : same_specs p p' -> bound_vars p' = bound_vars p.
Proof.
  intros H. assert (forall p, bound_vars (clear_seen p) = bound_vars p) as E.
  { intros. unfold bound_vars. simpl. by rewrite !flat_map_map. }
  by rewrite <- E, H, E.
Qed.

Lemma keeps_refl w : keeps w w.
Proof. done. Qed.

Lemma keeps_trans w1 w2 w3 : keeps w1 w2 -> keeps w2 w3 -> keeps w1 w3.
Proof.
  intros [H1 S1] [H2 S2]. split; [unfold same_specs in *; congruence|].
  intros v Hv. rewrite S2, S1; [done..|]. by rewrite (bound_vars_same _ _ H1).
Qed.

Lemma bound_option p i o b :
  options_ p !! i = Some o -> var <$> assign o = Some b \/ set_flag o = Some b -> b ∈ bound_vars p.
Proof.
  intros Ho Hb. unfold bound_vars. apply elem_of_app. left. rewrite list_elem_of_In, in_flat_map. exists o.
  split; [by apply list_elem_of_lookup_2, list_elem_of_In in Ho|]. apply list_elem_of_In, elem_of_app.
  destruct Hb as [->| ->]; [left|right]; set_solver.
Qed.

Lemma bound_positional p i q b :
  positionals_ p !! i = Some q -> var <$> positional_assign q = Some b -> b ∈ bound_vars p.
Proof.
  intros Hq Hb. unfold bound_vars. apply elem_of_app. right. rewrite list_elem_of_In, in_flat_map. exists q.
  split; [by apply list_elem_of_lookup_2, list_elem_of_In in Hq|]. rewrite Hb. by left.
Qed.

Lemma call_assign_total s tgt t :
  exists s' b, call_assign float_parse s (Some tgt) t = Ret (s', b) /\ forall v, v <> var tgt -> s' !! v = s !! v.
Proof.
  simpl. destruct (cli_parse float_parse (target_kind tgt) t); eexists _, _; (split; [done|]); intros v Hv; [|done].
  by rewrite lookup_insert_ne.
Qed.

Lemma assign_option_total w i o label t :
  complete w.1 -> options_ w.1 !! i = Some o -> is_help o = false -> takes_value o = true ->
  exists w' r, assign_option float_parse w i o label t = Ret (w', r) /\ keeps w w'.
Proof.
  intros [Hc _] Ho Hh Ht. rewrite Forall_lookup in Hc. specialize (Hc i o Ho Hh). rewrite Ht in Hc.
  unfold assign_option. destruct (assign o) as [tgt|] eqn:Ea; [|done].
  destruct (call_assign_total w.2 tgt t) as (s' & b & -> & Hs). simpl.
  assert (forall v, v ∉ bound_vars w.1 -> s' !! v = w.2 !! v) as Hv.
  { intros v Hv. apply Hs. intros ->. apply Hv, (bound_option w.1 i o); [done|]. left. by rewrite Ea. }
  destruct b; simpl; eexists _, _; (split; [done|]); split; simpl; try done. apply mark_seen_same.
Qed.

Lemma set_flag_total w i o :
  complete w.1 -> options_ w.1 !! i = Some o -> is_help o = false -> takes_value o = false ->
  exists s, call_set_flag w.2 (set_flag o) = Ret s /\ keeps w (mark_seen w.1 i, s).
Proof.
  intros [Hc _] Ho Hh Ht. rewrite Forall_lookup in Hc. specialize (Hc i o Ho Hh). rewrite Ht in Hc.
  destruct (set_flag o) as [b|] eqn:Ea; [|done]. eexists. split; [done|]. split; simpl; [apply mark_seen_same|].
  intros v Hv. apply lookup_insert_ne. intros ->. apply Hv, (bound_option w.1 i o); [done|]. by right.
Qed.

Lemma find_long_lookup p n i : find_long p n = Some i -> exists o, options_ p !! i = Some o.
Proof. intros (x & Hx & _)%find_index_some. eauto. Qed.
Lemma find_short_lookup p c i : find_short p c = Some i -> exists o, options_ p !! i = Some o.
Proof. intros (x & Hx & _)%find_index_some. eauto. Qed.

Lemma parse_long_total w body args i :
  complete w.1 -> exists w' j r, parse_long float_parse w body args i = Ret (w', j, r) /\ keeps w w' /\ i <= j.
Proof.
  intros Hc. unfold parse_long. destruct (split_equals body) as [n inline].
  destruct (find_long w.1 n) as [x|] eqn:Ef; [|by eexists _, _, _].
  destruct (find_long_lookup _ _ _ Ef) as [o Ho]. rewrite Ho.
  destruct (is_help o) eqn:Eh; [by eexists _, _, _|]. destruct (takes_value o) eqn:Et; simpl.
  - destruct inline as [v|]; [|destruct (args !! (i + 1)) as [v|]; [|by eexists _, _, _]];
      (destruct (assign_option_total w x o ($"--" ++ long_name o) v Hc Ho Eh Et) as (w' & r & H & Hk));
      simpl in H; rewrite H; eexists _, _, _; split_and!; try done; lia.
  - destruct inline; [by eexists _, _, _|]. destruct (set_flag_total w x o Hc Ho Eh Et) as (s & -> & Hk). by eexists _, _, _.
Qed.

Lemma parse_short_total w body args i :
  complete w.1 -> exists w' j r, parse_short float_parse w body args i = Ret (w', j, r) /\ keeps w w' /\ i <= j.
Proof.
  revert w. induction body as [|c body IH]; intros w Hc; simpl; [by eexists _, _, _|].
  destruct (find_short w.1 c) as [x|] eqn:Ef; [|by eexists _, _, _].
  destruct (find_short_lookup _ _ _ Ef) as [o Ho]. rewrite Ho.
  destruct (is_help o) eqn:Eh; [by eexists _, _, _|]. destruct (takes_value o) eqn:Et; simpl.
  - destruct body as [|d body]; [destruct (args !! (i + 1)) as [v|]; [|by eexists _, _, _]|];
      (edestruct (assign_option_total w x o ["-"%char; c]) as (w' & r & H & Hk); [done..|]);
      rewrite H; eexists _, _, _; split_and!; try done; lia.
  - destruct (set_flag_total w x o Hc Ho Eh Et) as (s & -> & Hk). simpl.
    destruct (IH (mark_seen w.1 x, s)) as (w' & j & r & -> & Hk' & Hj); [by eapply complete_same, Hc; apply Hk|].
    eexists _, _, _. split_and!; [done| |done]. by eapply keeps_trans.
Qed.

Lemma consume_positional_total w t k :
  complete w.1 -> exists w' k' r, consume_positional float_parse w t k = Ret (w', k', r) /\ keeps w w'.
Proof.
  intros [_ Hc]. unfold consume_positional. destruct (positionals_ w.1 !! k) as [q|] eqn:Eq; [|by eexists _, _, _].
  rewrite Forall_lookup in Hc. specialize (Hc k q Eq). destruct (positional_assign q) as [tgt|] eqn:Ea; [|done].
  destruct (call_assign_total w.2 tgt t) as (s' & b & -> & Hs). simpl.
  assert (forall v, v ∉ bound_vars w.1 -> s' !! v = w.2 !! v) as Hv.
  { intros v Hv. apply Hs. intros ->. apply Hv, (bound_positional w.1 k q); [done|]. by rewrite Ea. }
  destruct b; simpl; eexists _, _, _; (split; [done|]); split; simpl; try done. apply mark_positional_same.
Qed.

Lemma parse_loop_total fuel w args i k ended :
  complete w.1 -> length args < fuel + i -> 0 < fuel ->
  exists w' r, parse_loop float_parse fuel w args i k ended = Ret (w', r) /\ keeps w w'.
Proof.
  revert w i k ended. induction fuel as [|fuel IH]; intros w i k ended Hc Hf H0; [lia|]. simpl.
  destruct (args !! i) as [t|] eqn:Et; [|by eexists _, _].
  assert (0 < fuel) as H1 by (apply lookup_lt_Some in Et; lia).
  assert (forall w1 i1 k1 ended1 r1, keeps w w1 -> i <= i1 ->
    exists w' r, (if negb (ok r1) then Ret (w1, r1) else parse_loop float_parse fuel w1 args (S i1) k1 ended1) = Ret (w', r) /\
      keeps w w') as Hnext.
  { intros w1 i1 k1 ended1 r1 Hk Hi. destruct (ok r1); simpl; [|by eexists _, _].
    destruct (IH w1 (S i1) k1 ended1) as (w' & r & -> & Hk'); [by eapply complete_same, Hc; apply Hk|lia|done|].
    eexists _, _. split; [done|]. by eapply keeps_trans. }
  repeat case_match.
  - apply IH; [done|lia|done].
  - destruct (parse_long_total w (drop 2 t) args i Hc) as (w1 & j & r & -> & Hk & Hj). simpl. by apply Hnext.
  - destruct (parse_short_total w (drop 1 t) args i Hc) as (w1 & j & r & -> & Hk & Hj). simpl. by apply Hnext.
  - destruct (consume_positional_total w t k Hc) as (w1 & k1 & r & -> & Hk). simpl. by apply Hnext.
Qed.

(** Parsing never throws and always ends.  On a parser made by the registration functions, and
    whatever the arguments, [parse] returns a result: it calls no empty callable, leaves the
    registered options and positionals as they are (so the parser can be used again), and changes
    no variable that is not bound by one of them. *)
Theorem parse_returns p s args :
  built p ->
  exists p' s' r, parse float_parse p s args = Ret ((p', s'), r) /\ clear_seen p' = clear_seen p /\
    forall v, v ∉ bound_vars p -> s' !! v = s !! v.
Proof.
  intros Hb. assert (same_specs p (clear_seen p)) as Hs by apply clear_seen_fixed.
  destruct (parse_loop_total (S (length args)) (clear_seen p, s) args 0 0 false) as ([p' s'] & r & H & Hk & Hv);
    [by eapply complete_same, built_spec|lia|lia|].
  exists p', s', r. split_and!; [done|unfold same_specs in *; simpl in *; congruence|]. intros v Hn. apply Hv. simpl fst. by rewrite (bound_vars_same _ _ Hs).
Qed.


End proofs.

(** A parser with a flag, a required integer option that has no long name, and a positional. *)
Definition sample : outcome parser :=
  let! p := add_flag (make_parser ($"tool") ($"does things")) ($"verbose") "v" ($"talk") 0 in
  let! p := add_option p [] "n" ($"count") (Target 1 (KInt (-2147483648) 2147483647)) true ($"N") in
  add_positional p ($"file") ($"input") (Target 2 KText) false.

Lemma sample_built p : sample = Ret p -> built p.
Proof.
  unfold sample. intros H. destruct (add_flag _ _ _ _ _) as [p1|] eqn:E1; [|done]. cbn [outcome_bind] in H.
  destruct (add_option _ _ _ _ _ _ _) as [p2|] eqn:E2; [|done]. cbn [outcome_bind] in H.
  eapply built_positional; [|exact H]. eapply built_option; [|exact E2]. eapply built_flag; [|exact E1]. apply built_make.
Qed.

Lemma parse_returns_witness :
  exists p0, sample = Ret p0 /\ built p0 /\
  exists p' s' r, parse (F := Z) (fun _ => None) p0 {[7 := VInt 7%Z]} [$"-vn5"; $"a.txt"] = Ret ((p', s'), r) /\
    clear_seen p' = clear_seen p0 /\ forall v, v ∉ bound_vars p0 -> s' !! v = ({[7 := VInt 7%Z]} : gmap nat cli_value) !! v.
Proof.
  destruct sample as [p0|e] eqn:E; [|vm_compute in E; discriminate E]. exists p0. split; [reflexivity|].
  pose proof (sample_built _ E) as Hb. split; [exact Hb|].
  apply (parse_returns (F := Z) (fun _ => None) p0 {[7 := VInt 7%Z]} [$"-vn5"; $"a.txt"] Hb).
Defined.

(** The required option of [sample] has only a short name; when it is missing, the error message
    names no option at all. *)
Theorem missing_short_option_unnamed :
  exists p w, sample = Ret p /\
    parse (F := Z) (fun _ => None) p ∅ [] = Ret (w, failure missing_required ($"missing required option '--'")).
Proof. eexists _, _. split; vm_compute; reflexivity. Qed.

(** ** Help *)

(** A row of the help text: the label padded to a column, then the description. *)
Definition help_row (width : nat) (label description : text) : text :=
  $"  " ++ label ++ replicate (width - length label) " "%char ++ $"  " ++ description ++ [newline].

Lemma append_padding_spec b n : buffer_ (append_padding b n) = buffer_ b ++ replicate n " "%char.
Proof.
  revert b. induction n as [|n IH]; intros b; simpl; [by rewrite app_nil_r|]. rewrite IH. by lists.
Qed.

Lemma append_help_row_spec b label h width : buffer_ (append_help_row b label h width) = buffer_ b ++ help_row width label h.
Proof.
  unfold append_help_row, append_char, append_text, help_row. cbn [buffer_]. rewrite append_padding_spec. cbn [buffer_].
  by rewrite <- !app_assoc.
Qed.

Lemma foldl_rows {A} (f : builder -> A -> builder) (row : A -> text) l b :
  (forall b x, buffer_ (f b x) = buffer_ b ++ row x) -> buffer_ (foldl f b l) = buffer_ b ++ concat (map row l).
Proof.
  intros Hf. revert b. induction l as [|x l IH]; intros b; simpl; [by rewrite app_nil_r|]. rewrite IH, Hf. by rewrite <- app_assoc.
Qed.

Lemma foldl_max {A} (f : A -> nat) l w : w <= foldl (fun w x => Nat.max w (f x)) w l /\ Forall (fun x => f x <= foldl (fun w x => Nat.max w (f x)) w l) l.
Proof.
  revert w. induction l as [|x l IH]; intros w; simpl; [split; [lia|constructor]|].
  destruct (IH (Nat.max w (f x))) as [H1 H2]. split; [lia|]. constructor; [lia|done].
Qed.

(** The help text ends with one row per option, in registration order: its label (short and long
    name, and the value name of an option that takes one) padded to a column, then its help text,
    marked when the option is required.  The positionals come before it in the same layout, and
    the column is wide enough for every label, so that all descriptions start at the same place. *)
Theorem help_layout p :
  (exists front,
    help p = front ++
      (if decide (positionals_ p = []) then []
       else newline :: $"Positional arguments:" ++ [newline] ++
            concat (map (fun q => help_row (label_column_width p) (name q) (positional_help q)) (positionals_ p))) ++
      newline :: $"Options:" ++ [newline] ++
      concat (map (fun o => help_row (label_column_width p) (option_label o) (option_help o)) (options_ p))) /\
  Forall (fun o => length (option_label o) <= label_column_width p) (options_ p) /\
  Forall (fun q => length (name q) <= label_column_width p) (positionals_ p).
Proof.
  assert (forall b q, buffer_ (append_help_row b (name q) (positional_help q) (label_column_width p)) =
    buffer_ b ++ help_row (label_column_width p) (name q) (positional_help q)) as Hq by (intros; apply append_help_row_spec).
  assert (forall b o, buffer_ (append_help_row b (option_label o) (option_help o) (label_column_width p)) =
    buffer_ b ++ help_row (label_column_width p) (option_label o) (option_help o)) as Ho by (intros; apply append_help_row_spec).
  split; [|unfold label_column_width; split].
  - unfold help. cbv zeta. unfold str_move. cbn [fst]. rewrite (foldl_rows _ _ _ _ Ho). eexists. cbn [append_text buffer_].
    destruct (decide (positionals_ p = [])) as [E|E].
    + rewrite (bool_decide_eq_true_2 _ E). cbn [negb]. by rewrite <- app_assoc.
    + rewrite (bool_decide_eq_false_2 _ E). cbn [negb]. rewrite (foldl_rows _ _ _ _ Hq). cbn [append_text buffer_].
      rewrite <- !app_assoc. reflexivity.
  - apply foldl_max.
  - destruct (foldl_max (fun q => length (name q)) (positionals_ p) 0) as [_ H]. eapply Forall_impl; [exact H|].
    intros q Hl. etrans; [exact Hl|]. apply (foldl_max (fun o => length (option_label o))).
Qed.
