(* ===== verification/CliGrammar.v ===== *)
(** * CliParser: the argument grammar of the class documentation

    [spells]: how a sequence of tokens spells a sequence of [item]s (options given, positionals),
    with every documented form ([--name value], [--name=value], [-n value], [-nvalue], [-n=value],
    clustered flags, [--]); [apply_items]: what the items do to the bound variables.  The parser
    accepts exactly the spellings of items whose values convert and that give every required
    option. *)

From S2P Require Import Prelude StdAlgo CliParser CliProofs.

Section grammar.
Context {F : Type} (float_parse : text -> option F).
Abbreviation store := (gmap nat (cli_value (F := F))).
Abbreviation world := (world (F := F)).

Inductive item : Type := SetFlag (i : nat) | Assign (i : nat) (v : text) | Positional (v : text).

Definition flag_at (p : parser) (i : nat) : Prop :=
  exists o, options_ p !! i = Some o /\ is_help o = false /\ takes_value o = false.
Definition valued_at (p : parser) (i : nat) : Prop :=
  exists o, options_ p !! i = Some o /\ is_help o = false /\ takes_value o = true.

(** A cluster of short names and the tokens that follow it: the items, and the tokens left. *)
Inductive letters (p : parser) : text -> list text -> list item -> list text -> Prop :=
  | letters_end ts : letters p [] ts [] ts
  | letters_flag c i body ts its ts' :
      find_short p c = Some i -> flag_at p i -> letters p body ts its ts' ->
      letters p (c :: body) ts (SetFlag i :: its) ts'
  | letters_joined c i d v ts :
      find_short p c = Some i -> valued_at p i -> d <> "="%char -> letters p (c :: d :: v) ts [Assign i (d :: v)] ts
  | letters_equals c i v ts :
      find_short p c = Some i -> valued_at p i -> letters p (c :: "="%char :: v) ts [Assign i v] ts
  | letters_next c i v ts :
      find_short p c = Some i -> valued_at p i -> letters p [c] (v :: ts) [Assign i v] ts.

(** The body of a long option. *)
Inductive long_form (p : parser) : text -> list text -> list item -> list text -> Prop :=
  | long_flag n i ts :
      "="%char ∉ n -> find_long p n = Some i -> flag_at p i -> long_form p n ts [SetFlag i] ts
  | long_equals n i v ts :
      "="%char ∉ n -> find_long p n = Some i -> valued_at p i ->
      long_form p (n ++ "="%char :: v) ts [Assign i v] ts
  | long_next n i v ts :
      "="%char ∉ n -> find_long p n = Some i -> valued_at p i -> long_form p n (v :: ts) [Assign i v] ts.

Inductive spells (p : parser) : bool -> list text -> list item -> Prop :=
  | spells_nil ended : spells p ended [] []
  | spells_end ts its : spells p true ts its -> spells p false ($"--" :: ts) its
  | spells_long body ts its ts' its' :
      body <> [] -> long_form p body ts its ts' -> spells p false ts' its' ->
      spells p false (("-"%char :: "-"%char :: body) :: ts) (its ++ its')
  | spells_short c body ts its ts' its' :
      c <> "-"%char -> letters p (c :: body) ts its ts' -> spells p false ts' its' ->
      spells p false (("-"%char :: c :: body) :: ts) (its ++ its')
  | spells_positional ended t ts its :
      ended = true \/ (is_long t = false /\ is_short t = false) ->
      spells p ended ts its -> spells p ended (t :: ts) (Positional t :: its).

(** ** What the items do *)

Definition store_value (s : store) (bound : option target) (v : text) : option store :=
  tgt ← bound; x ← cli_parse float_parse (target_kind tgt) v; Some (<[var tgt := x]> s).

Definition apply_item (st : world * nat) (it : item) : option (world * nat) :=
  let '((p, s), k) := st in
  match it with
  | SetFlag i => o ← options_ p !! i; b ← set_flag o; Some ((mark_seen p i, <[b := VBool true]> s), k)
  | Assign i v => o ← options_ p !! i; s ← store_value s (assign o) v; Some ((mark_seen p i, s), k)
  | Positional v =>
      q ← positionals_ p !! k; s ← store_value s (positional_assign q) v;
      Some ((set_positionals p (alter (fun q => set_positional_seen q true) k (positionals_ p)), s), S k)
  end.

Fixpoint apply_items (st : world * nat) (its : list item) : option (world * nat) :=
  match its with
  | [] => Some st
  | it :: its => st ← apply_item st it; apply_items st its
  end.

Definition required_given (p : parser) : Prop :=
  Forall (fun o => required o = true -> seen o = true) (options_ p) /\
  Forall (fun q => positional_required q = true -> positional_seen q = true) (positionals_ p).

Lemma apply_items_app st its its' st' :
  apply_items st (its ++ its') = Some st' <->
  exists mid, apply_items st its = Some mid /\ apply_items mid its' = Some st'.
Proof.
  revert st. induction its as [|it its IH]; intros st; simpl.
  - split; [by eauto|]. by intros (? & [= ->] & ?).
  - destruct (apply_item st it) as [st1|]; simpl; [apply IH|]. split; [done|]. by intros (? & ? & ?).
Qed.

(** ** Splitting at the equals sign *)

Lemma split_equals_cons c body :
  split_equals (c :: body) =
  if Ascii.eqb "=" c then ([], Some body) else let '(n, v) := split_equals body in (c :: n, v).
Proof.
  unfold split_equals. change ($"=") with ["="%char]. cbn [find_first starts_with]. rewrite andb_true_r.
  destruct (Ascii.eqb_spec "=" c); [done|]. by destruct (find_first ["="%char] body).
Qed.

Lemma split_equals_some n v : "="%char ∉ n -> split_equals (n ++ "="%char :: v) = (n, Some v).
Proof.
  induction n as [|c n IH]; intros H; simpl; rewrite split_equals_cons; [done|].
  apply not_elem_of_cons in H as [H1 H2]. destruct (Ascii.eqb_spec "=" c); [done|]. by rewrite (IH H2).
Qed.

Lemma split_equals_none n : "="%char ∉ n -> split_equals n = (n, None).
Proof.
  induction n as [|c n IH]; intros H; [done|]. rewrite split_equals_cons.
  apply not_elem_of_cons in H as [H1 H2]. destruct (Ascii.eqb_spec "=" c); [done|]. by rewrite (IH H2).
Qed.

Lemma split_equals_inv body n v :
  split_equals body = (n, v) -> ("="%char ∉ n) /\ match v with Some v => body = (n ++ "="%char :: v) | None => body = n end.
Proof.
  revert n v. induction body as [|c body IH]; intros n v H.
  - unfold split_equals in H. simpl in H. simplify_eq. split; [set_solver|done].
  - rewrite split_equals_cons in H. destruct (Ascii.eqb_spec "=" c) as [<-|Hc]; simplify_eq; [split; [set_solver|done]|].
    destruct (split_equals body) as [n' v']. simplify_eq. destruct (IH n' v eq_refl) as [H1 H2].
    split; [set_solver|]. by destruct v; subst.
Qed.

(** ** Finding names in the specs *)

Lemma find_index_map {A B} (f : B -> bool) (g : A -> B) l : find_index f (map g l) = find_index (fun x => f (g x)) l.
Proof. induction l as [|x l IH]; simpl; [done|]. by rewrite IH. Qed.

Lemma find_names_same p p' : same_specs p p' -> (forall n, find_long p' n = find_long p n) /\ (forall c, find_short p' c = find_short p c).
Proof.
  intros H. assert (forall p n, find_long (clear_seen p) n = find_long p n) as El by (intros; apply find_index_map).
  assert (forall p c, find_short (clear_seen p) c = find_short p c) as Es by (intros; apply find_index_map).
  split; intros x; [rewrite <- (El p'), H|rewrite <- (Es p'), H]; done.
Qed.

Lemma same_specs_at p p' i o' :
  same_specs p p' -> options_ p' !! i = Some o' -> is_help o' = false ->
  if takes_value o' then valued_at p i else flag_at p i.
Proof.
  intros H Ho Hh. destruct (same_specs_lookup _ _ _ _ H Ho) as (o & Hl & E). destruct o, o'; simpl in *. simplify_eq.
  case_match; eexists; eauto.
Qed.

Lemma same_specs_sym p p' : same_specs p p' -> same_specs p' p.
Proof. unfold same_specs. congruence. Qed.

Lemma flag_at_same p p' i : same_specs p p' -> flag_at p i -> flag_at p' i.
Proof.
  intros H%same_specs_sym (o & Ho & Hh & Ht). pose proof (same_specs_at _ _ _ _ H Ho Hh) as Hs. by rewrite Ht in Hs.
Qed.

Lemma valued_at_same p p' i : same_specs p p' -> valued_at p i -> valued_at p' i.
Proof.
  intros H%same_specs_sym (o & Ho & Hh & Ht). pose proof (same_specs_at _ _ _ _ H Ho Hh) as Hs. by rewrite Ht in Hs.
Qed.

Lemma apply_item_same st it st' : apply_item st it = Some st' -> same_specs st.1.1 st'.1.1.
Proof.
  destruct st as [[p s] k]. destruct it; simpl; intros H; repeat (apply bind_Some in H as (? & ? & H)); simplify_eq; simpl.
  - apply mark_seen_same.
  - apply mark_seen_same.
  - apply mark_positional_same.
Qed.

Lemma apply_items_same its st st' : apply_items st its = Some st' -> same_specs st.1.1 st'.1.1.
Proof.
  revert st. induction its as [|it its IH]; intros st H; simpl in H; [by simplify_eq|].
  apply bind_Some in H as (mid & H1%apply_item_same & H2%IH). unfold same_specs in *. congruence.
Qed.

(** ** The calls of the parser, against [apply_item] *)

Lemma call_assign_ok s f v s' : call_assign float_parse s f v = Ret (s', true) <-> store_value s f v = Some s'.
Proof.
  unfold call_assign, store_value. destruct f as [t|]; simpl; [|done].
  destruct (cli_parse float_parse (target_kind t) v); simpl; split; intros; simplify_eq; done.
Qed.

Lemma assign_option_ok w i o label v k w' k' :
  options_ w.1 !! i = Some o ->
  ((exists r, assign_option float_parse w i o label v = Ret (w', r) /\ ok r = true) /\ k' = k <->
   apply_items (w, k) [Assign i v] = Some (w', k')).
Proof.
  intros Ho. destruct w as [p s]. unfold assign_option. cbn [fst snd] in *. simpl apply_items. rewrite Ho. simpl.
  destruct (store_value s (assign o) v) as [s1|] eqn:E.
  - apply call_assign_ok in E as ->. simpl. split; [by intros [(r & ? & _) ->]; simplify_eq|]. intros ?; simplify_eq. by eauto.
  - split; [|done]. intros [(r & H & Hr) _]. destruct (call_assign float_parse s (assign o) v) as [[s1 [|]]|] eqn:Ec; simplify_eq/=.
    apply call_assign_ok in Ec. congruence.
Qed.

Lemma assign_option_sound w i o label v k w' r :
  options_ w.1 !! i = Some o -> assign_option float_parse w i o label v = Ret (w', r) -> ok r = true ->
  apply_items (w, k) [Assign i v] = Some (w', k).
Proof. intros Ho Ha Hr. apply (assign_option_ok w i o label v k w' k Ho). eauto. Qed.

Lemma set_flag_ok w i o k w' k' :
  options_ w.1 !! i = Some o ->
  ((exists s, call_set_flag w.2 (set_flag o) = Ret s /\ w' = (mark_seen w.1 i, s)) /\ k' = k <->
   apply_items (w, k) [SetFlag i] = Some (w', k')).
Proof.
  intros Ho. destruct w as [p s]. cbn [fst snd] in *. simpl apply_items. rewrite Ho. simpl. destruct (set_flag o) as [b|]; simpl.
  - split; [by intros [(? & ? & ->) ->]; simplify_eq|]. intros ?; simplify_eq. by eauto.
  - split; [|done]. by intros [(? & ? & ?) ?].
Qed.

(** ** One token *)

Lemma args_next (args : list text) i v ts : drop (S i) args = v :: ts -> args !! (i + 1) = Some v /\ drop (S (i + 1)) args = ts.
Proof. intros H. rewrite Nat.add_1_r. by apply drop_cons_lookup. Qed.

Lemma args_next_some (args : list text) i v : args !! (i + 1) = Some v -> drop (S i) args = v :: drop (S (i + 1)) args.
Proof. rewrite Nat.add_1_r. intros H. by apply drop_S. Qed.

(** How a value option ends a token: with the value [v] joined to it, or with the next token. *)
Lemma parse_long_sound p w body args i w' j r k :
  same_specs p w.1 -> parse_long float_parse w body args i = Ret (w', j, r) -> ok r = true ->
  exists its, long_form p body (drop (S i) args) its (drop (S j) args) /\ apply_items (w, k) its = Some (w', k).
Proof.
  intros Hs H Hr. unfold parse_long in H. destruct (split_equals body) as [n inline] eqn:Eb.
  apply split_equals_inv in Eb as [Hn Hb]. destruct (find_names_same _ _ Hs) as [Hl _]. rewrite Hl in H.
  destruct (find_long p n) as [x|] eqn:Ef; [|by simplify_eq]. destruct (options_ w.1 !! x) as [o|] eqn:Eo; [|done].
  destruct (is_help o) eqn:Eh; [by simplify_eq|]. pose proof (same_specs_at _ _ _ _ Hs Eo Eh) as Hat.
  destruct (takes_value o); simpl in H.
  - destruct inline as [v|].
    + destruct (assign_option _ _ _ _ _ _) as [[w1 r1]|] eqn:Ea; simplify_eq/=. exists [Assign x v].
      split; [by constructor|]. by eapply assign_option_sound.
    + destruct (args !! (i + 1)) as [v|] eqn:Ev; [|by simplify_eq].
      destruct (assign_option _ _ _ _ _ _) as [[w1 r1]|] eqn:Ea; simplify_eq/=. exists [Assign x v].
      rewrite (args_next_some _ _ _ Ev). split; [by constructor|]. by eapply assign_option_sound.
  - destruct inline as [v|]; [by simplify_eq|]. destruct (call_set_flag w.2 (set_flag o)) as [s|] eqn:Ec; simplify_eq/=.
    exists [SetFlag x]. split; [by constructor|]. apply (set_flag_ok w x o k _ k Eo). eauto.
Qed.

Lemma parse_long_complete p w body args i its ts' w' k k' :
  same_specs p w.1 -> long_form p body (drop (S i) args) its ts' -> apply_items (w, k) its = Some (w', k') ->
  k' = k /\ exists j r, parse_long float_parse w body args i = Ret (w', j, r) /\ ok r = true /\ drop (S j) args = ts'.
Proof.
  intros Hs Hf Ha. destruct (find_names_same _ _ Hs) as [Hl _]. unfold parse_long.
  remember (drop (S i) args) as ts eqn:Ets. destruct Hf as [n x ts Hn Hx Hat|n x v ts Hn Hx Hat|n x v ts Hn Hx Hat].
  - rewrite split_equals_none, Hl, Hx by done. apply (flag_at_same _ _ _ Hs) in Hat as (o & Ho & Hh & Ht).
    rewrite Ho, Hh, Ht. simpl negb. cbn match. apply (set_flag_ok w x o k _ k' Ho) in Ha as [(s & Hc & ->) ->].
    rewrite Hc. split; [done|]. by eexists _, _.
  - rewrite split_equals_some, Hl, Hx by done. apply (valued_at_same _ _ _ Hs) in Hat as (o & Ho & Hh & Ht).
    rewrite Ho, Hh, Ht. simpl negb. cbn match. apply (assign_option_ok w x o ($"--" ++ long_name o) v k _ k' Ho) in Ha as [(r & Hc & Hr) ->].
    rewrite Hc. split; [done|]. by eexists _, _.
  - rewrite split_equals_none, Hl, Hx by done. apply (valued_at_same _ _ _ Hs) in Hat as (o & Ho & Hh & Ht).
    symmetry in Ets. apply args_next in Ets as [Hv Hts].
    rewrite Ho, Hh, Ht, Hv. simpl negb. cbn match. apply (assign_option_ok w x o ($"--" ++ long_name o) v k _ k' Ho) in Ha as [(r & Hc & Hr) ->].
    rewrite Hc. split; [done|]. by eexists _, _.
Qed.

Lemma same_specs_trans p p' p'' : same_specs p p' -> same_specs p' p'' -> same_specs p p''.
Proof. unfold same_specs. congruence. Qed.

Lemma apply_one st it st1 its st' :
  apply_items st [it] = Some st1 -> apply_items st1 its = Some st' -> apply_items st (it :: its) = Some st'.
Proof. intros H1 H2. apply (apply_items_app st [it] its). eauto. Qed.

Lemma parse_short_sound p body w args i w' j r k :
  same_specs p w.1 -> parse_short float_parse w body args i = Ret (w', j, r) -> ok r = true ->
  exists its, letters p body (drop (S i) args) its (drop (S j) args) /\ apply_items (w, k) its = Some (w', k).
Proof.
  revert w. induction body as [|c body IH]; intros w Hs H Hr; simpl in H; simplify_eq.
  { exists []. split; [constructor|done]. }
  destruct (find_names_same _ _ Hs) as [_ Hl]. rewrite Hl in H.
  destruct (find_short p c) as [x|] eqn:Ef; [|by simplify_eq]. destruct (options_ w.1 !! x) as [o|] eqn:Eo; [|done].
  destruct (is_help o) eqn:Eh; [by simplify_eq|]. pose proof (same_specs_at _ _ _ _ Hs Eo Eh) as Hat.
  destruct (takes_value o); simpl in H.
  - destruct body as [|d body].
    + destruct (args !! (i + 1)) as [v|] eqn:Ev; [|by simplify_eq].
      destruct (assign_option _ _ _ _ _ _) as [[w1 r1]|] eqn:Ea; simplify_eq/=. exists [Assign x v].
      rewrite (args_next_some _ _ _ Ev). split; [by constructor|]. by eapply assign_option_sound.
    + destruct (assign_option _ _ _ _ _ _) as [[w1 r1]|] eqn:Ea; simplify_eq/=.
      destruct (Ascii.eqb_spec d "="); [subst d|]; eexists [Assign x _];
        (split; [by constructor|by eapply assign_option_sound]).
  - destruct (call_set_flag w.2 (set_flag o)) as [s|] eqn:Ec; simplify_eq/=.
    apply IH in H as (its & Hits & Ha); [|by eapply same_specs_trans, mark_seen_same|done].
    exists (SetFlag x :: its). split; [by constructor|]. eapply apply_one; [|done].
    apply (set_flag_ok w x o k _ k Eo). eauto.
Qed.

Lemma parse_short_complete p body w args i its ts' w' k k' :
  same_specs p w.1 -> letters p body (drop (S i) args) its ts' -> apply_items (w, k) its = Some (w', k') ->
  k' = k /\ exists j r, parse_short float_parse w body args i = Ret (w', j, r) /\ ok r = true /\ drop (S j) args = ts'.
Proof.
  intros Hs Hf. remember (drop (S i) args) as ts eqn:Ets. revert w Hs.
  induction Hf as [ts|c x body ts its ts' Hx Hat Hf IH|c x d v ts Hx Hat Hd|c x v ts Hx Hat|c x v ts Hx Hat];
    intros w Hs Ha; (destruct (find_names_same _ _ Hs) as [_ Hl]); simpl parse_short; rewrite ?Hl, ?Hx.
  - simplify_eq/=. split; [done|]. by eexists _, _.
  - destruct (flag_at_same _ _ _ Hs Hat) as (o & Ho & Hh & Ht). rewrite Ho, Hh, Ht. simpl negb. cbn match.
    apply (apply_items_app (w, k) [SetFlag x] its) in Ha as ([w1 k1] & Ha1 & Ha2).
    apply (set_flag_ok w x o k _ k1 Ho) in Ha1 as [(s & Hc & ->) ->]. rewrite Hc. simpl.
    apply IH; [done| |done]. by eapply same_specs_trans, mark_seen_same.
  - destruct (valued_at_same _ _ _ Hs Hat) as (o & Ho & Hh & Ht). rewrite Ho, Hh, Ht. simpl negb. cbn match.
    rewrite (proj2 (Ascii.eqb_neq _ _) Hd).
    apply (assign_option_ok w x o ["-"%char; c] (d :: v) k _ k' Ho) in Ha as [(r & Hc & Hr) ->].
    rewrite Hc. split; [done|]. by eexists _, _.
  - destruct (valued_at_same _ _ _ Hs Hat) as (o & Ho & Hh & Ht). rewrite Ho, Hh, Ht. simpl negb. cbn match.
    apply (assign_option_ok w x o ["-"%char; c] v k _ k' Ho) in Ha as [(r & Hc & Hr) ->].
    rewrite Hc. split; [done|]. by eexists _, _.
  - destruct (valued_at_same _ _ _ Hs Hat) as (o & Ho & Hh & Ht). symmetry in Ets. apply args_next in Ets as [Hv Hts].
    rewrite Ho, Hh, Ht, Hv. simpl negb. cbn match.
    apply (assign_option_ok w x o ["-"%char; c] v k _ k' Ho) in Ha as [(r & Hc & Hr) ->].
    rewrite Hc. split; [done|]. by eexists _, _.
Qed.

Lemma consume_positional_ok w t k w' k' :
  (exists r, consume_positional float_parse w t k = Ret (w', k', r) /\ ok r = true) <->
  apply_items (w, k) [Positional t] = Some (w', k').
Proof.
  destruct w as [p s]. unfold consume_positional. cbn [fst snd]. simpl apply_items.
  destruct (positionals_ p !! k) as [q|]; simpl; [|by split; [intros (? & ? & ?); simplify_eq|]].
  destruct (store_value s (positional_assign q) t) as [s1|] eqn:E.
  - apply call_assign_ok in E as ->. simpl. split; [by intros (r & ? & _); simplify_eq|]. intros ?; simplify_eq. by eauto.
  - split; [|done]. intros (r & H & Hr). destruct (call_assign float_parse s (positional_assign q) t) as [[s1 [|]]|] eqn:Ec; simplify_eq/=.
    apply call_assign_ok in Ec. congruence.
Qed.

Lemma check_required_ok p : ok (check_required p) = true <-> required_given p.
Proof.
  unfold check_required, required_given.
  assert (forall A (f g : A -> bool) l, List.find (fun x => f x && negb (g x)) l = None <-> Forall (fun x => f x = true -> g x = true) l) as Hfind.
  { intros A f g l. induction l as [|x l IH]; simpl; [by split|]. rewrite Forall_cons, <- IH.
    destruct (f x), (g x); simpl; intuition congruence. }
  rewrite <- !Hfind. repeat case_match; cbn; intuition congruence.
Qed.

(** ** The loop *)

Lemma is_long_spec t : is_long t = true <-> exists body, t = "-"%char :: "-"%char :: body.
Proof. unfold is_long. rewrite starts_with_true. done. Qed.

Lemma is_short_spec t : is_long t = false -> is_short t = true <-> exists c body, c <> "-"%char /\ t = "-"%char :: c :: body.
Proof.
  intros Hl. assert (~ exists body, t = "-"%char :: "-"%char :: body) as Hno by (rewrite <- is_long_spec; congruence).
  unfold is_short. destruct t as [|a [|b t]]; simpl.
  - split; [done|]. by intros (? & ? & ? & ?).
  - split; [done|]. by intros (? & ? & ? & ?).
  - destruct (Ascii.eqb_spec a "-") as [->|Ha]; split; try done.
    + intros _. exists b, t. split; [|done]. intros ->. eauto.
    + intros (? & ? & ? & ?). simplify_eq.
Qed.

Lemma parse_loop_sound p fuel w args i k ended w' r :
  same_specs p w.1 -> parse_loop float_parse fuel w args i k ended = Ret (w', r) -> ok r = true ->
  exists its k', spells p ended (drop i args) its /\ apply_items (w, k) its = Some (w', k') /\ required_given w'.1.
Proof.
  revert w i k ended. induction fuel as [|fuel IH]; intros w i k ended Hs H Hr; simpl in H; [done|].
  destruct (args !! i) as [t|] eqn:Et.
  2: { simplify_eq. exists [], k. rewrite drop_ge by (by apply lookup_ge_None). split_and!; [constructor|done|].
       by apply check_required_ok. }
  rewrite (drop_S _ _ _ Et). destruct (negb ended && bool_decide (t = _)) eqn:E1.
  { bools. subst ended. apply bool_decide_eq_true in H1 as ->. apply IH in H as (its & k' & H1 & H2); [|done..].
    exists its, k'. split; [by constructor|done]. }
  destruct (negb ended && is_long t) eqn:E2.
  { bools. subst ended. apply is_long_spec in H1 as [body ->]. simpl in E1. apply bool_decide_eq_false in E1. simpl drop in H.
    destruct (parse_long _ _ _ _ _) as [[[w1 j] r1]|] eqn:Ep; simpl in H; [|done].
    destruct (ok r1) eqn:Er; simpl in H; [|simplify_eq; congruence].
    eapply parse_long_sound in Ep as (its & Hits & Ha); [|done..]. pose proof (apply_items_same _ _ _ Ha) as Hs1.
    apply IH in H as (its' & k' & Hi & Ha' & Hq); [|by eapply same_specs_trans|done].
    exists (its ++ its'), k'. split_and!; [|apply apply_items_app; eauto|done].
    econstructor; [|done..]. by intros ->. }
  destruct (negb ended && is_short t) eqn:E3.
  { bools. subst ended. simpl in E2. apply is_short_spec in H1 as (c & body & Hc & ->); [|done]. simpl drop in H.
    destruct (parse_short _ _ _ _ _) as [[[w1 j] r1]|] eqn:Ep; simpl in H; [|done].
    destruct (ok r1) eqn:Er; simpl in H; [|simplify_eq; congruence].
    eapply parse_short_sound in Ep as (its & Hits & Ha); [|done..]. pose proof (apply_items_same _ _ _ Ha) as Hs1.
    apply IH in H as (its' & k' & Hi & Ha' & Hq); [|by eapply same_specs_trans|done].
    exists (its ++ its'), k'. split_and!; [by econstructor|apply apply_items_app; eauto|done]. }
  destruct (consume_positional _ _ _ _) as [[[w1 k1] r1]|] eqn:Ep; simpl in H; [|done].
  destruct (ok r1) eqn:Er; simpl in H; [|simplify_eq; congruence].
  assert (apply_items (w, k) [Positional t] = Some (w1, k1)) as Ha by (apply consume_positional_ok; eauto).
  apply IH in H as (its & k' & Hi & Ha' & Hq); [|by eapply same_specs_trans, (apply_items_same _ _ _ Ha)|done].
  exists (Positional t :: its), k'. split_and!; [|by eapply apply_one|done].
  constructor; [|done]. by destruct ended; [left|right].
Qed.

Lemma long_form_shorter p body ts its ts' : long_form p body ts its ts' -> length ts' <= length ts.
Proof. induction 1; simpl; lia. Qed.
Lemma letters_shorter p body ts its ts' : letters p body ts its ts' -> length ts' <= length ts.
Proof. induction 1; simpl; lia. Qed.

Lemma parse_loop_complete p ended ts its :
  spells p ended ts its -> forall fuel w args i k w' k',
  same_specs p w.1 -> ts = drop i args -> length ts < fuel -> apply_items (w, k) its = Some (w', k') -> required_given w'.1 ->
  exists r, parse_loop float_parse fuel w args i k ended = Ret (w', r) /\ ok r = true.
Proof.
  induction 1 as [ended|ts its _ IH|body ts its ts' its' Hb Hf _ IH|c body ts its ts' its' Hc Hf _ IH|ended t ts its Ht _ IH];
    intros [|fuel] w args i k w' k' Hs Hd Hfuel Ha Hq; simpl in Hfuel; try lia; symmetry in Hd; simpl parse_loop.
  - apply drop_nil_lookup in Hd as [-> _]. simplify_eq/=. eexists. split; [done|]. by apply check_required_ok.
  - apply drop_cons_lookup in Hd as [-> Hd]. simpl. by eapply IH; [..|lia|done|].
  - apply drop_cons_lookup in Hd as [-> Hd]. rewrite bool_decide_eq_false_2 by (intros E; apply Hb; by simplify_eq).
    simpl. rewrite drop_0. apply apply_items_app in Ha as ([w1 k1] & Ha1 & Ha2). pose proof (long_form_shorter _ _ _ _ _ Hf).
    pose proof (apply_items_same _ _ _ Ha1) as Hs1. rewrite <- Hd in Hf.
    destruct (parse_long_complete _ _ _ _ _ _ _ _ _ _ Hs Hf Ha1) as (-> & j & r & Hp & Hr & <-).
    rewrite Hp. simpl. rewrite Hr. simpl.
    by eapply IH; [by eapply same_specs_trans|..|lia|done|].
  - apply drop_cons_lookup in Hd as [-> Hd]. rewrite bool_decide_eq_false_2 by (intros E; apply Hc; by simplify_eq).
    assert (is_long ("-"%char :: c :: body) = false) as El.
    { apply not_true_iff_false. rewrite is_long_spec. intros [? ?]. simplify_eq. }
    assert (is_short ("-"%char :: c :: body) = true) as -> by (apply is_short_spec; eauto). rewrite El.
    cbn [negb andb]. apply apply_items_app in Ha as ([w1 k1] & Ha1 & Ha2). pose proof (letters_shorter _ _ _ _ _ Hf).
    pose proof (apply_items_same _ _ _ Ha1) as Hs1. rewrite <- Hd in Hf. change (drop 1 ("-"%char :: c :: body)) with (c :: body).
    destruct (parse_short_complete _ _ _ _ _ _ _ _ _ _ Hs Hf Ha1) as (-> & j & r & Hp & Hr & <-).
    rewrite Hp. cbn [outcome_bind]. rewrite Hr. cbn [negb].
    by eapply IH; [by eapply same_specs_trans|..|lia|done|].
  - apply drop_cons_lookup in Hd as [-> Hd]. apply (apply_items_app _ [_]) in Ha as ([w1 k1] & Ha1 & Ha2).
    pose proof (apply_items_same _ _ _ Ha1) as Hs1. apply consume_positional_ok in Ha1 as (r & Hc & Hr).
    assert (negb ended && bool_decide (t = ["-"%char; "-"%char]) = false /\ negb ended && is_long t = false /\ negb ended && is_short t = false) as (-> & -> & ->).
    { destruct Ht as [->|[H1 H2]]; [done|]. rewrite H1, H2, !andb_false_r, andb_false_iff, bool_decide_eq_false.
      split_and!; try done. right. by intros ->. }
    rewrite Hc. simpl. rewrite Hr. simpl. by eapply IH; [by eapply same_specs_trans|..|lia|done|].
Qed.

(** C17. The parser accepts exactly the documented grammar: a call returns success in a state [p', s']
    if and only if the arguments spell a sequence of items (flags, options with a value in any of
    the documented spellings, positionals, [--]) whose effects, applied in order to the caller's
    variables, give [p', s'] (so every value converted), and every required option and argument
    was given. *)
Theorem accepted_exactly p s args p' s' :
  (exists r, parse float_parse p s args = Ret ((p', s'), r) /\ ok r = true) <->
  (exists its k, spells p false args its /\ apply_items ((clear_seen p, s), 0) its = Some ((p', s'), k) /\ required_given p').
Proof.
  assert (same_specs p (clear_seen p)) as Hs by apply clear_seen_fixed. unfold parse. split.
  - intros (r & H & Hr). eapply parse_loop_sound in H as (its & k & H); [|done..]. eauto.
  - intros (its & k & Hi & Ha & Hq). eapply parse_loop_complete; [done|done|by rewrite drop_0|lia|done..].
Qed.

End grammar.

(** The grammar on a command line that mixes a cluster, a joined value and a positional after [--]. *)
Example sample_spelled :
  exists p, sample = Ret p /\ spells p false [$"-vn5"; $"--"; $"-x"] [SetFlag 1; Assign 2 ($"5"); Positional ($"-x")].
Proof.
  eexists. split; [reflexivity|].
  eapply (spells_short _ _ _ _ [SetFlag 1; Assign 2 ($"5")]); [done| |].
  - eapply letters_flag; [reflexivity|by eexists|]. eapply letters_joined; [reflexivity|by eexists|done].
  - apply spells_end, spells_positional; [by left|constructor].
Qed.
