(* ===== verification/FloatText.v ===== *)
(** * Floating-point conversions (cli_parser.hpp, json_parser.hpp)

    [detail::cli_parse] and [JsonParser::parse_arithmetic] each have two bodies for floating-point targets: one over
    [std::from_chars], and one over [std::istringstream] for standard libraries that lack it.  The conversion of the characters is the
    standard library's, a parameter; here is what the two bodies make of it, and where they differ. *)

From S2P Require Import Prelude Charconv JsonGrammar CliParser.

(** [std::isspace] in the classic locale. *)
Definition isspace (c : ascii) : bool := ((code c =? 32) || ((9 <=? code c) && (code c <=? 13)))%Z.

(** What operator>> skips before it reads a number. *)
Fixpoint skip_blanks (t : text) : text :=
  match t with
  | c :: t' => if isspace c then skip_blanks t' else t
  | [] => []
  end.

(** [from_chars_general t]: [std::from_chars] for the type [F], the value and the number of characters that make it, or [None] for an error code.
    [num_get t]: what the stream's [num_get] takes from [t] -- the value, [None] with [failbit], and the number of
    characters read. *)
Class FloatConversions (F : Type) := {
  from_chars_general : text -> option (F * nat);
  num_get : text -> option F * nat
}.

(** [std::from_chars] skips no blanks. *)
Class FloatConversionsLaws (F : Type) `{FloatConversions F} : Prop := {
  from_chars_no_blank c t : isspace c = true -> from_chars_general (c :: t) = None
}.

Section floats.
Context {F : Type} `{!FloatConversions F}.

(** [result.ptr != last]. *)
Definition whole_from_chars (t : text) : option F :=
  match from_chars_general t with
  | Some (v, n) => if (n =? length t)%nat then Some v else None
  | None => None
  end.

(** [stream >> value], then [fail()] and [eof()].  With nothing but blanks the extraction fails before it reads a number; the stream is at
    its end when the number took all that was left. *)
Definition whole_stream (t : text) : option F :=
  match skip_blanks t with
  | [] => None
  | rest =>
      match num_get rest with
      | (Some v, n) => if (n =? length rest)%nat then Some v else None
      | (None, _) => None
      end
  end.

(** [lib_to_chars]: whether the preprocessor finds [__cpp_lib_to_chars]. *)
Definition cli_parse_floating (lib_to_chars : bool) (t : text) : option F := if lib_to_chars then whole_from_chars t else whole_stream t.
Definition parse_arithmetic_floating (lib_to_chars : bool) (t : text) : option F := if lib_to_chars then whole_from_chars t else whole_stream t.

Lemma skip_blanks_app b t : Forall (fun c => isspace c = true) b -> skip_blanks (b ++ t) = skip_blanks t.
Proof. induction 1 as [|c b Hc Hb IH]; [done|]. simpl. by rewrite Hc. Qed.

(** The first character of a JSON number is its sign or a digit: the stream skips nothing before it. *)
Lemma skip_blanks_number t : number_literal t -> skip_blanks t = t /\ t <> [].
Proof.
  assert (forall c, is_digit c = true -> isspace c = false) as Hd.
  { intros c. unfold is_digit, isspace. intros H. bools. apply orb_false_iff. split; [|apply andb_false_iff; right]; lia. }
  intros [sign i f e Hs Hi _ _]. destruct Hs as [-> | ->]; [|done].
  destruct Hi as [|d i Hi _ _]; [done|]. cbn [app skip_blanks]. by rewrite (Hd d Hi).
Qed.

Context `{!FloatConversionsLaws F}.

(** A command-line value with blanks before the number is accepted by one body and refused by the other: the outcome of a parse
    depends on the standard library the program is built with. *)
Theorem blanks_depend_on_library b t v :
  b <> [] -> Forall (fun c => isspace c = true) b -> whole_stream t = Some v ->
  cli_parse_floating false (b ++ t) = Some v /\ cli_parse_floating true (b ++ t) = None.
Proof.
  intros Hne Hb E. split.
  - simpl. unfold whole_stream in *. by rewrite skip_blanks_app.
  - destruct b as [|c b]; [done|]. apply Forall_cons in Hb as [Hc _]. simpl. unfold whole_from_chars. by rewrite (from_chars_no_blank c (b ++ t) Hc).
Qed.

(** JSON numbers have no blanks in front, so [to_number] gives the same value with either body, where the library's two
    conversions read the token alike. *)
Theorem json_floats_agree t v n :
  number_literal t -> from_chars_general t = Some (v, n) -> num_get t = (Some v, n) ->
  parse_arithmetic_floating true t = parse_arithmetic_floating false t.
Proof.
  intros [Hb Hne]%skip_blanks_number Ec En. unfold parse_arithmetic_floating, whole_from_chars, whole_stream. rewrite Hb, Ec.
  destruct t as [|c t]; [done|]. by rewrite En.
Qed.

End floats.

(** ** A library whose numbers are the integers up to 2^53 *)

Definition read_integer (t : text) : option (Z * nat) :=
  match from_chars (- 2 ^ 53) (2 ^ 53) t with
  | Some (v, rest) => Some (v, (length t - length rest)%nat)
  | None => None
  end.

#[export] Instance integer_conversions : FloatConversions Z := {
  from_chars_general := read_integer;
  num_get t :=
    match t with
    | "+"%char :: t' => match read_integer t' with Some (v, n) => (Some v, S n) | None => (None, 1%nat) end
    | _ => match read_integer t with Some (v, n) => (Some v, n) | None => (None, 0%nat) end
    end
}.

#[export] Instance integer_conversions_laws : FloatConversionsLaws Z.
Proof.
  assert (forall c t, is_digit c = false -> c <> "-"%char -> read_integer (c :: t) = None) as H.
  { intros c t Hd Hm. unfold read_integer, from_chars. destruct (Ascii.eqb_spec c "-"); [done|]. rewrite andb_false_r. simpl. by rewrite Hd. }
  split. intros c t Hc. apply H; [|by intros ->].
  unfold isspace, is_digit in *. apply not_true_iff_false. intros Hd. bools. apply orb_true_iff in Hc as [Hc|Hc]; bools; lia.
Qed.

(** The same command line on the two libraries. *)
Example ratio_with_blank :
  let parse_ratio lib := let! p := add_option (make_parser ($"tool") []) ($"ratio") "r" [] (Target 0 KFloat) false [] in
    let! (_, r) := CliParser.parse (cli_parse_floating lib) p ∅ [$"--ratio"; $" 2"] in Ret (ok r) in
  parse_ratio true = Ret false /\ parse_ratio false = Ret true.
Proof. by split; vm_compute. Qed.
