(* ===== verification/Monitor.v ===== *)
(** * Monitors: mutex-protected data with condition variables

    The blocking components of the library are monitors: every access to the data is inside a
    critical section of one mutex, waits are predicate waits on condition variables, and
    notifications are sent after the section.  [Monitor] is what a component provides: its
    critical sections as functions ([start]: from the call up to the return or the first sleep;
    [resume]: from a wake-up on).  The semantics is shared: sections of different threads
    interleave in any order, a sleeper can be woken by a notification, spuriously, or by its
    timeout, and other threads may enter between a section and the notifications it sends.

    [Local] is what the caller knows (which locks it holds): [permitted] is the precondition of a
    call, [settle] the effect of a result on it. *)

From S2P Require Import Prelude.

Inductive notification (C : Type) : Type := NotifyOne (c : C) | NotifyAll (c : C).
Arguments NotifyOne {C} c.
Arguments NotifyAll {C} c.

(** How a critical section ends: leaving with notifications to send and a result, or asleep. *)
Inductive verdict (D C K R : Type) : Type :=
  | Finish (d : D) (ns : list (notification C)) (r : R)
  | Block (d : D) (c : C) (k : K).
Arguments Finish {D C K R} d ns r.
Arguments Block {D C K R} d c k.

Definition verdict_data {D C K R} (v : verdict D C K R) : D :=
  match v with Finish d _ _ => d | Block d _ _ => d end.

Class Monitor (D C K R Call Local : Type) := {
  monitor_cond_dec : EqDecision C;
  start : Call -> D -> verdict D C K R;
  (** [expired]: the wait ended by its timeout. *)
  resume : K -> bool -> D -> verdict D C K R;
  timed : K -> bool;
  initial_data : D -> Prop;
  (** The threads the component starts itself, and any other thread. *)
  own_locals : list Local;
  fresh_local : Local;
  permitted : Local -> Call -> bool;
  settle : Local -> R -> Local
}.
#[export] Existing Instance monitor_cond_dec.

Inductive status (C K R : Type) : Type :=
  | Idle
  | Asleep (c : C) (k : K)
  | Ready (k : K) (expired : bool)
  | Leaving (ns : list (notification C)) (r : R).
Arguments Idle {C K R}.
Arguments Asleep {C K R} c k.
Arguments Ready {C K R} k expired.
Arguments Leaving {C K R} ns r.

(** Counting the elements that satisfy a test. *)
Definition count {A} (f : A -> bool) (l : list A) : nat := length (filter (fun x => f x = true) l).

Lemma count_cons {A} (f : A -> bool) x l : count f (x :: l) = (if f x then 1 else 0) + count f l.
Proof. unfold count. rewrite filter_cons. destruct (f x) eqn:E; case_decide; simpl; congruence. Qed.

Lemma count_insert {A} (f : A -> bool) l i x y :
  l !! i = Some x -> count f (<[i:=y]> l) + (if f x then 1 else 0) = count f l + (if f y then 1 else 0).
Proof.
  revert i. induction l as [|z l IH]; intros [|i] H; simpl in H; simplify_eq; simpl; rewrite !count_cons; [lia|].
  specialize (IH i H). lia.
Qed.

Lemma count_le {A} (f : A -> bool) l : count f l <= length l.
Proof. apply length_filter. Qed.

Lemma count_mono {A} (f g : A -> bool) l : (forall x, f x = true -> g x = true) -> count f l <= count g l.
Proof.
  intros H. induction l as [|x l IH]; [done|]. rewrite !count_cons. specialize (H x). destruct (f x); [rewrite H by done; lia|].
  destruct (g x); lia.
Qed.

Lemma count_mono_Forall {A} (P : A -> Prop) (f g : A -> bool) l :
  Forall P l -> (forall x, P x -> f x = true -> g x = true) -> count f l <= count g l.
Proof.
  intros Hl H. induction Hl as [|x l Hx Hl IH]; [done|]. rewrite !count_cons. specialize (H x Hx).
  destruct (f x); [rewrite H by done; lia|]. destruct (g x); lia.
Qed.

Lemma count_zero {A} (f : A -> bool) l : count f l = 0 <-> forall i x, l !! i = Some x -> f x = false.
Proof.
  split.
  - intros H i x Hx. destruct (f x) eqn:E; [|done]. pose proof (count_insert f l i x x Hx) as Hi.
    unfold count in H. apply nil_length_inv in H. apply list_elem_of_lookup_2 in Hx.
    assert (x ∈ filter (fun x => f x = true) l) as Hin by (by apply list_elem_of_filter). rewrite H in Hin. by apply not_elem_of_nil in Hin.
  - induction l as [|x l IH]; intros H; [done|]. rewrite count_cons, (H 0 x eq_refl), IH; [done|].
    intros i y Hy. by apply (H (S i)).
Qed.

Lemma count_pos {A} (f : A -> bool) l i x : l !! i = Some x -> f x = true -> 0 < count f l.
Proof.
  intros Hx Hf. destruct (decide (count f l = 0)) as [E|]; [|lia]. rewrite count_zero in E. specialize (E i x Hx). congruence.
Qed.

Lemma count_pos_inv {A} (f : A -> bool) l : 0 < count f l -> exists i x, l !! i = Some x /\ f x = true.
Proof.
  induction l as [|x l IH]; [unfold count; simpl; lia|]. rewrite count_cons. destruct (f x) eqn:E; [by exists 0, x|].
  intros (i & y & Hy & Hf)%IH. by exists (S i), y.
Qed.

Lemma count_lt {A} (f : A -> bool) l i x : l !! i = Some x -> f x = false -> count f l < length l.
Proof.
  revert i. induction l as [|y l IH]; intros [|i] Hi Hf; simpl in *; simplify_eq; rewrite count_cons.
  - rewrite Hf. pose proof (count_le f l). lia.
  - specialize (IH i Hi Hf). destruct (f y); lia.
Qed.

Lemma count_map {A B} (f : B -> bool) (g : A -> B) l : count f (map g l) = count (fun x => f (g x)) l.
Proof. induction l as [|x l IH]; [done|]. simpl. by rewrite !count_cons, IH. Qed.

Lemma count_ext {A} (f g : A -> bool) l : (forall x, f x = g x) -> count f l = count g l.
Proof. intros H. induction l as [|x l IH]; [done|]. by rewrite !count_cons, H, IH. Qed.

Lemma count_replicate {A} (f : A -> bool) n x : f x = false -> count f (replicate n x) = 0.
Proof. intros H. apply count_zero. intros i y Hy. apply lookup_replicate_1 in Hy as [-> _]. done. Qed.

Lemma count_insert2 {A} (f : A -> bool) l i j x y x' y' :
  l !! i = Some x -> l !! j = Some y -> i <> j ->
  count f (<[i:=x']> (<[j:=y']> l)) + (if f x then 1 else 0) + (if f y then 1 else 0) =
  count f l + (if f x' then 1 else 0) + (if f y' then 1 else 0).
Proof.
  intros Hx Hy Hij. pose proof (count_insert f l j y y' Hy).
  pose proof (count_insert f (<[j:=y']> l) i x x' ltac:(by rewrite list_lookup_insert_ne)). lia.
Qed.

(** ** The semantics *)

Section semantics.
Context {D C K R Call Local : Type} `{!Monitor D C K R Call Local}.

Record thread := Thread { stat : status C K R; local : Local }.
Record mstate := MState { data : D; threads : list thread }.

(** What a step shows: the section that ran (and its result, when it finished), or a move of the
    scheduler. *)
Inductive event : Type :=
  | Called (t : nat) (c : Call) (r : option R)
  | Resumed (t : nat) (r : option R)
  | Notified (t : nat)
  | Returned (t : nat) (r : R)
  | Woken (t : nat)
  | TimedOut (t : nat).

Definition result (v : verdict D C K R) : option R := match v with Finish _ _ r => Some r | Block _ _ _ => None end.

Definition conclude (l : Local) (v : verdict D C K R) : thread :=
  match v with
  | Finish _ ns r => Thread (Leaving ns r) (settle l r)
  | Block _ c k => Thread (Asleep c k) l
  end.

Definition wake_on (c : C) (th : thread) : thread :=
  match stat th with
  | Asleep c' k => if decide (c = c') then Thread (Ready k false) (local th) else th
  | _ => th
  end.

Definition asleep_on (c : C) (th : thread) : bool :=
  match stat th with Asleep c' _ => bool_decide (c = c') | _ => false end.

(** The steps the system takes by itself once sections have run. *)
Inductive internal : mstate -> event -> mstate -> Prop :=
  | step_resume d ts t k e l :
      ts !! t = Some (Thread (Ready k e) l) ->
      internal (MState d ts) (Resumed t (result (resume k e d)))
        (MState (verdict_data (resume k e d)) (<[t := conclude l (resume k e d)]> ts))
  | step_notify_one d ts t c ns r l u k lu :
      ts !! t = Some (Thread (Leaving (NotifyOne c :: ns) r) l) ->
      ts !! u = Some (Thread (Asleep c k) lu) ->
      internal (MState d ts) (Notified t)
        (MState d (<[t := Thread (Leaving ns r) l]> (<[u := Thread (Ready k false) lu]> ts)))
  | step_notify_none d ts t c ns r l :
      ts !! t = Some (Thread (Leaving (NotifyOne c :: ns) r) l) ->
      count (asleep_on c) ts = 0 ->
      internal (MState d ts) (Notified t) (MState d (<[t := Thread (Leaving ns r) l]> ts))
  | step_notify_all d ts t c ns r l :
      ts !! t = Some (Thread (Leaving (NotifyAll c :: ns) r) l) ->
      internal (MState d ts) (Notified t) (MState d (<[t := Thread (Leaving ns r) l]> (map (wake_on c) ts)))
  | step_return d ts t r l :
      ts !! t = Some (Thread (Leaving [] r) l) ->
      internal (MState d ts) (Returned t r) (MState d (<[t := Thread Idle l]> ts)).

Inductive monitor_step : mstate -> event -> mstate -> Prop :=
  | step_internal s e s' : internal s e s' -> monitor_step s e s'
  | step_call d ts t c l :
      ts !! t = Some (Thread Idle l) -> permitted l c = true ->
      monitor_step (MState d ts) (Called t c (result (start c d)))
        (MState (verdict_data (start c d)) (<[t := conclude l (start c d)]> ts))
  | step_wake d ts t c k l :
      ts !! t = Some (Thread (Asleep c k) l) ->
      monitor_step (MState d ts) (Woken t) (MState d (<[t := Thread (Ready k false) l]> ts))
  | step_timeout d ts t c k l :
      ts !! t = Some (Thread (Asleep c k) l) -> timed k = true ->
      monitor_step (MState d ts) (TimedOut t) (MState d (<[t := Thread (Ready k true) l]> ts)).

#[export] Instance monitor_system : System mstate event := {
  initial s := initial_data (data s) /\ exists n, threads s = map (Thread Idle) own_locals ++ replicate n (Thread Idle fresh_local);
  step := monitor_step
}.

(** ** Generic facts *)

(** No thread satisfies a test that idle threads fail. *)
Lemma count_initial (f : thread -> bool) ls n l0 :
  (forall l, l ∈ l0 :: ls -> f (Thread Idle l) = false) -> count f (map (Thread Idle) ls ++ replicate n (Thread Idle l0)) = 0.
Proof.
  intros H. apply count_zero. intros i th [Hi|[_ Hi]]%lookup_app_Some.
  - apply list_lookup_fmap_Some in Hi as (l & -> & Hl). apply H. right. by apply list_elem_of_lookup_2 in Hl.
  - apply lookup_replicate_1 in Hi as [-> _]. apply H. by left.
Qed.

(** An invariant of the data is one that every critical section preserves. *)
Lemma data_invariant (I : D -> Prop) :
  (forall d, initial_data d -> I d) ->
  (forall c d, I d -> I (verdict_data (start c d))) ->
  (forall k e d, I d -> I (verdict_data (resume k e d))) ->
  forall s, reachable s -> I (data s).
Proof.
  intros Hi Hc Hr. apply invariant_reachable. split; [by intros s [H _]; apply Hi|].
  intros s l s' H Hstep. destruct Hstep as [s e s' Hint| | |]; [|by apply Hc|done|done].
  destruct Hint; try done. by apply Hr.
Qed.

(** The same for the data and the threads together. *)
Lemma monitor_invariant (I : D -> list thread -> Prop) :
  (forall d n, initial_data d -> I d (map (Thread Idle) own_locals ++ replicate n (Thread Idle fresh_local))) ->
  (forall d ts t c l, I d ts -> ts !! t = Some (Thread Idle l) -> permitted l c = true ->
    I (verdict_data (start c d)) (<[t := conclude l (start c d)]> ts)) ->
  (forall d ts t k e l, I d ts -> ts !! t = Some (Thread (Ready k e) l) ->
    I (verdict_data (resume k e d)) (<[t := conclude l (resume k e d)]> ts)) ->
  (forall d ts t c ns r l u k lu, I d ts -> t <> u -> ts !! t = Some (Thread (Leaving (NotifyOne c :: ns) r) l) ->
    ts !! u = Some (Thread (Asleep c k) lu) -> I d (<[t := Thread (Leaving ns r) l]> (<[u := Thread (Ready k false) lu]> ts))) ->
  (forall d ts t c ns r l, I d ts -> ts !! t = Some (Thread (Leaving (NotifyOne c :: ns) r) l) ->
    count (asleep_on c) ts = 0 -> I d (<[t := Thread (Leaving ns r) l]> ts)) ->
  (forall d ts t c ns r l, I d ts -> map (wake_on c) ts !! t = Some (Thread (Leaving (NotifyAll c :: ns) r) l) ->
    I d (<[t := Thread (Leaving ns r) l]> (map (wake_on c) ts))) ->
  (forall d ts t r l, I d ts -> ts !! t = Some (Thread (Leaving [] r) l) -> I d (<[t := Thread Idle l]> ts)) ->
  (forall d ts t c k e l, I d ts -> ts !! t = Some (Thread (Asleep c k) l) -> (e = true -> timed k = true) ->
    I d (<[t := Thread (Ready k e) l]> ts)) ->
  forall s, reachable s -> I (data s) (threads s).
Proof.
  intros Hinit Hcall Hres Hone Hnone Hall Hret Hwake. apply invariant_reachable. split.
  { intros [d ts] [H [n E]]. simpl in *. subst ts. by apply Hinit. }
  intros s e s' H Hstep.
  destruct Hstep as [s e s' Hint|d ts t c l Ht Hp|d ts t c k l Ht|d ts t c k l Ht Hk]; simpl in *; [|by apply Hcall|by eapply Hwake|by eapply Hwake].
  destruct Hint as [d ts t k e l Ht|d ts t c ns r l u k lu Ht Hu|d ts t c ns r l Ht Hn|d ts t c ns r l Ht|d ts t r l Ht]; simpl in *.
  - by apply Hres.
  - eapply Hone; [done| |done..]. intros ->. by rewrite Ht in Hu.
  - by eapply Hnone.
  - apply (Hall _ _ _ _ _ _ _ H). by rewrite list_lookup_fmap, Ht.
  - by eapply Hret.
Qed.

Lemma asleep_after_notify_all c ts : count (asleep_on c) (map (wake_on c) ts) = 0.
Proof.
  apply count_zero. intros i x Hi. rewrite list_lookup_fmap in Hi. destruct (ts !! i) as [[st l]|]; [|done].
  simpl in Hi. injection Hi as <-. unfold wake_on, asleep_on. destruct st as [|c' k| |]; try done. simpl.
  case_decide; [done|]. by apply bool_decide_eq_false.
Qed.

Lemma length_threads s e s' : monitor_step s e s' -> length (threads s') = length (threads s).
Proof.
  destruct 1 as [s e s' Hint| | |]; [destruct Hint|..]; simpl; rewrite ?length_insert, ?length_map; done.
Qed.

(** A step is a critical section of one thread, or leaves the data and what the threads know alone. *)
Definition locals (ts : list thread) : list Local := map local ts.

Definition event_result (e : event) : option R := match e with Called _ _ r | Resumed _ r => r | _ => None end.

Inductive view (s : mstate) (e : event) (s' : mstate) : Prop :=
  | view_quiet : event_result e = None -> data s' = data s -> locals (threads s') = locals (threads s) -> view s e s'
  | view_section t l v :
      threads s !! t = Some (Thread Idle l) /\ (exists c, permitted l c = true /\ v = start c (data s)) \/
        (exists k ex, threads s !! t = Some (Thread (Ready k ex) l) /\ v = resume k ex (data s)) ->
      event_result e = result v -> data s' = verdict_data v -> threads s' = <[t := conclude l v]> (threads s) -> view s e s'.

Lemma locals_insert ts t th : locals (<[t := th]> ts) = <[t := local th]> (locals ts).
Proof. apply list_fmap_insert. Qed.

Lemma locals_insert_same ts t st st' l : ts !! t = Some (Thread st l) -> locals (<[t := Thread st' l]> ts) = locals ts.
Proof. intros H. rewrite locals_insert. apply list_insert_id. unfold locals. by rewrite list_lookup_fmap, H. Qed.

Lemma locals_wake c ts : locals (map (wake_on c) ts) = locals ts.
Proof.
  unfold locals. rewrite map_map. apply map_ext. intros [[| | |] l]; try done. unfold wake_on. simpl. by case_decide.
Qed.

Lemma step_view s e s' : monitor_step s e s' -> view s e s'.
Proof.
  intros Hs. destruct Hs as [s e s' Hint|d ts t c l Ht Hp|d ts t c k l Ht|d ts t c k l Ht Hk].
  - destruct Hint as [d ts t k ex l Ht|d ts t c ns r l u k lu Ht Hu|d ts t c ns r l Ht Hn|d ts t c ns r l Ht|d ts t r l Ht].
    + eapply view_section; [right; by eexists _, _|done..].
    + apply view_quiet; [done..|]. simpl. assert (t <> u) by (intros ->; by rewrite Ht in Hu).
      rewrite (locals_insert_same _ t (Leaving (NotifyOne c :: ns) r)) by (by rewrite list_lookup_insert_ne). by eapply locals_insert_same.
    + apply view_quiet; [done..|]. by eapply locals_insert_same.
    + apply view_quiet; [done..|]. simpl. rewrite (locals_insert_same _ t (Leaving (NotifyAll c :: ns) r)) by (by rewrite list_lookup_fmap, Ht).
      apply locals_wake.
    + apply view_quiet; [done..|]. by eapply locals_insert_same.
  - eapply view_section; [left; by eauto|done..].
  - apply view_quiet; [done..|]. by eapply locals_insert_same.
  - apply view_quiet; [done..|]. by eapply locals_insert_same.
Qed.

(** *** Internal activity dies out *)

Definition outside (th : thread) : bool := match stat th with Asleep _ _ | Ready _ _ => true | _ => false end.
Definition ready (th : thread) : bool := match stat th with Ready _ _ => true | _ => false end.
Definition leaving (th : thread) : bool := match stat th with Leaving _ _ => true | _ => false end.
Definition pending (th : thread) : nat := match stat th with Leaving ns _ => S (length ns) | _ => 0 end.

Lemma count_map_wake (f : thread -> bool) c ts :
  (forall k l, f (Thread (Ready k false) l) = f (Thread (Asleep c k) l)) -> count f (map (wake_on c) ts) = count f ts.
Proof.
  intros H. rewrite count_map. apply count_ext. intros [[|c' k| |] l]; simpl; try done.
  unfold wake_on. simpl. case_decide; subst; [apply H|done].
Qed.

Definition total_pending (ts : list thread) : nat := sum_list_with pending ts.

Lemma total_pending_insert ts t x y : ts !! t = Some x -> total_pending (<[t:=y]> ts) + pending x = total_pending ts + pending y.
Proof.
  unfold total_pending. revert t. induction ts as [|z ts IH]; intros [|t] H; simpl in *; simplify_eq; [lia|].
  specialize (IH t H). lia.
Qed.

Lemma total_pending_wake c ts : total_pending (map (wake_on c) ts) = total_pending ts.
Proof.
  unfold total_pending. induction ts as [|[[|c' k| |] l] ts IH]; simpl; try done; try (by rewrite IH). rewrite IH.
  unfold wake_on. simpl. by case_decide.
Qed.

Definition internal_step (s s' : mstate) : Prop := exists e, internal s e s'.

(** Every internal step shrinks (threads inside a call but not leaving, notifications to send and
    returns to make, threads ready to run), compared lexicographically. *)
Lemma internal_shrinks s s' :
  internal_step s s' ->
  count outside (threads s') < count outside (threads s) \/
  count outside (threads s') = count outside (threads s) /\
  (total_pending (threads s') < total_pending (threads s) \/
   total_pending (threads s') = total_pending (threads s) /\ count ready (threads s') < count ready (threads s)).
Proof.
  intros [e H]. destruct H as [d ts t k e l Ht|d ts t c ns r l u k lu Ht Hu|d ts t c ns r l Ht Hn|d ts t c ns r l Ht|d ts t r l Ht]; simpl.
  - generalize (resume k e d). intros v. pose proof (count_insert outside ts t _ (conclude l v) Ht).
    pose proof (count_insert ready ts t _ (conclude l v) Ht).
    pose proof (total_pending_insert ts t _ (conclude l v) Ht). destruct v; unfold pending in *; simpl in *; lia.
  - assert (t <> u) as Htu by (intros ->; rewrite Ht in Hu; done).
    pose proof (count_insert2 outside ts t u _ _ (Thread (Leaving ns r) l) (Thread (Ready k false) lu) Ht Hu Htu).
    pose proof (total_pending_insert ts u _ (Thread (Ready k false) lu) Hu).
    pose proof (total_pending_insert (<[u := Thread (Ready k false) lu]> ts) t _ (Thread (Leaving ns r) l)
      ltac:(by rewrite list_lookup_insert_ne)). unfold pending in *. simpl in *. lia.
  - pose proof (count_insert outside ts t _ (Thread (Leaving ns r) l) Ht).
    pose proof (total_pending_insert ts t _ (Thread (Leaving ns r) l) Ht). unfold pending in *. simpl in *. lia.
  - assert (map (wake_on c) ts !! t = Some (Thread (Leaving (NotifyAll c :: ns) r) l)) as Ht'
      by (by rewrite list_lookup_fmap, Ht).
    pose proof (count_insert outside _ t _ (Thread (Leaving ns r) l) Ht').
    pose proof (total_pending_insert _ t _ (Thread (Leaving ns r) l) Ht').
    rewrite total_pending_wake, count_map_wake in * by done. unfold pending in *. simpl in *. lia.
  - pose proof (count_insert outside ts t _ (Thread Idle l) Ht).
    pose proof (total_pending_insert ts t _ (Thread Idle l) Ht). unfold pending in *. simpl in *. lia.
Qed.

Lemma internal_terminates s : sn internal_step s.
Proof.
  remember (count outside (threads s)) as a eqn:Ea. revert s Ea. induction (lt_wf a) as [a _ IHa]. intros s.
  remember (total_pending (threads s)) as b eqn:Eb. revert s Eb. induction (lt_wf b) as [b _ IHb]. intros s.
  remember (count ready (threads s)) as c eqn:Ec. revert s Ec. induction (lt_wf c) as [c _ IHc]. intros s -> -> ->.
  constructor. intros s' H. destruct (internal_shrinks s s' H) as [Ha|[Ha [Hb|[Hb Hc]]]].
  - by eapply IHa.
  - by eapply IHb.
  - by eapply IHc.
Qed.

(** A state at rest: nobody is about to run, notify or return. *)
Definition at_rest (s : mstate) : Prop := count ready (threads s) = 0 /\ count leaving (threads s) = 0.

Lemma nf_at_rest s : nf internal_step s -> at_rest s.
Proof.
  intros H. destruct s as [d ts]. split; apply count_zero; intros t [st l] Ht; destruct st as [| |k e|ns r]; try done; exfalso; apply H.
  - eexists _, _. by eapply step_resume.
  - destruct ns as [|[c|c] ns].
    + eexists _, _. by eapply step_return.
    + destruct (decide (count (asleep_on c) ts = 0)) as [|Hc]; [eexists _, _; by eapply step_notify_none|].
      unfold count in Hc. destruct (filter (fun x => asleep_on c x = true) ts) as [|[st' lu] fs] eqn:E; [done|].
      assert (Thread st' lu ∈ filter (fun x => asleep_on c x = true) ts) as Hin by (rewrite E; by left).
      apply list_elem_of_filter in Hin as [Hs Hin]. apply list_elem_of_lookup in Hin as [u Hu].
      destruct st'; try done. unfold asleep_on in Hs. simpl in Hs. apply bool_decide_eq_true in Hs as <-.
      eexists _, _. by eapply step_notify_one.
    + eexists _, _. by eapply step_notify_all.
Qed.

Lemma rest_nf s : at_rest s -> nf internal_step s.
Proof.
  intros [Hr Hl] (s' & e & H). rewrite count_zero in Hr, Hl.
  destruct H as [d ts t k e l Ht|d ts t c ns r l u k lu Ht|d ts t c ns r l Ht|d ts t c ns r l Ht|d ts t r l Ht]; simpl in *;
    [by apply Hr in Ht|by apply Hl in Ht..].
Qed.

Lemma internal_reachable s s' : reachable s -> rtc internal_step s s' -> reachable s'.
Proof.
  intros Hs H. induction H as [s|s s1 s2 [e He] _ IH]; [done|]. apply IH. eapply reach_step; [exact Hs|]. by apply step_internal.
Qed.

(** ** Schedules: executions computed *)

Inductive move : Type :=
  | DoCall (t : nat) (c : Call)
  | DoResume (t : nat)
  | DoNotify (t u : nat)
  | DoReturn (t : nat)
  | DoWake (t : nat)
  | DoTimeOut (t : nat).

Definition run_move (s : mstate) (m : move) : option (mstate * event) :=
  let d := data s in
  let ts := threads s in
  match m with
  | DoCall t c =>
      th ← ts !! t;
      match stat th with
      | Idle =>
          if permitted (local th) c then
            Some (MState (verdict_data (start c d)) (<[t := conclude (local th) (start c d)]> ts), Called t c (result (start c d)))
          else None
      | _ => None
      end
  | DoResume t =>
      th ← ts !! t;
      match stat th with
      | Ready k e =>
          Some (MState (verdict_data (resume k e d)) (<[t := conclude (local th) (resume k e d)]> ts), Resumed t (result (resume k e d)))
      | _ => None
      end
  | DoNotify t u =>
      th ← ts !! t; thu ← ts !! u;
      match stat th with
      | Leaving (NotifyOne c :: ns) r =>
          match stat thu with
          | Asleep c' k =>
              if decide (c = c') then
                Some (MState d (<[t := Thread (Leaving ns r) (local th)]> (<[u := Thread (Ready k false) (local thu)]> ts)), Notified t)
              else None
          | _ =>
              if (count (asleep_on c) ts =? 0)%nat then Some (MState d (<[t := Thread (Leaving ns r) (local th)]> ts), Notified t)
              else None
          end
      | Leaving (NotifyAll c :: ns) r => Some (MState d (<[t := Thread (Leaving ns r) (local th)]> (map (wake_on c) ts)), Notified t)
      | _ => None
      end
  | DoReturn t =>
      th ← ts !! t;
      match stat th with Leaving [] r => Some (MState d (<[t := Thread Idle (local th)]> ts), Returned t r) | _ => None end
  | DoWake t =>
      th ← ts !! t;
      match stat th with Asleep c k => Some (MState d (<[t := Thread (Ready k false) (local th)]> ts), Woken t) | _ => None end
  | DoTimeOut t =>
      th ← ts !! t;
      match stat th with
      | Asleep c k => if timed k then Some (MState d (<[t := Thread (Ready k true) (local th)]> ts), TimedOut t) else None
      | _ => None
      end
  end.

Fixpoint run_moves (s : mstate) (ms : list move) : option (mstate * list event) :=
  match ms with
  | [] => Some (s, [])
  | m :: ms => r ← run_move s m; r' ← run_moves r.1 ms; Some (r'.1, r.2 :: r'.2)
  end.

(** The moves that need no call, no spurious wake-up and no timeout. *)
Definition under_way (m : move) : bool := match m with DoResume _ | DoNotify _ _ | DoReturn _ => true | _ => false end.

Lemma run_move_internal s m s' e : under_way m = true -> run_move s m = Some (s', e) -> internal s e s'.
Proof.
  destruct s as [d ts]. destruct m as [t c|t|t u|t|t|t]; simpl; try done; intros _; destruct (ts !! t) as [[st l]|] eqn:Ht; simpl; try done.
  - destruct st; try done. intros; simplify_eq. by apply step_resume.
  - destruct (ts !! u) as [[stu lu]|] eqn:Hu; simpl; [|done]. destruct st as [| | |[|[c|c] ns] r]; try done.
    + destruct stu as [|c' k| |]; try (destruct (Nat.eqb_spec (count (asleep_on c) ts) 0); intros; simplify_eq; by eapply step_notify_none).
      case_decide; intros; simplify_eq. by eapply step_notify_one.
    + intros; simplify_eq. by apply step_notify_all.
  - destruct st as [| | |[|] r]; try done. intros; simplify_eq. by apply step_return.
Qed.

Lemma run_move_step s m s' e : run_move s m = Some (s', e) -> monitor_step s e s'.
Proof.
  destruct (under_way m) eqn:Hm; [intros; by apply step_internal, (run_move_internal _ m)|].
  destruct s as [d ts]. destruct m as [t c|t|t u|t|t|t]; try done; simpl; destruct (ts !! t) as [[st l]|] eqn:Ht; simpl; try done.
  - destruct st; try done. destruct (permitted l c) eqn:Hp; intros; simplify_eq. by apply step_call.
  - destruct st; try done. intros; simplify_eq. by eapply step_wake.
  - destruct st; try done. destruct (timed k) eqn:Hk; intros; simplify_eq. by eapply step_timeout.
Qed.

Lemma run_moves_internal s ms s' es : forallb under_way ms = true -> run_moves s ms = Some (s', es) -> rtc internal_step s s'.
Proof.
  revert s es. induction ms as [|m ms IH]; intros s es Hm H; simpl in Hm, H; [by simplify_eq|]. apply andb_true_iff in Hm as [Hm Hms].
  destruct (run_move s m) as [[s1 e]|] eqn:Em; simpl in H; [|done].
  destruct (run_moves s1 ms) as [[s2 es']|] eqn:Ep; simplify_eq/=. apply (rtc_l _ _ s1); [exists e; by apply (run_move_internal _ m)|by eapply IH].
Qed.

Lemma run_moves_exec s ms s' es : run_moves s ms = Some (s', es) -> exec s es s'.
Proof.
  revert s es. induction ms as [|m ms IH]; intros s es H; simpl in H; [simplify_eq; apply exec_nil|].
  destruct (run_move s m) as [[s1 e]|] eqn:Em; simpl in H; [|done].
  destruct (run_moves s1 ms) as [[s2 es']|] eqn:Ep; simplify_eq/=. apply (exec_cons _ _ s1); [by eapply run_move_step|by apply IH].
Qed.

End semantics.
Arguments thread : clear implicits.
Arguments mstate : clear implicits.
Arguments event : clear implicits.
Arguments move : clear implicits.
Arguments DoCall {Call} t c.
Arguments DoResume {Call} t.
Arguments DoNotify {Call} t u.
Arguments DoReturn {Call} t.
Arguments DoWake {Call} t.
Arguments DoTimeOut {Call} t.

(** How a step changes a count: [count_step f] adds the equation for the threads the goal
    (or, failing that, a hypothesis) updates. *)
Tactic Notation "count_step" uconstr(f) :=
  match goal with
  | Ht : ?ts !! ?t = Some ?x, Hu : ?ts !! ?u = Some ?z, Hn : ?t <> ?u |- context [<[?t := ?y]> (<[?u := ?w]> ?ts)] =>
      pose proof (count_insert2 f ts t u x z y w Ht Hu Hn)
  | Ht : ?ts !! ?t = Some ?x |- context [<[?t := ?y]> ?ts] => pose proof (count_insert f ts t x y Ht)
  | Ht : ?ts !! ?t = Some ?x, Hu : ?ts !! ?u = Some ?z, Hn : ?t <> ?u, _ : context [<[?t := ?y]> (<[?u := ?w]> ?ts)] |- _ =>
      pose proof (count_insert2 f ts t u x z y w Ht Hu Hn)
  | Ht : ?ts !! ?t = Some ?x, _ : context [<[?t := ?y]> ?ts] |- _ => pose proof (count_insert f ts t x y Ht)
  end.
