(* ===== verification/Wakeups.v ===== *)
(** * Wake-ups: a rule against lost notifications

    For one condition variable [c] of a monitor, and the waits on it of the kind [sel]: [good d] says that
    such a wait makes sense at all, and [need d] how many waiters could go ahead.  If every critical section that raises [need]
    announces it (one notification for each unit, or a broadcast), and a section only sleeps when nothing can be
    done, then, once the activity under way has died out, a thread asleep on [c] has
    nothing to wait for that is already there. *)

From S2P Require Import Prelude Monitor.

(** Notifications a thread still has to send, and threads woken that have not looked yet. *)
Definition is_one {C} `{EqDecision C} (c : C) (n : notification C) : bool :=
  match n with NotifyOne c' => bool_decide (c = c') | NotifyAll _ => false end.
Definition is_all {C} `{EqDecision C} (c : C) (n : notification C) : bool :=
  match n with NotifyOne _ => false | NotifyAll c' => bool_decide (c = c') end.

Section wakeups.
Context {D C K R Call Local : Type} `{!Monitor D C K R Call Local}.
Context (I : D -> Prop) (c : C) (waits sel : K -> bool) (good : D -> bool) (need : D -> nat).

Abbreviation thread := (thread C K R Local).
Abbreviation state := (mstate D C K R Local).

Definition sends (f : notification C -> bool) (th : thread) : bool := match stat th with Leaving ns _ => existsb f ns | _ => false end.
Definition woken (th : thread) : bool := match stat th with Ready k _ => waits k | _ => false end.
Definition sleeps (th : thread) : bool := match stat th with Asleep c' k => bool_decide (c = c') && sel k | _ => false end.
Definition placed (th : thread) : Prop := match stat th with Asleep c' k => c' = c -> waits k = true | _ => True end.

(** A section that has used up [spent] wake-ups leaves the books right. *)
Definition wakes_enough (spent : nat) (d : D) (v : verdict D C K R) : Prop :=
  match v with
  | Finish d' ns _ =>
      existsb (is_all c) ns = true \/
      (good d = true -> good d' = true /\ (need d' = 0 \/ need d' + spent <= need d + (if existsb (is_one c) ns then 1 else 0)))
  | Block d' c' k =>
      (c' = c -> waits k = true) /\ (c' = c -> sel k = true -> good d' = true /\ need d' = 0) /\
      (c' <> c \/ sel k = false -> good d = true -> good d' = true /\ (need d' = 0 \/ need d' + spent <= need d))
  end.

Definition covered_by (d : D) (ts : list thread) : Prop :=
  I d /\ Forall placed ts /\
  (0 < count sleeps ts ->
   0 < count (sends (is_all c)) ts \/ (good d = true /\ need d <= count woken ts + count (sends (is_one c)) ts)).

Context (initial_I : forall d, initial_data d -> I d).
Context (start_I : forall l x d, permitted l x = true -> I d -> I (verdict_data (start x d))).
Context (resume_I : forall k e d, I d -> I (verdict_data (resume k e d))).
Context (start_wakes : forall l x d, permitted l x = true -> I d -> wakes_enough 0 d (start x d)).
Context (resume_wakes : forall k e d, I d -> wakes_enough (if waits k then 1 else 0) d (resume k e d)).

Ltac counts := count_step sleeps; count_step (sends (is_all c)); count_step woken; count_step (sends (is_one c)).

Lemma covered_section d ts t st l v spent :
  covered_by d ts -> ts !! t = Some (Thread st l) -> st = Idle /\ spent = 0 \/ (exists k e, st = Ready k e /\ spent = if waits k then 1 else 0) ->
  I (verdict_data v) -> wakes_enough spent d v -> covered_by (verdict_data v) (<[t := conclude l v]> ts).
Proof.
  intros (_ & Hp & Hc) Ht Hst Hi Ha. split; [done|]. split.
  - apply Forall_insert; [done|]. destruct v as [d' ns r|d' c' k]; [done|]. unfold placed. simpl. intros E. by destruct Ha as [Ha _]; apply Ha.
  - intros Hpos. counts. assert ((if sends (is_all c) (Thread st l) then 1 else 0) = 0 /\ (if sleeps (Thread st l) then 1 else 0) = 0 /\
      (if sends (is_one c) (Thread st l) then 1 else 0) = 0 /\ (if woken (Thread st l) then 1 else 0) = spent) as (E1 & E2 & E3 & E4).
    { destruct Hst as [[-> ->]|(k & e & -> & ->)]; done. }
    rewrite E1, E2, E3, E4 in *. clear E1 E2 E3 E4. unfold sends, woken, sleeps in *.
    destruct v as [d' ns r|d' c' k]; simpl in *.
    + destruct Ha as [Ha|Ha]; [rewrite Ha in *; left; lia|]. destruct Hc as [Hc|[Hg Hc]]; [lia|left; lia|].
      destruct (Ha Hg) as [Hg' Hn]. right. split; [done|]. lia.
    + destruct Ha as (A0 & A1 & A2). case_bool_decide as E; [destruct (sel k) eqn:Es|]; simpl in *.
      * destruct (A1 (eq_sym E) eq_refl) as (Hg & Hn). right. split; [done|]. lia.
      * destruct Hc as [Hc|[Hg Hc]]; [lia|left; lia|]. destruct (A2 (or_intror eq_refl) Hg) as [Hg' Hn]. right. split; [done|lia].
      * destruct Hc as [Hc|[Hg Hc]]; [lia|left; lia|]. destruct (A2 (or_introl (not_eq_sym E)) Hg) as [Hg' Hn]. right. split; [done|lia].
Qed.

Lemma sleeps_asleep ts : count sleeps ts <= count (asleep_on c) ts.
Proof. apply count_mono. intros [[| | |] l]; try done. unfold sleeps, asleep_on. simpl. by intros [? ?]%andb_true_iff. Qed.

Lemma placed_asleep ts u k lu : Forall placed ts -> ts !! u = Some (Thread (Asleep c k) lu) -> waits k = true.
Proof. intros H Hu. by apply (Forall_lookup_1 _ _ _ _ H Hu). Qed.

Lemma count_map_wake_le (f : thread -> bool) c' ts :
  (forall k l, f (Thread (Asleep c' k) l) = true -> f (Thread (Ready k false) l) = true) -> count f ts <= count f (map (wake_on c') ts).
Proof.
  intros H. rewrite count_map. apply count_mono. intros [[|c2 k| |] l]; simpl; try done.
  unfold wake_on. simpl. case_decide; subst; [apply H|done].
Qed.

Lemma covered_by_reachable (s : state) : reachable s -> covered_by (data s) (threads s).
Proof.
  apply (monitor_invariant covered_by).
  - intros d n Hd. split; [by apply initial_I|]. split; [|rewrite count_initial by done; lia].
    apply Forall_app. split; [|by apply Forall_replicate]. apply Forall_map, Forall_true. done.
  - intros d ts t x l H Ht Hp. eapply covered_section; [done..|by left|by eapply start_I; [|apply H]|by eapply start_wakes; [|apply H]].
  - intros d ts t k e l H Ht. eapply covered_section; [done..|right; by eauto|apply resume_I, H|apply resume_wakes, H].
  - intros d ts t c' ns r l u k lu (Hi & Hp & Hc) Hn Ht Hu. split; [done|]. split; [by repeat apply Forall_insert|]. intros Hpos. counts.
    unfold sends, woken, sleeps in *. simpl in *. destruct (decide (c = c')) as [<-|E].
    + rewrite (placed_asleep _ _ _ _ Hp Hu) in *. rewrite bool_decide_true in * by done. simpl in *.
      destruct (existsb (is_one c) ns), (existsb (is_all c) ns), (sel k); simpl in *; (destruct Hc as [Hc|[Hg Hc]]; [lia|left; lia|right; split; [done|lia]]).
    + rewrite (bool_decide_false (c = c')) in * by done. simpl in *.
      destruct (existsb (is_one c) ns), (existsb (is_all c) ns), (waits k); simpl in *; (destruct Hc as [Hc|[Hg Hc]]; [lia|left; lia|right; split; [done|lia]]).
  - intros d ts t c' ns r l (Hi & Hp & Hc) Ht Hz. split; [done|]. split; [by apply Forall_insert|]. intros Hpos. counts.
    unfold sends, woken, sleeps in *. simpl in *. destruct (decide (c = c')) as [<-|E]; [pose proof (sleeps_asleep ts); unfold sleeps in *; lia|].
    rewrite (bool_decide_false (c = c')) in * by done. simpl in *.
    destruct (existsb (is_one c) ns), (existsb (is_all c) ns); simpl in *; (destruct Hc as [Hc|[Hg Hc]]; [lia|left; lia|right; split; [done|lia]]).
  - intros d ts t c' ns r l (Hi & Hp & Hc) Ht. split; [done|].
    assert (Forall placed (map (wake_on c') ts)) as Hp'.
    { apply Forall_map, (Forall_impl _ _ _ Hp). intros [[|c2 k| |] l'] H; try done. unfold wake_on. simpl. by case_decide. }
    split; [by apply Forall_insert|]. intros Hpos. destruct (decide (c = c')) as [<-|E].
    { pose proof (sleeps_asleep (map (wake_on c) ts)) as Hle. rewrite asleep_after_notify_all in Hle. count_step sleeps.
      unfold sleeps in *. simpl in *. lia. }
    pose proof (count_map_wake sleeps c' ts ltac:(intros k l'; unfold sleeps; simpl; by rewrite bool_decide_false)) as W1.
    pose proof (count_map_wake (sends (is_all c)) c' ts ltac:(done)) as W2. pose proof (count_map_wake (sends (is_one c)) c' ts ltac:(done)) as W3.
    pose proof (count_map_wake_le woken c' ts ltac:(done)) as W4. counts. rewrite W1, W2, W3 in *. clear W1 W2 W3.
    unfold sends, woken, sleeps in *. simpl in *. rewrite (bool_decide_false (c = c')) in * by done. simpl in *.
    destruct (existsb (is_one c) ns), (existsb (is_all c) ns); simpl in *; (destruct Hc as [Hc|[Hg Hc]]; [lia|left; lia|right; split; [done|lia]]).
  - intros d ts t r l (Hi & Hp & Hc) Ht. split; [done|]. split; [by apply Forall_insert|]. intros Hpos. counts.
    unfold sends, woken, sleeps in *. simpl in *. destruct Hc as [Hc|[Hg Hc]]; [lia|left; lia|right; split; [done|lia]].
  - intros d ts t c' k e l (Hi & Hp & Hc) Ht He. split; [done|]. split; [by apply Forall_insert|]. intros Hpos. counts.
    unfold sends, woken, sleeps in *. simpl in *.
    destruct (waits k), (bool_decide (c = c') && sel k); (destruct Hc as [Hc|[Hg Hc]]; [lia|left; lia|right; split; [done|lia]]).
Qed.

(** At rest, who sleeps on [c] in such a wait has nothing to do. *)
Lemma asleep_at_rest (s : state) t k l :
  reachable s -> at_rest s -> threads s !! t = Some (Thread (Asleep c k) l) -> sel k = true -> I (data s) /\ good (data s) = true /\ need (data s) = 0.
Proof.
  intros Hr [H1 H2] Ht Hk. destruct (covered_by_reachable s Hr) as (Hi & _ & Hc). split; [done|].
  assert (count woken (threads s) <= count ready (threads s)) by (apply count_mono; intros [[| |k' e|] l']; done).
  assert (forall f, count (sends f) (threads s) <= count leaving (threads s)) as Hs by (intros f; apply count_mono; intros [[| | |] l']; done).
  pose proof (Hs (is_all c)). pose proof (Hs (is_one c)).
  destruct Hc as [Hc|[Hg Hc]]; [|lia|split; [done|lia]]. apply (count_pos _ _ _ _ Ht). unfold sleeps. simpl. by rewrite bool_decide_true.
Qed.

End wakeups.
