(* ===== verification/Semaphore.v ===== *)
(** * Semaphore (semaphore.hpp): the counting semaphore

    The data is the count; each member function is its critical section. *)

From S2P Require Import Prelude Monitor Wakeups.
Open Scope Z_scope.

(** [std::numeric_limits<std::ptrdiff_t>::max()]. *)
Definition max : Z := 2 ^ 63 - 1.

(** The constructor. *)
Definition make (initial : Z) : outcome Z := if initial <? 0 then Throw invalid_argument else Ret initial.

Inductive call : Set := acquire | try_acquire | try_acquire_for | try_acquire_until | release (update : Z) | available.

(** [Taken]: a unit was taken (the call returns, with [true] where it returns a value). *)
Inductive answer : Set := Taken | Refused | Released (update : Z) | Snapshot (n : Z) | Threw (e : exn).

Inductive waiting : Set := in_acquire | in_timed_acquire.

Abbreviation section := (verdict Z unit waiting answer).

(** [available_.wait(lock, predicate)]: the predicate first, then sleep. *)
Definition wait_available (k : waiting) (count_ : Z) : section :=
  if 0 <? count_ then Finish (count_ - 1) [] Taken else Block count_ tt k.

Definition release_section (update count_ : Z) : section :=
  if update <? 0 then Finish count_ [] (Threw invalid_argument)
  else if update =? 0 then Finish count_ [] (Released 0)
  else if max - update <? count_ then Finish count_ [] (Threw overflow_error)
  else Finish (count_ + update) (if update =? 1 then [NotifyOne tt] else [NotifyAll tt]) (Released update).

Definition semaphore_start (c : call) (count_ : Z) : section :=
  match c with
  | acquire => wait_available in_acquire count_
  | try_acquire => if count_ =? 0 then Finish count_ [] Refused else Finish (count_ - 1) [] Taken
  | try_acquire_for | try_acquire_until => wait_available in_timed_acquire count_
  | release update => release_section update count_
  | available => Finish count_ [] (Snapshot count_)
  end.

(** After a wake-up the predicate again; a wait that expired gives up if it is still false. *)
Definition semaphore_resume (k : waiting) (expired : bool) (count_ : Z) : section :=
  if 0 <? count_ then Finish (count_ - 1) [] Taken
  else if expired then Finish count_ [] Refused
  else Block count_ tt k.

#[export] Instance semaphore : Monitor Z unit waiting answer call unit := {
  start := semaphore_start;
  resume := semaphore_resume;
  timed k := match k with in_acquire => false | in_timed_acquire => true end;
  initial_data d := exists initial, make initial = Ret d /\ initial <= max;
  own_locals := [];
  fresh_local := tt;
  permitted _ _ := true;
  settle l _ := l
}.

Abbreviation state := (mstate Z unit waiting answer unit).
Abbreviation thread := (thread unit waiting answer unit).
Abbreviation event := (event answer call).

(** ** The account of units *)

Definition answer_of (e : event) : option answer :=
  match e with Called _ _ r | Resumed _ r => r | _ => None end.

(** The units an event takes from the count, and puts back. *)
Definition taken (e : event) : Z := match answer_of e with Some Taken => 1 | _ => 0 end.
Definition released (e : event) : Z := match answer_of e with Some (Released u) => u | _ => 0 end.
Definition total (f : event -> Z) (es : list event) : Z := foldr (fun e n => f e + n) 0 es.

Lemma total_app f es es' : total f (es ++ es') = total f es + total f es'.
Proof. unfold total. induction es as [|e es IH]; simpl; lia. Qed.

Lemma section_bounds c d : 0 <= d <= max -> 0 <= verdict_data (semaphore_start c d) <= max.
Proof.
  intros H. destruct c; simpl; unfold wait_available, release_section; repeat case_match; bools; simpl; lia.
Qed.

Lemma resume_bounds k e d : 0 <= d <= max -> 0 <= verdict_data (semaphore_resume k e d) <= max.
Proof. intros H. unfold semaphore_resume. repeat case_match; bools; simpl; lia. Qed.

Lemma initial_bounds d : initial_data d -> 0 <= d <= max.
Proof. intros (i & H & Hi). unfold make in H. case_match; simplify_eq. bools. lia. Qed.

Lemma count_bounds (s : state) : reachable s -> 0 <= data s <= max.
Proof.
  apply (data_invariant (fun d => 0 <= d <= max)); [apply initial_bounds|apply section_bounds|apply resume_bounds].
Qed.

Lemma start_account c d : 0 <= d <= max ->
  verdict_data (semaphore_start c d) = d - taken (Called 0 c (result (semaphore_start c d))) + released (Called 0 c (result (semaphore_start c d))).
Proof.
  intros H. unfold taken, released. destruct c; simpl; unfold wait_available, release_section; tests; bools; lia.
Qed.

Lemma resume_account k e d :
  verdict_data (semaphore_resume k e d) = d - taken (Resumed 0 (result (semaphore_resume k e d))) + released (Resumed 0 (result (semaphore_resume k e d))).
Proof. unfold taken, released, semaphore_resume. tests; bools; lia. Qed.

Lemma step_account (s : state) e s' : 0 <= data s <= max -> step s e s' -> data s' = data s - taken e + released e.
Proof.
  intros H Hs. destruct Hs as [s e s' Hint|d ts t c l| |]; [|by apply start_account|unfold taken, released; simpl; lia..].
  destruct Hint; [by apply resume_account|simpl; unfold taken, released; simpl; lia..].
Qed.

Lemma exec_account (s : state) es s' :
  exec s es s' -> reachable s -> reachable s' /\ data s' = data s - total taken es + total released es.
Proof.
  induction 1 as [s|s es s1 e s2 Hx IH Hs]; intros Hr; [split; [done|]; unfold total; simpl; lia|].
  destruct (IH Hr) as [Hr1 E]. split; [by eapply reach_step|].
  rewrite !total_app, (step_account _ _ _ (count_bounds _ Hr1) Hs), E. unfold total. simpl. lia.
Qed.

(** C18. Units are conserved.  In every execution of any number of threads, in any interleaving, with
    spurious wake-ups and timeouts, the count is the initial count, less the units taken, plus the
    units released; it never becomes negative and never passes [max()].  So no more units are ever
    taken than the initial count and the releases allow. *)
Theorem units_conserved n initial k (s : state) es :
  make n = Ret initial -> n <= max -> exec (MState initial (replicate k (Thread Idle tt))) es s ->
  data s = n - total taken es + total released es /\ 0 <= data s <= max /\ total taken es <= n + total released es.
Proof.
  intros Hm Hn Hx. assert (initial = n) as -> by (unfold make in Hm; case_match; by simplify_eq).
  destruct (exec_account _ _ _ Hx) as [Hr E].
  { apply reach_init. split; [by exists n|by eexists]. }
  pose proof (count_bounds _ Hr). simpl in E. lia.
Qed.

Lemma units_conserved_witness :
  0 = 1 - total taken [Called 0 acquire (Some Taken)] + total released [Called 0 acquire (Some Taken)] /\ 0 <= 0 <= max /\
  total taken [Called 0 acquire (Some Taken)] <= 1 + total released [Called 0 acquire (Some Taken)].
Proof.
  apply (units_conserved 1 1 1 (MState 0 [Thread (Leaving [] Taken) tt]) [Called 0 acquire (Some Taken)]); [reflexivity|by vm_compute|].
  apply (exec_snoc _ [] (MState 1 [Thread Idle tt])); [apply exec_nil|].
  exact (step_call 1 [Thread Idle tt] 0 acquire tt eq_refl eq_refl).
Defined.

(** ** Wake-ups *)

(** Every unit in the count is one waiter that could go ahead. *)
Lemma start_wakes l c d : permitted l c = true -> 0 <= d <= max -> wakes_enough tt (fun _ => true) (fun _ => true) (fun _ => true) Z.to_nat 0 d (semaphore_start c d).
Proof.
  intros _ H. destruct c; simpl; unfold wait_available, release_section; tests; bools; simpl; intuition (auto; lia).
Qed.

Lemma resume_wakes k e d : 0 <= d <= max -> wakes_enough tt (fun _ => true) (fun _ => true) (fun _ => true) Z.to_nat 1 d (semaphore_resume k e d).
Proof. intros H. unfold semaphore_resume. tests; bools; simpl; intuition (auto; lia). Qed.

(** C19. No wake-up is lost.  From any reachable state, the activity already under way (woken threads
    that look at the count again, notifications to send, returns) dies out after finitely many
    steps, and when it has, no thread is left asleep while the count is positive, although
    [release] notifies after it has left the mutex and [release(1)] wakes a single waiter. *)
Theorem no_lost_wakeup (s : state) :
  reachable s ->
  sn internal_step s /\
  forall s', rtc internal_step s s' -> nf internal_step s' ->
    data s' = 0 \/ forall t c k l, threads s' !! t <> Some (Thread (Asleep c k) l).
Proof.
  intros Hr. split; [apply internal_terminates|]. intros s' Hs Hnf. pose proof (internal_reachable _ _ Hr Hs) as Hr'.
  destruct (decide (data s' = 0)) as [|Hn]; [by left|right]. intros t [] k l Ht. pose proof (count_bounds _ Hr').
  destruct (asleep_at_rest _ tt _ _ _ Z.to_nat initial_bounds (fun _ c d _ => section_bounds c d) resume_bounds start_wakes resume_wakes
    s' t k l Hr' (nf_at_rest _ Hnf) Ht eq_refl) as (_ & _ & E). lia.
Qed.

(** A thread that waits, and another that has put a unit back but not sent its notification yet. *)
Lemma no_lost_wakeup_witness :
  let s := MState 1 [Thread (Asleep tt in_acquire) tt; Thread (Leaving [NotifyOne tt] (Released 1)) tt] in
  sn internal_step s /\
  forall s', rtc internal_step s s' -> nf internal_step s' ->
    data s' = 0 \/ forall t c k l, threads s' !! t <> Some (Thread (Asleep c k) l).
Proof.
  intros s. apply (no_lost_wakeup s).
  apply (reach_step (MState 0 [Thread (Asleep tt in_acquire) tt; Thread Idle tt]) (Called 1 (release 1) (Some (Released 1)))).
  - apply (reach_step (MState 0 [Thread Idle tt; Thread Idle tt]) (Called 0 acquire None)).
    + apply reach_init. split; [exists 0; by vm_compute|by exists 2%nat].
    + exact (step_call 0 [Thread Idle tt; Thread Idle tt] 0 acquire tt eq_refl eq_refl).
  - exact (step_call 0 [Thread (Asleep tt in_acquire) tt; Thread Idle tt] 1 (release 1) tt eq_refl eq_refl).
Defined.
