(* ===== verification/ReaderWriterLock.v ===== *)
(** * ReaderWriterLock (reader_writer_lock.hpp): the writer-preferring reader/writer lock

    The counters are 64-bit [std::size_t]s.  [holding] is what a thread holds: the precondition of
    the unlock operations, and of the acquisitions, which are not recursive. *)

From S2P Require Import Prelude Monitor.
Open Scope Z_scope.

Record rw := RW { active_readers : Z; waiting_writers : Z; writer_active : bool }.

Definition unlocked_state : rw := RW 0 0 false.

Inductive side : Set := readers_allowed | writer_turn.
#[export] Instance side_eq_dec : EqDecision side.
Proof. solve_decision. Defined.

Inductive call : Set :=
  | lock | try_lock | try_lock_for | try_lock_until | unlock
  | lock_shared | try_lock_shared | try_lock_shared_for | try_lock_shared_until | unlock_shared.

(** [Exclusive], [Shared]: acquired in that mode (with [true] where the call returns a value). *)
Inductive answer : Set := Exclusive | Shared | Refused | Unlocked.

Inductive waiting : Set := in_lock | in_timed_lock | in_lock_shared | in_timed_lock_shared.

Definition is_writer (k : waiting) : bool := match k with in_lock | in_timed_lock => true | _ => false end.

Abbreviation section := (verdict rw side waiting answer).

(** The predicates of the two waits. *)
Definition writer_may (d : rw) : bool := negb (writer_active d) && (active_readers d =? 0).
Definition reader_may (d : rw) : bool := negb (writer_active d) && (waiting_writers d =? 0).

Definition add_waiting (d : rw) (n : Z) : rw := RW (active_readers d) (u64 (waiting_writers d + n)) (writer_active d).
Definition add_reader (d : rw) (n : Z) : rw := RW (u64 (active_readers d + n)) (waiting_writers d) (writer_active d).
Definition set_writer (d : rw) (b : bool) : rw := RW (active_readers d) (waiting_writers d) b.

(** [lock] after its wait, and [writer_wait] when the wait was satisfied. *)
Definition writer_enters (d : rw) : section := Finish (set_writer (add_waiting d (-1)) true) [] Exclusive.

(** [writer_wait] when the wait expired. *)
Definition writer_gives_up (d : rw) : section :=
  let d := add_waiting d (-1) in
  Finish d (if (waiting_writers d =? 0) && negb (writer_active d) then [NotifyAll readers_allowed] else []) Refused.

Definition writer_wait (k : waiting) (d : rw) : section :=
  let d := add_waiting d 1 in
  if writer_may d then writer_enters d else Block d writer_turn k.

Definition try_lock_section (d : rw) : section :=
  if writer_active d || (0 <? active_readers d) then Finish d [] Refused else Finish (set_writer d true) [] Exclusive.

Definition unlock_section (d : rw) : section :=
  let d := set_writer d false in
  Finish d (if 0 <? waiting_writers d then [NotifyOne writer_turn] else [NotifyAll readers_allowed]) Unlocked.

Definition reader_wait (k : waiting) (d : rw) : section :=
  if reader_may d then Finish (add_reader d 1) [] Shared else Block d readers_allowed k.

Definition try_lock_shared_section (d : rw) : section :=
  if writer_active d || (0 <? waiting_writers d) then Finish d [] Refused else Finish (add_reader d 1) [] Shared.

Definition unlock_shared_section (d : rw) : section :=
  let d := add_reader d (-1) in
  Finish d (if (active_readers d =? 0) && (0 <? waiting_writers d) then [NotifyOne writer_turn] else []) Unlocked.

Definition rw_start (c : call) (d : rw) : section :=
  match c with
  | lock => writer_wait in_lock d
  | try_lock => try_lock_section d
  | try_lock_for | try_lock_until => writer_wait in_timed_lock d
  | unlock => unlock_section d
  | lock_shared => reader_wait in_lock_shared d
  | try_lock_shared => try_lock_shared_section d
  | try_lock_shared_for | try_lock_shared_until => reader_wait in_timed_lock_shared d
  | unlock_shared => unlock_shared_section d
  end.

Definition rw_resume (k : waiting) (expired : bool) (d : rw) : section :=
  if is_writer k then
    if writer_may d then writer_enters d
    else if expired then writer_gives_up d
    else Block d writer_turn k
  else
    if reader_may d then Finish (add_reader d 1) [] Shared
    else if expired then Finish d [] Refused
    else Block d readers_allowed k.

Inductive holding : Set := holds_nothing | holds_exclusive | holds_shared.

Definition rw_permitted (l : holding) (c : call) : bool :=
  match c with
  | unlock => match l with holds_exclusive => true | _ => false end
  | unlock_shared => match l with holds_shared => true | _ => false end
  | _ => match l with holds_nothing => true | _ => false end
  end.

Definition rw_settle (l : holding) (r : answer) : holding :=
  match r with Exclusive => holds_exclusive | Shared => holds_shared | Refused => l | Unlocked => holds_nothing end.

#[export] Instance reader_writer_lock : Monitor rw side waiting answer call holding := {
  start := rw_start;
  resume := rw_resume;
  timed k := match k with in_timed_lock | in_timed_lock_shared => true | _ => false end;
  initial_data d := d = unlocked_state;
  own_locals := [];
  fresh_local := holds_nothing;
  permitted := rw_permitted;
  settle := rw_settle
}.

Abbreviation state := (mstate rw side waiting answer holding).
Abbreviation thread := (thread side waiting answer holding).

(** ** What the counters count *)

Definition exclusive (th : thread) : bool := match local th with holds_exclusive => true | _ => false end.
Definition shared (th : thread) : bool := match local th with holds_shared => true | _ => false end.
Definition writer_waits (th : thread) : bool := match stat th with Asleep _ k | Ready k _ => is_writer k | _ => false end.
Definition writer_ready (th : thread) : bool := match stat th with Ready k _ => is_writer k | _ => false end.
Definition wakes_writer (th : thread) : bool := match stat th with Leaving (NotifyOne writer_turn :: _) _ => true | _ => false end.
Definition wakes_readers (th : thread) : bool := match stat th with Leaving (NotifyAll readers_allowed :: _) _ => true | _ => false end.

(** A thread inside an acquisition holds nothing, and sleeps on the side it acquires. *)
Definition proper (th : thread) : Prop :=
  match stat th with
  | Asleep c k => c = (if is_writer k then writer_turn else readers_allowed) /\ local th = holds_nothing
  | Ready _ _ => local th = holds_nothing
  | _ => True
  end.

Record consistent (d : rw) (ts : list thread) : Prop := {
  threads_proper : Forall proper ts;
  readers_counted : active_readers d = Z.of_nat (count shared ts);
  writers_counted : waiting_writers d = Z.of_nat (count writer_waits ts);
  writer_counted : count exclusive ts = if writer_active d then 1%nat else 0%nat;
  one_mode : writer_active d = true -> active_readers d = 0;
  readers_wakened : (0 < count (asleep_on readers_allowed) ts)%nat ->
    writer_active d = true \/ (0 < count writer_waits ts)%nat \/ (0 < count wakes_readers ts)%nat;
  writers_wakened : (0 < count (asleep_on writer_turn) ts)%nat ->
    writer_active d = true \/ (0 < count shared ts)%nat \/ (0 < count writer_ready ts)%nat \/ (0 < count wakes_writer ts)%nat
}.

Lemma u64_count {A} (f : A -> bool) l n : Z.of_nat (length l) < 2 ^ 64 -> n = Z.of_nat (count f l) -> u64 n = n.
Proof. intros Hl ->. apply wrap_small. pose proof (count_le f l). lia. Qed.

Ltac counts :=
  try (count_step exclusive; count_step shared; count_step writer_waits; count_step writer_ready; count_step wakes_writer;
       count_step wakes_readers; count_step (asleep_on readers_allowed); count_step (asleep_on writer_turn)).

Lemma sleeping_writers_wait ts : Forall proper ts -> (count (asleep_on writer_turn) ts <= count writer_waits ts)%nat.
Proof.
  intros H. apply (count_mono_Forall proper); [done|]. intros [[|c k| |] l] Hp; try done. unfold asleep_on, writer_waits, proper in *.
  simpl in *. destruct Hp as [-> _]. by destruct (is_writer k).
Qed.

(** A section of a thread that is not inside an acquisition yet, and of one that has been woken. *)
Ltac section_cases :=
  tests; bools; subst;
  (constructor; simpl; [by apply Forall_insert|..]);
  counts; simpl in *; try (intros; done); try lia.

Lemma consistent_start d ts t c l :
  Z.of_nat (length ts) < 2 ^ 64 -> consistent d ts -> ts !! t = Some (Thread Idle l) -> rw_permitted l c = true ->
  consistent (verdict_data (rw_start c d)) (<[t := conclude l (rw_start c d)]> ts).
Proof.
  intros Hlen [Hp Hr Hw He Hm HR HW] Ht Hperm. destruct d as [ar ww wa]. simpl in *. subst ar ww.
  pose proof (count_lt writer_waits ts t _ Ht eq_refl). pose proof (sleeping_writers_wait _ Hp).
  pose proof (count_le shared ts). pose proof (count_lt shared ts t _ Ht) as Hs. pose proof (count_pos shared ts t _ Ht) as Hps.
  assert (u64 (Z.of_nat (count writer_waits ts) + 1) = Z.of_nat (S (count writer_waits ts))) as E1 by (rewrite wrap_small; lia).
  assert (u64 (Z.of_nat (S (count writer_waits ts)) + -1) = Z.of_nat (count writer_waits ts)) as E2 by (rewrite wrap_small; lia).
  assert (l = holds_nothing -> u64 (Z.of_nat (count shared ts) + 1) = Z.of_nat (S (count shared ts))) as E3.
  { intros ->. specialize (Hs eq_refl). rewrite wrap_small; lia. }
  assert (l = holds_shared -> u64 (Z.of_nat (count shared ts) + -1) = Z.of_nat (count shared ts) - 1) as E4.
  { intros ->. specialize (Hps eq_refl). rewrite wrap_small; lia. }
  destruct wa; simpl in Hm; [specialize (Hm eq_refl)|clear Hm]; destruct c, l; try discriminate Hperm; simpl;
    unfold writer_wait, writer_may, writer_enters, add_waiting, set_writer, try_lock_section, unlock_section, reader_wait,
      reader_may, try_lock_shared_section, unlock_shared_section, add_reader; simpl; rewrite ?E1, ?E2, ?E3, ?E4 by done;
    section_cases. specialize (Hps eq_refl). lia.
Qed.

Lemma consistent_resume d ts t k e l :
  Z.of_nat (length ts) < 2 ^ 64 -> consistent d ts -> ts !! t = Some (Thread (Ready k e) l) ->
  consistent (verdict_data (rw_resume k e d)) (<[t := conclude l (rw_resume k e d)]> ts).
Proof.
  intros Hlen [Hp Hr Hw He Hm HR HW] Ht. destruct d as [ar ww wa]. simpl in *. subst ar ww.
  assert (l = holds_nothing) as -> by (rewrite Forall_lookup in Hp; apply (Hp _ _ Ht)).
  pose proof (count_lt shared ts t _ Ht eq_refl). pose proof (sleeping_writers_wait _ Hp).
  pose proof (count_pos writer_waits ts t _ Ht) as Hk. pose proof (count_le writer_waits ts).
  assert (u64 (Z.of_nat (count shared ts) + 1) = Z.of_nat (S (count shared ts))) as E3 by (rewrite wrap_small; lia).
  assert (is_writer k = true -> u64 (Z.of_nat (count writer_waits ts) + -1) = Z.of_nat (count writer_waits ts) - 1) as E4.
  { intros Ek. specialize (Hk Ek). rewrite wrap_small; lia. }
  destruct wa; simpl in Hm; [specialize (Hm eq_refl)|clear Hm]; destruct k, e; simpl;
    unfold rw_resume, writer_may, writer_enters, writer_gives_up, add_waiting, set_writer, reader_may, add_reader; simpl;
    rewrite ?E3, ?E4 by done; section_cases.
Qed.

Lemma consistent_notified d ts ts' :
  consistent d ts -> Forall proper ts' ->
  count shared ts' = count shared ts -> count exclusive ts' = count exclusive ts -> count writer_waits ts' = count writer_waits ts ->
  (count (asleep_on readers_allowed) ts' = 0 \/
   count (asleep_on readers_allowed) ts' <= count (asleep_on readers_allowed) ts /\ count wakes_readers ts <= count wakes_readers ts')%nat ->
  (count (asleep_on writer_turn) ts' = 0 \/
   count (asleep_on writer_turn) ts' <= count (asleep_on writer_turn) ts /\
   count writer_ready ts + count wakes_writer ts <= count writer_ready ts' + count wakes_writer ts')%nat ->
  consistent d ts'.
Proof.
  intros [Hp Hr Hw He Hm HR HW] Hp' Es Ee Ew Cr Cw. split; try done; try congruence; intros Hpos.
  - destruct Cr as [Cr|[C1 C2]]; [lia|]. specialize (HR ltac:(lia)). destruct HR as [|[|]]; [by left|right; left; lia|right; right; lia].
  - destruct Cw as [Cw|[C1 C2]]; [lia|]. specialize (HW ltac:(lia)). destruct HW as [|[|[|]]]; [by left|right; left; lia|right; right; lia..].
Qed.

Lemma consistent_reachable (s : state) :
  reachable s -> Z.of_nat (length (threads s)) < 2 ^ 64 -> consistent (data s) (threads s).
Proof.
  apply (monitor_invariant (fun d ts => Z.of_nat (length ts) < 2 ^ 64 -> consistent d ts)).
  - intros d n -> _. split; simpl; rewrite ?count_replicate by done; try done; try (intros; lia). by apply Forall_replicate.
  - intros d ts t c l H Ht Hp Hlen. rewrite length_insert in Hlen. apply consistent_start; auto.
  - intros d ts t k e l H Ht Hlen. rewrite length_insert in Hlen. apply consistent_resume; auto.
  - intros d ts t c ns r l u k lu H Hn Ht Hu Hlen. rewrite !length_insert in Hlen. specialize (H Hlen).
    pose proof (threads_proper _ _ H) as Hp. rewrite Forall_lookup in Hp. pose proof (Hp _ _ Hu) as [Hc Hl]. simpl in Hc, Hl. subst lu.
    apply (consistent_notified d ts); [done|apply Forall_insert; [by apply Forall_insert; [apply H|]|done]|..]; counts;
      destruct k; simpl in Hc; subst c; destruct ns as [|[[]|[]] ns]; unfold exclusive, shared in *; simpl in *; lia.
  - intros d ts t c ns r l H Ht Hz Hlen. rewrite length_insert in Hlen. specialize (H Hlen).
    apply (consistent_notified d ts); [done|apply Forall_insert; [apply H|done]|..]; counts; unfold exclusive, shared in *; destruct c, ns as [|[[]|[]] ns]; simpl in *; lia.
  - intros d ts t c ns r l H Ht Hlen. rewrite length_insert, length_map in Hlen. specialize (H Hlen).
    assert (count shared (map (wake_on c) ts) = count shared ts) as E1 by (apply count_map_wake; done).
    assert (count exclusive (map (wake_on c) ts) = count exclusive ts) as E2 by (apply count_map_wake; done).
    assert (count writer_waits (map (wake_on c) ts) = count writer_waits ts) as E3 by (apply count_map_wake; done).
    pose proof (asleep_after_notify_all c ts) as Ez.
    apply (consistent_notified d ts); [done|apply Forall_insert; [|done]|..].
    + apply Forall_map, (Forall_impl _ _ _ (threads_proper _ _ H)). intros [[|c' k| |] l'] Hp; try done.
      unfold wake_on. simpl. case_decide; [apply Hp|done].
    + counts. unfold exclusive, shared in *. simpl in *. lia.
    + counts. unfold exclusive, shared in *. simpl in *. lia.
    + counts. unfold exclusive, shared in *. simpl in *. lia.
    + destruct c; [left|right]; counts; [simpl in *; lia|].
      rewrite (count_map_wake (asleep_on readers_allowed)), (count_map_wake wakes_readers) in * by done.
      destruct ns as [|[[]|[]] ns]; simpl in *; lia.
    + destruct c; [right|left]; counts; [|simpl in *; lia].
      rewrite (count_map_wake (asleep_on writer_turn)), (count_map_wake wakes_writer) in * by done.
      assert (count writer_ready ts <= count writer_ready (map (wake_on readers_allowed) ts))%nat.
      { rewrite count_map. apply count_mono. by intros [[| | |] l']. }
      destruct ns as [|[[]|[]] ns]; simpl in *; lia.
  - intros d ts t r l H Ht Hlen. rewrite length_insert in Hlen. specialize (H Hlen).
    apply (consistent_notified d ts); [done|apply Forall_insert; [apply H|done]|..]; counts; unfold exclusive, shared in *; simpl in *; lia.
  - intros d ts t c k e l H Ht He Hlen. rewrite length_insert in Hlen. specialize (H Hlen).
    pose proof (threads_proper _ _ H) as Hp. rewrite Forall_lookup in Hp. pose proof (Hp _ _ Ht) as [Hc Hl]. simpl in Hc, Hl. subst l.
    apply (consistent_notified d ts); [done|by apply Forall_insert; [apply H|]|..]; counts;
      destruct k; simpl in Hc; subst c; unfold exclusive, shared in *; simpl in *; lia.
Qed.

(** C20. Mutual exclusion.  Whatever acquisitions, timed or not, and releases any number of threads
    make, in any interleaving: no two threads hold the lock exclusively at once, and no thread
    holds it shared while another holds it exclusively. *)
Theorem mutual_exclusion (s : state) t u th th' :
  reachable s -> Z.of_nat (length (threads s)) < 2 ^ 64 ->
  threads s !! t = Some th -> threads s !! u = Some th' -> t <> u ->
  local th = holds_exclusive -> local th' = holds_nothing.
Proof.
  intros Hr Hlen Ht Hu Hn Hl. destruct (consistent_reachable s Hr Hlen) as [_ Hsh _ He Hm _ _].
  assert (exclusive th = true) as Ee by (unfold exclusive; by rewrite Hl).
  pose proof (count_pos exclusive _ _ _ Ht Ee). destruct (writer_active (data s)); [|lia]. specialize (Hm eq_refl).
  destruct (local th') eqn:El; [done|exfalso..].
  - pose proof (count_insert2 exclusive _ t u _ _ (Thread Idle holds_nothing) (Thread Idle holds_nothing) Ht Hu Hn) as Hc.
    assert (exclusive th' = true) as Ee' by (unfold exclusive; by rewrite El). rewrite Ee, Ee' in Hc. simpl in Hc. lia.
  - assert (shared th' = true) as Es by (unfold shared; by rewrite El). pose proof (count_pos shared _ _ _ Hu Es). lia.
Qed.

(** Writer preference.  While some thread waits for exclusive ownership, no step of any thread
    adds a reader: the number of threads that hold the lock shared does not grow. *)
Theorem writer_preferred (s : state) e s' t k l :
  reachable s -> Z.of_nat (length (threads s)) < 2 ^ 64 ->
  threads s !! t = Some (Thread (Asleep writer_turn k) l) -> step s e s' ->
  (count shared (threads s') <= count shared (threads s))%nat.
Proof.
  intros Hr Hlen Ht Hs. destruct (consistent_reachable s Hr Hlen) as [Hp _ Hw _ _ _ _].
  pose proof (sleeping_writers_wait _ Hp) as Hle. assert (0 < waiting_writers (data s)) as Hpos.
  { pose proof (count_pos (asleep_on writer_turn) _ _ _ Ht eq_refl). lia. }
  destruct Hs as [s e s' Hint|d ts u c l' Hu Hperm|d ts u c k' l' Hu|d ts u c k' l' Hu]; simpl in *.
  - destruct Hint as [d ts u k' e l' Hu|d ts u c ns r l' v k' lv Hu Hv|d ts u c ns r l' Hu Hz|d ts u c ns r l' Hu|d ts u r l' Hu]; simpl in *.
    + assert (l' = holds_nothing) as -> by (rewrite Forall_lookup in Hp; apply (Hp _ _ Hu)).
      unfold rw_resume, writer_enters, writer_gives_up, reader_may. tests; bools; try lia; counts; simpl in *; lia.
    + assert (u <> v) as Hn by (intros ->; by rewrite Hu in Hv). counts. unfold shared in *. simpl in *. lia.
    + counts. unfold shared in *. simpl in *. lia.
    + assert (map (wake_on c) ts !! u = Some (Thread (Leaving (NotifyAll c :: ns) r) l')) as Hu' by (by rewrite list_lookup_fmap, Hu).
      pose proof (count_map_wake shared c ts ltac:(done)). clear Hu. counts. unfold shared in *. simpl in *. lia.
    + counts. unfold shared in *. simpl in *. lia.
  - destruct c, l'; try discriminate Hperm; simpl;
      unfold writer_wait, writer_enters, try_lock_section, reader_wait, reader_may, try_lock_shared_section; tests; bools; try lia;
      counts; simpl in *; lia.
  - counts. unfold shared in *. simpl in *. lia.
  - counts. unfold shared in *. simpl in *. lia.
Qed.

(** C21. No wake-up is lost.  The activity under way after any reachable state dies out, and then either
    some thread holds the lock or no thread is left asleep: the lock is never free with a reader
    or a writer waiting for it forever. *)
Theorem free_lock_has_no_sleeper (s : state) :
  reachable s -> Z.of_nat (length (threads s)) < 2 ^ 64 ->
  sn internal_step s /\
  forall s', rtc internal_step s s' -> nf internal_step s' ->
    (exists t th, threads s' !! t = Some th /\ local th <> holds_nothing) \/
    (forall t c k l, threads s' !! t <> Some (Thread (Asleep c k) l)).
Proof.
  intros Hr Hlen. split; [apply internal_terminates|]. intros s' Hs Hnf. pose proof (internal_reachable _ _ Hr Hs) as Hr'.
  assert (Z.of_nat (length (threads s')) < 2 ^ 64) as Hlen'.
  { clear -Hlen Hs. induction Hs as [|s s1 s2 [e He] _ IH]; [done|]. apply IH. by rewrite (length_threads _ _ _ (step_internal _ _ _ He)). }
  destruct (consistent_reachable s' Hr' Hlen') as [Hp Hsh Hw He Hm HR HW]. destruct (nf_at_rest _ Hnf) as [Hready Hleaving].
  assert (count writer_ready (threads s') = 0)%nat as Z1.
  { enough (count writer_ready (threads s') <= count ready (threads s'))%nat by lia. apply count_mono. by intros [[| | |] ?]. }
  assert (count wakes_writer (threads s') = 0 /\ count wakes_readers (threads s') = 0)%nat as [Z2 Z3].
  { assert (count wakes_writer (threads s') <= count leaving (threads s'))%nat by (apply count_mono; by intros [[| | |] ?]).
    assert (count wakes_readers (threads s') <= count leaving (threads s'))%nat by (apply count_mono; by intros [[| | |] ?]). lia. }
  destruct (decide (0 < count exclusive (threads s') + count shared (threads s')))%nat as [Hpos|Hnone].
  { left. destruct (decide (0 < count exclusive (threads s')))%nat as [H|H];
      [|assert (0 < count shared (threads s'))%nat as H2 by lia; clear H; rename H2 into H];
      apply count_pos_inv in H as (t & th & Ht & Hf); exists t, th; (split; [done|]); intros E; unfold exclusive, shared in Hf;
      by rewrite E in Hf. }
  right. destruct (writer_active (data s')); [lia|].
  assert (count (asleep_on writer_turn) (threads s') = 0)%nat as Z4 by (destruct (decide (0 < count (asleep_on writer_turn) (threads s')))%nat as [H|]; [destruct (HW H) as [|[|[|]]]|]; lia || done).
  assert (count writer_waits (threads s') = 0)%nat as Z5.
  { apply count_zero. intros i [st l] Hi. rewrite Forall_lookup in Hp. specialize (Hp _ _ Hi). rewrite count_zero in Z1, Z4.
    specialize (Z1 _ _ Hi). specialize (Z4 _ _ Hi). destruct st as [|c k|k e|]; try done. unfold writer_waits, proper in *. simpl in *.
    destruct Hp as [-> _]. by destruct (is_writer k). }
  assert (count (asleep_on readers_allowed) (threads s') = 0)%nat as Z6 by (destruct (decide (0 < count (asleep_on readers_allowed) (threads s')))%nat as [H|]; [destruct (HR H) as [|[|]]|]; lia || done).
  intros t [] k l Ht; [rewrite count_zero in Z6; by specialize (Z6 _ _ Ht)|rewrite count_zero in Z4; by specialize (Z4 _ _ Ht)].
Qed.

(** ** A contended lock: one writer inside, one writer and one reader waiting *)

Definition idle : thread := Thread Idle holds_nothing.
Definition writer_in : thread := Thread (Leaving [] Exclusive) holds_exclusive.
Definition writer_out : thread := Thread (Asleep writer_turn in_lock) holds_nothing.
Definition reader_out : thread := Thread (Asleep readers_allowed in_lock_shared) holds_nothing.
Definition contended : state := MState (RW 0 1 true) [writer_in; writer_out; reader_out].

Lemma contended_reachable : reachable contended.
Proof.
  apply (reach_step (MState (RW 0 1 true) [writer_in; writer_out; idle]) (Called 2 lock_shared None)).
  - apply (reach_step (MState (RW 0 0 true) [writer_in; idle; idle]) (Called 1 lock None)).
    + apply (reach_step (MState unlocked_state [idle; idle; idle]) (Called 0 lock (Some Exclusive))).
      * apply reach_init. split; [done|by exists 3%nat].
      * exact (step_call unlocked_state [idle; idle; idle] 0 lock holds_nothing eq_refl eq_refl).
    + exact (step_call (RW 0 0 true) [writer_in; idle; idle] 1 lock holds_nothing eq_refl eq_refl).
  - exact (step_call (RW 0 1 true) [writer_in; writer_out; idle] 2 lock_shared holds_nothing eq_refl eq_refl).
Qed.

Lemma mutual_exclusion_witness : local writer_out = holds_nothing.
Proof. apply (mutual_exclusion contended 0 1 writer_in writer_out contended_reachable); done. Defined.

Lemma writer_preferred_witness :
  (count shared (threads (MState (RW 0 1 true) [Thread Idle holds_exclusive; writer_out; reader_out])) <= count shared (threads contended))%nat.
Proof.
  apply (writer_preferred contended (Returned 0 Exclusive) _ 1 in_lock holds_nothing contended_reachable); [done|done|].
  exact (step_internal _ _ _ (step_return (RW 0 1 true) [writer_in; writer_out; reader_out] 0 Exclusive holds_exclusive eq_refl)).
Defined.

Lemma free_lock_has_no_sleeper_witness :
  sn internal_step contended /\
  forall s', rtc internal_step contended s' -> nf internal_step s' ->
    (exists t th, threads s' !! t = Some th /\ local th <> holds_nothing) \/
    (forall t c k l, threads s' !! t <> Some (Thread (Asleep c k) l)).
Proof. apply (free_lock_has_no_sleeper contended contended_reachable). done. Defined.
