(* ===== verification/ObjectPool.v ===== *)
(** * ObjectPool (object_pool.hpp): lending a fixed set of objects

    The pool's own operations are serialised by its mutex, so a history is a sequence of them.
    The client's handles are variables: a handle holds a slot, or nothing once it has been moved
    from.  A write outside [free_slots_] is [None]: undefined behaviour. *)

From S2P Require Import Prelude.

Section pool.
Context {T : Type}.

Record pool := Pool { storage_ : list T; free_slots_ : list nat; free_count_ : nat }.

Definition init_free_list (storage : list T) : pool := Pool storage (seq 0 (length storage)) (length storage).

(** The constructors: value-initialised objects, or one per call of a factory. *)
Definition make (capacity : nat) (value : T) : pool := init_free_list (replicate capacity value).

Fixpoint produce {S} (factory : S -> T * S) (s : S) (n : nat) : list T :=
  match n with
  | O => []
  | S n => let '(x, s) := factory s in x :: produce factory s n
  end.

Definition make_from {S} (factory : S -> T * S) (s : S) (capacity : nat) : pool := init_free_list (produce factory s capacity).

Definition capacity (p : pool) : nat := length (storage_ p).
Definition available (p : pool) : nat := free_count_ p.
Definition in_use (p : pool) : nat := length (storage_ p) - free_count_ p.

(** The slot of the handle returned, and [None] when the pool is exhausted; the read of
    [free_slots_] past its end would be undefined ([0] here, never reached). *)
Definition try_acquire (p : pool) : pool * option nat :=
  if (free_count_ p =? 0)%nat then (p, None)
  else
    let n := free_count_ p - 1 in
    (Pool (storage_ p) (free_slots_ p) n, Some (default 0 (free_slots_ p !! n))).

Definition release (p : pool) (index : nat) : option pool :=
  if (free_count_ p <? length (free_slots_ p))%nat
  then Some (Pool (storage_ p) (<[free_count_ p := index]> (free_slots_ p)) (free_count_ p + 1))
  else None.

(** ** Handles

    [None]: [pool_] is null. *)
Abbreviation handle := (option nat).
Abbreviation handles := (gmap nat handle).

Definition release_slot (p : pool) (h : handle) : option pool :=
  match h with
  | Some index => release p index
  | None => Some p
  end.

Inductive command : Type :=
  | Acquire (h : nat)
  | MoveConstruct (h from : nat)
  | MoveAssign (h from : nat)
  | Destroy (h : nat)
  | Write (h : nat) (x : T).

(** What C++ itself demands: a variable is declared once, is used while it is alive, and an object
    is reached only through a handle that has one. *)
Definition allowed (hs : handles) (c : command) : Prop :=
  match c with
  | Acquire h => hs !! h = None
  | MoveConstruct h from => hs !! h = None /\ is_Some (hs !! from)
  | MoveAssign h from => is_Some (hs !! h) /\ is_Some (hs !! from)
  | Destroy h => is_Some (hs !! h)
  | Write h _ => exists i, hs !! h = Some (Some i)
  end.

Definition run_command (st : pool * handles) (c : command) : option (pool * handles) :=
  let '(p, hs) := st in
  match c with
  | Acquire h =>
      let '(p, r) := try_acquire p in
      Some (p, match r with Some i => <[h := Some i]> hs | None => hs end)
  | MoveConstruct h from =>
      v ← hs !! from; Some (p, <[h := v]> (<[from := None]> hs))
  | MoveAssign h from =>
      if decide (h = from) then Some (p, hs)
      else
        mine ← hs !! h; v ← hs !! from; p ← release_slot p mine;
        Some (p, <[h := v]> (<[from := None]> hs))
  | Destroy h =>
      mine ← hs !! h; p ← release_slot p mine; Some (p, delete h hs)
  | Write h x =>
      mine ← hs !! h; i ← mine; if (i <? length (storage_ p))%nat then Some (Pool (<[i := x]> (storage_ p)) (free_slots_ p) (free_count_ p), hs) else None
  end.

(** The object a live handle denotes. *)
Definition object (p : pool) (hs : handles) (h : nat) : option T := mine ← hs !! h; i ← mine; storage_ p !! i.

Inductive session : pool * handles -> Prop :=
  | session_make storage : session (init_free_list storage, ∅)
  | session_step st c st' : session st -> allowed st.2 c -> run_command st c = Some st' -> session st'.

(** ** The slots lent *)

Definition lent (hs : handles) : list nat := omap snd (map_to_list hs).

Lemma lent_insert hs h v : hs !! h = None -> lent (<[h := v]> hs) ≡ₚ option_list v ++ lent hs.
Proof. intros H. unfold lent. rewrite (map_to_list_insert _ _ _ H). by destruct v. Qed.

Lemma lent_delete hs h v : hs !! h = Some v -> lent hs ≡ₚ option_list v ++ lent (delete h hs).
Proof. intros H. unfold lent. rewrite <- (map_to_list_delete _ _ _ H). by destruct v. Qed.

Lemma lent_update hs h v w : hs !! h = Some v -> option_list v ++ lent (<[h := w]> hs) ≡ₚ option_list w ++ lent hs.
Proof.
  intros H. rewrite <- insert_delete_eq, lent_insert by apply lookup_delete_eq. rewrite (lent_delete _ _ _ H).
  apply Permutation_app_swap_app.
Qed.

Lemma lent_elem hs h i : hs !! h = Some (Some i) -> i ∈ lent hs.
Proof. intros H. rewrite (lent_delete _ _ _ H). by left. Qed.

(** Every slot is either on the free stack or lent, once. *)
Definition accounted (p : pool) (hs : handles) : Prop :=
  length (free_slots_ p) = length (storage_ p) /\ free_count_ p <= length (storage_ p) /\
  take (free_count_ p) (free_slots_ p) ++ lent hs ≡ₚ seq 0 (length (storage_ p)).

Lemma accounted_count p hs : accounted p hs -> free_count_ p + length (lent hs) = length (storage_ p).
Proof.
  intros (H1 & H2 & H3). apply Permutation_length in H3. rewrite length_app, length_take, length_seq in H3. lia.
Qed.

Lemma release_accounted p hs i h :
  accounted p hs -> hs !! h = Some (Some i) ->
  exists p', release p i = Some p' /\ accounted p' (<[h := None]> hs) /\ storage_ p' = storage_ p.
Proof.
  intros Ha Hh. pose proof (accounted_count _ _ Ha) as Hc. destruct Ha as (H1 & H2 & H3).
  pose proof (lent_delete _ _ _ Hh) as Hd. apply Permutation_length in Hd as Hlen. simpl in Hlen.
  unfold release. destruct (Nat.ltb_spec (free_count_ p) (length (free_slots_ p))); [|lia].
  eexists. split; [done|]. split; [|done]. split_and!; simpl; [by rewrite length_insert|lia|].
  rewrite Nat.add_1_r, (take_S_r _ _ i) by (apply list_lookup_insert_eq; lia). rewrite take_insert_ge by lia.
  rewrite <- app_assoc. change ([i] ++ ?x) with (option_list (Some i) ++ x). rewrite (lent_update hs h (Some i) None Hh). exact H3.
Qed.

(** A step of an accounted state is defined, and the result is accounted. *)
Lemma command_accounted p hs c :
  accounted p hs -> allowed hs c ->
  exists p' hs', run_command (p, hs) c = Some (p', hs') /\ accounted p' hs' /\ length (storage_ p') = length (storage_ p).
Proof.
  intros Ha Hok. pose proof (accounted_count _ _ Ha) as Hc. destruct c as [h|h from|h from|h|h x]; simpl in *.
  - unfold try_acquire. destruct (Nat.eqb_spec (free_count_ p) 0) as [E|E]; [by eexists _, _|].
    destruct Ha as (H1 & H2 & H3). eexists _, _. split; [done|]. split; [|done]. split_and!; simpl; [done|lia|].
    rewrite lent_insert by done. simpl. rewrite <- H3. replace (free_count_ p) with (S (free_count_ p - 1)) at 3 by lia.
    destruct (lookup_lt_is_Some_2 (free_slots_ p) (free_count_ p - 1) ltac:(lia)) as [i Hi]. rewrite Hi. simpl.
    rewrite (take_S_r _ _ i) by done. by rewrite <- app_assoc.
  - destruct Hok as [Hf [v Hv]]. rewrite Hv. eexists _, _. split; [done|]. split; [|done]. destruct Ha as (H1 & H2 & H3).
    split_and!; [done..|]. assert (h <> from) by (intros ->; congruence).
    rewrite lent_insert by (by rewrite lookup_insert_ne). rewrite <- H3. apply Permutation_app_head.
    by rewrite (lent_update hs from v None).
  - destruct Hok as [[mine Hm] [v Hv]]. case_decide as E; [by eexists _, _|]. rewrite Hm, Hv. simpl.
    assert (forall p, accounted p (<[h := None]> hs) -> accounted p (<[h := v]> (<[from := None]> hs))) as Hmove.
    { intros q (H1 & H2 & H3). split_and!; [done..|]. rewrite <- H3. apply Permutation_app_head.
      replace (<[h := v]> (<[from := None]> hs)) with (<[h := v]> (<[from := None]> (<[h := None]> hs)))
        by (apply map_eq; intros k; rewrite !lookup_insert; by repeat case_decide).
      pose proof (lent_update (<[from := None]> (<[h := None]> hs)) h None v ltac:(by rewrite lookup_insert_ne, lookup_insert_eq by done)) as E1.
      pose proof (lent_update (<[h := None]> hs) from v None ltac:(by rewrite lookup_insert_ne by done)) as E2.
      simpl in E1, E2. by rewrite E1, E2. }
    destruct mine as [i|]; simpl.
    + destruct (release_accounted p hs i h Ha Hm) as (p' & -> & Hp' & Es). eexists _, _. split; [done|]. split; [by apply Hmove|by rewrite Es].
    + eexists _, _. split; [done|]. split; [|done]. apply Hmove. by rewrite insert_id.
  - destruct Hok as [mine Hm]. rewrite Hm. simpl. destruct mine as [i|]; simpl.
    + destruct (release_accounted p hs i h Ha Hm) as (p' & -> & (H1 & H2 & H3) & Es). eexists _, _. split; [done|].
      split; [|by rewrite Es]. split_and!; [done..|]. rewrite <- H3. apply Permutation_app_head.
      rewrite (lent_delete (<[h := None]> hs) h None) by apply lookup_insert_eq. by rewrite delete_insert_eq.
    + eexists _, _. split; [done|]. split; [|done]. destruct Ha as (H1 & H2 & H3). split_and!; [done..|]. by rewrite (lent_delete hs h None Hm) in H3.
  - destruct Hok as [i Hi]. rewrite Hi. simpl. destruct Ha as (H1 & H2 & H3).
    assert (i < length (storage_ p)) as Hlt.
    { assert (i ∈ seq 0 (length (storage_ p))) as Hin by (rewrite <- H3; apply elem_of_app; right; by eapply lent_elem). apply elem_of_seq in Hin. lia. }
    destruct (Nat.ltb_spec i (length (storage_ p))); [|lia]. eexists _, _. split; [done|]. simpl. rewrite length_insert. split; [|done].
    split_and!; simpl; rewrite ?length_insert; done.
Qed.

Lemma session_accounted st : session st -> accounted st.1 st.2.
Proof.
  induction 1 as [storage|[p hs] c st' _ IH Hok Hrun]; cbn [fst snd] in *.
  - unfold accounted, init_free_list. simpl. rewrite length_seq. split_and!; [done|lia|].
    unfold lent. rewrite map_to_list_empty. simpl. by rewrite take_ge, app_nil_r by (by rewrite length_seq).
  - destruct (command_accounted _ _ _ IH Hok) as (p' & hs' & E & Ha & _). rewrite E in Hrun. by simplify_eq.
Qed.

Lemma accounted_distinct p hs h h' i :
  accounted p hs -> hs !! h = Some (Some i) -> hs !! h' = Some (Some i) -> h = h'.
Proof.
  intros (_ & _ & H3) Hh Hh'. destruct (decide (h = h')) as [|Hn]; [done|exfalso].
  assert (NoDup (lent hs)) as Hnd.
  { eapply NoDup_app. rewrite H3. apply NoDup_seq. }
  rewrite (lent_delete _ _ _ Hh) in Hnd. simpl in Hnd. apply NoDup_cons in Hnd as [Hin _]. apply Hin.
  apply (lent_elem _ h'). by rewrite lookup_delete_ne.
Qed.

(** C22. Every borrow is exclusive.  After any client session (acquisitions, moves of handles, also onto
    themselves, destructions and writes through handles): two live handles never denote the same
    object, each denotes an object of the pool, [in_use] is the number of live handles, and
    [try_acquire] fails exactly when every object is lent.  Every further step is defined (a
    release never writes outside the free stack), and a write through one handle leaves the
    objects of the others as they were. *)
Theorem exclusive_borrow st :
  session st ->
  let '(p, hs) := st in
  (forall h h' i, hs !! h = Some (Some i) -> hs !! h' = Some (Some i) -> h = h') /\
  (forall h i, hs !! h = Some (Some i) -> is_Some (object p hs h)) /\
  in_use p = length (lent hs) /\ available p + in_use p = capacity p /\
  ((try_acquire p).2 = None <-> in_use p = capacity p) /\
  forall c, allowed hs c ->
    exists p' hs', run_command (p, hs) c = Some (p', hs') /\ capacity p' = capacity p /\
      forall h h' x, c = Write h x -> object p' hs' h = Some x /\ (h' <> h -> object p' hs' h' = object p hs h').
Proof.
  destruct st as [p hs]. intros Ha%session_accounted. simpl in Ha. pose proof (accounted_count _ _ Ha) as Hc.
  assert (forall h i, hs !! h = Some (Some i) -> i < length (storage_ p)) as Hlt.
  { intros h i Hh%lent_elem. destruct Ha as (_ & _ & H3).
    assert (i ∈ seq 0 (length (storage_ p))) as Hin by (rewrite <- H3; apply elem_of_app; by right). apply elem_of_seq in Hin. lia. }
  unfold in_use, available, capacity. split_and!.
  - intros h h' i. by eapply accounted_distinct.
  - intros h i Hh. unfold object. rewrite Hh. simpl. by eapply lookup_lt_is_Some_2, Hlt.
  - lia.
  - lia.
  - unfold try_acquire. destruct (Nat.eqb_spec (free_count_ p) 0); simpl; split; intros; try done; lia.
  - intros c Hok. destruct (command_accounted _ _ _ Ha Hok) as (p' & hs' & E & _ & Hs). exists p', hs'. split_and!; [done..|].
    intros h h' x ->. simpl in *. destruct Hok as [i Hi]. rewrite Hi in E. simpl in E. specialize (Hlt _ _ Hi).
    destruct (Nat.ltb_spec i (length (storage_ p))); [|lia]. simplify_eq. unfold object. rewrite Hi. simpl. split; [by apply list_lookup_insert_eq|].
    intros Hn. destruct (hs' !! h') as [[j|]|] eqn:Hj; simpl; try done. rewrite list_lookup_insert_ne; [done|].
    intros ->. apply Hn. symmetry. by eapply accounted_distinct.
Qed.

End pool.

(** Two objects, one handle moved into another, and a write. *)
Lemma exclusive_borrow_witness :
  exists p hs, session (T := Z) (p, hs) /\ hs !! 2 = Some (Some 1) /\ object p hs 2 = Some 7%Z /\
  (forall h h' i, hs !! h = Some (Some i) -> hs !! h' = Some (Some i) -> h = h').
Proof.
  assert (session (T := Z) (Pool [0; 7]%Z [0; 1] 1, {[2 := Some 1; 1 := None]})) as Hs.
  { assert (session (T := Z) (Pool [0; 0]%Z [0; 1] 1, {[1 := Some 1]})) as H1.
    { apply (session_step _ (Acquire 1) _ (session_make [0; 0]%Z)); [reflexivity|vm_compute; reflexivity]. }
    assert (session (T := Z) (Pool [0; 0]%Z [0; 1] 1, {[2 := Some 1; 1 := None]})) as H2.
    { apply (session_step _ (MoveConstruct 2 1) _ H1); [split; [reflexivity|by eexists]|vm_compute; reflexivity]. }
    apply (session_step _ (Write 2 7%Z) _ H2); [by exists 1|vm_compute; reflexivity]. }
  eexists _, _. split; [exact Hs|]. split; [reflexivity|]. split; [reflexivity|].
  apply (exclusive_borrow _ Hs).
Defined.
