(* ===== verification/LockFreeQueue.v ===== *)
(** * LockFreeQueue (lock_free_queue.hpp): the bounded queue of per-slot sequence numbers

    Threads interleave at every access to shared memory: each load, compare-exchange and store of
    [try_push] and [try_pop] is a step ([advance]), and so are the two accesses to the payload.
    The interleavings here are sequentially consistent; [QueueOrders] carries the invariant over to the weaker memory orders the
    code names.  Counters and sequences are 64-bit and wrap. *)

From S2P Require Import Prelude.
Open Scope Z_scope.

(** [std::bit_ceil]: the least power of two that is at least [n]. *)
Definition bit_ceil (n : Z) : Z := 2 ^ Z.log2_up n.

Definition rounded_capacity (min_capacity : Z) : outcome Z :=
  let largest := Z.shiftl 1 (64 - 1) in
  if (min_capacity =? 0) || (largest <? min_capacity) then Throw invalid_argument
  else Ret (bit_ceil min_capacity).

Section queue.
Context {T : Type}.

Record slot := Slot { sequence : Z; value : option T }.

Record queue := Queue {
  slots_ : list slot;
  mask_ : Z;
  enqueue_pos_ : Z;
  dequeue_pos_ : Z
}.

Definition make (min_capacity : Z) : outcome queue :=
  let! n := rounded_capacity min_capacity in
  Ret (Queue (map (fun i => Slot (Z.of_nat i) None) (seq 0 (Z.to_nat n))) (n - 1) 0 0).

Definition capacity (q : queue) : Z := mask_ q + 1.

(** Where a thread is inside an operation. *)
Inductive pc : Type :=
  | Rest
  | PushLoad (v : T)
  | PushSequence (v : T) (pos : Z)
  | PushClaim (v : T) (pos : Z)
  | PushEmplace (v : T) (pos : Z)
  | PushPublish (pos : Z)
  | PushReturn (b : bool)
  | PopLoad
  | PopSequence (pos : Z)
  | PopClaim (pos : Z)
  | PopTake (pos : Z)
  | PopVacate (pos : Z) (result : option T)
  | PopReturn (result : option T).

(** What a step shows: a ticket claimed, a payload taken out, a result. *)
Inductive label : Type :=
  | Silent
  | Accepted (v : T)
  | Claimed
  | Took (pos : Z) (result : option T)
  | Pushed (b : bool)
  | Popped (result : option T).

Definition index (q : queue) (pos : Z) : nat := Z.to_nat (Z.land pos (mask_ q)).

Definition set_slot (q : queue) (pos : Z) (s : slot) : queue :=
  Queue (<[index q pos := s]> (slots_ q)) (mask_ q) (enqueue_pos_ q) (dequeue_pos_ q).

(** [static_cast<std::ptrdiff_t>(a - b)]. *)
Definition gap (a b : Z) : Z := to_signed 64 (u64 (a - b)).

(** One step of one thread; [spurious] is the failure a weak compare-exchange may report.  [None]
    is an access outside [slots_]. *)
Definition advance (q : queue) (c : pc) (spurious : bool) : option (queue * pc * label) :=
  match c with
  | Rest => None
  | PushLoad v => Some (q, PushSequence v (enqueue_pos_ q), Silent)
  | PushSequence v pos =>
      s ← slots_ q !! index q pos;
      let g := gap (sequence s) pos in
      Some (q, if g =? 0 then PushClaim v pos else if g <? 0 then PushReturn false else PushLoad v, Silent)
  | PushClaim v pos =>
      if (enqueue_pos_ q =? pos) && negb spurious
      then Some (Queue (slots_ q) (mask_ q) (u64 (pos + 1)) (dequeue_pos_ q), PushEmplace v pos, Accepted v)
      else Some (q, PushSequence v (enqueue_pos_ q), Silent)
  | PushEmplace v pos =>
      s ← slots_ q !! index q pos; Some (set_slot q pos (Slot (sequence s) (Some v)), PushPublish pos, Silent)
  | PushPublish pos =>
      s ← slots_ q !! index q pos; Some (set_slot q pos (Slot (u64 (pos + 1)) (value s)), PushReturn true, Silent)
  | PushReturn b => Some (q, Rest, Pushed b)
  | PopLoad => Some (q, PopSequence (dequeue_pos_ q), Silent)
  | PopSequence pos =>
      s ← slots_ q !! index q pos;
      let g := gap (sequence s) (u64 (pos + 1)) in
      Some (q, if g =? 0 then PopClaim pos else if g <? 0 then PopReturn None else PopLoad, Silent)
  | PopClaim pos =>
      if (dequeue_pos_ q =? pos) && negb spurious
      then Some (Queue (slots_ q) (mask_ q) (enqueue_pos_ q) (u64 (pos + 1)), PopTake pos, Claimed)
      else Some (q, PopSequence (dequeue_pos_ q), Silent)
  | PopTake pos =>
      s ← slots_ q !! index q pos; Some (set_slot q pos (Slot (sequence s) None), PopVacate pos (value s), Took pos (value s))
  | PopVacate pos r =>
      s ← slots_ q !! index q pos; Some (set_slot q pos (Slot (u64 (u64 (pos + mask_ q) + 1)) (value s)), PopReturn r, Silent)
  | PopReturn r => Some (q, Rest, Popped r)
  end.

Record state := State { shared : queue; threads : list pc }.

Inductive queue_step : state -> label -> state -> Prop :=
  | step_push q ts t v : ts !! t = Some Rest -> queue_step (State q ts) Silent (State q (<[t := PushLoad v]> ts))
  | step_pop q ts t : ts !! t = Some Rest -> queue_step (State q ts) Silent (State q (<[t := PopLoad]> ts))
  | step_advance q ts t c spurious q' c' l :
      ts !! t = Some c -> advance q c spurious = Some (q', c', l) -> queue_step (State q ts) l (State q' (<[t := c']> ts)).

(** Any number of threads on a new queue. *)
#[export] Instance queue_system : System state label := {
  initial s := exists n, make n = Ret (shared s) /\ 0 <= n /\ exists k, threads s = replicate k Rest;
  step := queue_step
}.

(** ** What an execution did *)

(** The values accepted, in ticket order. *)
Definition accepted (es : list (label)) : list T := omap (fun e => match e with Accepted v => Some v | _ => None end) es.
Definition claims (es : list label) : nat := length (omap (fun e => match e with Claimed => Some () | _ => None end) es).
(** The payloads taken out, with their tickets. *)
Definition takings (es : list label) : list (Z * option T) :=
  omap (fun e => match e with Took pos r => Some (pos, r) | _ => None end) es.

(** ** The invariant

    [H]: the values of the tickets handed to producers so far; [K]: the payloads taken out.  The
    last [capacity] tickets each have their slot, in one of three phases: being filled, filled,
    vacated for the next lap. *)

Definition ticket_value (H : list T) (p : Z) : option T := H !! Z.to_nat p.
Definition sequence_at (q : queue) (p : Z) : option Z := sequence <$> slots_ q !! index q p.
Definition value_at (q : queue) (p : Z) : option (option T) := value <$> slots_ q !! index q p.

Definition in_window (q : queue) (p : Z) : Prop := enqueue_pos_ q - capacity q <= p < enqueue_pos_ q.

Inductive phase (q : queue) (H : list T) (p : Z) : Prop :=
  | filling : sequence_at q p = Some p -> dequeue_pos_ q <= p -> phase q H p
  | filled : sequence_at q p = Some (p + 1) -> 0 <= p ->
      (dequeue_pos_ q <= p -> value_at q p = Some (ticket_value H p)) -> phase q H p
  | vacated : sequence_at q p = Some (p + capacity q) -> p < dequeue_pos_ q -> phase q H p.

(** The ticket a thread owns. *)
Definition owned (c : pc) : option Z :=
  match c with
  | PushEmplace _ pos | PushPublish pos | PopTake pos | PopVacate pos _ => Some pos
  | _ => None
  end.

Definition local_ok (q : queue) (H : list T) (c : pc) : Prop :=
  match c with
  | PushSequence _ pos => 0 <= pos <= enqueue_pos_ q
  | PushClaim _ pos => 0 <= pos <= enqueue_pos_ q /\ (pos = enqueue_pos_ q -> sequence_at q pos = Some pos)
  | PushEmplace v pos => 0 <= pos /\ in_window q pos /\ sequence_at q pos = Some pos /\ ticket_value H pos = Some v
  | PushPublish pos => 0 <= pos /\ in_window q pos /\ sequence_at q pos = Some pos /\ value_at q pos = Some (ticket_value H pos)
  | PopSequence pos => 0 <= pos <= dequeue_pos_ q
  | PopClaim pos =>
      0 <= pos <= dequeue_pos_ q /\
      (pos = dequeue_pos_ q -> sequence_at q pos = Some (pos + 1) /\ pos < enqueue_pos_ q)
  | PopTake pos =>
      0 <= pos < dequeue_pos_ q /\ in_window q pos /\ sequence_at q pos = Some (pos + 1) /\
      value_at q pos = Some (ticket_value H pos)
  | PopVacate pos _ => 0 <= pos < dequeue_pos_ q /\ in_window q pos /\ sequence_at q pos = Some (pos + 1)
  | _ => True
  end.

Record valid (q : queue) (ts : list pc) (H : list T) (K : list (Z * option T)) : Prop := {
  v_capacity : exists k, 1 <= k /\ capacity q = 2 ^ k;
  v_slots : length (slots_ q) = Z.to_nat (capacity q);
  v_enqueue : enqueue_pos_ q = Z.of_nat (length H);
  v_dequeue : 0 <= dequeue_pos_ q <= enqueue_pos_ q;
  v_room : enqueue_pos_ q <= dequeue_pos_ q + capacity q;
  v_phase : forall p, in_window q p -> phase q H p;
  v_local : forall t c, ts !! t = Some c -> local_ok q H c;
  v_owned : forall t t' c c' p, ts !! t = Some c -> ts !! t' = Some c' -> owned c = Some p -> owned c' = Some p -> t = t';
  v_taken : forall p r, (p, r) ∈ K -> 0 <= p < dequeue_pos_ q /\ r = ticket_value H p /\ is_Some r /\
    forall t, ts !! t <> Some (PopTake p);
  v_once : NoDup (map fst K);
  v_all : forall p, 0 <= p < dequeue_pos_ q -> p ∈ map fst K \/ exists t, ts !! t = Some (PopTake p)
}.

(** ** Slots and tickets *)

Section tickets.
Context (q : queue) (k : Z) (Hk : 1 <= k) (Hcap : capacity q = 2 ^ k).

Lemma index_mod p : index q p = Z.to_nat (p mod capacity q).
Proof.
  rewrite Hcap. unfold index. unfold capacity in Hcap. replace (mask_ q) with (Z.ones k) by (rewrite Z.ones_equiv; lia).
  by rewrite Z.land_ones by lia.
Qed.

Lemma capacity_pos : 2 <= capacity q.
Proof. rewrite Hcap. change 2 with (2 ^ 1) at 1. apply Z.pow_le_mono_r; lia. Qed.

Lemma index_lt p : length (slots_ q) = Z.to_nat (capacity q) -> (index q p < length (slots_ q))%nat.
Proof. intros ->. rewrite index_mod. pose proof capacity_pos. pose proof (Z.mod_pos_bound p (capacity q) ltac:(lia)). lia. Qed.

Lemma index_inj p p' : in_window q p -> in_window q p' -> index q p = index q p' -> p = p'.
Proof.
  rewrite !index_mod. unfold in_window. pose proof capacity_pos. intros H1 H2 E.
  pose proof (Z.mod_pos_bound p (capacity q) ltac:(lia)). pose proof (Z.mod_pos_bound p' (capacity q) ltac:(lia)).
  assert (p mod capacity q = p' mod capacity q) as Em by lia.
  pose proof (Z.div_mod p (capacity q) ltac:(lia)) as D1. pose proof (Z.div_mod p' (capacity q) ltac:(lia)) as D2.
  rewrite Em in D1. assert (p - p' = capacity q * (p / capacity q - p' / capacity q)) by lia.
  assert (p / capacity q - p' / capacity q = 0) by nia. nia.
Qed.

Lemma index_lap p : index q (p - capacity q) = index q p.
Proof.
  rewrite !index_mod. pose proof capacity_pos. replace (p - capacity q) with (p + (-1) * capacity q) by lia.
  by rewrite Z.mod_add by lia.
Qed.

End tickets.

Lemma set_slot_other q p s p' :
  index q p' <> index q p ->
  sequence_at (set_slot q p s) p' = sequence_at q p' /\ value_at (set_slot q p s) p' = value_at q p'.
Proof.
  intros Hn. unfold sequence_at, value_at. change (index (set_slot q p s) p') with (index q p'). simpl.
  by rewrite list_lookup_insert_ne by done.
Qed.

Lemma set_slot_same q p s :
  (index q p < length (slots_ q))%nat ->
  sequence_at (set_slot q p s) p = Some (sequence s) /\ value_at (set_slot q p s) p = Some (value s).
Proof.
  intros Hl. unfold sequence_at, value_at. change (index (set_slot q p s) p) with (index q p). simpl.
  by rewrite list_lookup_insert_eq by done.
Qed.

Lemma slot_at q p s n : slots_ q !! index q p = Some s -> sequence_at q p = Some n -> sequence s = n.
Proof. unfold sequence_at. intros ->. simpl. congruence. Qed.

Lemma slot_value q p s v : slots_ q !! index q p = Some s -> value_at q p = Some v -> value s = v.
Proof. unfold value_at. intros ->. simpl. congruence. Qed.

Section steps.
Context (q : queue) (ts : list pc) (H : list T) (K : list (Z * option T)).
Context (V : valid q ts H K).

(** What the owner of a ticket may do to its slot does not disturb the other threads. *)
Definition mine (p : Z) : Prop :=
  in_window q p /\ (sequence_at q p = Some p \/ (sequence_at q p = Some (p + 1) /\ p < dequeue_pos_ q)).

Lemma frame_index p p' : mine p -> in_window q p' -> p' <> p -> index q p' <> index q p.
Proof.
  intros [Hw _] Hw' Hn E. destruct (v_capacity _ _ _ _ V) as (k & Hk & Hc). by apply Hn, (index_inj q k Hk Hc).
Qed.

Lemma frame_lap p : mine p -> sequence_at q (enqueue_pos_ q) = Some (enqueue_pos_ q) -> index q (enqueue_pos_ q) <> index q p.
Proof.
  intros [Hw Hp] Hs E. destruct (v_capacity _ _ _ _ V) as (k & Hk & Hc). pose proof (capacity_pos q k Hk Hc).
  assert (enqueue_pos_ q - capacity q = p) as Ep.
  { apply (index_inj q k Hk Hc); [unfold in_window; lia|done|]. by rewrite (index_lap q k Hk Hc). }
  assert (sequence_at q p = Some (enqueue_pos_ q)) as Es by (rewrite <- Hs; unfold sequence_at; by rewrite E).
  destruct Hp as [Hp|[Hp _]]; rewrite Hp in Es; simplify_eq; lia.
Qed.

Lemma frame_local p s t t' c c' :
  ts !! t = Some c -> ts !! t' = Some c' -> t <> t' -> owned c = Some p -> mine p ->
  local_ok (set_slot q p s) H c'.
Proof.
  intros Ht Ht' Hn Ho Hm. pose proof (v_local _ _ _ _ V _ _ Ht') as Hl.
  assert (forall p', owned c' = Some p' -> in_window q p' -> index q p' <> index q p) as Hi.
  { intros p' Ho' Hw. apply frame_index; [done..|]. intros ->. apply Hn. by eapply (v_owned _ _ _ _ V). }
  destruct c' as [|v|v pos|v pos|v pos|pos|b| |pos|pos|pos|pos r|r]; simpl in *; try done.
  - destruct Hl as [Hb Hs]. split; [done|]. intros ->. specialize (Hs eq_refl).
    rewrite (proj1 (set_slot_other q p s _ (frame_lap p Hm Hs))). done.
  - destruct Hl as (H0 & Hw & Hs & Hv). destruct (set_slot_other q p s pos (Hi _ eq_refl Hw)) as [-> _]. done.
  - destruct Hl as (H0 & Hw & Hs & Hv). destruct (set_slot_other q p s pos (Hi _ eq_refl Hw)) as [-> ->]. done.
  - destruct Hl as [Hb Hs]. split; [done|]. intros E. destruct (Hs E) as [Hs1 Hs2]. split; [|done].
    assert (index q pos <> index q p) as Hx.
    { apply frame_index; [done|unfold in_window; pose proof (v_room _ _ _ _ V); lia|].
      intros ->. destruct Hm as [_ [Hm|[_ Hm]]]; [rewrite Hm in Hs1; simplify_eq; lia|lia]. }
    by rewrite (proj1 (set_slot_other q p s pos Hx)).
  - destruct Hl as (H0 & Hw & Hs & Hv). destruct (set_slot_other q p s pos (Hi _ eq_refl Hw)) as [-> ->]. done.
  - destruct Hl as (H0 & Hw & Hs). destruct (set_slot_other q p s pos (Hi _ eq_refl Hw)) as [-> _]. done.
Qed.

Lemma frame_phase p s p' : mine p -> in_window q p' -> p' <> p -> phase (set_slot q p s) H p'.
Proof.
  intros Hm Hw Hn. destruct (set_slot_other q p s p' (frame_index p p' Hm Hw Hn)) as [E1 E2].
  destruct (v_phase _ _ _ _ V p' Hw) as [Hs Hd|Hs H0 Hv|Hs Hd].
  - apply filling; [by rewrite E1|done].
  - apply filled; [by rewrite E1|done|by rewrite E2].
  - apply vacated; [by rewrite E1|done].
Qed.

End steps.

Lemma insert_lookup_inv (ts : list pc) t c u d : (<[t := c]> ts) !! u = Some d -> (u = t /\ d = c) \/ (u <> t /\ ts !! u = Some d).
Proof. intros [(-> & -> & _)|[? ?]]%list_lookup_insert_Some; [by left|right; done]. Qed.

Definition taking (c : pc) : option Z := match c with PopTake pos => Some pos | _ => None end.

(** A step that touches nothing shared, by a thread that owns no ticket. *)
Lemma silent_valid q ts H K t c c' :
  valid q ts H K -> ts !! t = Some c -> owned c = None -> owned c' = None -> local_ok q H c' -> valid q (<[t := c']> ts) H K.
Proof.
  intros [V1 V2 V3 V4 V5 V6 V7 V8 V9 V10 V11] Ht Ho Ho' Hl. split; try done.
  - intros u d [[-> ->]|[_ Hu]]%insert_lookup_inv; [done|by eapply V7].
  - intros u u' d d' p [[-> ->]|[Hn Hu]]%insert_lookup_inv [[-> ->]|[Hn' Hu']]%insert_lookup_inv Hd Hd'; try congruence.
    by eapply (V8 u u').
  - intros p r Hp. destruct (V9 p r Hp) as (H1 & H2 & H3 & H4). split_and!; try done; [lia..|].
    intros u [[-> E]|[_ Hu]]%insert_lookup_inv; [by subst c'|by eapply H4].
  - intros p Hp. destruct (V11 p Hp) as [|[u Hu]]; [by left|right]. exists u. rewrite list_lookup_insert_ne; [done|].
    intros ->. rewrite Hu in Ht. by simplify_eq/=.
Qed.

(** A step of the owner of a ticket on its slot. *)
Lemma slot_valid q ts H K K' t c c' p s :
  valid q ts H K -> ts !! t = Some c -> owned c = Some p -> mine q p ->
  phase (set_slot q p s) H p -> local_ok (set_slot q p s) H c' -> (owned c' = Some p \/ owned c' = None) ->
  (forall p' r, (p', r) ∈ K' -> 0 <= p' < dequeue_pos_ q /\ r = ticket_value H p' /\ is_Some r /\ forall u, (<[t := c']> ts) !! u <> Some (PopTake p')) ->
  NoDup (map fst K') ->
  (forall p', 0 <= p' < dequeue_pos_ q -> p' ∈ map fst K' \/ exists u, (<[t := c']> ts) !! u = Some (PopTake p')) ->
  valid (set_slot q p s) (<[t := c']> ts) H K'.
Proof.
  intros V Ht Ho Hm Hp Hl Ho' Ht1 Ht2 Ht3. pose proof V as [V1 V2 V3 V4 V5 V6 V7 V8 V9 V10 V11]. split; try done.
  - simpl. by rewrite length_insert.
  - intros p' Hw. destruct (decide (p' = p)) as [->|Hn]; [done|]. by eapply frame_phase.
  - intros u d [[-> ->]|[Hn Hu]]%insert_lookup_inv; [done|]. apply (frame_local q ts H K V p s t u c d); by auto.
  - assert (forall u d p', ts !! u = Some d -> u <> t -> owned c' = Some p' -> owned d = Some p' -> False) as Hfresh.
    { intros u d p' Hu Hn H1 H2. destruct Ho' as [E|E]; [|congruence]. apply Hn. apply (V8 u t d c p'); [done..|congruence]. }
    intros u u' d d' p' [[-> ->]|[Hn Hu]]%insert_lookup_inv [[-> ->]|[Hn' Hu']]%insert_lookup_inv Hd Hd'; [done| | |].
    + exfalso. by eapply (Hfresh u').
    + exfalso. by eapply (Hfresh u).
    + by eapply (V8 u u').
Qed.

(** The payloads taken so far are unaffected when the thread takes none. *)
Lemma taken_kept q ts H K t c c' :
  valid q ts H K -> ts !! t = Some c -> taking c = None -> taking c' = None ->
  (forall p' r, (p', r) ∈ K -> 0 <= p' < dequeue_pos_ q /\ r = ticket_value H p' /\ is_Some r /\ forall u, (<[t := c']> ts) !! u <> Some (PopTake p')) /\
  NoDup (map fst K) /\
  (forall p', 0 <= p' < dequeue_pos_ q -> p' ∈ map fst K \/ exists u, (<[t := c']> ts) !! u = Some (PopTake p')).
Proof.
  intros [_ _ _ _ _ _ _ _ V9 V10 V11] Ht E E'. split_and!; [|done|].
  - intros p r Hp. destruct (V9 p r Hp) as (H1 & H2 & H3 & H4). split_and!; try done; [lia..|].
    intros u [[-> Eu]|[_ Hu]]%insert_lookup_inv; [by subst c'|by eapply H4].
  - intros p Hp. destruct (V11 p Hp) as [|[u Hu]]; [by left|right]. exists u. rewrite list_lookup_insert_ne; [done|].
    intros ->. rewrite Hu in Ht. by simplify_eq/=.
Qed.

(** The phase of an owned ticket. *)
Lemma filling_front q ts H K p : valid q ts H K -> in_window q p -> sequence_at q p = Some p -> dequeue_pos_ q <= p.
Proof.
  intros V Hw Hs. destruct (v_capacity _ _ _ _ V) as (k & Hk & Hc). pose proof (capacity_pos q k Hk Hc).
  destruct (v_phase _ _ _ _ V p Hw) as [_ Hd|Hs' _ _|Hs' _]; [done|rewrite Hs in Hs'; simplify_eq; lia..].
Qed.

Lemma window_slot q ts H K p : valid q ts H K -> exists s, slots_ q !! index q p = Some s.
Proof.
  intros V. destruct (v_capacity _ _ _ _ V) as (k & Hk & Hc). apply lookup_lt_is_Some_2.
  apply (index_lt q k Hk Hc), (v_slots _ _ _ _ V).
Qed.

Lemma ticket_value_grow H v p : 0 <= p < Z.of_nat (length H) -> ticket_value (H ++ [v]) p = ticket_value H p.
Proof. intros Hp. unfold ticket_value. apply lookup_app_l. lia. Qed.

(** ** Every step preserves the invariant *)

Definition bounded (q : queue) (H : list T) : Prop := Z.of_nat (length H) + capacity q < 2 ^ 63.

Lemma u64_small z : 0 <= z < 2 ^ 64 -> u64 z = z.
Proof. apply wrap_small. Qed.

Lemma gap_exact a b : - 2 ^ 63 <= a - b < 2 ^ 63 -> gap a b = a - b.
Proof. intros Hab. unfold gap. by apply to_signed_wrap. Qed.

Lemma claim_push_valid q ts H K t v :
  valid q ts H K -> bounded q (H ++ [v]) -> ts !! t = Some (PushClaim v (enqueue_pos_ q)) ->
  valid (Queue (slots_ q) (mask_ q) (enqueue_pos_ q + 1) (dequeue_pos_ q)) (<[t := PushEmplace v (enqueue_pos_ q)]> ts) (H ++ [v]) K.
Proof.
  intros V Hb Ht. pose proof V as [V1 V2 V3 V4 V5 V6 V7 V8 V9 V10 V11]. destruct V1 as (k & Hk & Hc).
  pose proof (capacity_pos q k Hk Hc) as Hcp. destruct (V7 _ _ Ht) as [Hpos Hs]. specialize (Hs eq_refl). set (E := enqueue_pos_ q) in *.
  assert (sequence_at q (E - capacity q) = Some E) as Hlap.
  { unfold sequence_at in *. by rewrite (index_lap q k Hk Hc). }
  assert (E - capacity q < dequeue_pos_ q) as Hroom.
  { destruct (V6 (E - capacity q)) as [Hs' Hd|Hs' _ _|Hs' Hd]; [unfold in_window; lia|..|done]; rewrite Hlap in Hs'; simplify_eq; lia. }
  assert (forall p, in_window q p -> sequence_at q p = Some p \/ sequence_at q p = Some (p + 1) -> E + 1 - capacity q <= p < E) as Hshift.
  { unfold in_window. intros p Hw Hp. destruct (decide (p = E - capacity q)) as [->|]; [|lia].
    rewrite Hlap in Hp. destruct Hp; simplify_eq; lia. }
  split; try done.
  - by exists k.
  - simpl. rewrite length_app. simpl. lia.
  - simpl. lia.
  - change (E + 1 <= dequeue_pos_ q + capacity q). lia.
  - intros p Hw. change (E + 1 - capacity q <= p < E + 1) in Hw. destruct (decide (p = E)) as [->|Hn].
    { apply filling; [exact Hs|simpl; lia]. }
    destruct (V6 p ltac:(unfold in_window; fold E; lia)) as [Hs' Hd|Hs' H0 Hv|Hs' Hd]; [by apply filling| |by apply vacated].
    apply filled; [done..|]. intros Hd. rewrite ticket_value_grow by lia. by apply Hv.
  - intros u c [[-> ->]|[Hn Hu]]%insert_lookup_inv.
    { simpl. split_and!; [lia| |exact Hs|].
      - change (E + 1 - capacity q <= E < E + 1). lia.
      - unfold ticket_value. rewrite V3, Nat2Z.id, lookup_app_r, Nat.sub_diag by lia. done. }
    pose proof (V7 _ _ Hu) as Hl. destruct c as [|w|w pos|w pos|w pos|pos|b| |pos|pos|pos|pos r|r]; simpl in *; try done.
    + fold E in Hl. lia.
    + fold E in Hl. split; [lia|]. intros. lia.
    + destruct Hl as (H0 & Hw & Hs' & Hv). specialize (Hshift pos Hw ltac:(by left)). rewrite ticket_value_grow by lia.
      split_and!; try done. unfold in_window. simpl. change (capacity _) with (capacity q). lia.
    + destruct Hl as (H0 & Hw & Hs' & Hv). specialize (Hshift pos Hw ltac:(by left)). rewrite ticket_value_grow by lia.
      split_and!; try done. unfold in_window. simpl. change (capacity _) with (capacity q). lia.
    + fold E in Hl. split; [lia|]. intros Ed. destruct Hl as [_ Hl]. destruct (Hl Ed) as [Hs' Hlt]. split; [exact Hs'|lia].
    + destruct Hl as (H0 & Hw & Hs' & Hv). specialize (Hshift pos Hw ltac:(by right)). rewrite ticket_value_grow by lia.
      split_and!; try done; try lia. unfold in_window. simpl. change (capacity _) with (capacity q). lia.
    + destruct Hl as (H0 & Hw & Hs'). specialize (Hshift pos Hw ltac:(by right)).
      split_and!; try done; try lia. unfold in_window. simpl. change (capacity _) with (capacity q). lia.
  - assert (forall u c, ts !! u = Some c -> owned c <> Some E) as Hfresh.
    { intros u c Hu Ho. pose proof (V7 _ _ Hu) as Hl. destruct c; simplify_eq/=; unfold in_window in Hl; lia. }
    intros u u' c c' p [[-> ->]|[Hn Hu]]%insert_lookup_inv [[-> ->]|[Hn' Hu']]%insert_lookup_inv Hd Hd'; [done| | |].
    + exfalso. simpl in Hd. simplify_eq. by eapply (Hfresh u').
    + exfalso. simpl in Hd'. simplify_eq. by eapply (Hfresh u).
    + by eapply (V8 u u').
  - intros p r Hp. destruct (V9 p r Hp) as (H1 & H2 & H3 & H4). simpl. rewrite ticket_value_grow by lia. split_and!; try done; try lia.
    intros u [[-> E']|[_ Hu]]%insert_lookup_inv; [done|by eapply H4].
  - intros p Hp. destruct (V11 p Hp) as [|[u Hu]]; [by left|right]. exists u. rewrite list_lookup_insert_ne; [done|].
    intros ->. rewrite Hu in Ht. by simplify_eq/=.
Qed.

Lemma claim_pop_valid q ts H K t :
  valid q ts H K -> ts !! t = Some (PopClaim (dequeue_pos_ q)) ->
  valid (Queue (slots_ q) (mask_ q) (enqueue_pos_ q) (dequeue_pos_ q + 1)) (<[t := PopTake (dequeue_pos_ q)]> ts) H K.
Proof.
  intros V Ht. pose proof V as [V1 V2 V3 V4 V5 V6 V7 V8 V9 V10 V11]. destruct V1 as (k & Hk & Hc).
  pose proof (capacity_pos q k Hk Hc) as Hcp. destruct (V7 _ _ Ht) as [Hpos Hs]. destruct (Hs eq_refl) as [Hs1 Hlt].
  set (D := dequeue_pos_ q) in *. assert (in_window q D) as HwD by (unfold in_window; lia).
  split; try done.
  - by exists k.
  - simpl. lia.
  - change (enqueue_pos_ q <= D + 1 + capacity q). lia.
  - intros p Hw. destruct (V6 p Hw) as [Hs' Hd|Hs' H0 Hv|Hs' Hd].
    + apply filling; [done|]. simpl. destruct (decide (p = D)) as [->|]; [|lia]. rewrite Hs1 in Hs'. simplify_eq. lia.
    + apply filled; [done..|]. simpl. intros Hd. apply Hv. lia.
    + apply vacated; [done|]. simpl. lia.
  - intros u c [[-> ->]|[Hn Hu]]%insert_lookup_inv.
    { simpl. split_and!; [lia|lia|exact HwD|exact Hs1|].
      destruct (V6 D HwD) as [Hs' Hd|Hs' H0 Hv|Hs' Hd]; [rewrite Hs1 in Hs'; simplify_eq; lia|by apply Hv|lia]. }
    pose proof (V7 _ _ Hu) as Hl. destruct c as [|w|w pos|w pos|w pos|pos|b| |pos|pos|pos|pos r|r]; simpl in *; try done.
    + fold D in Hl. lia.
    + fold D in Hl. split; [lia|]. intros. lia.
    + destruct Hl as (H0 & Hw & Hs' & Hv). split_and!; try done; lia.
    + destruct Hl as (H0 & Hw & Hs'). split_and!; try done; lia.
  - assert (forall u c, ts !! u = Some c -> owned c <> Some D) as Hfresh.
    { intros u c Hu Ho. pose proof (V7 _ _ Hu) as Hl. destruct c; simplify_eq/=; destruct Hl as (H0 & Hw & Hs' & _) || destruct Hl as (H0 & Hw & Hs');
        fold D in H0; rewrite ?Hs1 in Hs'; simplify_eq; lia. }
    intros u u' c c' p [[-> ->]|[Hn Hu]]%insert_lookup_inv [[-> ->]|[Hn' Hu']]%insert_lookup_inv Hd Hd'; [done| | |].
    + exfalso. simpl in Hd. simplify_eq. by eapply (Hfresh u').
    + exfalso. simpl in Hd'. simplify_eq. by eapply (Hfresh u).
    + by eapply (V8 u u').
  - intros p r Hp. destruct (V9 p r Hp) as (H1 & H2 & H3 & H4). simpl. fold D in H1. split_and!; try done; try lia.
    intros u [[-> E']|[_ Hu]]%insert_lookup_inv; [simplify_eq; lia|by eapply H4].
  - simpl. intros p Hp. destruct (decide (p = D)) as [->|Hn].
    { right. exists t. apply list_lookup_insert_eq. by eapply lookup_lt_Some. }
    destruct (V11 p ltac:(fold D; lia)) as [|[u Hu]]; [by left|right]. exists u. rewrite list_lookup_insert_ne; [done|].
    intros ->. rewrite Hu in Ht. by simplify_eq/=.
Qed.

Section slots.
Context (q : queue) (ts : list pc) (H : list T) (K : list (Z * option T)) (V : valid q ts H K) (Hb : bounded q H).

Lemma slot_index p : (index q p < length (slots_ q))%nat.
Proof. destruct (window_slot _ _ _ _ p V) as [s Hs]. by eapply lookup_lt_Some. Qed.

Lemma emplace_valid t v pos s :
  ts !! t = Some (PushEmplace v pos) -> slots_ q !! index q pos = Some s ->
  valid (set_slot q pos (Slot (sequence s) (Some v))) (<[t := PushPublish pos]> ts) H K.
Proof.
  intros Ht Hs. destruct (v_local _ _ _ _ V _ _ Ht) as (H0 & Hw & Hq & Hv).
  destruct (set_slot_same q pos (Slot (sequence s) (Some v)) (slot_index pos)) as [E1 E2]. simpl in E1, E2.
  rewrite (slot_at _ _ _ _ Hs Hq) in *.
  destruct (taken_kept _ _ _ _ t _ (PushPublish pos) V Ht eq_refl eq_refl) as (T1 & T2 & T3).
  apply (slot_valid q ts H K K t (PushEmplace v pos) (PushPublish pos) pos); try done.
  - split; [done|by left].
  - apply filling; [done|exact (filling_front _ _ _ _ _ V Hw Hq)].
  - simpl. split_and!; try done. by rewrite E2, Hv.
  - by left.
Qed.

Lemma publish_valid t pos s :
  ts !! t = Some (PushPublish pos) -> slots_ q !! index q pos = Some s ->
  valid (set_slot q pos (Slot (u64 (pos + 1)) (value s))) (<[t := PushReturn true]> ts) H K.
Proof.
  intros Ht Hs. destruct (v_local _ _ _ _ V _ _ Ht) as (H0 & Hw & Hq & Hv).
  destruct (set_slot_same q pos (Slot (u64 (pos + 1)) (value s)) (slot_index pos)) as [E1 E2]. simpl in E1, E2.
  pose proof (v_enqueue _ _ _ _ V). unfold bounded, in_window in *. destruct (v_capacity _ _ _ _ V) as (k & Hk & Hc). pose proof (capacity_pos q k Hk Hc).
  rewrite u64_small in * by lia. rewrite (slot_value _ _ _ _ Hs Hv) in *.
  destruct (taken_kept _ _ _ _ t _ (PushReturn true) V Ht eq_refl eq_refl) as (T1 & T2 & T3).
  apply (slot_valid q ts H K K t (PushPublish pos) (PushReturn true) pos); try done.
  - split; [done|by left].
  - by apply filled.
  - by right.
Qed.

Lemma take_valid t pos s :
  ts !! t = Some (PopTake pos) -> slots_ q !! index q pos = Some s ->
  valid (set_slot q pos (Slot (sequence s) None)) (<[t := PopVacate pos (value s)]> ts) H (K ++ [(pos, value s)]).
Proof.
  intros Ht Hs. destruct (v_local _ _ _ _ V _ _ Ht) as (H0 & Hw & Hq & Hv).
  destruct (set_slot_same q pos (Slot (sequence s) None) (slot_index pos)) as [E1 E2]. simpl in E1, E2.
  rewrite (slot_value _ _ _ _ Hs Hv). rewrite (slot_at _ _ _ _ Hs Hq) in *.
  pose proof (v_dequeue _ _ _ _ V). pose proof (v_enqueue _ _ _ _ V).
  apply (slot_valid q ts H K (K ++ [(pos, ticket_value H pos)]) t (PopTake pos) (PopVacate pos (ticket_value H pos)) pos); try done.
  - split; [done|]. right. split; [done|lia].
  - apply filled; [done|lia|]. simpl. lia.
  - by left.
  - intros p r [Hp|Hp]%elem_of_app.
    + destruct (v_taken _ _ _ _ V p r Hp) as (T1 & T2 & T3 & T4). split_and!; try done; try lia.
      intros u [[-> Eu]|[_ Hu]]%insert_lookup_inv; [done|by eapply T4].
    + apply list_elem_of_singleton in Hp. simplify_eq. split_and!; try done; try lia.
      * unfold ticket_value. apply lookup_lt_is_Some_2. lia.
      * intros u [[-> Eu]|[Hn Hu]]%insert_lookup_inv; [done|]. apply Hn. by eapply (v_owned _ _ _ _ V).
  - rewrite map_app. apply NoDup_app. split_and!; [apply (v_once _ _ _ _ V)| |apply NoDup_singleton].
    intros p Hp Hp'%list_elem_of_singleton. simpl in Hp'. subst p. apply list_elem_of_fmap in Hp as ([p' r] & -> & Hp).
    destruct (v_taken _ _ _ _ V _ _ Hp) as (_ & _ & _ & T4). by apply (T4 t).
  - intros p Hp. rewrite map_app. destruct (v_all _ _ _ _ V p Hp) as [|[u Hu]]; [left; apply elem_of_app; by left|].
    destruct (decide (u = t)) as [->|Hn].
    + rewrite Ht in Hu. simplify_eq. left. apply elem_of_app. right. by left.
    + right. exists u. by rewrite list_lookup_insert_ne by done.
Qed.

Lemma vacate_valid t pos r s :
  ts !! t = Some (PopVacate pos r) -> slots_ q !! index q pos = Some s ->
  valid (set_slot q pos (Slot (u64 (u64 (pos + mask_ q) + 1)) (value s))) (<[t := PopReturn r]> ts) H K.
Proof.
  intros Ht Hs. destruct (v_local _ _ _ _ V _ _ Ht) as (H0 & Hw & Hq).
  destruct (set_slot_same q pos (Slot (u64 (u64 (pos + mask_ q) + 1)) (value s)) (slot_index pos)) as [E1 E2]. simpl in E1, E2.
  pose proof (v_enqueue _ _ _ _ V). unfold bounded, in_window in *. destruct (v_capacity _ _ _ _ V) as (k & Hk & Hc). pose proof (capacity_pos q k Hk Hc).
  unfold capacity in *. rewrite (u64_small (pos + mask_ q)), u64_small in * by lia.
  destruct (taken_kept _ _ _ _ t _ (PopReturn r) V Ht eq_refl eq_refl) as (T1 & T2 & T3).
  apply (slot_valid q ts H K K t (PopVacate pos r) (PopReturn r) pos); try done.
  - split; [done|right]. split; [done|lia].
  - apply vacated; [|simpl; lia]. rewrite E1. unfold capacity. simpl. f_equal. lia.
  - by right.
Qed.

End slots.

Section run.
Context (q : queue) (ts : list pc) (H : list T) (K : list (Z * option T)) (V : valid q ts H K) (Hb : bounded q H).

Lemma push_sequence_ok pos s :
  slots_ q !! index q pos = Some s -> 0 <= pos -> gap (sequence s) pos = 0 ->
  pos = enqueue_pos_ q -> sequence_at q pos = Some pos.
Proof.
  intros Hs H0 Hg ->. destruct (v_capacity _ _ _ _ V) as (k & Hk & Hc). pose proof (capacity_pos q k Hk Hc).
  pose proof (v_enqueue _ _ _ _ V). pose proof (v_dequeue _ _ _ _ V). unfold bounded in Hb.
  assert (sequence_at q (enqueue_pos_ q - capacity q) = Some (sequence s)) as Hlap.
  { unfold sequence_at. by rewrite (index_lap q k Hk Hc), Hs. }
  unfold sequence_at. rewrite Hs. simpl. f_equal.
  destruct (v_phase _ _ _ _ V (enqueue_pos_ q - capacity q)) as [Hs' Hd|Hs' Hp _|Hs' Hd]; [unfold in_window; lia|..];
    rewrite Hlap in Hs'; simplify_eq; rewrite Hs', gap_exact in Hg; lia.
Qed.

Lemma pop_sequence_ok pos s :
  slots_ q !! index q pos = Some s -> gap (sequence s) (u64 (pos + 1)) = 0 ->
  pos = dequeue_pos_ q -> sequence_at q pos = Some (pos + 1) /\ pos < enqueue_pos_ q.
Proof.
  intros Hs Hg ->. destruct (v_capacity _ _ _ _ V) as (k & Hk & Hc). pose proof (capacity_pos q k Hk Hc).
  pose proof (v_enqueue _ _ _ _ V). pose proof (v_dequeue _ _ _ _ V). pose proof (v_room _ _ _ _ V). unfold bounded in Hb.
  rewrite u64_small in Hg by lia. assert (sequence_at q (dequeue_pos_ q) = Some (sequence s)) as Hat by (unfold sequence_at; by rewrite Hs).
  destruct (decide (dequeue_pos_ q = enqueue_pos_ q)) as [E|Hn].
  - exfalso. assert (sequence_at q (enqueue_pos_ q - capacity q) = Some (sequence s)) as Hlap.
    { unfold sequence_at in *. by rewrite (index_lap q k Hk Hc), <- E. }
    destruct (v_phase _ _ _ _ V (enqueue_pos_ q - capacity q)) as [Hs' Hd|Hs' Hp _|Hs' Hd]; [unfold in_window; lia|..];
      rewrite Hlap in Hs'; simplify_eq; rewrite Hs', gap_exact in Hg; lia.
  - rewrite Hat. destruct (v_phase _ _ _ _ V (dequeue_pos_ q)) as [Hs' Hd|Hs' Hp _|Hs' Hd]; [unfold in_window; lia|..];
      rewrite Hat in Hs'; simplify_eq; [rewrite Hs', gap_exact in Hg; lia| |lia]. split; [by rewrite Hs'|lia].
Qed.

Lemma advance_defined t c spurious : ts !! t = Some c -> c <> Rest -> is_Some (advance q c spurious).
Proof.
  intros Ht Hc. destruct c as [|v|v pos|v pos|v pos|pos|b| |pos|pos|pos|pos r|r]; simpl; try done;
    try (destruct (window_slot _ _ _ _ pos V) as [s ->]; done); repeat case_match; done.
Qed.

Lemma advance_valid t c spurious q' c' l :
  ts !! t = Some c -> advance q c spurious = Some (q', c', l) -> bounded q (H ++ accepted [l]) ->
  valid q' (<[t := c']> ts) (H ++ accepted [l]) (K ++ takings [l]) /\ capacity q' = capacity q /\
  dequeue_pos_ q' = dequeue_pos_ q + Z.of_nat (claims [l]).
Proof.
  pose proof push_sequence_ok as Hpush. pose proof pop_sequence_ok as Hpop.
  unfold claims, accepted, takings. intros Ht Ha Hb'. pose proof (v_local _ _ _ _ V _ _ Ht) as Hl. pose proof (v_dequeue _ _ _ _ V). pose proof (v_enqueue _ _ _ _ V).
  destruct (v_capacity _ _ _ _ V) as (k & Hk & Hc). pose proof (capacity_pos q k Hk Hc). pose proof Hb as Hbz. unfold bounded in Hbz.
  destruct c as [|v|v pos|v pos|v pos|pos|b| |pos|pos|pos|pos r|r]; simpl in Ha; simplify_eq; simpl in Hl.
  - split_and!; [|done|simpl; lia]. rewrite !app_nil_r. eapply silent_valid; [done..|]. simpl. lia.
  - destruct (slots_ q !! index q pos) as [s|] eqn:Es; simplify_eq/=. split_and!; [|done|lia]. rewrite !app_nil_r.
    destruct (Z.eqb_spec (gap (sequence s) pos) 0) as [Eg|Eg]; [|case_match]; (eapply silent_valid; [done..|]); try done.
    simpl. split; [done|]. apply (Hpush _ s); [done|lia|done].
  - destruct (Z.eqb_spec (enqueue_pos_ q) pos) as [E|E]; simpl in Ha; [destruct spurious|]; simplify_eq/=;
      (split_and!; [|done|lia]); rewrite ?app_nil_r.
    + eapply silent_valid; [done..|]. simpl. lia.
    + rewrite u64_small by lia. by apply claim_push_valid.
    + eapply silent_valid; [done..|]. simpl. lia.
  - destruct (slots_ q !! index q pos) as [s|] eqn:Es; simplify_eq/=. split_and!; [|done|lia]. rewrite !app_nil_r. by apply emplace_valid.
  - destruct (slots_ q !! index q pos) as [s|] eqn:Es; simplify_eq/=. split_and!; [|done|lia]. rewrite !app_nil_r. by apply publish_valid.
  - split_and!; [|done|simpl; lia]. rewrite !app_nil_r. by eapply silent_valid.
  - split_and!; [|done|simpl; lia]. rewrite !app_nil_r. eapply silent_valid; [done..|]. simpl. lia.
  - destruct (slots_ q !! index q pos) as [s|] eqn:Es; simplify_eq/=. split_and!; [|done|lia]. rewrite !app_nil_r.
    destruct (Z.eqb_spec (gap (sequence s) (u64 (pos + 1))) 0) as [Eg|Eg]; [|case_match]; (eapply silent_valid; [done..|]); try done.
    simpl. split; [done|]. by apply (Hpop _ s).
  - destruct (Z.eqb_spec (dequeue_pos_ q) pos) as [E|E]; simpl in Ha; [destruct spurious|]; simplify_eq/=;
      (split_and!; [|done|rewrite ?u64_small by lia; lia]); rewrite ?app_nil_r.
    + eapply silent_valid; [done..|]. simpl. lia.
    + rewrite u64_small by lia. by apply claim_pop_valid.
    + eapply silent_valid; [done..|]. simpl. lia.
  - destruct (slots_ q !! index q pos) as [s|] eqn:Es; simplify_eq/=. split_and!; [|done|lia]. rewrite !app_nil_r. by apply take_valid.
  - destruct (slots_ q !! index q pos) as [s|] eqn:Es; simplify_eq/=. split_and!; [|done|lia]. rewrite !app_nil_r. by apply vacate_valid.
  - split_and!; [|done|simpl; lia]. rewrite !app_nil_r. by eapply silent_valid.
Qed.

End run.

(** ** Executions *)

Lemma make_inv n q : make n = Ret q -> 0 <= n ->
  1 <= n <= 2 ^ 63 /\ capacity q = bit_ceil n /\ enqueue_pos_ q = 0 /\ dequeue_pos_ q = 0 /\
  slots_ q = map (fun i => Slot (Z.of_nat i) None) (seq 0 (Z.to_nat (capacity q))).
Proof.
  unfold make, rounded_capacity. change (Z.shiftl 1 (64 - 1)) with (2 ^ 63). intros H H0.
  destruct ((n =? 0) || (2 ^ 63 <? n)) eqn:E; simpl in H; [done|]. bools. simplify_eq. unfold capacity. simpl.
  split_and!; try done; try lia. by replace (bit_ceil n - 1 + 1) with (bit_ceil n) by lia.
Qed.

Lemma initial_valid n q k : make n = Ret q -> 0 <= n -> 2 <= capacity q -> valid q (replicate k Rest) [] [].
Proof.
  intros Hm Hn0 H2. destruct (make_inv n q Hm Hn0) as (Hn & Hc & HE & HD & Hs). unfold bit_ceil in Hc.
  assert (1 <= Z.log2_up n) as Hk.
  { destruct (decide (n = 1)) as [->|]; [rewrite Hc in H2; by vm_compute in H2|]. pose proof (Z.log2_up_pos n). lia. }
  assert (forall t c, replicate k Rest !! t = Some c -> c = Rest) as Hrest.
  { intros t c Ht. by apply lookup_replicate_1 in Ht as [-> _]. }
  split; try done.
  - by exists (Z.log2_up n).
  - by rewrite Hs, length_map, length_seq.
  - rewrite HE, HD. lia.
  - rewrite HE, HD. lia.
  - intros p Hw. unfold in_window in Hw. rewrite HE in Hw. apply vacated; [|lia].
    unfold sequence_at. rewrite (index_mod q _ Hk Hc), Hs.
    assert (p mod capacity q = p + capacity q) as -> by (symmetry; apply (Z.mod_unique_pos _ _ (-1)); lia).
    rewrite list_lookup_fmap, lookup_seq_lt by lia. simpl. f_equal. lia.
  - intros t c ->%Hrest. done.
  - intros t t' c c' p ->%Hrest. done.
  - intros p r Hp. by apply not_elem_of_nil in Hp.
  - apply NoDup_nil_2.
  - intros p Hp. lia.
Qed.

Lemma exec_valid (s0 s : state) es :
  initial s0 -> 2 <= capacity (shared s0) -> exec s0 es s ->
  Z.of_nat (length (accepted es)) + capacity (shared s0) < 2 ^ 63 ->
  valid (shared s) (threads s) (accepted es) (takings es) /\
  dequeue_pos_ (shared s) = Z.of_nat (claims es) /\ capacity (shared s) = capacity (shared s0).
Proof.
  intros (n & Hm & Hn & k & Hts) H2 Hx. revert Hm Hts H2. induction Hx as [s|s es s1 l s2 Hx IH Hs]; intros Hm Hts H2 Hb.
  - destruct (make_inv _ _ Hm Hn) as (_ & _ & _ & HD & _). rewrite Hts. split_and!; [by eapply initial_valid|by rewrite HD|done].
  - assert (accepted (es ++ [l]) = accepted es ++ accepted [l] /\ takings (es ++ [l]) = takings es ++ takings [l] /\
      claims (es ++ [l]) = (claims es + claims [l])%nat) as (Ea & Et & Ec).
    { unfold accepted, takings, claims. rewrite !omap_app, length_app. done. }
    rewrite Ea, Et, Ec in *. rewrite length_app in Hb. destruct IH as (V & HD & Hc); [done..|lia|].
    destruct Hs as [q ts t v Ht|q ts t Ht|q ts t c spurious q' c' l Ht Ha]; cbn [shared threads] in *.
    + rewrite !app_nil_r. split_and!; [by eapply silent_valid|unfold claims in *; simpl; lia|done].
    + rewrite !app_nil_r. split_and!; [by eapply silent_valid|unfold claims in *; simpl; lia|done].
    + destruct (advance_valid q ts _ _ V ltac:(unfold bounded; lia) t c spurious q' c' l Ht Ha) as (V' & Hc' & HD').
      { unfold bounded. rewrite length_app. lia. }
      split_and!; [done|lia|congruence].
Qed.

(** Concurrent first-in first-out order.  Any number of threads push and pop on a queue of capacity at
    least two, interleaving at every atomic access, with spurious compare-exchange failures.  Every
    value a consumer takes with ticket [p] is the [p]-th value that was accepted; no ticket is
    taken twice, and every ticket claimed has been taken or is owned by a thread about to take it;
    the accepted values not yet claimed never exceed the capacity (nothing is overwritten); and no
    step of a thread inside an operation accesses memory outside the slots. *)
Theorem tickets_first_in_first_out (s0 s : state) es :
  initial s0 -> 2 <= capacity (shared s0) -> exec s0 es s ->
  Z.of_nat (length (accepted es)) + capacity (shared s0) < 2 ^ 63 ->
  (forall p r, (p, r) ∈ takings es -> exists v, r = Some v /\ accepted es !! Z.to_nat p = Some v) /\
  NoDup (map fst (takings es)) /\
  (forall p, 0 <= p < Z.of_nat (claims es) -> p ∈ map fst (takings es) \/ exists t, threads s !! t = Some (PopTake p)) /\
  0 <= Z.of_nat (length (accepted es)) - Z.of_nat (claims es) <= capacity (shared s0) /\
  (forall t c spurious, threads s !! t = Some c -> c <> Rest -> is_Some (advance (shared s) c spurious)).
Proof.
  intros Hi H2 Hx Hb. destruct (exec_valid s0 s es Hi H2 Hx Hb) as (V & HD & Hc).
  pose proof (v_enqueue _ _ _ _ V). pose proof (v_dequeue _ _ _ _ V). pose proof (v_room _ _ _ _ V). split_and!; try lia.
  - intros p r Hp. destruct (v_taken _ _ _ _ V p r Hp) as (_ & -> & [v Hv] & _). exists v. by rewrite Hv.
  - apply (v_once _ _ _ _ V).
  - intros p Hp. apply (v_all _ _ _ _ V). lia.
  - intros t c spurious. by eapply advance_defined.
Qed.

End queue.
Arguments slot : clear implicits.
Arguments queue : clear implicits.
Arguments pc : clear implicits.
Arguments label : clear implicits.
Arguments state : clear implicits.

(** ** Schedules: executions computed *)

Inductive move (T : Type) : Type := Push (t : nat) (v : T) | Pop (t : nat) | Go (t : nat) (spurious : bool).
Arguments Push {T} t v.
Arguments Pop {T} t.
Arguments Go {T} t spurious.

Definition is_rest {T} (c : pc T) : bool := match c with Rest => true | _ => false end.

Definition play_move {T} (s : state T) (m : move T) : option (state T * label T) :=
  match m with
  | Push t v => c ← threads s !! t; if is_rest c then Some (State (shared s) (<[t := PushLoad v]> (threads s)), Silent) else None
  | Pop t => c ← threads s !! t; if is_rest c then Some (State (shared s) (<[t := PopLoad]> (threads s)), Silent) else None
  | Go t spurious =>
      c ← threads s !! t; r ← advance (shared s) c spurious;
      Some (State r.1.1 (<[t := r.1.2]> (threads s)), r.2)
  end.

Fixpoint play {T} (s : state T) (ms : list (move T)) : option (state T * list (label T)) :=
  match ms with
  | [] => Some (s, [])
  | m :: ms => r ← play_move s m; r' ← play r.1 ms; Some (r'.1, r.2 :: r'.2)
  end.

Lemma play_exec {T} (s : state T) ms s' ls : play s ms = Some (s', ls) -> exec s ls s'.
Proof.
  revert s ls. induction ms as [|m ms IH]; intros s ls H; simpl in H; [simplify_eq; apply exec_nil|].
  destruct (play_move s m) as [[s1 l]|] eqn:Em; simpl in H; [|done].
  destruct (play s1 ms) as [[s2 ls']|] eqn:Ep; simplify_eq/=. apply (exec_cons _ _ s1); [|by apply IH].
  destruct s as [q ts]. destruct m as [t v|t|t spurious]; simpl in Em; destruct (ts !! t) as [c|] eqn:Ec; simpl in Em; try done.
  - destruct c; simplify_eq/=. by apply step_push.
  - destruct c; simplify_eq/=. by apply step_pop.
  - destruct (advance q c spurious) as [[[q' c'] l']|] eqn:Ea; simplify_eq/=. by eapply step_advance.
Qed.

(** Two producers race for a ticket (the second loses the exchange and takes the next one), and a
    consumer takes the first value. *)
Definition race : list (move nat) :=
  [Push 0 7; Push 1 8; Go 0 false; Go 1 false; Go 0 false; Go 1 false; Go 1 false; Go 0 false; Go 0 false; Go 0 false;
   Go 1 false; Go 1 false; Pop 2; Go 2 false; Go 2 false; Go 2 false; Go 2 false]%nat.

Lemma tickets_first_in_first_out_witness :
  exists s0 s es, initial s0 /\ exec s0 es s /\ accepted es = [8; 7]%nat /\ takings es = [(0, Some 8%nat)] /\
    forall p r, (p, r) ∈ takings es -> exists v, r = Some v /\ accepted es !! Z.to_nat p = Some v.
Proof.
  pose (s0 := State (Queue (T := nat) [Slot 0 None; Slot 1 None] 1 0 0) [Rest; Rest; Rest]).
  assert (initial s0) as Hi by (exists 2; split; [reflexivity|split; [lia|by exists 3%nat]]).
  destruct (play s0 race) as [[s es]|] eqn:E; [|vm_compute in E; discriminate E].
  pose proof (play_exec _ _ _ _ E) as Hx. vm_compute in E. injection E as Es Ees.
  exists s0, s, es. split; [exact Hi|]. split; [exact Hx|]. split; [by rewrite <- Ees|]. split; [by rewrite <- Ees|].
  apply (tickets_first_in_first_out s0 s es Hi); [by vm_compute|exact Hx|]. rewrite <- Ees. by vm_compute.
Defined.

(** The capacity is the requested one rounded up to the next power of two; the constructor throws
    exactly for zero and for requests above 2^63. *)
Theorem capacity_rounds_up {T} n :
  0 <= n < 2 ^ 64 ->
  match make (T := T) n with
  | Ret q => n <= capacity q /\ (exists k, 0 <= k /\ capacity q = 2 ^ k) /\
      (forall k, 0 <= k -> n <= 2 ^ k -> capacity q <= 2 ^ k) /\ length (slots_ q) = Z.to_nat (capacity q)
  | Throw e => e = invalid_argument /\ (n = 0 \/ 2 ^ 63 < n)
  end.
Proof.
  intros Hn. destruct (make n) as [q|e] eqn:E.
  - destruct (make_inv n q E) as (Hr & Hc & _ & _ & Hs); [lia|]. rewrite Hs, length_map, length_seq, Hc. unfold bit_ceil.
    pose proof (Z.log2_up_nonneg n). destruct (decide (n = 1)) as [->|H1].
    + split_and!; [by vm_compute|by exists 0|intros k Hk _|done]. change (2 ^ Z.log2_up 1) with 1. pose proof (Z.pow_pos_nonneg 2 k). lia.
    + destruct (Z.log2_up_spec n) as [Hlo Hhi]; [lia|]. split_and!; [lia|by eexists| |done].
      intros k Hk Hle. apply Z.pow_le_mono_r; [lia|]. by apply Z.log2_up_le_pow2; lia.
  - unfold make, rounded_capacity in E. change (Z.shiftl 1 (64 - 1)) with (2 ^ 63) in E.
    destruct ((n =? 0) || (2 ^ 63 <? n)) eqn:Ec; simplify_eq/=. split; [done|]. apply orb_true_iff in Ec as [Ec|Ec]; [left|right]; lia.
Qed.

Lemma capacity_rounds_up_witness :
  match make (T := nat) 5 with
  | Ret q => 5 <= capacity q /\ (exists k, 0 <= k /\ capacity q = 2 ^ k) /\
      (forall k, 0 <= k -> 5 <= 2 ^ k -> capacity q <= 2 ^ k) /\ length (slots_ q) = Z.to_nat (capacity q)
  | Throw e => e = invalid_argument /\ (5 = 0 \/ 2 ^ 63 < 5)
  end.
Proof. apply (capacity_rounds_up (T := nat) 5). lia. Defined.

(** ** Capacity one

    With a single slot the sequence that marks ticket 0 as filled (1) is also the one that marks
    the slot as vacant for ticket 1. *)
Definition two_pushes : list (move nat) :=
  [Push 0 1; Go 0 false; Go 0 false; Go 0 false; Go 0 false; Go 0 false; Go 0 false;
   Push 0 2; Go 0 false; Go 0 false; Go 0 false; Go 0 false; Go 0 false; Go 0 false; Pop 0]%nat.

Definition overwritten : queue nat := Queue [Slot 2 (Some 2%nat)] 0 2 0.

(** A queue of capacity one accepts two values in a row although nothing has been popped; the second
    overwrites the first, and then [try_pop] runs forever without returning either. *)
Theorem capacity_one_overwrites :
  exists q es, make (T := nat) 1 = Ret q /\ capacity q = 1 /\
    exec (State q [Rest]) es (State overwritten [PopLoad]) /\ accepted es = [1; 2]%nat /\ claims es = 0%nat /\
    forall es' s', exec (State overwritten [PopLoad]) es' s' -> Forall (fun l => l = Silent) es'.
Proof.
  destruct (play (State (Queue (T := nat) [Slot 0 None] 0 0 0) [Rest]) two_pushes) as [[s es]|] eqn:E; [|vm_compute in E; discriminate E].
  eexists _, es. split; [reflexivity|]. split; [reflexivity|]. pose proof (play_exec _ _ _ _ E) as Hx.
  vm_compute in E. injection E as Es Ees. split; [rewrite <- Es in Hx; exact Hx|]. rewrite <- Ees. split; [reflexivity|]. split; [reflexivity|].
  intros es' s' H. remember (State overwritten [PopLoad]) as s1 eqn:E1. clear -H E1.
  enough (Forall (fun l => l = Silent) es' /\ exists c, s' = State overwritten [c] /\ (c = PopLoad \/ c = PopSequence 0)) as [? _] by done.
  induction H as [s|s es s1 l s2 H IH Hs]; [subst; split; [constructor|]; eauto|].
  destruct (IH E1) as (IH1 & c & -> & Hc). rewrite Forall_app, Forall_singleton.
  inversion Hs as [q ts t v Ht|q ts t Ht|q ts t d spurious q' c' l' Ht Ha]; subst;
    (destruct t as [|t]; simpl in Ht; [|by destruct t]); simplify_eq; [by destruct Hc|by destruct Hc|].
  destruct Hc as [->| ->]; vm_compute in Ha; injection Ha as <- <- <-; (split; [done|]); eexists; (split; [reflexivity|]); auto.
Qed.
