(* ===== verification/WeakMemory.v ===== *)
(** * Atomic objects with relaxed, acquire and release accesses

    An operational reading of the C++20 memory model for the operations the library uses.  Every
    atomic object keeps the history of its modification order: messages under time stamps.  A thread keeps a
    view: for each object, the least time stamp it may still read.  A load reads any message its view
    allows, however stale; a store may take any free place of the modification order after the view; a
    read-modify-write goes next to the message it reads.  A release store publishes the view of the thread with the
    message, an acquire load takes it over; relaxed accesses do neither.  Fences, sequentially consistent accesses and values
    read out of thin air (cycles of program order and reads-from) are outside the model. *)

From stdpp Require Import functions.
From S2P Require Import Prelude.

Inductive memory_order : Set := relaxed | acquire | release.

(** What a thread is known to have seen of each object. *)
Abbreviation view L := (L -> nat).

Record message (L : Type) : Type := Message { written : Z; released : view L }.
Arguments Message {L} written released.
Arguments written {L} m.
Arguments released {L} m.

Abbreviation history L := (gmap nat (message L)).
Abbreviation memory L := (L -> history L).

(** An object that is not atomic, and how often it has been modified.  Every access the library makes to such an
    object may modify it; one that does not happen after all the earlier ones is a data race. *)
Record cell (A : Type) := Cell { accesses : nat; content : A }.
Arguments Cell {A} accesses content.
Arguments accesses {A} c.
Arguments content {A} c.

Section memory.
Context {L : Type} `{!EqDecision L}.

Definition bottom : view L := fun _ => 0.
Definition join (v w : view L) : view L := fun l => max (v l) (w l).

Definition load (o : memory_order) (M : memory L) (v : view L) (l : L) (stamp : nat) : option (Z * view L) :=
  m ← M l !! stamp;
  if (v l <=? stamp)%nat then
    let v := <[l := stamp]> v in
    Some (written m, match o with acquire => join v (released m) | _ => v end)
  else None.

Definition store (o : memory_order) (M : memory L) (v : view L) (l : L) (stamp : nat) (x : Z) : option (memory L * view L) :=
  if (v l <? stamp)%nat && bool_decide (M l !! stamp = None) then
    let v := <[l := stamp]> v in
    let m := Message x (match o with release => v | _ => <[l := stamp]> bottom end) in
    Some (<[l := <[stamp := m]> (M l)]> M, v)
  else None.

(** A relaxed compare-exchange that succeeds; the new message continues the release sequence of the old one. *)
Definition exchange (M : memory L) (v : view L) (l : L) (stamp : nat) (expected desired : Z) : option (memory L * view L) :=
  m ← M l !! stamp;
  if (v l <=? stamp)%nat && (written m =? expected)%Z && bool_decide (M l !! S stamp = None) then
    let m' := Message desired (join (<[l := S stamp]> bottom) (released m)) in
    Some (<[l := <[S stamp := m']> (M l)]> M, <[l := S stamp]> v)
  else None.

(** An access to an object that is not atomic: [None] is a data race. *)
Definition modify {A} (c : cell A) (v : view L) (l : L) (x : A) : option (cell A * view L) :=
  if (accesses c <=? v l)%nat then Some (Cell (S (accesses c)) x, <[l := S (accesses c)]> v) else None.

(** ** Views never run ahead of the memory: there is always something to read *)

Definition closed (M : memory L) (v : view L) : Prop := forall l, M l <> ∅ -> exists t, v l <= t /\ is_Some (M l !! t).
Definition closed_memory (M : memory L) : Prop := forall l t m, M l !! t = Some m -> closed M (released m).

(** Histories only grow. *)
Definition grows (M M' : memory L) : Prop := forall l t m, M l !! t = Some m -> M' l !! t = Some m.

Lemma join_lookup v w l : join v w l = max (v l) (w l).
Proof. done. Qed.

Lemma closed_bottom M : closed M bottom.
Proof.
  intros l Hne. destruct (map_choose (M l) Hne) as (t & m & Ht). exists t. split; [unfold bottom; lia|by exists m].
Qed.

Lemma closed_join M v w : closed M v -> closed M w -> closed M (join v w).
Proof.
  intros Hv Hw l Hne. destruct (Hv l Hne) as (t & ? & ?), (Hw l Hne) as (t' & ? & ?). rewrite join_lookup.
  destruct (decide (t <= t')); [exists t'|exists t]; split; try done; lia.
Qed.

Lemma closed_insert M v l t : closed M v -> (M l <> ∅ -> is_Some (M l !! t)) -> closed M (<[l := t]> v).
Proof.
  intros Hv Ht l' Hne. destruct (decide (l' = l)) as [->|Hn].
  - rewrite fn_lookup_insert. exists t. split; [done|by apply Ht].
  - rewrite fn_lookup_insert_ne by done. by apply Hv.
Qed.

Lemma closed_grows M M' v : grows M M' -> (forall l, M l = ∅ -> M' l = ∅ \/ v l = 0) -> closed M v -> closed M' v.
Proof.
  intros Hg He Hv l Hne. destruct (decide (M l = ∅)) as [E|Hn].
  - destruct (He l E) as [?|E']; [done|]. destruct (map_choose (M' l) Hne) as (t & m & Ht). exists t. split; [lia|by exists m].
  - destruct (Hv l Hn) as (t & Hl & m & Ht). exists t. split; [done|]. exists m. by apply Hg.
Qed.

Lemma insert_grows M l t m : M l !! t = None -> grows M (<[l := <[t := m]> (M l)]> M).
Proof.
  intros Hf l' t' m' H. destruct (decide (l' = l)) as [->|Hn].
  - rewrite fn_lookup_insert, lookup_insert_ne; [done|]. congruence.
  - by rewrite fn_lookup_insert_ne by done.
Qed.

Lemma closed_put M v l t m : M l <> ∅ -> M l !! t = None -> closed M v -> closed (<[l := <[t := m]> (M l)]> M) v.
Proof.
  intros Hne Hf. apply closed_grows; [by apply insert_grows|]. intros l' E. left.
  rewrite fn_lookup_insert_ne; [done|]. congruence.
Qed.

Lemma closed_memory_put M l t m :
  M l <> ∅ -> M l !! t = None -> closed_memory M -> closed (<[l := <[t := m]> (M l)]> M) (released m) ->
  closed_memory (<[l := <[t := m]> (M l)]> M).
Proof.
  intros Hne Hf HM Hm l' t' m' H. destruct (decide (l' = l)) as [->|Hn].
  - rewrite fn_lookup_insert in H. apply lookup_insert_Some in H as [[-> <-]|[? H]]; [done|]. apply closed_put; [done..|]. by eapply HM.
  - rewrite fn_lookup_insert_ne in H by done. apply closed_put; [done..|]. by eapply HM.
Qed.

(** What the operations do. *)

Lemma load_spec o M v l stamp x v' :
  load o M v l stamp = Some (x, v') ->
  exists m, M l !! stamp = Some m /\ x = written m /\ v l <= stamp /\
    v' = match o with acquire => join (<[l := stamp]> v) (released m) | _ => <[l := stamp]> v end.
Proof. unfold load. intros H. destruct (M l !! stamp) as [m|] eqn:E; simplify_eq/=. case_match; simplify_eq. bools. by exists m. Qed.

Lemma load_closed o M v l stamp x v' : load o M v l stamp = Some (x, v') -> closed_memory M -> closed M v -> closed M v'.
Proof.
  intros (m & Hm & -> & _ & ->)%load_spec HM Hv.
  assert (closed M (<[l := stamp]> v)) by (apply closed_insert; [done|by exists m]).
  destruct o; [done| |done]. apply closed_join; [done|]. by eapply HM.
Qed.

Lemma load_progress o M v l : closed M v -> M l <> ∅ -> exists stamp r, load o M v l stamp = Some r.
Proof.
  intros Hv Hne. destruct (Hv l Hne) as (t & Hl & m & Ht). exists t. unfold load. rewrite Ht. simpl.
  rewrite (proj2 (Nat.leb_le _ _)) by done. eauto.
Qed.

Lemma store_spec o M v l stamp x M' v' :
  store o M v l stamp x = Some (M', v') ->
  v l < stamp /\ M l !! stamp = None /\ v' = <[l := stamp]> v /\
  M' = <[l := <[stamp := Message x (match o with release => <[l := stamp]> v | _ => <[l := stamp]> bottom end)]> (M l)]> M.
Proof. unfold store. intros H. case_match; simplify_eq. bools. by case_bool_decide. Qed.

Lemma store_progress o M v l x : exists stamp r, store o M v l stamp x = Some r.
Proof.
  exists (S (v l + max_list (map_to_list (M l)).*1)). unfold store. rewrite (proj2 (Nat.ltb_lt _ _)) by lia. simpl.
  rewrite bool_decide_eq_true_2; [by eauto|]. destruct (M l !! _) as [m|] eqn:E; [|done]. exfalso.
  apply elem_of_map_to_list in E. assert (forall ns n, n ∈ ns -> n <= max_list ns) as Hmax.
  { induction ns as [|a ns IH]; intros n Hn; [by apply not_elem_of_nil in Hn|]. apply elem_of_cons in Hn as [->|Hn]; simpl; [lia|]. specialize (IH _ Hn). lia. }
  pose proof (Hmax (map_to_list (M l)).*1 _ (list_elem_of_fmap_2 fst _ _ E)). simpl in *. lia.
Qed.

Lemma exchange_spec M v l stamp expected desired M' v' :
  exchange M v l stamp expected desired = Some (M', v') ->
  exists m, M l !! stamp = Some m /\ written m = expected /\ v l <= stamp /\ M l !! S stamp = None /\ v' = <[l := S stamp]> v /\
    M' = <[l := <[S stamp := Message desired (join (<[l := S stamp]> bottom) (released m))]> (M l)]> M.
Proof.
  unfold exchange. intros H. destruct (M l !! stamp) as [m|] eqn:E; simplify_eq/=. case_match; simplify_eq. bools. case_bool_decide; [|done].
  exists m. split_and!; done.
Qed.

Lemma put_closed M v l stamp m :
  let M' := <[l := <[stamp := m]> (M l)]> M in
  M l <> ∅ -> M l !! stamp = None -> closed_memory M -> closed M v -> closed M' (released m) ->
  closed_memory M' /\ closed M' (<[l := stamp]> v) /\ forall w, closed M w -> closed M' w.
Proof.
  intros M' Hne Hf HM Hv Hm. split_and!; [by apply closed_memory_put| |intros w Hw; by apply closed_put].
  apply closed_insert; [by apply closed_put|]. intros _. unfold M'. rewrite fn_lookup_insert, lookup_insert_eq. by exists m.
Qed.

Lemma closed_new M v l stamp m :
  M l <> ∅ -> M l !! stamp = None -> closed M v -> closed (<[l := <[stamp := m]> (M l)]> M) (<[l := stamp]> v).
Proof.
  intros Hne Hf Hv. apply closed_insert; [by apply closed_put|]. intros _. rewrite fn_lookup_insert, lookup_insert_eq. by exists m.
Qed.

Lemma store_closed o M v l stamp x M' v' :
  store o M v l stamp x = Some (M', v') -> M l <> ∅ -> closed_memory M -> closed M v ->
  closed_memory M' /\ closed M' v' /\ forall w, closed M w -> closed M' w.
Proof.
  intros (_ & Hf & -> & ->)%store_spec Hne HM Hv. apply put_closed; try done. simpl.
  destruct o; apply closed_new; done || apply closed_bottom.
Qed.

Lemma exchange_closed M v l stamp expected desired M' v' :
  exchange M v l stamp expected desired = Some (M', v') -> closed_memory M -> closed M v ->
  closed_memory M' /\ closed M' v' /\ forall w, closed M w -> closed M' w.
Proof.
  intros (m & Hm & _ & _ & Hf & -> & ->)%exchange_spec HM Hv.
  assert (M l <> ∅) as Hne by (intros E; rewrite E, lookup_empty in Hm; done).
  apply put_closed; try done. simpl. apply closed_join; [apply closed_new; [done..|apply closed_bottom]|].
  apply closed_put; [done..|]. by eapply HM.
Qed.

End memory.
