(* ===== verification/QueueOrders.v ===== *)
(** * LockFreeQueue (lock_free_queue.hpp) with the memory orders of the code

    The program points, labels and tickets are those of [LockFreeQueue]; here the accesses go to the
    memory of [WeakMemory]: ticket counters are read and exchanged [relaxed], the sequence of a slot is loaded
    [acquire] and stored [release], and the payload is an ordinary object, on which accesses can race.  A ghost
    queue, the newest value of every object, satisfies the invariant of [LockFreeQueue]. *)

From stdpp Require Import functions.
From S2P Require Import Prelude LockFreeQueue WeakMemory.
Open Scope Z_scope.

Inductive object : Set := Enqueue | Dequeue | Sequence (i : nat) | Payload (i : nat).
#[export] Instance object_eq_dec : EqDecision object.
Proof. solve_decision. Defined.

Section orders.
Context {T : Type}.

Record machine := Machine {
  atomics : memory object;
  payloads : list (cell (option T));
  mask : Z
}.

Definition place (m : machine) (pos : Z) : nat := Z.to_nat (Z.land pos (mask m)).

(** What the memory leaves open: the message a load reads, the place in the modification order a store takes,
    and whether a weak compare-exchange fails (because of the value it reads, or spuriously). *)
Record choice := Choice { reads : nat; writes : nat; fails : bool }.

Abbreviation thread := (pc T * view object)%type.

Definition set_atomics (m : machine) (M : memory object) : machine := Machine M (payloads m) (mask m).

(** An access to the payload of a slot. *)
Definition access (m : machine) (v : view object) (pos : Z) (x : option T) : option (machine * view object * option T) :=
  c ← payloads m !! place m pos;
  r ← modify c v (Payload (place m pos)) x;
  Some (Machine (atomics m) (<[place m pos := r.1]> (payloads m)) (mask m), r.2, content c).

(** One step of one thread.  [None]: the choice is not allowed, the slot does not exist, or the access to the payload
    is a data race. *)
Definition order_step (m : machine) (t : thread) (ch : choice) : option (machine * thread * label T) :=
  let '(c, v) := t in
  match c with
  | Rest => None
  | PushLoad x =>
      r ← load relaxed (atomics m) v Enqueue (reads ch); Some (m, (PushSequence x r.1, r.2), Silent)
  | PushSequence x pos =>
      r ← load acquire (atomics m) v (Sequence (place m pos)) (reads ch);
      let g := gap r.1 pos in
      Some (m, (if g =? 0 then PushClaim x pos else if g <? 0 then PushReturn false else PushLoad x, r.2), Silent)
  | PushClaim x pos =>
      if fails ch then
        r ← load relaxed (atomics m) v Enqueue (reads ch); Some (m, (PushSequence x r.1, r.2), Silent)
      else
        r ← exchange (atomics m) v Enqueue (reads ch) pos (u64 (pos + 1));
        Some (set_atomics m r.1, (PushEmplace x pos, r.2), Accepted x)
  | PushEmplace x pos => r ← access m v pos (Some x); Some (r.1.1, (PushPublish pos, r.1.2), Silent)
  | PushPublish pos =>
      r ← store release (atomics m) v (Sequence (place m pos)) (writes ch) (u64 (pos + 1));
      Some (set_atomics m r.1, (PushReturn true, r.2), Silent)
  | PushReturn b => Some (m, (Rest, v), Pushed b)
  | PopLoad =>
      r ← load relaxed (atomics m) v Dequeue (reads ch); Some (m, (PopSequence r.1, r.2), Silent)
  | PopSequence pos =>
      r ← load acquire (atomics m) v (Sequence (place m pos)) (reads ch);
      let g := gap r.1 (u64 (pos + 1)) in
      Some (m, (if g =? 0 then PopClaim pos else if g <? 0 then PopReturn None else PopLoad, r.2), Silent)
  | PopClaim pos =>
      if fails ch then
        r ← load relaxed (atomics m) v Dequeue (reads ch); Some (m, (PopSequence r.1, r.2), Silent)
      else
        r ← exchange (atomics m) v Dequeue (reads ch) pos (u64 (pos + 1));
        Some (set_atomics m r.1, (PopTake pos, r.2), Claimed)
  | PopTake pos => r ← access m v pos None; Some (r.1.1, (PopVacate pos r.2, r.1.2), Took pos r.2)
  | PopVacate pos x =>
      r ← store release (atomics m) v (Sequence (place m pos)) (writes ch) (u64 (u64 (pos + mask m) + 1));
      Some (set_atomics m r.1, (PopReturn x, r.2), Silent)
  | PopReturn x => Some (m, (Rest, v), Popped x)
  end.

Record orders := Orders { heap : machine; workers : list thread }.

Inductive orders_step : orders -> label T -> orders -> Prop :=
  | orders_push m ws t v x :
      ws !! t = Some (Rest, v) -> orders_step (Orders m ws) Silent (Orders m (<[t := (PushLoad x, v)]> ws))
  | orders_pop m ws t v :
      ws !! t = Some (Rest, v) -> orders_step (Orders m ws) Silent (Orders m (<[t := (PopLoad, v)]> ws))
  | orders_advance m ws t w ch m' w' l :
      ws !! t = Some w -> order_step m w ch = Some (m', w', l) -> orders_step (Orders m ws) l (Orders m' (<[t := w']> ws)).

(** The queue as its constructor leaves it, to threads that are given it afterwards. *)
Definition fresh (q : queue T) : machine :=
  let one x := {[0%nat := Message x bottom]} in
  Machine
    (fun l => match l with
              | Enqueue => one (enqueue_pos_ q)
              | Dequeue => one (dequeue_pos_ q)
              | Sequence i => from_option (fun s => one (sequence s)) ∅ (slots_ q !! i)
              | Payload _ => ∅
              end)
    (map (fun s => Cell 0 (value s)) (slots_ q)) (mask_ q).

#[export] Instance orders_system : System orders (label T) := {
  initial s := exists n q k, make n = Ret q /\ 0 <= n /\ s = Orders (fresh q) (replicate k (Rest, bottom));
  step := orders_step
}.

(** A thread is about to access a payload, and not all the earlier accesses happen before. *)
Definition touches (c : pc T) : option Z :=
  match c with PushEmplace _ pos | PopTake pos => Some pos | _ => None end.

Definition racing (s : orders) : Prop :=
  exists t c v pos p, workers s !! t = Some (c, v) /\ touches c = Some pos /\
    payloads (heap s) !! place (heap s) pos = Some p /\ (v (Payload (place (heap s) pos)) < accesses p)%nat.

(** ** The invariant

    [q] holds the newest value of every object.  The histories of the counters are gapless, those of the sequences are
    increasing; the owner of a ticket has seen all that happened to its slot, and what happened to a slot nobody owns is
    published with the newest message of its sequence. *)

Definition counts (h : history object) (n : Z) : Prop :=
  (forall t msg, h !! t = Some msg -> written msg = Z.of_nat t /\ Z.of_nat t <= n) /\
  (forall t, Z.of_nat t <= n -> is_Some (h !! t)).

Definition newest (h : history object) (x : Z) (last : nat) (msg : message object) : Prop :=
  h !! last = Some msg /\ written msg = x /\
  forall t msg', h !! t = Some msg' -> 0 <= written msg' /\ (t = last \/ (t < last)%nat /\ written msg' < x).

Definition slot_tied (m : machine) (i : nat) (s : slot T) : Prop :=
  exists c last msg, payloads m !! i = Some c /\ content c = value s /\ newest (atomics m (Sequence i)) (sequence s) last msg.

Definition handed_over (m : machine) (i : nat) : Prop :=
  forall t msg c, atomics m (Sequence i) !! t = Some msg -> (forall t', is_Some (atomics m (Sequence i) !! t') -> (t' <= t)%nat) ->
    payloads m !! i = Some c -> (accesses c <= released msg (Payload i))%nat.

Definition knows (m : machine) (v : view object) (i : nat) : Prop :=
  (forall t, is_Some (atomics m (Sequence i) !! t) -> (t <= v (Sequence i))%nat) /\
  (forall c, payloads m !! i = Some c -> (accesses c <= v (Payload i))%nat).

(** The ticket a thread owns, or will own if its compare-exchange succeeds. *)
Definition watched (q : queue T) (c : pc T) : option Z :=
  match c with
  | PushClaim _ pos => if pos =? enqueue_pos_ q then Some pos else None
  | PopClaim pos => if pos =? dequeue_pos_ q then Some pos else None
  | c => owned c
  end.

Record coherent (m : machine) (ws : list thread) (q : queue T) : Prop := {
  o_mask : mask m = mask_ q;
  o_enqueue : counts (atomics m Enqueue) (enqueue_pos_ q);
  o_dequeue : counts (atomics m Dequeue) (dequeue_pos_ q);
  o_slots : forall i s, slots_ q !! i = Some s -> slot_tied m i s;
  o_handed : forall i s, slots_ q !! i = Some s ->
    (exists t w p, ws !! t = Some w /\ owned w.1 = Some p /\ index q p = i) \/ handed_over m i;
  o_knows : forall t w p, ws !! t = Some w -> watched q w.1 = Some p -> knows m w.2 (index q p);
  o_payload : forall i, atomics m (Payload i) = ∅;
  o_memory : closed_memory (atomics m);
  o_views : forall t w, ws !! t = Some w -> closed (atomics m) w.2
}.

Lemma workers_at (ws : list thread) t c v : ws !! t = Some (c, v) -> ws.*1 !! t = Some c.
Proof. intros Ht. by rewrite list_lookup_fmap, Ht. Qed.

Lemma insert_worker_inv (ws : list thread) t w u d :
  (<[t := w]> ws) !! u = Some d -> (u = t /\ d = w) \/ (u <> t /\ ws !! u = Some d).
Proof. intros [(-> & -> & _)|[? ?]]%list_lookup_insert_Some; [by left|right; done]. Qed.

Lemma place_index m ws q pos : coherent m ws q -> place m pos = index q pos.
Proof. intros C. unfold place, index. by rewrite (o_mask _ _ _ C). Qed.

(** *** Owners and claimants of different tickets have different slots *)

Section apart.
Context (q : queue T) (ts : list (pc T)) (H : list T) (K : list (Z * option T)) (V : valid q ts H K).

Lemma owner_mine t c p : ts !! t = Some c -> owned c = Some p -> mine q p.
Proof.
  intros Ht Ho. pose proof (v_local _ _ _ _ V _ _ Ht) as Hl. destruct c; simplify_eq/=; destruct Hl as (H0 & Hw & Hs & _) || destruct Hl as (H0 & Hw & Hs);
    (split; [done|]); auto; right; (split; [done|lia]).
Qed.

Lemma dequeue_apart p :
  mine q p -> sequence_at q (dequeue_pos_ q) = Some (dequeue_pos_ q + 1) -> dequeue_pos_ q < enqueue_pos_ q ->
  index q (dequeue_pos_ q) <> index q p.
Proof.
  intros Hm Hs Hlt. apply (frame_index q ts H K V); [done|unfold in_window; pose proof (v_room _ _ _ _ V); lia|].
  intros E. rewrite E in *. destruct Hm as [_ [Hm|[_ Hm]]]; [rewrite Hm in Hs; simplify_eq; lia|lia].
Qed.

Lemma watched_apart t u c d p p' :
  ts !! t = Some c -> ts !! u = Some d -> t <> u -> owned c = Some p -> watched q d = Some p' -> index q p' <> index q p.
Proof.
  intros Ht Hu Hn Ho Hw. pose proof (owner_mine _ _ _ Ht Ho) as Hm. pose proof (v_local _ _ _ _ V _ _ Hu) as Hl.
  assert (owned d = Some p' -> index q p' <> index q p) as Hown.
  { intros Hd. apply (frame_index q ts H K V); [done|by apply (owner_mine u d)|]. intros ->. by apply Hn, (v_owned _ _ _ _ V t u c d p). }
  destruct d as [|x|x pos|x pos|x pos|pos|b| |pos|pos|pos|pos r|r]; simpl in Hw; try done; try by apply Hown.
  - destruct (Z.eqb_spec pos (enqueue_pos_ q)) as [E|]; simplify_eq. destruct Hl as [_ Hl].
    apply (frame_lap q ts H K V); [done|by apply Hl].
  - destruct (Z.eqb_spec pos (dequeue_pos_ q)) as [E|]; simplify_eq. destruct Hl as [_ Hl]. by apply dequeue_apart; destruct Hl.
Qed.

End apart.

(** *** Steps that do not write *)

Lemma silent_coherent m ws q t w w' :
  coherent m ws q -> ws !! t = Some w -> owned w.1 = None -> owned w'.1 = None -> closed (atomics m) w'.2 ->
  (forall p, watched q w'.1 = Some p -> knows m w'.2 (index q p)) -> coherent m (<[t := w']> ws) q.
Proof.
  intros [C1 C2 C3 C4 C5 C6 C7 C8 C9] Ht Ho Ho' Hv Hk. split; try done.
  - intros i s Hs. destruct (C5 i s Hs) as [(u & w1 & p & Hu & Hp & Hi)|]; [left|by right].
    exists u, w1, p. rewrite list_lookup_insert_ne; [done|]. intros ->. congruence.
  - intros u d p [[-> ->]|[Hn Hu]]%insert_worker_inv Hd; [by apply Hk|by eapply C6].
  - intros u d [[-> ->]|[Hn Hu]]%insert_worker_inv; [done|by eapply C9].
Qed.

(** An acquire load that returns the newest value of a slot nobody owns takes over all that happened to it. *)
Lemma acquire_knows m ws q i s v stamp y v' :
  coherent m ws q -> slots_ q !! i = Some s -> load acquire (atomics m) v (Sequence i) stamp = Some (y, v') ->
  (forall t w p, ws !! t = Some w -> owned w.1 = Some p -> index q p <> i) -> sequence s <= y ->
  y = sequence s /\ knows m v' i.
Proof.
  intros C Hs (msg' & Hm & -> & _ & ->)%load_spec Hno Hle. destruct (o_slots _ _ _ C i s Hs) as (c & last & msg & Hc & _ & Hl & Hx & Hall).
  destruct (Hall _ _ Hm) as [_ [->|[_ ?]]]; [|lia]. rewrite Hm in Hl. simplify_eq. split; [lia|].
  destruct (o_handed _ _ _ C i s Hs) as [(t & w & p & Ht & Hp & Hi)|Hh]; [by exfalso; eapply Hno|]. split.
  - intros t [msg' Ht]. rewrite join_lookup, fn_lookup_insert. destruct (Hall _ _ Ht) as [_ [->|[? _]]]; lia.
  - intros c' Hc'. rewrite join_lookup, fn_lookup_insert_ne by done. enough (accesses c' <= released msg (Payload i))%nat by lia.
    apply (Hh last msg c'); [done| |done]. intros t [msg' Ht]. destruct (Hall _ _ Ht) as [_ [->|[? _]]]; lia.
Qed.

Section sequences.
Context (q : queue T) (ws : list thread) (H : list T) (K : list (Z * option T)) (m : machine).
Context (V : valid q (ws.*1) H K) (Hb : bounded q H) (C : coherent m ws q).

Lemma read_sequence v i s stamp y v' o :
  slots_ q !! i = Some s -> load o (atomics m) v (Sequence i) stamp = Some (y, v') -> 0 <= y <= sequence s.
Proof.
  intros Hs (msg' & Hm & -> & _)%load_spec. destruct (o_slots _ _ _ C i s Hs) as (c & last & msg & _ & _ & Hl & Hx & Hall).
  destruct (Hall _ _ Hm) as [H0 [->|[_ ?]]]; [rewrite Hm in Hl; simplify_eq; lia|lia].
Qed.

Lemma no_owner i :
  (forall p, mine q p -> i <> index q p) -> forall t w p, ws !! t = Some w -> owned w.1 = Some p -> index q p <> i.
Proof.
  intros Hi t [c v] p Ht Ho E. apply (Hi p); [|done]. by apply (owner_mine q _ H K V t c); [eapply workers_at|].
Qed.

Lemma push_acquire v stamp y v' :
  let pos := enqueue_pos_ q in
  load acquire (atomics m) v (Sequence (index q pos)) stamp = Some (y, v') -> gap y pos = 0 ->
  sequence_at q pos = Some pos /\ knows m v' (index q pos).
Proof.
  cbv zeta. intros Hload Hg. destruct (v_capacity _ _ _ _ V) as (k & Hk & Hc). pose proof (capacity_pos q k Hk Hc).
  pose proof (v_enqueue _ _ _ _ V). pose proof (v_dequeue _ _ _ _ V). unfold bounded in Hb.
  destruct (window_slot _ _ _ _ (enqueue_pos_ q) V) as [s Hs]. pose proof (read_sequence _ _ _ _ _ _ _ Hs Hload) as Hy.
  assert (sequence_at q (enqueue_pos_ q - capacity q) = Some (sequence s)) as Hlap.
  { unfold sequence_at. by rewrite (index_lap q k Hk Hc), Hs. }
  assert (sequence s <= enqueue_pos_ q) as Hle.
  { destruct (v_phase _ _ _ _ V (enqueue_pos_ q - capacity q)) as [Hs' Hd|Hs' Hp _|Hs' Hd]; [unfold in_window; lia|..];
      rewrite Hlap in Hs'; simplify_eq; lia. }
  rewrite gap_exact in Hg by lia.
  assert (sequence_at q (enqueue_pos_ q) = Some (enqueue_pos_ q)) as Hat by (unfold sequence_at; rewrite Hs; simpl; f_equal; lia).
  split; [done|]. eapply acquire_knows; [done..| |lia]. apply no_owner. intros p Hm. by apply (frame_lap q _ H K V).
Qed.

Lemma pop_acquire v stamp y v' :
  let pos := dequeue_pos_ q in
  load acquire (atomics m) v (Sequence (index q pos)) stamp = Some (y, v') -> gap y (u64 (pos + 1)) = 0 ->
  sequence_at q pos = Some (pos + 1) /\ pos < enqueue_pos_ q /\ knows m v' (index q pos).
Proof.
  cbv zeta. intros Hload Hg. destruct (v_capacity _ _ _ _ V) as (k & Hk & Hc). pose proof (capacity_pos q k Hk Hc).
  pose proof (v_enqueue _ _ _ _ V). pose proof (v_dequeue _ _ _ _ V). pose proof (v_room _ _ _ _ V). unfold bounded in Hb.
  rewrite u64_small in Hg by lia. destruct (window_slot _ _ _ _ (dequeue_pos_ q) V) as [s Hs].
  pose proof (read_sequence _ _ _ _ _ _ _ Hs Hload) as Hy.
  assert (sequence_at q (dequeue_pos_ q) = Some (sequence s)) as Hat by (unfold sequence_at; by rewrite Hs).
  assert (dequeue_pos_ q < enqueue_pos_ q /\ sequence s <= dequeue_pos_ q + 1) as [Hlt Hle].
  { destruct (decide (dequeue_pos_ q = enqueue_pos_ q)) as [E|Hn].
    - exfalso. assert (sequence_at q (enqueue_pos_ q - capacity q) = Some (sequence s)) as Hlap.
      { unfold sequence_at in *. by rewrite (index_lap q k Hk Hc), <- E. }
      destruct (v_phase _ _ _ _ V (enqueue_pos_ q - capacity q)) as [Hs' Hd|Hs' Hp _|Hs' Hd]; [unfold in_window; lia|..];
        rewrite Hlap in Hs'; simplify_eq; rewrite gap_exact in Hg; lia.
    - split; [lia|]. destruct (v_phase _ _ _ _ V (dequeue_pos_ q)) as [Hs' Hd|Hs' Hp _|Hs' Hd]; [unfold in_window; lia|..];
        rewrite Hat in Hs'; simplify_eq; lia. }
  rewrite gap_exact in Hg by lia. assert (sequence_at q (dequeue_pos_ q) = Some (dequeue_pos_ q + 1)) as Hat' by (rewrite Hat; f_equal; lia).
  split_and!; [done..|]. eapply acquire_knows; [done..| |lia]. apply no_owner. intros p Hm. by apply (dequeue_apart q _ H K V).
Qed.

End sequences.

(** *** A ticket is claimed *)

Lemma exchange_counts M v l stamp expected n M' v' :
  counts (M l) n -> 0 <= n < 2 ^ 63 -> exchange M v l stamp expected (u64 (expected + 1)) = Some (M', v') ->
  expected = n /\ counts (M' l) (n + 1) /\ (forall l', l' <> l -> M' l' = M l' /\ v' l' = v l').
Proof.
  intros [Hc1 Hc2] Hn (msg & Hm & <- & _ & Hf & -> & ->)%exchange_spec. destruct (Hc1 _ _ Hm) as [Hw Hle].
  assert (written msg = n) as En.
  { destruct (decide (Z.of_nat (S stamp) <= n)) as [Hx|]; [|lia]. destruct (Hc2 _ Hx) as [? E]. congruence. }
  split; [done|]. split; [split|].
  - intros t msg' Ht. rewrite fn_lookup_insert in Ht. apply lookup_insert_Some in Ht as [[<- <-]|[_ Ht]].
    + simpl. rewrite u64_small by lia. lia.
    + destruct (Hc1 _ _ Ht). split; [done|lia].
  - intros t Ht. rewrite fn_lookup_insert. destruct (decide (t = S stamp)) as [->|Hne]; [rewrite lookup_insert_eq; by eexists|].
    rewrite lookup_insert_ne by done. apply Hc2. lia.
  - intros l' Hne. by rewrite !fn_lookup_insert_ne by done.
Qed.

Lemma claim_coherent m ws q t w w' p M' q' :
  coherent m ws q -> ws !! t = Some w -> owned w.1 = None -> watched q w.1 = Some p -> owned w'.1 = Some p -> watched q' w'.1 = Some p ->
  (forall i, M' (Payload i) = atomics m (Payload i)) ->
  (forall i, M' (Sequence i) = atomics m (Sequence i) /\ w'.2 (Sequence i) = w.2 (Sequence i) /\ w'.2 (Payload i) = w.2 (Payload i)) ->
  counts (M' Enqueue) (enqueue_pos_ q') -> counts (M' Dequeue) (dequeue_pos_ q') -> slots_ q' = slots_ q -> mask_ q' = mask_ q ->
  (forall u d p', u <> t -> ws !! u = Some d -> watched q' d.1 = Some p' -> watched q d.1 = Some p') ->
  closed_memory M' /\ closed M' w'.2 /\ (forall v, closed (atomics m) v -> closed M' v) ->
  coherent (set_atomics m M') (<[t := w']> ws) q'.
Proof.
  intros C Ht Ho Hw Ho' Hw' Hpay Hsame He Hd Hs Hm Hrest (HM & Hv & Hc). pose proof C as [C1 C2 C3 C4 C5 C6 C7 C8 C9].
  assert (forall i s, slot_tied m i s -> slot_tied (set_atomics m M') i s) as Htied.
  { intros i s (c & last & msg & H1 & H2 & H3). exists c, last, msg. simpl. by rewrite (proj1 (Hsame i)). }
  assert (forall i v v', v' (Sequence i) = v (Sequence i) -> v' (Payload i) = v (Payload i) -> knows m v i -> knows (set_atomics m M') v' i) as Hknows.
  { intros i v v' E1 E2 [H1 H2]. unfold knows. simpl. by rewrite (proj1 (Hsame i)), E1, E2. }
  assert (forall p0, index q' p0 = index q p0) as Hi by (intros p0; unfold index; by rewrite Hm).
  split; simpl; try done.
  - by rewrite Hm.
  - rewrite Hs. eauto.
  - rewrite Hs. intros i s Hi'. destruct (C5 i s Hi') as [(u & w1 & p1 & Hu & Hp & He')|Hh]; [left|right].
    + exists u, w1, p1. rewrite Hi, list_lookup_insert_ne; [done|]. intros ->. congruence.
    + intros t0 msg c. simpl. rewrite (proj1 (Hsame i)). apply Hh.
  - intros u d p' [[-> ->]|[Hn Hu]]%insert_worker_inv Hd'; rewrite Hi.
    + assert (p' = p) as -> by congruence. destruct (Hsame (index q p)) as (_ & E1 & E2). apply (Hknows _ w.2); [done..|]. by eapply C6.
    + apply (Hknows _ d.2); [done..|]. eapply C6; [done|by eapply Hrest].
  - intros i. by rewrite Hpay.
  - intros u d [[-> ->]|[Hn Hu]]%insert_worker_inv; [done|]. apply Hc. by eapply C9.
Qed.

(** *** The owner of a ticket writes to its slot *)

Section slot.
Context (q : queue T) (ws : list thread) (H : list T) (K : list (Z * option T)) (m : machine).
Context (V : valid q (ws.*1) H K) (C : coherent m ws q).
Context (t : nat) (c : pc T) (v : view object) (p : Z) (Ht : ws !! t = Some (c, v)) (Ho : owned c = Some p).

Lemma watched_owned : watched q c = Some p.
Proof. by destruct c. Qed.

Lemma owner_knows : knows m v (index q p).
Proof. apply (o_knows _ _ _ C t (c, v)); [done|]. apply watched_owned. Qed.

Lemma slot_coherent m' s w' :
  mask m' = mask m -> (forall l, l <> Sequence (index q p) -> atomics m' l = atomics m l) ->
  (forall j, j <> index q p -> payloads m' !! j = payloads m !! j) -> slot_tied m' (index q p) s ->
  (owned w'.1 = Some p /\ watched q w'.1 = Some p /\ knows m' w'.2 (index q p)) \/
  (owned w'.1 = None /\ watched q w'.1 = None /\ handed_over m' (index q p)) ->
  closed_memory (atomics m') /\ closed (atomics m') w'.2 /\ (forall v, closed (atomics m) v -> closed (atomics m') v) ->
  coherent m' (<[t := w']> ws) (set_slot q p s).
Proof.
  intros Hm Ha Hp Hs Hw (HM & Hv & Hc). pose proof C as [C1 C2 C3 C4 C5 C6 C7 C8 C9].
  assert (forall i s, i <> index q p -> slots_ (set_slot q p s) !! i = slots_ q !! i) as Hother.
  { intros i s' Hn. simpl. by rewrite list_lookup_insert_ne by done. }
  assert (forall i s', slots_ (set_slot q p s) !! i = Some s' -> (i = index q p /\ s' = s) \/ (i <> index q p /\ slots_ q !! i = Some s')) as Hinv.
  { intros i s' [(-> & -> & _)|[? ?]]%list_lookup_insert_Some; [by left|right; done]. }
  split; try done.
  - by rewrite Hm.
  - by rewrite Ha.
  - by rewrite Ha.
  - intros i s' [[-> ->]|[Hn Hi]]%Hinv; [done|]. destruct (C4 _ _ Hi) as (c' & last & msg & H1 & H2 & H3).
    exists c', last, msg. rewrite Hp, Ha by congruence. done.
  - intros i s' [[-> ->]|[Hn Hi]]%Hinv.
    + destruct Hw as [(Ho' & _ & _)|(_ & _ & Hh)]; [left|by right]. exists t, w', p. rewrite list_lookup_insert_eq; [done|by eapply lookup_lt_Some].
    + destruct (C5 _ _ Hi) as [(u & w1 & p1 & Hu & Hp1 & He)|Hh]; [left|right].
      * exists u, w1, p1. rewrite list_lookup_insert_ne; [done|]. intros ->. rewrite Ht in Hu. by simplify_eq/=.
      * intros t0 msg c'. rewrite Hp, Ha by congruence. apply Hh.
  - intros u d p' [[-> ->]|[Hn Hu]]%insert_worker_inv Hd.
    + change (watched q w'.1 = Some p') in Hd. change (index (set_slot q p s) p') with (index q p').
      destruct Hw as [(_ & E & Hk)|(_ & E & _)]; [|congruence]. rewrite E in Hd. by simplify_eq.
    + change (watched q d.1 = Some p') in Hd. change (index (set_slot q p s) p') with (index q p'). destruct d as [d w1].
      assert (index q p' <> index q p) as Hn'.
      { apply (watched_apart q _ H K V t u c d); [by eapply workers_at|by eapply workers_at|congruence|done..]. }
      unfold knows. rewrite Hp, Ha by congruence. by apply (C6 u (d, w1)).
  - intros i. by rewrite Ha.
  - intros u d [[-> ->]|[Hn Hu]]%insert_worker_inv; [done|]. apply Hc. by eapply C9.
Qed.

(** The owner's accesses are never a race. *)
Lemma access_defined x : exists r, access m v p x = Some r.
Proof.
  destruct (window_slot _ _ _ _ p V) as [s Hs]. destruct (o_slots _ _ _ C _ _ Hs) as (cl & last & msg & Hc & _).
  unfold access. rewrite (place_index m ws q p C), Hc. simpl. unfold modify.
  rewrite (proj2 (Nat.leb_le _ _)) by (by apply (proj2 owner_knows)). simpl. eauto.
Qed.

Lemma access_coherent x m' v' r s c' :
  access m v p x = Some (m', v', r) -> slots_ q !! index q p = Some s -> owned c' = Some p ->
  r = value s /\ coherent m' (<[t := (c', v')]> ws) (set_slot q p (Slot (sequence s) x)).
Proof.
  unfold access. rewrite (place_index m ws q p C). intros Ha Hs Hc'. destruct (payloads m !! index q p) as [cl|] eqn:Ec; simplify_eq/=.
  unfold modify in Ha. destruct (accesses cl <=? v (Payload (index q p)))%nat; simplify_eq/=.
  destruct (o_slots _ _ _ C _ _ Hs) as (cl' & last & msg & Hc & Hval & Hnew). rewrite Ec in Hc. simplify_eq. split; [done|].
  assert (payloads m !! index q p = Some cl' -> (index q p < length (payloads m))%nat) as Hlt by apply lookup_lt_Some.
  apply slot_coherent; simpl; try done.
  - intros j Hj. by rewrite list_lookup_insert_ne by done.
  - exists (Cell (S (accesses cl')) x), last, msg. simpl. rewrite list_lookup_insert_eq by auto. done.
  - left. split; [done|]. split; [by destruct c'|]. split; simpl.
    + intros t' Hx. rewrite fn_lookup_insert_ne by done. by apply (proj1 owner_knows).
    + intros c0. rewrite list_lookup_insert_eq by auto. intros [= <-]. rewrite fn_lookup_insert. done.
  - split_and!; [apply (o_memory _ _ _ C)| |done]. apply closed_insert; [by apply (o_views _ _ _ C t (c, v))|].
    intros E. by rewrite (o_payload _ _ _ C) in E.
Qed.

Lemma publish_coherent stamp x M' v' s c' :
  store release (atomics m) v (Sequence (index q p)) stamp x = Some (M', v') -> slots_ q !! index q p = Some s ->
  0 <= sequence s < x -> owned c' = None -> watched q c' = None ->
  coherent (set_atomics m M') (<[t := (c', v')]> ws) (set_slot q p (Slot x (value s))).
Proof.
  intros Hst Hs Hx Hc' Hw'. destruct (o_slots _ _ _ C _ _ Hs) as (cl & last & msg & Hc & Hval & Hl & Hw & Hall).
  assert (atomics m (Sequence (index q p)) <> ∅) as Hne by (intros E; by rewrite E, lookup_empty in Hl).
  pose proof (store_closed _ _ _ _ _ _ _ _ Hst Hne (o_memory _ _ _ C) (o_views _ _ _ C t (c, v) Ht)) as Hcl.
  destruct (store_spec _ _ _ _ _ _ _ _ Hst) as (Hlt & Hf & -> & ->). destruct owner_knows as [Hk1 Hk2]. specialize (Hk1 last (mk_is_Some _ _ Hl)).
  apply slot_coherent; simpl; try done.
  - intros l Hn. by rewrite fn_lookup_insert_ne by done.
  - exists cl, stamp. eexists. split; [done|]. split; [done|]. simpl. rewrite fn_lookup_insert. split; [apply lookup_insert_eq|]. split; [done|].
    intros t' msg' Ht'. apply lookup_insert_Some in Ht' as [[<- <-]|[Hn Ht']]; [simpl; split; [lia|by left]|].
    destruct (Hall _ _ Ht') as [? Hold]. split; [done|right]. destruct Hold as [->|[? ?]]; [|split; lia]. rewrite Hl in Ht'. simplify_eq. split; lia.
  - right. split_and!; try done. intros t' msg' c0. simpl. rewrite fn_lookup_insert. intros Ht' Hmax Hc0.
    assert (stamp <= t')%nat by (apply Hmax; rewrite lookup_insert_eq; by eexists).
    apply lookup_insert_Some in Ht' as [[<- <-]|[Hn Ht']].
    + simpl. rewrite fn_lookup_insert_ne by done. by apply Hk2.
    + exfalso. destruct (Hall _ _ Ht') as [_ [->|[? _]]]; lia.
Qed.

End slot.

(** ** Every step keeps the invariants *)

Section run.
Context (q : queue T) (ws : list thread) (H : list T) (K : list (Z * option T)) (m : machine).
Context (V : valid q (ws.*1) H K) (Hb : bounded q H) (C : coherent m ws q).

(** What a step preserves, for the queue after it. *)
Definition kept (m' : machine) (ws' : list thread) (l : label T) : Prop :=
  exists q', valid q' (ws'.*1) (H ++ accepted [l]) (K ++ takings [l]) /\ coherent m' ws' q' /\ capacity q' = capacity q /\
    dequeue_pos_ q' = dequeue_pos_ q + Z.of_nat (claims [l]).

Lemma kept_silent t c v c' v' l :
  ws !! t = Some (c, v) -> owned c = None -> owned c' = None -> closed (atomics m) v' -> local_ok q H c' ->
  (forall p, watched q c' = Some p -> knows m v' (index q p)) -> accepted [l] = [] -> takings [l] = [] -> claims [l] = 0%nat ->
  kept m (<[t := (c', v')]> ws) l.
Proof.
  intros Ht Ho Ho' Hv Hl Hk E1 E2 E3. exists q. rewrite list_fmap_insert, E1, E2, E3, !app_nil_r. split_and!; [| |done|lia].
  - eapply silent_valid; [done|by eapply workers_at|done..].
  - by eapply (silent_coherent m ws q t (c, v) (c', v')).
Qed.

Lemma counter_read o v l n stamp y v' : counts (atomics m l) n -> load o (atomics m) v l stamp = Some (y, v') -> 0 <= y <= n.
Proof. intros [Hc _] (msg & Hm & -> & _)%load_spec. destruct (Hc _ _ Hm). lia. Qed.

Lemma push_claim_kept t x pos v stamp M' v' :
  ws !! t = Some (PushClaim x pos, v) -> exchange (atomics m) v Enqueue stamp pos (u64 (pos + 1)) = Some (M', v') ->
  bounded q (H ++ [x]) -> kept (set_atomics m M') (<[t := (PushEmplace x pos, v')]> ws) (Accepted x).
Proof.
  intros Ht Hx Hb'. pose proof Hb as Hbz. pose proof (v_enqueue _ _ _ _ V) as He. pose proof (v_dequeue _ _ _ _ V) as Hd. unfold bounded in Hbz.
  destruct (v_capacity _ _ _ _ V) as (k & Hk & Hc). pose proof (capacity_pos q k Hk Hc).
  destruct (exchange_counts _ _ _ _ _ (enqueue_pos_ q) _ _ (o_enqueue _ _ _ C) ltac:(lia) Hx) as (-> & Hcount & Hsame).
  eexists. rewrite list_fmap_insert. split_and!; [rewrite app_nil_r; eapply claim_push_valid; [done..|by eapply workers_at]| |done|unfold claims; simpl; lia].
  eapply (claim_coherent m ws q t (PushClaim x (enqueue_pos_ q), v) (PushEmplace x (enqueue_pos_ q), v') (enqueue_pos_ q)); simpl; try done.
  - by rewrite Z.eqb_refl.
  - intros i. by apply Hsame.
  - intros i. split_and!; by apply Hsame.
  - rewrite (proj1 (Hsame Dequeue ltac:(done))). apply (o_dequeue _ _ _ C).
  - intros u [d w] p' Hn Hu. pose proof (v_local _ _ _ _ V u d ltac:(by eapply workers_at)) as Hl.
    destruct d; simpl in *; try done. destruct (Z.eqb_spec pos (enqueue_pos_ q + 1)); [lia|done].
  - eapply exchange_closed; [done|apply (o_memory _ _ _ C)|exact (o_views _ _ _ C t _ Ht)].
Qed.

Lemma pop_claim_kept t pos v stamp M' v' :
  ws !! t = Some (PopClaim pos, v) -> exchange (atomics m) v Dequeue stamp pos (u64 (pos + 1)) = Some (M', v') ->
  kept (set_atomics m M') (<[t := (PopTake pos, v')]> ws) Claimed.
Proof.
  intros Ht Hx. pose proof Hb as Hbz. pose proof (v_enqueue _ _ _ _ V) as He. pose proof (v_dequeue _ _ _ _ V) as Hd. unfold bounded in Hbz.
  destruct (v_capacity _ _ _ _ V) as (k & Hk & Hc). pose proof (capacity_pos q k Hk Hc).
  destruct (exchange_counts _ _ _ _ _ (dequeue_pos_ q) _ _ (o_dequeue _ _ _ C) ltac:(lia) Hx) as (-> & Hcount & Hsame).
  eexists. rewrite list_fmap_insert. split_and!; [rewrite !app_nil_r; eapply claim_pop_valid; [done..|by eapply workers_at]| |done|unfold claims; simpl; lia].
  eapply (claim_coherent m ws q t (PopClaim (dequeue_pos_ q), v) (PopTake (dequeue_pos_ q), v') (dequeue_pos_ q)); simpl; try done.
  - by rewrite Z.eqb_refl.
  - intros i. by apply Hsame.
  - intros i. split_and!; by apply Hsame.
  - rewrite (proj1 (Hsame Enqueue ltac:(done))). apply (o_enqueue _ _ _ C).
  - intros u [d w] p' Hn Hu. pose proof (v_local _ _ _ _ V u d ltac:(by eapply workers_at)) as Hl.
    destruct d; simpl in *; try done. destruct (Z.eqb_spec pos (dequeue_pos_ q + 1)); [lia|done].
  - eapply exchange_closed; [done|apply (o_memory _ _ _ C)|exact (o_views _ _ _ C t _ Ht)].
Qed.

Lemma slot_kept t c v p :
  ws !! t = Some (c, v) -> owned c = Some p -> exists s, slots_ q !! index q p = Some s /\
    (match c with PushEmplace _ _ | PushPublish _ => sequence s = p | _ => sequence s = p + 1 end).
Proof.
  intros Ht Ho. destruct (window_slot _ _ _ _ p V) as [s Hs]. exists s. split; [done|].
  pose proof (v_local _ _ _ _ V t c ltac:(by eapply workers_at)) as Hl.
  destruct c; simplify_eq/=; eapply slot_at; try done; tauto.
Qed.

End run.

Lemma order_step_kept q ws H K m t w ch m' w' l :
  valid q (ws.*1) H K -> bounded q H -> coherent m ws q ->
  ws !! t = Some w -> order_step m w ch = Some (m', w', l) -> bounded q (H ++ accepted [l]) -> kept q H K m' (<[t := w']> ws) l.
Proof.
  intros V Hb C Ht Hs Hb'. pose proof Hb as Hbz. pose proof (v_enqueue _ _ _ _ V) as He. pose proof (v_dequeue _ _ _ _ V) as Hd. unfold bounded in Hbz.
  destruct (v_capacity _ _ _ _ V) as (k & Hk & Hc). pose proof (capacity_pos q k Hk Hc) as Hcp.
  destruct w as [c v]. pose proof (o_views _ _ _ C t _ Ht) as Hv. pose proof (v_local _ _ _ _ V t c ltac:(by eapply workers_at)) as Hl.
  pose proof (o_memory _ _ _ C) as HM.
  destruct c as [|x|x pos|x pos|x pos|pos|b| |pos|pos|pos|pos r|r]; simpl in Hs; [done|..];
    try match type of Hs with context [fails ?ch] => destruct (fails ch) end;
    try match type of Hs with context [load ?o ?M ?v ?l ?st] => destruct (load o M v l st) as [[y v']|] eqn:Eload end; simplify_eq/=;
    try (pose proof (load_closed _ _ _ _ _ _ _ Eload HM Hv)).
  - eapply kept_silent; try done. simpl. by eapply counter_read; [apply (o_enqueue _ _ _ C)|].
  - eapply kept_silent; try done; [by repeat case_match..| |].
    + destruct (Z.eqb_spec (gap y pos) 0) as [Eg|]; [|by case_match]. simpl. split; [done|]. intros ->.
      eapply push_acquire; [done..|by rewrite <- (place_index _ _ _ _ C)|done].
    + intros p. destruct (Z.eqb_spec (gap y pos) 0) as [Eg|]; [|by case_match]. simpl. case_match; [|done]. intros [= <-]. bools. subst pos.
      eapply push_acquire; [done..|by rewrite <- (place_index _ _ _ _ C)|done].
  - eapply kept_silent; try done. simpl. by eapply counter_read; [apply (o_enqueue _ _ _ C)|].
  - destruct (exchange _ _ _ _ _ _) as [[M' v']|] eqn:Ex; simplify_eq/=. by eapply push_claim_kept.
  - destruct (access m v pos (Some x)) as [[[m1 v1] r]|] eqn:Ea; simplify_eq/=. destruct (slot_kept q ws H K V t _ _ _ Ht eq_refl) as (s & Hs & _).
    destruct (access_coherent q ws H K m V C t _ v pos Ht eq_refl _ _ _ _ s (PushPublish pos) Ea Hs eq_refl) as [_ C'].
    eexists. rewrite list_fmap_insert, !app_nil_r. split_and!; [|exact C'|done|unfold claims; simpl; lia]. eapply emplace_valid; [done|by eapply workers_at|done].
  - destruct (store _ _ _ _ _ _) as [[M' v']|] eqn:Est; simplify_eq/=. destruct (slot_kept q ws H K V t _ _ _ Ht eq_refl) as (s & Hs & Hseq).
    assert (in_window q pos) as Hw by tauto. unfold in_window in Hw.
    eexists. rewrite list_fmap_insert, !app_nil_r. split_and!; [eapply publish_valid; [done..|by eapply workers_at|done]| |done|unfold claims; simpl; lia].
    eapply (publish_coherent q ws H K m V C t _ v pos Ht eq_refl); [by rewrite <- (place_index _ _ _ _ C)|done| |done..]. rewrite u64_small by lia. lia.
  - by eapply kept_silent.
  - eapply kept_silent; try done. simpl. by eapply counter_read; [apply (o_dequeue _ _ _ C)|].
  - eapply kept_silent; try done; [by repeat case_match..| |].
    + destruct (Z.eqb_spec (gap y (u64 (pos + 1))) 0) as [Eg|]; [|by case_match]. simpl. split; [done|]. intros ->. rewrite (place_index _ _ _ _ C) in Eload.
      destruct (pop_acquire q ws H K _ V Hb C _ _ _ _ Eload Eg) as (? & ? & _). done.
    + intros p. destruct (Z.eqb_spec (gap y (u64 (pos + 1))) 0) as [Eg|]; [|by case_match]. simpl. case_match; [|done]. intros [= <-]. bools. subst pos.
      rewrite (place_index _ _ _ _ C) in Eload. by destruct (pop_acquire q ws H K _ V Hb C _ _ _ _ Eload Eg) as (_ & _ & ?).
  - eapply kept_silent; try done. simpl. by eapply counter_read; [apply (o_dequeue _ _ _ C)|].
  - destruct (exchange _ _ _ _ _ _) as [[M' v']|] eqn:Ex; simplify_eq/=. by eapply pop_claim_kept.
  - destruct (access m v pos None) as [[[m1 v1] r]|] eqn:Ea; simplify_eq/=. destruct (slot_kept q ws H K V t _ _ _ Ht eq_refl) as (s & Hs & _).
    destruct (access_coherent q ws H K m V C t _ v pos Ht eq_refl _ _ _ _ s (PopVacate pos r) Ea Hs eq_refl) as [-> C'].
    eexists. rewrite list_fmap_insert, !app_nil_r. split_and!; [|exact C'|done|unfold claims; simpl; lia]. eapply take_valid; [done|by eapply workers_at|done].
  - destruct (store _ _ _ _ _ _) as [[M' v']|] eqn:Est; simplify_eq/=. destruct (slot_kept q ws H K V t _ _ _ Ht eq_refl) as (s & Hs & Hseq).
    assert (in_window q pos) as Hw by tauto. unfold in_window in Hw. unfold capacity in *. rewrite (o_mask _ _ _ C) in Est.
    eexists. rewrite list_fmap_insert, !app_nil_r. split_and!; [eapply vacate_valid; [done..|by eapply workers_at|done]| |done|unfold claims; simpl; lia].
    eapply (publish_coherent q ws H K m V C t _ v pos Ht eq_refl); [by rewrite <- (place_index _ _ _ _ C)|done| |done..].
    rewrite (u64_small (pos + mask_ q)), u64_small by lia. lia.
  - by eapply kept_silent.
Qed.

(** A thread inside an operation can always go on. *)
Lemma order_step_defined q ws H K m t c v :
  valid q (ws.*1) H K -> coherent m ws q -> ws !! t = Some (c, v) -> c <> Rest -> exists ch, is_Some (order_step m (c, v) ch).
Proof.
  intros V C Ht Hn. pose proof (o_views _ _ _ C t _ Ht) as Hv. simpl in Hv.
  assert (forall l n, counts (atomics m l) n -> 0 <= n -> atomics m l <> ∅) as Hcounts.
  { intros l n [_ Hc] H0 E. destruct (Hc 0%nat H0) as [? E']. by rewrite E, lookup_empty in E'. }
  pose proof (v_enqueue _ _ _ _ V). pose proof (v_dequeue _ _ _ _ V).
  destruct (load_progress relaxed _ v Enqueue Hv (Hcounts _ _ (o_enqueue _ _ _ C) ltac:(lia))) as (se & re & Ee).
  destruct (load_progress relaxed _ v Dequeue Hv (Hcounts _ _ (o_dequeue _ _ _ C) ltac:(lia))) as (sd & rd & Ed).
  assert (forall pos, exists st r, load acquire (atomics m) v (Sequence (place m pos)) st = Some r) as Hseq.
  { intros pos. apply load_progress; [done|]. rewrite (place_index _ _ _ _ C). destruct (window_slot _ _ _ _ pos V) as [s Hs].
    destruct (o_slots _ _ _ C _ _ Hs) as (cl & last & msg & _ & _ & Hl & _). intros E. by rewrite E, lookup_empty in Hl. }
  assert (forall pos x, exists st r, store release (atomics m) v (Sequence (place m pos)) st x = Some r) as Hst by (intros; apply store_progress).
  destruct c as [|x|x pos|x pos|x pos|pos|b| |pos|pos|pos|pos r|r]; [done|..].
  - exists (Choice se 0 false). simpl. by rewrite Ee.
  - destruct (Hseq pos) as (st & r & E). exists (Choice st 0 false). simpl. by rewrite E.
  - exists (Choice se 0 true). simpl. by rewrite Ee.
  - destruct (access_defined q ws H K m V C t _ v pos Ht eq_refl (Some x)) as [r E]. exists (Choice 0 0 false). simpl. by rewrite E.
  - destruct (Hst pos (u64 (pos + 1))) as (st & r & E). exists (Choice 0 st false). simpl. by rewrite E.
  - by exists (Choice 0 0 false).
  - exists (Choice sd 0 false). simpl. by rewrite Ed.
  - destruct (Hseq pos) as (st & r & E). exists (Choice st 0 false). simpl. by rewrite E.
  - exists (Choice sd 0 true). simpl. by rewrite Ed.
  - destruct (access_defined q ws H K m V C t _ v pos Ht eq_refl None) as [r E]. exists (Choice 0 0 false). simpl. by rewrite E.
  - destruct (Hst pos (u64 (u64 (pos + mask m) + 1))) as (st & x & E). exists (Choice 0 st false). simpl. by rewrite E.
  - by exists (Choice 0 0 false).
Qed.

(** ** Executions *)

Lemma fresh_coherent n q k : make n = Ret q -> 0 <= n -> coherent (fresh q) (replicate k (Rest, bottom)) q.
Proof.
  intros Hm Hn. destruct (make_inv n q Hm Hn) as (_ & _ & HE & HD & Hs).
  assert (forall t w, replicate k (@Rest T, @bottom object) !! t = Some w -> w = (Rest, bottom)) as Hrest.
  { intros t w Ht. by apply lookup_replicate_1 in Ht as [-> _]. }
  assert (counts {[0%nat := Message 0 bottom]} 0) as Hcounts.
  { split; [intros t msg [<- <-]%lookup_singleton_Some; split; [done|lia]|]. intros t Ht. assert (t = 0%nat) as -> by lia. by rewrite lookup_singleton_eq. }
  assert (forall i s, slots_ q !! i = Some s -> sequence s = Z.of_nat i) as Hseq.
  { intros i s Hi. rewrite Hs, list_lookup_fmap in Hi. destruct (seq 0 _ !! i) as [j|] eqn:E; simplify_eq/=. by apply lookup_seq in E as [-> _]. }
  split; simpl; try done.
  - by rewrite HE.
  - by rewrite HD.
  - intros i s Hi. exists (Cell 0 (value s)), 0%nat, (Message (sequence s) bottom). simpl. rewrite list_lookup_fmap, Hi. simpl.
    split_and!; try done. split_and!; [by rewrite lookup_singleton_eq|done|]. intros t msg [<- <-]%lookup_singleton_Some. simpl. rewrite (Hseq i s Hi). split; [lia|by left].
  - intros i s Hi. right. intros t msg c _ _. simpl. rewrite list_lookup_fmap, Hi. intros [= <-]. simpl. lia.
  - intros t w p ->%Hrest. done.
  - intros l t msg Hl. assert (released msg = bottom) as ->; [|apply closed_bottom]. destruct l; simpl in Hl.
    + by apply lookup_singleton_Some in Hl as [_ <-].
    + by apply lookup_singleton_Some in Hl as [_ <-].
    + destruct (slots_ q !! i); simpl in Hl; [by apply lookup_singleton_Some in Hl as [_ <-]|done].
    + done.
  - intros t w ->%Hrest. apply closed_bottom.
Qed.

Lemma exec_coherent (s0 s : orders) es :
  initial s0 -> 2 <= mask (heap s0) + 1 -> exec s0 es s -> Z.of_nat (length (accepted es)) + (mask (heap s0) + 1) < 2 ^ 63 ->
  exists q, valid q ((workers s).*1) (accepted es) (takings es) /\ coherent (heap s) (workers s) q /\
    dequeue_pos_ q = Z.of_nat (claims es) /\ capacity q = mask (heap s0) + 1.
Proof.
  intros (n & q0 & k & Hm & Hn & ->) H2 Hx. cbn [heap fresh mask] in *. change (mask_ q0 + 1) with (capacity q0) in *.
  remember (Orders (fresh q0) (replicate k (Rest, bottom))) as s0 eqn:E0. induction Hx as [s|s es s1 l s2 Hx IH Hs]; intros Hb; subst.
  - exists q0. simpl. rewrite fmap_replicate. simpl. split_and!; [by eapply initial_valid|by eapply fresh_coherent| |done].
    by destruct (make_inv _ _ Hm Hn) as (_ & _ & _ & -> & _).
  - assert (accepted (es ++ [l]) = accepted es ++ accepted [l] /\ takings (es ++ [l]) = takings es ++ takings [l] /\
      claims (es ++ [l]) = (claims es + claims [l])%nat) as (Ea & Et & Ec).
    { unfold accepted, takings, claims. rewrite !omap_app, length_app. done. }
    rewrite Ea, Et, Ec in *. rewrite length_app in Hb. destruct IH as (q & V & C & HD & Hc); [done|lia|].
    assert (kept q (accepted es) (takings es) (heap s2) (workers s2) l) as (q' & V' & C' & Hc' & HD').
    { destruct Hs as [m ws t v x Ht|m ws t v Ht|m ws t w ch m' w' l Ht Ho]; cbn [heap workers] in *.
      - eapply kept_silent; try done. exact (o_views _ _ _ C t _ Ht).
      - eapply kept_silent; try done. exact (o_views _ _ _ C t _ Ht).
      - eapply order_step_kept; try done; unfold bounded; rewrite ?length_app; lia. }
    exists q'. split_and!; [done..|lia|congruence].
Qed.

(** C23. The memory orders of the code suffice.  Any number of threads push and pop on a queue of capacity at least two, with
    relaxed accesses to the ticket counters, acquire loads and release stores of the slots' sequences, loads that may be
    stale and compare-exchanges that may fail.  No thread is ever about to race on a payload; every value a
    consumer takes with ticket [p] is the [p]-th value that was accepted, no ticket is taken twice, every ticket
    claimed has been taken or is about to be; the values accepted and not yet claimed never exceed the capacity; and a
    thread inside an operation can always take a step. *)
Theorem memory_orders_suffice (s0 s : orders) es :
  initial s0 -> 2 <= mask (heap s0) + 1 -> exec s0 es s -> Z.of_nat (length (accepted es)) + (mask (heap s0) + 1) < 2 ^ 63 ->
  ~ racing s /\
  (forall p r, (p, r) ∈ takings es -> exists v, r = Some v /\ accepted es !! Z.to_nat p = Some v) /\
  NoDup (map fst (takings es)) /\
  (forall p, 0 <= p < Z.of_nat (claims es) -> p ∈ map fst (takings es) \/ exists t v, workers s !! t = Some (PopTake p, v)) /\
  0 <= Z.of_nat (length (accepted es)) - Z.of_nat (claims es) <= mask (heap s0) + 1 /\
  (forall t c v, workers s !! t = Some (c, v) -> c <> Rest -> exists ch, is_Some (order_step (heap s) (c, v) ch)).
Proof.
  intros Hi H2 Hx Hb. destruct (exec_coherent s0 s es Hi H2 Hx Hb) as (q & V & C & HD & Hc).
  pose proof (v_enqueue _ _ _ _ V). pose proof (v_dequeue _ _ _ _ V). pose proof (v_room _ _ _ _ V). split_and!; try lia.
  - intros (t & c & v & pos & p & Ht & Hp & Hcell & Hlt). rewrite (place_index _ _ _ _ C) in *.
    assert (owned c = Some pos) as Ho by (by destruct c).
    pose proof (proj2 (owner_knows _ _ _ C t c v pos Ht Ho) p Hcell). lia.
  - intros p r Hp. destruct (v_taken _ _ _ _ V p r Hp) as (_ & -> & [v Hv] & _). exists v. by rewrite Hv.
  - apply (v_once _ _ _ _ V).
  - intros p Hp. destruct (v_all _ _ _ _ V p ltac:(lia)) as [|[t Ht]]; [by left|right]. exists t.
    rewrite list_lookup_fmap in Ht. destruct (workers s !! t) as [[c v]|]; simplify_eq/=. by exists v.
  - intros t c v. by eapply order_step_defined.
Qed.

End orders.
Arguments machine : clear implicits.
Arguments orders : clear implicits.

(** ** Schedules *)

Inductive order_move (T : Type) : Type := Begin (t : nat) (c : pc T) | Act (t : nat) (ch : choice).
Arguments Begin {T} t c.
Arguments Act {T} t ch.

Definition begins {T} (c : pc T) : bool := match c with PushLoad _ | PopLoad => true | _ => false end.

Definition play_order {T} (s : orders T) (mv : order_move T) : option (orders T * label T) :=
  match mv with
  | Begin t c =>
      w ← workers s !! t;
      if is_rest w.1 && begins c then Some (Orders (heap s) (<[t := (c, w.2)]> (workers s)), Silent) else None
  | Act t ch =>
      w ← workers s !! t; r ← order_step (heap s) w ch;
      Some (Orders r.1.1 (<[t := r.1.2]> (workers s)), r.2)
  end.

Fixpoint play_orders {T} (s : orders T) (ms : list (order_move T)) : option (orders T * list (label T)) :=
  match ms with
  | [] => Some (s, [])
  | mv :: ms => r ← play_order s mv; r' ← play_orders r.1 ms; Some (r'.1, r.2 :: r'.2)
  end.

Lemma play_orders_exec {T} (s : orders T) ms s' ls : play_orders s ms = Some (s', ls) -> exec s ls s'.
Proof.
  revert s ls. induction ms as [|mv ms IH]; intros s ls H; simpl in H; [simplify_eq; apply exec_nil|].
  destruct (play_order s mv) as [[s1 l]|] eqn:Em; simpl in H; [|done].
  destruct (play_orders s1 ms) as [[s2 ls']|] eqn:Ep; simplify_eq/=. apply (exec_cons _ _ s1); [|by apply IH].
  destruct s as [m ws]. destruct mv as [t c|t ch]; cbn [play_order workers heap mbind option_bind] in Em; destruct (ws !! t) as [[d v]|] eqn:Ew; cbn [mbind option_bind] in Em; try done.
  - destruct d, c; simplify_eq/=; by constructor.
  - destruct (order_step m (d, v) ch) as [[[m1 w1] l1]|] eqn:Ea; [|by simplify_eq]. simplify_eq/=. by eapply orders_advance.
Qed.

(** A producer pushes 7 and 8; a consumer first reads the initial, stale sequence and finds the queue empty, then
    takes 7, while the producer has already filled the next slot. *)
Definition stale_reads : list (order_move nat) :=
  let go t r w := Act t (Choice r w false) in
  [Begin 0 (PushLoad 7); go 0 0 0; go 0 0 0; go 0 0 0; go 0 0 0; go 0 0 5; go 0 0 0;
   Begin 1 PopLoad; go 1 0 0; go 1 0 0; go 1 0 0;
   Begin 0 (PushLoad 8); go 0 1 0; go 0 0 0; Act 0 (Choice 1 0 true); go 0 0 0; go 0 1 0; go 0 0 0;
   Begin 1 PopLoad; go 1 0 0; go 1 5 0; go 1 0 0; go 1 0 0; go 1 0 6; go 1 0 0]%nat.

Lemma memory_orders_suffice_witness :
  exists s0 s es, initial s0 /\ exec s0 es s /\ accepted es = [7; 8]%nat /\ takings es = [(0, Some 7%nat)] /\ Popped None ∈ es /\
    ~ racing s /\ (forall p r, (p, r) ∈ takings es -> exists v, r = Some v /\ accepted es !! Z.to_nat p = Some v).
Proof.
  pose (q0 := Queue (T := nat) [Slot 0 None; Slot 1 None] 1 0 0). pose (s0 := Orders (fresh q0) (replicate 2 (Rest, bottom))).
  assert (initial s0) as Hi by (exists 2, q0, 2%nat; split; [reflexivity|split; [lia|reflexivity]]).
  destruct (play_orders s0 stale_reads) as [[s es]|] eqn:E; [|exfalso; assert (is_Some (play_orders s0 stale_reads)) as [? E'] by (vm_compute; by eexists); congruence].
  assert (snd <$> play_orders s0 stale_reads = Some es) as Ees by (by rewrite E). pose proof (play_orders_exec _ _ _ _ E) as Hx.
  vm_compute in Ees. injection Ees as Ees. exists s0, s, es. split; [exact Hi|]. split; [exact Hx|].
  split; [by rewrite <- Ees|]. split; [by rewrite <- Ees|]. split; [rewrite <- Ees; apply (list_elem_of_lookup_2 _ 10); reflexivity|].
  destruct (memory_orders_suffice s0 s es Hi) as (Hr & Ht & _); [by vm_compute|exact Hx|rewrite <- Ees; by vm_compute|]. by split.
Defined.
