(* ===== verification/Heap.v ===== *)
(** * std::push_heap and std::pop_heap

    The standard describes them by what they do to a range, not by an algorithm: [HeapImpl] is that
    contract, for the sift-up and sift-down of any library.  [lt x y]: [x] is ordered before [y],
    and the greatest element is at the front. *)

From S2P Require Import Prelude StdAlgo.

(** No child is greater than its parent. *)
Definition is_heap {A} (lt : A -> A -> bool) (l : list A) : Prop :=
  forall i p c, 0 < i -> l !! i = Some c -> l !! ((i - 1) / 2) = Some p -> lt p c = false.

Class HeapImpl {A} (lt : A -> A -> bool) (push_heap pop_heap : list A -> list A) : Prop := {
  (** [[first, last - 1)] is a heap; the element at [last - 1] is inserted into it. *)
  push_heap_perm l x : is_heap lt l -> push_heap (l ++ [x]) ≡ₚ x :: l;
  push_heap_heap l x : is_heap lt l -> is_heap lt (push_heap (l ++ [x]));
  (** The front moves to the back, and the rest is a heap again. *)
  pop_heap_back x l : is_heap lt (x :: l) ->
    exists l', pop_heap (x :: l) = l' ++ [x] /\ l' ≡ₚ l /\ is_heap lt l'
}.

Section heap.
Context {A} (lt : A -> A -> bool) `{!StrictWeakOrder lt}.

(** The front of a heap is a greatest element. *)
Lemma heap_front x l : is_heap lt (x :: l) -> Forall (fun y => lt x y = false) (x :: l).
Proof.
  intros H. apply Forall_lookup. intros i. induction (lt_wf i) as [i _ IH]. intros y Hy.
  destruct (decide (i = 0)) as [->|Hi]; [simpl in Hy; simplify_eq; apply swo_irrefl|].
  assert ((i - 1) / 2 < i) as Hlt by (apply Nat.Div0.div_lt_upper_bound; lia).
  destruct (lookup_lt_is_Some_2 (x :: l) ((i - 1) / 2)) as [p Hp]; [apply lookup_lt_Some in Hy; lia|].
  apply (swo_ge_trans lt x p y); [by apply (IH _ Hlt)|]. by apply (H i p y); [lia|..].
Qed.

Lemma is_heap_nil : is_heap lt [].
Proof. intros i p c _ H. by rewrite lookup_nil in H. Qed.

(** ** A heap that is kept sorted: one lawful implementation *)

Definition greatest_first : list A -> list A := stable_sort (fun x y => lt y x).

Definition sorting_push (l : list A) : list A := greatest_first l.
Definition sorting_pop (l : list A) : list A :=
  match l with [] => [] | x :: l => greatest_first l ++ [x] end.

#[local] Instance flipped_order : StrictWeakOrder (fun x y => lt y x).
Proof.
  split; intros; [apply swo_irrefl|by eapply swo_trans|].
  match goal with H : lt ?z ?x = true |- _ => destruct (swo_cotrans z y x H); auto end.
Qed.

Lemma greatest_first_heap l : is_heap lt (greatest_first l).
Proof.
  pose proof (stable_sort_sorted (fun x y => lt y x) l) as Hs. intros i p c Hi Hc Hp.
  unfold sorted in Hs. unfold greatest_first in *. generalize dependent (stable_sort (fun x y => lt y x) l). intros l' Hs Hc Hp.
  assert ((i - 1) / 2 < i) as Hlt by (apply Nat.Div0.div_lt_upper_bound; lia).
  revert Hs Hc Hp Hlt. generalize ((i - 1) / 2). clear Hi. revert i. induction l' as [|x l' IH]; intros i j Hs Hc Hp Hlt; [done|].
  inversion Hs as [|? ? Hs' Hx]; subst. destruct i as [|i]; [lia|]. simpl in Hc. destruct j as [|j]; simpl in Hp.
  - simplify_eq. rewrite Forall_lookup in Hx. by eapply Hx.
  - apply (IH i j); [done..|lia].
Qed.

#[export] Instance sorting_heap : HeapImpl lt sorting_push sorting_pop.
Proof.
  split.
  - intros l x _. unfold sorting_push, greatest_first. rewrite stable_sort_perm. by rewrite Permutation_app_comm.
  - intros l x _. apply greatest_first_heap.
  - intros x l _. exists (greatest_first l). split_and!; [done|apply stable_sort_perm|apply greatest_first_heap].
Qed.

End heap.
