(* ===== verification/ThreadPool.v ===== *)
(** * ThreadPool (thread_pool.hpp): workers draining a stable priority queue

    The pool's mutex protects the heap, the sequence counter and the stop flag.  [take] is the
    critical section of [worker_loop], which a worker enters again after running each task until it
    is told to exit.  [T] is the type-erased task: running
    it is the business of the worker, outside the lock.  [push_heap] and [pop_heap] are the
    standard library's. *)

From S2P Require Import Prelude StdAlgo Heap Monitor Wakeups.
Open Scope Z_scope.

Section pool.
Context {T : Type}.

Record QueuedTask := Queued { priority : Z; sequence : Z; run : T }.

(** Heap "less": lower priority first, then later submission. *)
Definition runs_later (left right : QueuedTask) : bool :=
  if negb (priority left =? priority right) then priority left <? priority right else sequence right <? sequence left.

#[export] Instance runs_later_order : StrictWeakOrder runs_later.
Proof. unfold runs_later. split; intros; repeat case_match; bools; try lia. Qed.

Context (push_heap pop_heap : list QueuedTask -> list QueuedTask).

Record pool := Pool { heap_ : list QueuedTask; next_sequence_ : Z; stopping_ : bool }.

Definition new_pool : pool := Pool [] 0 false.

(** The constructor: its precondition; the workers it starts are the pool's own threads. *)
Context (thread_count : nat).

Definition make : outcome pool := if (thread_count =? 0)%nat then Throw invalid_argument else Ret new_pool.

Inductive call : Type := submit (prio : Z) (task : T) | shutdown | pending | take.

Inductive answer : Type :=
  | Submitted (q : QueuedTask)
  | Rejected (e : exn)
  | Stopping
  | Pending (n : nat)
  | Start (q : QueuedTask)
  | Exit.

Abbreviation section := (verdict pool unit unit answer).

Definition submit_section (prio : Z) (task : T) (d : pool) : section :=
  if stopping_ d then Finish d [] (Rejected logic_error)
  else
    let q := Queued prio (next_sequence_ d) task in
    Finish (Pool (push_heap (heap_ d ++ [q])) (u64 (next_sequence_ d + 1)) (stopping_ d)) [NotifyOne tt] (Submitted q).

(** [heap_.back()] after [pop_heap], and the vector without it; on an empty vector both are
    undefined ([None], never reached). *)
Definition pop_back (l : list QueuedTask) : option (QueuedTask * list QueuedTask) :=
  match rev l with [] => None | x :: l => Some (x, rev l) end.

Definition take_section (d : pool) : section :=
  if stopping_ d || negb (bool_decide (heap_ d = [])) then
    if bool_decide (heap_ d = []) then Finish d [] Exit
    else
      match pop_back (pop_heap (heap_ d)) with
      | Some (task, rest) => Finish (Pool rest (next_sequence_ d) (stopping_ d)) [] (Start task)
      | None => Finish d [] Exit
      end
  else Block d tt tt.

Definition pool_start (c : call) (d : pool) : section :=
  match c with
  | submit prio task => submit_section prio task d
  | shutdown => Finish (Pool (heap_ d) (next_sequence_ d) true) [NotifyAll tt] Stopping
  | pending => Finish d [] (Pending (length (heap_ d)))
  | take => take_section d
  end.

(** A client thread, a worker in [worker_loop] (or in the task it runs), and a worker that has
    returned from it. *)
Inductive life : Set := client | worker | returned.

(** [worker_loop] is private; tasks may submit but must not shut the pool down. *)
Definition may_call (l : life) (c : call) : bool :=
  match l, c with
  | client, take | worker, shutdown | returned, _ => false
  | _, _ => true
  end.

#[export] Instance thread_pool : Monitor pool unit unit answer call life := {
  start := pool_start;
  resume _ _ d := take_section d;
  timed _ := false;
  initial_data d := make = Ret d;
  own_locals := replicate thread_count worker;
  fresh_local := client;
  permitted := may_call;
  settle l r := match r with Exit => returned | _ => l end
}.

(** ** Traces *)

Abbreviation state := (mstate pool unit unit answer life).
Abbreviation thread := (thread unit unit answer life).
Abbreviation event := (event answer call).

Definition answer_of (e : event) : option answer := match e with Called _ _ r | Resumed _ r => r | _ => None end.

(** The tasks accepted, in order of submission, and those handed to workers, in order of start. *)
Definition submitted (es : list event) : list QueuedTask :=
  omap (fun e => match answer_of e with Some (Submitted q) => Some q | _ => None end) es.
Definition started (es : list event) : list QueuedTask :=
  omap (fun e => match answer_of e with Some (Start q) => Some q | _ => None end) es.

Context `{!HeapImpl runs_later push_heap pop_heap}.

Lemma take_cases d :
  is_heap runs_later (heap_ d) ->
  (heap_ d = [] /\ stopping_ d = false /\ take_section d = Block d tt tt) \/
  (heap_ d = [] /\ stopping_ d = true /\ take_section d = Finish d [] Exit) \/
  (exists q rest, heap_ d ≡ₚ q :: rest /\ is_heap runs_later rest /\ Forall (fun q' => runs_later q q' = false) (heap_ d) /\
    take_section d = Finish (Pool rest (next_sequence_ d) (stopping_ d)) [] (Start q)).
Proof.
  intros Hh. unfold take_section. destruct d as [h n st]. simpl in *. destruct h as [|q h].
  - rewrite bool_decide_eq_true_2 by done. destruct st; simpl; [right; left|left]; done.
  - right; right. rewrite bool_decide_eq_false_2 by done. rewrite orb_true_r.
    destruct (pop_heap_back (lt := runs_later) q h Hh) as (rest & Hp & Hperm & Hrest). exists q, rest.
    split_and!; [by rewrite Hperm|done|apply (heap_front runs_later); exact Hh|]. unfold pop_back. rewrite Hp, rev_app_distr. simpl. by rewrite rev_involutive.
Qed.

Record accounts (es : list event) (d : pool) : Prop := {
  a_tasks : started es ++ heap_ d ≡ₚ submitted es;
  a_index : forall i q, submitted es !! i = Some q -> sequence q = Z.of_nat i;
  a_next : next_sequence_ d = Z.of_nat (length (submitted es));
  a_heap : is_heap runs_later (heap_ d)
}.

Lemma submitted_app es es' : submitted (es ++ es') = submitted es ++ submitted es'.
Proof. apply omap_app. Qed.
Lemma started_app es es' : started (es ++ es') = started es ++ started es'.
Proof. apply omap_app. Qed.

(** A section that neither accepts nor starts a task. *)
Lemma accounts_quiet es d d' e :
  accounts es d -> heap_ d' = heap_ d -> next_sequence_ d' = next_sequence_ d -> submitted [e] = [] -> started [e] = [] ->
  accounts (es ++ [e]) d'.
Proof.
  intros [H1 H2 H3 H4] Eh En Es Et. split; rewrite ?submitted_app, ?started_app, ?Es, ?Et, ?app_nil_r, ?Eh, ?En; done.
Qed.

Lemma accounts_take es d :
  accounts es d -> forall e, answer_of e = result (take_section d) -> accounts (es ++ [e]) (verdict_data (take_section d)).
Proof.
  intros A e He. destruct (take_cases d (a_heap _ _ A)) as [(Hh & Hst & E)|[(Hh & Hst & E)|(q & rest & Hp & Hr & _ & E)]]; rewrite E in *; simpl in *.
  - apply (accounts_quiet es d); try done; unfold submitted, started; simpl; by rewrite He.
  - apply (accounts_quiet es d); try done; unfold submitted, started; simpl; by rewrite He.
  - assert (submitted [e] = [] /\ started [e] = [q]) as [Es Et] by (unfold submitted, started; simpl; by rewrite He).
    destruct A as [H1 H2 H3 H4]. split; rewrite ?submitted_app, ?started_app, ?Es, ?Et, ?app_nil_r; try done.
    rewrite <- H1, Hp. simpl. by rewrite <- app_assoc.
Qed.

Lemma accounts_start es d c e :
  accounts es d -> answer_of e = result (pool_start c d) -> Z.of_nat (length (submitted (es ++ [e]))) < 2 ^ 64 ->
  accounts (es ++ [e]) (verdict_data (pool_start c d)).
Proof.
  intros A He Hb. destruct c as [prio task| | |]; simpl in *.
  - unfold submit_section in *. destruct (stopping_ d) eqn:Est; simpl in *.
    { apply (accounts_quiet es d); try done; unfold submitted, started; simpl; by rewrite He. }
    set (q := Queued prio (next_sequence_ d) task) in *.
    assert (submitted [e] = [q] /\ started [e] = []) as [Es Et] by (unfold submitted, started; simpl; by rewrite He).
    rewrite submitted_app, Es, length_app in Hb. simpl in Hb.
    destruct A as [H1 H2 H3 H4]. split; simpl; rewrite ?submitted_app, ?started_app, ?Es, ?Et, ?app_nil_r.
    + rewrite push_heap_perm by done. rewrite <- H1, <- app_assoc. apply Permutation_app_head. by rewrite Permutation_app_comm.
    + intros i q' [Hi|[Hi Hq]]%lookup_app_Some; [by apply H2|]. apply list_lookup_singleton_Some in Hq as [? <-]. simpl. lia.
    + rewrite length_app, wrap_small; simpl; lia.
    + by apply push_heap_heap.
  - apply (accounts_quiet es d); try done; unfold submitted, started; simpl; by rewrite He.
  - apply (accounts_quiet es d); try done; unfold submitted, started; simpl; by rewrite He.
  - by apply accounts_take.
Qed.

Lemma accounts_exec (s0 s : state) es :
  initial s0 -> exec s0 es s -> Z.of_nat (length (submitted es)) < 2 ^ 64 -> accounts es (data s).
Proof.
  intros [Hd _] Hx. revert Hd. induction Hx as [s|s es s1 e s2 Hx IH Hs]; intros Hd Hb.
  - simpl in Hd. unfold make in Hd. destruct (thread_count =? 0)%nat; simplify_eq. rewrite <- Hd. split; simpl; try done.
  - specialize (IH Hd). pose proof Hb as Hb'. rewrite submitted_app, length_app in Hb. specialize (IH ltac:(lia)).
    destruct Hs as [sa ea sb Hint|d ts t c l Ht Hp|d ts t c k l Ht|d ts t c k l Ht Hk]; simpl in *.
    + destruct Hint as [d ts t k e l Ht|d ts t c ns r l u k lu Ht Hu|d ts t c ns r l Ht Hn|d ts t c ns r l Ht|d ts t r l Ht]; simpl in *;
        [by apply accounts_take|by apply (accounts_quiet es d)..].
    + by apply accounts_start.
    + by apply (accounts_quiet es d).
    + by apply (accounts_quiet es d).
Qed.

(** ** Properties *)

Lemma start_takes (s1 s : state) e q :
  step s1 e s -> answer_of e = Some (Start q) -> result (take_section (data s1)) = Some (Start q) /\ data s = verdict_data (take_section (data s1)).
Proof.
  intros Hs He. destruct Hs as [sa ea sb Hint|d ts t c l Ht Hp|d ts t c k l Ht|d ts t c k l Ht Hk]; simpl in *; try done.
  - destruct Hint; simpl in *; done.
  - destruct c; simpl in *; try done. unfold submit_section in He. by destruct (stopping_ d).
Qed.

(** C24. Tasks start in priority order, ties in submission order.  Whenever a worker is handed a task, in any
    execution of any number of clients and workers, that task is one of those accepted and not
    started yet, and each of these has a lower priority, or the same priority and a later place in
    the order of submission.  [sequence] is that place: the [i]-th accepted task has number [i]. *)
Theorem starts_in_priority_order (s0 s : state) es e q :
  initial s0 -> exec s0 (es ++ [e]) s -> answer_of e = Some (Start q) -> Z.of_nat (length (submitted es)) < 2 ^ 64 ->
  exists waiting, started es ++ q :: waiting ≡ₚ submitted es /\
    (forall i q', submitted es !! i = Some q' -> sequence q' = Z.of_nat i) /\
    Forall (fun q' => priority q' < priority q \/ (priority q' = priority q /\ sequence q < sequence q')) waiting.
Proof.
  intros Hi Hx He Hb. apply exec_last in Hx as (s1 & Hx & Hs).
  destruct (accounts_exec s0 s1 es Hi Hx Hb) as [H1 H2 H3 H4]. destruct (start_takes _ _ _ _ Hs He) as [Hr _].
  destruct (take_cases (data s1) H4) as [(_ & _ & E)|[(_ & _ & E)|(q0 & rest & Hp & _ & Hmax & E)]]; rewrite E in Hr; simpl in Hr; simplify_eq.
  exists rest. rewrite <- Hp. split_and!; [done..|].
  assert (NoDup (map sequence (submitted es))) as Hnd.
  { apply NoDup_alt. intros i j x Hx1 Hx2. rewrite list_lookup_fmap in Hx1, Hx2.
    destruct (submitted es !! i) as [a|] eqn:Ea, (submitted es !! j) as [b|] eqn:Eb; simplify_eq/=.
    pose proof (H2 _ _ Ea). pose proof (H2 _ _ Eb). lia. }
  rewrite <- H1, Hp in Hnd. rewrite map_app in Hnd. apply NoDup_app in Hnd as (_ & _ & Hnd). simpl in Hnd.
  apply NoDup_cons in Hnd as [Hnew _]. rewrite Hp in Hmax. apply Forall_cons in Hmax as [_ Hmax].
  apply Forall_forall. intros q' Hq'. rewrite Forall_forall in Hmax. specialize (Hmax q' Hq').
  assert (sequence q <> sequence q') by (intros Eq; apply Hnew; rewrite Eq; by apply list_elem_of_fmap_2).
  unfold runs_later in Hmax. repeat case_match; bools; lia.
Qed.

Definition has_returned (th : thread) : bool := match local th with returned => true | _ => false end.

Lemma heap_reachable (s : state) : reachable s -> is_heap runs_later (heap_ (data s)).
Proof.
  apply (data_invariant (fun d => is_heap runs_later (heap_ d))).
  - intros d Hm. simpl in Hm. unfold make in Hm. destruct (thread_count =? 0)%nat; simplify_eq. apply is_heap_nil.
  - intros c d Hh. destruct c as [prio task| | |]; simpl; try done.
    + unfold submit_section. destruct (stopping_ d); simpl; [done|]. by apply push_heap_heap.
    + destruct (take_cases d Hh) as [(_ & _ & ->)|[(_ & _ & ->)|(q & rest & _ & Hr & _ & ->)]]; done.
  - intros k e d Hh. simpl. destruct (take_cases d Hh) as [(_ & _ & ->)|[(_ & _ & ->)|(q & rest & _ & Hr & _ & ->)]]; done.
Qed.

(** No worker returns before the pool is stopping and empty, and then it stays so. *)
Definition returns_late (d : pool) (ts : list thread) : Prop :=
  is_heap runs_later (heap_ d) /\ ((0 < count has_returned ts)%nat -> stopping_ d = true /\ heap_ d = []).

Lemma returns_late_take d ts t st l :
  returns_late d ts -> ts !! t = Some (Thread st l) -> returns_late (verdict_data (take_section d)) (<[t := conclude l (take_section d)]> ts).
Proof.
  intros [Hh Hl] Ht. destruct (take_cases d Hh) as [(H1 & H2 & ->)|[(H1 & H2 & ->)|(q & rest & Hp & Hr & _ & ->)]]; (split; [done|]); simpl;
    intros Hpos; count_step has_returned; unfold has_returned in *; simpl in *; [apply Hl; lia|done|].
  destruct Hl as [_ Hl]; [lia|]. rewrite Hl in Hp. by apply Permutation_nil_cons in Hp.
Qed.

Lemma returns_late_reachable (s : state) : reachable s -> returns_late (data s) (threads s).
Proof.
  apply (monitor_invariant returns_late).
  - intros d n Hm. simpl in Hm. unfold make in Hm. destruct (thread_count =? 0)%nat; simplify_eq. split; [apply is_heap_nil|].
    rewrite count_initial by (intros l [->|Hl]%elem_of_cons; [done|by apply elem_of_replicate_inv in Hl as ->]). lia.
  - intros d ts t c l R Ht Hp. destruct c as [prio task| | |]; simpl.
    + unfold submit_section. destruct R as [Hh Hl]. destruct (stopping_ d) eqn:Est; (split; simpl; [by try apply push_heap_heap|]);
        intros Hpos; count_step has_returned; unfold has_returned in *; simpl in *; (destruct Hl as [Hl1 Hl2]; [lia|]); (congruence || done).
    + destruct R as [Hh Hl]. split; [done|]. simpl. intros Hpos. count_step has_returned. unfold has_returned in *. simpl in *.
      destruct Hl as [Hl1 Hl2]; [lia|done].
    + destruct R as [Hh Hl]. split; [done|]. simpl. intros Hpos. count_step has_returned. unfold has_returned in *. simpl in *.
      destruct Hl as [Hl1 Hl2]; [lia|done].
    + by eapply returns_late_take.
  - intros d ts t k e l R Ht. by eapply returns_late_take.
  - intros d ts t c ns r l u k lu [Hh Hl] Hn Ht Hu. split; [done|]. intros Hpos. count_step has_returned. unfold has_returned in *. simpl in *. apply Hl. lia.
  - intros d ts t c ns r l [Hh Hl] Ht Hz. split; [done|]. intros Hpos. count_step has_returned. unfold has_returned in *. simpl in *. apply Hl. lia.
  - intros d ts t c ns r l [Hh Hl] Ht. split; [done|]. intros Hpos. pose proof (count_map_wake has_returned c ts ltac:(done)).
    count_step has_returned. unfold has_returned in *. simpl in *. apply Hl. lia.
  - intros d ts t r l [Hh Hl] Ht. split; [done|]. intros Hpos. count_step has_returned. unfold has_returned in *. simpl in *. apply Hl. lia.
  - intros d ts t c k e l [Hh Hl] Ht He. split; [done|]. intros Hpos. count_step has_returned. unfold has_returned in *. simpl in *. apply Hl. lia.
Qed.

(** C25. Shutdown drains.  At every moment the accepted tasks are those started and those still queued, each
    once: none is invented, lost or started twice.  And if some worker has returned, then the pool is stopping
    and every accepted task has been started. *)
Theorem shutdown_drains (s0 s : state) es :
  initial s0 -> exec s0 es s -> Z.of_nat (length (submitted es)) < 2 ^ 64 ->
  started es ++ heap_ (data s) ≡ₚ submitted es /\
  ((exists t th, threads s !! t = Some th /\ local th = returned) -> stopping_ (data s) = true /\ started es ≡ₚ submitted es).
Proof.
  intros Hi Hx Hb. destruct (accounts_exec s0 s es Hi Hx Hb) as [H1 _ _ _]. split; [done|]. intros Hret.
  destruct Hret as (t & th & Ht & Hl). assert (reachable s) as Hr by (by eapply exec_reachable, reach_init).
  destruct (returns_late_reachable s Hr) as [_ Hlate]. destruct Hlate as [Hst Hh].
  { apply (count_pos _ _ _ _ Ht). unfold has_returned. by rewrite Hl. }
  split; [done|]. by rewrite <- H1, Hh, app_nil_r.
Qed.

(** ** Wake-ups *)

(** Every queued task is work for one sleeping worker, until the pool is stopping. *)
Abbreviation books := (wakes_enough tt (fun _ => true) (fun _ => true) (fun d => negb (stopping_ d)) (fun d => length (heap_ d))).

Lemma take_wakes d spent : (spent <= 1)%nat -> is_heap runs_later (heap_ d) -> books spent d (take_section d).
Proof.
  intros Hs Hh. destruct (take_cases d Hh) as [(H1 & H2 & ->)|[(H1 & H2 & ->)|(q & rest & Hp & Hr & _ & ->)]]; simpl.
  - rewrite H1, H2. simpl. intuition (auto; done).
  - right. by rewrite H2.
  - right. intros Hg. split; [done|]. right. apply Permutation_length in Hp. simpl in Hp. lia.
Qed.

Lemma pool_start_wakes l c d : may_call l c = true -> is_heap runs_later (heap_ d) -> books 0 d (pool_start c d).
Proof.
  intros _ Hh. destruct c as [prio task| | |]; simpl; [| | |by apply take_wakes; [lia|]].
  - unfold submit_section. destruct (stopping_ d) eqn:E; simpl; right; rewrite E; simpl; [done|]. intros _. split; [done|].
    right. rewrite push_heap_perm by done. simpl. lia.
  - by left.
  - right. intros Hg. split; [done|]. right. lia.
Qed.

Lemma pool_start_heap l c d : may_call l c = true -> is_heap runs_later (heap_ d) -> is_heap runs_later (heap_ (verdict_data (pool_start c d))).
Proof.
  intros _ Hh. destruct c as [prio task| | |]; simpl; [|done|done|].
  - unfold submit_section. destruct (stopping_ d); [done|]. by apply push_heap_heap.
  - destruct (take_cases d Hh) as [(_ & _ & ->)|[(_ & _ & ->)|(q & rest & _ & Hr & _ & ->)]]; done.
Qed.

(** C26. No worker sleeps on work.  The activity under way after any reachable state dies out, and if a worker
    is then asleep, the queue is empty and the pool is not stopping: every submission and the shutdown
    wake the workers they must, although they notify after leaving the mutex. *)
Theorem sleepers_have_no_work (s : state) :
  reachable s ->
  sn internal_step s /\
  forall s', rtc internal_step s s' -> nf internal_step s' ->
    (exists t k c l, threads s' !! t = Some (Thread (Asleep c k) l)) -> heap_ (data s') = [] /\ stopping_ (data s') = false.
Proof.
  intros Hr. split; [apply internal_terminates|]. intros s' Hs Hnf (t & k & [] & l & Ht). pose proof (internal_reachable _ _ Hr Hs) as Hr'.
  destruct (asleep_at_rest (fun d => is_heap runs_later (heap_ d)) tt (fun _ => true) (fun _ => true) (fun d => negb (stopping_ d)) (fun d => length (heap_ d)))
    with (s := s') (t := t) (k := k) (l := l) as (_ & Hst & Hlen); try done.
  - intros d Hm. simpl in Hm. unfold make in Hm. destruct (thread_count =? 0)%nat; simplify_eq. apply is_heap_nil.
  - apply pool_start_heap.
  - intros k' e d. by apply (pool_start_heap worker take).
  - apply pool_start_wakes.
  - intros k' e d. by apply take_wakes.
  - by apply nf_at_rest.
  - apply nil_length_inv in Hlen. bools. done.
Qed.

End pool.

(** ** A session: two submissions of different priorities, a worker, and the shutdown *)

Definition push_tasks : list (QueuedTask (T := nat)) -> list QueuedTask := sorting_push runs_later.
Definition pop_tasks : list (QueuedTask (T := nat)) -> list QueuedTask := sorting_pop runs_later.
#[local] Instance demo_heap : HeapImpl runs_later push_tasks pop_tasks := sorting_heap runs_later.
#[local] Instance demo_pool : Monitor (pool (T := nat)) unit unit answer call life := thread_pool push_tasks pop_tasks 1.

Definition at_start : mstate (pool (T := nat)) unit unit (answer (T := nat)) life := MState new_pool [Thread Idle worker; Thread Idle client].

Lemma pool_at_start_initial : initial at_start.
Proof. split; [done|by exists 1%nat]. Qed.

Definition session : list (move (call (T := nat))) :=
  [DoCall 0 take; DoCall 1 (submit 1 10%nat); DoNotify 1 0; DoReturn 1; DoCall 1 (submit 5 11%nat); DoNotify 1 1; DoReturn 1].

Lemma starts_in_priority_order_witness :
  exists es s, run_moves at_start (session ++ [DoResume 0]) = Some (s, es ++ [Resumed 0 (Some (Start (Queued 5 1 11%nat)))]) /\
  exists waiting, started es ++ Queued 5 1 11%nat :: waiting ≡ₚ submitted es /\
    (forall i q', submitted es !! i = Some q' -> sequence q' = Z.of_nat i) /\
    Forall (fun q' => priority q' < 5 \/ (priority q' = 5 /\ 1 < sequence q')) waiting.
Proof.
  destruct (run_moves at_start (session ++ [DoResume 0])) as [[s es]|] eqn:E; [|vm_compute in E; discriminate E].
  pose proof (run_moves_exec _ _ _ _ E) as Hx. vm_compute in E. injection E as Es Ees.
  exists (firstn 7%nat es), s. rewrite <- Ees. split; [reflexivity|].
  apply (starts_in_priority_order push_tasks pop_tasks 1 at_start s _ (Resumed 0 (Some (Start (Queued 5 1 11%nat)))) (Queued 5 1 11%nat) pool_at_start_initial);
    [rewrite <- Ees in Hx; exact Hx|reflexivity|by vm_compute].
Defined.

Lemma shutdown_drains_witness :
  exists es s, run_moves at_start (session ++ [DoResume 0; DoReturn 0; DoCall 1 shutdown; DoCall 0 take; DoReturn 0; DoCall 0 take]) = Some (s, es) /\
    stopping_ (data s) = true /\ started es ≡ₚ submitted es.
Proof.
  destruct (run_moves at_start _) as [[s es]|] eqn:E; [|vm_compute in E; discriminate E].
  pose proof (run_moves_exec _ _ _ _ E) as Hx. vm_compute in E. injection E as Es Ees. exists es, s. split; [reflexivity|].
  apply (shutdown_drains push_tasks pop_tasks 1 at_start s es pool_at_start_initial Hx); [rewrite <- Ees; by vm_compute|].
  rewrite <- Es. by exists 0%nat, (Thread (Leaving [] Exit) returned).
Defined.

#[local] Instance pair_pool : Monitor (pool (T := nat)) unit unit answer call life := thread_pool push_tasks pop_tasks 2.

(** Two workers asleep, and a client that has just submitted a task and not notified yet: the activity under way wakes one of them, which takes the
    task; the other one stays asleep, and nothing is left. *)
Definition two_asleep : mstate (pool (T := nat)) unit unit (answer (T := nat)) life :=
  MState new_pool [Thread Idle worker; Thread Idle worker; Thread Idle client].

Lemma sleepers_have_no_work_witness :
  exists es1 s1 es2 s2,
    run_moves two_asleep [DoCall 0 take; DoCall 1 take; DoCall 2 (submit 1 10%nat)] = Some (s1, es1) /\
    heap_ (data s1) = [Queued 1 0 10%nat] /\ (exists c k, threads s1 !! 0%nat = Some (Thread (Asleep c k) worker)) /\
    run_moves s1 [DoNotify 2 0; DoReturn 2; DoResume 0; DoReturn 0] = Some (s2, es2) /\
    (exists c k, threads s2 !! 1%nat = Some (Thread (Asleep c k) worker)) /\ nf internal_step s2 /\
    sn internal_step s1 /\ heap_ (data s2) = [] /\ stopping_ (data s2) = false.
Proof.
  destruct (run_moves two_asleep _) as [[s1 es1]|] eqn:E1; [|vm_compute in E1; discriminate E1].
  destruct (run_moves s1 [DoNotify 2 0; DoReturn 2; DoResume 0; DoReturn 0]) as [[s2 es2]|] eqn:E2; [|vm_compute in E1; injection E1 as <- <-; vm_compute in E2; discriminate E2].
  assert (reachable s1) as Hr by (eapply exec_reachable; [by eapply run_moves_exec|apply reach_init; split; [done|by exists 1%nat]]).
  pose proof (run_moves_internal s1 [DoNotify 2 0; DoReturn 2; DoResume 0; DoReturn 0] s2 es2 eq_refl E2) as Hs. destruct (sleepers_have_no_work push_tasks pop_tasks 2 s1 Hr) as [Hsn H]. specialize (H s2 Hs).
  assert ((heap_ (data s1) = [Queued 1 0 10%nat] /\ exists c k, threads s1 !! 0%nat = Some (Thread (Asleep c k) worker)) /\
      nf internal_step s2 /\ exists c k, threads s2 !! 1%nat = Some (Thread (Asleep c k) worker)) as [[H1 H2] [Hn (c & k & Ha)]].
  { clear H Hs Hsn Hr. vm_compute in E1. injection E1 as <- <-. vm_compute in E2. injection E2 as <- <-.
    split; [split; [reflexivity|by eexists _, _]|split; [apply rest_nf; by split|by eexists _, _]]. }
  destruct (H Hn) as [Hh Hst]; [by exists 1%nat, k, c, worker|].
  exists es1, s1, es2, s2. split; [reflexivity|]. split; [exact H1|]. split; [exact H2|]. split; [exact E2|]. split; [by exists c, k|].
  split; [exact Hn|]. split; [exact Hsn|]. by split.
Defined.
