(* ===== verification/TaskFuture.v ===== *)
(** * TaskFuture and TaskPromise (task_future.hpp)

    [SharedTaskState] is a monitor ([shared_state]).  The two ends are handles to it; their
    operations are functions on a memory of shared states.  [T] is the payload and [X] what a task
    can throw (an [exception_ptr]). *)

From S2P Require Import Prelude Monitor Wakeups.

Section future.
Context {T X : Type}.

(** The variant: empty, a value ([None] once it has been moved out), or an exception. *)
Inductive alternative : Type := Empty | Value (v : option T) | Error (x : X).

Record shared := Shared { result_ : alternative; abandoned_ : bool }.

Definition fresh_state : shared := Shared Empty false.

Definition is_empty (a : alternative) : bool := match a with Empty => true | _ => false end.
Definition has_outcome (d : shared) : bool := negb (is_empty (result_ d)) || abandoned_ d.

Inductive call : Type :=
  | set_value (v : T) | set_exception (x : X) | abandon | is_ready | wait | wait_for | wait_until | get.

(** What [get] can throw: the task's exception, [BrokenTaskPromise]; and what a setter can. *)
Inductive raised : Type := TaskError (x : X) | BrokenTaskPromise | AlreadySet.

Inductive answer : Type :=
  | Stored (a : alternative)
  | Abandoned (took_effect : bool)
  | Readiness (b : bool)
  | Delivered (v : option T)
  | Raised (r : raised).

Inductive waiting : Set := in_wait | in_timed_wait | in_get.

Abbreviation section := (verdict shared unit waiting answer).

(** [ensure_unset], then the emplacement. *)
Definition store_section (a : alternative) (d : shared) : section :=
  if has_outcome d then Finish d [] (Raised AlreadySet)
  else Finish (Shared a (abandoned_ d)) [NotifyAll tt] (Stored a).

Definition abandon_section (d : shared) : section :=
  if is_empty (result_ d) && negb (abandoned_ d)
  then Finish (Shared (result_ d) true) [NotifyAll tt] (Abandoned true)
  else Finish d [] (Abandoned false).

(** [get] once there is an outcome. *)
Definition deliver (d : shared) : section :=
  match result_ d with
  | Error x => Finish d [] (Raised (TaskError x))
  | a =>
      if abandoned_ d then Finish d [] (Raised BrokenTaskPromise)
      else
        match a with
        | Value v => Finish (Shared (Value None) (abandoned_ d)) [] (Delivered v)
        | _ => Finish d [] (Delivered None)
        end
  end.

(** What follows a satisfied wait. *)
Definition satisfied (k : waiting) (d : shared) : section :=
  match k with
  | in_wait | in_timed_wait => Finish d [] (Readiness true)
  | in_get => deliver d
  end.

Definition wait_section (k : waiting) (d : shared) : section :=
  if has_outcome d then satisfied k d else Block d tt k.

Definition state_start (c : call) (d : shared) : section :=
  match c with
  | set_value v => store_section (Value (Some v)) d
  | set_exception x => store_section (Error x) d
  | abandon => abandon_section d
  | is_ready => Finish d [] (Readiness (has_outcome d))
  | wait => wait_section in_wait d
  | wait_for | wait_until => wait_section in_timed_wait d
  | get => wait_section in_get d
  end.

Definition state_resume (k : waiting) (expired : bool) (d : shared) : section :=
  if has_outcome d then satisfied k d
  else if expired then Finish d [] (Readiness false)
  else Block d tt k.

#[export] Instance shared_state : Monitor shared unit waiting answer call unit := {
  start := state_start;
  resume := state_resume;
  timed k := match k with in_timed_wait => true | _ => false end;
  initial_data d := d = fresh_state;
  own_locals := [];
  fresh_local := tt;
  permitted _ _ := true;
  settle l _ := l
}.

Abbreviation state := (mstate shared unit waiting answer unit).
Abbreviation thread := (thread unit waiting answer unit).
Abbreviation event := (event answer call).

Definition answer_of (e : event) : option answer := match e with Called _ _ r | Resumed _ r => r | _ => None end.

(** The outcomes stored, and whether an abandonment took effect. *)
Definition stored (es : list event) : list alternative :=
  omap (fun e => match answer_of e with Some (Stored a) => Some a | _ => None end) es.
Definition abandonments (es : list event) : list unit :=
  omap (fun e => match answer_of e with Some (Abandoned true) => Some tt | _ => None end) es.
Definition deliveries (es : list event) : list (option T) :=
  omap (fun e => match answer_of e with Some (Delivered v) => Some v | _ => None end) es.

(** ** The outcome is set once *)

(** What the history says about the state: nothing happened, or one outcome was stored (and
    perhaps moved out), or the promise was abandoned. *)
Inductive history (es : list event) (d : shared) : Prop :=
  | history_pending : stored es = [] -> abandonments es = [] -> deliveries es = [] -> d = fresh_state -> history es d
  | history_value v : stored es = [Value (Some v)] -> abandonments es = [] -> deliveries es = [] -> d = Shared (Value (Some v)) false -> history es d
  | history_moved v n : stored es = [Value (Some v)] -> abandonments es = [] -> deliveries es = Some v :: replicate n None ->
      d = Shared (Value None) false -> history es d
  | history_error x : stored es = [Error x] -> abandonments es = [] -> deliveries es = [] -> d = Shared (Error x) false -> history es d
  | history_abandoned : stored es = [] -> abandonments es = [tt] -> deliveries es = [] -> d = Shared Empty true -> history es d.

Lemma stored_app es es' : stored (es ++ es') = stored es ++ stored es'.
Proof. apply omap_app. Qed.
Lemma abandonments_app es es' : abandonments (es ++ es') = abandonments es ++ abandonments es'.
Proof. apply omap_app. Qed.
Lemma deliveries_app es es' : deliveries (es ++ es') = deliveries es ++ deliveries es'.
Proof. apply omap_app. Qed.

Ltac history_by c He H1 H2 H3 :=
  eapply c; rewrite ?stored_app, ?abandonments_app, ?deliveries_app, ?H1, ?H2, ?H3; unfold stored, abandonments, deliveries;
  simpl; rewrite ?He; done.

Ltac history_done He H1 H2 H3 :=
  first [ history_by history_pending He H1 H2 H3 | history_by history_value He H1 H2 H3
        | eapply history_moved with (n := 0); rewrite ?stored_app, ?abandonments_app, ?deliveries_app, ?H1, ?H2, ?H3;
            unfold stored, abandonments, deliveries; simpl; rewrite ?He; done
        | history_by history_error He H1 H2 H3 | history_by history_abandoned He H1 H2 H3 ].

Lemma history_moved_next es d v n r e :
  stored es = [Value (Some v)] -> abandonments es = [] -> deliveries es = Some v :: replicate n None -> d = Shared (Value None) false ->
  answer_of e = r -> r <> Some (Abandoned true) -> (forall a, r <> Some (Stored a)) ->
  (r = Some (Delivered None) \/ (forall w, r <> Some (Delivered w))) -> history (es ++ [e]) d.
Proof.
  intros H1 H2 H3 -> He Ha Hs Hd.
  assert (stored [e] = [] /\ abandonments [e] = []) as [E1 E2].
  { unfold stored, abandonments. simpl. rewrite He. destruct r as [[]|]; simpl; try done; [by destruct (Hs a)|].
    by destruct took_effect. }
  destruct Hd as [->|Hd].
  - apply (history_moved _ _ v (S n)); rewrite ?stored_app, ?abandonments_app, ?deliveries_app, ?H1, ?H2, ?H3, ?E1, ?E2; try done.
    unfold deliveries. simpl. rewrite He. simpl. f_equal. symmetry. apply (replicate_S_end n None).
  - assert (deliveries [e] = []) as E3.
    { unfold deliveries. simpl. rewrite He. destruct r as [[]|]; simpl; try done. by destruct (Hd v0). }
    apply (history_moved _ _ v n); rewrite ?stored_app, ?abandonments_app, ?deliveries_app, ?H1, ?H2, ?H3, ?E1, ?E2, ?E3, ?app_nil_r; done.
Qed.

Lemma history_start es d c e :
  history es d -> answer_of e = result (state_start c d) -> history (es ++ [e]) (verdict_data (state_start c d)).
Proof.
  intros H He. destruct H as [H1 H2 H3 ->|v H1 H2 H3 ->|v n H1 H2 H3 ->|x H1 H2 H3 ->|H1 H2 H3 ->].
  - destruct c; simpl in *; history_done He H1 H2 H3.
  - destruct c; simpl in *; history_done He H1 H2 H3.
  - destruct c; simpl in *; (eapply (history_moved_next es _ v n); [done..|exact He|done|done|]); auto; right; done.
  - destruct c; simpl in *; history_done He H1 H2 H3.
  - destruct c; simpl in *; history_done He H1 H2 H3.
Qed.

Lemma history_resume es d k ex e :
  history es d -> answer_of e = result (state_resume k ex d) -> history (es ++ [e]) (verdict_data (state_resume k ex d)).
Proof.
  intros H He. destruct H as [H1 H2 H3 ->|v H1 H2 H3 ->|v n H1 H2 H3 ->|x H1 H2 H3 ->|H1 H2 H3 ->].
  - destruct k, ex; simpl in *; history_done He H1 H2 H3.
  - destruct k; simpl in *; history_done He H1 H2 H3.
  - destruct k; simpl in *; (eapply (history_moved_next es _ v n); [done..|exact He|done|done|]); auto; right; done.
  - destruct k; simpl in *; history_done He H1 H2 H3.
  - destruct k; simpl in *; history_done He H1 H2 H3.
Qed.

Lemma history_exec (s0 s : state) es : initial s0 -> exec s0 es s -> history es (data s).
Proof.
  intros [Hd _] Hx. induction Hx as [s|s es s1 e s2 Hx IH Hs].
  - by apply history_pending.
  - specialize (IH Hd).
    assert (forall d e, history es d -> answer_of e = None -> history (es ++ [e]) d) as Hquiet.
    { clear. intros d e H He. assert (stored [e] = [] /\ abandonments [e] = [] /\ deliveries [e] = []) as (E1 & E2 & E3).
      { unfold stored, abandonments, deliveries. simpl. by rewrite He. }
      destruct H; [eapply history_pending|eapply history_value|eapply history_moved|eapply history_error|eapply history_abandoned];
        rewrite ?stored_app, ?abandonments_app, ?deliveries_app, ?E1, ?E2, ?E3, ?app_nil_r; done. }
    destruct Hs as [sa ea sb Hint|d ts t c l Ht Hp|d ts t c k l Ht|d ts t c k l Ht Hk]; simpl in *; [|by apply history_start|by apply Hquiet..].
    destruct Hint; simpl in *; [by apply history_resume|by apply Hquiet..].
Qed.

(** What an answer says about the history before it. *)
Definition justified (es : list event) (a : answer) : Prop :=
  match a with
  | Delivered (Some v) => stored es = [Value (Some v)] /\ deliveries es = []
  | Delivered None => exists v, stored es = [Value (Some v)] /\ deliveries es <> []
  | Raised (TaskError x) => stored es = [Error x]
  | Raised BrokenTaskPromise => stored es = [] /\ abandonments es = [tt]
  | Raised AlreadySet => stored es <> [] \/ abandonments es <> []
  | Readiness b => b = true <-> stored es <> [] \/ abandonments es <> []
  | Stored _ | Abandoned true => stored es = [] /\ abandonments es = []
  | Abandoned false => stored es <> [] \/ abandonments es <> []
  end.

Lemma justified_start es d c a : history es d -> result (state_start c d) = Some a -> justified es a.
Proof.
  intros [H1 H2 H3 ->|v H1 H2 H3 ->|v n H1 H2 H3 ->|x H1 H2 H3 ->|H1 H2 H3 ->]; destruct c; simpl; intros; simplify_eq; simpl;
    rewrite ?H1, ?H2, ?H3; try (exists v); intuition (auto || congruence).
Qed.

Lemma justified_resume es d k ex a : history es d -> result (state_resume k ex d) = Some a -> justified es a.
Proof.
  intros [H1 H2 H3 ->|v H1 H2 H3 ->|v n H1 H2 H3 ->|x H1 H2 H3 ->|H1 H2 H3 ->]; destruct k, ex; simpl; intros; simplify_eq; simpl;
    rewrite ?H1, ?H2, ?H3; try (exists v); intuition (auto || congruence).
Qed.

(** C27. One outcome, delivered once.  In any interleaving of setters, abandonments and getters on one shared
    state, at most one outcome is ever stored, or one abandonment takes effect, not both.  And each
    answer is justified by what happened before it: [get] returns the value that was stored, and only
    to the first getter; it rethrows the exception that was stored; it throws [BrokenTaskPromise]
    exactly on an abandoned state; a setter throws exactly when there is an outcome already; and
    readiness is reported exactly. *)
Theorem one_outcome (s0 s : state) es e a :
  initial s0 -> exec s0 (es ++ [e]) s -> answer_of e = Some a ->
  (length (stored (es ++ [e])) + length (abandonments (es ++ [e])) <= 1)%nat /\ justified es a.
Proof.
  intros Hi Hx He. split.
  - destruct (history_exec _ _ _ Hi Hx) as [H1 H2 _ _|v H1 H2 _ _|v n H1 H2 _ _|x H1 H2 _ _|H1 H2 _ _]; rewrite H1, H2; simpl; lia.
  - apply exec_last in Hx as (s1 & Hx & Hs). pose proof (history_exec _ _ _ Hi Hx) as Hh.
    destruct Hs as [sa ea sb Hint|d ts t c l Ht Hp|d ts t c k l Ht|d ts t c k l Ht Hk]; simpl in *; try done; [|by eapply justified_start].
    destruct Hint; simpl in *; try done. by eapply justified_resume.
Qed.

(** ** Wake-ups *)

Lemma satisfied_has_outcome k d : has_outcome (verdict_data (satisfied k d)) = has_outcome d.
Proof. unfold satisfied, deliver, has_outcome. destruct k, d as [[|[v|]|x] []]; done. Qed.

(** An outcome is for every waiter. *)
Abbreviation books := (wakes_enough tt (fun _ => true) (fun _ => true) (fun d => negb (has_outcome d)) (fun _ => 0%nat)).

Lemma state_start_wakes l c d : permitted l c = true -> True -> books 0 d (state_start c d).
Proof. intros _ _. destruct d as [[|[v|]|x] []], c; simpl; intuition (auto || done). Qed.

Lemma state_resume_wakes k e d : True -> books 1 d (state_resume k e d).
Proof. intros _. destruct d as [[|[v|]|x] []], k, e; simpl; intuition (auto || done). Qed.

(** No waiter sleeps on an outcome.  The activity under way after any reachable state dies out, and then, if
    there is an outcome (a value, an exception, or the abandonment of the promise), no thread is asleep. *)
Theorem outcome_wakes_all (s : state) :
  reachable s ->
  sn internal_step s /\
  forall s', rtc internal_step s s' -> nf internal_step s' -> has_outcome (data s') = true ->
    forall t c k l, threads s' !! t <> Some (Thread (Asleep c k) l).
Proof.
  intros Hr. split; [apply internal_terminates|]. intros s' Hs Hnf Ho t [] k l Ht. pose proof (internal_reachable _ _ Hr Hs) as Hr'.
  destruct (asleep_at_rest (fun _ => True) tt (fun _ => true) (fun _ => true) (fun d => negb (has_outcome d)) (fun _ => 0%nat))
    with (s := s') (t := t) (k := k) (l := l) as (_ & Hst & _); try done; [apply state_start_wakes|apply state_resume_wakes|by apply nf_at_rest|].
  by rewrite Ho in Hst.
Qed.

End future.

(** ** A getter that waits, and a setter *)

Definition at_start : mstate (shared (T := nat) (X := nat)) unit waiting (answer (T := nat) (X := nat)) unit :=
  MState fresh_state [Thread Idle tt; Thread Idle tt].

Lemma state_at_start_initial : initial at_start.
Proof. split; [done|by exists 2]. Qed.

Definition session : list (move (call (T := nat) (X := nat))) :=
  [DoCall 0 get; DoCall 1 (set_value 7); DoNotify 1 1; DoReturn 1].

Lemma one_outcome_witness :
  exists es s, run_moves at_start (session ++ [DoResume 0]) = Some (s, es ++ [Resumed 0 (Some (Delivered (Some 7)))]) /\
    stored es = [Value (Some 7)] /\ deliveries es = [].
Proof.
  destruct (run_moves at_start (session ++ [DoResume 0])) as [[s es]|] eqn:E; [|vm_compute in E; discriminate E].
  pose proof (run_moves_exec _ _ _ _ E) as Hx. vm_compute in E. injection E as Es Ees. exists (take 4 es), s.
  rewrite <- Ees. split; [reflexivity|]. rewrite <- Ees in Hx.
  apply (one_outcome at_start s [Called 0 get None; Called 1 (set_value 7) (Some (Stored (Value (Some 7)))); Notified 1;
    Returned 1 (Stored (Value (Some 7)))] (Resumed 0 (Some (Delivered (Some 7)))) (Delivered (Some 7)) state_at_start_initial Hx).
  reflexivity.
Defined.

Lemma outcome_wakes_all_witness :
  sn internal_step at_start /\
  forall s', rtc internal_step at_start s' -> nf internal_step s' -> has_outcome (data s') = true ->
    forall t c k l, threads s' !! t <> Some (Thread (Asleep c k) l).
Proof. apply (outcome_wakes_all at_start). apply reach_init, state_at_start_initial. Defined.
