(* ===== verification/TaskPromise.v ===== *)
(** * The two ends of a task handoff (task_future.hpp: TaskPromise, TaskFuture)

    A promise and a future are pointers into a memory of shared states.  The operations here are
    those that never block; a future's [get] is the section of [TaskFuture.get] on its state. *)

From S2P Require Import Prelude Monitor TaskFuture.

Section ends.
Context {T X : Type}.
Abbreviation shared := (shared (T := T) (X := X)).
Abbreviation memory := (gmap nat shared).

Record promise := Promise { state_ : option nat; future_retrieved_ : bool }.

(** A future is its [state_]; [None] is invalid. *)
Abbreviation future := (option nat).

(** [std::make_shared]: a state at a location not in use. *)
Definition new_promise (m : memory) : memory * promise :=
  let l := fresh (dom (D := gset nat) m) in (<[l := fresh_state]> m, Promise (Some l) false).

Definition checked_state (p : promise) : outcome nat :=
  match state_ p with Some l => Ret l | None => Throw logic_error end.

Definition get_future (p : promise) : outcome (promise * future) :=
  let! l := checked_state p in
  if future_retrieved_ p then Throw logic_error else Ret (Promise (state_ p) true, Some l).

(** A setter's section on the state of the promise. *)
Definition store (m : memory) (l : nat) (a : alternative) : outcome memory :=
  match m !! l with
  | None => Throw logic_error
  | Some d =>
      match store_section a d with
      | Finish d' _ (Stored _) => Ret (<[l := d']> m)
      | _ => Throw logic_error
      end
  end.

Definition promise_set_value (m : memory) (p : promise) (v : T) : outcome memory :=
  let! l := checked_state p in store m l (Value (Some v)).

(** [None] is a null [exception_ptr]. *)
Definition promise_set_exception (m : memory) (p : promise) (error : option X) : outcome memory :=
  match error with
  | None => Throw invalid_argument
  | Some x => let! l := checked_state p in store m l (Error x)
  end.

Definition abandon_if_owned (m : memory) (p : promise) : memory :=
  match state_ p with
  | Some l => match m !! l with Some d => <[l := verdict_data (abandon_section d)]> m | None => m end
  | None => m
  end.

(** The defaulted move constructor: the new promise, and what is left of the old. *)
Definition move_construct (p : promise) : promise * promise := (p, Promise None (future_retrieved_ p)).

(** Move assignment of another promise: the memory, and the two promises. *)
Definition move_assign (m : memory) (p other : promise) : memory * promise * promise :=
  (abandon_if_owned m p, Promise (state_ other) (future_retrieved_ other), Promise None (future_retrieved_ other)).

(** [TaskFuture::get] takes the state out of the future, whatever happens next. *)
Definition future_get (f : future) : future * outcome nat :=
  (None, match f with Some l => Ret l | None => Throw logic_error end).

Definition valid (f : future) : bool := match f with Some _ => true | None => false end.

(** The other operations of a future: the state they work on, and the operation ([SharedTaskState]) they run there. *)
Definition future_checked_state (f : future) : outcome nat :=
  match f with Some l => Ret l | None => Throw logic_error end.

Definition future_forward (c : TaskFuture.call (T := T) (X := X)) (f : future) : outcome (nat * TaskFuture.call (T := T) (X := X)) :=
  let! l := future_checked_state f in Ret (l, c).

Definition future_ready := future_forward is_ready.
Definition future_wait := future_forward wait.
Definition future_wait_for := future_forward wait_for.
Definition future_wait_until := future_forward wait_until.

(** Every operation but [valid] throws exactly on an invalid future, and a future is invalid after [get] or a move. *)
Lemma future_operations f :
  future_checked_state (future_get f).1 = Throw logic_error /\ (future_get f).2 = future_checked_state f /\
  forall c, (exists l, f = Some l /\ valid f = true /\ future_forward c f = Ret (l, c)) \/ (valid f = false /\ future_forward c f = Throw logic_error).
Proof. split_and!; [done|done|]. intros c. destruct f as [l|]; [left; by exists l|by right]. Qed.

(** ** Sessions of promise variables *)

Inductive command : Type :=
  | New (h : nat)
  | Retrieve (h : nat)
  | SetValue (h : nat) (v : T)
  | SetException (h : nat) (error : option X)
  | MoveConstruct (h from : nat)
  | MoveAssign (h from : nat)
  | Destroy (h : nat)
  | Getting (l : nat).

Abbreviation world := (memory * gmap nat promise)%type.

(** A step of the client; a call that throws leaves the world as it is ([None]: not a C++ program:
    a variable used outside its lifetime).  [Getting]: some future runs [get] on a ready state. *)
Definition run_command (w : world) (c : command) : option world :=
  let '(m, ps) := w in
  match c with
  | New h => match ps !! h with None => let '(m, p) := new_promise m in Some (m, <[h := p]> ps) | Some _ => None end
  | Retrieve h => p ← ps !! h; Some (m, match get_future p with Ret (p, _) => <[h := p]> ps | Throw _ => ps end)
  | SetValue h v => p ← ps !! h; Some (match promise_set_value m p v with Ret m => m | Throw _ => m end, ps)
  | SetException h e => p ← ps !! h; Some (match promise_set_exception m p e with Ret m => m | Throw _ => m end, ps)
  | MoveConstruct h from =>
      p ← ps !! from;
      match ps !! h with None => let '(new, old) := move_construct p in Some (m, <[h := new]> (<[from := old]> ps)) | Some _ => None end
  | MoveAssign h from =>
      p ← ps !! h; other ← ps !! from;
      if decide (h = from) then Some (m, ps)
      else let '(m, p, other) := move_assign m p other in Some (m, <[h := p]> (<[from := other]> ps))
  | Destroy h => p ← ps !! h; Some (abandon_if_owned m p, delete h ps)
  | Getting l => d ← m !! l; if has_outcome d then Some (<[l := verdict_data (deliver d)]> m, ps) else None
  end.

Inductive session : world -> Prop :=
  | session_start : session (∅, ∅)
  | session_step w c w' : session w -> run_command w c = Some w' -> session w'.

Definition owns (ps : gmap nat promise) (h l : nat) : Prop := exists p, ps !! h = Some p /\ state_ p = Some l.

(** Every state has an outcome or exactly one promise that will give it one. *)
Record sound (m : memory) (ps : gmap nat promise) : Prop := {
  s_alive : forall l d, m !! l = Some d -> has_outcome d = true \/ exists h, owns ps h l;
  s_known : forall h l, owns ps h l -> is_Some (m !! l);
  s_single : forall h h' l, owns ps h l -> owns ps h' l -> h = h'
}.

Lemma owns_insert ps h p h' l : owns (<[h := p]> ps) h' l <-> (h' = h /\ state_ p = Some l) \/ (h' <> h /\ owns ps h' l).
Proof.
  unfold owns. destruct (decide (h' = h)) as [->|Hn].
  - rewrite lookup_insert_eq. split; [intros (? & [= <-] & ?); by left|]. intros [[_ ?]|[? _]]; [by eexists|done].
  - rewrite lookup_insert_ne by done. split; [intros ?; by right|]. by intros [[? _]|[_ ?]].
Qed.

Lemma owns_delete ps h h' l : owns (delete h ps) h' l <-> h' <> h /\ owns ps h' l.
Proof.
  unfold owns. destruct (decide (h' = h)) as [->|Hn].
  - rewrite lookup_delete_eq. split; [by intros (? & ? & ?)|by intros [? _]].
  - rewrite lookup_delete_ne by done. naive_solver.
Qed.

(** Setting and abandoning only ever turn a state without an outcome into one with. *)
Definition grows (m m' : memory) : Prop :=
  (forall l, is_Some (m' !! l) <-> is_Some (m !! l)) /\
  (forall l d, m' !! l = Some d -> has_outcome d = true \/ m !! l = Some d).

Lemma grows_refl m : grows m m.
Proof. split; [done|]. by right. Qed.

Lemma grows_update m l d d' : m !! l = Some d -> has_outcome d' = true -> grows m (<[l := d']> m).
Proof.
  intros Hl Ho. split; intros l'.
  - destruct (decide (l' = l)) as [->|Hn]; [rewrite lookup_insert_eq, Hl; by split|by rewrite lookup_insert_ne].
  - intros d0. destruct (decide (l' = l)) as [->|Hn]; [rewrite lookup_insert_eq; intros; simplify_eq; by left|].
    rewrite lookup_insert_ne by done. by right.
Qed.

Lemma store_grows m l a m' : is_empty a = false -> store m l a = Ret m' -> grows m m'.
Proof.
  unfold store, store_section. intros Ha H. destruct (m !! l) as [d|] eqn:El; [|done]. destruct (has_outcome d); simplify_eq.
  eapply grows_update; [done|]. unfold has_outcome. simpl. by rewrite Ha.
Qed.

Lemma abandon_outcome (d : shared) : has_outcome (verdict_data (abandon_section d)) = true.
Proof. unfold abandon_section, has_outcome. destruct d as [[|v|x] []]; done. Qed.

Lemma abandon_grows m p : grows m (abandon_if_owned m p).
Proof.
  unfold abandon_if_owned. destruct (state_ p) as [l|]; [|apply grows_refl]. destruct (m !! l) as [d|] eqn:E; [|apply grows_refl].
  eapply grows_update; [done|apply abandon_outcome].
Qed.

Lemma sound_grows m m' ps : sound m ps -> grows m m' -> sound m' ps.
Proof.
  intros [H1 H2 H3] [G1 G2]. split; [|intros h l Ho; apply G1; by eapply H2|done].
  intros l d Hl. destruct (G2 l d Hl) as [|Hm]; [by left|]. by eapply H1.
Qed.
(** Moving a promise into a new variable. *)
Lemma sound_move m ps h from p :
  sound m ps -> ps !! from = Some p -> ps !! h = None -> h <> from ->
  sound m (<[h := p]> (<[from := Promise None (future_retrieved_ p)]> ps)).
Proof.
  intros [H1 H2 H3] Hf Hh Hn.
  assert (forall h' l, owns (<[h := p]> (<[from := Promise None (future_retrieved_ p)]> ps)) h' l <->
    (h' = h /\ owns ps from l) \/ (h' <> h /\ h' <> from /\ owns ps h' l)) as Ho.
  { intros h' l. rewrite !owns_insert. unfold owns at 2. rewrite Hf. simpl. naive_solver. }
  split.
  - intros l d Hl. destruct (H1 l d Hl) as [|[h' Hw]]; [by left|right]. destruct (decide (h' = from)) as [->|].
    + exists h. rewrite Ho. by left.
    + exists h'. rewrite Ho. right. split_and!; [|done..]. intros ->. destruct Hw as (? & ? & ?). congruence.
  - intros h' l. rewrite Ho. intros [[_ ?]|(_ & _ & ?)]; by eapply H2.
  - intros h1 h2 l. rewrite !Ho. intros [[-> Ha]|(Hn1 & Hn1' & Ha)] [[-> Hb]|(Hn2 & Hn2' & Hb)]; [done| | |by eapply H3].
    + by destruct Hn2'; eapply H3.
    + by destruct Hn1'; eapply H3.
Qed.

(** Destroying a promise. *)
Lemma sound_drop m ps h p : sound m ps -> ps !! h = Some p -> sound (abandon_if_owned m p) (delete h ps).
Proof.
  intros [H1 H2 H3] Hh. destruct (abandon_grows m p) as [G1 G2]. split.
  - intros l d Hl. destruct (G2 l d Hl) as [|Hm]; [by left|]. destruct (H1 l d Hm) as [|[h' Ho]]; [by left|].
    destruct (decide (h' = h)) as [->|Hn]; [|right; exists h'; by rewrite owns_delete].
    left. destruct Ho as (p' & Hp' & Es). assert (p' = p) as -> by congruence. unfold abandon_if_owned in Hl. rewrite Es, Hm in Hl.
    rewrite lookup_insert_eq in Hl. injection Hl as <-. apply abandon_outcome.
  - intros h' l [_ Ho]%owns_delete. apply G1. by eapply H2.
  - intros h1 h2 l [_ Ha]%owns_delete [_ Hb]%owns_delete. by eapply H3.
Qed.

Lemma sound_step m ps c m' ps' : sound m ps -> run_command (m, ps) c = Some (m', ps') -> sound m' ps'.
Proof.
  intros S Hr. pose proof S as [H1 H2 H3]. destruct c as [h|h|h v|h e|h from|h from|h|l]; simpl in Hr.
  - destruct (ps !! h) eqn:Eh; [done|]. simplify_eq.
    set (l := fresh (dom (D := gset nat) m)) in *. assert (m !! l = None) as Hl by (apply (not_elem_of_dom (D := gset nat)), is_fresh).
    assert (forall h', ~ owns ps h' l) as Hno by (intros h' Ho; apply H2 in Ho; rewrite Hl in Ho; by destruct Ho).
    split.
    + intros l' d. destruct (decide (l' = l)) as [->|Hn].
      * intros _. right. exists h. apply owns_insert. by left.
      * rewrite lookup_insert_ne by done. intros Hd. destruct (H1 _ _ Hd) as [|[h' Ho]]; [by left|right]. exists h'. apply owns_insert. right.
        split; [|done]. intros ->. destruct Ho as (? & ? & ?). congruence.
    + intros h' l' [[-> Ho]|[Hn Ho]]%owns_insert; [simpl in Ho; simplify_eq; by rewrite lookup_insert_eq|].
      destruct (decide (l' = l)) as [->|]; [by rewrite lookup_insert_eq|]. rewrite lookup_insert_ne by done. by eapply H2.
    + intros h1 h2 l' [[-> Ho1]|[Hn1 Ho1]]%owns_insert [[-> Ho2]|[Hn2 Ho2]]%owns_insert; simpl in *; simplify_eq; [done|by destruct (Hno h2)|by destruct (Hno h1)|by eapply H3].
  - destruct (ps !! h) as [p|] eqn:Eh; simplify_eq/=. destruct (get_future p) as [[p' f]|] eqn:Ef; [|done].
    assert (state_ p' = state_ p) as Es.
    { unfold get_future, checked_state in Ef. destruct (state_ p) eqn:E; simpl in Ef; [|done]. destruct (future_retrieved_ p); by simplify_eq/=. }
    assert (forall h' l, owns (<[h := p']> ps) h' l <-> owns ps h' l) as Hsame.
    { intros h' l. rewrite owns_insert, Es. unfold owns. destruct (decide (h' = h)) as [->|]; [|naive_solver]. rewrite Eh. naive_solver. }
    split; [|intros h' l; rewrite Hsame; apply H2|intros h1 h2 l; rewrite !Hsame; apply H3].
    intros l d Hl. destruct (H1 l d Hl) as [|[h' Ho]]; [by left|right]. exists h'. by rewrite Hsame.
  - destruct (ps !! h) as [p|]; simplify_eq/=. eapply sound_grows; [done|]. destruct (promise_set_value m p v) as [m1|] eqn:E; [|apply grows_refl].
    unfold promise_set_value, checked_state in E. destruct (state_ p); simpl in E; [|done]. by eapply store_grows in E.
  - destruct (ps !! h) as [p|]; simplify_eq/=. eapply sound_grows; [done|]. destruct (promise_set_exception m p e) as [m1|] eqn:E; [|apply grows_refl].
    unfold promise_set_exception, checked_state in E. destruct e; [|done]. destruct (state_ p); simpl in E; [|done]. by eapply store_grows in E.
  - destruct (ps !! from) as [p|] eqn:Ef; simpl in Hr; [|done]. destruct (ps !! h) eqn:Eh; [done|]. simplify_eq.
    assert (h <> from) as Hn by congruence. by apply (sound_move m' ps h from p).
  - destruct (ps !! h) as [p|] eqn:Eh; simpl in Hr; [|done]. destruct (ps !! from) as [other|] eqn:Ef; simpl in Hr; [|done].
    case_decide as Hn; simplify_eq; [done|]. eapply sound_drop in S; [|exact Eh].
    rewrite <- (insert_delete_eq (<[from := _]> ps)), delete_insert_ne by done.
    destruct other as [so ro]. simpl. apply (sound_move _ (delete h ps) h from (Promise so ro)); [done|by rewrite lookup_delete_ne|by rewrite lookup_delete_eq|done].
  - destruct (ps !! h) as [p|] eqn:Eh; simplify_eq/=. by eapply sound_drop.
  - destruct (m !! l) as [d|] eqn:El; simpl in Hr; [|done]. destruct (has_outcome d) eqn:Eo; simplify_eq. eapply sound_grows; [done|].
    eapply grows_update; [done|]. change (deliver d) with (satisfied in_get d). by rewrite satisfied_has_outcome.
Qed.

Lemma session_sound m ps : session (m, ps) -> sound m ps.
Proof.
  intros H. remember (m, ps) as w eqn:E. revert m ps E. induction H as [|[m0 ps0] c w' _ IH Hr]; intros m ps E.
  - injection E as <- <-. split; [by intros l d Hl|by intros h l (? & ? & ?)|by intros h h' l (? & ? & ?)].
  - subst w'. eapply sound_step; [by apply IH|done].
Qed.

(** C28. No future waits for a promise that is gone.  After any sequence of constructions, moves, assignments (also
    over a promise that has not delivered), deliveries and destructions of promises: a shared state
    without an outcome belongs to exactly one live promise.  Destroying a promise gives its state an
    outcome if it had none, and then the future's [get] throws [BrokenTaskPromise]; an outcome already
    delivered is left as it was. *)
Theorem no_state_orphaned m ps :
  session (m, ps) ->
  (forall l d, m !! l = Some d -> has_outcome d = false -> exists h, owns ps h l /\ forall h', owns ps h' l -> h' = h) /\
  (forall h p l d, ps !! h = Some p -> state_ p = Some l -> m !! l = Some d ->
    exists m' d', run_command (m, ps) (Destroy h) = Some (m', delete h ps) /\ m' !! l = Some d' /\ has_outcome d' = true /\
      (has_outcome d = true -> d' = d) /\
      (has_outcome d = false -> result (deliver d') = Some (Raised BrokenTaskPromise))).
Proof.
  intros [H1 H2 H3]%session_sound. split.
  - intros l d Hl Ho. destruct (H1 l d Hl) as [|[h Hh]]; [congruence|]. exists h. split; [done|]. intros h' Hh'. by eapply H3.
  - intros h p l d Hh Es Hl. eexists _, _. simpl. rewrite Hh. simpl. split; [done|]. unfold abandon_if_owned. rewrite Es, Hl.
    split; [apply lookup_insert_eq|]. split; [apply abandon_outcome|]. unfold abandon_section. by destruct d as [[|v|x] []].
Qed.

End ends.

(** One promise delivers and is then moved over another one that has not. *)
Lemma no_state_orphaned_witness :
  exists m ps, session (T := nat) (X := nat) (m, ps) /\ m !! 1 = Some (Shared Empty true) /\ m !! 0 = Some (Shared (Value (Some 5)) false) /\
  (forall l d, m !! l = Some d -> has_outcome d = false -> exists h, owns ps h l /\ forall h', owns ps h' l -> h' = h).
Proof.
  assert (forall w c w', session (T := nat) (X := nat) w -> run_command w c = Some w' -> session w') as Hnext by (intros; by eapply session_step).
  destruct (run_command (T := nat) (X := nat) (∅, ∅) (New 0)) as [w1|] eqn:E1; [|vm_compute in E1; discriminate E1].
  destruct (run_command w1 (New 1)) as [w2|] eqn:E2; [|vm_compute in E1; injection E1 as <-; vm_compute in E2; discriminate E2].
  destruct (run_command w2 (SetValue 0 5)) as [w3|] eqn:E3;
    [|vm_compute in E1; injection E1 as <-; vm_compute in E2; injection E2 as <-; vm_compute in E3; discriminate E3].
  destruct (run_command w3 (MoveAssign 1 0)) as [[m ps]|] eqn:E4;
    [|vm_compute in E1; injection E1 as <-; vm_compute in E2; injection E2 as <-; vm_compute in E3; injection E3 as <-; vm_compute in E4; discriminate E4].
  pose proof (Hnext _ _ _ (Hnext _ _ _ (Hnext _ _ _ (Hnext _ _ _ session_start E1) E2) E3) E4) as Hs. exists m, ps. split; [exact Hs|].
  split; [|split; [|exact (proj1 (no_state_orphaned m ps Hs))]];
    vm_compute in E1; injection E1 as <-; vm_compute in E2; injection E2 as <-; vm_compute in E3; injection E3 as <-;
    vm_compute in E4; injection E4 as <- <-; reflexivity.
Defined.
