(* ===== verification/TaskPool.v ===== *)
(** * Tasks from submission to future (thread_pool.hpp: submit, MoveOnlyTask; with task_future.hpp)

    [submit] makes a promise, takes its future, and wraps the callable and the promise into the task that
    is queued; the worker that is handed the task runs the callable and gives its result, or what it threw,
    to the promise.  Here the pool ([ThreadPool]) and the shared states ([TaskPromise]) run together.
    [B] is the callable, [V] what it returns, [X] what it can throw: what a run of it yields is open. *)

From S2P Require Import Prelude StdAlgo Heap Monitor TaskFuture TaskPromise ThreadPool.
Open Scope nat_scope.

Section task_pool.
Context {B V X : Type}.

Abbreviation memory := (gmap nat (TaskFuture.shared (T := V) (X := X))).

(** The closure [submit] builds. *)
Record erased := Erased { task : B; promise_ : promise }.

Abbreviation queued := (QueuedTask (T := erased)).

(** [MoveOnlyTask::operator()] and the destruction of the task: the promise gets the outcome of
    the callable.  [None]: the setter throws inside the handler's own setter, and the program ends. *)
Definition run_task (m : memory) (q : queued) (o : V + X) : option memory :=
  let p := promise_ (run q) in
  match match o with inl v => promise_set_value m p v | inr x => promise_set_exception m p (Some x) end with
  | Ret m => Some (abandon_if_owned m p)
  | Throw _ => None
  end.

(** What [submit] does before it takes the lock. *)
Definition wrap_task (m : memory) (b : B) : outcome (memory * erased * option nat) :=
  let '(m, p) := new_promise m in
  let! (p, f) := get_future p in
  let '(moved, _) := move_construct p in
  Ret (m, Erased b moved, f).

Context (push_heap pop_heap : list queued -> list queued) (thread_count : nat).

Abbreviation pool_state := (mstate (pool (T := erased)) unit unit (ThreadPool.answer (T := erased)) life).
Abbreviation pool_event := (event (ThreadPool.answer (T := erased)) (ThreadPool.call (T := erased))).

#[local] Instance the_pool : Monitor (pool (T := erased)) unit unit ThreadPool.answer ThreadPool.call life :=
  thread_pool push_heap pop_heap thread_count.

(** [running]: the tasks in the hands of workers; [ran], [futures]: a record of the tasks that were run,
    with their outcome, and of the futures that were returned. *)
Record system := Sys {
  pool_ : pool_state;
  memory_ : memory;
  running : list (nat * queued);
  ran : list (queued * (V + X));
  futures : list (queued * option nat)
}.

(** The end of [submit]: the future is returned, or the task is destroyed, with its promise, as the exception leaves. *)
Definition submitted_with (m : memory) (e : erased) (f : option nat) (r : option (ThreadPool.answer (T := erased))) : memory * list (queued * option nat) :=
  match r with
  | Some (Submitted q) => (m, [(q, f)])
  | _ => (abandon_if_owned m (promise_ e), [])
  end.

(** The worker an event hands a task to. *)
Definition handed (e : pool_event) : list (nat * queued) :=
  match e with Called t _ (Some (Start q)) | Resumed t (Some (Start q)) => [(t, q)] | _ => [] end.

Definition is_submit (e : pool_event) : bool := match e with Called _ (submit _ _) _ => true | _ => false end.
Definition takes (e : pool_event) (t : nat) : Prop := match e with Called u take _ => u = t | _ => False end.

Inductive action : Type := PoolAct (e : pool_event) | RunAct (t : nat) (q : queued) (o : V + X) | GetAct (l : nat).

(** A worker enters [worker_loop]'s critical section again only after its task; the future's [get] is on a state that is ready. *)
Inductive system_step : system -> action -> system -> Prop :=
  | step_submit s m rs rn fs t prio b m1 e f r s' m2 fs' :
      wrap_task m b = Ret (m1, e, f) -> step s (Called t (submit prio e) r) s' -> submitted_with m1 e f r = (m2, fs') ->
      system_step (Sys s m rs rn fs) (PoolAct (Called t (submit prio e) r)) (Sys s' m2 rs rn (fs ++ fs'))
  | step_pool s m rs rn fs e s' :
      step s e s' -> is_submit e = false -> (forall t q, (t, q) ∈ rs -> ~ takes e t) ->
      system_step (Sys s m rs rn fs) (PoolAct e) (Sys s' m (handed e ++ rs) rn fs)
  | step_run s m rs rs' rn fs t q o m' :
      rs ≡ₚ (t, q) :: rs' -> run_task m q o = Some m' ->
      system_step (Sys s m rs rn fs) (RunAct t q o) (Sys s m' rs' (rn ++ [(q, o)]) fs)
  | step_get s m rs rn fs l d :
      m !! l = Some d -> has_outcome d = true ->
      system_step (Sys s m rs rn fs) (GetAct l) (Sys s (<[l := verdict_data (deliver d)]> m) rs rn fs).

#[export] Instance task_system : System system action := {
  initial y := initial (pool_ y) /\ memory_ y = ∅ /\ running y = [] /\ ran y = [] /\ futures y = [];
  step := system_step
}.

Definition pool_events (as_ : list action) : list pool_event := omap (fun a => match a with PoolAct e => Some e | _ => None end) as_.

(** ** One event of the pool *)

Context `{!HeapImpl runs_later push_heap pop_heap}.

(** The state holds this outcome; a value may have been taken by [get] already. *)
Definition holds (d : TaskFuture.shared (T := V) (X := X)) (o : V + X) : Prop :=
  abandoned_ d = false /\
  match o with inl v => result_ d = Value (Some v) \/ result_ d = Value None | inr x => result_ d = Error x end.

Lemma submit_event (s s' : pool_state) t prio e r :
  step s (Called t (submit prio e) r) s' ->
  started [Called t (submit prio e) r] = [] /\
  ((exists q, r = Some (Submitted q) /\ run q = e /\ submitted [Called t (submit prio e) r] = [q]) \/
   (exists x, r = Some (ThreadPool.Rejected x) /\ submitted [Called t (submit prio e) r] = [])).
Proof.
  intros Hs. inversion Hs as [? ? ? Hint|d ts u c l Ht Hp E1 E2| |]; subst; [inversion Hint|]. simpl. unfold submit_section.
  destruct (stopping_ d); simpl; (split; [done|]); [right; by eexists|left; by eexists].
Qed.

Lemma other_event (s s' : pool_state) e : step s e s' -> is_submit e = false -> submitted [e] = [] /\ started [e] = map snd (handed e).
Proof.
  intros Hs Hq. assert (forall (d : pool (T := erased)) q, result (take_section pop_heap d) <> Some (Submitted q)) as Ht.
  { intros d q. unfold take_section. repeat case_match; done. }
  destruct Hs as [? ? ? Hint|d ts t c l Hl Hp| |]; [destruct Hint| |done|done]; try done; simpl in *.
  - specialize (Ht d). unfold submitted, started. simpl. destruct (result _) as [[]|]; try done. by destruct (Ht q).
  - destruct c; try done. specialize (Ht d). unfold submitted, started. simpl. destruct (result _) as [[]|]; try done. by destruct (Ht q).
Qed.

(** ** One run of a task *)

Lemma run_task_fresh (m : memory) q o l :
  m !! l = Some fresh_state -> state_ (promise_ (run q)) = Some l -> exists d, run_task m q o = Some (<[l := d]> m) /\ holds d o.
Proof.
  intros Hm Hl. unfold run_task, promise_set_value, promise_set_exception, checked_state, abandon_if_owned, store. rewrite Hl. simpl. rewrite Hm.
  destruct o as [v|x]; simpl; rewrite lookup_insert_eq; simpl; rewrite insert_insert_eq; eexists; (split; [done|]); split; auto.
Qed.

Lemma deliver_holds d o : holds d o -> holds (verdict_data (deliver d)) o.
Proof.
  unfold holds, deliver. destruct d as [r a]. simpl. intros [-> H]. destruct o as [v|x]; [destruct H as [-> | ->]|subst]; simpl; auto.
Qed.

(** What a wrapping makes. *)
Lemma wrap_task_spec m b m1 e f :
  wrap_task m b = Ret (m1, e, f) -> exists l, m !! l = None /\ m1 = <[l := fresh_state]> m /\ f = Some l /\ state_ (promise_ e) = Some l.
Proof.
  unfold wrap_task. simpl. intros [= <- <- <-]. eexists. split; [|done]. apply not_elem_of_dom. apply is_fresh.
Qed.

(** ** The books of the system *)

(** The state of a submitted task: untouched until the task is run, then the outcome of that run. *)
Definition answered (m : memory) (rn : list (queued * (V + X))) (q : queued) (l : nat) : Prop :=
  ((q ∉ map fst rn) /\ m !! l = Some fresh_state) \/ (exists o d, (q, o) ∈ rn /\ m !! l = Some d /\ holds d o).

Record books (es : list pool_event) (y : system) : Prop := {
  b_started : started es ≡ₚ map fst (ran y) ++ map snd (running y);
  b_submitted : map fst (futures y) = submitted es;
  b_promise : forall q f, (q, f) ∈ futures y -> exists l, f = Some l /\ state_ (promise_ (run q)) = Some l;
  b_distinct : NoDup (map snd (futures y));
  b_answered : forall q l, (q, Some l) ∈ futures y -> answered (memory_ y) (ran y) q l
}.

Lemma answered_known m rn q l : answered m rn q l -> is_Some (m !! l).
Proof. by intros [[_ ->]|(o & d & _ & -> & _)]; eexists. Qed.

(** Changing another location, or another task's record. *)
Lemma answered_other m rn q l l' d' :
  answered m rn q l -> l <> l' -> answered (<[l' := d']> m) rn q l.
Proof. intros H Hn. unfold answered. by rewrite lookup_insert_ne. Qed.

Lemma answered_run m rn q l q' o' : answered m rn q l -> q <> q' -> answered m (rn ++ [(q', o')]) q l.
Proof.
  intros [[Hq Hm]|(o & d & Ho & Hm & Hd)] Hn.
  - left. split; [|done]. rewrite map_app. intros [?|?%list_elem_of_singleton]%elem_of_app; done.
  - right. exists o, d. split_and!; try done. apply elem_of_app. by left.
Qed.

Section step_books.
Context (es : list pool_event) (y : system) (K : books es y).

(** A task is in the books once, and so is its location. *)
Lemma future_unique q l q' : (q, Some l) ∈ futures y -> (q', Some l) ∈ futures y -> q = q'.
Proof.
  intros [i Hi]%list_elem_of_lookup [j Hj]%list_elem_of_lookup. assert (i = j) as ->; [|congruence].
  apply (NoDup_lookup _ _ _ (Some l) (b_distinct _ _ K)); by rewrite list_lookup_fmap, ?Hi, ?Hj.
Qed.

Lemma submitted_unique : NoDup (submitted es).
Proof.
  rewrite <- (b_submitted _ _ K). apply NoDup_alt. intros i j q Hi Hj. apply list_lookup_fmap_Some in Hi as ([q1 f1] & -> & Hi), Hj as ([q2 f2] & E & Hj).
  simpl in E. subst q2. destruct (b_promise _ _ K q1 f1) as (l1 & -> & E1); [by eapply list_elem_of_lookup_2|].
  destruct (b_promise _ _ K q1 f2) as (l2 & -> & E2); [by eapply list_elem_of_lookup_2|]. rewrite E1 in E2. injection E2 as <-.
  apply (NoDup_lookup _ _ _ (Some l1) (b_distinct _ _ K)); by rewrite list_lookup_fmap, ?Hi, ?Hj.
Qed.

Lemma submitted_future q : q ∈ submitted es -> exists l, (q, Some l) ∈ futures y /\ state_ (promise_ (run q)) = Some l.
Proof.
  rewrite <- (b_submitted _ _ K). intros ([q' f] & -> & Hq)%list_elem_of_fmap. destruct (b_promise _ _ K _ _ Hq) as (l & -> & E). by exists l.
Qed.

Context (s0 : pool_state) (Hi : initial s0) (Hx : exec s0 es (pool_ y)) (Hb : (Z.of_nat (length (submitted es)) < 2 ^ 64)%Z).

Lemma started_submitted : started es ++ heap_ (data (pool_ y)) ≡ₚ submitted es.
Proof. exact (a_tasks _ _ (accounts_exec push_heap pop_heap thread_count s0 (pool_ y) es Hi Hx Hb)). Qed.

Lemma tasks_unique : NoDup (map fst (ran y) ++ map snd (running y) ++ heap_ (data (pool_ y))).
Proof. rewrite app_assoc, <- (b_started _ _ K), started_submitted. apply submitted_unique. Qed.

Lemma task_submitted q : q ∈ map fst (ran y) ++ map snd (running y) ++ heap_ (data (pool_ y)) -> q ∈ submitted es.
Proof. rewrite app_assoc, <- (b_started _ _ K), started_submitted. done. Qed.

(** A task in a worker's hands has not been run, and its state is untouched. *)
Lemma running_fresh t q : (t, q) ∈ running y ->
  exists l, (q, Some l) ∈ futures y /\ state_ (promise_ (run q)) = Some l /\ memory_ y !! l = Some fresh_state /\ (q ∉ map fst (ran y)).
Proof.
  intros Hq. assert (q ∈ map snd (running y)) as Hq' by (apply list_elem_of_fmap; by exists (t, q)).
  destruct (submitted_future q) as (l & Hf & Hl); [apply task_submitted; rewrite !elem_of_app; auto|]. exists l. split_and!; try done.
  all: pose proof tasks_unique as Hn; rewrite NoDup_app in Hn; destruct Hn as (_ & Hn & _).
  - destruct (b_answered _ _ K q l Hf) as [[_ ?]|(o & d & Ho & _)]; [done|]. exfalso.
    apply (Hn q); [apply list_elem_of_fmap; by exists (q, o)|]. apply elem_of_app. by left.
  - intros Hr. apply (Hn q Hr). apply elem_of_app. by left.
Qed.

End step_books.

Lemma books_step es y a y' s0 :
  books es y -> initial s0 -> exec s0 es (pool_ y) -> (Z.of_nat (length (submitted es)) < 2 ^ 64)%Z -> system_step y a y' ->
  books (es ++ pool_events [a]) y'.
Proof.
  intros K Hi Hx Hb Hs. pose proof K as [H1 H2 H3 H4 H5].
  destruct Hs as [s m rs rn fs t prio b m1 e f r s' m2 fs' Hw Hs Hm|s m rs rn fs e s' Hs Hq Ht|s m rs rs' rn fs t q o m' Hr Ho|s m rs rn fs l d Hl Hd];
    unfold pool_events; simpl in *.
  - destruct (submit_event _ _ _ _ _ _ Hs) as [Est [(q & -> & Eq & Esu)|(x & -> & Esu)]];
      (split; simpl; rewrite ?submitted_app, ?started_app, ?Est, ?Esu, ?app_nil_r); simpl in Hm; injection Hm as <- <-;
      apply wrap_task_spec in Hw as (l & Hl & -> & -> & Hp).
    all: assert (forall q' l', (q', Some l') ∈ fs -> l' <> l) as Hne by
      (intros q' l' Hq' ->; apply H5, answered_known in Hq' as [d Hd]; congruence).
    + done.
    + by rewrite map_app, H2.
    + intros q' f [Hq|Hq]%elem_of_app; [by apply H3|]. apply list_elem_of_singleton in Hq. injection Hq as -> ->. exists l. by rewrite Eq.
    + rewrite map_app. apply NoDup_app. split_and!; [done| |apply NoDup_singleton]. intros f Hf Hf'. apply list_elem_of_singleton in Hf'. simpl in Hf'. subst f.
      apply list_elem_of_fmap in Hf as ([q' f] & E & Hq'). simpl in E. subst f. by eapply Hne.
    + intros q' l' [Hq|Hq]%elem_of_app; [apply answered_other; [by apply H5|by eapply Hne]|]. apply list_elem_of_singleton in Hq. injection Hq as -> ->.
      left. rewrite lookup_insert_eq. split; [|done]. intros Hr. destruct (submitted_future es _ K q) as (l' & Hf & Hl').
      { eapply (task_submitted es _ K s0); [done..|]. rewrite elem_of_app. by left. }
      rewrite Eq, Hp in Hl'. injection Hl' as <-. by eapply Hne.
    + done.
    + by rewrite app_nil_r.
    + by rewrite app_nil_r.
    + by rewrite app_nil_r.
    + rewrite app_nil_r. intros q' l' Hq'. unfold abandon_if_owned. rewrite Hp, lookup_insert_eq, insert_insert_eq. apply answered_other; [by apply H5|by eapply Hne].
  - destruct (other_event _ _ _ Hs Hq) as [Esu Est]. split; simpl; rewrite ?submitted_app, ?started_app, ?Est, ?Esu, ?app_nil_r; try done.
    rewrite H1, map_app, <- app_assoc. apply Permutation_app_head. by rewrite Permutation_app_comm.
  - destruct (running_fresh es _ K s0 Hi Hx Hb t q) as (l & Hf & Hl & Hfr & Hnr); [simpl; rewrite Hr; by left|]. simpl in *.
    destruct (run_task_fresh m q o l Hfr Hl) as (d & Hrun & Hd). rewrite Ho in Hrun. injection Hrun as ->.
    split; simpl; rewrite ?app_nil_r; try done.
    + rewrite H1, map_app, <- app_assoc. simpl. apply Permutation_app_head. by rewrite Hr.
    + intros q' l' Hq'. destruct (decide (l' = l)) as [->|Hn].
      * assert (q' = q) as -> by (by eapply (future_unique es _ K)). right. exists o, d. rewrite lookup_insert_eq. split_and!; try done. apply elem_of_app. right. by left.
      * apply answered_other; [|done]. apply answered_run; [by apply H5|]. intros ->. destruct (H3 _ _ Hq') as (l2 & [= ->] & ?). congruence.
  - split; simpl; rewrite ?app_nil_r; try done. intros q l' Hq. destruct (decide (l' = l)) as [->|Hn]; [|apply answered_other; [by apply H5|done]].
    destruct (H5 _ _ Hq) as [[_ Hm]|(o & d' & Ho & Hm & Hh)]; rewrite Hl in Hm; injection Hm as ->; [done|].
    right. exists o, (verdict_data (deliver d')). rewrite lookup_insert_eq. split_and!; try done. by apply deliver_holds.
Qed.

Lemma pool_events_app as1 as2 : pool_events (as1 ++ as2) = pool_events as1 ++ pool_events as2.
Proof. apply omap_app. Qed.

(** The pool's part of an execution is an execution of the pool. *)
Lemma pool_exec (y0 y : system) acts : exec y0 acts y -> exec (pool_ y0) (pool_events acts) (pool_ y).
Proof.
  induction 1 as [y|y0 acts y1 a y2 _ IH Hs]; [apply exec_nil|]. rewrite pool_events_app.
  destruct Hs; unfold pool_events at 2; simpl in *; rewrite ?app_nil_r; try done; by eapply exec_snoc.
Qed.

Lemma books_exec (y0 y : system) acts :
  initial y0 -> exec y0 acts y -> (Z.of_nat (length (submitted (pool_events acts))) < 2 ^ 64)%Z -> books (pool_events acts) y.
Proof.
  intros Hi Hx. revert Hi. induction Hx as [y|y0 acts y1 a y2 Hx IH Hs]; intros Hi Hb.
  - destruct Hi as (_ & _ & H1 & H2 & H3). destruct y as [s m rs rn fs]. simpl in *. subst.
    split; simpl; try done; [intros q f []%not_elem_of_nil|apply NoDup_nil_2|intros q l []%not_elem_of_nil].
  - rewrite pool_events_app, submitted_app, length_app in Hb. rewrite pool_events_app.
    apply (books_step _ y1 a y2 (pool_ y0)); [apply IH; [done|lia]|apply Hi|by apply pool_exec|lia|done].
Qed.

(** The books, read for the futures. *)
Lemma futures_answered (y0 y : system) acts :
  initial y0 -> exec y0 acts y -> (Z.of_nat (length (submitted (pool_events acts))) < 2 ^ 64)%Z ->
  (forall q f, (q, f) ∈ futures y -> exists l d, f = Some l /\ memory_ y !! l = Some d /\
    ((d = fresh_state /\ (q ∈ heap_ (data (pool_ y)) \/ exists t, (t, q) ∈ running y)) \/ exists o, (q, o) ∈ ran y /\ holds d o)) /\
  NoDup (map snd (futures y)) /\ NoDup (map fst (ran y)) /\
  (forall t q o, (t, q) ∈ running y -> is_Some (run_task (memory_ y) q o)).
Proof.
  intros Hi Hx Hb. pose proof (books_exec _ _ _ Hi Hx Hb) as K. pose proof (pool_exec _ _ _ Hx) as Hp. destruct Hi as [Hi _]. split_and!.
  - intros q f Hq. destruct (b_promise _ _ K _ _ Hq) as (l & -> & Hl). destruct (b_answered _ _ K _ _ Hq) as [[Hn Hm]|(o & d & Ho & Hm & Hd)].
    + exists l, fresh_state. split_and!; [done..|]. left. split; [done|].
      assert (q ∈ map fst (ran y) ++ map snd (running y) ++ heap_ (data (pool_ y))) as Hin.
      { rewrite app_assoc, <- (b_started _ _ K), (started_submitted _ _ _ Hi Hp Hb), <- (b_submitted _ _ K). apply list_elem_of_fmap. by exists (q, Some l). }
      rewrite !elem_of_app in Hin. destruct Hin as [|[([t q'] & -> & Hr)%list_elem_of_fmap|]]; [done|right; by exists t|by left].
    + exists l, d. split_and!; [done..|]. right. by exists o.
  - apply (b_distinct _ _ K).
  - pose proof (tasks_unique _ _ K _ Hi Hp Hb) as Hn. by apply NoDup_app in Hn as [Hn _].
  - intros t q o Hr. destruct (running_fresh _ _ K _ Hi Hp Hb t q Hr) as (l & _ & Hl & Hm & _).
    destruct (run_task_fresh _ q o l Hm Hl) as (d & -> & _). by eexists.
Qed.

(** C29. Every future that [submit] has returned is answered by its own task.  In every interleaving of clients, workers, the
    tasks they run and the futures that are read: the state behind a future is untouched while its task is
    queued or running, and from then on holds the outcome of the one run of that task -- its value or
    the exception it threw; no two futures share a state, no task runs twice, and no run ends the program by a
    setter that fails.  Once a worker has returned and no task is running, every future has its
    outcome: the shutdown abandons none. *)
Theorem every_future_is_answered (y0 y : system) acts :
  initial y0 -> exec y0 acts y -> (Z.of_nat (length (submitted (pool_events acts))) < 2 ^ 64)%Z ->
  (forall q f, (q, f) ∈ futures y -> exists l d, f = Some l /\ memory_ y !! l = Some d /\
    ((d = fresh_state /\ (q ∈ heap_ (data (pool_ y)) \/ exists t, (t, q) ∈ running y)) \/ exists o, (q, o) ∈ ran y /\ holds d o)) /\
  NoDup (map snd (futures y)) /\ NoDup (map fst (ran y)) /\
  (forall t q o, (t, q) ∈ running y -> is_Some (run_task (memory_ y) q o)) /\
  (running y = [] -> (exists t th, threads (pool_ y) !! t = Some th /\ local th = returned) ->
    forall q f, (q, f) ∈ futures y -> exists l d o, f = Some l /\ memory_ y !! l = Some d /\ (q, o) ∈ ran y /\ holds d o).
Proof.
  intros Hi Hx Hb. destruct (futures_answered _ _ _ Hi Hx Hb) as (H1 & H2 & H3 & H4). split_and!; [done..|].
  intros Hr (t & th & Ht & Hl) q f Hq. assert (reachable (pool_ y)) as Hre by (eapply exec_reachable; [by apply pool_exec|apply reach_init, Hi]).
  destruct (returns_late_reachable push_heap pop_heap thread_count (pool_ y) Hre) as [_ Hlate].
  destruct Hlate as [_ Hh]; [apply (count_pos _ _ _ _ Ht); unfold has_returned; by rewrite Hl|].
  destruct (H1 q f Hq) as (l & d & -> & Hm & [[_ [Hin|[u Hin]]]|(o & Ho & Hd)]); [rewrite Hh in Hin; by apply not_elem_of_nil in Hin| |by exists l, d, o].
  rewrite Hr in Hin. by apply not_elem_of_nil in Hin.
Qed.

(** ** Running a schedule *)

Inductive move_ : Type :=
  | DoSubmit (t : nat) (prio : Z) (b : B)
  | DoPool (mv : move (ThreadPool.call (T := erased)))
  | DoRun (o : V + X)
  | DoGet (l : nat).

Definition may_take (e : pool_event) (rs : list (nat * queued)) : bool :=
  match e with Called u take _ => forallb (fun p => negb (u =? p.1)) rs | _ => true end.

(** [DoRun]: the task handed out last is run. *)
Definition drive (y : system) (mv : move_) : option (system * action) :=
  match mv with
  | DoSubmit t prio b =>
      match wrap_task (memory_ y) b with
      | Ret (m1, e, f) =>
          match run_move (pool_ y) (DoCall t (submit prio e)) with
          | Some (s', Called t' (submit prio' e') r) =>
              let '(m2, fs) := submitted_with m1 e f r in
              Some (Sys s' m2 (running y) (ran y) (futures y ++ fs), PoolAct (Called t (submit prio e) r))
          | _ => None
          end
      | Throw _ => None
      end
  | DoPool mv =>
      match run_move (pool_ y) mv with
      | Some (s', e) =>
          if negb (is_submit e) && may_take e (running y) then Some (Sys s' (memory_ y) (handed e ++ running y) (ran y) (futures y), PoolAct e) else None
      | None => None
      end
  | DoRun o =>
      match running y with
      | (t, q) :: rs => m ← run_task (memory_ y) q o; Some (Sys (pool_ y) m rs (ran y ++ [(q, o)]) (futures y), RunAct t q o)
      | [] => None
      end
  | DoGet l =>
      d ← memory_ y !! l;
      if has_outcome d then Some (Sys (pool_ y) (<[l := verdict_data (deliver d)]> (memory_ y)) (running y) (ran y) (futures y), GetAct l) else None
  end.

Fixpoint drives (y : system) (mvs : list move_) : option (system * list action) :=
  match mvs with
  | [] => Some (y, [])
  | mv :: mvs => r ← drive y mv; r' ← drives r.1 mvs; Some (r'.1, r.2 :: r'.2)
  end.

Lemma drive_step y mv y' a : drive y mv = Some (y', a) -> system_step y a y'.
Proof.
  destruct y as [s m rs rn fs]. destruct mv as [t prio b|mv|o|l]; unfold drive; cbn [pool_ memory_ running ran futures].
  - destruct (wrap_task m b) as [[[m1 e] f]|x] eqn:Ew; [|done]. destruct (run_move s _) as [[s' ev]|] eqn:Em; [|done].
    pose proof (run_move_step _ _ _ _ Em) as Hs. destruct ev as [t' [prio' e'| | |] r|?|?|?|?|?]; try done.
    destruct (submitted_with m1 e f r) as [m2 fs'] eqn:Ef. intros [= <- <-]. eapply step_submit; [done| |done].
    destruct s as [d ts]. simpl in Em. destruct (ts !! t) as [[st l]|]; simpl in Em; [|done]. destruct st; try done.
    destruct (may_call l (submit prio e)); [|done]. injection Em as _ <- <- <- _. done.
  - destruct (run_move s mv) as [[s' e]|] eqn:Em; [|done]. destruct (is_submit e) eqn:Eq; [done|]. simpl. destruct (may_take e rs) eqn:Et; [|done].
    intros [= <- <-]. apply step_pool; [by eapply run_move_step|done|]. intros t q Hin. destruct e as [u [| | |] r| | | | |]; simpl in *; try tauto.
    intros ->. rewrite forallb_forall in Et. specialize (Et (t, q) ltac:(by apply list_elem_of_In)). simpl in Et. rewrite Nat.eqb_refl in Et. done.
  - destruct rs as [|[t q] rs]; [done|]. destruct (run_task m q o) as [m'|] eqn:Er; simpl; [|done]. intros [= <- <-]. by eapply step_run.
  - destruct (m !! l) as [d|] eqn:El; simpl; [|done]. destruct (has_outcome d) eqn:Eh; [|done]. intros [= <- <-]. by apply step_get.
Qed.

Lemma drives_exec y mvs y' acts : drives y mvs = Some (y', acts) -> exec y acts y'.
Proof.
  revert y acts. induction mvs as [|mv mvs IH]; intros y acts H; cbn [drives] in H; [injection H as <- <-; apply exec_nil|].
  destruct (drive y mv) as [[y1 a]|] eqn:E1; [|done]. cbn in H. destruct (drives y1 mvs) as [[y2 as2]|] eqn:E2; [|done]. cbn in H. injection H as <- <-.
  apply (exec_cons _ _ y1); [by apply (drive_step _ mv)|by apply IH].
Qed.

End task_pool.

(** ** A session: two tasks, the second of which throws; a result is fetched, and the pool shut down *)

Abbreviation erased_nat := (erased (B := nat)).
Definition push_erased : list (QueuedTask (T := erased_nat)) -> list QueuedTask := sorting_push runs_later.
Definition pop_erased : list (QueuedTask (T := erased_nat)) -> list QueuedTask := sorting_pop runs_later.
#[local] Instance erased_heap : HeapImpl runs_later push_erased pop_erased := sorting_heap runs_later.
#[local] Instance erased_pool : Monitor (pool (T := erased_nat)) unit unit ThreadPool.answer ThreadPool.call life := thread_pool push_erased pop_erased 1.

Definition new_system : system (B := nat) (V := nat) (X := nat) := Sys (MState new_pool [Thread Idle worker; Thread Idle client]) ∅ [] [] [].

Lemma new_system_initial : initial (System := task_system push_erased pop_erased 1) new_system.
Proof. split; [|done]. split; [done|by exists 1]. Qed.

Definition two_tasks : list (move_ (B := nat) (V := nat) (X := nat)) :=
  [DoPool (DoCall 0 take); DoSubmit 1 0 7; DoPool (DoNotify 1 0); DoPool (DoReturn 1); DoSubmit 1 3 8; DoPool (DoNotify 1 1); DoPool (DoReturn 1);
   DoPool (DoResume 0); DoPool (DoReturn 0); DoRun (inr 99); DoPool (DoCall 0 take); DoPool (DoReturn 0); DoRun (inl 70); DoGet 0;
   DoPool (DoCall 1 shutdown); DoPool (DoNotify 1 0); DoPool (DoReturn 1); DoPool (DoCall 0 take)].

Lemma every_future_is_answered_witness :
  exists y acts, drives push_erased pop_erased 1 new_system two_tasks = Some (y, acts) /\ length (futures y) = 2 /\
  forall q f, (q, f) ∈ futures y -> exists l d o, f = Some l /\ memory_ y !! l = Some d /\ (q, o) ∈ ran y /\ holds d o.
Proof.
  destruct (drives push_erased pop_erased 1 new_system two_tasks) as [[y acts]|] eqn:E; [|exfalso; vm_compute in E; discriminate E].
  exists y, acts. split; [done|]. pose proof (drives_exec _ _ _ _ _ _ _ E) as Hx.
  vm_compute in E. injection E as Ey Ea.
  pose proof (every_future_is_answered push_erased pop_erased 1 new_system y acts new_system_initial Hx) as H.
  split; [by rewrite <- Ey|]. apply H; rewrite <- ?Ea, <- ?Ey; [by vm_compute|done|]. by exists 0, (Thread (Leaving [] Exit) returned).
Defined.
