(* ===== verification/Posix.v ===== *)
(** * What the library relies on of the operating system

    System calls act on the state [W] of the world outside and either succeed or fail with an
    errno.  [patience w] bounds how often a call will still be interrupted by a signal (or write nothing): the
    loops that retry on [EINTR] end because it decreases. *)

From S2P Require Import Prelude.

Inductive sysret (A : Type) : Type := SysOk (a : A) | SysErr (errno : Z).
Arguments SysOk {A} a.
Arguments SysErr {A} errno.

#[export] Instance sysret_eq_dec {A} `{EqDecision A} : EqDecision (sysret A).
Proof. solve_decision. Defined.

(** [c_str()]: what a C function reads of a string, up to the first NUL. *)
Fixpoint c_str (t : text) : text :=
  match t with [] => [] | c :: t => if Ascii.eqb c "000" then [] else c :: c_str t end.

(** ** The retry loop: [for (;;)] around a call, again while it fails with an error [again] recognises *)

Section retry.
Context {W A : Type} (again : Z -> bool) (patience : W -> nat).

Fixpoint retry_loop (fuel : nat) (sys : W -> sysret A * W) (w : W) : sysret A * W :=
  match fuel, sys w with
  | S fuel, (SysErr e, w') => if again e then retry_loop fuel sys w' else (SysErr e, w')
  | _, r => r
  end.

Definition retry (sys : W -> sysret A * W) (w : W) : sysret A * W := retry_loop (patience w) sys w.

(** Interruptions run out, and do nothing that [P] would notice. *)
Definition interruptible (P : W -> Prop) (sys : W -> sysret A * W) : Prop :=
  forall w w' e, P w -> sys w = (SysErr e, w') -> again e = true -> P w' /\ patience w' < patience w.

Lemma retry_loop_spec P sys fuel w r w' :
  interruptible P sys -> P w -> patience w <= fuel -> retry_loop fuel sys w = (r, w') ->
  (forall e, r = SysErr e -> again e = false) /\ exists w1, P w1 /\ sys w1 = (r, w') /\ patience w1 <= patience w.
Proof.
  intros HI. revert w. induction fuel as [|fuel IH]; intros w Hw Hf E; simpl in E.
  - split; [|by exists w]. intros e ->. destruct (sys w) as [r1 w1] eqn:Es; destruct r1; simplify_eq. destruct (again e) eqn:Ea; [|done].
    destruct (HI _ _ _ Hw Es Ea). lia.
  - destruct (sys w) as [[a|e] w1] eqn:Es; [simplify_eq; split; [done|by exists w]|]. destruct (again e) eqn:Ea.
    + destruct (HI _ _ _ Hw Es Ea) as [Hw1 Hp]. destruct (IH w1 Hw1 ltac:(lia) E) as (Hr & w2 & ? & ? & ?). split; [done|]. exists w2. split_and!; [done..|lia].
    + simplify_eq. split; [by intros e' [= <-]|by exists w].
Qed.

Lemma retry_spec P sys w r w' :
  interruptible P sys -> P w -> retry sys w = (r, w') ->
  (forall e, r = SysErr e -> again e = false) /\ exists w1, P w1 /\ sys w1 = (r, w') /\ patience w1 <= patience w.
Proof. intros HI Hw. by eapply retry_loop_spec. Qed.

(** More fuel changes nothing. *)
Lemma retry_loop_fuel P sys fuel w :
  interruptible P sys -> P w -> patience w <= fuel -> retry_loop fuel sys w = retry sys w.
Proof.
  intros HI. unfold retry. remember (patience w) as m eqn:Em.
  assert (patience w <= m) as Hm by lia. clear Em. revert fuel w Hm. induction m as [|m IH]; intros fuel w Hm Hw Hf.
  - destruct fuel as [|fuel]; [done|]. simpl. destruct (sys w) as [[a|e] w1] eqn:Es; [done|]. destruct (again e) eqn:Ea; [|done].
    destruct (HI _ _ _ Hw Es Ea). lia.
  - destruct fuel as [|fuel]; [lia|]. simpl. destruct (sys w) as [[a|e] w1] eqn:Es; [done|]. destruct (again e) eqn:Ea; [|done].
    destruct (HI _ _ _ Hw Es Ea). apply IH; [lia|done|lia].
Qed.
End retry.

(** ** Files

    [file_contents h w]: the bytes of the file open for writing as [h]; [file_unread h w]: what is left to read through [h].
    The laws are those of POSIX for a file that nobody else uses at the same time. *)

Inductive open_flag : Set := O_RDONLY | O_WRONLY | O_CREAT | O_TRUNC | O_APPEND.

#[export] Instance open_flag_eq_dec : EqDecision open_flag.
Proof. solve_decision. Defined.

Class FileOs (W : Type) := {
  EINTR : Z;
  patience : W -> nat;
  sys_open : text -> list open_flag -> W -> sysret Z * W;
  sys_read : Z -> nat -> W -> sysret text * W;
  sys_write : Z -> text -> W -> sysret nat * W;
  sys_close : Z -> W -> sysret unit * W;
  file_contents : Z -> W -> text;
  file_unread : Z -> W -> text
}.

Class FileOsLaws (W : Type) `{FileOs W} : Prop := {
  open_handle path flags w h w' : sys_open path flags w = (SysOk h, w') -> (0 <= h)%Z;
  open_patience path flags w r w' : sys_open path flags w = (r, w') -> patience w' <= patience w;
  open_interrupted path flags w w' : sys_open path flags w = (SysErr EINTR, w') -> patience w' < patience w;
  read_ok h n w bs w' : sys_read h n w = (SysOk bs, w') ->
    length bs <= n /\ file_unread h w = bs ++ file_unread h w' /\ (bs = [] -> 0 < n -> file_unread h w = []);
  read_failed h n w e w' : sys_read h n w = (SysErr e, w') -> file_unread h w' = file_unread h w /\ e <> 0%Z;
  read_patience h n w r w' : sys_read h n w = (r, w') -> patience w' <= patience w;
  read_interrupted h n w w' : sys_read h n w = (SysErr EINTR, w') -> patience w' < patience w;
  write_ok h bs w n w' : sys_write h bs w = (SysOk n, w') ->
    n <= length bs /\ file_contents h w' = file_contents h w ++ take n bs /\ (n = 0 -> bs <> [] -> patience w' < patience w);
  write_failed h bs w e w' : sys_write h bs w = (SysErr e, w') -> file_contents h w' = file_contents h w;
  write_patience h bs w r w' : sys_write h bs w = (r, w') -> patience w' <= patience w;
  write_interrupted h bs w w' : sys_write h bs w = (SysErr EINTR, w') -> patience w' < patience w;
  close_contents h w r w' : sys_close h w = (r, w') -> file_contents h w' = file_contents h w
}.

(** *** A file in memory, whose calls go wrong as a list of faults says *)

Inductive fault : Set := Interrupted | Short (n : nat) | Fails (errno : Z).

Record memory_file := MemoryFile { bytes : text; position : nat; faults : list fault }.

Definition next_fault (w : memory_file) : option fault * memory_file :=
  match faults w with [] => (None, w) | f :: fs => (Some f, MemoryFile (bytes w) (position w) fs) end.

#[export] Instance memory_os : FileOs memory_file := {
  EINTR := 4;
  patience w := length (faults w);
  sys_open path flags w :=
    match next_fault w with
    | (Some Interrupted, w) => (SysErr 4, w)
    | (Some (Fails e), w) => (SysErr e, w)
    | (_, w) => (SysOk 3%Z, MemoryFile (if bool_decide (O_TRUNC ∈ flags) then [] else bytes w) 0 (faults w))
    end;
  sys_read h n w :=
    let give n w := (SysOk (take n (drop (position w) (bytes w))), MemoryFile (bytes w) (position w + n) (faults w)) in
    match next_fault w with
    | (Some Interrupted, w) => (SysErr 4, w)
    | (Some (Fails e), w) => if (e =? 0)%Z then give n w else (SysErr e, w)
    | (Some (Short m), w) => give (min n (S m)) w
    | (None, w) => give n w
    end;
  sys_write h bs w :=
    let put n w := (SysOk n, MemoryFile (bytes w ++ take n bs) (position w) (faults w)) in
    match next_fault w with
    | (Some Interrupted, w) => (SysErr 4, w)
    | (Some (Fails e), w) => (SysErr e, w)
    | (Some (Short m), w) => put (min m (length bs)) w
    | (None, w) => put (length bs) w
    end;
  sys_close h w :=
    match next_fault w with
    | (Some (Fails e), w) => (SysErr e, w)
    | (_, w) => (SysOk tt, w)
    end;
  file_contents _ w := bytes w;
  file_unread _ w := drop (position w) (bytes w)
}.

Lemma read_some (l : text) n : take n l = [] -> 0 < n -> l = [].
Proof. destruct n, l; simpl; [lia|lia|done|done]. Qed.

#[export] Instance memory_laws : FileOsLaws memory_file.
Proof.
  split; intros *; destruct w as [b p [|[|m|e0] fs]]; simpl; unfold next_fault; simpl;
    repeat (case_match; simplify_eq/=); intros; bools; simplify_eq/=; try done; try lia; split_and!; try done;
    rewrite ?length_take, ?length_drop, ?firstn_all; try lia; rewrite <- ?drop_drop, ?take_drop; try done; try lia; intros;
    try (by eapply read_some; [eassumption|lia]); by destruct bs.
Qed.
