(* ===== verification/UdpLifetime.v ===== *)
(** * The resources of UdpSink (logger.cpp): the Winsock session and the socket

    [LogSinks] models what the sinks write; here is what they hold.  The sink's members are built in order -- the session, which
    on POSIX is nothing, then, in the constructor's body, the address and the socket -- and destroyed in reverse,
    also when the constructor throws half-way.  The thread-id cache of the logger is here, too. *)

From S2P Require Import Prelude Charconv StringBuilder Posix.

(** The calls the two platforms share or replace; a handle is never [invalid_socket_handle]. *)
Class DatagramHost (W A : Type) := {
  numeric_address : text -> text -> W -> (Z + A) * W;
  address_length : A -> nat;
  open_datagram : A -> W -> Z * W;
  close_datagram : Z -> W -> W;
  wsa_startup : W -> Z * W;
  wsa_cleanup : W -> W;
  open_sockets : W -> gset Z;
  sessions : W -> nat
}.

Definition invalid_socket_handle : Z := -1.

Class DatagramHostLaws (W A : Type) `{DatagramHost W A} : Prop := {
  numeric_frame h p w r w' : numeric_address h p w = (r, w') -> open_sockets w' = open_sockets w /\ sessions w' = sessions w;
  open_datagram_spec a w h w' : open_datagram a w = (h, w') ->
    sessions w' = sessions w /\
    if (h =? invalid_socket_handle)%Z then open_sockets w' = open_sockets w
    else (h ∉ open_sockets w) /\ open_sockets w' = {[h]} ∪ open_sockets w;
  close_datagram_spec h w : open_sockets (close_datagram h w) = open_sockets w ∖ {[h]} /\ sessions (close_datagram h w) = sessions w;
  wsa_startup_spec w s w' : wsa_startup w = (s, w') ->
    open_sockets w' = open_sockets w /\ sessions w' = (if (s =? 0)%Z then S (sessions w) else sessions w);
  wsa_cleanup_spec w : open_sockets (wsa_cleanup w) = open_sockets w /\ sessions (wsa_cleanup w) = sessions w - 1
}.

Section lifetime.
Context {W A : Type} `{!DatagramHost W A} (windows : bool).

Record udp_state := UdpState { socket_ : Z; address_ : A }.

(** [WsaSession]: its constructor, which may throw on Windows, and its destructor. *)
Definition session_construct (w : W) : outcome unit * W :=
  if windows then let '(status, w) := wsa_startup w in ((if (status =? 0)%Z then Ret () else Throw runtime_error), w) else (Ret (), w).

Definition session_destroy (w : W) : W := if windows then wsa_cleanup w else w.

(** The body of the constructor, after the session member: the address must fit [sockaddr_storage], 128 bytes. *)
Definition construct_body (host : text) (port : Z) (w : W) : outcome udp_state * W :=
  match numeric_address (c_str host) (buffer_ (append_int empty_builder port)) w with
  | (inl _, w) => (Throw invalid_argument, w)
  | (inr a, w) =>
      if (128 <? address_length a)%nat then (Throw runtime_error, w)
      else
        let '(h, w) := open_datagram a w in
        ((if (h =? invalid_socket_handle)%Z then Throw runtime_error else Ret (UdpState h a)), w)
  end.

(** A throwing body destroys the members built before it. *)
Definition construct (host : text) (port : Z) (w : W) : outcome udp_state * W :=
  match session_construct w with
  | (Throw e, w) => (Throw e, w)
  | (Ret _, w) =>
      match construct_body host port w with
      | (Throw e, w) => (Throw e, session_destroy w)
      | r => r
      end
  end.

Definition destroy (s : udp_state) (w : W) : W :=
  session_destroy (if (socket_ s =? invalid_socket_handle)%Z then w else close_datagram (socket_ s) w).

Context `{!DatagramHostLaws W A}.

Lemma session_construct_spec w r w' :
  session_construct w = (r, w') -> open_sockets w' = open_sockets w /\
  match r with Ret _ => sessions w' = sessions w + (if windows then 1 else 0) | Throw _ => sessions w' = sessions w end.
Proof.
  unfold session_construct. destruct windows; [|intros [= <- <-]; split; [done|lia]]. destruct (wsa_startup w) as [s w1] eqn:E.
  destruct (wsa_startup_spec _ _ _ E) as [H1 H2]. intros [= <- <-]. destruct (Z.eqb_spec s 0); split; try done; lia.
Qed.

Lemma session_destroy_spec w :
  open_sockets (session_destroy w) = open_sockets w /\ sessions (session_destroy w) = sessions w - (if windows then 1 else 0).
Proof. unfold session_destroy. destruct windows; [apply wsa_cleanup_spec|split; [done|lia]]. Qed.

(** A UDP sink leaks nothing.  A constructor that throws leaves the open sockets and the count of Winsock sessions as it found
    them; one that returns has opened one socket; and the destructor gives back that socket and the session, whatever happened in
    between to the rest of the world. *)
Theorem udp_sink_leaks_nothing host port w r w' :
  construct host port w = (r, w') ->
  match r with
  | Throw _ => open_sockets w' = open_sockets w /\ sessions w' = sessions w
  | Ret s =>
      socket_ s <> invalid_socket_handle /\ (socket_ s ∉ open_sockets w) /\ open_sockets w' = {[socket_ s]} ∪ open_sockets w /\
      open_sockets (destroy s w') = open_sockets w /\ sessions (destroy s w') = sessions w
  end.
Proof.
  unfold construct. destruct (session_construct w) as [[u|e] w1] eqn:E1; destruct (session_construct_spec _ _ _ E1) as [H1 H2]; [|by intros [= <- <-]].
  unfold construct_body. destruct (numeric_address _ _ w1) as [[e|a] w2] eqn:E2; destruct (numeric_frame _ _ _ _ _ E2) as [H3 H4].
  - intros [= <- <-]. destruct (session_destroy_spec w2) as [H5 H6]. split; [congruence|lia].
  - destruct (128 <? address_length a)%nat; [intros [= <- <-]; destruct (session_destroy_spec w2) as [H5 H6]; split; [congruence|lia]|].
    destruct (open_datagram a w2) as [h w3] eqn:E3. destruct (open_datagram_spec _ _ _ _ E3) as [H5 H6].
    destruct (Z.eqb_spec h invalid_socket_handle) as [Hh|Hh]; intros [= <- <-].
    + destruct (session_destroy_spec w3) as [H7 H8]. split; [congruence|lia].
    + destruct H6 as [H6 H7]. unfold destroy. simpl. destruct (Z.eqb_spec h invalid_socket_handle); [done|].
      destruct (session_destroy_spec (close_datagram h w3)) as [H8 H9]. destruct (close_datagram_spec h w3) as [H10 H11].
      assert (open_sockets w2 = open_sockets w) as Hw by congruence. rewrite Hw in *. split_and!; try done; [|lia].
      rewrite H8, H10, H7. set_solver.
Qed.

End lifetime.

(** ** A world that only counts: handles are handed out upwards, and the resolver knows numbers only *)

Record sockets := Sockets { sockets_open : gset Z; next_socket : Z; wsa_count : nat }.

#[export] Instance counting_host : DatagramHost sockets nat := {
  numeric_address h p w := ((match h with [] => inl (-2)%Z | _ => inr (length h) end), w);
  address_length a := a;
  open_datagram a w := if (next_socket w <? 0)%Z || bool_decide (next_socket w ∈ sockets_open w) then ((-1)%Z, w)
    else (next_socket w, Sockets ({[next_socket w]} ∪ sockets_open w) (next_socket w + 1) (wsa_count w));
  close_datagram h w := Sockets (sockets_open w ∖ {[h]}) (next_socket w) (wsa_count w);
  wsa_startup w := (0%Z, Sockets (sockets_open w) (next_socket w) (S (wsa_count w)));
  wsa_cleanup w := Sockets (sockets_open w) (next_socket w) (wsa_count w - 1);
  open_sockets := sockets_open;
  sessions := wsa_count
}.

#[export] Instance counting_laws : DatagramHostLaws sockets nat.
Proof.
  split; simpl; intros; simplify_eq/=; try done.
  destruct ((next_socket w <? 0)%Z || bool_decide (next_socket w ∈ sockets_open w)) eqn:E; simplify_eq/=; [done|].
  apply orb_false_iff in E as [E1%Z.ltb_ge E2%bool_decide_eq_false]. split; [done|]. unfold invalid_socket_handle.
  destruct (Z.eqb_spec (next_socket w) (-1)); [lia|done].
Qed.

Lemma udp_sink_leaks_nothing_witness :
  let w := Sockets {[3%Z]} 4 1 in
  let '(r, w') := construct true ($"127.0.0.1") 514 w in
  match r with
  | Throw _ => open_sockets w' = open_sockets w /\ sessions w' = sessions w
  | Ret s =>
      socket_ s <> invalid_socket_handle /\ (socket_ s ∉ open_sockets w) /\ open_sockets w' = {[socket_ s]} ∪ open_sockets w /\
      open_sockets (destroy true s w') = open_sockets w /\ sessions (destroy true s w') = sessions w
  end.
Proof. cbv zeta. destruct (construct true _ _ _) as [r w'] eqn:E. exact (udp_sink_leaks_nothing true _ _ _ r w' E). Defined.

(** ** The id of the calling thread, asked of the system once per thread *)

Definition current_thread_id (compute : Z -> Z) (cache : gmap Z Z) (thread : Z) : Z * gmap Z Z :=
  match cache !! thread with
  | Some id => (id, cache)
  | None => (compute thread, <[thread := compute thread]> cache)
  end.

(** Every call of one thread answers the same. *)
Lemma current_thread_id_stable compute compute' cache thread :
  let '(id, cache') := current_thread_id compute cache thread in current_thread_id compute' cache' thread = (id, cache').
Proof.
  unfold current_thread_id. destruct (cache !! thread) as [id|] eqn:E; [by rewrite E|]. by rewrite lookup_insert_eq.
Qed.
