(* ===== verification/UdpDatagram.v ===== *)
(** * One record, one datagram (logger.cpp: send_datagram on both platforms, compute_thread_id)

    [send_datagram] over [sendto], which takes a length: of any size on POSIX, an [int] on Windows.  The UDP sink of [LogSinks] writes
    through it. *)

From S2P Require Import Prelude Posix.

(** [sendto h payload length a w]: at least 0 when a datagram left; [datagrams h w]: those that left through [h]. *)
Class SendTo (W A : Type) := {
  sendto : Z -> text -> Z -> A -> W -> Z * W;
  datagrams : Z -> W -> list text
}.

(** A length within the buffer sends that much of it, or fails with [SOCKET_ERROR] and sends nothing. *)
Class SendToLaws (W A : Type) `{SendTo W A} : Prop := {
  sendto_spec h payload n a w r w' : sendto h payload n a w = (r, w') -> (0 <= n <= Z.of_nat (length payload))%Z ->
    if (0 <=? r)%Z then datagrams h w' = datagrams h w ++ [take (Z.to_nat n) payload]
    else r = (-1)%Z /\ datagrams h w' = datagrams h w
}.

Definition SOCKET_ERROR : Z := -1.

Section datagrams.
Context {W A : Type} `{!SendTo W A}.

Definition posix_send_datagram (h : Z) (payload : text) (a : A) (w : W) : bool * W :=
  let '(r, w) := sendto h payload (Z.of_nat (length payload)) a w in ((0 <=? r)%Z, w).

(** [static_cast<int>(payload.size())]. *)
Definition windows_send_datagram (h : Z) (payload : text) (a : A) (w : W) : bool * W :=
  let '(r, w) := sendto h payload (to_signed 32 (Z.of_nat (length payload))) a w in (negb (r =? SOCKET_ERROR)%Z, w).

Definition send_datagram (windows : bool) (h : Z) (payload : text) (a : A) (w : W) : bool * W :=
  if windows then windows_send_datagram h payload a w else posix_send_datagram h payload a w.

Context `{!SendToLaws W A}.

Lemma posix_send_whole h payload a w ok w' :
  posix_send_datagram h payload a w = (ok, w') -> datagrams h w' = datagrams h w ++ (if ok then [payload] else []).
Proof.
  unfold posix_send_datagram. destruct (sendto _ _ _ _ w) as [r w1] eqn:E. intros [= <- <-]. pose proof (sendto_spec _ _ _ _ _ _ _ E ltac:(lia)) as Hs.
  destruct (0 <=? r)%Z; [by rewrite Nat2Z.id, firstn_all in Hs|]. rewrite app_nil_r. apply Hs.
Qed.

(** What leaves on Windows: the low 32 bits of the size, as long as they are not taken for a negative number. *)
Lemma windows_send_low_bits h payload a w ok w' n :
  windows_send_datagram h payload a w = (ok, w') -> n = (Z.of_nat (length payload) mod 2 ^ 32)%Z -> (n < 2 ^ 31)%Z ->
  datagrams h w' = datagrams h w ++ (if ok then [take (Z.to_nat n) payload] else []).
Proof.
  intros E -> Hn. assert (to_signed 32 (Z.of_nat (length payload)) = Z.of_nat (length payload) mod 2 ^ 32)%Z as Hsize.
  { unfold to_signed. by rewrite (proj2 (Z.ltb_lt _ _)). }
  unfold windows_send_datagram in E. rewrite Hsize in E. pose proof (Z.mod_pos_bound (Z.of_nat (length payload)) (2 ^ 32) ltac:(lia)).
  pose proof (Z.mod_le (Z.of_nat (length payload)) (2 ^ 32) ltac:(lia) ltac:(lia)).
  destruct (sendto _ _ _ _ w) as [r w1] eqn:Es. injection E as <- <-. pose proof (sendto_spec _ _ _ _ _ _ _ Es ltac:(lia)) as Hs. unfold SOCKET_ERROR.
  destruct (Z.leb_spec 0 r), (Z.eqb_spec r (-1)); simpl; [lia|done| |lia]. rewrite app_nil_r. apply Hs.
Qed.

Lemma windows_send_whole h payload a w ok w' :
  windows_send_datagram h payload a w = (ok, w') -> (Z.of_nat (length payload) < 2 ^ 31)%Z ->
  datagrams h w' = datagrams h w ++ (if ok then [payload] else []).
Proof.
  intros E Hl. assert (Z.of_nat (length payload) mod 2 ^ 32 = Z.of_nat (length payload))%Z as Hm by (apply Z.mod_small; lia).
  pose proof (windows_send_low_bits _ _ _ _ _ _ _ E eq_refl) as H. rewrite Hm, Nat2Z.id, firstn_all in H. by apply H.
Qed.

(** On Windows a line of [2^32 + k] bytes is reported as sent when its first [k] bytes have left. *)
Theorem oversized_line_reported_sent h payload a w w' k :
  windows_send_datagram h payload a w = (true, w') -> Z.of_nat (length payload) = (2 ^ 32 + k)%Z -> (0 <= k < 2 ^ 31)%Z ->
  datagrams h w' = datagrams h w ++ [take (Z.to_nat k) payload] /\ take (Z.to_nat k) payload <> payload.
Proof.
  intros E Hl Hk. assert (k = Z.of_nat (length payload) mod 2 ^ 32)%Z as Hm.
  { rewrite Hl, Z.add_comm. replace (k + 2 ^ 32)%Z with (k + 1 * 2 ^ 32)%Z by lia. rewrite Z.mod_add, Z.mod_small; lia. }
  split; [by apply (windows_send_low_bits _ _ _ _ true _ k E Hm ltac:(lia))|]. intros Ht%(f_equal length). rewrite length_take in Ht. lia.
Qed.

(** The function of the platform, and what both have in common: below 2^31 bytes a line leaves whole or not at all, and the answer says which. *)
Lemma send_datagram_whole windows h payload a w ok w' :
  send_datagram windows h payload a w = (ok, w') -> (windows = true -> (Z.of_nat (length payload) < 2 ^ 31)%Z) ->
  datagrams h w' = datagrams h w ++ (if ok then [payload] else []).
Proof.
  unfold send_datagram. destruct windows; intros E Hl; [apply (windows_send_whole _ _ _ _ _ _ E (Hl eq_refl))|apply (posix_send_whole _ _ _ _ _ _ E)].
Qed.
End datagrams.

(** A network that takes payloads up to a limit. *)
Definition limited_sendto (limit : Z) (payload : text) (n : Z) (sent : list text) : Z * list text :=
  if ((0 <=? n) && (n <=? limit))%Z then (n, sent ++ [take (Z.to_nat n) payload]) else ((-1)%Z, sent).

#[export] Instance limited : SendTo (list text) Z := { sendto h payload n limit := limited_sendto limit payload n; datagrams h w := w }.

#[export] Instance limited_laws : SendToLaws (list text) Z.
Proof.
  split. simpl. intros h payload n limit w r w' E Hn. unfold limited_sendto in E.
  destruct (Z.leb_spec 0 n), (Z.leb_spec n limit); simpl in E; simplify_eq; [|by split|lia..]. by rewrite (proj2 (Z.leb_le 0 r)).
Qed.

Example datagrams_sample :
  posix_send_datagram 3 ($"hello") 8%Z [] = (true, [$"hello"]) /\ windows_send_datagram 3 ($"far too long") 8%Z [$"x"] = (false, [$"x"]).
Proof. by vm_compute. Qed.

(** ** The id of the calling thread *)

Inductive platform : Set := Windows | Linux | Apple | Unknown.

(** [native]: [GetCurrentThreadId], the [gettid] system call, or the number [pthread_threadid_np] stores; [status]: its result;
    [hashed]: the hash of [std::this_thread::get_id()]. *)
Definition compute_thread_id (p : platform) (native status hashed : Z) : Z :=
  match p with
  | Windows | Linux => u64 native
  | Apple => if (status =? 0)%Z then u64 native else u64 hashed
  | Unknown => u64 hashed
  end.
