(* ===== verification/Logger.v ===== *)
(** * Logger (logger.hpp, logger.cpp): the asynchronous multi-sink logger

    Producers and the pump thread share one mutex and three condition variables.  The pump's loop
    is the sequence of its critical sections and of its work outside the lock; [life] is where it
    is in that sequence.  Rendering and the sinks are parameters ([Sink] is an interface the user
    implements); a sink call that throws is one that reports failure.

    [flush] notifies the pump under the lock just before it waits.  Here its section is split in
    two, [flush] and [flush_wait]: other threads may run in between, so every behaviour of the code
    is one of the model. *)

From S2P Require Import Prelude Monitor.
Open Scope Z_scope.

(** ** Levels and records *)

Inductive LogLevel : Set := trace | debug | info | warning | error | critical | off.

Definition level_rank (l : LogLevel) : Z :=
  match l with trace => 0 | debug => 1 | info => 2 | warning => 3 | error => 4 | critical => 5 | off => 6 end.

Definition level_name (l : LogLevel) : text :=
  match l with
  | trace => $"trace"
  | debug => $"debug"
  | info => $"info"
  | warning => $"warning"
  | error => $"error"
  | critical => $"critical"
  | off => $"off"
  end.

(** [time]: nanoseconds since the epoch. *)
Record LogRecord := MkRecord { time : Z; level : LogLevel; thread_id : Z; message : text }.

#[export] Instance LogLevel_eq_dec : EqDecision LogLevel.
Proof. solve_decision. Defined.
#[export] Instance LogRecord_eq_dec : EqDecision LogRecord.
Proof. solve_decision. Defined.

Inductive OverflowPolicy : Set := block | drop.

Inductive QueueItem : Type := Entry (r : LogRecord) | FlushMarker (ticket : Z).

Section logger.
Context {Sk : Type} (sink_write : Sk -> LogRecord -> text -> Sk * bool) (sink_flush : Sk -> Sk * bool).
Context (render_line : LogRecord -> text).
Context (capacity_ : nat) (policy_ : OverflowPolicy) (sinks : list Sk).

Record logger := MkLogger {
  sinks_ : list Sk;
  min_level_ : LogLevel;
  dropped_ : Z;
  sink_failures_ : Z;
  queue_ : list QueueItem;
  flush_requested_ : Z;
  flush_completed_ : Z;
  stopping_ : bool
}.

Definition make : outcome logger :=
  if bool_decide (sinks = []) then Throw invalid_argument
  else if (capacity_ =? 0)%nat then Throw invalid_argument
  else Ret (MkLogger sinks trace 0 0 [] 0 0 false).

Definition set_queue (d : logger) (q : list QueueItem) : logger :=
  MkLogger (sinks_ d) (min_level_ d) (dropped_ d) (sink_failures_ d) q (flush_requested_ d) (flush_completed_ d) (stopping_ d).
Definition set_sinks (d : logger) (s : list Sk) (failures : Z) : logger :=
  MkLogger s (min_level_ d) (dropped_ d) failures (queue_ d) (flush_requested_ d) (flush_completed_ d) (stopping_ d).
Definition set_completed (d : logger) (n : Z) : logger :=
  MkLogger (sinks_ d) (min_level_ d) (dropped_ d) (sink_failures_ d) (queue_ d) (flush_requested_ d) n (stopping_ d).

(** ** The sinks: one call each, in order; a failure is counted and does not stop the others *)

Fixpoint write_all (ss : list Sk) (r : LogRecord) (line : text) : list Sk * nat :=
  match ss with
  | [] => ([], 0%nat)
  | s :: ss =>
      let '(s, ok) := sink_write s r line in
      let '(ss, n) := write_all ss r line in
      (s :: ss, if ok then n else S n)
  end.

Fixpoint flush_all (ss : list Sk) : list Sk * nat :=
  match ss with
  | [] => ([], 0%nat)
  | s :: ss =>
      let '(s, ok) := sink_flush s in
      let '(ss, n) := flush_all ss in
      (s :: ss, if ok then n else S n)
  end.

(** ** The monitor *)

Inductive cond : Set := records_available | space_available | flush_done.
#[export] Instance cond_eq_dec : EqDecision cond.
Proof. solve_decision. Defined.

(** [from_sink]: the call is made by a sink, on the pump thread.  [threshold]: what the relaxed load
    of [min_level_] returned, which need not be the level last set. *)
Inductive call : Type :=
  | log (from_sink : bool) (threshold : LogLevel) (r : LogRecord)
  | flush (from_sink : bool)
  | flush_wait (ticket : Z)
  | shutdown
  | set_level (l : LogLevel)
  | pump_take
  | pump_deliver (r : LogRecord)
  | pump_flush (marker : option Z)
  | pump_complete (marker : option Z).

Inductive answer : Type :=
  | Accepted (r : LogRecord)
  | Filtered
  | Dropped
  | Rejected (e : exn)
  | Ticket (ticket : Z)
  | FlushDone (ticket : Z)
  | AlreadyStopping
  | Stopping
  | LevelSet
  | Taken (i : QueueItem)
  | Drained
  | Wrote (r : LogRecord)
  | FlushedSinks (marker : option Z)
  | Completed.

Inductive waiting : Type := in_log (r : LogRecord) | in_flush (ticket : Z) | in_take.

Abbreviation section := (verdict logger cond waiting answer).

Definition accept (r : LogRecord) (d : logger) : section :=
  Finish (set_queue d (queue_ d ++ [Entry r])) [NotifyOne records_available] (Accepted r).

Definition enqueue (from_sink : bool) (r : LogRecord) (d : logger) : section :=
  if stopping_ d then Finish d [] (Rejected logic_error)
  else if (capacity_ <=? length (queue_ d))%nat then
    match policy_ with
    | drop =>
        Finish (MkLogger (sinks_ d) (min_level_ d) (u64 (dropped_ d + 1)) (sink_failures_ d) (queue_ d) (flush_requested_ d)
                  (flush_completed_ d) (stopping_ d)) [] Dropped
    | block => if from_sink then Finish d [] (Rejected logic_error) else Block d space_available (in_log r)
    end
  else accept r d.

Definition log_section (from_sink : bool) (threshold : LogLevel) (r : LogRecord) (d : logger) : section :=
  match level r with
  | off => Finish d [] (Rejected invalid_argument)
  | l => if level_rank l <? level_rank threshold then Finish d [] Filtered else enqueue from_sink r d
  end.

Definition flush_section (from_sink : bool) (d : logger) : section :=
  if from_sink then Finish d [] (Rejected logic_error)
  else if stopping_ d then Finish d [] AlreadyStopping
  else
    let ticket := u64 (flush_requested_ d + 1) in
    Finish (MkLogger (sinks_ d) (min_level_ d) (dropped_ d) (sink_failures_ d) (queue_ d ++ [FlushMarker ticket]) ticket
              (flush_completed_ d) (stopping_ d)) [NotifyOne records_available] (Ticket ticket).

Definition flush_wait_section (ticket : Z) (d : logger) : section :=
  if ticket <=? flush_completed_ d then Finish d [] (FlushDone ticket) else Block d flush_done (in_flush ticket).

Definition shutdown_section (d : logger) : section :=
  Finish (MkLogger (sinks_ d) (min_level_ d) (dropped_ d) (sink_failures_ d) (queue_ d) (flush_requested_ d) (flush_completed_ d) true)
    [NotifyAll records_available; NotifyAll space_available] Stopping.

Definition take_section (d : logger) : section :=
  match queue_ d with
  | i :: q => Finish (set_queue d q) [NotifyOne space_available] (Taken i)
  | [] => if stopping_ d then Finish d [] Drained else Block d records_available in_take
  end.

Definition deliver_section (r : LogRecord) (d : logger) : section :=
  let '(ss, n) := write_all (sinks_ d) r (render_line r) in
  Finish (set_sinks d ss (u64 (sink_failures_ d + Z.of_nat n))) [] (Wrote r).

Definition flush_sinks_section (marker : option Z) (d : logger) : section :=
  let '(ss, n) := flush_all (sinks_ d) in
  Finish (set_sinks d ss (u64 (sink_failures_ d + Z.of_nat n))) [] (FlushedSinks marker).

(** [flush_completed_ = max(flush_completed_, ticket)], and all tickets after the drain. *)
Definition complete_section (marker : option Z) (d : logger) : section :=
  let n := match marker with Some ticket => Z.max (flush_completed_ d) ticket | None => flush_requested_ d end in
  Finish (set_completed d n) [NotifyAll flush_done] Completed.

Definition logger_start (c : call) (d : logger) : section :=
  match c with
  | log from_sink threshold r => log_section from_sink threshold r d
  | flush from_sink => flush_section from_sink d
  | flush_wait ticket => flush_wait_section ticket d
  | shutdown => shutdown_section d
  | set_level l =>
      Finish (MkLogger (sinks_ d) l (dropped_ d) (sink_failures_ d) (queue_ d) (flush_requested_ d) (flush_completed_ d) (stopping_ d))
        [] LevelSet
  | pump_take => take_section d
  | pump_deliver r => deliver_section r d
  | pump_flush marker => flush_sinks_section marker d
  | pump_complete marker => complete_section marker d
  end.

(** A producer that was waiting for space is refused when shutdown began in the meantime. *)
Definition logger_resume (k : waiting) (expired : bool) (d : logger) : section :=
  match k with
  | in_log r =>
      if stopping_ d then Finish d [] (Rejected logic_error)
      else if (length (queue_ d) <? capacity_)%nat then accept r d
      else Block d space_available k
  | in_flush ticket => flush_wait_section ticket d
  | in_take => take_section d
  end.

(** Where a thread is: a client, a client inside [flush], or the pump at a point of its loop. *)
Inductive life : Type :=
  | client
  | flushing (ticket : Z)
  | taking
  | delivering (r : LogRecord)
  | flushing_sinks (marker : option Z)
  | completing (marker : option Z)
  | joined.

Definition may_call (l : life) (c : call) : bool :=
  match l, c with
  | client, (log false _ _ | flush false | shutdown | set_level _) => true
  | flushing ticket, flush_wait ticket' => ticket =? ticket'
  | taking, pump_take => true
  | (delivering _ | flushing_sinks _), (log true _ _ | flush true | set_level _) => true
  | delivering r, pump_deliver r' => bool_decide (r = r')
  | flushing_sinks m, pump_flush m' => bool_decide (m = m')
  | completing m, pump_complete m' => bool_decide (m = m')
  | _, _ => false
  end.

Definition next_life (l : life) (a : answer) : life :=
  match a with
  | Ticket ticket => flushing ticket
  | FlushDone _ => client
  | Taken (Entry r) => delivering r
  | Taken (FlushMarker ticket) => flushing_sinks (Some ticket)
  | Drained => flushing_sinks None
  | Wrote _ => taking
  | FlushedSinks m => completing m
  | Completed => match l with completing None => joined | _ => taking end
  | _ => l
  end.

#[export] Instance logger_monitor : Monitor logger cond waiting answer call life := {
  start := logger_start;
  resume := logger_resume;
  timed _ := false;
  initial_data d := make = Ret d;
  own_locals := [taking];
  fresh_local := client;
  permitted := may_call;
  settle := next_life
}.

Abbreviation state := (mstate logger cond waiting answer life).
Abbreviation thread := (thread cond waiting answer life).
Abbreviation event := (event answer call).

(** ** Traces *)

(** What was put into the queue, in order; what the pump took out of it; what it has dealt with. *)
Definition stream (es : list event) : list QueueItem :=
  omap (fun e => match event_result e with Some (Accepted r) => Some (Entry r) | Some (Ticket n) => Some (FlushMarker n) | _ => None end) es.
Definition taken (es : list event) : list QueueItem :=
  omap (fun e => match event_result e with Some (Taken i) => Some i | _ => None end) es.
Definition handled (es : list event) : list QueueItem :=
  omap (fun e => match event_result e with
                 | Some (Wrote r) => Some (Entry r)
                 | Some (FlushedSinks (Some n)) => Some (FlushMarker n)
                 | _ => None
                 end) es.
Definition drops (es : list event) : list unit :=
  omap (fun e => match event_result e with Some Dropped => Some tt | _ => None end) es.

Definition tickets (l : list QueueItem) : list Z := omap (fun i => match i with FlushMarker n => Some n | Entry _ => None end) l.
Definition entries (l : list QueueItem) : list LogRecord := omap (fun i => match i with Entry r => Some r | FlushMarker _ => None end) l.

(** The item the pump has taken and not dealt with yet. *)
Definition in_hand (l : life) : list QueueItem :=
  match l with delivering r => [Entry r] | flushing_sinks (Some n) => [FlushMarker n] | _ => [] end.

Definition is_pump (l : life) : bool := match l with client | flushing _ => false | _ => true end.

(** The call a sleeping or woken thread is inside belongs to where it is. *)
Definition proper (th : thread) : Prop :=
  match stat th with
  | Asleep _ k | Ready k _ =>
      match k with in_log _ => local th = client | in_flush n => local th = flushing n | in_take => local th = taking end
  | _ => True
  end.

(** ** The state against the trace *)

Definition same_pump (ls ls' : list life) : Prop :=
  ls' !! 0%nat = ls !! 0%nat /\ forall t l, ls' !! t = Some l -> t <> 0%nat -> is_pump l = false.

(** The pump is past its loop: it drains nothing more. *)
Definition past_loop (l : life) : bool :=
  match l with flushing_sinks None | completing None | joined => true | _ => false end.

(** The sinks are flushed for a ticket that is not marked completed yet. *)
Definition completes (l : life) : bool := match l with completing (Some _) => true | _ => false end.

Record progress (es : list event) (d : logger) (ls : list life) : Prop := {
  p_stream : stream es = taken es ++ queue_ d;
  p_pump : exists l, ls !! 0%nat = Some l /\ is_pump l = true /\ taken es = handled es ++ in_hand l /\
    (past_loop l = true -> stopping_ d = true /\ queue_ d = []) /\
    (forall n, l = completing (Some n) -> n = Z.of_nat (length (tickets (handled es)))) /\
    flush_completed_ d + (if completes l then 1 else 0) = Z.of_nat (length (tickets (handled es)));
  p_clients : forall t l, ls !! t = Some l -> t <> 0%nat -> is_pump l = false;
  p_tickets : forall i n, tickets (stream es) !! i = Some n -> n = Z.of_nat i + 1;
  p_requested : flush_requested_ d = Z.of_nat (length (tickets (stream es)));
  p_dropped : dropped_ d = u64 (Z.of_nat (length (drops es)))
}.

Lemma stream_app es es' : stream (es ++ es') = stream es ++ stream es'.
Proof. apply omap_app. Qed.
Lemma taken_app es es' : taken (es ++ es') = taken es ++ taken es'.
Proof. apply omap_app. Qed.
Lemma handled_app es es' : handled (es ++ es') = handled es ++ handled es'.
Proof. apply omap_app. Qed.
Lemma drops_app es es' : drops (es ++ es') = drops es ++ drops es'.
Proof. apply omap_app. Qed.
Lemma tickets_app l l' : tickets (l ++ l') = tickets l ++ tickets l'.
Proof. apply omap_app. Qed.

(** What one event adds to the traces. *)
Definition adds (e : event) (s t h : list QueueItem) (x : list unit) : Prop :=
  stream [e] = s /\ taken [e] = t /\ handled [e] = h /\ drops [e] = x.

Lemma adds_result e a :
  event_result e = a ->
  adds e (match a with Some (Accepted r) => [Entry r] | Some (Ticket n) => [FlushMarker n] | _ => [] end)
    (match a with Some (Taken i) => [i] | _ => [] end)
    (match a with Some (Wrote r) => [Entry r] | Some (FlushedSinks (Some n)) => [FlushMarker n] | _ => [] end)
    (match a with Some Dropped => [tt] | _ => [] end).
Proof.
  intros E. unfold adds, stream, taken, handled, drops. simpl. rewrite E. split_and!; destruct a as [[]|]; try done; by destruct marker.
Qed.

Ltac traces H := destruct H as (?E1 & ?E2 & ?E3 & ?E4); rewrite ?stream_app, ?taken_app, ?handled_app, ?drops_app, ?E1, ?E2, ?E3, ?E4, ?app_nil_r.

(** A section that leaves the queue and the tickets alone, and the pump where it is. *)
Lemma progress_neutral es d ls e d' ls' :
  progress es d ls -> adds e [] [] [] [] -> same_pump ls ls' ->
  queue_ d' = queue_ d -> flush_requested_ d' = flush_requested_ d -> flush_completed_ d' = flush_completed_ d ->
  dropped_ d' = dropped_ d -> (stopping_ d = true -> stopping_ d' = true) -> progress (es ++ [e]) d' ls'.
Proof.
  intros [H1 (l & Hl & Hp & Ht & Hpast & Hc & Hj) H3 H4 H5 H7] Ha [S1 S2] Eq Er Ec Ed Es.
  split; traces Ha; rewrite ?Eq, ?Er, ?Ec, ?Ed; try done.
  exists l. split_and!; [congruence|done..| |done|done]. intros Hl'. destruct (Hpast Hl'). auto.
Qed.

Lemma progress_drop es d ls e d' :
  progress es d ls -> adds e [] [] [] [tt] -> queue_ d' = queue_ d -> flush_requested_ d' = flush_requested_ d ->
  flush_completed_ d' = flush_completed_ d -> dropped_ d' = u64 (dropped_ d + 1) -> stopping_ d' = stopping_ d -> progress (es ++ [e]) d' ls.
Proof.
  intros [H1 (l & Hl & Hp & Ht & Hpast & Hc & Hj) H3 H4 H5 H7] Ha Eq Er Ec Ed Es.
  split; traces Ha; rewrite ?Eq, ?Er, ?Ec, ?Es; try done.
  - exists l. done.
  - rewrite Ed, H7, length_app. simpl. rewrite wrap_add_l. f_equal. lia.
Qed.

(** A section that puts an item into the queue, with its ticket if it is a marker. *)
Lemma progress_put es d ls e d' ls' i :
  progress es d ls -> adds e [i] [] [] [] -> same_pump ls ls' -> stopping_ d = false -> queue_ d' = queue_ d ++ [i] ->
  match i with Entry _ => flush_requested_ d' = flush_requested_ d | FlushMarker n => n = flush_requested_ d + 1 /\ flush_requested_ d' = n end ->
  flush_completed_ d' = flush_completed_ d -> dropped_ d' = dropped_ d -> stopping_ d' = stopping_ d -> progress (es ++ [e]) d' ls'.
Proof.
  intros [H1 (l & Hl & Hp & Ht & Hpast & Hc & Hj) H3 H4 H5 H7] Ha [S1 S2] Hrun Eq Er Ec Ed Es.
  assert (past_loop l = false) as Hl0 by (destruct (past_loop l); [destruct Hpast; [done|congruence]|done]).
  split; traces Ha; rewrite ?Eq, ?Ec, ?Ed, ?Es; try done.
  - by rewrite H1, app_assoc.
  - exists l. split_and!; try done; [congruence|]. intros Hl'. congruence.
  - intros k n. rewrite tickets_app. intros [Hk|[Hk Hn]]%lookup_app_Some; [by apply H4|]. destruct i as [r|m]; [done|].
    simpl in Hn. apply list_lookup_singleton_Some in Hn as [Hk0 <-]. destruct Er as [-> _]. lia.
  - rewrite tickets_app, length_app. destruct i as [r|m]; simpl; [rewrite Er; lia|destruct Er as [-> ->]; lia].
Qed.

(** The steps of the pump. *)
Lemma progress_take es d ls e d' i q :
  progress es d ls -> adds e [] [i] [] [] -> ls !! 0%nat = Some taking -> queue_ d = i :: q -> queue_ d' = q ->
  flush_requested_ d' = flush_requested_ d -> flush_completed_ d' = flush_completed_ d -> dropped_ d' = dropped_ d ->
  progress (es ++ [e]) d' (<[0%nat := next_life taking (Taken i)]> ls).
Proof.
  intros [H1 (l & Hl & Hp & Ht & Hpast & Hc & Hj) H3 H4 H5 H7] Ha Hl0 Eq Eq' Er Ec Ed. rewrite Hl0 in Hl. simplify_eq.
  split; traces Ha; rewrite ?Er, ?Ec, ?Ed; try done.
  - by rewrite H1, Eq, <- app_assoc.
  - exists (next_life taking (Taken i)). split_and!; [apply list_lookup_insert_eq; by eapply lookup_lt_Some|by destruct i|
      rewrite Ht, app_nil_r; by destruct i|by destruct i|by destruct i|destruct i; simpl in *; lia].
  - intros t l [(-> & _)|[_ Hl]]%list_lookup_insert_Some; [done|by apply H3].
Qed.

Lemma progress_pump es d ls e d' l l' h :
  progress es d ls -> adds e [] [] h [] -> ls !! 0%nat = Some l -> is_pump l' = true -> in_hand l = h -> in_hand l' = [] ->
  queue_ d' = queue_ d -> flush_requested_ d' = flush_requested_ d ->
  flush_completed_ d' + (if completes l' then 1 else 0) = Z.of_nat (length (tickets (handled es ++ h))) -> dropped_ d' = dropped_ d ->
  (past_loop l' = true -> stopping_ d' = true /\ queue_ d = []) ->
  (forall n, l' = completing (Some n) -> n = Z.of_nat (length (tickets (handled es ++ h)))) -> progress (es ++ [e]) d' (<[0%nat := l']> ls).
Proof.
  intros [H1 (l0 & Hl & Hp & Ht & Hpast & Hc & Hj) H3 H4 H5 H7] Ha Hl0 Hp' Hh Hh' Eq Er Ec Ed Hpast' Hc'.
  rewrite Hl0 in Hl. simplify_eq. split; traces Ha; rewrite ?Eq, ?Er, ?Ed; try done.
  - exists l'. split_and!; try done; [apply list_lookup_insert_eq; by eapply lookup_lt_Some|]. by rewrite Hh', app_nil_r.
  - intros t l [(-> & _)|[_ Hl]]%list_lookup_insert_Some; [done|by apply H3].
Qed.

(** ** Every section makes progress *)

Lemma p_completed es d ls l :
  progress es d ls -> ls !! 0%nat = Some l -> flush_completed_ d + (if completes l then 1 else 0) = Z.of_nat (length (tickets (handled es))).
Proof. intros P Hl. destruct (p_pump _ _ _ P) as (l' & Hl' & _ & _ & _ & _ & H). rewrite Hl in Hl'. by injection Hl' as ->. Qed.

Lemma same_pump_refl es d ls : progress es d ls -> same_pump ls ls.
Proof. intros P. split; [done|]. apply (p_clients _ _ _ P). Qed.

Lemma same_pump_client es d ls t l : progress es d ls -> t <> 0%nat -> is_pump l = false -> same_pump ls (<[t := l]> ls).
Proof.
  intros P Ht Hl. split; [by apply list_lookup_insert_ne|]. intros u l' [(-> & <- & _)|[_ Hu]]%list_lookup_insert_Some Hn; [done|].
  by apply (p_clients _ _ _ P u).
Qed.

Lemma progress_same es d ls e a :
  progress es d ls -> event_result e = a ->
  match a with Some (Accepted _ | Ticket _ | Taken _ | Wrote _ | FlushedSinks (Some _) | Dropped) => False | _ => True end ->
  progress (es ++ [e]) d ls.
Proof.
  intros P He Ha. pose proof (adds_result e a He) as A. apply (progress_neutral es d ls); try done; [|by eapply same_pump_refl].
  destruct a as [[| | | | | | | | | | | | [|]|]|]; done.
Qed.

Lemma enqueue_cases from_sink r d :
  (exists x, enqueue from_sink r d = Finish d [] (Rejected x)) \/ enqueue from_sink r d = Block d space_available (in_log r) /\ from_sink = false \/
  (exists d', enqueue from_sink r d = Finish d' [] Dropped /\ queue_ d' = queue_ d /\ flush_requested_ d' = flush_requested_ d /\
     flush_completed_ d' = flush_completed_ d /\ dropped_ d' = u64 (dropped_ d + 1) /\ stopping_ d' = stopping_ d) \/
  (enqueue from_sink r d = accept r d /\ stopping_ d = false).
Proof.
  unfold enqueue. destruct (stopping_ d); [left; by eexists|]. destruct (capacity_ <=? length (queue_ d))%nat; [|by right; right; right].
  destruct policy_; [|right; right; left; eexists; split; [done|by split_and!]]. destruct from_sink; [left; by eexists|by right; left].
Qed.

Lemma log_cases from_sink threshold r d :
  log_section from_sink threshold r d = Finish d [] (Rejected invalid_argument) \/ log_section from_sink threshold r d = Finish d [] Filtered \/
  log_section from_sink threshold r d = enqueue from_sink r d.
Proof. unfold log_section. destruct (level r); try case_match; auto. Qed.

Lemma progress_accept es d ls e r :
  progress es d ls -> event_result e = Some (Accepted r) -> stopping_ d = false -> progress (es ++ [e]) (set_queue d (queue_ d ++ [Entry r])) ls.
Proof.
  intros P He Hs. by apply (progress_put es d ls e _ ls (Entry r) P (adds_result e _ He) (same_pump_refl _ _ _ P) Hs).
Qed.

(** [log], from a client or from a sink: whoever calls stays where it is. *)
Lemma progress_log es d ls e from_sink threshold r l :
  progress es d ls -> event_result e = result (log_section from_sink threshold r d) ->
  progress (es ++ [e]) (verdict_data (log_section from_sink threshold r d)) ls /\ local (conclude l (log_section from_sink threshold r d)) = l.
Proof.
  intros P He. destruct (log_cases from_sink threshold r d) as [E|[E|E]]; rewrite E in *; simpl in *; [by split; [eapply progress_same|]..|].
  destruct (enqueue_cases from_sink r d) as [[x Ex]|[[Ex _]|[(d' & Ex & Q1 & Q2 & Q3 & Q4 & Q5)|[Ex Hs]]]]; rewrite Ex in *; simpl in *.
  - by split; [eapply progress_same|].
  - by split; [eapply progress_same|].
  - split; [|done]. by apply (progress_drop es d ls e d' P (adds_result e _ He)).
  - split; [|done]. by apply progress_accept.
Qed.

Lemma progress_taking es d ls e :
  progress es d ls -> event_result e = result (take_section d) -> ls !! 0%nat = Some taking ->
  progress (es ++ [e]) (verdict_data (take_section d)) (<[0%nat := local (conclude taking (take_section d))]> ls).
Proof.
  intros P He Hl. unfold take_section in *. destruct (queue_ d) as [|i q] eqn:Eq; [destruct (stopping_ d) eqn:Es|]; simpl in *.
  - apply (progress_pump es d ls e d taking _ [] P (adds_result e _ He) Hl); try done. rewrite app_nil_r.
    apply (p_completed _ _ _ _ P Hl).
  - rewrite list_insert_id by done. by eapply progress_same.
  - by apply (progress_take es d ls e _ i q P (adds_result e _ He) Hl).
Qed.

Lemma progress_flush_wait es d ls e t n :
  progress es d ls -> event_result e = result (flush_wait_section n d) -> t <> 0%nat ->
  progress (es ++ [e]) (verdict_data (flush_wait_section n d)) (<[t := local (conclude (flushing n) (flush_wait_section n d))]> ls).
Proof.
  intros P He Ht. unfold flush_wait_section in *. destruct (n <=? flush_completed_ d); simpl in *;
    by apply (progress_neutral es d ls e d _ P (adds_result e _ He)); [apply (same_pump_client es d)|..].
Qed.

(** The sections the pump runs at the other points of its loop. *)
Lemma progress_deliver es d ls e r :
  progress es d ls -> event_result e = result (deliver_section r d) -> ls !! 0%nat = Some (delivering r) ->
  progress (es ++ [e]) (verdict_data (deliver_section r d)) (<[0%nat := local (conclude (delivering r) (deliver_section r d))]> ls).
Proof.
  intros P He Hl. unfold deliver_section in *. destruct (write_all (sinks_ d) r (render_line r)) as [ss n]. simpl in *.
  apply (progress_pump es d ls e _ (delivering r) taking [Entry r] P (adds_result e _ He) Hl); try done.
  rewrite tickets_app, app_nil_r. apply (p_completed _ _ _ _ P Hl).
Qed.

Lemma handled_stream es d ls :
  progress es d ls -> exists l, ls !! 0%nat = Some l /\ stream es = handled es ++ in_hand l ++ queue_ d.
Proof.
  intros P. destruct (p_pump _ _ _ P) as (l & Hl & _ & Ht & _). exists l. split; [done|]. by rewrite (p_stream _ _ _ P), Ht, app_assoc.
Qed.

Lemma progress_flush_sinks es d ls e m :
  progress es d ls -> event_result e = result (flush_sinks_section m d) -> ls !! 0%nat = Some (flushing_sinks m) ->
  progress (es ++ [e]) (verdict_data (flush_sinks_section m d)) (<[0%nat := local (conclude (flushing_sinks m) (flush_sinks_section m d))]> ls).
Proof.
  intros P He Hl. unfold flush_sinks_section in *. destruct (flush_all (sinks_ d)) as [ss n]. simpl in *.
  pose proof (p_completed _ _ _ _ P Hl) as Hc. simpl in Hc. destruct (handled_stream _ _ _ P) as (l & Hl' & Es). rewrite Hl in Hl'. simplify_eq.
  destruct m as [k|].
  - assert (k = Z.of_nat (length (tickets (handled es))) + 1) as Hk.
    { apply (p_tickets _ _ _ P). rewrite Es, tickets_app. simpl. by apply list_lookup_middle. }
    apply (progress_pump es d ls e _ (flushing_sinks (Some k)) (completing (Some k)) [FlushMarker k] P (adds_result e _ He) Hl); try done.
    + rewrite tickets_app, length_app. simpl. lia.
    + intros n' [= <-]. rewrite tickets_app, length_app. simpl. lia.
  - destruct (p_pump _ _ _ P) as (l & Hl' & _ & _ & Hpast & _). rewrite Hl in Hl'. simplify_eq.
    apply (progress_pump es d ls e _ (flushing_sinks None) (completing None) [] P (adds_result e _ He) Hl); try done. by rewrite app_nil_r.
Qed.

Lemma progress_complete es d ls e m :
  progress es d ls -> event_result e = result (complete_section m d) -> ls !! 0%nat = Some (completing m) ->
  progress (es ++ [e]) (verdict_data (complete_section m d)) (<[0%nat := local (conclude (completing m) (complete_section m d))]> ls).
Proof.
  intros P He Hl. unfold complete_section in *. simpl in *. pose proof (p_completed _ _ _ _ P Hl) as Hc.
  destruct (p_pump _ _ _ P) as (l & Hl' & _ & _ & Hpast & Hm & _). rewrite Hl in Hl'. simplify_eq.
  destruct m as [k|]; simpl in Hc.
  - specialize (Hm k eq_refl).
    apply (progress_pump es d ls e _ (completing (Some k)) taking [] P (adds_result e _ He) Hl); try done. rewrite app_nil_r. simpl. lia.
  - destruct (Hpast eq_refl) as [Hst Hq].
    apply (progress_pump es d ls e _ (completing None) joined [] P (adds_result e _ He) Hl); try done. rewrite app_nil_r. simpl.
    rewrite (p_requested _ _ _ P). destruct (handled_stream _ _ _ P) as (l & Hl' & Es). rewrite Hl in Hl'. simplify_eq.
    rewrite Es, Hq. simpl. rewrite app_nil_r. lia.
Qed.

Lemma proper_start l c d : may_call l c = true -> proper (conclude l (logger_start c d)).
Proof.
  intros Hp. destruct c as [fs th r|fs|n| |lv| |r|m|m]; simpl.
  - destruct (log_cases fs th r d) as [E|[E|E]]; rewrite E; [done|done|].
    destruct (enqueue_cases fs r d) as [[x E2]|[[E2 E3]|[(d2 & E2 & _)|[E2 _]]]]; rewrite E2; [done| |done|done]. simpl. subst fs. by destruct l.
  - unfold flush_section. by destruct fs, (stopping_ d).
  - unfold flush_wait_section. destruct (n <=? flush_completed_ d); [done|]. destruct l; try done. simpl in Hp. bools. by subst.
  - done.
  - done.
  - unfold take_section. destruct (queue_ d) as [|i q]; [|done]. destruct (stopping_ d); [done|]. by destruct l.
  - unfold deliver_section. by destruct (write_all _ _ _).
  - unfold flush_sinks_section. by destruct (flush_all _).
  - done.
Qed.

Lemma proper_resume l k e d :
  proper (Thread (Ready k e) l) -> proper (conclude l (logger_resume k e d)).
Proof.
  intros Hp. destruct k as [r|n|]; simpl.
  - destruct (stopping_ d); [done|]. by case_match.
  - unfold flush_wait_section. by case_match.
  - unfold take_section. destruct (queue_ d); [|done]. by destruct (stopping_ d).
Qed.

Lemma proper_reachable (s : state) : reachable s -> Forall proper (threads s).
Proof.
  apply (monitor_invariant (fun _ ts => Forall proper ts)).
  - intros d n _. apply Forall_app. split; [by repeat constructor|]. by apply Forall_replicate.
  - intros d ts t c l H Ht Hp. apply Forall_insert; [done|]. by apply proper_start.
  - intros d ts t k e l H Ht. apply Forall_insert; [done|]. apply proper_resume. by eapply Forall_lookup_1 in H.
  - intros d ts t c ns r l u k lu H Hn Ht Hu. apply Forall_insert; [apply Forall_insert; [done|]|done]. exact (Forall_lookup_1 _ _ _ _ H Hu).
  - intros d ts t c ns r l H Ht Hz. by apply Forall_insert.
  - intros d ts t c ns r l H Ht. apply Forall_insert; [|done]. apply Forall_map, (Forall_impl _ _ _ H).
    intros [[|c' k| |] l'] Hp; try done. unfold wake_on. simpl. by case_decide.
  - intros d ts t r l H Ht. by apply Forall_insert.
  - intros d ts t c k e l H Ht He. apply Forall_insert; [done|]. exact (Forall_lookup_1 _ _ _ _ H Ht).
Qed.

Lemma pump_is_first es d ls t l : progress es d ls -> ls !! t = Some l -> is_pump l = true -> t = 0%nat.
Proof.
  intros P Hl Hp. destruct (decide (t = 0%nat)) as [|Hn]; [done|]. pose proof (p_clients _ _ _ P _ _ Hl Hn). congruence.
Qed.

Lemma client_is_other es d ls t l : progress es d ls -> ls !! t = Some l -> is_pump l = false -> t <> 0%nat.
Proof. intros P Hl Hp ->. destruct (p_pump _ _ _ P) as (l' & Hl' & Hp' & _). congruence. Qed.

Lemma progress_start es d ls e t l c :
  progress es d ls -> event_result e = result (logger_start c d) -> ls !! t = Some l -> may_call l c = true ->
  Z.of_nat (length (tickets (stream (es ++ [e])))) < 2 ^ 64 ->
  progress (es ++ [e]) (verdict_data (logger_start c d)) (<[t := local (conclude l (logger_start c d))]> ls).
Proof.
  intros P He Hl Hp Hb. destruct c as [fs th r|fs|n| |lv| |r|m|m]; simpl logger_start in *.
  - destruct (progress_log es d ls e fs th r l P He) as [P' E]. by rewrite E, list_insert_id.
  - unfold flush_section in *. destruct fs; simpl in *; [rewrite list_insert_id by done; by eapply progress_same|].
    destruct (stopping_ d) eqn:Es; simpl in *; [rewrite list_insert_id by done; by eapply progress_same|].
    assert (is_pump l = false) as Hl' by (by destruct l). pose proof (client_is_other _ _ _ _ _ P Hl Hl') as Hn.
    pose proof (adds_result e _ He) as A. destruct A as [A1 A2]. rewrite stream_app, A1, tickets_app, length_app in Hb. simpl in Hb.
    pose proof (p_requested _ _ _ P) as Hr. rewrite (wrap_small 64) in * by lia.
    apply (progress_put es d ls e _ _ (FlushMarker (flush_requested_ d + 1)) P (conj A1 A2)); try done. by apply (same_pump_client es d).
  - destruct l; try done. simpl in Hp. bools. subst. apply progress_flush_wait; [done..|]. by eapply client_is_other.
  - simpl in *. destruct l; try done; rewrite list_insert_id by done;
      by apply (progress_neutral es d ls e _ ls P (adds_result e _ He) (same_pump_refl _ _ _ P)).
  - simpl in *. destruct l; try done; rewrite list_insert_id by done;
      by apply (progress_neutral es d ls e _ ls P (adds_result e _ He) (same_pump_refl _ _ _ P)).
  - destruct l; try done. assert (t = 0%nat) as -> by (by eapply pump_is_first). by apply progress_taking.
  - destruct l; try done. simpl in Hp. apply bool_decide_eq_true in Hp as <-. assert (t = 0%nat) as -> by (by eapply pump_is_first). by apply progress_deliver.
  - destruct l; try done. simpl in Hp. apply bool_decide_eq_true in Hp as <-. assert (t = 0%nat) as -> by (by eapply pump_is_first). by apply progress_flush_sinks.
  - destruct l; try done. simpl in Hp. apply bool_decide_eq_true in Hp as <-. assert (t = 0%nat) as -> by (by eapply pump_is_first). by apply progress_complete.
Qed.

Lemma progress_resume es d ls e t l k ex :
  progress es d ls -> event_result e = result (logger_resume k ex d) -> ls !! t = Some l -> proper (Thread (Ready k ex) l) ->
  progress (es ++ [e]) (verdict_data (logger_resume k ex d)) (<[t := local (conclude l (logger_resume k ex d))]> ls).
Proof.
  intros P He Hl Hp. destruct k as [r|n|]; unfold proper in Hp; simpl in Hp; subst l; simpl logger_resume in *.
  - destruct (stopping_ d) eqn:Es; simpl in *; [rewrite list_insert_id by done; by eapply progress_same|].
    destruct (length (queue_ d) <? capacity_)%nat; simpl in *; rewrite list_insert_id by done; [by apply progress_accept|by eapply progress_same].
  - apply progress_flush_wait; [done..|]. by eapply client_is_other.
  - assert (t = 0%nat) as -> by (by eapply pump_is_first). by apply progress_taking.
Qed.

Lemma progress_exec (s0 s : state) es :
  initial s0 -> exec s0 es s -> Z.of_nat (length (tickets (stream es))) < 2 ^ 64 -> progress es (data s) (locals (threads s)).
Proof.
  intros Hi Hx. assert (reachable s0) as Hr0 by (by apply reach_init). destruct Hi as [Hd [n Hts]].
  induction Hx as [s|s es s1 e s2 Hx IH Hs]; intros Hb.
  - simpl in Hd. unfold make in Hd. case_bool_decide; [done|]. destruct (capacity_ =? 0)%nat; [done|]. injection Hd as Hd. rewrite <- Hd, Hts.
    split; try done.
    + exists taking. by split_and!.
    + intros t l Hl Hn. simpl in Hl. unfold locals in Hl. destruct t as [|t]; [done|]. simpl in Hl.
      rewrite list_lookup_fmap in Hl. destruct (replicate n (Thread Idle client) !! t) as [th|] eqn:E; simplify_eq/=. by apply lookup_replicate_1 in E as [-> _].
  - assert (Z.of_nat (length (tickets (stream es))) < 2 ^ 64) as Hb'.
    { rewrite stream_app, tickets_app, length_app in Hb. lia. }
    specialize (IH Hd Hts Hr0 Hb'). pose proof (proper_reachable s1 (exec_reachable _ _ _ Hx Hr0)) as Hprop.
    destruct (step_view _ _ _ Hs) as [He Hdata Hloc|t l v Hsec He Hdata Hthreads].
    + rewrite Hdata, Hloc. by eapply progress_same.
    + rewrite Hdata, Hthreads, locals_insert. destruct Hsec as [[Ht (c & Hp & ->)]|(k & ex & Ht & ->)].
      * apply progress_start; try done. unfold locals. by rewrite list_lookup_fmap, Ht.
      * apply progress_resume; try done; [unfold locals; by rewrite list_lookup_fmap, Ht|by eapply Forall_lookup_1 in Hprop].
Qed.

(** ** Theorems *)

Definition accepted (es : list event) : list LogRecord :=
  omap (fun e => match event_result e with Some (Accepted r) => Some r | _ => None end) es.
Definition written (es : list event) : list LogRecord :=
  omap (fun e => match event_result e with Some (Wrote r) => Some r | _ => None end) es.

Lemma entries_app l l' : entries (l ++ l') = entries l ++ entries l'.
Proof. apply omap_app. Qed.

Lemma entries_stream es : entries (stream es) = accepted es.
Proof.
  induction es as [|e es IH]; [done|]. change (e :: es) with ([e] ++ es). rewrite stream_app, entries_app, IH. unfold accepted. rewrite omap_app. f_equal.
  unfold stream. simpl. by destruct (event_result e) as [[]|].
Qed.

Lemma entries_handled es : entries (handled es) = written es.
Proof.
  induction es as [|e es IH]; [done|]. change (e :: es) with ([e] ++ es). rewrite handled_app, entries_app, IH. unfold written. rewrite omap_app. f_equal.
  unfold handled. simpl. by destruct (event_result e) as [[| | | | | | | | | | | | [m|]|]|].
Qed.

(** C30. Records are written in the order they were accepted, each once: what was accepted is what has been written, then the
    record the pump holds, then the records in the queue; once the pump has finished, everything
    accepted has been written, and the queue is empty.  (Ticket numbers are 64 bits wide.) *)
Theorem records_in_order (s0 s : state) es :
  initial s0 -> exec s0 es s -> Z.of_nat (length (tickets (stream es))) < 2 ^ 64 ->
  exists l, locals (threads s) !! 0%nat = Some l /\
    accepted es = written es ++ entries (in_hand l) ++ entries (queue_ (data s)) /\
    (l = joined -> accepted es = written es).
Proof.
  intros Hi Hx Hb. pose proof (progress_exec _ _ _ Hi Hx Hb) as P. destruct (p_pump _ _ _ P) as (l & Hl & _ & Ht & Hpast & _).
  exists l. rewrite <- entries_stream, <- entries_handled, (p_stream _ _ _ P), Ht, !entries_app, <- app_assoc. split_and!; [done..|].
  intros ->. destruct (Hpast eq_refl) as [_ ->]. simpl. by rewrite app_nil_r.
Qed.

Lemma prefix_by_tickets (l l1 l2 : list QueueItem) n :
  l1 ++ [FlushMarker n] `prefix_of` l -> l2 `prefix_of` l -> (length (tickets l1) < length (tickets l2))%nat -> l1 ++ [FlushMarker n] `prefix_of` l2.
Proof.
  intros H1 H2 Hlt. destruct (prefix_weak_total _ _ _ H1 H2) as [H|[k H]]; [done|]. destruct k as [|x k] using rev_ind; [by rewrite H, app_nil_r|].
  rewrite app_assoc in H. apply app_inj_tail in H as [-> ->]. rewrite tickets_app, length_app in Hlt. lia.
Qed.

Lemma flush_done_section t l v (s : state) n :
  threads s !! t = Some (Thread Idle l) /\ (exists c, may_call l c = true /\ v = logger_start c (data s)) \/
    (exists k ex, threads s !! t = Some (Thread (Ready k ex) l) /\ v = logger_resume k ex (data s)) ->
  Some (FlushDone n) = result v -> n <= flush_completed_ (data s).
Proof.
  assert (forall m, Some (FlushDone n) = result (flush_wait_section m (data s)) -> n <= flush_completed_ (data s)) as Hw.
  { intros m. unfold flush_wait_section. destruct (Z.leb_spec m (flush_completed_ (data s))); intros [= <-]. done. }
  intros [[_ (c & _ & ->)]|(k & ex & _ & ->)].
  - destruct c as [fs th r|fs|m| |lv| |r|m|m]; simpl; try done; [| |by apply Hw|..].
    + destruct (log_cases fs th r (data s)) as [->|[->|E]]; [done..|]. rewrite E.
      destruct (enqueue_cases fs r (data s)) as [[x E2]|[[E2 E3]|[(d2 & E2 & _)|[E2 _]]]]; by rewrite E2.
    + unfold flush_section. by destruct fs, (stopping_ (data s)).
    + unfold take_section. destruct (queue_ (data s)); [by destruct (stopping_ (data s))|done].
    + unfold deliver_section. by destruct (write_all _ _ _).
    + unfold flush_sinks_section. by destruct (flush_all _).
  - destruct k as [r|m|]; simpl; [|by apply Hw|].
    + destruct (stopping_ (data s)); [done|]. by destruct (length (queue_ (data s)) <? capacity_)%nat.
    + unfold take_section. destruct (queue_ (data s)); [by destruct (stopping_ (data s))|done].
Qed.

Lemma flush_barrier (s0 s : state) es t n es' e :
  initial s0 -> exec s0 ((es ++ Called t (flush false) (Some (Ticket n)) :: es') ++ [e]) s -> event_result e = Some (FlushDone n) ->
  Z.of_nat (length (tickets (stream (es ++ Called t (flush false) (Some (Ticket n)) :: es')))) < 2 ^ 64 ->
  stream es ++ [FlushMarker n] `prefix_of` handled (es ++ Called t (flush false) (Some (Ticket n)) :: es').
Proof.
  intros Hi Hx He Hb. apply exec_last in Hx as (s1 & Hx & Hs). pose proof (progress_exec _ _ _ Hi Hx Hb) as P.
  set (es1 := es ++ _) in *. assert (stream es1 = (stream es ++ [FlushMarker n]) ++ stream es') as E by (unfold es1; rewrite stream_app; simpl; by rewrite <- app_assoc).
  assert (n <= flush_completed_ (data s1)) as Hn.
  { destruct (step_view _ _ _ Hs) as [He'|t' l v Hsec He' _ _]; [congruence|]. rewrite He in He'. by apply (flush_done_section t' l v s1 n). }
  destruct (handled_stream _ _ _ P) as (l & Hl & Es). pose proof (p_completed _ _ _ _ P Hl) as Hc.
  apply (prefix_by_tickets (stream es1)); [rewrite E; by eexists|rewrite Es; by eexists|].
  assert (n = Z.of_nat (length (tickets (stream es))) + 1) as Hn'.
  { apply (p_tickets _ _ _ P). rewrite E, !tickets_app. simpl. rewrite <- app_assoc. by apply list_lookup_middle. }
  destruct (completes l); lia.
Qed.

(** C31. When [flush] returns for a ticket, everything accepted before that ticket was issued has
    been written, and the sinks have been flushed after it: the markers and records put into the
    queue up to this ticket have all been dealt with. *)
Theorem flush_is_a_barrier (s0 s : state) es t n es' e :
  initial s0 -> exec s0 ((es ++ Called t (flush false) (Some (Ticket n)) :: es') ++ [e]) s -> event_result e = Some (FlushDone n) ->
  Z.of_nat (length (tickets (stream (es ++ Called t (flush false) (Some (Ticket n)) :: es')))) < 2 ^ 64 ->
  stream es ++ [FlushMarker n] `prefix_of` handled (es ++ Called t (flush false) (Some (Ticket n)) :: es').
Proof. apply flush_barrier. Qed.

(** The count of dropped records is the number of calls that dropped theirs, modulo 2^64. *)
Theorem drops_are_counted (s0 s : state) es :
  initial s0 -> exec s0 es s -> Z.of_nat (length (tickets (stream es))) < 2 ^ 64 -> dropped_ (data s) = u64 (Z.of_nat (length (drops es))).
Proof. intros Hi Hx Hb. apply (p_dropped _ _ _ (progress_exec _ _ _ Hi Hx Hb)). Qed.

(** *** What a sink sees *)

(** A sink by itself: each write or flush of the trace in turn, counting the calls that fail. *)
Definition sink_ops (es : list event) : list (option LogRecord) :=
  omap (fun e => match event_result e with Some (Wrote r) => Some (Some r) | Some (FlushedSinks _) => Some None | _ => None end) es.

Definition sink_call (op : option LogRecord) (k : Sk) : Sk * bool :=
  match op with Some r => sink_write k r (render_line r) | None => sink_flush k end.

Definition sink_act (k : Sk * nat) (op : option LogRecord) : Sk * nat :=
  let '(s, ok) := sink_call op k.1 in (s, if ok then k.2 else S k.2).

Definition sink_alone (k : Sk) (ops : list (option LogRecord)) : Sk * nat := foldl sink_act (k, 0%nat) ops.

Definition all_act (op : option LogRecord) (ss : list Sk) : list Sk * nat :=
  match op with Some r => write_all ss r (render_line r) | None => flush_all ss end.

Lemma all_act_each op (ks : list (Sk * nat)) :
  (all_act op (map fst ks)).1 = map (fun k => (sink_act k op).1) ks /\
  sum_list (map (fun k => (sink_act k op).2) ks) = (sum_list (map snd ks) + (all_act op (map fst ks)).2)%nat.
Proof.
  induction ks as [|[k m] ks [IH1 IH2]]; [by destruct op|]. unfold sink_act, all_act, sink_call in *.
  destruct op as [r|]; simpl in *;
    [destruct (sink_write k r (render_line r)) as [k' ok], (write_all (map fst ks) r (render_line r)) as [ss n]
    |destruct (sink_flush k) as [k' ok], (flush_all (map fst ks)) as [ss n]]; simpl in *; rewrite IH1, IH2; split; try done; destruct ok; lia.
Qed.

(** What a section does to the sinks is the operation it reports. *)
Definition op_of (a : option answer) : option (option LogRecord) :=
  match a with Some (Wrote r) => Some (Some r) | Some (FlushedSinks _) => Some None | _ => None end.

Definition acts_on_sinks (d : logger) (v : section) : Prop :=
  match op_of (result v) with
  | Some op => sinks_ (verdict_data v) = (all_act op (sinks_ d)).1 /\
      sink_failures_ (verdict_data v) = u64 (sink_failures_ d + Z.of_nat (all_act op (sinks_ d)).2)
  | None => sinks_ (verdict_data v) = sinks_ d /\ sink_failures_ (verdict_data v) = sink_failures_ d
  end.

Lemma start_acts c d : acts_on_sinks d (logger_start c d).
Proof.
  unfold acts_on_sinks. destruct c as [fs th r|fs|m| |lv| |r|m|m]; simpl; try done.
  - unfold log_section, enqueue. destruct (level r); repeat case_match; simplify_eq/=; done.
  - unfold flush_section. by destruct fs, (stopping_ d).
  - unfold flush_wait_section. by destruct (m <=? flush_completed_ d).
  - unfold take_section. destruct (queue_ d) as [|i q]; [by destruct (stopping_ d)|done].
  - unfold deliver_section. destruct (write_all (sinks_ d) r (render_line r)) as [ss n] eqn:E. simpl. by rewrite E.
  - unfold flush_sinks_section. destruct (flush_all (sinks_ d)) as [ss n] eqn:E. simpl. by rewrite E.
Qed.

Lemma resume_acts k ex d : acts_on_sinks d (logger_resume k ex d).
Proof.
  unfold acts_on_sinks. destruct k as [r|m|]; simpl.
  - destruct (stopping_ d); [done|]. by destruct (length (queue_ d) <? capacity_)%nat.
  - unfold flush_wait_section. by destruct (m <=? flush_completed_ d).
  - unfold take_section. destruct (queue_ d) as [|i q]; [by destruct (stopping_ d)|done].
Qed.

Lemma sink_ops_app es es' : sink_ops (es ++ es') = sink_ops es ++ sink_ops es'.
Proof. apply omap_app. Qed.

Definition alone (es : list event) : list (Sk * nat) := map (fun k => sink_alone k (sink_ops es)) sinks.

Lemma alone_snoc es e op : op_of (event_result e) = Some op -> alone (es ++ [e]) = map (fun k => sink_act k op) (alone es).
Proof.
  intros E. unfold alone. rewrite map_map, sink_ops_app. apply map_ext. intros k. unfold sink_alone. rewrite foldl_app. unfold sink_ops at 2.
  simpl. destruct (event_result e) as [[]|]; simpl in E; try done; by injection E as <-.
Qed.

Lemma alone_quiet es e : op_of (event_result e) = None -> alone (es ++ [e]) = alone es.
Proof.
  intros E. unfold alone. rewrite sink_ops_app. unfold sink_ops at 2. simpl.
  destruct (event_result e) as [[]|]; simpl in E; try done; by rewrite app_nil_r.
Qed.

(** Each sink sees the records written and the flushes in the same order, as if it were the only
    one: a sink that fails affects neither the others nor what it is given later.  The failures counter is the
    number of calls that failed, over all sinks, modulo 2^64. *)
Theorem sinks_are_independent (s0 s : state) es :
  initial s0 -> exec s0 es s ->
  sinks_ (data s) = map (fun k => (sink_alone k (sink_ops es)).1) sinks /\
  sink_failures_ (data s) = u64 (Z.of_nat (sum_list (map (fun k => (sink_alone k (sink_ops es)).2) sinks))).
Proof.
  intros Hi Hx.
  assert (sinks_ (data s) = map fst (alone es) /\ sink_failures_ (data s) = u64 (Z.of_nat (sum_list (map snd (alone es))))) as [H1 H2];
    [|by unfold alone in *; rewrite map_map in *].
  destruct Hi as [Hd _]. induction Hx as [s|s es s1 e s2 Hx IH Hs].
  - simpl in Hd. unfold make in Hd. case_bool_decide; [done|]. destruct (capacity_ =? 0)%nat; [done|]. injection Hd as Hd. rewrite <- Hd.
    unfold alone. rewrite !map_map. unfold sink_alone. simpl. split; [by rewrite map_id|]. clear. induction sinks as [|k ks IH]; [done|]. exact IH.
  - specialize (IH Hd) as [IH1 IH2]. destruct (step_view _ _ _ Hs) as [He Hdata _|t l v Hsec He Hdata _]; rewrite Hdata.
    + rewrite alone_quiet by (by rewrite He). done.
    + assert (acts_on_sinks (data s1) v) as Ha by (destruct Hsec as [[_ (c & _ & ->)]|(k & ex & _ & ->)]; [apply start_acts|apply resume_acts]).
      unfold acts_on_sinks in Ha. rewrite <- He in Ha. destruct (op_of (event_result e)) as [op|] eqn:Eop.
      * rewrite (alone_snoc _ _ _ Eop). destruct Ha as [-> ->]. rewrite IH1, IH2, !map_map. destruct (all_act_each op (alone es)) as [-> ->].
        split; [done|]. rewrite wrap_add_l. f_equal. lia.
      * rewrite (alone_quiet _ _ Eop). destruct Ha as [-> ->]. done.
Qed.

End logger.

(** ** A session: two sinks, the second of which fails; a record is logged, a flush waits for it *)

Definition keep (k : bool * list text) (r : LogRecord) (line : text) : (bool * list text) * bool := ((k.1, k.2 ++ [line]), negb k.1).
Definition keep_flush (k : bool * list text) : (bool * list text) * bool := (k, true).
Definition plain (r : LogRecord) : text := message r.

#[local] Instance demo_logger : Monitor (logger (Sk := bool * list text)) cond waiting answer call life :=
  logger_monitor (keep) keep_flush plain 1 block [(false, []); (true, [])].

Definition new_logger : logger (Sk := bool * list text) := MkLogger [(false, []); (true, [])] trace 0 0 [] 0 0 false.

Definition at_start : mstate (logger (Sk := bool * list text)) cond waiting answer life :=
  MState new_logger [Thread Idle taking; Thread Idle client; Thread Idle client].

Lemma logger_at_start_initial : initial at_start.
Proof. split; [done|by exists 2%nat]. Qed.

Definition hello : LogRecord := MkRecord 0 info 7 ($"hello").
Definition again : LogRecord := MkRecord 1 error 7 ($"again").

(** One record, then a flush by another thread; the pump writes it and flushes. *)
Definition one_flush : list (move call) :=
  [DoCall 1 (log false trace hello); DoNotify 1 0; DoReturn 1; DoCall 2 (flush false); DoNotify 2 0; DoReturn 2;
   DoCall 0 pump_take; DoNotify 0 0; DoReturn 0; DoCall 0 (pump_deliver hello); DoReturn 0;
   DoCall 0 pump_take; DoNotify 0 0; DoReturn 0; DoCall 0 (pump_flush (Some 1)); DoReturn 0; DoCall 0 (pump_complete (Some 1)); DoNotify 0 0; DoReturn 0;
   DoCall 2 (flush_wait 1)].

Definition shut_down : list (move call) :=
  one_flush ++ [DoReturn 2; DoCall 1 shutdown; DoNotify 1 0; DoNotify 1 0; DoReturn 1; DoCall 0 pump_take; DoReturn 0; DoCall 0 (pump_flush None); DoReturn 0;
    DoCall 0 (pump_complete None)].

Ltac run_session :=
  match goal with
  | |- context [run_moves ?start ?ms] =>
      let E := fresh in
      destruct (run_moves start ms) as [[?s ?es]|] eqn:E; [|exfalso; vm_compute in E; discriminate E];
      pose proof (run_moves_exec _ _ _ _ E) as Hx; vm_compute in E; injection E as <- <-; eexists _, _
  end.

Lemma records_in_order_witness :
  exists es s, run_moves at_start shut_down = Some (s, es) /\
  exists l, locals (threads s) !! 0%nat = Some l /\ accepted es = written es ++ entries (in_hand l) ++ entries (queue_ (data s)) /\
    (l = joined -> accepted es = written es).
Proof.
  run_session. split; [by vm_compute|].
  apply (records_in_order (keep) keep_flush plain 1 block [(false, []); (true, [])] at_start _ _ logger_at_start_initial Hx). by vm_compute.
Defined.

Lemma drops_are_counted_witness :
  exists es s, run_moves at_start shut_down = Some (s, es) /\ dropped_ (data s) = u64 (Z.of_nat (length (drops es))).
Proof.
  run_session. split; [by vm_compute|].
  apply (drops_are_counted (keep) keep_flush plain 1 block [(false, []); (true, [])] at_start _ _ logger_at_start_initial Hx). by vm_compute.
Defined.

Lemma sinks_are_independent_witness :
  exists es s, run_moves at_start shut_down = Some (s, es) /\
  sinks_ (data s) = map (fun k => (sink_alone (keep) keep_flush plain k (sink_ops es)).1) [(false, []); (true, [])] /\
  sink_failures_ (data s) = u64 (Z.of_nat (sum_list (map (fun k => (sink_alone (keep) keep_flush plain k (sink_ops es)).2) [(false, []); (true, [])]))).
Proof.
  run_session. split; [by vm_compute|].
  apply (sinks_are_independent (keep) keep_flush plain 1 block [(false, []); (true, [])] at_start _ _ logger_at_start_initial Hx).
Defined.

Lemma flush_is_a_barrier_witness :
  exists es s, run_moves at_start one_flush = Some (s, es) /\ stream (take 3 es) ++ [FlushMarker 1] `prefix_of` handled (take 19 es).
Proof.
  run_session. split; [by vm_compute|].
  match type of Hx with exec _ ?es _ =>
    let t1 := eval vm_compute in (firstn 3 es) in let t2 := eval vm_compute in (skipn 4 (firstn 19 es)) in let e := eval vm_compute in (skipn 19 es) in
    match e with [?e] => apply (flush_is_a_barrier (keep) keep_flush plain 1 block [(false, []); (true, [])] at_start _ t1 2 1 t2 e logger_at_start_initial Hx) end
  end; by vm_compute.
Defined.

(** [flush] during a shutdown does not wait: it returns although a record accepted before it is still in the
    queue and nothing has been written. *)
Theorem flush_during_shutdown_returns_early :
  exists es e s, exec at_start (es ++ [e]) s /\ event_result e = Some AlreadyStopping /\ accepted es = [hello] /\ written es = [] /\
    queue_ (data s) = [Entry hello].
Proof.
  assert (run_moves at_start [DoCall 1 (log false trace hello); DoNotify 1 0; DoReturn 1; DoCall 1 shutdown; DoCall 2 (flush false)] <> None) as Hn by by vm_compute.
  destruct (run_moves at_start _) as [[s es]|] eqn:E; [|done]. clear Hn. pose proof (run_moves_exec _ _ _ _ E) as Hx. vm_compute in E. injection E as Es Ees.
  exists (firstn 4 es), (Called 2 (flush false) (Some AlreadyStopping)), s. rewrite <- Ees, <- Es in *. by split_and!.
Qed.
