(* ===== verification/LoggerWake.v ===== *)
(** * Logger: no wake-up is lost

    For each of the three condition variables, a thread that sleeps on it has a reason to, or a
    notification for it is on its way ([Wakeups]).  When the activity under way has died out and the pump is
    asleep, then, the logger has nothing left to do and nobody waits for it. *)

From S2P Require Import Prelude Monitor Wakeups Logger.
Open Scope Z_scope.

Section wake.
Context {Sk : Type} (sink_write : Sk -> LogRecord -> text -> Sk * bool) (sink_flush : Sk -> Sk * bool).
Context (render_line : LogRecord -> text).
Context (capacity_ : nat) (policy_ : OverflowPolicy) (sinks : list Sk).

Abbreviation logger := (logger (Sk := Sk)).
Abbreviation state := (mstate logger cond waiting answer life).
Abbreviation logger_start := (logger_start sink_write sink_flush render_line capacity_ policy_).
Abbreviation logger_resume := (logger_resume capacity_).

#[local] Instance logger_system : Monitor logger cond waiting answer call life :=
  logger_monitor sink_write sink_flush render_line capacity_ policy_ sinks.

(** *** The pump: every queued item is work, and so is the shutdown *)

Definition in_take_wait (k : waiting) : bool := match k with in_take => true | _ => false end.
Definition running (d : logger) : bool := negb (stopping_ d).
Definition queued (d : logger) : nat := length (queue_ d).

Abbreviation pump_books := (wakes_enough records_available in_take_wait (fun _ => true) running queued).

Ltac sections :=
  simpl; unfold log_section, enqueue, accept, flush_section, flush_wait_section, take_section, deliver_section, flush_sinks_section;
  repeat (case_match; simplify_eq/=); bools;
  repeat match goal with H : stopping_ _ = _ |- _ => rewrite H | H : queue_ _ = _ |- _ => rewrite H end;
  rewrite ?length_app; simpl; intuition (try (lia || congruence)).

Lemma pump_start l c d : permitted l c = true -> True -> pump_books 0 d (logger_start c d).
Proof. intros _ _. unfold running, queued. destruct c as [fs th r|fs|n| |lv| |r|m|m]; sections. Qed.

Lemma pump_resume k e d : True -> pump_books (if in_take_wait k then 1 else 0) d (logger_resume k e d).
Proof. intros _. unfold running, queued. destruct k as [r|n|]; sections. Qed.

(** *** The producers: every free slot of the queue is room for one *)

Definition in_log_wait (k : waiting) : bool := match k with in_log _ => true | _ => false end.
Definition room (d : logger) : nat := capacity_ - length (queue_ d).

Abbreviation producer_books := (wakes_enough space_available in_log_wait (fun _ => true) running room).

Lemma producer_start l c d : permitted l c = true -> True -> producer_books 0 d (logger_start c d).
Proof. intros _ _. unfold running, room. destruct c as [fs th r|fs|n| |lv| |r|m|m]; sections. Qed.

Lemma producer_resume k e d : True -> producer_books (if in_log_wait k then 1 else 0) d (logger_resume k e d).
Proof. intros _. unfold running, room. destruct k as [r|n|]; sections. Qed.

(** *** The callers of [flush]: those of the ticket [n] wait until it is completed *)

Definition in_flush_wait (k : waiting) : bool := match k with in_flush _ => true | _ => false end.
Definition for_ticket (n : Z) (k : waiting) : bool := match k with in_flush m => m =? n | _ => false end.
Definition incomplete (n : Z) (d : logger) : bool := flush_completed_ d <? n.

Abbreviation flush_books n := (wakes_enough flush_done in_flush_wait (for_ticket n) (incomplete n) (fun _ => 0%nat)).

Lemma flush_start n l c d : permitted l c = true -> True -> flush_books n 0 d (logger_start c d).
Proof.
  intros _ _. unfold incomplete. destruct c as [fs th r|fs|m| |lv| |r|m|m]; sections; bools; try (left; reflexivity);
    rewrite ?Z.ltb_lt in *; intuition (try (lia || congruence)).
Qed.

Lemma flush_resume n k e d : True -> flush_books n (if in_flush_wait k then 1 else 0) d (logger_resume k e d).
Proof. intros _. unfold incomplete. destruct k as [r|m|]; sections; bools; rewrite ?Z.ltb_lt in *; intuition (try (lia || congruence)). Qed.

(** *** Tickets *)

Definition issued (d : logger) (l : life) : Prop := forall n, l = flushing n -> n <= flush_requested_ d.

Lemma start_issued l c d :
  issued d l -> may_call l c = true -> (forall n, result (logger_start c d) = Some (Ticket n) -> n = flush_requested_ d + 1) ->
  flush_requested_ d <= flush_requested_ (verdict_data (logger_start c d)) /\
  issued (verdict_data (logger_start c d)) (local (conclude l (logger_start c d))).
Proof.
  unfold issued. intros H Hp Hn. destruct c as [fs th r|fs|m| |lv| |r|m|m]; simpl in *.
  - destruct (log_cases capacity_ policy_ fs th r d) as [E|[E|E]]; rewrite E in *; [by split|by split|].
    destruct (enqueue_cases capacity_ policy_ fs r d) as [[x E2]|[[E2 E3]|[(d2 & E2 & _ & Er & _)|[E2 _]]]]; rewrite E2 in *; simpl; rewrite ?Er; by split.
  - unfold flush_section in *. destruct fs; [by split|]. destruct (stopping_ d); simpl in *; [by split|].
    rewrite (Hn _ eq_refl). split; [lia|]. intros n [= <-]. lia.
  - unfold flush_wait_section in *. destruct (m <=? flush_completed_ d); by split.
  - by split.
  - by split.
  - unfold take_section. destruct (queue_ d) as [|[r|n] q]; [destruct (stopping_ d)|..]; by split.
  - unfold deliver_section. destruct (write_all _ _ _ _). by split.
  - unfold flush_sinks_section. destruct (flush_all _ _). by split.
  - split; [done|]. by destruct l as [| | | | |[m'|]|].
Qed.

Lemma resume_issued l k ex d :
  issued d l -> flush_requested_ (verdict_data (logger_resume k ex d)) = flush_requested_ d /\
  issued (verdict_data (logger_resume k ex d)) (local (conclude l (logger_resume k ex d))).
Proof.
  unfold issued. intros H. destruct k as [r|m|]; simpl.
  - destruct (stopping_ d); [by split|]. by destruct (length (queue_ d) <? capacity_)%nat.
  - unfold flush_wait_section in *. by destruct (m <=? flush_completed_ d).
  - unfold take_section. destruct (queue_ d) as [|[r|n] q]; [destruct (stopping_ d)|..]; by split.
Qed.

Lemma issued_mono d d' l : flush_requested_ d <= flush_requested_ d' -> issued d l -> issued d' l.
Proof. intros Hle H n E. specialize (H n E). lia. Qed.

Lemma issued_exec (s0 s : state) es :
  initial s0 -> exec s0 es s -> Z.of_nat (length (tickets (stream es))) < 2 ^ 64 -> Forall (issued (data s)) (locals (threads s)).
Proof.
  intros Hi Hx. pose proof Hi as [Hd [n Hts]]. induction Hx as [s|s es s1 e s2 Hx IH Hs]; intros Hb.
  - rewrite Hts. unfold locals. apply Forall_map, Forall_app. split; [by repeat constructor|by apply Forall_replicate].
  - pose proof (progress_exec _ _ _ _ _ _ _ _ _ Hi (exec_snoc _ _ _ _ _ Hx Hs) Hb) as P'.
    rewrite stream_app, tickets_app, length_app in Hb. specialize (IH Hi Hd Hts ltac:(lia)).
    pose proof (progress_exec _ _ _ _ _ _ _ _ _ Hi Hx ltac:(lia)) as P.
    destruct (step_view _ _ _ Hs) as [He Hdata Hloc|t l v Hsec He Hdata Hthreads]; [by rewrite Hdata, Hloc|].
    assert (flush_requested_ (data s1) <= flush_requested_ (verdict_data v) /\ issued (verdict_data v) (local (conclude l v))) as [Hle Hv].
    { destruct Hsec as [[Ht (c & Hp & ->)]|(k & ex & Ht & ->)].
      - apply start_issued; [|done|].
        + apply (Forall_lookup_1 _ _ _ _ IH (eq_trans (list_lookup_fmap local (threads s1) t) (f_equal (fmap local) Ht))).
        + intros m Hm. simpl in He. rewrite Hm in He. pose proof (p_requested _ _ _ P) as Hr. rewrite Hr.
          apply (p_tickets _ _ _ P'). rewrite stream_app, tickets_app. unfold stream at 2. simpl. rewrite He. simpl. by apply list_lookup_middle.
      - destruct (resume_issued l k ex (data s1)) as [E Hv]; [|split; [simpl; lia|done]].
        apply (Forall_lookup_1 _ _ _ _ IH (eq_trans (list_lookup_fmap local (threads s1) t) (f_equal (fmap local) Ht))). }
    rewrite Hdata, Hthreads, locals_insert. apply Forall_insert; [|done]. apply (Forall_impl _ _ _ IH). intros l'. by apply issued_mono.
Qed.

(** *** At rest *)

Lemma capacity_positive (s0 : state) : initial s0 -> capacity_ <> 0%nat.
Proof. intros [Hd _]. simpl in Hd. unfold make in Hd. case_bool_decide; [done|]. by destruct (Nat.eqb_spec capacity_ 0). Qed.

Lemma pump_covered (s : state) : reachable s -> covered_by (fun _ => True) records_available in_take_wait (fun _ => true) running queued (data s) (threads s).
Proof. apply covered_by_reachable; [done..|apply pump_start|apply pump_resume]. Qed.

Lemma producers_covered (s : state) : reachable s -> covered_by (fun _ => True) space_available in_log_wait (fun _ => true) running room (data s) (threads s).
Proof. apply covered_by_reachable; [done..|apply producer_start|apply producer_resume]. Qed.

Lemma flushes_covered n (s : state) :
  reachable s -> covered_by (fun _ => True) flush_done in_flush_wait (for_ticket n) (incomplete n) (fun _ => 0%nat) (data s) (threads s).
Proof. apply covered_by_reachable; [done..|apply flush_start|apply flush_resume]. Qed.

Definition cond_of (k : waiting) : cond :=
  match k with in_log _ => space_available | in_flush _ => flush_done | in_take => records_available end.

(** A sleeper is inside the call it should be in, and sleeps on the condition of that call. *)
Lemma sleeper_place (s : state) t c k l :
  reachable s -> threads s !! t = Some (Thread (Asleep c k) l) ->
  c = cond_of k /\ match k with in_log _ => l = client | in_flush n => l = flushing n | in_take => l = taking end.
Proof.
  intros Hr Ht. pose proof (proper_reachable _ _ _ _ _ _ s Hr) as Hprop. split; [|exact (Forall_lookup_1 _ _ _ _ Hprop Ht)].
  destruct (pump_covered s Hr) as (_ & P1 & _), (producers_covered s Hr) as (_ & P2 & _), (flushes_covered 0 s Hr) as (_ & P3 & _).
  pose proof (Forall_lookup_1 _ _ _ _ P1 Ht) as H1. pose proof (Forall_lookup_1 _ _ _ _ P2 Ht) as H2. pose proof (Forall_lookup_1 _ _ _ _ P3 Ht) as H3.
  unfold placed in *. simpl in *. destruct c, k; try done; [by specialize (H1 eq_refl)..|by specialize (H2 eq_refl)|by specialize (H2 eq_refl)| |]; by specialize (H3 eq_refl).
Qed.

(** C32. No wake-up is lost.  The activity under way after any execution dies out; and in a state where nothing
    is under way and the pump is asleep, the queue is empty, shutdown has not begun, every flush that was requested
    is completed, and no other thread is asleep: no producer waits for space and no caller of [flush] waits
    for its ticket, although notifications are sent outside the mutex. *)
Theorem idle_pump_leaves_nobody_waiting (s0 s : state) es :
  initial s0 -> exec s0 es s -> Z.of_nat (length (tickets (stream es))) < 2 ^ 64 ->
  sn internal_step s /\
  (at_rest s -> (exists c k l, threads s !! 0%nat = Some (Thread (Asleep c k) l)) ->
    queue_ (data s) = [] /\ stopping_ (data s) = false /\ flush_completed_ (data s) = flush_requested_ (data s) /\
    forall t c k l, threads s !! t = Some (Thread (Asleep c k) l) -> t = 0%nat).
Proof.
  intros Hi Hx Hb. split; [apply internal_terminates|]. intros Hrest (c0 & k0 & l0 & Ht0).
  assert (reachable s) as Hr by (by eapply exec_reachable, reach_init).
  pose proof (progress_exec _ _ _ _ _ _ _ _ _ Hi Hx Hb) as P. pose proof (issued_exec _ _ _ Hi Hx Hb) as Hiss.
  assert (locals (threads s) !! 0%nat = Some l0) as Hl0 by (unfold locals; by rewrite list_lookup_fmap, Ht0).
  destruct (p_pump _ _ _ P) as (l & Hl & Hp & Ht & _). rewrite Hl in Hl0. injection Hl0 as ->.
  destruct (sleeper_place _ _ _ _ _ Hr Ht0) as [-> Hk]. destruct k0 as [r|n|]; subst l0; try done. simpl in Ht0.
  destruct (asleep_at_rest (fun _ => True) records_available in_take_wait (fun _ => true) running queued)
    with (s := s) (t := 0%nat) (k := in_take) (l := taking) as (_ & Hrun & Hq); try done; [apply pump_start|apply pump_resume|].
  apply nil_length_inv in Hq. unfold running in Hrun. bools. split; [done|]. split; [done|]. simpl in Ht. rewrite app_nil_r in Ht.
  assert (flush_completed_ (data s) = flush_requested_ (data s)) as Hc.
  { pose proof (p_completed _ _ _ _ P Hl) as Hc. simpl in Hc. rewrite (p_requested _ _ _ P), (p_stream _ _ _ P), Hq, app_nil_r, Ht. lia. }
  split; [done|]. intros t c k l Hs. destruct (sleeper_place _ _ _ _ _ Hr Hs) as [-> Hk]. destruct k as [r|n|]; subst l.
  - destruct (asleep_at_rest (fun _ => True) space_available in_log_wait (fun _ => true) running room)
      with (s := s) (t := t) (k := in_log r) (l := client) as (_ & _ & Hroom); try done; [apply producer_start|apply producer_resume|].
    pose proof (capacity_positive _ Hi). unfold room in Hroom. rewrite Hq in Hroom. simpl in Hroom. lia.
  - destruct (asleep_at_rest (fun _ => True) flush_done in_flush_wait (for_ticket n) (incomplete n) (fun _ => 0%nat))
      with (s := s) (t := t) (k := in_flush n) (l := flushing n) as (_ & Hn & _); try done; [apply flush_start|apply flush_resume|simpl; lia|].
    unfold incomplete in Hn. bools. assert (locals (threads s) !! t = Some (flushing n)) as Hf by (unfold locals; by rewrite list_lookup_fmap, Hs).
    pose proof (Forall_lookup_1 _ _ _ _ Hiss Hf n eq_refl). lia.
  - eapply pump_is_first; [exact P| |done]. unfold locals. by rewrite list_lookup_fmap, Hs.
Qed.

End wake.

#[local] Instance demo_wake : Monitor (Logger.logger (Sk := bool * list text)) cond waiting answer call life :=
  logger_monitor keep keep_flush plain 1 block [(false, []); (true, [])].

Lemma idle_pump_leaves_nobody_waiting_witness :
  exists es s, run_moves at_start (one_flush ++ [DoReturn 2; DoCall 0 pump_take]) = Some (s, es) /\ at_rest s /\
    sn internal_step s /\ queue_ (data s) = [] /\ stopping_ (data s) = false /\ flush_completed_ (data s) = flush_requested_ (data s) /\
    forall t c k l, threads s !! t = Some (Thread (Asleep c k) l) -> t = 0%nat.
Proof.
  run_session. split; [by vm_compute|]. split; [by vm_compute|].
  destruct (idle_pump_leaves_nobody_waiting keep keep_flush plain 1 block [(false, []); (true, [])] at_start _ _ logger_at_start_initial Hx) as [H1 H2];
    [by vm_compute|]. split; [done|]. apply H2; [by vm_compute|by eexists _, _, _].
Defined.
