(* ===== verification/LogLine.v ===== *)
(** * The standard log line (logger.cpp: append_padded, render_line)

    ["[YYYY-MM-DD HH:MM:SS.mmm] [level] [thread] message"], in UTC.  [gmtime_r] is the C library's: a
    parameter, with the calendar as its law ([GmtimeLaws]); [civil] is an instance.  [read_line] is the
    inverse the rendering is measured against. *)

From S2P Require Import Prelude Charconv StringBuilder Logger.
Open Scope Z_scope.

(** ** Broken-down time *)

Record tm := Tm { tm_sec : Z; tm_min : Z; tm_hour : Z; tm_mday : Z; tm_mon : Z; tm_year : Z; tm_yday : Z }.

Definition leap (y : Z) : bool := (y mod 4 =? 0) && (negb (y mod 100 =? 0) || (y mod 400 =? 0)).
Definition month_lengths (y : Z) : list Z := [31; if leap y then 29 else 28; 31; 30; 31; 30; 31; 31; 30; 31; 30; 31].
Definition sum_Z (l : list Z) : Z := foldr Z.add 0 l.

(** Days from 1970-01-01 to the first of January of a year, and to a date. *)
Definition days_before (y : Z) : Z := 365 * (y - 1970) + (y - 1969) / 4 - (y - 1901) / 100 + (y - 1601) / 400.
Definition days_to (y mon mday : Z) : Z := days_before y + sum_Z (take (Z.to_nat mon) (month_lengths y)) + (mday - 1).

(** The seconds since the epoch of a broken-down time, as in POSIX (no leap seconds). *)
Definition epoch_of (y mon mday hour min sec : Z) : Z := 86400 * days_to y mon mday + 3600 * hour + 60 * min + sec.

Class GmtimeLaws (gmtime_r : Z -> option tm) : Prop := {
  gmtime_epoch t u :
    gmtime_r t = Some u -> epoch_of (tm_year u + 1900) (tm_mon u) (tm_mday u) (tm_hour u) (tm_min u) (tm_sec u) = t;
  gmtime_ranges t u :
    gmtime_r t = Some u ->
    0 <= tm_sec u <= 60 /\ 0 <= tm_min u <= 59 /\ 0 <= tm_hour u <= 23 /\ 1 <= tm_mday u <= 31 /\ 0 <= tm_mon u <= 11
}.

(** ** Rendering *)

Section render.
Context (gmtime_r : Z -> option tm).

(** [value] zero-padded to [width] digits. *)
Definition append_padded (out : builder) (value : Z) (width : nat) : builder :=
  match to_chars 16 10 value with
  | None => out
  | Some t => append_text (Nat.iter (width - length t) (fun out => append_char out "0") out) t
  end.

(** [time] in nanoseconds: [floor<seconds>], and the milliseconds left. *)
Definition second_point (r : LogRecord) : Z := time r / 10 ^ 9.
Definition millisecond (r : LogRecord) : Z := Z.quot (time r - second_point r * 10 ^ 9) (10 ^ 6).

Definition append_date (out : builder) (utc : tm) (ms : Z) : builder :=
  let out := append_padded out (tm_year utc + 1900) 4 in
  let out := append_char out "-" in
  let out := append_padded out (tm_mon utc + 1) 2 in
  let out := append_char out "-" in
  let out := append_padded out (tm_mday utc) 2 in
  let out := append_char out " " in
  let out := append_padded out (tm_hour utc) 2 in
  let out := append_char out ":" in
  let out := append_padded out (tm_min utc) 2 in
  let out := append_char out ":" in
  let out := append_padded out (tm_sec utc) 2 in
  let out := append_char out "." in
  append_padded out ms 3.

Definition render_line (r : LogRecord) : text :=
  let out := append_char empty_builder "[" in
  let out :=
    match gmtime_r (second_point r) with
    | Some utc => append_date out utc (millisecond r)
    | None => append_char (append_int out (second_point r)) "s"
    end in
  let out := append_text out ($"] [") in
  let out := append_text out (level_name (level r)) in
  let out := append_text out ($"] [") in
  let out := append_int out (thread_id r) in
  let out := append_text out ($"] ") in
  (str_move (append_text out (message r))).1.

End render.

(** ** Reading a line back *)

Inductive stamp : Set := Millis (ms : Z) | Seconds (s : Z).

Definition expect (t s : text) : option text := if decide (take (length t) s = t) then Some (skipn (length t) s) else None.

(** A number, then a separator. *)
Definition field (sep s : text) : option (Z * text) :=
  '(n, s) ← from_chars (- 2 ^ 63) (2 ^ 64 - 1) s; s ← expect sep s; Some (n, s).

Definition read_stamp (s : text) : option (stamp * text) :=
  '(n, s) ← from_chars (- 2 ^ 63) (2 ^ 64 - 1) s;
  match expect ($"s") s with
  | Some s => Some (Seconds n, s)
  | None =>
      s ← expect ($"-") s;
      '(mon, s) ← field ($"-") s;
      '(mday, s) ← field ($" ") s;
      '(hour, s) ← field ($":") s;
      '(min, s) ← field ($":") s;
      '(sec, s) ← field ($".") s;
      '(ms, s) ← from_chars (- 2 ^ 63) (2 ^ 64 - 1) s;
      Some (Millis (1000 * epoch_of n (mon - 1) mday hour min sec + ms), s)
  end.

Definition read_level (s : text) : option (LogLevel * text) :=
  match filter (fun l => is_Some (expect (level_name l ++ $"]") s)) [trace; debug; info; warning; error; critical; off] with
  | l :: _ => s ← expect (level_name l) s; Some (l, s)
  | [] => None
  end.

Definition read_line (s : text) : option (stamp * LogLevel * Z * text) :=
  s ← expect ($"[") s;
  '(at_, s) ← read_stamp s;
  s ← expect ($"] [") s;
  '(l, s) ← read_level s;
  s ← expect ($"] [") s;
  '(id, s) ← field ($"] ") s;
  Some (at_, l, id, s).

(** What of the time the line keeps. *)
Definition stamp_of (gmtime_r : Z -> option tm) (r : LogRecord) : stamp :=
  match gmtime_r (second_point r) with Some _ => Millis (time r / 10 ^ 6) | None => Seconds (time r / 10 ^ 9) end.

(** ** Numbers *)

Definition not_digit (s : text) : Prop := match s with [] => True | c :: _ => is_digit c = false end.
Definition number (t : text) (v : Z) : Prop :=
  forall rest, not_digit rest -> from_chars (- 2 ^ 63) (2 ^ 64 - 1) (t ++ rest) = Some (v, rest).

Lemma number_digits ds v :
  Forall (fun c => is_digit c = true) ds -> ds <> [] -> digits_value ds = v -> - 2 ^ 63 <= v <= 2 ^ 64 - 1 -> number ds v.
Proof.
  intros Hd Hne Hv Hr rest Hrest. unfold from_chars. destruct ds as [|c ds]; [done|]. simpl.
  assert (Ascii.eqb c "-" = false) as -> by (apply Ascii.eqb_neq; intros ->; by inv Hd).
  change (c :: ds ++ rest) with ((c :: ds) ++ rest). rewrite take_digits_app by done. rewrite Hv.
  destruct (Z.leb_spec (- 2 ^ 63) v), (Z.leb_spec v (2 ^ 64 - 1)); simpl; [done|lia..].
Qed.

Lemma digits_value_zeros k ds : digits_value (replicate k "0"%char ++ ds) = digits_value ds.
Proof. unfold digits_value. rewrite foldl_app. f_equal. by induction k. Qed.

(** A zero-padded field has its width, and reads back. *)
Lemma append_padded_number v width :
  0 <= v < 10 ^ Z.of_nat width -> (1 <= width <= 15)%nat ->
  exists t, (forall out, append_padded out v width = append_text out t) /\ length t = width /\ number t v.
Proof.
  intros Hv Hw. assert (10 ^ Z.of_nat width < 2 ^ 64) as Hp.
  { apply (Z.le_lt_trans _ (10 ^ 15)); [apply Z.pow_le_mono_r; lia|done]. }
  pose proof (digits_spec v ltac:(lia)) as [Hd Hne Hval Hl]. specialize (Hl width ltac:(lia) ltac:(lia)).
  unfold append_padded, to_chars. destruct (Z.ltb_spec v 0); [lia|]. destruct (Nat.leb_spec (length (digits 10 v)) 16); [|lia].
  exists (replicate (width - length (digits 10 v)) "0"%char ++ digits 10 v). split_and!.
  - intros out. assert (forall n, Nat.iter n (fun o => append_char o "0") out = append_text out (replicate n "0"%char)) as ->.
    { intros n. unfold append_text, append_char. destruct out as [o]. induction n as [|n IH]; simpl; [by rewrite app_nil_r|].
      rewrite IH. simpl. by rewrite <- app_assoc, <- replicate_cons_app. }
    unfold append_text. simpl. by rewrite app_assoc.
  - rewrite length_app, length_replicate. lia.
  - apply number_digits; [|by intros [_ ?]%app_eq_nil|by rewrite digits_value_zeros|lia].
    apply Forall_app. split; [by apply Forall_replicate|done].
Qed.

Lemma append_int_number v :
  - 2 ^ 63 <= v < 2 ^ 64 -> exists t, (forall out, append_int out v = append_text out t) /\ number t v.
Proof.
  intros Hv. destruct (to_chars_fits 24 v ltac:(lia) Hv) as (t & Ht & _). exists t. unfold append_int. rewrite Ht.
  split; [done|]. intros rest Hr. apply (from_to_chars 24); [lia..|done|done].
Qed.

Lemma expect_app t s : expect t (t ++ s) = Some s.
Proof. unfold expect. rewrite take_app_length, drop_app_length. by rewrite decide_True. Qed.

Lemma expect_other c d s : c <> d -> expect [c] ([d] ++ s) = None.
Proof. intros H. unfold expect. simpl. rewrite take_0. apply decide_False. by intros [=->]. Qed.

Lemma field_number t v sep rest : number t v -> not_digit (sep ++ rest) -> field sep (t ++ sep ++ rest) = Some (v, rest).
Proof. intros Hn Hr. unfold field. rewrite Hn by done. simpl. by rewrite expect_app. Qed.

(** ** The calendar *)

Lemma sum_take_bound y n : 0 <= sum_Z (take n (month_lengths y)) <= 366.
Proof.
  unfold month_lengths. destruct (leap y).
  all: do 13 (destruct n as [|n]; [vm_compute; split; discriminate|]); rewrite take_ge by (simpl; lia); vm_compute; split; discriminate.
Qed.

Lemma year_range y mon mday hour min sec :
  - 2 ^ 63 / 10 ^ 9 <= epoch_of y mon mday hour min sec <= 2 ^ 63 / 10 ^ 9 ->
  0 <= sec <= 60 -> 0 <= min <= 59 -> 0 <= hour <= 23 -> 1 <= mday <= 31 -> 0 <= y < 10 ^ 4.
Proof.
  intros Ht ? ? ? ?. unfold epoch_of, days_to in Ht. pose proof (sum_take_bound y (Z.to_nat mon)).
  change (- 2 ^ 63 / 10 ^ 9) with (-9223372037) in Ht. change (2 ^ 63 / 10 ^ 9) with 9223372036 in Ht.
  assert (-110000 <= days_before y <= 110000) as Hd by lia. unfold days_before in Hd.
  pose proof (Z.div_mod (y - 1969) 4 ltac:(lia)). pose proof (Z.mod_pos_bound (y - 1969) 4 ltac:(lia)).
  pose proof (Z.div_mod (y - 1901) 100 ltac:(lia)). pose proof (Z.mod_pos_bound (y - 1901) 100 ltac:(lia)).
  pose proof (Z.div_mod (y - 1601) 400 ltac:(lia)). pose proof (Z.mod_pos_bound (y - 1601) 400 ltac:(lia)). lia.
Qed.

(** ** The line reads back *)

Section lines.
Context (gmtime_r : Z -> option tm) `{!GmtimeLaws gmtime_r}.

Lemma append_text_assoc out s t : append_text (append_text out s) t = append_text out (s ++ t).
Proof. unfold append_text. simpl. by rewrite <- app_assoc. Qed.
Lemma append_char_text out c : append_char out c = append_text out [c].
Proof. done. Qed.

Lemma append_date_reads out u ms :
  0 <= tm_year u + 1900 < 10 ^ 4 -> 0 <= tm_mon u <= 11 -> 1 <= tm_mday u <= 31 -> 0 <= tm_hour u <= 23 ->
  0 <= tm_min u <= 59 -> 0 <= tm_sec u <= 60 -> 0 <= ms < 10 ^ 3 ->
  exists t, append_date out u ms = append_text out t /\ length t = 23%nat /\
    forall rest, not_digit rest -> read_stamp (t ++ rest) =
      Some (Millis (1000 * epoch_of (tm_year u + 1900) (tm_mon u) (tm_mday u) (tm_hour u) (tm_min u) (tm_sec u) + ms), rest).
Proof.
  intros. unfold append_date.
  edestruct (append_padded_number (tm_year u + 1900) 4) as (y & Ey & Ly & Hy); [lia..|].
  edestruct (append_padded_number (tm_mon u + 1) 2) as (mo & Emo & Lmo & Hmo); [lia..|].
  edestruct (append_padded_number (tm_mday u) 2) as (md & Emd & Lmd & Hmd); [lia..|].
  edestruct (append_padded_number (tm_hour u) 2) as (h & Eh & Lh & Hh); [lia..|].
  edestruct (append_padded_number (tm_min u) 2) as (mi & Emi & Lmi & Hmi); [lia..|].
  edestruct (append_padded_number (tm_sec u) 2) as (se & Ese & Lse & Hse); [lia..|].
  edestruct (append_padded_number ms 3) as (m & Em & Lm & Hm); [lia..|].
  eexists. split; [|split].
  - rewrite Ey, Emo, Emd, Eh, Emi, Ese, Em. rewrite !append_char_text, !append_text_assoc. reflexivity.
  - rewrite !length_app, Ly, Lmo, Lmd, Lh, Lmi, Lse, Lm. done.
  - intros rest Hrest. rewrite <- !app_assoc. unfold read_stamp. rewrite Hy by done. cbn [mbind option_bind].
    rewrite (expect_other "s" "-") by done. rewrite (expect_app ["-"%char]). cbn [mbind option_bind].
    rewrite (field_number mo _ ["-"%char]) by done. cbn [mbind option_bind]. rewrite (field_number md _ [" "%char]) by done. cbn [mbind option_bind].
    rewrite (field_number h _ [":"%char]) by done. cbn [mbind option_bind]. rewrite (field_number mi _ [":"%char]) by done. cbn [mbind option_bind].
    rewrite (field_number se _ ["."%char]) by done. cbn [mbind option_bind]. rewrite Hm by done. cbn [mbind option_bind]. do 3 f_equal. rewrite Z.add_simpl_r. done.
Qed.

Lemma read_level_name l rest : read_level (level_name l ++ $"] [" ++ rest) = Some (l, $"] [" ++ rest).
Proof.
  unfold read_level. destruct l; simpl; unfold expect; simpl; rewrite ?take_0, ?drop_0; try done.
Qed.

Lemma second_point_range r : - 2 ^ 63 <= time r < 2 ^ 63 -> - 2 ^ 63 / 10 ^ 9 <= second_point r <= 2 ^ 63 / 10 ^ 9.
Proof. intros. unfold second_point. split; apply Z.div_le_mono; lia. Qed.

Lemma millisecond_split r : 0 <= millisecond r < 10 ^ 3 /\ 1000 * second_point r + millisecond r = time r / 10 ^ 6.
Proof.
  unfold millisecond, second_point. pose proof (Z.div_mod (time r) (10 ^ 9) ltac:(lia)). pose proof (Z.mod_pos_bound (time r) (10 ^ 9) ltac:(lia)).
  rewrite Z.quot_div_nonneg by lia. Z.to_euclidean_division_equations. lia.
Qed.

(** What stands between the opening bracket and the level. *)
Lemma time_field_reads r out :
  - 2 ^ 63 <= time r < 2 ^ 63 ->
  exists t,
    match gmtime_r (second_point r) with
    | Some utc => append_date out utc (millisecond r)
    | None => append_char (append_int out (second_point r)) "s"
    end = append_text out t /\
    forall rest, not_digit rest -> read_stamp (t ++ rest) = Some (stamp_of gmtime_r r, rest).
Proof.
  intros Hr. pose proof (second_point_range r Hr) as Hs. destruct (millisecond_split r) as [Hm E]. unfold stamp_of.
  destruct (gmtime_r (second_point r)) as [u|] eqn:Eu.
  - destruct (gmtime_ranges _ _ Eu) as (? & ? & ? & ? & ?). pose proof (gmtime_epoch _ _ Eu) as Et.
    destruct (append_date_reads out u (millisecond r)) as (t & Ea & _ & Hread); try done.
    { eapply year_range; [rewrite Et|..]; done. }
    exists t. split; [done|]. intros rest Hrest. rewrite Hread, Et, E by done. done.
  - destruct (append_int_number (second_point r)) as (t & Ea & Hn).
    { change (- 2 ^ 63 / 10 ^ 9) with (-9223372037) in Hs. change (2 ^ 63 / 10 ^ 9) with 9223372036 in Hs. lia. }
    exists (t ++ ["s"%char]). split; [by rewrite Ea, append_char_text, append_text_assoc|].
    intros rest Hrest. unfold read_stamp. rewrite <- app_assoc, Hn by done. cbn [mbind option_bind]. by rewrite (expect_app ["s"%char]).
Qed.

(** C34. A log line loses nothing but the sub-millisecond part of the time: for every record whose time is
    a 64-bit count of nanoseconds, before the epoch too, and whatever its message contains, the line that
    is rendered is read back, unambiguously, as the millisecond (or, where the C library cannot decompose
    the time, the second), the level, the thread and the message of the record. *)
Theorem line_reads_back r :
  - 2 ^ 63 <= time r < 2 ^ 63 -> 0 <= thread_id r < 2 ^ 64 ->
  read_line (render_line gmtime_r r) = Some (stamp_of gmtime_r r, level r, thread_id r, message r).
Proof.
  intros Ht Hid. unfold render_line. destruct (time_field_reads r (append_char empty_builder "[") Ht) as (t & -> & Hread).
  destruct (append_int_number (thread_id r)) as (d & Ed & Hd); [lia|]. rewrite Ed. rewrite append_char_text, !append_text_assoc.
  unfold str_move, append_text, empty_builder, read_line. cbn [fst buffer_]. rewrite app_nil_l, <- ?app_assoc. rewrite (expect_app ["["%char]). cbn [mbind option_bind]. rewrite Hread by done. cbn [mbind option_bind].
  rewrite (expect_app ($"] [")). cbn [mbind option_bind]. rewrite read_level_name. cbn [mbind option_bind]. rewrite (expect_app ($"] [")). cbn [mbind option_bind].
  by rewrite (field_number d (thread_id r) ($"] ")).
Qed.

End lines.

(** ** The Gregorian calendar as an instance *)

Fixpoint find_month (lengths : list Z) (mon yday : Z) : Z * Z :=
  match lengths with
  | [] => (mon, yday)
  | l :: lengths => if yday <? l then (mon, yday) else find_month lengths (mon + 1) (yday - l)
  end.

Definition civil (t : Z) : option tm :=
  let days := t / 86400 in
  let guess := 1970 + 400 * days / 146097 in
  let y := if days <? days_before guess then guess - 1 else if days_before (guess + 1) <=? days then guess + 1 else guess in
  let yday := days - days_before y in
  let '(mon, mday) := find_month (month_lengths y) 0 yday in
  Some (Tm (t mod 60) (t mod 3600 / 60) (t mod 86400 / 3600) (mday + 1) mon (y - 1900) yday).

Lemma find_month_spec ls mon d mon' d' :
  find_month ls mon d = (mon', d') -> 0 <= d < sum_Z ls ->
  exists k l, mon' = mon + Z.of_nat k /\ ls !! k = Some l /\ 0 <= d' < l /\ sum_Z (take k ls) + d' = d.
Proof.
  revert mon d. induction ls as [|l ls IH]; intros mon d H Hd; simpl in *; [lia|].
  destruct (Z.ltb_spec d l).
  - injection H as <- <-. exists 0%nat, l. split_and!; try done; simpl; lia.
  - destruct (IH _ _ H) as (k & l' & -> & Hl & Hd' & E); [lia|]. exists (S k), l'. split_and!; try done; simpl; lia.
Qed.

Lemma year_length y : sum_Z (month_lengths y) = days_before (y + 1) - days_before y.
Proof.
  transitivity (365 + if leap y then 1 else 0); [unfold month_lengths; destruct (leap y); reflexivity|].
  assert (leap y = true <-> (y mod 4 = 0 /\ (y mod 100 <> 0 \/ y mod 400 = 0))) as Hl.
  { unfold leap. rewrite andb_true_iff, orb_true_iff, negb_true_iff, !Z.eqb_eq, Z.eqb_neq. done. }
  unfold days_before. destruct (leap y); [destruct (proj1 Hl eq_refl)|assert (~ (y mod 4 = 0 /\ (y mod 100 <> 0 \/ y mod 400 = 0))) by (intros H; apply Hl in H; done)];
    clear Hl; Z.to_euclidean_division_equations; lia.
Qed.

Definition guess_year (days : Z) : Z :=
  let guess := 1970 + 400 * days / 146097 in
  if days <? days_before guess then guess - 1 else if days_before (guess + 1) <=? days then guess + 1 else guess.

Lemma days_before_near y : 146097 * (y - 1970) - 1200 < 400 * days_before y < 146097 * (y - 1970) + 1200.
Proof. unfold days_before. Z.to_euclidean_division_equations. lia. Qed.

Lemma guess_year_spec days : days_before (guess_year days) <= days < days_before (guess_year days + 1).
Proof.
  unfold guess_year. set (g := 1970 + 400 * days / 146097).
  assert (146097 * (g - 1970) <= 400 * days < 146097 * (g - 1970) + 146097) by (unfold g; Z.to_euclidean_division_equations; lia).
  pose proof (days_before_near (g - 1)). pose proof (days_before_near (g + 1 + 1)).
  destruct (Z.ltb_spec days (days_before g)); [rewrite Z.sub_add; lia|]. destruct (Z.leb_spec (days_before (g + 1)) days); lia.
Qed.

Lemma month_bounds y k l : month_lengths y !! k = Some l -> (k < 12)%nat /\ l <= 31.
Proof.
  intros H. split; [apply lookup_lt_Some in H; unfold month_lengths in H; simpl in H; lia|].
  assert (Forall (fun l => l <= 31) (month_lengths y)) as Hf by (unfold month_lengths; destruct (leap y); repeat constructor; lia).
  by apply (Forall_lookup_1 _ _ _ _ Hf H).
Qed.

#[export] Instance civil_laws : GmtimeLaws civil.
Proof.
  assert (forall t u, civil t = Some u ->
    exists k l, tm_year u = guess_year (t / 86400) - 1900 /\ tm_mon u = Z.of_nat k /\ month_lengths (guess_year (t / 86400)) !! k = Some l /\
      1 <= tm_mday u <= l /\ sum_Z (take k (month_lengths (guess_year (t / 86400)))) + (tm_mday u - 1) = t / 86400 - days_before (guess_year (t / 86400)) /\
      tm_sec u = t mod 60 /\ tm_min u = t mod 3600 / 60 /\ tm_hour u = t mod 86400 / 3600) as H.
  { intros t u. unfold civil. fold (guess_year (t / 86400)). pose proof (guess_year_spec (t / 86400)) as Hy. set (y := guess_year (t / 86400)) in *.
    destruct (find_month _ _ _) as [mon mday] eqn:E. intros [= <-]. simpl.
    apply find_month_spec in E as (k & l & -> & Hl & Hd & Hs); [|rewrite year_length; lia]. exists k, l. split_and!; try done; lia. }
  split; intros t u (k & l & Ey & Em & Hl & Hd & Hs & Ese & Emi & Eh)%H; destruct (month_bounds _ _ _ Hl).
  - unfold epoch_of, days_to. rewrite Ey, Em, Ese, Emi, Eh, Z.sub_add, Nat2Z.id.
    replace (days_before _ + sum_Z _ + (tm_mday u - 1)) with (t / 86400) by lia. Z.to_euclidean_division_equations. lia.
  - rewrite Em, Ese, Emi, Eh. Z.to_euclidean_division_equations. lia.
Qed.

(** A record of a leap day, with a message that looks like a header. *)
Definition sample : LogRecord := MkRecord 1709208000123456789 warning 4242 ($"] [info] [1] }").

Example sample_line : render_line civil sample = $"[2024-02-29 12:00:00.123] [warning] [4242] ] [info] [1] }".
Proof. vm_compute. reflexivity. Qed.

Lemma line_reads_back_witness :
  read_line (render_line civil sample) = Some (Millis 1709208000123, warning, 4242, $"] [info] [1] }") /\
  read_line (render_line civil (MkRecord (-1) info 1 ($"x"))) = Some (Millis (-1), info, 1, $"x").
Proof.
  split; [apply (line_reads_back civil sample); vm_compute; split; congruence|].
  apply (line_reads_back civil (MkRecord (-1) info 1 ($"x"))); vm_compute; split; congruence.
Defined.
