(* ===== verification/LogSinks.v ===== *)
(** * The logger's built-in sinks (logger.cpp: ConsoleSink, FileSink, UdpSink), and the logger with them

    Each sink is its destination: a C stream, an output file stream with its sticky failure state, a
    datagram socket with its address, written through [send_datagram] of the platform.  What a destination does with the bytes is the library's and
    the system's business ([StreamOs], [DatagramOs], [SendTo], with their laws).  A write or flush that throws is one that answers
    [false].  Sinks of one logger are assumed to have destinations of their own. *)

From S2P Require Import Prelude Charconv StringBuilder Posix UdpDatagram Monitor Logger LogLine.
Open Scope nat_scope.

(** [stream_put]: how many characters were taken ([fwrite], [sputn]). *)
Class StreamOs (F : Type) := {
  open_stream : text -> bool -> option F;
  stream_put : text -> F -> nat * F;
  stream_sync : F -> bool * F
}.

(** [contents]: what the stream was given so far; [durable]: what of it has left the buffers. *)
Class StreamLaws (F : Type) `{StreamOs F} (contents durable : F -> text) : Prop := {
  put_contents t f n f' : stream_put t f = (n, f') -> n <= length t /\ contents f' = contents f ++ take n t;
  put_durable t f n f' : stream_put t f = (n, f') -> durable f `prefix_of` durable f';
  sync_contents f b f' : stream_sync f = (b, f') -> contents f' = contents f;
  sync_prefix f b f' : stream_sync f = (b, f') -> durable f `prefix_of` durable f';
  sync_durable f f' : stream_sync f = (true, f') -> durable f' = contents f
}.

(** The resolver for numeric literals, and a socket for the family of the address it found, with the part of the world it reaches. *)
Class DatagramOs (W A : Type) := {
  resolve_numeric : text -> text -> Z + A;
  ai_addrlen : A -> nat;
  datagram_socket : A -> option (Z * W)
}.

Section sinks.
Context {F W A : Type} `{!StreamOs F} `{!DatagramOs W A} `{!SendTo W A} (windows : bool).

(** The members of a [UdpSink], and the world its socket reaches. *)
Record udp_socket := UdpSocket { socket_ : Z; address_ : A; reaches : W }.

(** [good]: the [ofstream] has not failed yet. *)
Inductive builtin : Type :=
  | ConsoleSink (target : F)
  | FileSink (good : bool) (stream : F)
  | UdpSink (socket : udp_socket).

(** [ConsoleSink::ConsoleSink]. *)
Definition console_sink (out err : F) (standard_error : bool) : builtin := ConsoleSink (if standard_error then err else out).

Definition newline : text := ["010"%char].

(** [std::ostream::write], [put] and [flush]: nothing happens on a stream that has failed. *)
Definition os_write (t : text) (s : bool * F) : bool * F :=
  if s.1 then let '(n, f) := stream_put t s.2 in (n =? length t, f) else s.

Definition os_flush (s : bool * F) : bool * F :=
  if s.1 then stream_sync s.2 else s.

Definition file_sink (path : text) (append : bool) : outcome builtin :=
  match open_stream path append with Some f => Ret (FileSink true f) | None => Throw runtime_error end.

(** The sockaddr is copied into an array of 128 bytes. *)
Definition udp_sink (host : text) (port : Z) : outcome builtin :=
  match resolve_numeric (c_str host) (append_int empty_builder port).(buffer_) with
  | inl _ => Throw invalid_argument
  | inr a =>
      if 128 <? ai_addrlen a then Throw runtime_error
      else match datagram_socket a with Some (h, w) => Ret (UdpSink (UdpSocket h a w)) | None => Throw runtime_error end
  end.

Definition console_write (f : F) (line : text) : F * bool :=
  let '(n, f) := stream_put line f in
  if n =? length line then let '(n, f) := stream_put newline f in (f, n =? 1) else (f, false).

Definition file_write (s : bool * F) (line : text) : bool * F := os_write newline (os_write line s).

Definition udp_write (n : udp_socket) (line : text) : udp_socket * bool :=
  let '(ok, w) := send_datagram windows (socket_ n) line (address_ n) (reaches n) in (UdpSocket (socket_ n) (address_ n) w, ok).

(** The virtual calls of [Sink]. *)
Definition sink_write (k : builtin) (r : LogRecord) (line : text) : builtin * bool :=
  match k with
  | ConsoleSink f => let '(f, ok) := console_write f line in (ConsoleSink f, ok)
  | FileSink good f => let '(good, f) := file_write (good, f) line in (FileSink good f, good)
  | UdpSink n => let '(n, ok) := udp_write n line in (UdpSink n, ok)
  end.

Definition sink_flush (k : builtin) : builtin * bool :=
  match k with
  | ConsoleSink f => let '(ok, f) := stream_sync f in (ConsoleSink f, ok)
  | FileSink good f => let '(good, f) := os_flush (good, f) in (FileSink good f, good)
  | UdpSink n => (UdpSink n, true)
  end.

End sinks.
Arguments udp_socket W A : clear implicits.
Arguments builtin F W A : clear implicits.

(** ** What a sink has received *)

Section received.
Context {F W A : Type} `{!StreamOs F} `{!SendTo W A} (contents durable : F -> text).
Context `{!StreamLaws F contents durable} `{!SendToLaws W A}.
Context (windows : bool) (gmtime_r : Z -> option tm).

Abbreviation sink := (builtin F W A).
Abbreviation sink_write := (sink_write windows).
Abbreviation udp_write := (udp_write windows).
Abbreviation act := (sink_act (Sk := sink) sink_write sink_flush (render_line gmtime_r)).

Definition sent (n : udp_socket W A) : list text := datagrams (socket_ n) (reaches n).

(** What the sink can send in one piece: on Windows the UDP sink passes the size of a line as an [int]
    ([UdpDatagram.oversized_line_reported_sent] says what happens beyond). *)
Definition fits (k : sink) (line : text) : Prop :=
  match k with UdpSink _ => windows = true -> (Z.of_nat (length line) < 2 ^ 31)%Z | _ => True end.

Definition as_text (lines : list text) : text := concat (map (fun l => l ++ newline) lines).

(** From [k0] to [k] the destination has been given exactly these lines. *)
Definition received (k0 k : sink) (lines : list text) : Prop :=
  match k0, k with
  | ConsoleSink f0, ConsoleSink f | FileSink _ f0, FileSink _ f => contents f = contents f0 ++ as_text lines
  | UdpSink n0, UdpSink n => sent n = sent n0 ++ lines
  | _, _ => False
  end.

(** They have left the process. *)
Definition delivered (k0 k : sink) (lines : list text) : Prop :=
  match k0, k with
  | ConsoleSink f0, ConsoleSink f | FileSink _ f0, FileSink _ f => contents f0 ++ as_text lines `prefix_of` durable f
  | UdpSink n0, UdpSink n => sent n0 ++ lines `prefix_of` sent n
  | _, _ => False
  end.

Lemma as_text_app l l' : as_text (l ++ l') = as_text l ++ as_text l'.
Proof. unfold as_text. by rewrite map_app, concat_app. Qed.

Lemma as_text_one l : as_text [l] = l ++ newline.
Proof. unfold as_text. simpl. by rewrite app_nil_r. Qed.

Lemma received_nil k : received k k [].
Proof. destruct k; simpl; by rewrite app_nil_r. Qed.

Lemma received_app k0 k k' l l' : received k0 k l -> received k k' l' -> received k0 k' (l ++ l').
Proof.
  destruct k0, k, k'; simpl; try done; intros H H'; rewrite H', H, <- app_assoc, ?as_text_app; done.
Qed.

Lemma put_all t f n f' : stream_put t f = (n, f') -> n = length t -> contents f' = contents f ++ t.
Proof. intros H ->. apply (put_contents (contents := contents) (durable := durable)) in H as [_ ->]. by rewrite firstn_all. Qed.

Lemma udp_write_sent n line n' ok :
  udp_write n line = (n', ok) -> fits (UdpSink n) line -> sent n' = sent n ++ (if ok then [line] else []).
Proof.
  unfold udp_write, sent. destruct (send_datagram _ _ _ _ _) as [b w] eqn:E. intros [= <- <-] Hf. by apply (send_datagram_whole _ _ _ _ _ _ _ E Hf).
Qed.

Lemma write_receives k r line k' : fits k line -> sink_write k r line = (k', true) -> received k k' [line].
Proof.
  intros Hf. unfold sink_write, console_write, file_write. destruct k as [f|good f|n]; simpl.
  - destruct (stream_put line f) as [n1 f1] eqn:E1. destruct (Nat.eqb_spec n1 (length line)); [|done].
    destruct (stream_put newline f1) as [n2 f2] eqn:E2. intros [= <- ->%Nat.eqb_eq]. simpl. rewrite as_text_one.
    by rewrite (put_all _ _ _ _ E2), (put_all _ _ _ _ E1), <- app_assoc.
  - unfold os_write. destruct good; [|done]. simpl. destruct (stream_put line f) as [n1 f1] eqn:E1.
    destruct (Nat.eqb_spec n1 (length line)); [|done]. simpl. destruct (stream_put newline f1) as [n2 f2] eqn:E2.
    intros [= <- ->%Nat.eqb_eq]. simpl. rewrite as_text_one. by rewrite (put_all _ _ _ _ E2), (put_all _ _ _ _ E1), <- app_assoc.
  - destruct (udp_write n line) as [n' ok] eqn:E. intros [= <- ->]. by apply (udp_write_sent n line n' true).
Qed.

Lemma flush_receives k k' : sink_flush k = (k', true) -> received k k' [].
Proof.
  destruct k as [f|good f|n]; simpl.
  - destruct (stream_sync f) as [ok f'] eqn:E. intros [= <- ->]. simpl. rewrite app_nil_r. by apply (sync_contents (contents := contents) (durable := durable) _ _ _ E).
  - unfold os_flush. destruct good; [|done]. simpl. destruct (stream_sync f) as [ok f'] eqn:E. intros [= <- ->].
    simpl. rewrite app_nil_r. by apply (sync_contents (contents := contents) (durable := durable) _ _ _ E).
  - intros [= <-]. simpl. by rewrite app_nil_r.
Qed.

(** A successful flush delivers what was received; nothing delivered is taken back. *)
Lemma flush_delivers k0 k k' lines : received k0 k lines -> sink_flush k = (k', true) -> delivered k0 k' lines.
Proof.
  destruct k0 as [f0|g0 f0|n0], k as [f|good f|n]; simpl; try done; intros H.
  - destruct (stream_sync f) as [ok f'] eqn:E. intros [= <- ->]. simpl. rewrite (sync_durable (contents := contents) (durable := durable) _ _ E). by rewrite H.
  - unfold os_flush. destruct good; [|done]. simpl. destruct (stream_sync f) as [ok f'] eqn:E. intros [= <- ->].
    simpl. rewrite (sync_durable (contents := contents) (durable := durable) _ _ E). by rewrite H.
  - intros [= <-]. simpl. by rewrite H.
Qed.

Lemma os_write_prefix t good f good' f' : os_write t (good, f) = (good', f') -> durable f `prefix_of` durable f'.
Proof.
  unfold os_write. simpl. destruct good; [|by intros [= _ <-]]. destruct (stream_put t f) as [n f1] eqn:E. intros [= _ <-]. by apply (put_durable (contents := contents) (durable := durable)) in E.
Qed.

(** A call leaves a sink of the same kind. *)
Lemma act_fits k m op k' m' line : act (k, m) op = (k', m') -> fits k line -> fits k' line.
Proof.
  unfold sink_act, sink_call, sink_write, sink_flush. simpl. intros E. destruct op as [r|], k as [f|good f|n]; repeat case_match; by simplify_eq.
Qed.

Lemma act_delivered k0 k m op k' m' lines :
  (forall r, op = Some r -> fits k (render_line gmtime_r r)) -> delivered k0 k lines -> act (k, m) op = (k', m') -> delivered k0 k' lines.
Proof.
  intros Hfits H. unfold sink_act, sink_call, sink_write, console_write, file_write. simpl. assert (forall x y z : text, x `prefix_of` y -> y `prefix_of` z -> x `prefix_of` z) as Ht by (intros ???; apply transitivity).
  destruct op as [r|]; destruct k0 as [f0|g0 f0|n0], k as [f|good f|n]; simpl in *; try done.
  - destruct (stream_put _ f) as [n1 f1] eqn:E1. apply (put_durable (contents := contents) (durable := durable)) in E1. destruct (_ =? _); [|by intros [= <- _]; eapply Ht].
    destruct (stream_put newline f1) as [n2 f2] eqn:E2. apply (put_durable (contents := contents) (durable := durable)) in E2. intros [= <- _]. simpl. eauto.
  - destruct (os_write _ (good, f)) as [g1 f1] eqn:E1, (os_write newline (g1, f1)) as [g2 f2] eqn:E2.
    apply os_write_prefix in E1, E2. intros [= <- _]. simpl. eauto.
  - destruct (udp_write n _) as [n' ok] eqn:E. apply udp_write_sent in E; [|exact (Hfits r eq_refl)]. intros [= <- _]. simpl. rewrite E. by apply prefix_app_r.
  - destruct (stream_sync f) as [ok f'] eqn:E. apply (sync_prefix (contents := contents) (durable := durable)) in E. intros [= <- _]. simpl. eauto.
  - unfold os_flush. simpl. destruct good; [|by intros [= <- _]]. destruct (stream_sync f) as [ok f'] eqn:E. apply (sync_prefix (contents := contents) (durable := durable)) in E.
    intros [= <- _]. simpl. eauto.
  - by intros [= <- _].
Qed.

(** *** A run without failures *)

Abbreviation line_of := (render_line gmtime_r).
Definition records (ops : list (option LogRecord)) : list LogRecord := omap id ops.

Lemma act_ok k m op k' : act (k, m) op = (k', m) -> sink_call sink_write sink_flush line_of op k = (k', true).
Proof. unfold sink_act. simpl. destruct (sink_call _ _ _ op k) as [k1 ok]. destruct ok; intros H; simplify_eq; [done|lia]. Qed.

Lemma acts_mono ops k m : m <= (foldl act (k, m) ops).2.
Proof.
  revert k m. induction ops as [|op ops IH]; intros k m; [done|]. simpl. destruct (act (k, m) op) as [k1 m1] eqn:E.
  specialize (IH k1 m1). unfold sink_act in E. simpl in E. destruct (sink_call _ _ _ op k) as [k2 []]; injection E as -> <-; lia.
Qed.

(** Every line the calls write fits the sink. *)
Definition lines_fit (k : sink) (ops : list (option LogRecord)) : Prop := Forall (fun r => fits k (line_of r)) (records ops).

Lemma lines_fit_cons k m op ops k' m' :
  lines_fit k (op :: ops) -> act (k, m) op = (k', m') -> (forall r, op = Some r -> fits k (line_of r)) /\ lines_fit k' ops.
Proof.
  unfold lines_fit, records. intros H E. assert (lines_fit k ops /\ forall r, op = Some r -> fits k (line_of r)) as [Hl Ho].
  { destruct op as [r|]; [apply Forall_cons in H as [H1 H2]; split; [done|]; by intros r' [= <-]|by split]. }
  split; [done|]. eapply Forall_impl; [exact Hl|]. intros r. by apply (act_fits _ _ _ _ _ _ E).
Qed.

Lemma acts_received ops k m k' : lines_fit k ops -> foldl act (k, m) ops = (k', m) -> received k k' (map line_of (records ops)).
Proof.
  revert k. induction ops as [|op ops IH]; intros k Hl H; simpl in H; [injection H as <-; apply received_nil|].
  destruct (act (k, m) op) as [k1 m1] eqn:E. pose proof (acts_mono ops k1 m1) as Hm. rewrite H in Hm. simpl in Hm.
  assert (m1 = m) as -> by (unfold sink_act in E; simpl in E; destruct (sink_call _ _ _ op k) as [k2 []]; injection E as _ <-; lia).
  destruct (lines_fit_cons _ _ _ _ _ _ Hl E) as [Ho Hl1]. apply act_ok in E. destruct op as [r|]; simpl in E.
  - apply (received_app k k1 k' [line_of r]); [eapply write_receives; [by apply Ho|done]|by apply IH].
  - apply (received_app k k1 k' []); [by eapply flush_receives|by apply IH].
Qed.

Lemma acts_fit ops k m line : fits k line -> fits (foldl act (k, m) ops).1 line.
Proof.
  revert k m. induction ops as [|op ops IH]; intros k m H; [done|]. simpl. destruct (act (k, m) op) as [k1 m1] eqn:E. apply IH. by eapply act_fits.
Qed.

Lemma acts_delivered ops k0 k m lines : lines_fit k ops -> delivered k0 k lines -> delivered k0 (foldl act (k, m) ops).1 lines.
Proof.
  revert k m. induction ops as [|op ops IH]; intros k m Hl H; [done|]. simpl. destruct (act (k, m) op) as [k1 m1] eqn:E.
  destruct (lines_fit_cons _ _ _ _ _ _ Hl E) as [Ho Hl1]. apply IH; [done|]. by eapply act_delivered.
Qed.

(** Whatever precedes a flush is delivered by it, if nothing failed up to then. *)
Lemma flushed_delivered ops ops' k :
  lines_fit k (ops ++ None :: ops') -> (foldl act (k, 0) (ops ++ [None])).2 = 0 -> delivered k (foldl act (k, 0) (ops ++ None :: ops')).1 (map line_of (records ops)).
Proof.
  unfold lines_fit, records. rewrite foldl_app, omap_app. intros [Hl Hl']%Forall_app H. simpl in Hl'.
  change (None :: ops') with ([None] ++ ops'). rewrite app_assoc, foldl_app, foldl_app.
  destruct (foldl act (k, 0) ops) as [k1 m1] eqn:E. pose proof (acts_mono [None] k1 m1) as Hm. rewrite H in Hm.
  assert (m1 = 0) as -> by lia. destruct (foldl act (k1, 0) [None]) as [k2 m2] eqn:E2. simpl in H. subst m2.
  apply acts_delivered.
  - eapply Forall_impl; [exact Hl'|]. intros r Hr. pose proof (acts_fit [None] k1 0 (line_of r)) as Hk. rewrite E2 in Hk. apply Hk.
    pose proof (acts_fit ops k 0 (line_of r) Hr) as Hk1. by rewrite E in Hk1.
  - simpl in E2. apply act_ok in E2. simpl in E2. eapply flush_delivers; [|done]. by eapply acts_received.
Qed.

(** ** The logger with its built-in sinks *)

Context (capacity_ : nat) (policy_ : OverflowPolicy) (sinks : list sink).

Abbreviation state := (mstate (logger (Sk := sink)) cond waiting answer life).
Abbreviation event := (event answer call).

#[local] Instance builtin_logger : Monitor (logger (Sk := sink)) cond waiting answer call life :=
  logger_monitor sink_write sink_flush line_of capacity_ policy_ sinks.

Definition failures (k : sink) (es : list event) : nat := (sink_alone sink_write sink_flush line_of k (sink_ops es)).2.

Lemma records_written (es : list event) : records (sink_ops es) = written es.
Proof.
  induction es as [|e es IH]; [done|]. change (e :: es) with ([e] ++ es). rewrite sink_ops_app. unfold written. rewrite omap_app.
  unfold records in *. rewrite omap_app, IH. f_equal. unfold sink_ops. simpl. by destruct (event_result e) as [[]|].
Qed.

(** The event at which the pump flushed the sinks for a marker. *)
Lemma handled_split (es : list event) l n :
  l ++ [FlushMarker n] `prefix_of` handled es ->
  exists es1 e es2, es = es1 ++ e :: es2 /\ handled es1 = l /\ event_result e = Some (FlushedSinks (Some n)).
Proof.
  revert l. induction es as [|e es IH]; intros l H.
  - apply prefix_nil_inv in H. by destruct l.
  - change (e :: es) with ([e] ++ es) in H. rewrite handled_app in H.
    assert (handled [e] = [] \/ exists i, handled [e] = [i] /\ (forall m, i = FlushMarker m -> event_result e = Some (FlushedSinks (Some m)))) as He.
    { unfold handled. simpl. destruct (event_result e) as [[| | | | | | | | | | |r|[m|]|]|]; auto; right; eexists; split; try done. by intros ? [= ->]. }
    destruct He as [E|(i & E & Hi)]; rewrite E in H.
    + destruct (IH l H) as (es1 & e' & es2 & -> & Hh & Hr). exists (e :: es1), e', es2. split_and!; try done.
      change (e :: es1) with ([e] ++ es1). by rewrite handled_app, E, Hh.
    + destruct H as [z H]. destruct l as [|j l]; injection H as -> H.
      * exists [], e, es. split_and!; try done. by apply Hi.
      * destruct (IH l) as (es1 & e' & es2 & -> & Hh & Hr); [by exists z|]. exists (e :: es1), e', es2. split_and!; try done.
        change (e :: es1) with ([e] ++ es1). by rewrite handled_app, E, Hh.
Qed.

(** C33. After a [flush] that was given a ticket has returned (one that finds the logger stopping gets none, and may return early), the log is where
    it should be: every built-in sink none of whose calls failed, and whose lines fit it (on Windows a UDP line has
    less than 2^31 bytes), has been given exactly the rendered lines of the records written, in order and on top of what was there before, and the
    lines of every record accepted before the flush have left the process -- through the queue, the
    pump, the stream's buffer and the flush. *)
Theorem flushed_log_is_delivered (s0 s : state) es t n es' e i k :
  initial s0 -> exec s0 ((es ++ Called t (flush false) (Some (Ticket n)) :: es') ++ [e]) s -> event_result e = Some (FlushDone n) ->
  (Z.of_nat (length (tickets (stream (es ++ Called t (flush false) (Some (Ticket n)) :: es')))) < 2 ^ 64)%Z ->
  sinks !! i = Some k -> failures k ((es ++ Called t (flush false) (Some (Ticket n)) :: es') ++ [e]) = 0 ->
  Forall (fun r => fits k (line_of r)) (written ((es ++ Called t (flush false) (Some (Ticket n)) :: es') ++ [e])) ->
  exists k', sinks_ (data s) !! i = Some k' /\
    received k k' (map line_of (written ((es ++ Called t (flush false) (Some (Ticket n)) :: es') ++ [e]))) /\
    delivered k k' (map line_of (accepted es)).
Proof.
  intros Hi Hx He Hb Hk Hf Hl. pose proof (flush_barrier _ _ _ _ _ _ _ _ _ _ _ _ _ Hi Hx He Hb) as Hp.
  destruct (sinks_are_independent _ _ _ _ _ _ _ _ _ Hi Hx) as [Hs _].
  set (all := (es ++ _) ++ [e]) in *. exists (sink_alone sink_write sink_flush line_of k (sink_ops all)).1.
  split; [by rewrite Hs, list_lookup_fmap, Hk|]. rewrite <- records_written in Hl. fold (lines_fit k (sink_ops all)) in Hl. unfold failures, sink_alone in *. split.
  - destruct (foldl _ _ _) as [k' m] eqn:E. simpl in *. subst m. rewrite <- records_written. by eapply acts_received.
  - apply handled_split in Hp as (es1 & ef & es2 & Ea & Hh & Hr).
    assert (sink_ops all = sink_ops es1 ++ None :: sink_ops (es2 ++ [e])) as Eo.
    { unfold all. rewrite Ea, <- app_assoc, sink_ops_app. f_equal. change ((ef :: es2) ++ [e]) with ([ef] ++ es2 ++ [e]). rewrite sink_ops_app.
      unfold sink_ops at 1. simpl. by rewrite Hr. }
    rewrite <- entries_stream, <- Hh, entries_handled, <- records_written, Eo.
    rewrite Eo in Hl. apply (flushed_delivered _ _ _ Hl). rewrite Eo in Hf. change (None :: ?l) with ([None] ++ l) in Hf. rewrite app_assoc, foldl_app in Hf.
    destruct (foldl _ _ (sink_ops es1 ++ [None])) as [k1 m1]. pose proof (acts_mono (sink_ops (es2 ++ [e])) k1 m1). simpl in *. lia.
Qed.

End received.

(** ** A session: a file with a line in it already, and a datagram socket *)

(** A stream in memory: what is durable, what is buffered, and the room that is left. *)
Record memory := Memory { kept : text; buffered : text; room : nat }.

#[local] Instance memory_stream : StreamOs memory := {
  open_stream _ _ := Some (Memory [] [] 100);
  stream_put t f :=
    let n := Nat.min (length t) (room f) in (n, Memory (kept f) (buffered f ++ take n t) (room f - n));
  stream_sync f := (true, Memory (kept f ++ buffered f) [] (room f))
}.

#[local] Instance memory_laws : StreamLaws memory (fun f => kept f ++ buffered f) kept.
Proof.
  split.
  - intros t f n f' [= <- <-]. simpl. split; [lia|by rewrite app_assoc].
  - intros t f n f' [= <- <-]. done.
  - intros f b f' [= <- <-]. simpl. by rewrite app_nil_r.
  - intros f b f' [= <- <-]. by apply prefix_app_r.
  - by intros f f' [= <-].
Qed.

#[local] Instance one_route : DatagramOs (list text) Z := {
  resolve_numeric _ _ := inr 65507%Z;
  ai_addrlen _ := 16;
  datagram_socket _ := Some (3%Z, [])
}.

Example udp_sink_sample : udp_sink (F := memory) ($"127.0.0.1") 514 = Ret (UdpSink (UdpSocket 3 65507%Z [])).
Proof. reflexivity. Qed.

Definition old_file : builtin memory (list text) Z := FileSink true (Memory ($"old") [] 1000).
Definition route : builtin memory (list text) Z := UdpSink (UdpSocket 3 65507%Z []).
Definition two_sinks : list (builtin memory (list text) Z) := [old_file; route].

(** On Windows. *)
#[local] Instance session_logger : Monitor (logger (Sk := builtin memory (list text) Z)) cond waiting answer call life :=
  builtin_logger true civil 1 block two_sinks.

Definition session_start : mstate (logger (Sk := builtin memory (list text) Z)) cond waiting answer life :=
  MState (MkLogger two_sinks trace 0 0 [] 0 0 false) [Thread Idle taking; Thread Idle client; Thread Idle client].

Lemma session_start_initial : initial session_start.
Proof. split; [done|by exists 2]. Qed.

Lemma flushed_log_is_delivered_witness :
  exists es s, run_moves session_start one_flush = Some (s, es) /\
  forall i k, two_sinks !! i = Some k -> exists k', sinks_ (data s) !! i = Some k' /\
    received (fun f => kept f ++ buffered f) k k' [render_line civil hello] /\
    delivered (fun f => kept f ++ buffered f) kept k k' [render_line civil hello].
Proof.
  run_session. split; [by vm_compute|]. intros i k Hk.
  match type of Hx with exec _ ?es _ =>
    let t1 := eval vm_compute in (firstn 3 es) in let t2 := eval vm_compute in (skipn 4 (firstn 19 es)) in let e := eval vm_compute in (skipn 19 es) in
    match e with [?e] =>
      apply (flushed_log_is_delivered (fun f => kept f ++ buffered f) kept true civil 1 block two_sinks session_start _ t1 2 1 t2 e i k session_start_initial Hx)
    end
  end; [by vm_compute|by vm_compute|done|..].
  - destruct i as [|[|i]]; [injection Hk as <-; by vm_compute|injection Hk as <-; by vm_compute|done].
  - match goal with |- Forall _ ?l => replace l with [hello] by (vm_compute; reflexivity) end. constructor; [|constructor].
    destruct i as [|[|i]]; [injection Hk as <-; exact I|injection Hk as <-; intros _; vm_compute; reflexivity|done].
Defined.
