(* ===== verification/Stopwatch.v ===== *)
(** * Stopwatch (stopwatch.hpp): accumulated time over a steady clock

    Times are nanoseconds as [steady_clock] reports them; the reading an operation takes is its argument.
    [duration] is a 64-bit signed count: a sum or difference out of its range is [None] (signed
    overflow is undefined). *)

From S2P Require Import Prelude.
Open Scope Z_scope.

Record stopwatch := Stopwatch { started_at_ : Z; accumulated_ : Z; running_ : bool }.

Definition stopped : stopwatch := Stopwatch 0 0 false.

Definition count64 (z : Z) : option Z := if (- 2 ^ 63 <=? z) && (z <? 2 ^ 63) then Some z else None.

Definition start (s : stopwatch) (now : Z) : outcome stopwatch :=
  if running_ s then Throw logic_error else Ret (Stopwatch now (accumulated_ s) true).

Definition start_new (now : Z) : outcome stopwatch := start stopped now.

Definition stop (s : stopwatch) (now : Z) : option (outcome stopwatch) :=
  if negb (running_ s) then Some (Throw logic_error)
  else d ← count64 (now - started_at_ s); a ← count64 (accumulated_ s + d); Some (Ret (Stopwatch (started_at_ s) a false)).

Definition reset (s : stopwatch) : stopwatch := Stopwatch (started_at_ s) 0 false.

Definition restart (s : stopwatch) (now : Z) : outcome stopwatch := start (reset s) now.

Definition elapsed (s : stopwatch) (now : Z) : option Z :=
  if running_ s then d ← count64 (now - started_at_ s); count64 (accumulated_ s + d) else Some (accumulated_ s).

(** [duration_cast] truncates. *)
Definition elapsed_microseconds (s : stopwatch) (now : Z) : option Z := e ← elapsed s now; Some (Z.quot e 1000).
Definition elapsed_milliseconds (s : stopwatch) (now : Z) : option Z := e ← elapsed s now; Some (Z.quot e 1000000).

(** ** Sessions: operations, each with the clock reading it takes *)

Inductive command : Set := Start | Stop | Reset | Restart.

(** A throwing operation leaves the stopwatch as it was. *)
Definition settled (s : stopwatch) (r : outcome stopwatch) : stopwatch := match r with Ret s => s | Throw _ => s end.

Definition run_command (s : stopwatch) (now : Z) (c : command) : option stopwatch :=
  match c with
  | Start => Some (settled s (start s now))
  | Stop => r ← stop s now; Some (settled s r)
  | Reset => Some (reset s)
  | Restart => Some (settled s (restart s now))
  end.

Fixpoint run (s : stopwatch) (cs : list (Z * command)) : option stopwatch :=
  match cs with
  | [] => Some s
  | (now, c) :: cs => s ← run_command s now c; run s cs
  end.

(** ** The time measured, from the history alone *)

Definition is_reset (c : command) : bool := match c with Reset | Restart => true | _ => false end.
Definition on_after (on : bool) (c : command) : bool := match c with Start | Restart => true | Stop | Reset => false end.

(** The time spent running from [last] on; what lies before a reset does not count. *)
Fixpoint measured (on : bool) (last : Z) (cs : list (Z * command)) (now : Z) : Z :=
  match cs with
  | [] => if on then now - last else 0
  | (t, c) :: cs' =>
      (if existsb (fun p => is_reset p.2) cs then 0 else if on then t - last else 0) + measured (on_after on c) t cs' now
  end.

(** The clock is steady: readings never go back. *)
Fixpoint steady (last : Z) (cs : list (Z * command)) (now : Z) : Prop :=
  match cs with
  | [] => last <= now
  | (t, _) :: cs => last <= t /\ steady t cs now
  end.

Lemma steady_le last cs now : steady last cs now -> last <= now.
Proof. revert last. induction cs as [|[t c] cs IH]; intros last; simpl; [done|]. intros [? ?%IH]. lia. Qed.

Lemma count64_some z : - 2 ^ 63 <= z < 2 ^ 63 -> count64 z = Some z.
Proof. intros. unfold count64. destruct (Z.leb_spec (- 2 ^ 63) z), (Z.ltb_spec z (2 ^ 63)); simpl; [done|lia..]. Qed.

(** The total at a time, and that it is no more than the time that has passed. *)
Definition total (s : stopwatch) (now : Z) : Z := accumulated_ s + if running_ s then now - started_at_ s else 0.
Definition sane (s : stopwatch) (now : Z) : Prop :=
  0 <= accumulated_ s /\ total s now <= now /\ (running_ s = true -> 0 <= started_at_ s <= now).

Lemma total_defined s now : sane s now -> 0 <= now < 2 ^ 63 -> elapsed s now = Some (total s now) /\ 0 <= total s now < 2 ^ 63.
Proof.
  unfold sane, total, elapsed. intros (Ha & Ht & Hr) Hn. destruct (running_ s); [|split; [f_equal|]; lia]. specialize (Hr eq_refl).
  rewrite count64_some by lia. simpl. rewrite count64_some by lia. split; [done|lia].
Qed.

Lemma sane_later s t t' : sane s t -> t <= t' -> sane s t'.
Proof. unfold sane, total. intros (Ha & Ht & Hr) ?. destruct (running_ s); split_and!; try lia; intros; specialize (Hr eq_refl); lia. Qed.

Lemma command_total s t c :
  sane s t -> 0 <= t < 2 ^ 63 ->
  exists s', run_command s t c = Some s' /\ sane s' t /\ running_ s' = on_after (running_ s) c /\
    total s' t = if is_reset c then 0 else total s t.
Proof.
  intros Hs Ht. destruct (total_defined s t Hs Ht) as [He Hb]. unfold sane, total, elapsed in *. destruct c; simpl.
  - unfold start. destruct (running_ s) eqn:Er; simpl; eexists; (split; [done|]); simpl; rewrite ?Er; split_and!; try done; try tauto; lia.
  - unfold stop. destruct (running_ s) eqn:Er; simpl.
    + destruct (count64 _) as [d|]; simpl in *; [|done]. destruct Hs as (? & ? & Hr). specialize (Hr eq_refl). rewrite He. simpl. eexists. split; [done|]. simpl. split_and!; try done; lia.
    + eexists. split; [done|]. simpl. rewrite Er. split_and!; try done; tauto.
  - eexists. split; [done|]. simpl. split_and!; try done; lia.
  - eexists. split; [done|]. simpl. split_and!; try done; lia.
Qed.

Lemma run_measures cs s last now :
  sane s last -> 0 <= last -> steady last cs now -> now < 2 ^ 63 ->
  exists s', run s cs = Some s' /\ sane s' now /\
    total s' now = (if existsb (fun p => is_reset p.2) cs then 0 else total s last) + measured (running_ s) last cs now.
Proof.
  revert s last. induction cs as [|[t c] cs IH]; intros s last Hs Hl Hc Hn; simpl in *.
  - exists s. split; [done|]. split; [by eapply sane_later|]. unfold total. destruct (running_ s); lia.
  - destruct Hc as [Ht Hc]. pose proof (steady_le _ _ _ Hc).
    destruct (command_total s t c) as (s1 & -> & Hs1 & Er & Et); [by eapply sane_later|lia|]. simpl.
    destruct (IH s1 t Hs1 ltac:(lia) Hc Hn) as (s' & Hrun & Hs' & E). exists s'. split; [done|]. split; [done|].
    rewrite E, Er, Et. unfold total. destruct (existsb _ cs); rewrite ?orb_true_r, ?orb_false_r; [lia|].
    destruct (is_reset c), (running_ s); lia.
Qed.

(** For any program of starts, stops, resets and restarts, misused ones (which throw and change nothing) included: no addition
    overflows, and the stopwatch reports exactly the time it has spent running since the last reset. *)
Theorem stopwatch_measures cs now :
  steady 0 cs now -> now < 2 ^ 63 -> exists s, run stopped cs = Some s /\ elapsed s now = Some (measured false 0 cs now).
Proof.
  intros Hc Hn. destruct (run_measures cs stopped 0 now) as (s & Hr & Hs & E); [unfold sane, total; simpl; lia|done|done|done|].
  exists s. split; [done|]. pose proof (steady_le _ _ _ Hc). destruct (total_defined s now Hs) as [-> _]; [lia|]. rewrite E.
  f_equal. destruct (existsb _ cs); unfold total; simpl; lia.
Qed.

Lemma stopwatch_measures_witness :
  exists s, run stopped [(5, Stop); (10, Start); (20, Start); (30, Stop); (40, Restart); (47, Stop); (50, Start)] = Some s /\ elapsed s 53 = Some 10.
Proof. apply (stopwatch_measures [(5, Stop); (10, Start); (20, Start); (30, Stop); (40, Restart); (47, Stop); (50, Start)] 53); simpl; lia. Defined.
