(* ===== verification/LogFront.v ===== *)
(** * The logging call (logger.hpp: Logger::log and its helpers; string_formatter.hpp: BasicFormatString)

    What happens on the caller's side, before the queue: the format string is checked while the program is built, the level is filtered
    before any work is done, the thread id comes from the thread's cache, and the message is formatted.  [Logger] takes over with the
    finished record. *)

From S2P Require Import Prelude Charconv StringBuilder StringFormatter UdpLifetime Monitor Logger.
Local Open Scope Z_scope.

(** ** Format strings that a build accepts *)

(** [BasicFormatString<Args...>] for [n] arguments: a text the validator accepts. *)
Record format_string (n : nat) := FormatString { text_ : text; checked : check_format_string text_ n = none }.
Arguments FormatString {n} text_ checked.
Arguments text_ {n} f.

(** A double quote. *)
Definition dq : text := ["034"%char].

(** The consteval constructor: [inl] carries the diagnostic of a build that fails. *)
Definition invalid_reason (e : FormatStringError) : option text :=
  match e with
  | none => None
  | unterminated_open_brace => Some ($"unterminated '{': only " ++ dq ++ $"{}" ++ dq ++ $" placeholders and " ++ dq ++ $"{{" ++ dq ++ $" escapes exist")
  | stray_close_brace => Some ($"stray '}': write " ++ dq ++ $"}}" ++ dq ++ $" for a literal '}'")
  | argument_count_mismatch => Some ($"number of {} placeholders differs from the number of arguments")
  end.

#[export] Instance FormatStringError_eq_dec : EqDecision FormatStringError.
Proof. solve_decision. Defined.

Definition basic_format_string (t : text) (n : nat) : option text + format_string n :=
  match decide (check_format_string t n = none) with
  | left H => inr (FormatString t H)
  | right _ => inl (invalid_reason (check_format_string t n))
  end.

(** A build that fails names its reason. *)
Lemma basic_format_string_cases t n :
  match basic_format_string t n with
  | inr f => text_ f = t
  | inl reason => check_format_string t n <> none /\ is_Some reason
  end.
Proof.
  unfold basic_format_string. destruct (decide _) as [H|H]; [done|]. split; [done|]. destruct (check_format_string t n); [done|by eexists..].
Qed.

(** ** The call *)

Section log.
Context {F Sk : Type} (float_chars : F -> text) (capacity : nat) (policy : OverflowPolicy).
(** The system's answer for a thread: [compute_thread_id]. *)
Context (compute_thread_id : Z -> Z).
Abbreviation logger := (logger (Sk := Sk)).

(** [Logger::log]: the first section it runs on the logger, and the caller's thread-id cache; [None] is a read out of bounds. *)
Definition log_call (l : LogLevel) (from_sink : bool) (threshold : LogLevel) (now thread : Z) (cache : gmap Z Z)
    (args : list (argument (F := F))) (fmt : format_string (length args)) (d : logger) :
    option (verdict logger cond waiting answer) * gmap Z Z :=
  if decide (l = off) then (Some (Finish d [] (Rejected invalid_argument)), cache)
  else if level_rank l <? level_rank threshold then (Some (Finish d [] Filtered), cache)
  else
    let '(id, cache) := current_thread_id compute_thread_id cache thread in
    match format float_chars (text_ fmt) args with
    | Some message => (Some (enqueue capacity policy from_sink (MkRecord now l id message) d), cache)
    | None => (None, cache)
    end.

(** The helpers named after the levels. *)
Definition log_trace := log_call trace.
Definition log_debug := log_call debug.
Definition log_info := log_call info.
Definition log_warning := log_call warning.
Definition log_error := log_call error.
Definition log_critical := log_call critical.

(** Whether the call does any work at all. *)
Definition admitted (l threshold : LogLevel) : bool := negb (bool_decide (l = off)) && negb (level_rank l <? level_rank threshold).

Lemma log_section_level from_sink threshold r (d : logger) :
  level r <> off ->
  log_section capacity policy from_sink threshold r d =
    if level_rank (level r) <? level_rank threshold then Finish d [] Filtered else enqueue capacity policy from_sink r d.
Proof. unfold log_section. by destruct (level r). Qed.

(** A logging call is the logger's [log] on the record it describes: never a read out of bounds; the thread's own id, the same for
    every later call of the thread; the message with its holes filled in order.  A call at [off], or below the
    level, formats nothing and asks the system for nothing. *)
Theorem log_call_logs l from_sink threshold now thread cache args fmt d :
  let '(section, cache') := log_call l from_sink threshold now thread cache args fmt d in
  (admitted l threshold = false -> cache' = cache) /\
  exists r, section = Some (log_section capacity policy from_sink threshold r d) /\ level r = l /\
    (admitted l threshold = true -> time r = now /\ cache' !! thread = Some (thread_id r) /\
      (forall id, cache !! thread = Some id -> cache' = cache) /\
      exists ps, parses (text_ fmt) ps /\ message r = render float_chars [] ps args).
Proof.
  unfold log_call, admitted. destruct fmt as [t H]. cbn [text_]. destruct (format_validated float_chars t args H) as (ps & Hp & Hh & E).
  destruct (decide (l = off)) as [->|Hl]; [split; [done|]; by exists (MkRecord now off 0 [])|].
  rewrite (bool_decide_eq_false_2 (l = off)) by done. destruct (level_rank l <? level_rank threshold) eqn:Et.
  - split; [done|]. exists (MkRecord now l 0 []). split_and!; try done. rewrite log_section_level by done. cbn [level]. by rewrite Et.
  - unfold current_thread_id. rewrite E. destruct (cache !! thread) as [id|] eqn:Ec;
      (split; [done|]; eexists (MkRecord now l _ _); split; [rewrite log_section_level by done; cbn [level]; by rewrite Et|]; split_and!; try done; intros _; split_and!; try done).
    + by exists ps.
    + apply lookup_insert_eq.
    + by exists ps.
Qed.
End log.

Definition greeting : format_string 2 := FormatString (n := 2) ($"{} says {}") eq_refl.

Definition empty_logger : logger (Sk := unit) := MkLogger [tt] trace 0 0 [] 0 0 false.

Example greeting_logged :
  (log_info (F := unit) (fun _ => []) 8 block (fun t => t + 100) false trace 5 7 ∅ [AText ($"a"); AInt 3] greeting empty_logger).1 =
    Some (Finish (MkLogger [tt] trace 0 0 [Entry (MkRecord 5 info 107 ($"a says 3"))] 0 0 false) [NotifyOne records_available]
      (Accepted (MkRecord 5 info 107 ($"a says 3")))).
Proof. reflexivity. Qed.
