(* ===== verification/StackTrace.v ===== *)
(** * StackTrace (stack_trace.hpp, stack_trace.cpp): capture and symbolization

    An address is a 64-bit number.  The two host functions, [capture_addresses] and [describe_address], are the interface
    [TraceHost]; the POSIX ones use [backtrace], [dladdr] and [__cxa_demangle], the Windows ones [CaptureStackBackTrace] and
    [SymFromAddr], all parameters.  [stack] is what there is to walk, the frame of [capture_addresses] first. *)

From S2P Require Import Prelude Charconv Posix StringBuilder.
Open Scope nat_scope.

Class TraceHost := {
  capture_addresses : nat -> nat -> list Z;
  describe_address : Z -> text
}.

Record stack_trace := StackTrace { addresses_ : list Z }.
Record Frame := MkFrame { address : Z; description : text }.

Definition default_max_frames : nat := 64.
Definition hard_limit : nat := 1024.

Definition size (t : stack_trace) : nat := length (addresses_ t).
Definition empty (t : stack_trace) : bool := bool_decide (addresses_ t = []).

(** ** What both hosts share *)

Definition append_address (out : builder) (a : Z) : builder :=
  let out := append_text out ($"0x") in
  match to_chars 18 16 a with Some t => append_text out t | None => out end.

Definition address_only (a : Z) : text := (str_move (append_address empty_builder a)).1.

Section trace.
Context {host : TraceHost}.

Definition capture (skip max_frames : nat) : stack_trace :=
  if max_frames =? 0 then StackTrace []
  else StackTrace (capture_addresses (Nat.min skip hard_limit) (Nat.min max_frames hard_limit)).

Definition symbolize (t : stack_trace) : list Frame := map (fun a => MkFrame a (describe_address a)) (addresses_ t).

Fixpoint to_string_loop (out : builder) (index : nat) (fs : list Frame) : builder :=
  match fs with
  | [] => out
  | f :: fs =>
      let out := append_char (append_text (append_char (append_int (append_char out "#") (Z.of_nat index)) " ") (description f)) "010" in
      to_string_loop out (S index) fs
  end.

Definition to_string (t : stack_trace) : text := (str_move (to_string_loop empty_builder 0 (symbolize t))).1.

End trace.

(** ** POSIX *)

Module PosixTrace.
Section posix.
Context (backtrace : nat -> list Z) (dladdr : Z -> option (option text)) (demangle : text -> option text).

Definition capture_addresses (skip max_frames : nat) : list Z :=
  let wanted := max_frames + skip + 1 in
  let raw := backtrace wanted in
  let collected := length raw in
  let drop_ := Nat.min collected (skip + 1) in
  let keep := Nat.min (collected - drop_) max_frames in
  take keep (drop drop_ raw).

Definition describe_address (a : Z) : text :=
  match dladdr a with
  | Some (Some sname) =>
      let name := match demangle sname with Some d => d | None => sname end in
      (str_move (append_text (append_char (append_address empty_builder a) " ") name)).1
  | _ => address_only a
  end.

Definition host : TraceHost := {| StackTrace.capture_addresses := capture_addresses; StackTrace.describe_address := describe_address |}.

(** What follows the address: the best name there is. *)
Definition name_of (a : Z) : text :=
  match dladdr a with
  | Some (Some sname) => " "%char :: match demangle sname with Some d => d | None => sname end
  | _ => []
  end.

End posix.
End PosixTrace.

(** ** Windows

    [initialized] is what the one call of [SymInitialize] returned; [SymFromAddr n a] is the name of the symbol, cut at [n] characters,
    and the displacement of [a] from it. *)

Module WindowsTrace.
Section windows.
Context (CaptureStackBackTrace : nat -> nat -> list Z) (initialized : bool) (SymFromAddr : nat -> Z -> option (text * Z)).

Definition symbols_initialized : bool := initialized.
Definition max_name_length : nat := 256.

Definition capture_addresses (skip max_frames : nat) : list Z := CaptureStackBackTrace (skip + 1) max_frames.

Definition describe_address (a : Z) : text :=
  if symbols_initialized then
    match SymFromAddr (max_name_length - 1) a with
    | None => address_only a
    | Some (name, displacement) =>
        (str_move (append_int (append_text (append_text (append_char (append_address empty_builder a) " ") (c_str name)) ($" + ")) displacement)).1
    end
  else address_only a.

Definition host : TraceHost := {| StackTrace.capture_addresses := capture_addresses; StackTrace.describe_address := describe_address |}.

Definition name_of (a : Z) : text :=
  if initialized then
    match SymFromAddr (max_name_length - 1) a with
    | Some (name, displacement) => " "%char :: c_str name ++ $" + " ++ digits 10 displacement
    | None => []
    end
  else [].

End windows.
End WindowsTrace.

(** ** What a host promises *)

Class TraceHostLaws `{TraceHost} (stack : list Z) (name_of : Z -> text) : Prop := {
  capture_addresses_spec skip max_frames : capture_addresses skip max_frames = take max_frames (drop (S skip) stack);
  describe_address_text a : (0 <= a < 2 ^ 64)%Z -> describe_address a = $"0x" ++ digits 16 a ++ name_of a
}.

Lemma append_address_text out a : (0 <= a < 2 ^ 64)%Z -> append_address out a = append_text out ($"0x" ++ digits 16 a).
Proof.
  intros Ha. destruct (hex_digits a Ha) as [_ Hl]. unfold append_address, to_chars. destruct (Z.ltb_spec a 0); [lia|].
  destruct (Nat.leb_spec (length (digits 16 a)) 18); [|lia]. unfold append_text. simpl. by rewrite <- app_assoc.
Qed.

Lemma address_only_text a : (0 <= a < 2 ^ 64)%Z -> address_only a = $"0x" ++ digits 16 a ++ [].
Proof. intros Ha. unfold address_only. rewrite append_address_text by done. simpl. by rewrite app_nil_r. Qed.

Lemma append_count out z : (0 <= z < 2 ^ 64)%Z -> append_int out z = append_text out (digits 10 z).
Proof.
  intros Hz. unfold append_int. destruct (to_chars_fits 24 z ltac:(lia) ltac:(lia)) as (t & -> & ->). by destruct (Z.ltb_spec z 0); [lia|].
Qed.

Lemma posix_trace_laws backtrace dladdr demangle stack :
  (forall n, backtrace n = take n stack) ->
  TraceHostLaws (H := PosixTrace.host backtrace dladdr demangle) stack (PosixTrace.name_of dladdr demangle).
Proof.
  intros Hb. split; simpl.
  - intros skip max_frames. unfold PosixTrace.capture_addresses. rewrite Hb, length_take. set (n := max_frames + skip + 1).
    destruct (decide (length stack <= S skip)).
    + rewrite !drop_ge by (rewrite ?length_take; lia). by rewrite !take_nil.
    + rewrite (Nat.min_r _ (skip + 1)) by lia. replace (skip + 1) with (S skip) by lia. rewrite skipn_firstn_comm, firstn_firstn.
      destruct (decide (length stack - S skip <= max_frames)); [|f_equal; lia]. rewrite !take_ge; [done|rewrite length_drop; lia..].
  - intros a Ha. unfold PosixTrace.describe_address, PosixTrace.name_of.
    destruct (dladdr a) as [[sname|]|]; [rewrite append_address_text by done; simpl; by rewrite <- app_assoc|by apply address_only_text..].
Qed.

Lemma windows_trace_laws CaptureStackBackTrace initialized SymFromAddr stack :
  (forall skip n, CaptureStackBackTrace skip n = take n (drop skip stack)) ->
  (forall n a name d, SymFromAddr n a = Some (name, d) -> 0 <= d < 2 ^ 64)%Z ->
  TraceHostLaws (H := WindowsTrace.host CaptureStackBackTrace initialized SymFromAddr) stack (WindowsTrace.name_of initialized SymFromAddr).
Proof.
  intros Hb Hs. split; simpl.
  - intros skip max_frames. unfold WindowsTrace.capture_addresses. rewrite Hb. do 2 f_equal. lia.
  - intros a Ha. unfold WindowsTrace.describe_address, WindowsTrace.name_of, WindowsTrace.symbols_initialized. destruct initialized; [|by apply address_only_text].
    destruct (SymFromAddr _ a) as [[name d]|] eqn:E; [|by apply address_only_text].
    rewrite append_count by (by eapply Hs). rewrite append_address_text by done. unfold append_text, append_char. simpl. by rewrite <- !app_assoc.
Qed.

(** ** What a trace holds and shows *)

Section walk.
Context {host : TraceHost} (stack : list Z) (name_of : Z -> text) {trace_laws : TraceHostLaws stack name_of}.

(** The trace is the stack from the caller-chosen frame on, the frame of [capture_addresses] left out, and
    cut at the limits. *)
Lemma capture_walks_the_stack skip max_frames :
  addresses_ (capture skip max_frames) = take (Nat.min max_frames hard_limit) (drop (S (Nat.min skip hard_limit)) stack).
Proof.
  unfold capture. destruct (Nat.eqb_spec max_frames 0) as [->|]; [done|]. apply capture_addresses_spec.
Qed.

(** Only that one frame is left out: unless the compiler inlines [capture_addresses], the frame of
    [capture] itself is the first of the trace. *)
Theorem capture_shows_itself in_capture_addresses in_capture callers :
  stack = in_capture_addresses :: in_capture :: callers -> head (addresses_ (capture 0 default_max_frames)) = Some in_capture.
Proof. intros E. by rewrite capture_walks_the_stack, E. Qed.

Definition frame_line (index : nat) (a : Z) : text :=
  $"#" ++ digits 10 (Z.of_nat index) ++ $" 0x" ++ digits 16 a ++ name_of a ++ ["010"%char].

Lemma to_string_loop_lines out index l :
  Forall (fun a => 0 <= a < 2 ^ 64)%Z l -> (Z.of_nat (index + length l) < 2 ^ 64)%Z ->
  buffer_ (to_string_loop out index (map (fun a => MkFrame a (describe_address a)) l)) =
    buffer_ out ++ concat (imap (fun i a => frame_line (index + i) a) l).
Proof.
  intros Hl. revert out index. induction Hl as [|a l Ha Hl IH]; intros out index Hi; simpl in *; [by rewrite app_nil_r|].
  rewrite IH by lia. rewrite append_count by lia. unfold append_char, append_text. simpl.
  rewrite describe_address_text by done. unfold frame_line at 2. rewrite Nat.add_0_r, <- !app_assoc. simpl. rewrite <- !app_assoc.
  rewrite (imap_ext _ (fun i a => frame_line (index + S i) a) l) by (intros i x _; simpl; f_equal; lia). done.
Qed.

(** A rendered trace shows the stack.  On either platform the text has one line per frame, numbered from 0, of the form
    [#index 0xaddress name]: those of the stack from the frame after [skip] others on, at most [max_frames] of them (both cut at
    1024), with the best name the platform knows; and the hexadecimal number of each line stands for its address. *)
Theorem rendered_trace_shows_the_stack skip max_frames :
  Forall (fun a => 0 <= a < 2 ^ 64)%Z stack ->
  let shown := take (Nat.min max_frames hard_limit) (drop (S (Nat.min skip hard_limit)) stack) in
  to_string (capture skip max_frames) = concat (imap frame_line shown) /\ Forall (fun a => base_value 16 (digits 16 a) = a) shown.
Proof.
  intros Ha. cbv zeta. rewrite <- (capture_walks_the_stack skip max_frames).
  assert (Forall (fun a => 0 <= a < 2 ^ 64)%Z (addresses_ (capture skip max_frames))) as Hs.
  { rewrite capture_walks_the_stack. by apply Forall_take, Forall_drop. }
  assert (length (addresses_ (capture skip max_frames)) <= hard_limit) as Hlen by (rewrite capture_walks_the_stack, length_take; lia).
  split.
  - apply (to_string_loop_lines empty_builder 0 _ Hs). simpl. unfold hard_limit in Hlen. lia.
  - eapply Forall_impl; [exact Hs|]. intros a Hx. by apply hex_digits.
Qed.

End walk.

(** A stack of four frames, the third of which has a name that demangles. *)
Definition demo_stack : list Z := [0x10; 0x20; 0x7ffff7a0; 0xdeadbeef]%Z.
Definition names (a : Z) : option (option text) := if (a =? 0x7ffff7a0)%Z then Some (Some ($"_Z3foov")) else Some None.
Definition plain_name (t : text) : option text := if decide (t = $"_Z3foov") then Some ($"foo()") else None.
Definition symbols (n : nat) (a : Z) : option (text * Z) := if (a =? 0x7ffff7a0)%Z then Some (take n ($"foo"), 16%Z) else None.

Lemma rendered_trace_shows_the_stack_witness :
  to_string (host := PosixTrace.host (fun n => take n demo_stack) names plain_name)
    (capture (host := PosixTrace.host (fun n => take n demo_stack) names plain_name) 1 64) =
    $"#0 0x7ffff7a0 foo()" ++ "010"%char :: $"#1 0xdeadbeef" ++ ["010"%char] /\
  to_string (host := WindowsTrace.host (fun skip n => take n (drop skip demo_stack)) true symbols)
    (capture (host := WindowsTrace.host (fun skip n => take n (drop skip demo_stack)) true symbols) 0 2) =
    $"#0 0x20" ++ "010"%char :: $"#1 0x7ffff7a0 foo + 16" ++ ["010"%char].
Proof.
  assert (Forall (fun a => 0 <= a < 2 ^ 64)%Z demo_stack) as Ha by (repeat constructor; by vm_compute). split.
  - destruct (rendered_trace_shows_the_stack demo_stack _ (trace_laws := posix_trace_laws _ names plain_name demo_stack (fun _ => eq_refl)) 1 64 Ha) as [-> _].
    by vm_compute.
  - assert (forall n a name d, symbols n a = Some (name, d) -> 0 <= d < 2 ^ 64)%Z as Hs by (unfold symbols; intros; case_match; by simplify_eq).
    destruct (rendered_trace_shows_the_stack demo_stack _ (trace_laws := windows_trace_laws _ true symbols demo_stack (fun _ _ => eq_refl) Hs) 0 2 Ha) as [-> _].
    by vm_compute.
Defined.
