(* ===== verification/UniqueRef.v ===== *)
(** * UniqueRef (unique_ref.hpp): unique ownership of a heap object

    A program's variables are [UniqueRef]s ([inl]) and [std::unique_ptr]s ([inr]); each holds the address
    of a live object or null.  Deleting an object that is not live, dereferencing or adopting null is
    [None]: undefined, or stopped by the assertion.  A converting move is a move here: the address is
    the same object's. *)

From S2P Require Import Prelude.

Section unique_ref.
Context {T : Type}.

Abbreviation var := (nat + nat)%type.
Abbreviation owners := (gmap var (option nat)).

Record memory := Memory { heap : gmap nat T; next : nat }.

(** [delete] of what a pointer owns. *)
Definition dispose (m : memory) (p : option nat) : option memory :=
  match p with
  | None => Some m
  | Some a => _ ← heap m !! a; Some (Memory (delete a (heap m)) (next m))
  end.

Inductive command : Type :=
  | MakeRef (h : nat) (x : T)
  | Adopt (h u : nat)
  | ToUniquePtr (u h : nat)
  | MoveConstruct (h from : nat)
  | MoveAssign (h from : nat)
  | Swap (h h' : nat)
  | Destroy (v : var)
  | Write (h : nat) (x : T).

(** The object a variable refers to: [operator*] and [get]. *)
Definition deref (st : memory * owners) (h : nat) : option nat := mjoin (st.2 !! inl h).

(** A construction names a variable that does not exist. *)
Definition move_into (os : owners) (dst src : var) : option owners :=
  p ← os !! src; match os !! dst with None => Some (<[dst := p]> (<[src := None]> os)) | Some _ => None end.

Definition run_command (st : memory * owners) (c : command) : option (memory * owners) :=
  let '(m, os) := st in
  match c with
  | MakeRef h x =>
      match os !! inl h with
      | None => Some (Memory (<[next m := x]> (heap m)) (S (next m)), <[inl h := Some (next m)]> os)
      | Some _ => None
      end
  | Adopt h u =>
      p ← os !! inr u; _ ← p; os ← move_into os (inl h) (inr u); Some (m, os)
  | ToUniquePtr u h => os ← move_into os (inr u) (inl h); Some (m, os)
  | MoveConstruct h from => os ← move_into os (inl h) (inl from); Some (m, os)
  | MoveAssign h from =>
      mine ← os !! inl h; p ← os !! inl from;
      if decide (h = from) then Some (m, os)
      else m ← dispose m mine; Some (m, <[inl h := p]> (<[inl from := None]> os))
  | Swap h h' =>
      p ← os !! inl h; p' ← os !! inl h'; Some (m, <[inl h := p']> (<[inl h' := p]> os))
  | Destroy v => p ← os !! v; m ← dispose m p; Some (m, delete v os)
  | Write h x =>
      p ← os !! inl h; a ← p; _ ← heap m !! a; Some (Memory (<[a := x]> (heap m)) (next m), os)
  end.

Fixpoint run (st : memory * owners) (cs : list command) : option (memory * owners) :=
  match cs with [] => Some st | c :: cs => st ← run_command st c; run st cs end.

(** ** Every live object has one owner *)

Definition owns (os : owners) (v : var) (a : nat) : Prop := os !! v = Some (Some a).

Record sound (m : memory) (os : owners) : Prop := {
  live_owned a : is_Some (heap m !! a) <-> exists v, owns os v a;
  one_owner v v' a : owns os v a -> owns os v' a -> v = v';
  below_next a : is_Some (heap m !! a) -> a < next m
}.

(** Pointers change places between two variables. *)
Definition exchange (x y v : var) : var := if decide (v = x) then y else if decide (v = y) then x else v.

Lemma exchange_involutive x y v : exchange x y (exchange x y v) = v.
Proof. unfold exchange. repeat case_decide; congruence. Qed.

Lemma refs_exchange m os os' x y :
  sound m os -> (forall v a, owns os' v a <-> owns os (exchange x y v) a) -> sound m os'.
Proof.
  intros [H1 H2 H3] He. split; [|intros v v' a Hv%He Hv'%He|done].
  - intros a. rewrite H1. split; intros [v Hv]; exists (exchange x y v); apply He; by rewrite ?exchange_involutive.
  - rewrite <- (exchange_involutive x y v), <- (exchange_involutive x y v'). f_equal. by eapply H2.
Qed.

Ltac owner_cases := unfold owns, exchange; repeat (rewrite ?lookup_insert, ?lookup_delete; repeat case_decide; simplify_eq); naive_solver.

Lemma refs_move m os dst src p :
  sound m os -> os !! src = Some p -> dst <> src -> (forall a, ~ owns os dst a) -> sound m (<[dst := p]> (<[src := None]> os)).
Proof. intros S Hp Hne Hd. apply (refs_exchange m os _ dst src S). intros v a. specialize (Hd a). revert Hd. owner_cases. Qed.

Lemma refs_move_into m os dst src os' : sound m os -> move_into os dst src = Some os' -> sound m os'.
Proof.
  intros S. unfold move_into. destruct (os !! src) as [p|] eqn:Es; [|done]. destruct (os !! dst) eqn:Ed; [done|]. intros [= <-].
  apply refs_move; try done; [congruence|]. unfold owns. congruence.
Qed.

(** Deleting what a variable owns: it is live, so this is defined, and the variable is left with nothing. *)
Lemma refs_dispose m os v p :
  sound m os -> os !! v = Some p ->
  exists m', dispose m p = Some m' /\ forall os', (forall v' a, owns os' v' a <-> v' <> v /\ owns os v' a) -> sound m' os'.
Proof.
  intros [H1 H2 H3] Hp. destruct p as [a|]; simpl.
  - assert (is_Some (heap m !! a)) as [x Hx] by (apply H1; by exists v). rewrite Hx. simpl. eexists. split; [done|]. intros os' He. split; simpl.
    + intros b. destruct (decide (a = b)) as [<-|Hne].
      * rewrite lookup_delete_eq. split; [by intros []|]. intros [v' [Hv' Ho]%He]. by destruct Hv'; eapply H2.
      * rewrite lookup_delete_ne, H1 by done. split; intros [v' Hv']; exists v'; [apply He; split; [|done]|by apply He in Hv' as []].
        intros ->. unfold owns in Hv'. congruence.
    + intros v' v'' b [_ ?]%He [_ ?]%He. by eapply H2.
    + intros b Hb. apply H3. destruct (decide (a = b)) as [<-|]; [by eexists|by rewrite lookup_delete_ne in Hb].
  - eexists. split; [done|]. intros os' He. split; [|intros v' v'' b [_ ?]%He [_ ?]%He; by eapply H2|done].
    intros b. rewrite H1. split; intros [v' Hv']; exists v'; [apply He; split; [|done]|by apply He in Hv' as []].
    intros ->. unfold owns in Hv'. congruence.
Qed.

Lemma refs_command m os c m' os' : sound m os -> run_command (m, os) c = Some (m', os') -> sound m' os'.
Proof.
  intros S. destruct c as [h x|h u|u h|h from|h from|h h'|v|h x]; simpl.
  - destruct (os !! inl h) eqn:Eh; [done|]. intros [= <- <-]. destruct S as [H1 H2 H3].
    assert (forall v a, owns (<[inl h := Some (next m)]> os) v a <-> v = inl h /\ a = next m \/ v <> inl h /\ owns os v a) as Ho by (intros v a; owner_cases).
    assert (forall v, ~ owns os v (next m)) as Hn by (intros v Hv; specialize (H3 (next m) (proj2 (H1 _) (ex_intro _ v Hv))); lia). split; simpl.
    + intros a. destruct (decide (next m = a)) as [<-|Hne].
      * rewrite lookup_insert_eq. split; [intros _; exists (inl h); apply Ho; by left|by eexists].
      * rewrite lookup_insert_ne, H1 by done. split; intros [v Hv]; exists v; [apply Ho; right; split; [|done]|apply Ho in Hv as [[]|[]]; [congruence|done]].
        intros ->. unfold owns in Hv. congruence.
    + intros v v' a [[-> ->]|[Hv Hv1]]%Ho [[-> E]|[Hv' Hv1']]%Ho; [done|by destruct (Hn v')|subst; by destruct (Hn v)|by eapply H2].
    + intros a. destruct (decide (next m = a)) as [<-|Hne]; [lia|]. rewrite lookup_insert_ne by done. intros Ha%H3. lia.
  - destruct (os !! inr u) as [[a|]|]; simpl; [|done..]. destruct (move_into _ _ _) as [os1|] eqn:E; simpl; [|done]. intros [= <- <-]. by eapply refs_move_into.
  - destruct (move_into _ _ _) as [os1|] eqn:E; simpl; [|done]. intros [= <- <-]. by eapply refs_move_into.
  - destruct (move_into _ _ _) as [os1|] eqn:E; simpl; [|done]. intros [= <- <-]. by eapply refs_move_into.
  - destruct (os !! inl h) as [mine|] eqn:Eh; simpl; [|done]. destruct (os !! inl from) as [p|] eqn:Ef; simpl; [|done].
    case_decide; [intros; by simplify_eq|]. destruct (refs_dispose m os (inl h) mine S Eh) as (m1 & -> & Hd). simpl. intros [= <- <-].
    apply (refs_exchange m1 (<[inl h := None]> os) _ (inl h) (inl from)); [apply Hd; intros; owner_cases|]. intros. owner_cases.
  - destruct (os !! inl h) as [p|] eqn:Eh; simpl; [|done]. destruct (os !! inl h') as [p'|] eqn:Eh'; simpl; [|done]. intros [= <- <-].
    apply (refs_exchange m os _ (inl h) (inl h') S). intros. owner_cases.
  - destruct (os !! v) as [p|] eqn:Ev; simpl; [|done]. destruct (refs_dispose m os v p S Ev) as (m1 & -> & Hd). simpl. intros [= <- <-].
    apply Hd. intros. owner_cases.
  - destruct (os !! inl h) as [[a|]|]; simpl; [|done..]. destruct (heap m !! a) eqn:Ea; simpl; [|done]. intros [= <- <-].
    destruct S as [H1 H2 H3]. split; simpl; [|done|]; intros b; destruct (decide (a = b)) as [<-|]; rewrite ?lookup_insert_eq, ?lookup_insert_ne by done; auto.
    rewrite <- H1, Ea. split; by eexists.
Qed.

Lemma refs_run cs m os m' os' : sound m os -> run (m, os) cs = Some (m', os') -> sound m' os'.
Proof.
  revert m os. induction cs as [|c cs IH]; intros m os S H; cbn [run] in H; [by injection H as <- <-|].
  destruct (run_command (m, os) c) as [[m1 os1]|] eqn:E; [|done]. by eapply IH; [eapply refs_command|].
Qed.

(** A command of a program that respects the interface: constructions are of new variables, the others of existing
    ones; null is not adopted and a moved-from reference is not dereferenced. *)
Definition respects (os : owners) (c : command) : Prop :=
  match c with
  | MakeRef h _ => os !! inl h = None
  | Adopt h u => os !! inl h = None /\ exists a, owns os (inr u) a
  | ToUniquePtr u h => os !! inr u = None /\ is_Some (os !! inl h)
  | MoveConstruct h from => os !! inl h = None /\ is_Some (os !! inl from)
  | MoveAssign h from => is_Some (os !! inl h) /\ is_Some (os !! inl from)
  | Swap h h' => is_Some (os !! inl h) /\ is_Some (os !! inl h')
  | Destroy v => is_Some (os !! v)
  | Write h _ => exists a, owns os (inl h) a
  end.

Definition empty_memory : memory := Memory ∅ 0.

(** After any program: the live objects are those the variables own, each owned by exactly one variable (no leak, no
    sharing); what a reference that owns something refers to is live (no dangling); and every further
    use that respects the interface is defined (no double deletion). *)
Theorem one_owner_each cs m os :
  run (empty_memory, ∅) cs = Some (m, os) ->
  (forall a, is_Some (heap m !! a) <-> exists v, owns os v a) /\
  (forall v v' a, owns os v a -> owns os v' a -> v = v') /\
  (forall h a, deref (m, os) h = Some a -> is_Some (heap m !! a)) /\
  (forall c, respects os c -> is_Some (run_command (m, os) c)).
Proof.
  intros Hr. assert (sound m os) as S.
  { eapply refs_run; [|done]. split; unfold owns; simpl; [intros a; split; [by intros []|by intros [v Hv]]|done|by intros a []]. }
  pose proof S as [H1 H2 _]. split_and!; [done|done| |].
  - unfold deref. simpl. intros h a E. apply H1. exists (inl h). unfold owns. by destruct (os !! inl h) as [p|]; simpl in E; subst.
  - intros c. destruct c as [h x|h u|u h|h from|h from|h h'|v|h x]; simpl; unfold move_into, owns.
    + intros ->. by eexists.
    + intros [-> [a ->]]. by eexists.
    + intros [-> [p ->]]. by eexists.
    + intros [-> [p ->]]. by eexists.
    + intros [[mine Eh] [p Ef]]. rewrite Eh, Ef. simpl. case_decide; [by eexists|].
      destruct (refs_dispose m os (inl h) mine S Eh) as (m1 & -> & _). by eexists.
    + intros [[p ->] [p' ->]]. by eexists.
    + intros [p Ev]. rewrite Ev. simpl. destruct (refs_dispose m os v p S Ev) as (m1 & -> & _). by eexists.
    + intros [a Ea]. rewrite Ea. simpl. destruct (proj2 (H1 a)) as [y ->]; [by exists (inl h)|]. by eexists.
Qed.

End unique_ref.

Definition demo_program : list (command (T := nat)) :=
  [MakeRef 0 10; MakeRef 1 11; MoveAssign 0 1; MoveConstruct 2 0; ToUniquePtr 0 2; Adopt 3 0; Write 3 12; Swap 3 1; Destroy (inl 0)].

Lemma one_owner_each_witness :
  exists m os, run (empty_memory, ∅) demo_program = Some (m, os) /\ heap m !! 1 = Some 12 /\ heap m !! 0 = None /\
  forall v v' a, owns os v a -> owns os v' a -> v = v'.
Proof.
  destruct (run (empty_memory, ∅) demo_program) as [[m os]|] eqn:E; [|exfalso; vm_compute in E; discriminate E].
  exists m, os. split; [done|]. pose proof (one_owner_each demo_program m os E) as (_ & H & _).
  vm_compute in E. injection E as <- <-. split_and!; [by vm_compute|by vm_compute|exact H].
Defined.
