(* ===== verification/HeapArray.v ===== *)
(** * HeapArray (heap_array.hpp): the array of a size fixed at construction

    An element reference is its position; [None] is an access past the end, undefined (and asserted in debug
    builds). *)

From S2P Require Import Prelude.

Section heap_array.
Context {T : Type}.

Record heap_array := HeapArray { data_ : list T }.

(** [value_init]: the value-initialised element. *)
Definition sized (value_init : T) (size : nat) : heap_array := HeapArray (replicate size value_init).
Definition filled (size : nat) (value : T) : heap_array := HeapArray (replicate size value).
Definition of_list (init : list T) : heap_array := HeapArray init.

Definition size (a : heap_array) : nat := length (data_ a).
Definition empty (a : heap_array) : bool := bool_decide (data_ a = []).

Definition at_ (a : heap_array) (index : nat) : outcome T :=
  match data_ a !! index with Some x => Ret x | None => Throw out_of_range end.
Definition subscript (a : heap_array) (index : nat) : option T := data_ a !! index.
Definition front (a : heap_array) : option T := data_ a !! 0.
Definition back (a : heap_array) : option T := data_ a !! (size a - 1).

(** Assignment through the reference [at] returns. *)
Definition at_assign (a : heap_array) (index : nat) (x : T) : outcome heap_array :=
  if (index <? size a)%nat then Ret (HeapArray (<[index := x]> (data_ a))) else Throw out_of_range.
Definition fill (a : heap_array) (value : T) : heap_array := HeapArray (map (fun _ => value) (data_ a)).
Definition swap (a b : heap_array) : heap_array * heap_array := (b, a).

(** ** A client's writes *)

Inductive command : Type := Assign (index : nat) (x : T) | Fill (x : T).

(** A throwing assignment changes nothing. *)
Definition run_command (a : heap_array) (c : command) : heap_array :=
  match c with
  | Assign i x => match at_assign a i x with Ret a => a | Throw _ => a end
  | Fill x => fill a x
  end.
Definition run (a : heap_array) (cs : list command) : heap_array := foldl run_command a cs.

(** The last write to a position, from the history alone. *)
Definition writes (i : nat) (c : command) : option T :=
  match c with Assign j x => if decide (i = j) then Some x else None | Fill x => Some x end.
Definition last_write (i : nat) (cs : list command) : option T := last (omap (writes i) cs).

Lemma run_command_lookup a c i :
  data_ (run_command a c) !! i = (match writes i c with Some x => (fun _ => x) <$> data_ a !! i | None => data_ a !! i end).
Proof.
  destruct c as [j x|x]; simpl.
  - unfold at_assign, size. destruct (Nat.ltb_spec j (length (data_ a))); case_decide; subst; simpl.
    + rewrite list_lookup_insert_eq by done. by destruct (lookup_lt_is_Some_2 _ _ H) as [y ->].
    + by rewrite list_lookup_insert_ne.
    + by rewrite lookup_ge_None_2.
    + done.
  - apply list_lookup_fmap.
Qed.

(** The size never changes, and each position holds the last value written to it, or its first one; [at] throws
    exactly past the end. *)
Theorem last_write_wins a cs i :
  size (run a cs) = size a /\
  data_ (run a cs) !! i = (x ← data_ a !! i; Some (default x (last_write i cs))) /\
  (at_ (run a cs) i = Throw out_of_range <-> size a <= i).
Proof.
  assert (forall i, data_ (run a cs) !! i = (x ← data_ a !! i; Some (default x (last_write i cs)))) as Hl.
  { clear i. induction cs as [|c cs IH] using rev_ind; intros i; [simpl; by destruct (data_ a !! i)|]. unfold run, last_write in *. rewrite foldl_app, omap_app. simpl.
    rewrite run_command_lookup, IH. destruct (writes i c), (data_ a !! i); simpl; rewrite ?app_nil_r; try done. by rewrite last_snoc. }
  assert (size (run a cs) = size a) as Hs.
  { clear i Hl. induction cs as [|c cs IH] using rev_ind; [done|]. unfold run in *. rewrite foldl_app. simpl. rewrite <- IH. unfold size.
    destruct c as [j x|x]; simpl; [|by rewrite length_map]. unfold at_assign. destruct (_ <? _)%nat; simpl; [by rewrite length_insert|done]. }
  split_and!; [done|done|]. rewrite <- Hs. unfold at_, size. rewrite <- lookup_ge_None. by destruct (data_ (run a cs) !! i).
Qed.

End heap_array.
