(* ===== verification/FileHost.v ===== *)
(** * The four host functions of FileStream (file_stream.cpp): POSIX and Windows

    [os_open], [os_read], [os_write_all] and [os_close] hide the operating system from the stream.  [FileHost] is what the
    stream may use of them and [FileHostLaws] what it may rely on; each platform's functions, over the
    system calls it has, are shown to keep those laws. *)

From S2P Require Import Prelude Posix.

Inductive FileMode : Set := read_mode | write_mode | append_mode.
#[export] Instance FileMode_eq_dec : EqDecision FileMode.
Proof. solve_decision. Defined.

Definition invalid_handle : Z := -1.

(** [contents h w]: the bytes of the file open for writing as [h]; [unread h w]: what is left to read through [h]. *)
Class FileHost (W : Type) := {
  os_open : text -> FileMode -> W -> sysret Z * W;
  os_read : Z -> nat -> W -> sysret text * W;
  os_write_all : Z -> text -> W -> sysret unit * W;
  os_close : Z -> W -> sysret unit * W;
  contents : Z -> W -> text;
  unread : Z -> W -> text
}.

Class FileHostLaws (W : Type) `{FileHost W} : Prop := {
  os_open_spec path mode w h w' : os_open path mode w = (SysOk h, w') -> h <> invalid_handle;
  os_read_spec h n w r w' : os_read h n w = (r, w') ->
    match r with
    | SysOk bs => length bs <= n /\ unread h w = bs ++ unread h w' /\ (bs = [] -> 0 < n -> unread h w = [])
    | SysErr e => unread h w' = unread h w /\ e <> 0%Z
    end;
  os_write_all_spec h src w r w' : os_write_all h src w = (r, w') ->
    exists put rest, src = put ++ rest /\ contents h w' = contents h w ++ put /\ (r = SysOk tt -> rest = []);
  os_close_spec h w r w' : os_close h w = (r, w') -> contents h w' = contents h w
}.

(** What storing a text does to a state: nothing for no bytes, and two texts as the two together. *)
Class TextAction {S : Type} (act : text -> S -> S) : Prop := {
  act_nil s : act [] s = s;
  act_app a b s : act b (act a s) = act (a ++ b) s
}.

(** To a log: the bytes are added at its end. *)
Definition logged (bs log : text) : text := log ++ bs.

#[export] Instance logged_action : TextAction logged.
Proof. split; intros; unfold logged; [apply app_nil_r|by rewrite app_assoc]. Qed.

(** ** Writing all of a text with calls that write some of it

    [put] hands a text to the system; an error that [again] recognises is tried again. *)

Section write_loop.
Context {W : Type} (put : text -> W -> sysret nat * W) (again : Z -> bool).

Fixpoint write_loop (fuel : nat) (src : text) (written : nat) (w : W) : sysret unit * W :=
  if (written <? length src)%nat then
    match fuel with
    | O => (SysErr 0, w)
    | S fuel =>
        match put (drop written src) w with
        | (SysErr e, w) => if again e then write_loop fuel src written w else (SysErr e, w)
        | (SysOk n, w) => write_loop fuel src (written + n) w
        end
    end
  else (SysOk tt, w).

(** Every call writes something, or uses up some of the patience of the world. *)
Context {S : Type} (stored : W -> S) (act : text -> S -> S) `{!TextAction act} (patience : W -> nat).

Definition put_progresses : Prop :=
  forall bs w r w', put bs w = (r, w') ->
    match r with
    | SysOk n => n <= length bs /\ stored w' = act (take n bs) (stored w) /\ patience w' <= patience w /\ (n = 0 -> bs <> [] -> patience w' < patience w)
    | SysErr e => stored w' = stored w /\ (again e = true -> patience w' < patience w)
    end.

Context (HP : put_progresses).

Lemma left_nonempty (src : text) written : written < length src -> drop written src <> [].
Proof. intros H E. apply (f_equal length) in E. rewrite length_drop in E. simpl in E. lia. Qed.

Lemma write_loop_spec fuel src written w r w' :
  write_loop fuel src written w = (r, w') -> patience w + (length src - written) <= fuel ->
  (forall e, r = SysErr e -> again e = false) /\
  exists out rest, drop written src = out ++ rest /\ stored w' = act out (stored w) /\ (r = SysOk tt -> rest = []).
Proof.
  revert written w. induction fuel as [|fuel IH]; intros written w E Hf; simpl in E; destruct (Nat.ltb_spec written (length src)) as [Hlt|Hge]; simplify_eq;
    try (split; [done|]; exists [], []; rewrite drop_ge, ?(act_nil (act:=act)) by done; done); [lia|].
  destruct (put (drop written src) w) as [r1 w1] eqn:Es. specialize (HP _ _ _ _ Es). pose proof (left_nonempty _ _ Hlt) as Hne. destruct r1 as [n|e].
  - destruct HP as (Hn & Hc & Hp & Hz). rewrite length_drop in Hn.
    destruct (IH _ _ E) as (Hr & out & rest & Hd & Hc' & Hrest); [destruct (decide (n = 0)) as [->|]; [specialize (Hz eq_refl Hne)|]; lia|].
    split; [done|]. exists (take n (drop written src) ++ out), rest. rewrite <- app_assoc, <- Hd, <- drop_drop, take_drop.
    split_and!; [done|by rewrite Hc', Hc, act_app|done].
  - destruct HP as [Hc Hp]. destruct (again e) eqn:Ea.
    + specialize (Hp eq_refl). destruct (IH _ _ E ltac:(lia)) as (Hr & out & rest & Hd & Hc' & Hrest).
      split; [done|]. exists out, rest. by rewrite Hc', Hc.
    + simplify_eq. split; [by intros e' [= <-]|]. exists [], (drop written src). by rewrite Hc, (act_nil (act:=act)).
Qed.

(** The loop ends by itself: more fuel changes nothing. *)
Lemma write_loop_fuel fuel src written w :
  patience w + (length src - written) <= fuel -> write_loop fuel src written w = write_loop (patience w + (length src - written)) src written w.
Proof.
  remember (patience w + (length src - written)) as m eqn:Em. assert (patience w + (length src - written) <= m) as Hm by lia. clear Em.
  revert fuel written w Hm. induction m as [|m IH]; intros fuel written w Hm Hf.
  - destruct fuel; simpl; destruct (Nat.ltb_spec written (length src)); done || lia.
  - destruct fuel as [|fuel]; [lia|]. simpl. destruct (Nat.ltb_spec written (length src)) as [Hlt|]; [|done].
    destruct (put (drop written src) w) as [r1 w1] eqn:Es. specialize (HP _ _ _ _ Es). pose proof (left_nonempty _ _ Hlt) as Hne. destruct r1 as [n|e].
    + destruct HP as (Hn & _ & Hp & Hz). rewrite length_drop in Hn.
      assert (patience w1 + (length src - (written + n)) <= m) by (destruct (decide (n = 0)) as [->|]; [specialize (Hz eq_refl Hne)|]; lia).
      apply IH; lia.
    + destruct HP as [_ Hp]. destruct (again e); [|done]. specialize (Hp eq_refl). apply IH; lia.
Qed.

Lemma write_all_spec src w r w' :
  write_loop (patience w + length src) src 0 w = (r, w') ->
  (forall e, r = SysErr e -> again e = false) /\
  exists out rest, src = out ++ rest /\ stored w' = act out (stored w) /\ (r = SysOk tt -> rest = []).
Proof. intros E. apply write_loop_spec in E; [|lia]. by rewrite drop_0 in E. Qed.

End write_loop.

(** ** POSIX: [open], [read], [write], [close], tried again when a signal interrupts them *)

Module PosixHost.
Section posix.
Context {W : Type} `{!FileOs W}.

Definition open_flags (mode : FileMode) : list open_flag :=
  match mode with
  | read_mode => [O_RDONLY]
  | write_mode => [O_WRONLY; O_CREAT; O_TRUNC]
  | append_mode => [O_WRONLY; O_CREAT; O_APPEND]
  end.

(** [errno == EINTR]. *)
Definition is_interrupted (e : Z) : bool := (e =? EINTR)%Z.

Definition os_open (path : text) (mode : FileMode) (w : W) : sysret Z * W :=
  retry is_interrupted patience (sys_open (c_str path) (open_flags mode)) w.

Definition os_read (h : Z) (n : nat) (w : W) : sysret text * W := retry is_interrupted patience (sys_read h n) w.

Definition os_write_all (h : Z) (src : text) (w : W) : sysret unit * W :=
  write_loop (sys_write h) is_interrupted (patience w + length src) src 0 w.

Definition os_close (h : Z) (w : W) : sysret unit * W :=
  match sys_close h w with
  | (SysErr e, w) => if is_interrupted e then (SysOk tt, w) else (SysErr e, w)
  | r => r
  end.

#[global] Instance host : FileHost W := {
  FileHost.os_open := os_open;
  FileHost.os_read := os_read;
  FileHost.os_write_all := os_write_all;
  FileHost.os_close := os_close;
  contents := file_contents;
  unread := file_unread
}.

Context `{!FileOsLaws W}.

Lemma read_interruptible h n t :
  interruptible is_interrupted patience (fun w1 => file_unread h w1 = t) (sys_read h n).
Proof.
  intros w1 w2 e Hw1 Es ->%Z.eqb_eq. destruct (read_failed _ _ _ _ _ Es) as [Hu _]. split; [congruence|]. by eapply read_interrupted.
Qed.

Lemma write_progresses h : put_progresses (sys_write h) is_interrupted (file_contents h) logged patience.
Proof.
  intros bs w [n|e] w' Es; [destruct (write_ok _ _ _ _ _ Es) as (Hn & Hc & Hz); split_and!; try done; by eapply write_patience|].
  split; [by eapply write_failed|]. intros ->%Z.eqb_eq. by eapply write_interrupted.
Qed.

#[global] Instance laws : FileHostLaws W.
Proof.
  split.
  - intros path mode w h w' E. destruct (retry_spec is_interrupted patience (fun _ => True) (sys_open (c_str path) (open_flags mode)) w (SysOk h) w') as (_ & w1 & _ & Es & _); [|done|done|].
    + intros w1 w2 e _ Es ->%Z.eqb_eq. split; [done|]. by eapply open_interrupted.
    + pose proof (open_handle _ _ _ _ _ Es). unfold invalid_handle. lia.
  - intros h n w r w' E. destruct (retry_spec is_interrupted patience (fun w1 => file_unread h w1 = file_unread h w) (sys_read h n) w r w') as (Hr & w1 & Hw1 & Es & _); [apply read_interruptible|done|done|].
    simpl. destruct r as [bs|e].
    + destruct (read_ok _ _ _ _ _ Es) as (H1 & H2 & H3). rewrite <- Hw1. auto.
    + destruct (read_failed _ _ _ _ _ Es) as [H1 H2]. split; congruence.
  - intros h src w r w' E. by apply (write_all_spec _ _ _ _ _ (write_progresses h)) in E as [_ ?].
  - intros h w r w' E. simpl in E. unfold os_close in E. destruct (sys_close h w) as [[u|e] w1] eqn:Es; pose proof (close_contents _ _ _ _ Es);
      repeat case_match; by simplify_eq.
Qed.

End posix.
End PosixHost.

(** ** Windows: [CreateFileA], [ReadFile], [WriteFile], [CloseHandle]

    [CreateFileA] returns a handle and leaves the code of [GetLastError]; the other calls are [SysErr] when they
    return zero, with that code.  No call is interrupted, but sizes are 32-bit. *)

Inductive access_right : Set := GENERIC_READ | GENERIC_WRITE | FILE_APPEND_DATA.
Inductive disposition : Set := OPEN_EXISTING | CREATE_ALWAYS | OPEN_ALWAYS.
Inductive share_mode : Set := FILE_SHARE_READ | FILE_SHARE_WRITE | FILE_SHARE_DELETE.

Class WinFileOs (W : Type) := {
  CreateFileA : text -> access_right -> list share_mode -> disposition -> W -> Z * Z * W;
  ReadFile : Z -> nat -> W -> sysret text * W;
  WriteFile : Z -> text -> W -> sysret nat * W;
  CloseHandle : Z -> W -> sysret unit * W;
  win_patience : W -> nat;
  win_contents : Z -> W -> text;
  win_unread : Z -> W -> text
}.

Class WinFileOsLaws (W : Type) `{WinFileOs W} : Prop := {
  ReadFile_ok h n w bs w' : ReadFile h n w = (SysOk bs, w') ->
    length bs <= n /\ win_unread h w = bs ++ win_unread h w' /\ (bs = [] -> 0 < n -> win_unread h w = []);
  ReadFile_failed h n w e w' : ReadFile h n w = (SysErr e, w') -> win_unread h w' = win_unread h w /\ to_signed 32 e <> 0%Z;
  WriteFile_ok h bs w n w' : WriteFile h bs w = (SysOk n, w') ->
    n <= length bs /\ win_contents h w' = win_contents h w ++ take n bs /\ win_patience w' <= win_patience w /\
    (n = 0 -> bs <> [] -> win_patience w' < win_patience w);
  WriteFile_failed h bs w e w' : WriteFile h bs w = (SysErr e, w') -> win_contents h w' = win_contents h w;
  CloseHandle_contents h w r w' : CloseHandle h w = (r, w') -> win_contents h w' = win_contents h w
}.

Definition INVALID_HANDLE_VALUE : Z := -1.
Definition dword_max : Z := 2 ^ 32 - 1.

Module WindowsHost.
Section windows.
Context {W : Type} `{!WinFileOs W}.

Definition open_mode (mode : FileMode) : access_right * disposition :=
  match mode with
  | read_mode => (GENERIC_READ, OPEN_EXISTING)
  | write_mode => (GENERIC_WRITE, CREATE_ALWAYS)
  | append_mode => (FILE_APPEND_DATA, OPEN_ALWAYS)
  end.

(** [static_cast<int>(::GetLastError())]. *)
Definition last_error (e : Z) : Z := to_signed 32 e.

(** [std::min<std::size_t>(n, std::numeric_limits<DWORD>::max())]. *)
Definition capped (n : nat) : nat := Z.to_nat (Z.min (Z.of_nat n) dword_max).

Definition os_open (path : text) (mode : FileMode) (w : W) : sysret Z * W :=
  let '(access, disposition) := open_mode mode in
  let '(handle, e, w) := CreateFileA (c_str path) access [FILE_SHARE_READ; FILE_SHARE_WRITE; FILE_SHARE_DELETE] disposition w in
  if (handle =? INVALID_HANDLE_VALUE)%Z then (SysErr (last_error e), w) else (SysOk handle, w).

Definition os_read (h : Z) (n : nat) (w : W) : sysret text * W :=
  match ReadFile h (capped n) w with
  | (SysErr e, w) => (SysErr (last_error e), w)
  | r => r
  end.

Definition write_chunk (h : Z) (chunk : text) (w : W) : sysret nat * W :=
  match WriteFile h (take (capped (length chunk)) chunk) w with
  | (SysErr e, w) => (SysErr (last_error e), w)
  | r => r
  end.

Definition os_write_all (h : Z) (src : text) (w : W) : sysret unit * W :=
  write_loop (write_chunk h) (fun _ => false) (win_patience w + length src) src 0 w.

Definition os_close (h : Z) (w : W) : sysret unit * W :=
  match CloseHandle h w with
  | (SysErr e, w) => (SysErr (last_error e), w)
  | r => r
  end.

#[global] Instance host : FileHost W := {
  FileHost.os_open := os_open;
  FileHost.os_read := os_read;
  FileHost.os_write_all := os_write_all;
  FileHost.os_close := os_close;
  contents := win_contents;
  unread := win_unread
}.

Lemma capped_le n : capped n <= n.
Proof. unfold capped, dword_max. lia. Qed.

Lemma capped_pos n : 0 < n -> 0 < capped n.
Proof. unfold capped, dword_max. lia. Qed.

Context `{!WinFileOsLaws W}.

Lemma write_file_progresses h : put_progresses (write_chunk h) (fun _ => false) (win_contents h) logged win_patience.
Proof.
  intros bs w r w' E. unfold write_chunk in E. pose proof (capped_le (length bs)) as Hle.
  destruct (WriteFile h _ w) as [[n|e] w1] eqn:Es; simplify_eq.
  - destruct (WriteFile_ok _ _ _ _ _ Es) as (Hn & Hc & Hp & Hz). rewrite length_take in Hn. rewrite take_take, Nat.min_l in Hc by lia.
    split_and!; try done; [lia|]. intros Hn0 Hne. apply Hz; [done|]. intros E%(f_equal length). rewrite length_take in E.
    destruct bs as [|b bs]; [done|]. pose proof (capped_pos (length (b :: bs)) ltac:(simpl; lia)). simpl in *. lia.
  - split; [by eapply WriteFile_failed|done].
Qed.

#[global] Instance laws : FileHostLaws W.
Proof.
  split.
  - intros path mode w h w' E. simpl in E. unfold os_open in E. destruct (open_mode mode). destruct (CreateFileA _ _ _ _ w) as [[handle e] w1].
    destruct (Z.eqb_spec handle INVALID_HANDLE_VALUE); by simplify_eq.
  - intros h n w r w' E. simpl in E. unfold os_read in E. pose proof (capped_le n). pose proof (capped_pos n).
    destruct (ReadFile h (capped n) w) as [[bs|e] w1] eqn:Es; simplify_eq; simpl.
    + destruct (ReadFile_ok _ _ _ _ _ Es) as (H1 & H2 & H3). split_and!; [lia|done|auto].
    + by eapply ReadFile_failed.
  - intros h src w r w' E. by apply (write_all_spec _ _ _ _ _ (write_file_progresses h)) in E as [_ ?].
  - intros h w r w' E. simpl in E. unfold os_close in E. destruct (CloseHandle h w) as [[u|e] w1] eqn:Es; pose proof (CloseHandle_contents _ _ _ _ Es); by simplify_eq.
Qed.

End windows.
End WindowsHost.

(** *** The files of a POSIX world, as Windows would serve them *)

Record win_file (W : Type) := WinFile { disk_file : W }.
Arguments WinFile {W} disk_file.
Arguments disk_file {W} w.

Section served.
Context {W : Type} `{!FileOs W}.

Definition served {A} (r : sysret A * W) : sysret A * win_file W :=
  match r with
  | (SysOk a, m) => (SysOk a, WinFile m)
  | (SysErr e, m) => (SysErr (if (to_signed 32 e =? 0)%Z then 31 else e), WinFile m)
  end.

Definition access_flag (a : access_right) : list open_flag :=
  match a with GENERIC_READ => [O_RDONLY] | GENERIC_WRITE => [O_WRONLY] | FILE_APPEND_DATA => [O_WRONLY; O_APPEND] end.
Definition disposition_flag (d : disposition) : list open_flag :=
  match d with OPEN_EXISTING => [] | CREATE_ALWAYS => [O_CREAT; O_TRUNC] | OPEN_ALWAYS => [O_CREAT] end.

#[export] Instance win_memory : WinFileOs (win_file W) := {
  CreateFileA path access share disposition w :=
    match sys_open path (access_flag access ++ disposition_flag disposition) (disk_file w) with
    | (SysOk h, m) => (h, 0%Z, WinFile m)
    | (SysErr e, m) => (INVALID_HANDLE_VALUE, e, WinFile m)
    end;
  ReadFile h n w := served (sys_read h n (disk_file w));
  WriteFile h bs w := served (sys_write h bs (disk_file w));
  CloseHandle h w := served (sys_close h (disk_file w));
  win_patience w := patience (disk_file w);
  win_contents h w := file_contents h (disk_file w);
  win_unread h w := file_unread h (disk_file w)
}.

Lemma served_ok {A} (r : sysret A * W) a w' : served r = (SysOk a, w') -> exists m, r = (SysOk a, m) /\ w' = WinFile m.
Proof. destruct r as [[b|e] m]; simpl; intros E; simplify_eq; eauto. Qed.

Lemma served_err {A} (r : sysret A * W) e w' :
  served r = (SysErr e, w') -> exists e' m, r = (SysErr e', m) /\ w' = WinFile m /\ to_signed 32 e <> 0%Z.
Proof.
  destruct r as [[b|e'] m]; simpl; intros E; simplify_eq. exists e', m. split_and!; [done..|].
  destruct (Z.eqb_spec (to_signed 32 e') 0); [by vm_compute|done].
Qed.

#[export] Instance win_memory_laws `{!FileOsLaws W} : WinFileOsLaws (win_file W).
Proof.
  split; cbn [ReadFile WriteFile CloseHandle win_patience win_contents win_unread win_memory].
  - intros h n w bs w' (m & E & ->)%served_ok. by apply read_ok in E.
  - intros h n w e w' (e' & m & E & -> & He)%served_err. apply read_failed in E as [E _]. done.
  - intros h bs w n w' (m & E & ->)%served_ok. destruct (write_ok _ _ _ _ _ E) as (? & ? & ?). split_and!; try done. by eapply write_patience.
  - intros h bs w e w' (e' & m & E & -> & He)%served_err. by eapply write_failed.
  - intros h w r w' E. destruct r as [u|e]; [apply served_ok in E as (m & E & ->)|apply served_err in E as (e' & m & E & -> & _)]; by eapply close_contents.
Qed.
End served.

(** ** The loops of both platforms end *)

(** C38. The system-call loops of reading and writing end.  On POSIX, as long as interruptions by signals are finite in number, the loops around
    [read] and [write] end by themselves: bounding their turns changes nothing, and they never report [EINTR].  On Windows, as long as
    [WriteFile] does not write nothing for ever, its loop ends by itself. *)
Theorem host_loops_end {W V : Type} `{!FileOs W, !FileOsLaws W, !WinFileOs V, !WinFileOsLaws V} h n src (w : W) (v : V) fuel r w1 r' w2 q v1 :
  PosixHost.os_read h n w = (r, w1) -> PosixHost.os_write_all h src w = (r', w2) -> WindowsHost.os_write_all h src v = (q, v1) ->
  patience w + length src <= fuel -> win_patience v + length src <= fuel ->
  retry_loop PosixHost.is_interrupted fuel (sys_read h n) w = (r, w1) /\ r <> SysErr EINTR /\
  write_loop (sys_write h) PosixHost.is_interrupted fuel src 0 w = (r', w2) /\ r' <> SysErr EINTR /\
  write_loop (WindowsHost.write_chunk h) (fun _ => false) fuel src 0 v = (q, v1).
Proof.
  intros Er Ew Ev Hf Hfv. pose proof (PosixHost.read_interruptible h n (file_unread h w)) as Hi. split_and!.
  - rewrite <- Er. by apply (retry_loop_fuel PosixHost.is_interrupted patience _ _ _ _ Hi); [|lia].
  - intros ->. destruct (retry_spec PosixHost.is_interrupted patience _ _ _ _ _ Hi eq_refl Er) as [He _]. specialize (He EINTR eq_refl).
    unfold PosixHost.is_interrupted in He. bools. done.
  - unfold PosixHost.os_write_all in Ew. rewrite <- Ew, (write_loop_fuel _ _ _ _ _ (PosixHost.write_progresses h)) by lia.
    by rewrite Nat.sub_0_r.
  - intros ->. apply (write_all_spec _ _ _ _ _ (PosixHost.write_progresses h)) in Ew as [He _]. specialize (He EINTR eq_refl).
    unfold PosixHost.is_interrupted in He. bools. done.
  - unfold WindowsHost.os_write_all in Ev. rewrite <- Ev, (write_loop_fuel _ _ _ _ _ (WindowsHost.write_file_progresses h)) by lia.
    by rewrite Nat.sub_0_r.
Qed.

Definition disk (content : text) (fs : list fault) : memory_file := MemoryFile content 0 fs.

Lemma host_loops_end_witness :
  let w := disk ($"abc") [Interrupted; Short 0; Interrupted; Short 1] in
  let v := WinFile (disk ($"abc") [Short 0; Short 1; Short 0]) in
  let '(r, w1) := PosixHost.os_read 3 5 w in
  let '(r', w2) := PosixHost.os_write_all 3 ($"xyz") w in
  let '(q, v1) := WindowsHost.os_write_all 3 ($"xyz") v in
  retry_loop PosixHost.is_interrupted 40 (sys_read 3 5) w = (r, w1) /\ r <> SysErr EINTR /\
  write_loop (sys_write 3) PosixHost.is_interrupted 40 ($"xyz") 0 w = (r', w2) /\ r' <> SysErr EINTR /\
  write_loop (WindowsHost.write_chunk 3) (fun _ => false) 40 ($"xyz") 0 v = (q, v1).
Proof.
  cbv zeta. destruct (PosixHost.os_read _ _ _) as [r w1] eqn:Er. destruct (PosixHost.os_write_all _ _ _) as [r' w2] eqn:Ew.
  destruct (WindowsHost.os_write_all _ _ _) as [q v1] eqn:Ev.
  apply (host_loops_end 3 5 ($"xyz") _ _ 40 r w1 r' w2 q v1 Er Ew Ev); vm_compute; lia.
Defined.
