(* ===== verification/FileSystem.v ===== *)
(** * Named files

    A file system as the calls of one program see it: the files there are, and for each open handle the file it leads to and
    the offset of its next read or write.  [NamedFiles] states what [open], [read], [write] and [close] do to it on POSIX and
    [WinNamedFiles] what their counterparts do on Windows; [NamedHost] is what the host functions of file_stream.cpp make of
    either, which is what the theorems on programs of several streams rely on. *)

From S2P Require Import Prelude Posix FileHost.

Record descriptor := Descriptor { file_of : text; reading : bool; appending : bool; offset : nat }.
Record fsys := Fsys { files : gmap text text; opened : gmap Z descriptor }.

(** How a file is opened. *)
Record open_how := OpenHow { for_reading : bool; at_end : bool; creating : bool; truncating : bool }.

Definition how_of_flags (flags : list open_flag) : open_how :=
  OpenHow (bool_decide (O_RDONLY ∈ flags)) (bool_decide (O_APPEND ∈ flags)) (bool_decide (O_CREAT ∈ flags)) (bool_decide (O_TRUNC ∈ flags)).

Definition how_of_access (access : access_right) (disposition : disposition) : open_how :=
  OpenHow (match access with GENERIC_READ => true | _ => false end) (match access with FILE_APPEND_DATA => true | _ => false end)
    (match disposition with OPEN_EXISTING => false | _ => true end) (match disposition with CREATE_ALWAYS => true | _ => false end).

Definition how_of_mode (mode : FileMode) : open_how :=
  match mode with
  | read_mode => OpenHow true false false false
  | write_mode => OpenHow false false true true
  | append_mode => OpenHow false true true false
  end.

(** ** The effect of the calls *)

Definition text_of (f : text) (fs : fsys) : text := default [] (files fs !! f).

Definition fs_open (h : Z) (f : text) (how : open_how) (fs : fsys) : fsys :=
  Fsys (if creating how then <[f := if truncating how then [] else text_of f fs]> (files fs) else files fs)
    (<[h := Descriptor f (for_reading how) (at_end how) 0]> (opened fs)).

Definition moved (d : descriptor) (k : nat) : descriptor := Descriptor (file_of d) (reading d) (appending d) (offset d + k).

Definition fs_advance (h : Z) (k : nat) (fs : fsys) : fsys := Fsys (files fs) (alter (fun d => moved d k) h (opened fs)).

Definition fs_unread (h : Z) (fs : fsys) : text :=
  match opened fs !! h with
  | Some d => if reading d then drop (offset d) (text_of (file_of d) fs) else []
  | None => []
  end.

(** [bs] at offset [k] of [t]; a gap before it is filled with zeros. *)
Definition overwrite (k : nat) (bs t : text) : text :=
  take k (t ++ replicate (k - length t) "000"%char) ++ bs ++ drop (k + length bs) t.

Definition put_at (d : descriptor) (bs t : text) : text := if appending d then t ++ bs else overwrite (offset d) bs t.

Definition fs_store (h : Z) (bs : text) (fs : fsys) : fsys :=
  match opened fs !! h, bs with
  | Some d, _ :: _ => Fsys (<[file_of d := put_at d bs (text_of (file_of d) fs)]> (files fs)) (<[h := moved d (length bs)]> (opened fs))
  | _, _ => fs
  end.

Definition fs_close (h : Z) (fs : fsys) : fsys := Fsys (files fs) (delete h (opened fs)).

(** ** The laws of the system calls, and of the host functions *)

(** [resolve path]: the file a path leads to; no link changes while the program runs. *)
Class NamedFiles (W : Type) := {
  fs_of : W -> fsys;
  resolve : text -> text
}.

Class NamedFilesLaws (W : Type) `{!FileOs W, !NamedFiles W} : Prop := {
  named_open path flags w r w' : sys_open path flags w = (r, w') ->
    match r with
    | SysOk h => opened (fs_of w) !! h = None /\ fs_of w' = fs_open h (resolve path) (how_of_flags flags) (fs_of w) /\
        (O_CREAT ∉ flags -> is_Some (files (fs_of w) !! resolve path))
    | SysErr _ => fs_of w' = fs_of w
    end;
  named_read h n w r w' : sys_read h n w = (r, w') ->
    fs_of w' = match r with SysOk bs => fs_advance h (length bs) (fs_of w) | SysErr _ => fs_of w end;
  named_unread h w : file_unread h w = fs_unread h (fs_of w);
  named_write h bs w r w' : sys_write h bs w = (r, w') ->
    fs_of w' = match r with SysOk n => fs_store h (take n bs) (fs_of w) | SysErr _ => fs_of w end;
  named_close h w r w' : sys_close h w = (r, w') -> fs_of w' = fs_close h (fs_of w)
}.

Class WinNamedFilesLaws (W : Type) `{!WinFileOs W, !NamedFiles W} : Prop := {
  win_named_open path access share disposition w h e w' : CreateFileA path access share disposition w = (h, e, w') ->
    if (h =? INVALID_HANDLE_VALUE)%Z then fs_of w' = fs_of w
    else opened (fs_of w) !! h = None /\ fs_of w' = fs_open h (resolve path) (how_of_access access disposition) (fs_of w) /\
      (disposition = OPEN_EXISTING -> is_Some (files (fs_of w) !! resolve path));
  win_named_read h n w r w' : ReadFile h n w = (r, w') ->
    fs_of w' = match r with SysOk bs => fs_advance h (length bs) (fs_of w) | SysErr _ => fs_of w end;
  win_named_unread h w : win_unread h w = fs_unread h (fs_of w);
  win_named_write h bs w r w' : WriteFile h bs w = (r, w') ->
    fs_of w' = match r with SysOk n => fs_store h (take n bs) (fs_of w) | SysErr _ => fs_of w end;
  win_named_close h w r w' : CloseHandle h w = (r, w') -> fs_of w' = fs_close h (fs_of w)
}.

Class NamedHost (W : Type) `{!FileHost W, !NamedFiles W} : Prop := {
  host_open path mode w r w' : os_open path mode w = (r, w') ->
    match r with
    | SysOk h => opened (fs_of w) !! h = None /\ fs_of w' = fs_open h (resolve (c_str path)) (how_of_mode mode) (fs_of w) /\
        (creating (how_of_mode mode) = false -> is_Some (files (fs_of w) !! resolve (c_str path)))
    | SysErr _ => fs_of w' = fs_of w
    end;
  host_read h n w r w' : os_read h n w = (r, w') ->
    fs_of w' = match r with SysOk bs => fs_advance h (length bs) (fs_of w) | SysErr _ => fs_of w end;
  host_unread h w : unread h w = fs_unread h (fs_of w);
  host_write h src w r w' : os_write_all h src w = (r, w') ->
    exists put rest, src = put ++ rest /\ fs_of w' = fs_store h put (fs_of w) /\ (r = SysOk tt -> rest = []);
  host_close h w r w' : os_close h w = (r, w') -> fs_of w' = fs_close h (fs_of w)
}.

(** ** Storing is a text action *)

Lemma overwrite_app k a b t : overwrite (k + length a) b (overwrite k a t) = overwrite k (a ++ b) t.
Proof.
  unfold overwrite. set (front := take k (t ++ replicate (k - length t) "000"%char)).
  assert (length front = k) as Hf by (unfold front; rewrite length_take, length_app, length_replicate; lia).
  assert (take (k + length a) ((front ++ a ++ drop (k + length a) t) ++
    replicate (k + length a - length (front ++ a ++ drop (k + length a) t)) "000"%char) = front ++ a) as ->.
  { generalize (replicate (k + length a - length (front ++ a ++ drop (k + length a) t)) "000"%char) as pad. intros pad.
    rewrite (app_assoc front a), <- app_assoc. apply take_app_length'. rewrite length_app. lia. }
  rewrite length_app, <- !app_assoc. do 3 f_equal. rewrite app_assoc, drop_app_ge by (rewrite length_app; lia).
  rewrite length_app, drop_drop. f_equal. lia.
Qed.

#[export] Instance fs_store_action h : TextAction (fs_store h).
Proof.
  split; [intros s; unfold fs_store; by destruct (opened s !! h)|]. intros a b s. destruct a as [|x a]; [unfold fs_store at 2; by destruct (opened s !! h)|].
  destruct b as [|y b]; [rewrite app_nil_r; unfold fs_store at 1; by case_match|].
  unfold fs_store at 2 3. destruct (opened s !! h) as [d|] eqn:E; [|unfold fs_store; by rewrite E]. unfold fs_store, text_of. simpl.
  rewrite !lookup_insert_eq, !insert_insert_eq. simpl. unfold moved. simpl. f_equal.
  - f_equal. unfold put_at. simpl. destruct (appending d); [by rewrite <- app_assoc|]. by apply (overwrite_app (offset d) (x :: a) (y :: b)).
  - f_equal. f_equal. rewrite length_app. simpl. lia.
Qed.

(** ** Both hosts keep the laws *)

Section posix.
Context {W : Type} `{!FileOs W, !FileOsLaws W, !NamedFiles W, !NamedFilesLaws W}.

Lemma posix_how mode : how_of_flags (PosixHost.open_flags mode) = how_of_mode mode.
Proof. by destruct mode. Qed.

Lemma posix_creates mode : creating (how_of_mode mode) = false -> O_CREAT ∉ PosixHost.open_flags mode.
Proof. rewrite <- posix_how. by intros ?%bool_decide_eq_false. Qed.

(** An interrupted call leaves the files alone. *)
Lemma named_interruptible {A} (sys : W -> sysret A * W) fs :
  (forall w w' e, sys w = (SysErr e, w') -> fs_of w' = fs_of w) ->
  (forall w w', sys w = (SysErr EINTR, w') -> patience w' < patience w) ->
  interruptible PosixHost.is_interrupted patience (fun w => fs_of w = fs) sys.
Proof. intros Hs Hp w w' e <- E ->%Z.eqb_eq. split; [by eapply Hs|by apply Hp]. Qed.

Lemma named_write_progresses h : put_progresses (sys_write h) PosixHost.is_interrupted fs_of (fs_store h) patience.
Proof.
  intros bs w [n|e] w' E; pose proof (named_write _ _ _ _ _ E) as Hn.
  - destruct (write_ok _ _ _ _ _ E) as (? & _ & ?). split_and!; try done. by eapply write_patience.
  - split; [done|]. intros ->%Z.eqb_eq. by eapply write_interrupted.
Qed.

#[export] Instance posix_named : NamedHost W.
Proof.
  split.
  - intros path mode w r w' E.
    destruct (retry_spec _ patience _ _ w r w' (named_interruptible (sys_open (c_str path) (PosixHost.open_flags mode)) (fs_of w)
      (fun _ _ _ => named_open _ _ _ _ _) (fun _ _ => open_interrupted _ _ _ _)) eq_refl E) as (_ & w1 & Hw1 & Es & _).
    apply named_open in Es. rewrite posix_how, Hw1 in Es. destruct r as [h|e]; [|done]. destruct Es as (H1 & H2 & H3).
    split_and!; [done..|]. intros Hc. by apply H3, posix_creates.
  - intros h n w r w' E.
    destruct (retry_spec _ patience _ _ w r w' (named_interruptible (sys_read h n) (fs_of w)
      (fun _ _ _ => named_read _ _ _ _ _) (fun _ _ => read_interrupted _ _ _ _)) eq_refl E) as (_ & w1 & Hw1 & Es & _).
    apply named_read in Es. by rewrite Es, Hw1.
  - intros h w. apply named_unread.
  - intros h src w r w' E. by apply (write_all_spec _ _ _ _ _ (named_write_progresses h)) in E as [_ ?].
  - intros h w r w' E. simpl in E. unfold PosixHost.os_close in E. destruct (sys_close h w) as [[u|e] w1] eqn:Es; apply named_close in Es;
      repeat case_match; by simplify_eq.
Qed.

End posix.

Section windows.
Context {W : Type} `{!WinFileOs W, !WinFileOsLaws W, !NamedFiles W, !WinNamedFilesLaws W}.

Lemma windows_named_progresses h :
  put_progresses (WindowsHost.write_chunk h) (fun _ => false) fs_of (fs_store h) win_patience.
Proof.
  intros bs w r w' E. pose proof (WindowsHost.write_file_progresses h bs w r w' E) as Hp. unfold WindowsHost.write_chunk in E.
  destruct (WriteFile h _ w) as [[n|e] w1] eqn:Es; simplify_eq; pose proof (win_named_write _ _ _ _ _ Es) as Hn; simpl in Hn; [|by destruct Hp].
  destruct (WriteFile_ok _ _ _ _ _ Es) as (Hle & _). rewrite length_take in Hle. rewrite take_take, Nat.min_l in Hn by lia.
  destruct Hp as (H1 & _ & H3 & H4). by split_and!.
Qed.

#[export] Instance windows_named : NamedHost W.
Proof.
  split.
  - intros path mode w r w' E. simpl in E. unfold WindowsHost.os_open in E. destruct (WindowsHost.open_mode mode) as [access disp] eqn:Em.
    destruct (CreateFileA _ _ _ _ w) as [[h e] w1] eqn:Ec. apply win_named_open in Ec. destruct (h =? INVALID_HANDLE_VALUE)%Z; simplify_eq; [done|].
    destruct Ec as (H1 & H2 & H3). split; [done|]. split; [rewrite H2; by destruct mode; simplify_eq/=|]. intros Hc. apply H3. by destruct mode; simplify_eq/=.
  - intros h n w r w' E. simpl in E. unfold WindowsHost.os_read in E. destruct (ReadFile h _ w) as [[bs|e] w1] eqn:Es; apply win_named_read in Es; by simplify_eq.
  - intros h w. apply win_named_unread.
  - intros h src w r w' E. by apply (write_all_spec _ _ _ _ _ (windows_named_progresses h)) in E as [_ ?].
  - intros h w r w' E. simpl in E. unfold WindowsHost.os_close in E. destruct (CloseHandle h w) as [[u|e] w1] eqn:Es; apply win_named_close in Es; by simplify_eq.
Qed.

End windows.

(** ** A disk in memory, whose calls go wrong as a list of faults says *)

Record disk_world := DiskWorld { disk_fs : fsys; disk_log : gmap Z text; disk_next : nat; disk_faults : list fault }.

Definition take_fault (w : disk_world) : option fault * disk_world :=
  match disk_faults w with [] => (None, w) | f :: fs => (Some f, DiskWorld (disk_fs w) (disk_log w) (disk_next w) fs) end.

Definition with_fs (w : disk_world) (fs : fsys) : disk_world := DiskWorld fs (disk_log w) (disk_next w) (disk_faults w).

Definition disk_open (path : text) (flags : list open_flag) (w : disk_world) : sysret Z * disk_world :=
  let how := how_of_flags flags in
  let h := Z.of_nat (disk_next w) in
  if bool_decide (is_Some (opened (disk_fs w) !! h)) then (SysErr 24, w)
  else if creating how || bool_decide (is_Some (files (disk_fs w) !! path)) then
    (SysOk h, DiskWorld (fs_open h path how (disk_fs w)) (disk_log w) (S (disk_next w)) (disk_faults w))
  else (SysErr 2, w).

Definition disk_read (h : Z) (n : nat) (w : disk_world) : sysret text * disk_world :=
  let bs := take n (fs_unread h (disk_fs w)) in (SysOk bs, with_fs w (fs_advance h (length bs) (disk_fs w))).

Definition disk_write (h : Z) (bs : text) (w : disk_world) : sysret nat * disk_world :=
  (SysOk (length bs),
   DiskWorld (fs_store h bs (disk_fs w)) (<[h := default [] (disk_log w !! h) ++ bs]> (disk_log w)) (disk_next w) (disk_faults w)).

#[export] Instance disk_os : FileOs disk_world := {
  EINTR := 4;
  patience w := length (disk_faults w);
  sys_open path flags w :=
    match take_fault w with
    | (Some Interrupted, w) => (SysErr 4, w)
    | (Some (Fails e), w) => (SysErr (if (e =? 4)%Z then 5 else e), w)
    | (_, w) => disk_open path flags w
    end;
  sys_read h n w :=
    match take_fault w with
    | (Some Interrupted, w) => (SysErr 4, w)
    | (Some (Fails e), w) => (SysErr (if (e =? 0)%Z then 5 else e), w)
    | (Some (Short m), w) => disk_read h (min n (S m)) w
    | (None, w) => disk_read h n w
    end;
  sys_write h bs w :=
    match take_fault w with
    | (Some Interrupted, w) => (SysErr 4, w)
    | (Some (Fails e), w) => (SysErr e, w)
    | (Some (Short m), w) => disk_write h (take m bs) w
    | (None, w) => disk_write h bs w
    end;
  sys_close h w :=
    match take_fault w with
    | (Some (Fails e), w) => (SysErr e, with_fs w (fs_close h (disk_fs w)))
    | (_, w) => (SysOk tt, with_fs w (fs_close h (disk_fs w)))
    end;
  file_contents h w := default [] (disk_log w !! h);
  file_unread h w := fs_unread h (disk_fs w)
}.

Lemma unread_advance h k fs : fs_unread h (fs_advance h k fs) = drop k (fs_unread h fs).
Proof.
  unfold fs_unread, fs_advance, text_of. simpl. rewrite lookup_alter_eq. destruct (opened fs !! h) as [d|]; simpl; [|by rewrite drop_nil].
  destruct (reading d); [by rewrite drop_drop|by rewrite drop_nil].
Qed.

Lemma disk_read_spec h n w :
  let bs := take n (fs_unread h (disk_fs w)) in let w' := snd (disk_read h n w) in
  length bs <= n /\ fs_unread h (disk_fs w) = bs ++ fs_unread h (disk_fs w') /\ (bs = [] -> 0 < n -> fs_unread h (disk_fs w) = []).
Proof.
  simpl. rewrite unread_advance, length_take. split_and!; [lia| |by apply read_some].
  destruct (decide (n <= length (fs_unread h (disk_fs w)))).
  - rewrite Nat.min_l by done. by rewrite take_drop.
  - rewrite Nat.min_r by lia. rewrite drop_all, app_nil_r, take_ge by lia. done.
Qed.

Ltac disk_calls :=
  unfold take_fault, disk_open; simpl; repeat (case_match; simplify_eq/=); intros; simplify_eq/=.

Lemma disk_write_spec h bs w n w' : disk_write h bs w = (SysOk n, w') ->
  n = length bs /\ default [] (disk_log w' !! h) = default [] (disk_log w !! h) ++ bs /\ disk_faults w' = disk_faults w.
Proof. unfold disk_write. intros E. simplify_eq/=. by rewrite lookup_insert_eq. Qed.

#[export] Instance disk_laws : FileOsLaws disk_world.
Proof.
  split; intros *; destruct w as [fs log nx [|[|m|e0] fa]];
    cbn [sys_open sys_read sys_write sys_close disk_os patience EINTR file_contents file_unread];
    try solve [unfold disk_read, disk_write; disk_calls; bools; try done; try lia];
    unfold take_fault; cbn [disk_faults disk_fs disk_log disk_next].
  - intros E. pose proof (disk_read_spec h n (DiskWorld fs log nx [])) as Hs. unfold disk_read in E. by injection E as <- <-.
  - intros E. pose proof (disk_read_spec h (min n (S m)) (DiskWorld fs log nx fa)) as (H1 & H2 & H3). unfold disk_read in E. injection E as <- <-.
    cbn [disk_fs] in H1. split_and!; [lia|done|intros; apply H3; [done|lia]].
  - intros (-> & Hl & Hf)%disk_write_spec. rewrite firstn_all. split_and!; [done..|]. intros Hz Hb. by destruct bs.
  - intros (-> & Hl & Hf)%disk_write_spec. simpl in *. rewrite Hf. split_and!; [rewrite length_take; lia|by rewrite Hl, take_length_take|intros; lia].
Qed.

Lemma disk_open_spec path flags w r w' : disk_open path flags w = (r, w') ->
  match r with
  | SysOk h => opened (disk_fs w) !! h = None /\ disk_fs w' = fs_open h path (how_of_flags flags) (disk_fs w) /\
      (O_CREAT ∉ flags -> is_Some (files (disk_fs w) !! path))
  | SysErr _ => disk_fs w' = disk_fs w
  end.
Proof.
  unfold disk_open. case_bool_decide as Ho; [intros E; by simplify_eq|].
  destruct (creating (how_of_flags flags) || bool_decide _) eqn:Ec; intros E; simplify_eq; [|done]. split_and!; [by apply eq_None_not_Some|done|].
  intros Hc. apply orb_true_iff in Ec as [Ec|Ec]; [|by apply bool_decide_eq_true in Ec]. simpl in Ec. by apply bool_decide_eq_true in Ec.
Qed.

#[export] Instance disk_named : NamedFiles disk_world := { fs_of := disk_fs; resolve path := path }.

#[export] Instance disk_named_laws : NamedFilesLaws disk_world.
Proof.
  split; cbn [fs_of resolve disk_named]; intros *; destruct w as [fs log nx [|[|m|e0] fa]]; cbn [sys_open sys_read sys_write sys_close disk_os file_unread];
    unfold take_fault; cbn [disk_faults disk_fs disk_log disk_next]; try done;
    try solve [unfold disk_read, disk_write; intros E; by injection E as <- <-].
  - apply (disk_open_spec path flags (DiskWorld fs log nx [])).
  - apply (disk_open_spec path flags (DiskWorld fs log nx fa)).
  - unfold disk_write. intros E. injection E as <- <-. simpl. by rewrite firstn_all.
  - unfold disk_write. intros E. injection E as <- <-. simpl. by rewrite take_length_take.
Qed.

(** The same disk, as Windows would serve it. *)
#[export] Instance win_named {W} `{!NamedFiles W} : NamedFiles (win_file W) := { fs_of w := fs_of (disk_file w); resolve := resolve }.

#[export] Instance win_named_laws {W} `{!FileOs W, !FileOsLaws W, !NamedFiles W, !NamedFilesLaws W} : WinNamedFilesLaws (win_file W).
Proof.
  split.
  - intros path access share disp w h e w' E. cbn [CreateFileA win_memory] in E.
    destruct (sys_open path _ (disk_file w)) as [[h1|e1] w1] eqn:Eo; pose proof (named_open _ _ _ _ _ Eo) as Hn; simplify_eq/=; [|done].
    apply open_handle in Eo. destruct (Z.eqb_spec h INVALID_HANDLE_VALUE); [unfold INVALID_HANDLE_VALUE in *; lia|].
    destruct Hn as (H1 & H2 & H3). split; [done|]. split; [rewrite H2; by destruct access, disp|]. intros ->. apply H3. by destruct access; apply (bool_decide_unpack _).
  - intros h n w r w' E. cbn [ReadFile win_memory] in E.
    destruct r; [apply served_ok in E as (m & E & ->)|apply served_err in E as (e' & m & E & -> & _)]; by apply named_read in E.
  - intros h w. exact (named_unread h (disk_file w)).
  - intros h bs w r w' E. cbn [WriteFile win_memory] in E.
    destruct r; [apply served_ok in E as (m & E & ->)|apply served_err in E as (e' & m & E & -> & _)]; by apply named_write in E.
  - intros h w r w' E. cbn [CloseHandle win_memory] in E.
    destruct r; [apply served_ok in E as (m & E & ->)|apply served_err in E as (e' & m & E & -> & _)]; by apply named_close in E.
Qed.
