(* ===== verification/FileStream.v ===== *)
(** * FileStream (file_stream.hpp, file_stream.cpp): buffered files

    The stream is its data members; the operations pass the outside world along and reach it through the four functions of
    [FileHost] only, so that every theorem holds on POSIX and on Windows.  Sizes are [nat]: the sums the code forms
    stay below the buffer's size. *)

From S2P Require Import Prelude Posix FileHost.

Record file_stream := FileStream {
  handle_ : Z;
  buffer_ : text;
  buffer_pos_ : nat;
  buffer_len_ : nat;
  mode_ : FileMode;
  error_ : Z;
  eof_ : bool
}.

(** The default constructor, and the accessors. *)
Definition closed_stream : file_stream := FileStream invalid_handle [] 0 0 read_mode 0 false.
Definition is_open (s : file_stream) : bool := negb (handle_ s =? invalid_handle)%Z.
Definition buffer_size (s : file_stream) : nat := length (buffer_ s).

Definition set_error (s : file_stream) (e : Z) : file_stream :=
  FileStream (handle_ s) (buffer_ s) (buffer_pos_ s) (buffer_len_ s) (mode_ s) e (eof_ s).
Definition set_window (s : file_stream) (pos len : nat) : file_stream :=
  FileStream (handle_ s) (buffer_ s) pos len (mode_ s) (error_ s) (eof_ s).
Definition set_buffer (s : file_stream) (b : text) : file_stream :=
  FileStream (handle_ s) b (buffer_pos_ s) (buffer_len_ s) (mode_ s) (error_ s) (eof_ s).
Definition set_handle (s : file_stream) (h : Z) : file_stream :=
  FileStream h (buffer_ s) (buffer_pos_ s) (buffer_len_ s) (mode_ s) (error_ s) (eof_ s).
Definition set_eof (s : file_stream) : file_stream :=
  FileStream (handle_ s) (buffer_ s) (buffer_pos_ s) (buffer_len_ s) (mode_ s) (error_ s) true.

Section streams.
Context {W : Type} `{!FileHost W}.

(** ** Opening and closing *)

Definition open (path : text) (mode : FileMode) (buffer_size : nat) (w : W) : file_stream * W :=
  let s := FileStream invalid_handle (replicate (max buffer_size 1) "000"%char) 0 0 mode 0 false in
  match os_open path mode w with
  | (SysErr e, w) => (set_error s e, w)
  | (SysOk h, w) => (set_handle s h, w)
  end.

Definition flush_buffer (s : file_stream) (w : W) : bool * file_stream * W :=
  if (buffer_pos_ s =? 0)%nat then (true, s, w)
  else
    match os_write_all (handle_ s) (take (buffer_pos_ s) (buffer_ s)) w with
    | (SysErr e, w) => (false, set_error s e, w)
    | (SysOk _, w) => (true, set_window s 0 (buffer_len_ s), w)
    end.

Definition writes (m : FileMode) : bool := match m with read_mode => false | write_mode | append_mode => true end.

Definition close (s : file_stream) (w : W) : bool * file_stream * W :=
  if is_open s then
    let '(ok, s, w) := if writes (mode_ s) then flush_buffer s w else (true, s, w) in
    let '(r, w) := os_close (handle_ s) w in
    let '(ok, s) := match r with SysErr e => (false, set_error s e) | SysOk _ => (ok, s) end in
    (ok, set_handle (set_window s 0 0) invalid_handle, w)
  else (true, s, w).

(** The destructor. *)
Definition destroy (s : file_stream) (w : W) : W := let '(_, _, w) := close s w in w.

(** Moves: the new stream, and what is left of the source (its vector is moved out: empty). *)
Definition move_construct (other : file_stream) : file_stream * file_stream :=
  (other, set_handle (set_window (set_buffer other []) 0 0) invalid_handle).

(** [*this = std::move(other)] for two different objects; the result of [close] is dropped. *)
Definition move_assign (s other : file_stream) (w : W) : file_stream * file_stream * W :=
  let '(_, _, w) := close s w in
  let '(s, other) := move_construct other in
  (s, other, w).

(** ** Reading *)

(** [os_read] fills a prefix of the buffer. *)
Definition fill_buffer (s : file_stream) (w : W) : bool * file_stream * W :=
  let s := set_window s 0 0 in
  match os_read (handle_ s) (length (buffer_ s)) w with
  | (SysErr e, w) => (false, set_error s e, w)
  | (SysOk [], w) => (false, set_eof s, w)
  | (SysOk bs, w) => (true, set_window (set_buffer s (bs ++ drop (length bs) (buffer_ s))) 0 (length bs), w)
  end.

(** [buffer_pos_ >= buffer_len_ && !fill_buffer()], negated. *)
Definition have_bytes (s : file_stream) (w : W) : bool * file_stream * W :=
  if (buffer_len_ s <=? buffer_pos_ s)%nat then fill_buffer s w else (true, s, w).

Definition window (s : file_stream) : text := take (buffer_len_ s - buffer_pos_ s) (drop (buffer_pos_ s) (buffer_ s)).

(** [total] is the length of [got], the bytes copied into [dst] so far; each turn copies one at
    least, so [n] turns are enough. *)
Fixpoint read_loop (fuel : nat) (s : file_stream) (n : nat) (got : text) (w : W) : text * file_stream * W :=
  match fuel with
  | O => (got, s, w)
  | S fuel =>
      if (length got <? n)%nat then
        let '(ok, s, w) := have_bytes s w in
        if ok then
          let bytes := take (n - length got) (window s) in
          read_loop fuel (set_window s (buffer_pos_ s + length bytes) (buffer_len_ s)) n (got ++ bytes) w
        else (got, s, w)
      else (got, s, w)
  end.

(** [read(dst)] with [dst.size() = n]: the bytes stored at the front of [dst]. *)
Definition read (s : file_stream) (n : nat) (w : W) : outcome (option text) * file_stream * W :=
  if is_open s then
    match mode_ s with
    | read_mode =>
        let '(got, s, w) := read_loop n s n [] w in
        (Ret (if bool_decide (got = []) && negb (error_ s =? 0)%Z then None else Some got), s, w)
    | _ => (Throw logic_error, s, w)
    end
  else (Ret None, s, w).

(** The characters before the first newline, and what follows it. *)
Fixpoint split_newline (t : text) : text * option text :=
  match t with
  | [] => ([], None)
  | c :: t => if Ascii.eqb c "010" then ([], Some t) else let '(l, r) := split_newline t in (c :: l, r)
  end.

(** [line.back() == '\r'] folded. *)
Definition fold_cr (line : text) : text :=
  match rev line with c :: l => if Ascii.eqb c "013" then rev l else line | [] => line end.

(** What ends the loop: a complete line, or end of file or error with the characters so far. *)
Inductive line_end : Type := Complete (line : text) | Partial (line : text).

Fixpoint line_loop (fuel : nat) (s : file_stream) (line : text) (w : W) : line_end * file_stream * W :=
  match fuel with
  | O => (Partial line, s, w)
  | S fuel =>
      let '(ok, s, w) := have_bytes s w in
      if ok then
        let '(chars, rest) := split_newline (window s) in
        match rest with
        | Some _ => (Complete (fold_cr (line ++ chars)), set_window s (buffer_pos_ s + (length chars + 1)) (buffer_len_ s), w)
        | None => line_loop fuel (set_window s (buffer_pos_ s + length chars) (buffer_len_ s)) (line ++ chars) w
        end
      else (Partial line, s, w)
  end.

(** Each turn but the last takes in at least one byte of the buffer or the file. *)
Definition read_line (s : file_stream) (w : W) : outcome (option text) * file_stream * W :=
  if is_open s then
    match mode_ s with
    | read_mode =>
        let '(e, s, w) := line_loop (2 + length (unread (handle_ s) w)) s [] w in
        match e with
        | Complete line => (Ret (Some line), s, w)
        | Partial line =>
            (Ret (if negb (error_ s =? 0)%Z then None else if bool_decide (line = []) then None else Some line), s, w)
        end
    | _ => (Throw logic_error, s, w)
    end
  else (Ret None, s, w).

(** ** Writing *)

Definition write (s : file_stream) (src : text) (w : W) : outcome bool * file_stream * W :=
  if is_open s then
    if writes (mode_ s) then
      if (length (buffer_ s) <=? length src)%nat then
        let '(ok, s, w) := flush_buffer s w in
        if ok then
          match os_write_all (handle_ s) src w with
          | (SysErr e, w) => (Ret false, set_error s e, w)
          | (SysOk _, w) => (Ret true, s, w)
          end
        else (Ret false, s, w)
      else
        let '(ok, s, w) :=
          if (length (buffer_ s) <? buffer_pos_ s + length src)%nat then flush_buffer s w else (true, s, w) in
        if ok then
          (Ret true,
           set_window (set_buffer s (take (buffer_pos_ s) (buffer_ s) ++ src ++ drop (buffer_pos_ s + length src) (buffer_ s)))
             (buffer_pos_ s + length src) (buffer_len_ s), w)
        else (Ret false, s, w)
    else (Throw logic_error, s, w)
  else (Ret false, s, w).

Definition flush (s : file_stream) (w : W) : bool * file_stream * W :=
  if is_open s then
    match mode_ s with read_mode => (true, s, w) | _ => flush_buffer s w end
  else (false, s, w).

(** ** What a write leaves in the file *)

Context `{!FileHostLaws W}.

(** What a stream has accepted but not handed over yet. *)
Definition pending (s : file_stream) : text := take (buffer_pos_ s) (buffer_ s).

Definition writer (s : file_stream) : Prop :=
  is_open s = true /\ writes (mode_ s) = true /\ buffer_pos_ s <= length (buffer_ s).

Lemma pending_flushed s : buffer_pos_ s = 0 -> pending s = [].
Proof. unfold pending. by intros ->. Qed.

(** [view] is any part of the world that writing to [h] changes as [act] says: the file, its log. *)
Section effect.
Context (h : Z) {S : Type} (view : W -> S) (act : text -> S -> S) `{!TextAction act}.

Definition stores : Prop :=
  forall src w r w', os_write_all h src w = (r, w') ->
  exists put rest, src = put ++ rest /\ view w' = act put (view w) /\ (r = SysOk tt -> rest = []).

Context (HS : stores).

Lemma os_write_all_stores src w w' : os_write_all h src w = (SysOk tt, w') -> view w' = act src (view w).
Proof. intros E. destruct (HS _ _ _ _ E) as (put & rest & -> & -> & Hr). by rewrite (Hr eq_refl), app_nil_r. Qed.

Lemma flush_buffer_stores s w s' w' :
  flush_buffer s w = (true, s', w') -> writer s -> handle_ s = h ->
  writer s' /\ handle_ s' = h /\ length (buffer_ s') = length (buffer_ s) /\ buffer_pos_ s' = 0 /\
  view w' = act (pending s) (view w).
Proof.
  intros E (Ho & Hm & Hp) Hh. unfold flush_buffer in E. unfold pending. destruct (Nat.eqb_spec (buffer_pos_ s) 0) as [Hz|Hz].
  - simplify_eq. rewrite Hz. simpl. by rewrite (act_nil (act:=act)).
  - rewrite Hh in E. destruct (os_write_all _ _ w) as [[[]|e] w1] eqn:Eo; simplify_eq. rewrite (os_write_all_stores _ _ _ Eo).
    unfold writer, is_open, set_window. simpl. split_and!; try done. lia.
Qed.

Lemma write_stores s src w s' w' :
  write s src w = (Ret true, s', w') -> writer s -> handle_ s = h ->
  writer s' /\ handle_ s' = h /\ exists out, view w' = act out (view w) /\ out ++ pending s' = pending s ++ src.
Proof.
  intros E Hw Hh. pose proof Hw as (Ho & Hm & Hp). unfold write in E. rewrite Ho, Hm in E. destruct (Nat.leb_spec (length (buffer_ s)) (length src)) as [Hlen|Hlen].
  - destruct (flush_buffer s w) as [[[] s1] w1] eqn:Ef; [|done]. destruct (flush_buffer_stores _ _ _ _ Ef Hw Hh) as (Hw1 & Hh1 & Hl & Hz & Hc).
    rewrite Hh1 in E. destruct (os_write_all _ src w1) as [[[]|e] w2] eqn:Eo; simplify_eq. apply os_write_all_stores in Eo.
    split; [done|]. split; [done|]. exists (pending s ++ src). rewrite Eo, Hc, (act_app (act:=act)), (pending_flushed s') by done. by rewrite app_nil_r.
  - assert (exists s1 w1 out, (if length (buffer_ s) <? buffer_pos_ s + length src then flush_buffer s w else (true, s, w)) = (true, s1, w1) /\
      writer s1 /\ handle_ s1 = h /\ buffer_pos_ s1 + length src <= length (buffer_ s1) /\
      view w1 = act out (view w) /\ out ++ pending s1 = pending s) as (s1 & w1 & out & E1 & Hw1 & Hh1 & Hfit & Hc & Hout).
    { destruct (Nat.ltb_spec (length (buffer_ s)) (buffer_pos_ s + length src)) as [Hlt|Hge].
      - destruct (flush_buffer s w) as [[[] s1] w1] eqn:Ef; [|done]. destruct (flush_buffer_stores _ _ _ _ Ef Hw Hh) as (Hw1 & Hh1 & Hl & Hz & Hc).
        exists s1, w1, (pending s). rewrite (pending_flushed s1), app_nil_r, Hz, Hl by done. split_and!; try done. lia.
      - exists s, w, []. by rewrite (act_nil (act:=act)). }
    rewrite E1 in E. simplify_eq/=. destruct Hw1 as (Ho1 & Hm1 & Hp1). rewrite <- Hout. unfold writer, is_open, pending, set_window, set_buffer in *. simpl in *.
    rewrite !length_app, length_take, length_drop. split_and!; try done; [lia|]. exists out. split; [done|].
    rewrite app_assoc, (take_app_length' (_ ++ src)), <- app_assoc; [done|]. rewrite length_app, length_take. lia.
Qed.

End effect.

(** The bytes the file is given. *)
Lemma contents_stored h : stores h (contents h) logged.
Proof. intros src w r w'. apply os_write_all_spec. Qed.

(** ** Sessions of a writing stream *)

Inductive command : Type := Write (src : text) | Flush.

Definition run_command (c : command) (s : file_stream) (w : W) : bool * file_stream * W :=
  match c with
  | Write src => let '(r, s, w) := write s src w in (match r with Ret ok => ok | Throw _ => false end, s, w)
  | Flush => flush s w
  end.

Fixpoint run (cs : list command) (s : file_stream) (w : W) : bool * file_stream * W :=
  match cs with
  | [] => (true, s, w)
  | c :: cs => let '(ok, s, w) := run_command c s w in if ok then run cs s w else (false, s, w)
  end.

Definition written (cs : list command) : text := concat (omap (fun c => match c with Write src => Some src | Flush => None end) cs).

Lemma run_stores h {S} (view : W -> S) act `{!TextAction act} (HS : stores h view act) cs s w s' w' :
  run cs s w = (true, s', w') -> writer s -> handle_ s = h ->
  writer s' /\ handle_ s' = h /\ exists out, view w' = act out (view w) /\ out ++ pending s' = pending s ++ written cs.
Proof.
  revert s w. induction cs as [|c cs IH]; intros s w E Hw Hh; simpl in E.
  - simplify_eq. split_and!; try done. exists []. rewrite (act_nil (act:=act)). unfold written. simpl. by rewrite app_nil_r.
  - destruct (run_command c s w) as [[[] s1] w1] eqn:Ec; [|done].
    assert (writer s1 /\ handle_ s1 = h /\ exists out, view w1 = act out (view w) /\ out ++ pending s1 = pending s ++ written [c]) as (Hw1 & Hh1 & out1 & Hc1 & Hout1).
    { destruct c as [src|]; simpl in Ec; unfold written; simpl; rewrite app_nil_r.
      - destruct (write s src w) as [[[[]|] s2] w2] eqn:Es; simplify_eq. by eapply write_stores.
      - pose proof Hw as (Ho & Hm & Hp). unfold flush in Ec. rewrite Ho in Ec.
        assert (flush_buffer s w = (true, s1, w1)) as Ef by (by destruct (mode_ s)).
        destruct (flush_buffer_stores h view act HS _ _ _ _ Ef Hw Hh) as (Hw1 & Hh1 & Hl & Hz & Hc). split; [done|]. split; [done|].
        exists (pending s). by rewrite (pending_flushed s1), app_nil_r. }
    destruct (IH _ _ E Hw1 Hh1) as (Hw' & Hh' & out & Hc & Hout). split; [done|]. split; [done|]. exists (out1 ++ out).
    rewrite Hc, Hc1, (act_app (act:=act)). split; [done|]. rewrite <- app_assoc, Hout, app_assoc, Hout1, <- app_assoc. f_equal.
    unfold written. simpl. by destruct c; simpl; rewrite ?app_nil_r.
Qed.

(** Nothing written is lost or reordered.  A stream opened for writing or appending, any sequence of writes of any sizes and
    flushes that all report success, then a close that reports success: the file holds what was there when it
    was opened, followed by the texts written, in order, whatever the buffer size, and however the system
    splits, delays or interrupts the calls. *)
Theorem successful_writes_reach_the_file path mode size cs w s1 w1 s2 w2 s3 w3 :
  open path mode size w = (s1, w1) -> is_open s1 = true -> writes mode = true ->
  run cs s1 w1 = (true, s2, w2) -> close s2 w2 = (true, s3, w3) ->
  contents (handle_ s1) w3 = contents (handle_ s1) w1 ++ written cs /\ is_open s3 = false.
Proof.
  intros Eo Ho Hm Er Ec.
  assert (writer s1 /\ pending s1 = []) as [Hw Hp].
  { unfold open in Eo. destruct (os_open path mode w) as [[h|e] w0]; simplify_eq; try done. split; [|done]. unfold writer; split_and!; try done; simpl; lia. }
  destruct (run_stores _ _ _ (contents_stored (handle_ s1)) _ _ _ _ _ Er Hw eq_refl) as (Hw2 & Hh2 & out & Hc2 & Hout). pose proof Hw2 as (Ho2 & Hm2 & _).
  unfold close in Ec. rewrite Ho2, Hm2 in Ec. destruct (flush_buffer s2 w2) as [[ok s4] w4] eqn:Ef.
  destruct (os_close (handle_ s4) w4) as [r w5] eqn:Es. pose proof (os_close_spec _ _ _ _ Es) as Hc5.
  assert (ok = true /\ w3 = w5 /\ is_open s3 = false) as (-> & -> & Hcl).
  { by destruct r; simplify_eq/=. }
  destruct (flush_buffer_stores _ _ _ (contents_stored (handle_ s1)) _ _ _ _ Ef Hw2 Hh2) as (_ & Hh4 & _ & _ & Hc4). split; [|done].
  rewrite Hh4 in Hc5. rewrite Hp in Hout. simpl in Hout. unfold logged in *. by rewrite Hc5, Hc4, Hc2, <- Hout, app_assoc.
Qed.

(** ** What a read returns *)

(** What a reader has still to see: the rest of the buffer, then the rest of the file. *)
Definition ahead (s : file_stream) (w : W) : text := window s ++ unread (handle_ s) w.

Definition reader (s : file_stream) : Prop :=
  is_open s = true /\ mode_ s = read_mode /\ buffer_pos_ s <= buffer_len_ s <= length (buffer_ s) /\ 0 < length (buffer_ s).

Lemma length_window s : reader s -> length (window s) = buffer_len_ s - buffer_pos_ s.
Proof. intros (_ & _ & Hp & _). unfold window. rewrite length_take, length_drop. lia. Qed.

Lemma window_empty s : reader s -> (buffer_len_ s <= buffer_pos_ s <-> window s = []).
Proof.
  intros H. rewrite <- length_zero_iff_nil, length_window by done. lia.
Qed.

(** Serving [k] bytes of the window. *)
Lemma window_advance s k : k <= length (window s) -> reader s ->
  let s' := set_window s (buffer_pos_ s + k) (buffer_len_ s) in
  reader s' /\ handle_ s' = handle_ s /\ error_ s' = error_ s /\ eof_ s' = eof_ s /\ window s' = drop k (window s).
Proof.
  intros Hk Hr. rewrite length_window in Hk by done. destruct Hr as (Ho & Hm & Hp & Hb). split_and!; try done.
  - unfold reader, is_open, set_window in *. simpl. split_and!; try done; lia.
  - unfold window, set_window. simpl. rewrite skipn_firstn_comm, drop_drop. f_equal. lia.
Qed.

Lemma have_bytes_spec s w ok s' w' :
  have_bytes s w = (ok, s', w') -> reader s ->
  reader s' /\ handle_ s' = handle_ s /\ ahead s' w' = ahead s w /\
  if ok then window s' <> [] /\ error_ s' = error_ s /\ (window s = [] -> length (unread (handle_ s) w') < length (unread (handle_ s) w)) /\
    (window s <> [] -> window s' = window s /\ w' = w)
  else window s' = [] /\ (error_ s' <> 0%Z \/ (error_ s' = error_ s /\ ahead s w = [] /\ eof_ s' = true)).
Proof.
  intros E Hr. unfold have_bytes in E. destruct (Nat.leb_spec (buffer_len_ s) (buffer_pos_ s)) as [Hle|Hgt].
  - pose proof (proj1 (window_empty s Hr) Hle) as Hw. pose proof Hr as (Ho & Hm & Hp & Hb). unfold fill_buffer in E.
    destruct (os_read _ _ w) as [r w1] eqn:Eo. pose proof (os_read_spec _ _ _ _ _ Eo) as Hs. simpl in Hs. destruct r as [[|b bs]|e]; simplify_eq/=.
    + destruct Hs as (_ & Hu & Hz). specialize (Hz eq_refl Hb). unfold ahead, reader, is_open. rewrite Hw, Hz. simpl.
      unfold window at 1. simpl. rewrite Hz in Hu. split_and!; try done; try lia. by right.
    + destruct Hs as (Hl & Hu & _). simpl in Hl.
      assert (window (set_window (set_buffer (set_window s 0 0) (b :: bs ++ drop (S (length bs)) (buffer_ s))) 0 (S (length bs))) = b :: bs) as Hw'.
      { unfold window. simpl. f_equal. by rewrite take_app_length. }
      unfold ahead. rewrite Hw'. unfold reader, is_open. simpl. rewrite Hw, length_app, length_drop. split_and!; try done; try lia.
      rewrite Hu. simpl. rewrite length_app. lia.
    + destruct Hs as (Hu & He). unfold ahead, reader, is_open. simpl. rewrite Hw, Hu. unfold window at 1. simpl. split_and!; try done; try lia; by left.
  - simplify_eq. assert (window s' <> []) as Hne by (rewrite <- (window_empty s' Hr); lia). split_and!; try done.
Qed.

Lemma read_loop_spec fuel s n got w got' s' w' :
  read_loop fuel s n got w = (got', s', w') -> reader s -> length got <= n -> n - length got <= fuel ->
  exists bs, got' = got ++ bs /\ ahead s w = bs ++ ahead s' w' /\ length got' <= n /\ reader s' /\ handle_ s' = handle_ s /\
    (error_ s' = error_ s \/ error_ s' <> 0%Z) /\ (length got' < n -> error_ s' <> 0%Z \/ (ahead s' w' = [] /\ eof_ s' = true)).
Proof.
  revert s got w. induction fuel as [|fuel IH]; intros s got w E Hr Hl Hf; simpl in E.
  - simplify_eq. exists []. rewrite app_nil_r. split_and!; try done; [by left|lia].
  - destruct (Nat.ltb_spec (length got) n) as [Hlt|Hge]; [|simplify_eq; exists []; rewrite app_nil_r; split_and!; try done; [by left|lia]].
    destruct (have_bytes s w) as [[ok s1] w1] eqn:Eh. destruct (have_bytes_spec _ _ _ _ _ Eh Hr) as (Hr1 & Hh1 & Ha1 & Hok). destruct ok.
    + destruct Hok as (Hne & He1 & _). set (k := length (take (n - length got) (window s1))) in *.
      assert (k <= length (window s1)) as Hk by (unfold k; rewrite length_take; lia).
      assert (0 < k) as Hk0 by (unfold k; rewrite length_take; destruct (window s1); [done|simpl; lia]).
      assert (take (n - length got) (window s1) = take k (window s1)) as Hbs by (unfold k; by rewrite take_length_take).
      assert (k <= n - length got) as Hkn by (unfold k; rewrite length_take; lia). rewrite Hbs in E. fold k in E.
      destruct (window_advance s1 k Hk Hr1) as (Hr2 & Hh2 & He2 & _ & Hw2). replace (length (take k (window s1))) with k in E by (rewrite length_take; lia). clearbody k.
      destruct (IH _ _ _ E Hr2) as (bs & -> & Ha & Hn & Hr' & Hh' & He' & Hs'); [rewrite length_app, length_take; lia..|].
      exists (take k (window s1) ++ bs). rewrite app_assoc. split; [done|]. split; [|rewrite He2, He1 in He'; by rewrite Hh', Hh2, Hh1].
      rewrite <- Ha1, <- app_assoc, <- Ha. unfold ahead. by rewrite Hw2, Hh2, app_assoc, take_drop.
    + simplify_eq. destruct Hok as [Hw0 Hend]. exists []. rewrite app_nil_r. split_and!; try done; [destruct Hend as [|(? & ? & ?)]; auto|].
      intros _. destruct Hend as [|(? & ? & ?)]; [by left|right]. split; [congruence|done].
Qed.

(** Reading does nothing to the world but read from the handle. *)
Section keeps.
Context (h : Z) (P : W -> Prop) (HP : forall n w r w', P w -> os_read h n w = (r, w') -> P w').

Lemma have_bytes_keeps s w ok s' w' : have_bytes s w = (ok, s', w') -> handle_ s = h -> P w -> handle_ s' = h /\ P w'.
Proof.
  unfold have_bytes, fill_buffer. intros E Hh Hw. destruct (Nat.leb_spec (buffer_len_ s) (buffer_pos_ s)); [|by simplify_eq].
  simpl in E. rewrite Hh in E. destruct (os_read h _ w) as [[[|b bs]|e] w1] eqn:Eo; simplify_eq/=; split; try done; by eapply HP.
Qed.

Lemma read_loop_keeps fuel s n got w got' s' w' :
  read_loop fuel s n got w = (got', s', w') -> handle_ s = h -> P w -> handle_ s' = h /\ P w'.
Proof.
  revert s got w. induction fuel as [|fuel IH]; intros s got w E Hh Hw; simpl in E; [by simplify_eq|].
  destruct (length got <? n); [|by simplify_eq]. destruct (have_bytes s w) as [[ok s1] w1] eqn:Eb.
  destruct (have_bytes_keeps _ _ _ _ _ Eb Hh Hw) as [Hh1 Hw1]. destruct ok; [by eapply IH|by simplify_eq].
Qed.

Lemma line_loop_keeps fuel s line w e s' w' :
  line_loop fuel s line w = (e, s', w') -> handle_ s = h -> P w -> handle_ s' = h /\ P w'.
Proof.
  revert s line w. induction fuel as [|fuel IH]; intros s line w E Hh Hw; simpl in E; [by simplify_eq|].
  destruct (have_bytes s w) as [[ok s1] w1] eqn:Eb. destruct (have_bytes_keeps _ _ _ _ _ Eb Hh Hw) as [Hh1 Hw1].
  destruct ok; [|by simplify_eq]. destruct (split_newline (window s1)) as [chars [rest|]]; [by simplify_eq|by eapply IH].
Qed.

Lemma read_keeps s n w r s' w' : read s n w = (r, s', w') -> handle_ s = h -> P w -> handle_ s' = h /\ P w'.
Proof.
  unfold read. intros E Hh Hw. destruct (is_open s); [|by injection E as _ <- <-]. destruct (mode_ s); [|by injection E as _ <- <-..].
  destruct (read_loop n s n [] w) as [[got s1] w1] eqn:El. injection E as _ <- <-. by eapply read_loop_keeps.
Qed.

Lemma read_line_keeps s w r s' w' : read_line s w = (r, s', w') -> handle_ s = h -> P w -> handle_ s' = h /\ P w'.
Proof.
  unfold read_line. intros E Hh Hw. destruct (is_open s); [|by injection E as _ <- <-]. destruct (mode_ s); [|by injection E as _ <- <-..].
  destruct (line_loop _ s [] w) as [[e s1] w1] eqn:El. assert (s1 = s' /\ w1 = w') as [<- <-] by (destruct e; by injection E as _ <- <-).
  by eapply line_loop_keeps.
Qed.
End keeps.

Fixpoint run_reads (ns : list nat) (s : file_stream) (w : W) : list (option text) * file_stream * W :=
  match ns with
  | [] => ([], s, w)
  | n :: ns =>
      let '(r, s, w) := read s n w in
      let '(rs, s, w) := run_reads ns s w in
      ((match r with Ret r => r | Throw _ => None end) :: rs, s, w)
  end.

Lemma read_exact s n w :
  reader s ->
  exists r s' w', read s n w = (Ret r, s', w') /\ reader s' /\ handle_ s' = handle_ s /\ ahead s w = default [] r ++ ahead s' w' /\
    match r with
    | Some bs => length bs <= n /\ (length bs < n -> error_ s' <> 0%Z \/ (ahead s' w' = [] /\ eof_ s' = true))
    | None => error_ s' <> 0%Z
    end.
Proof.
  intros Hr. pose proof Hr as (Ho & Hm & _). unfold read. rewrite Ho, Hm. destruct (read_loop n s n [] w) as [[got s'] w'] eqn:E.
  destruct (read_loop_spec _ _ _ _ _ _ _ _ E Hr) as (bs & -> & Ha & Hl & Hr' & Hh & _ & Hs); [simpl; lia..|]. simpl in *.
  eexists _, s', w'. split; [done|]. split; [done|]. split; [done|]. case_bool_decide as Eb; simpl; [|done]. subst bs.
  destruct (Z.eqb_spec (error_ s') 0); simpl; done.
Qed.

Lemma run_reads_spec ns s w rs s' w' :
  run_reads ns s w = (rs, s', w') -> reader s -> reader s' /\ handle_ s' = handle_ s /\ ahead s w = concat (map (default []) rs) ++ ahead s' w'.
Proof.
  revert s w rs. induction ns as [|n ns IH]; intros s w rs E Hr; simpl in E; [by simplify_eq|].
  destruct (read_exact s n w Hr) as (r & s1 & w1 & Ern & Hr1 & Hh1 & Ha1 & _). rewrite Ern in E.
  destruct (run_reads ns s1 w1) as [[rs1 s2] w2] eqn:E1. simplify_eq. destruct (IH _ _ _ E1 Hr1) as (Hr' & Hh' & Ha').
  split_and!; [done|congruence|]. simpl. by rewrite Ha1, Ha', app_assoc.
Qed.

Lemma opened_reader path size w s w' :
  open path read_mode size w = (s, w') -> is_open s = true -> reader s /\ ahead s w' = unread (handle_ s) w'.
Proof.
  unfold open. destruct (os_open path read_mode w) as [[h|e] w1]; intros E Ho; simplify_eq; try done. split; [|done].
  unfold reader. cbn -[replicate]. rewrite length_replicate. split_and!; try done; lia.
Qed.

(** C36. Reads return the file.  A stream opened for reading, any sequence of reads of any sizes: the bytes returned, one read after
    another, are a prefix of the file, nothing is skipped or repeated (also not around errors), and what follows is still to be
    read.  Each read returns at most what was asked; it returns less only at the end of the file, with [eof()] set, or
    when a call has failed; it reports failure only if one has. *)
Theorem reads_return_the_file path size ns n w s1 w1 rs s2 w2 :
  open path read_mode size w = (s1, w1) -> is_open s1 = true -> run_reads ns s1 w1 = (rs, s2, w2) ->
  exists r s3 w3, read s2 n w2 = (Ret r, s3, w3) /\
    unread (handle_ s1) w1 = concat (map (default []) (rs ++ [r])) ++ ahead s3 w3 /\
    match r with
    | Some bs => length bs <= n /\ (length bs < n -> error_ s3 <> 0%Z \/ (ahead s3 w3 = [] /\ eof_ s3 = true))
    | None => error_ s3 <> 0%Z
    end.
Proof.
  intros Eo Ho Er. destruct (opened_reader _ _ _ _ _ Eo Ho) as [Hr Ha].
  destruct (run_reads_spec _ _ _ _ _ _ Er Hr) as (Hr2 & Hh2 & Ha2). destruct (read_exact s2 n w2 Hr2) as (r & s3 & w3 & Ern & _ & _ & Ha3 & Hres).
  exists r, s3, w3. split; [done|]. split; [|done]. rewrite <- Ha, Ha2, Ha3, map_app, concat_app. simpl. by rewrite app_nil_r, app_assoc.
Qed.

(** ** Lines *)

Definition no_newline (t : text) : Prop := "010"%char ∉ t.

Lemma split_newline_spec t :
  match split_newline t with
  | (l, Some r) => t = l ++ "010"%char :: r /\ no_newline l
  | (l, None) => t = l /\ no_newline l
  end.
Proof.
  unfold no_newline. induction t as [|c t IH]; simpl; [split; [done|apply not_elem_of_nil]|]. destruct (Ascii.eqb_spec c "010"%char) as [->|Hn].
  - split; [done|apply not_elem_of_nil].
  - destruct (split_newline t) as [l [r|]]; destruct IH as [-> Hl]; (split; [done|]); rewrite not_elem_of_cons; split; congruence.
Qed.

Lemma line_loop_spec fuel s line w e s' w' :
  line_loop fuel s line w = (e, s', w') -> reader s -> length (unread (handle_ s) w) + (if bool_decide (window s = []) then 0 else 1) < fuel ->
  reader s' /\ handle_ s' = handle_ s /\ (error_ s <> 0%Z -> error_ s' <> 0%Z) /\
  match e with
  | Complete l => exists chars, no_newline chars /\ l = fold_cr (line ++ chars) /\ ahead s w = chars ++ "010"%char :: ahead s' w'
  | Partial l => exists chars, no_newline chars /\ l = line ++ chars /\ ahead s w = chars ++ ahead s' w' /\
      (error_ s' <> 0%Z \/ (ahead s' w' = [] /\ eof_ s' = true))
  end.
Proof.
  revert s line w. induction fuel as [|fuel IH]; intros s line w E Hr Hf; [lia|]. simpl in E.
  destruct (have_bytes s w) as [[ok s1] w1] eqn:Eh. destruct (have_bytes_spec _ _ _ _ _ Eh Hr) as (Hr1 & Hh1 & Ha1 & Hok). destruct ok.
  - destruct Hok as (Hne & He1 & Hfill & Hkeep). pose proof (split_newline_spec (window s1)) as Hsp. destruct (split_newline (window s1)) as [chars [rest|]].
    + destruct Hsp as [Hw Hnn]. simplify_eq.
      destruct (window_advance s1 (length chars + 1)) as (Hr2 & Hh2 & He2 & _ & Hw2); [rewrite Hw, length_app; simpl; lia|done|].
      split_and!; [done|congruence|congruence|]. exists chars. split_and!; try done. rewrite <- Ha1. unfold ahead. rewrite Hw2, Hh2, Hw.
      rewrite <- drop_drop, drop_app_length. simpl. by rewrite <- app_assoc.
    + destruct Hsp as [Hw Hnn]. destruct (window_advance s1 (length chars)) as (Hr2 & Hh2 & He2 & _ & Hw2); [by rewrite Hw|done|].
      rewrite Hw, drop_ge in Hw2 by lia. destruct (IH _ _ _ E Hr2) as (Hr' & Hh' & Herr & He').
      { rewrite Hw2, Hh2, Hh1. simpl. case_bool_decide as Hw0; [specialize (Hfill Hw0); lia|]. destruct (Hkeep Hw0) as [_ ->]. lia. }
      split_and!; [done|congruence|intros Hs; apply Herr; congruence|]. assert (ahead s w = chars ++ ahead (set_window s1 (buffer_pos_ s1 + length chars) (buffer_len_ s1)) w1) as Ha.
      { rewrite <- Ha1. unfold ahead. by rewrite Hw2, Hh2, Hw. }
      assert (forall t, no_newline t -> no_newline (chars ++ t)) as Happ by (intros t Ht; unfold no_newline in *; rewrite elem_of_app; tauto).
      destruct e as [l|l]; destruct He' as (cs & Hcs & -> & Hrest).
      * exists (chars ++ cs). split; [by apply Happ|]. split; [by rewrite app_assoc|]. by rewrite Ha, Hrest, app_assoc.
      * destruct Hrest as [Hrest Hend]. exists (chars ++ cs). split; [by apply Happ|]. split; [by rewrite app_assoc|]. split; [by rewrite Ha, Hrest, app_assoc|done].
  - simplify_eq. destruct Hok as [Hw0 Hend]. split_and!; [done|done|destruct Hend as [|(? & _)]; congruence|]. exists []. split; [unfold no_newline; apply not_elem_of_nil|].
    rewrite app_nil_r. split; [done|]. split; [done|]. destruct Hend as [|(_ & Hz & He)]; [by left|right; split; [congruence|done]].
Qed.

Fixpoint run_lines (k : nat) (s : file_stream) (w : W) : list (option text) * file_stream * W :=
  match k with
  | O => ([], s, w)
  | S k =>
      let '(r, s, w) := read_line s w in
      let '(rs, s, w) := run_lines k s w in
      ((match r with Ret r => r | Throw _ => None end) :: rs, s, w)
  end.

(** What a line loop yields on a text that is known up to its first newline. *)
Lemma no_newline_first a b r r' :
  no_newline a -> no_newline b -> a ++ "010"%char :: r = b ++ "010"%char :: r' -> a = b /\ r = r'.
Proof.
  unfold no_newline. revert b. induction a as [|x a IH]; intros [|y b] Ha Hb E; simpl in E; [injection E as ->; done|injection E as E1 E2..].
  - exfalso. apply Hb. rewrite <- E1. by left.
  - exfalso. apply Ha. rewrite E1. by left.
  - subst y. rewrite not_elem_of_cons in Ha, Hb. destruct (IH b) as [-> ->]; [tauto|tauto|done|done].
Qed.

Lemma no_newline_none a b r : no_newline a -> a = b ++ "010"%char :: r -> False.
Proof. unfold no_newline. intros Ha ->. apply Ha, elem_of_app. right. by left. Qed.

Lemma read_line_terminated s w line rest :
  reader s -> ahead s w = line ++ "010"%char :: rest -> no_newline line ->
  exists r s' w', read_line s w = (Ret r, s', w') /\ reader s' /\ (error_ s <> 0%Z -> error_ s' <> 0%Z) /\ (error_ s' = 0%Z -> r = Some (fold_cr line) /\ ahead s' w' = rest).
Proof.
  intros Hr Ha Hl. pose proof Hr as (Ho & Hm & _). unfold read_line. rewrite Ho, Hm.
  destruct (line_loop _ s [] w) as [[e s'] w'] eqn:E. destruct (line_loop_spec _ _ _ _ _ _ _ E Hr) as (Hr' & Hh & Herr & He); [case_bool_decide; lia|].
  destruct e as [l|l]; destruct He as (chars & Hc & -> & Hrest).
  - eexists _, s', w'. split; [done|]. split; [done|]. split; [done|]. intros _. rewrite Ha in Hrest. by apply no_newline_first in Hrest as [-> ->].
  - destruct Hrest as [Hrest Hend]. eexists _, s', w'. split; [done|]. split; [done|]. split; [done|]. intros He. destruct Hend as [|[Hz _]]; [done|].
    rewrite Ha, Hz, app_nil_r in Hrest. exfalso. by eapply no_newline_none.
Qed.

Lemma read_line_last s w line :
  reader s -> ahead s w = line -> no_newline line ->
  exists r s' w', read_line s w = (Ret r, s', w') /\ reader s' /\ (error_ s <> 0%Z -> error_ s' <> 0%Z) /\
    (error_ s' = 0%Z -> r = (if bool_decide (line = []) then None else Some line) /\ ahead s' w' = [] /\ eof_ s' = true).
Proof.
  intros Hr Ha Hl. pose proof Hr as (Ho & Hm & _). unfold read_line. rewrite Ho, Hm.
  destruct (line_loop _ s [] w) as [[e s'] w'] eqn:E. destruct (line_loop_spec _ _ _ _ _ _ _ E Hr) as (Hr' & Hh & Herr & He); [case_bool_decide; lia|].
  destruct e as [l|l]; destruct He as (chars & Hc & -> & Hrest); [exfalso; rewrite Ha in Hrest; exact (no_newline_none _ _ _ Hl Hrest)|].
  destruct Hrest as [Hrest Hend]. eexists _, s', w'. split; [done|]. split; [done|]. split; [done|]. intros He. rewrite He. simpl.
  destruct Hend as [|[Hz Heof]]; [done|]. rewrite Ha, Hz, app_nil_r in Hrest. by subst.
Qed.

Definition lines_of (ls : list text) (last : text) : list text := map fold_cr ls ++ (if bool_decide (last = []) then [] else [last]).

Lemma run_lines_keep_error k s w rs s' w' :
  run_lines k s w = (rs, s', w') -> reader s -> error_ s' = 0%Z -> error_ s = 0%Z.
Proof.
  revert s w rs. induction k as [|k IH]; intros s w rs E Hr He; simpl in E; [by simplify_eq|].
  destruct (read_line s w) as [[r s1] w1] eqn:Er. destruct (run_lines k s1 w1) as [[rs1 s2] w2] eqn:E1. simplify_eq.
  assert (reader s1 /\ (error_ s <> 0%Z -> error_ s1 <> 0%Z)) as [Hr1 Herr].
  { pose proof (split_newline_spec (ahead s w)) as Hsp. destruct (split_newline (ahead s w)) as [l [rest|]]; destruct Hsp as [Ha Hl].
    - destruct (read_line_terminated s w l rest Hr Ha Hl) as (? & ? & ? & E2 & H1 & H2 & _). rewrite Er in E2. injection E2 as _ -> _. by split.
    - destruct (read_line_last s w l Hr Ha Hl) as (? & ? & ? & E2 & H1 & H2 & _). rewrite Er in E2. injection E2 as _ -> _. by split. }
  pose proof (IH _ _ _ E1 Hr1 He). destruct (decide (error_ s = 0%Z)) as [|Hn]; [done|]. by specialize (Herr Hn).
Qed.

Lemma run_lines_spec ls last s w rs s' w' :
  run_lines (S (length (lines_of ls last))) s w = (rs, s', w') -> reader s -> error_ s' = 0%Z ->
  ahead s w = concat (map (fun l => l ++ ["010"%char]) ls) ++ last -> Forall no_newline ls -> no_newline last ->
  rs = map Some (lines_of ls last) ++ [None] /\ eof_ s' = true.
Proof.
  intros E Hr He Ha Hls Hlast. revert s w rs E Hr Ha. induction Hls as [|l ls Hl Hls IH]; intros s w rs E Hr Ha.
  - simpl in Ha. destruct (read_line_last s w last Hr Ha Hlast) as (r & s1 & w1 & E1 & Hr1 & _ & H1). simpl in E. rewrite E1 in E. unfold lines_of in *. simpl in *.
    case_bool_decide as El; simpl in E.
    + simplify_eq. destruct (H1 He) as (-> & _ & Heof). done.
    + destruct (run_lines 1 s1 w1) as [[rs1 s2] w2] eqn:E2. simpl in E2.
      destruct (read_line s1 w1) as [[r2 s3] w3] eqn:E3. simplify_eq.
      assert (error_ s1 = 0%Z) as He1 by (apply (run_lines_keep_error 1 s1 w1 [match r2 with Ret r => r | Throw _ => None end] s' w'); [simpl; by rewrite E3|done|done]).
      destruct (H1 He1) as (-> & Ha1 & _). destruct (read_line_last s1 w1 [] Hr1 Ha1) as (r3 & s4 & w4 & E4 & _ & _ & H4); [unfold no_newline; apply not_elem_of_nil|].
      rewrite E3 in E4. simplify_eq. destruct (H4 He) as (-> & _ & Heof). done.
  - simpl in Ha. rewrite <- !app_assoc in Ha. simpl in Ha. destruct (read_line_terminated s w l _ Hr Ha Hl) as (r & s1 & w1 & E1 & Hr1 & _ & H1).
    change (length (lines_of (l :: ls) last)) with (S (length (lines_of ls last))) in E. remember (S (length (lines_of ls last))) as k eqn:Ek.
    simpl in E. rewrite E1 in E. destruct (run_lines k s1 w1) as [[rs1 s2] w2] eqn:E2. simplify_eq.
    pose proof (run_lines_keep_error _ _ _ _ _ _ E2 Hr1 He) as He1. destruct (H1 He1) as [-> Ha1].
    destruct (IH s1 w1 _ E2 Hr1 Ha1) as [-> Heof]. done.
Qed.

(** C37. Lines.  For a file made of newline-terminated lines and possibly a last one without a newline, [read_line]
    returns each line in turn without its newline (and without one carriage return before the newline), then the last one
    as it is, then nothing, with [eof()] set: whatever the buffer size, also when a line is longer than the
    buffer, and however short the system's reads are, if no call fails. *)
Theorem read_line_returns_the_lines path size w s1 w1 ls last rs s2 w2 :
  open path read_mode size w = (s1, w1) -> is_open s1 = true ->
  unread (handle_ s1) w1 = concat (map (fun l => l ++ ["010"%char]) ls) ++ last -> Forall no_newline ls -> no_newline last ->
  run_lines (S (length (lines_of ls last))) s1 w1 = (rs, s2, w2) -> error_ s2 = 0%Z ->
  rs = map Some (lines_of ls last) ++ [None] /\ eof_ s2 = true.
Proof.
  intros Eo Ho Hu Hls Hlast E He. destruct (opened_reader _ _ _ _ _ Eo Ho) as [Hr Ha]. rewrite <- Ha in Hu. by eapply run_lines_spec.
Qed.

End streams.

(** ** On a file in memory *)

Definition demo_writes : list command := [Write ($"ab"); Write ($"cd"); Flush; Write ($"efghij"); Write ($"k")].

Lemma successful_writes_reach_the_file_witness :
  let w := disk ($"old") [Short 9; Short 1; Interrupted; Short 0] in
  let '(s1, w1) := open ($"f") append_mode 3 w in
  let '(ok, s2, w2) := run demo_writes s1 w1 in
  let '(ok', s3, w3) := close s2 w2 in
  ok = true /\ ok' = true /\ contents (handle_ s1) w3 = contents (handle_ s1) w1 ++ written demo_writes /\ is_open s3 = false.
Proof.
  cbv zeta. destruct (open _ _ _ _) as [s1 w1] eqn:E1. destruct (run demo_writes s1 w1) as [[ok s2] w2] eqn:E2.
  destruct (close s2 w2) as [[ok' s3] w3] eqn:E3. pose proof E1 as C1. vm_compute in C1. injection C1 as C1 C2.
  pose proof E2 as D. rewrite <- C1, <- C2 in D. vm_compute in D. injection D as D1 D2 D3.
  pose proof E3 as F. rewrite <- D2, <- D3 in F. vm_compute in F. injection F as F1 F2 F3.
  rewrite <- D1 in *. rewrite <- F1 in *. split; [done|]. split; [done|].
  apply (successful_writes_reach_the_file ($"f") append_mode 3 demo_writes (disk ($"old") [Short 9; Short 1; Interrupted; Short 0]) s1 w1 s2 w2 s3 w3);
    [done|by rewrite <- C1|done..].
Defined.

Lemma reads_return_the_file_witness :
  let w := WinFile (disk ($"hello world") [Short 9; Short 1; Short 2; Short 0; Fails 5]) in
  let '(s1, w1) := open ($"f") read_mode 4 w in
  let '(rs, s2, w2) := run_reads [3; 2; 7] s1 w1 in
  exists r s3 w3, read s2 9 w2 = (Ret r, s3, w3) /\ unread (handle_ s1) w1 = concat (map (default []) (rs ++ [r])) ++ ahead s3 w3 /\
    match r with
    | Some bs => length bs <= 9 /\ (length bs < 9 -> error_ s3 <> 0%Z \/ (ahead s3 w3 = [] /\ eof_ s3 = true))
    | None => error_ s3 <> 0%Z
    end.
Proof.
  cbv zeta. destruct (open _ _ _ _) as [s1 w1] eqn:E1. destruct (run_reads [3; 2; 7] s1 w1) as [[rs s2] w2] eqn:E2.
  apply (reads_return_the_file ($"f") 4 [3; 2; 7] 9 _ s1 w1 rs s2 w2 E1); [|done]. vm_compute in E1. by injection E1 as <- _.
Defined.

Lemma read_line_returns_the_lines_witness :
  let ls := [$"one"; []; $"two" ++ ["013"%char]] in
  let w := disk (concat (map (fun l => l ++ ["010"%char]) ls) ++ $"rest") [Short 9; Short 1; Interrupted; Short 0] in
  let '(s1, w1) := open ($"f") read_mode 2 w in
  let '(rs, s2, w2) := run_lines 5 s1 w1 in
  rs = [Some ($"one"); Some []; Some ($"two"); Some ($"rest"); None] /\ eof_ s2 = true.
Proof.
  cbv zeta. destruct (open _ _ _ _) as [s1 w1] eqn:E1. destruct (run_lines 5 s1 w1) as [[rs s2] w2] eqn:E2.
  pose proof E1 as C1. vm_compute in C1. injection C1 as C1 C2. pose proof E2 as D. rewrite <- C1, <- C2 in D. vm_compute in D. injection D as D1 D2 D3.
  apply (read_line_returns_the_lines ($"f") 2 _ s1 w1 [$"one"; []; $"two" ++ ["013"%char]] ($"rest") rs s2 w2 E1).
  - by rewrite <- C1.
  - by rewrite <- C1, <- C2.
  - repeat (constructor; [unfold no_newline; apply (bool_decide_unpack _); by vm_compute|]). constructor.
  - unfold no_newline. apply (bool_decide_unpack _). by vm_compute.
  - done.
  - by rewrite <- D2.
Defined.

(** A flush that failed in the middle repeats itself.  The first flush writes three bytes and fails; the second
    one succeeds; the file then holds those three bytes twice. *)
Theorem retried_flush_duplicates :
  let '(s1, w1) := open ($"f") write_mode 8 (disk [] [Short 0; Short 3; Fails 28]) in
  let '(r, s2, w2) := write s1 ($"abcdef") w1 in
  let '(ok1, s3, w3) := flush s2 w2 in
  let '(ok2, s4, w4) := flush s3 w3 in
  r = Ret true /\ ok1 = false /\ error_ s3 = 28%Z /\ ok2 = true /\ contents (handle_ s1) w4 = $"abcabcdef".
Proof. by vm_compute. Qed.

