(* ===== verification/FileSession.v ===== *)
(** * Programs of several FileStreams on a file system

    A program opens, uses, moves and closes stream objects; what it sees is what an unbuffered file system would give: a file
    is a text, a writing stream adds to its end at once, a reading stream keeps an offset.  The abstract machine is undefined where
    the program opens a file it is writing a second time, or moves onto a stream it is writing; nothing is claimed from there on. *)

From S2P Require Import Prelude Posix FileHost FileSystem FileStream.

Inductive file_call : Type :=
  | OpenFile (i : nat) (path : text) (mode : FileMode) (size : nat)
  | WriteTo (i : nat) (src : text)
  | FlushStream (i : nat)
  | ReadFrom (i : nat) (n : nat)
  | ReadLineFrom (i : nat)
  | CloseStream (i : nat)
  | MoveStream (i j : nat).

Inductive file_answer : Type := Done | Gave (t : option text).

Definition stream (m : gmap nat file_stream) (i : nat) : file_stream := default closed_stream (m !! i).

(** ** The streams of the library *)

Section program.
Context {W : Type} `{!FileHost W}.

(** [None] when the call, or the stream it was made on, reports a failure. *)
Definition run_call (c : file_call) (m : gmap nat file_stream) (w : W) : option file_answer * gmap nat file_stream * W :=
  match c with
  | OpenFile i path mode size =>
      let '(fresh, w) := open path mode size w in
      let '(s, _, w) := move_assign (stream m i) fresh w in
      (if is_open s then Some Done else None, <[i := s]> m, w)
  | WriteTo i src =>
      let '(r, s, w) := write (stream m i) src w in
      (match r with Ret true => Some Done | _ => None end, <[i := s]> m, w)
  | FlushStream i =>
      let '(ok, s, w) := flush (stream m i) w in (if ok then Some Done else None, <[i := s]> m, w)
  | ReadFrom i n =>
      let '(r, s, w) := read (stream m i) n w in
      (match r with Ret (Some bs) => if (error_ s =? 0)%Z then Some (Gave (Some bs)) else None | _ => None end, <[i := s]> m, w)
  | ReadLineFrom i =>
      let '(r, s, w) := read_line (stream m i) w in
      (match r with Ret l => if (error_ s =? 0)%Z then Some (Gave l) else None | Throw _ => None end, <[i := s]> m, w)
  | CloseStream i =>
      let '(ok, s, w) := close (stream m i) w in (if ok then Some Done else None, <[i := s]> m, w)
  | MoveStream i j =>
      if decide (i = j) then (Some Done, m, w)
      else let '(s, other, w) := move_assign (stream m j) (stream m i) w in (Some Done, <[i := other]> (<[j := s]> m), w)
  end.

(** The answers up to the first failure, and whether there was none. *)
Fixpoint run_program (cs : list file_call) (m : gmap nat file_stream) (w : W) : bool * list file_answer * gmap nat file_stream * W :=
  match cs with
  | [] => (true, [], m, w)
  | c :: cs =>
      let '(a, m, w) := run_call c m w in
      match a with
      | None => (false, [], m, w)
      | Some a => let '(ok, answers, m, w) := run_program cs m w in (ok, a :: answers, m, w)
      end
  end.
End program.

(** ** The abstract file system *)

Inductive slot : Type := Reading (f : text) (off : nat) | Writing (f : text).

#[export] Instance slot_eq_dec : EqDecision slot.
Proof. solve_decision. Defined.

Definition used_file (k : slot) : text := match k with Reading f _ | Writing f => f end.

Definition in_use (K : gmap nat slot) (f : text) : bool := bool_decide (map_Exists (fun _ k => used_file k = f) K).
Definition written_to (K : gmap nat slot) (f : text) : bool := bool_decide (map_Exists (fun _ k => k = Writing f) K).

Section spec.
Context (leads_to : text -> text).

Definition spec_line (rest : text) : option text * nat :=
  match split_newline rest with
  | (l, Some _) => (Some (fold_cr l), length l + 1)
  | (l, None) => (if bool_decide (l = []) then None else Some l, length l)
  end.

Definition spec_call (c : file_call) (F : gmap text text) (K : gmap nat slot) : option (file_answer * gmap text text * gmap nat slot) :=
  match c with
  | OpenFile i path mode _ =>
      let f := leads_to (c_str path) in
      match K !! i, mode with
      | Some _, _ => None
      | None, read_mode =>
          if written_to K f then None else match F !! f with Some _ => Some (Done, F, <[i := Reading f 0]> K) | None => None end
      | None, write_mode => if in_use K f then None else Some (Done, <[f := []]> F, <[i := Writing f]> K)
      | None, append_mode => if in_use K f then None else Some (Done, <[f := default [] (F !! f)]> F, <[i := Writing f]> K)
      end
  | WriteTo i src =>
      match K !! i with
      | Some (Writing f) => Some (Done, <[f := default [] (F !! f) ++ src]> F, K)
      | _ => None
      end
  | FlushStream i => match K !! i with Some _ => Some (Done, F, K) | None => None end
  | ReadFrom i n =>
      match K !! i with
      | Some (Reading f off) =>
          let bs := take n (drop off (default [] (F !! f))) in Some (Gave (Some bs), F, <[i := Reading f (off + length bs)]> K)
      | _ => None
      end
  | ReadLineFrom i =>
      match K !! i with
      | Some (Reading f off) =>
          let '(l, k) := spec_line (drop off (default [] (F !! f))) in Some (Gave l, F, <[i := Reading f (off + k)]> K)
      | _ => None
      end
  | CloseStream i => Some (Done, F, delete i K)
  | MoveStream i j =>
      match K !! j with
      | Some (Writing _) => if decide (i = j) then Some (Done, F, K) else None
      | _ => if decide (i = j) then Some (Done, F, K) else Some (Done, F, delete i (partial_alter (fun _ => K !! i) j K))
      end
  end.

Fixpoint spec_program (cs : list file_call) (F : gmap text text) (K : gmap nat slot) : option (list file_answer * gmap text text * gmap nat slot) :=
  match cs with
  | [] => Some ([], F, K)
  | c :: cs =>
      match spec_call c F K with
      | None => None
      | Some (a, F, K) =>
          match spec_program cs F K with
          | None => None
          | Some (answers, F, K) => Some (a :: answers, F, K)
          end
      end
  end.
End spec.

Definition demo_session : list file_call :=
  [OpenFile 0 ($"log") write_mode 4; WriteTo 0 ($"one" ++ ["010"%char]); OpenFile 1 ($"in") read_mode 2; ReadFrom 1 3;
   WriteTo 0 ($"a longer line"); CloseStream 0; OpenFile 2 ($"log") append_mode 8; WriteTo 2 ["013"%char; "010"%char]; WriteTo 2 ($"end"); ReadLineFrom 1;
   MoveStream 2 3; FlushStream 3; CloseStream 3; OpenFile 0 ($"log") read_mode 3; ReadLineFrom 0; ReadLineFrom 0; MoveStream 0 1; ReadLineFrom 1;
   ReadLineFrom 1; CloseStream 1].

Definition demo_disk (fs : list fault) : disk_world := DiskWorld (Fsys {[ $"in" := $"abcdef" ]} ∅) ∅ 3 fs.

(** ** What a stream and its slot have in common *)

Section refinement.
Context {W : Type} `{!FileHost W, !FileHostLaws W, !NamedFiles W, !NamedHost W}.

(** What writing to, or reading from, the file of one handle does. *)
Definition at_its_end (d : descriptor) (t : text) : Prop := appending d = false -> offset d = length t.

Lemma store_at_end h d t bs fs :
  opened fs !! h = Some d -> files fs !! file_of d = Some t -> at_its_end d t ->
  let fs' := fs_store h bs fs in
  (exists d', opened fs' !! h = Some d' /\ file_of d' = file_of d /\ reading d' = reading d /\ at_its_end d' (t ++ bs)) /\
  files fs' !! file_of d = Some (t ++ bs) /\
  (forall h', h' <> h -> opened fs' !! h' = opened fs !! h') /\ (forall g, g <> file_of d -> files fs' !! g = files fs !! g).
Proof.
  intros Ho Hf He. unfold fs_store. rewrite Ho. destruct bs as [|b bs]; [rewrite app_nil_r; eauto 10|]. simpl.
  assert (put_at d (b :: bs) (text_of (file_of d) fs) = t ++ b :: bs) as Hp.
  { unfold put_at, text_of. rewrite Hf. simpl. unfold at_its_end in He. destruct (appending d); [done|]. unfold overwrite.
    rewrite He, Nat.sub_diag by done. simpl. rewrite app_nil_r, firstn_all, drop_ge by lia. by rewrite app_nil_r. }
  rewrite Hp. split_and!; [|by rewrite lookup_insert_eq|intros; by rewrite lookup_insert_ne|intros; by rewrite lookup_insert_ne].
  eexists. rewrite lookup_insert_eq. split_and!; [done..|]. unfold at_its_end in *. simpl. intros Ha. rewrite He, length_app by done. done.
Qed.

Definition slot_rel (k : option slot) (s : file_stream) (fs : fsys) (F : gmap text text) : Prop :=
  match k with
  | None => is_open s = false
  | Some (Reading f off) =>
      reader s /\ error_ s = 0%Z /\ is_Some (F !! f) /\
      (exists d, opened fs !! handle_ s = Some d /\ file_of d = f /\ reading d = true) /\
      window s ++ fs_unread (handle_ s) fs = drop off (default [] (F !! f))
  | Some (Writing f) =>
      writer s /\ exists d t, opened fs !! handle_ s = Some d /\ file_of d = f /\ reading d = false /\
        files fs !! f = Some t /\ at_its_end d t /\ F !! f = Some (t ++ pending s)
  end.

Lemma slot_open k s fs F : slot_rel k s fs F -> is_open s = true <-> is_Some k.
Proof.
  destruct k as [[f off|f]|]; simpl.
  - intros [(-> & _) _]. split; [by eexists|done].
  - intros [(-> & _) _]. split; [by eexists|done].
  - intros ->. split; [done|by intros [? ?]].
Qed.

Lemma slot_frame k s fs F fs' F' :
  slot_rel k s fs F -> (is_open s = true -> opened fs' !! handle_ s = opened fs !! handle_ s) ->
  (forall x, k = Some x -> files fs' !! used_file x = files fs !! used_file x /\ F' !! used_file x = F !! used_file x) ->
  slot_rel k s fs' F'.
Proof.
  intros Hr Ho Hu. pose proof (slot_open _ _ _ _ Hr) as Hop. destruct k as [[f off|f]|]; simpl in *; [| |done].
  - destruct (Hu _ eq_refl) as [Hf HF]. simpl in *. destruct Hr as (H1 & H2 & H3 & (d & Hd & Hdf & Hdr) & H5). rewrite <- Ho in Hd by (apply Hop; eauto).
    split_and!; [done|done|by rewrite HF|by exists d|]. rewrite HF, <- H5. f_equal. unfold fs_unread, text_of. rewrite Hd, Hdr, Hdf, Hf.
    rewrite <- Ho, Hd, Hdr, Hdf by (apply Hop; eauto). done.
  - destruct (Hu _ eq_refl) as [Hf HF]. simpl in *. destruct Hr as (H1 & d & t & Hd & H2). rewrite <- Ho in Hd by (apply Hop; eauto).
    split; [done|]. exists d, t. rewrite Hf, HF. tauto.
Qed.

Record session_rel (m : gmap nat file_stream) (fs : fsys) (F : gmap text text) (K : gmap nat slot) : Prop := {
  slots_rel i : slot_rel (K !! i) (stream m i) fs F;
  own_handles i j : i <> j -> is_open (stream m i) = true -> is_open (stream m j) = true -> handle_ (stream m i) <> handle_ (stream m j);
  one_writer i j f x : K !! i = Some (Writing f) -> K !! j = Some x -> used_file x = f -> i = j;
  settled f : (forall i, K !! i <> Some (Writing f)) -> files fs !! f = F !! f
}.

Lemma stream_insert_eq m i s : stream (<[i := s]> m) i = s.
Proof. unfold stream. by rewrite lookup_insert_eq. Qed.

Lemma stream_insert_ne m i j s : i <> j -> stream (<[i := s]> m) j = stream m j.
Proof. unfold stream. intros. by rewrite lookup_insert_ne. Qed.

(** One slot changes, and with it what no other slot uses. *)
Lemma session_update i s' k' m fs F K fs' F' :
  session_rel m fs F K -> slot_rel k' s' fs' F' ->
  (forall j, j <> i -> is_open (stream m j) = true ->
     opened fs' !! handle_ (stream m j) = opened fs !! handle_ (stream m j) /\ (is_open s' = true -> handle_ s' <> handle_ (stream m j))) ->
  (forall j x, j <> i -> K !! j = Some x -> files fs' !! used_file x = files fs !! used_file x /\ F' !! used_file x = F !! used_file x) ->
  (forall j x y, j <> i -> K !! j = Some x -> k' = Some y -> used_file x = used_file y -> x <> Writing (used_file y) /\ y <> Writing (used_file y)) ->
  (forall f, k' <> Some (Writing f) -> (forall j, j <> i -> K !! j <> Some (Writing f)) -> files fs' !! f = F' !! f) ->
  session_rel (<[i := s']> m) fs' F' (partial_alter (fun _ => k') i K).
Proof.
  intros [HS HH HO HU] Hk Hopen Hfiles Hexcl Hset. split.
  - intros j. destruct (decide (j = i)) as [->|Hj]; [by rewrite lookup_partial_alter_eq, stream_insert_eq|].
    rewrite lookup_partial_alter_ne, stream_insert_ne by done. eapply slot_frame; [apply HS|intros; by apply Hopen|intros x Hx; by apply (Hfiles j)].
  - intros j1 j2 Hne. destruct (decide (j1 = i)) as [->|H1], (decide (j2 = i)) as [->|H2]; [done| | |];
      rewrite ?stream_insert_eq, ?stream_insert_ne by done; intros Ho1 Ho2; [by apply Hopen|apply not_eq_sym; by apply Hopen|by apply HH].
  - intros j1 j2 f x. destruct (decide (j1 = i)) as [->|H1], (decide (j2 = i)) as [->|H2]; [done| | |];
      rewrite ?lookup_partial_alter_eq, ?lookup_partial_alter_ne by done; intros E1 E2 Hu; [| |by eapply HO].
    + subst f. by destruct (Hexcl j2 x (Writing (used_file x)) H2 E2 E1 eq_refl).
    + subst f. exfalso. by destruct (Hexcl j1 (Writing (used_file x)) x H1 E1 E2 eq_refl) as [[] _].
  - intros f Hf. apply Hset; [specialize (Hf i); by rewrite lookup_partial_alter_eq in Hf|].
    intros j Hj. specialize (Hf j). by rewrite lookup_partial_alter_ne in Hf.
Qed.

(** The stream in a slot works on, on the file it has. *)
Lemma session_touch i s' k k' m fs F K fs' F' :
  session_rel m fs F K -> K !! i = Some k -> used_file k' = used_file k -> (forall f, k = Writing f <-> k' = Writing f) ->
  slot_rel (Some k') s' fs' F' -> handle_ s' = handle_ (stream m i) ->
  (forall h, h <> handle_ (stream m i) -> opened fs' !! h = opened fs !! h) ->
  (forall g, k <> Writing g -> files fs' !! g = files fs !! g /\ F' !! g = F !! g) ->
  session_rel (<[i := s']> m) fs' F' (<[i := k']> K).
Proof.
  intros HR Hi Hu Hw Hk Hh Hopen Hfiles. pose proof HR as [HS HH HO HU].
  assert (is_open (stream m i) = true) as Hio by (eapply slot_open; [apply HS|rewrite Hi; by eexists]).
  apply (session_update i s' (Some k') m fs F K fs' F'); [done|done|..].
  - intros j Hj Hjo. assert (handle_ (stream m i) <> handle_ (stream m j)) by (apply HH; [by apply not_eq_sym|done..]). split; [by apply Hopen, not_eq_sym|by rewrite Hh].
  - intros j x Hj Hx. apply Hfiles. intros ->. apply Hj. symmetry. by eapply HO.
  - intros j x y Hj Hx [= <-] Hxy. rewrite Hu in Hxy |- *. split.
    + intros ->. apply Hj. by eapply HO.
    + intros E. apply Hj. symmetry. apply Hw in E. apply (HO i j (used_file k) x); [by rewrite Hi, <- E|done..].
  - intros f Hf Hj. assert (k <> Writing f) as Hkf by (intros E; apply Hf; f_equal; by apply Hw).
    destruct (Hfiles f Hkf) as [-> ->]. apply HU. intros j Hjf. destruct (decide (j = i)) as [->|Hji]; [congruence|by apply (Hj j)].
Qed.

(** It stops. *)
Lemma session_close i s' m fs F K fs' :
  session_rel m fs F K -> is_open s' = false ->
  (forall h, h <> handle_ (stream m i) \/ K !! i = None -> opened fs' !! h = opened fs !! h) ->
  (forall g, K !! i <> Some (Writing g) -> files fs' !! g = files fs !! g) ->
  (forall f, K !! i = Some (Writing f) -> files fs' !! f = F !! f) ->
  session_rel (<[i := s']> m) fs' F (delete i K).
Proof.
  intros HR Hc Hopen Hfiles Hown. pose proof HR as [HS HH HO HU].
  apply (session_update i s' None m fs F K fs' F); [done|done|..].
  - intros j Hj Hjo. split; [|congruence]. apply Hopen. destruct (K !! i) as [x|] eqn:Ei; [left|by right].
    apply not_eq_sym, HH; [done| |done]. eapply slot_open; [apply HS|]. rewrite Ei. by eexists.
  - intros j x Hj Hx. split; [|done]. apply Hfiles. intros E. apply Hj. symmetry. by eapply HO.
  - done.
  - intros f _ Hj. destruct (decide (K !! i = Some (Writing f))) as [E|E]; [by apply Hown|]. rewrite Hfiles by done.
    apply HU. intros j. destruct (decide (j = i)) as [->|]; auto.
Qed.

(** ** What the operations of a stream do to its slot *)

Lemma host_stores h : stores h fs_of (fs_store h).
Proof. intros src w r w'. apply host_write. Qed.

(** A text stored where a writing stream has got to. *)
Lemma writing_stores f s fs F out :
  slot_rel (Some (Writing f)) s fs F ->
  let fs' := fs_store (handle_ s) out fs in
  (forall h, h <> handle_ s -> opened fs' !! h = opened fs !! h) /\ (forall g, Writing f <> Writing g -> files fs' !! g = files fs !! g) /\
  exists d t, opened fs' !! handle_ s = Some d /\ file_of d = f /\ reading d = false /\
    files fs' !! f = Some (t ++ out) /\ at_its_end d (t ++ out) /\ F !! f = Some (t ++ pending s).
Proof.
  intros (Hw & d & t & Ho & Hf & Hr & Ht & He & HF). subst f. destruct (store_at_end _ d t out fs Ho Ht He) as ((d' & Hd' & Hdf & Hdr & Hde) & Hft & Hoth & Hfs).
  split; [done|]. split; [intros g Hg; apply Hfs; congruence|]. exists d', t. rewrite Hdf, Hdr. done.
Qed.

Lemma close_slot k s F w ok s' w' :
  close s w = (ok, s', w') -> slot_rel k s (fs_of w) F -> ok = true \/ (forall f, k <> Some (Writing f)) ->
  is_open s' = false /\ (forall h, h <> handle_ s \/ k = None -> opened (fs_of w') !! h = opened (fs_of w) !! h) /\
  (forall g, k <> Some (Writing g) -> files (fs_of w') !! g = files (fs_of w) !! g) /\
  (forall f, k = Some (Writing f) -> files (fs_of w') !! f = F !! f).
Proof.
  intros E Hr Hok. unfold close in E. destruct k as [[f off|f]|]; simpl in Hr.
  - destruct Hr as ((Ho & Hm & _) & _). rewrite Ho, Hm in E. simpl in E. destruct (os_close (handle_ s) w) as [r w1] eqn:Ec. apply host_close in Ec.
    assert (w1 = w' /\ is_open s' = false) as [<- Hc] by (by destruct r; simplify_eq). rewrite Ec. unfold fs_close. simpl.
    split_and!; [done|intros h [Hh|]; [by rewrite lookup_delete_ne|done]|done|done].
  - destruct Hok as [->|Hno]; [|by destruct (Hno f)]. pose proof Hr as (Hw & _). pose proof Hw as (Ho & Hm & _). rewrite Ho, Hm in E.
    destruct (flush_buffer s w) as [[ok1 s1] w1] eqn:Ef. destruct (os_close (handle_ s1) w1) as [r w2] eqn:Ec. apply host_close in Ec.
    assert (ok1 = true /\ w2 = w' /\ is_open s' = false) as (-> & <- & Hc) by (by destruct r; simplify_eq).
    destruct (flush_buffer_stores _ _ _ (host_stores (handle_ s)) _ _ _ _ Ef Hw eq_refl) as (_ & Hh & _ & _ & Hst).
    destruct (writing_stores f s _ F (pending s) Hr) as (Hoth & Hfs & d & t & _ & _ & _ & Hft & _ & HF). rewrite <- Hst in Hoth, Hfs, Hft.
    rewrite Ec, Hh. unfold fs_close. simpl. split; [done|]. split; [intros h [Hne|]; [rewrite lookup_delete_ne by done; by apply Hoth|done]|].
    split; [intros g Hg; apply Hfs; congruence|]. intros g [= <-]. by rewrite HF.
  - rewrite Hr in E. simplify_eq. done.
Qed.

(** *** Reading *)

Definition only_read (h : Z) (fs fs' : fsys) : Prop :=
  files fs' = files fs /\ (forall h', h' <> h -> opened fs' !! h' = opened fs !! h') /\
  (forall d, opened fs !! h = Some d -> exists d', opened fs' !! h = Some d' /\ file_of d' = file_of d /\ reading d' = reading d).

Lemma os_read_only fs h n w r w' : only_read h fs (fs_of w) -> os_read h n w = (r, w') -> only_read h fs (fs_of w').
Proof.
  intros (Hf & Ho & Hd) E. apply host_read in E. rewrite E. destruct r as [bs|e]; [|done]. unfold fs_advance. split_and!; simpl; [done| |].
  - intros h' Hh. rewrite lookup_alter_ne by done. by apply Ho.
  - intros d (d' & Hd' & H1 & H2)%Hd. rewrite lookup_alter_eq, Hd'. simpl. eexists. split; [done|]. by rewrite <- H1, <- H2.
Qed.

Lemma only_read_refl h fs : only_read h fs fs.
Proof. split_and!; eauto. Qed.

Lemma session_read i f off s' m w F K w' bs :
  session_rel m (fs_of w) F K -> K !! i = Some (Reading f off) ->
  only_read (handle_ (stream m i)) (fs_of w) (fs_of w') -> handle_ s' = handle_ (stream m i) -> reader s' -> error_ s' = 0%Z ->
  ahead (stream m i) w = bs ++ ahead s' w' ->
  session_rel (<[i := s']> m) (fs_of w') F (<[i := Reading f (off + length bs)]> K).
Proof.
  intros HR Hi (Hf & Ho & Hd) Hh Hr He Ha. pose proof (slots_rel _ _ _ _ HR i) as Hs. rewrite Hi in Hs.
  destruct Hs as (_ & _ & HF & (d & Hod & Hdf & Hdr) & Hw). destruct (Hd _ Hod) as (d' & Hod' & Hdf' & Hdr').
  apply (session_touch i s' (Reading f off) _ m (fs_of w) F K _ F); try done; [|intros g _; by rewrite Hf].
  simpl. split_and!; [done..| |].
  - exists d'. rewrite Hh. split_and!; congruence.
  - unfold ahead in Ha. rewrite !host_unread in Ha. rewrite Ha in Hw. rewrite <- drop_drop, <- Hw, drop_app_length, Hh. done.
Qed.

Lemma slot_reader i f off m w F K :
  session_rel m (fs_of w) F K -> K !! i = Some (Reading f off) ->
  reader (stream m i) /\ error_ (stream m i) = 0%Z /\ ahead (stream m i) w = drop off (default [] (F !! f)).
Proof.
  intros HR Hi. pose proof (slots_rel _ _ _ _ HR i) as Hs. rewrite Hi in Hs. destruct Hs as (H1 & H2 & _ & _ & H5).
  split_and!; [done..|]. by rewrite <- H5, <- host_unread.
Qed.

(** ** Every call does what the abstract file system does *)

Definition refines (c : file_call) : Prop :=
  forall m w F K a F' K' r m' w',
  session_rel m (fs_of w) F K -> spec_call resolve c F K = Some (a, F', K') -> run_call c m w = (Some r, m', w') ->
  r = a /\ session_rel m' (fs_of w') F' K'.

Lemma read_refines i n : refines (ReadFrom i n).
Proof.
  intros m w F K a F' K' r m' w' HR Es E. simpl in Es, E. destruct (K !! i) as [[f off|f]|] eqn:Hi; simplify_eq.
  destruct (slot_reader _ _ _ _ _ _ _ HR Hi) as (Hr & He & Ha). destruct (read_exact (stream m i) n w Hr) as (r0 & s1 & w1 & Er & Hr1 & Hh1 & Ha1 & Hres).
  rewrite Er in E. destruct r0 as [bs|]; [|done]. destruct (Z.eqb_spec (error_ s1) 0) as [He1|]; [|done]. simplify_eq. destruct Hres as [Hl Hshort].
  simpl in Ha1. assert (bs = take n (ahead (stream m i) w)) as Hbs.
  { rewrite Ha1. destruct (decide (length bs < n)) as [Hlt|]; [|rewrite take_app_length'; [done|lia]].
    destruct (Hshort Hlt) as [|[-> _]]; [done|]. by rewrite app_nil_r, take_ge by lia. }
  rewrite <- Ha, <- Hbs. split; [done|].
  eapply session_read; [done|done| |done|done|done|done].
  by eapply (read_keeps _ _ (os_read_only (fs_of w) _)); [done|done|apply only_read_refl].
Qed.

Lemma read_line_refines i : refines (ReadLineFrom i).
Proof.
  intros m w F K a F' K' r m' w' HR Es E. simpl in Es, E. destruct (K !! i) as [[f off|f]|] eqn:Hi; simplify_eq.
  destruct (slot_reader _ _ _ _ _ _ _ HR Hi) as (Hr & He & Ha). rewrite <- Ha in Es. unfold spec_line in Es.
  destruct (read_line (stream m i) w) as [[r0 s1] w1] eqn:Er.
  destruct (read_line_keeps _ _ (os_read_only (fs_of w) _) _ _ _ _ _ Er eq_refl (only_read_refl _ _)) as [Hh1 Hor].
  destruct r0 as [l|]; [|done]. destruct (Z.eqb_spec (error_ s1) 0) as [He1|]; [|done]. simplify_eq.
  pose proof (split_newline_spec (ahead (stream m i) w)) as Hsp. destruct (split_newline (ahead (stream m i) w)) as [line [rest|]]; destruct Hsp as [Hsp Hnn].
  - destruct (read_line_terminated _ _ line rest Hr Hsp Hnn) as (r2 & s2 & w2 & Er2 & Hr2 & _ & Hres). rewrite Er in Er2. simplify_eq.
    destruct (Hres He1) as [-> Ha1]. split; [done|].
    replace (length line + 1) with (length (line ++ ["010"%char])) by (rewrite length_app; done).
    eapply session_read; [done..|]. by rewrite Hsp, Ha1, <- app_assoc.
  - destruct (read_line_last _ _ line Hr Hsp Hnn) as (r2 & s2 & w2 & Er2 & Hr2 & _ & Hres). rewrite Er in Er2. simplify_eq.
    destruct (Hres He1) as (-> & Ha1 & _). split; [done|]. eapply session_read; [done..|]. by rewrite Ha1, app_nil_r.
Qed.

(** *** Writing *)

Lemma session_store i f s' m w F K w' out src :
  session_rel m (fs_of w) F K -> K !! i = Some (Writing f) -> writer s' -> handle_ s' = handle_ (stream m i) ->
  fs_of w' = fs_store (handle_ (stream m i)) out (fs_of w) -> out ++ pending s' = pending (stream m i) ++ src ->
  session_rel (<[i := s']> m) (fs_of w') (<[f := default [] (F !! f) ++ src]> F) (<[i := Writing f]> K).
Proof.
  intros HR Hi Hw Hh Hst Hout. pose proof (slots_rel _ _ _ _ HR i) as Hs. rewrite Hi in Hs.
  destruct (writing_stores f _ _ F out Hs) as (Hoth & Hfs & d & t & Ho & Hdf & Hdr & Hft & He & HF). rewrite <- Hst in *.
  apply (session_touch i s' (Writing f) _ m (fs_of w) F K); try done.
  - simpl. split; [done|]. exists d, (t ++ out). rewrite Hh, lookup_insert_eq, HF. simpl. by rewrite <- !app_assoc, Hout.
  - intros g Hg. split; [by apply Hfs|]. rewrite lookup_insert_ne; [done|]. congruence.
Qed.

Lemma write_refines i src : refines (WriteTo i src).
Proof.
  intros m w F K a F' K' r m' w' HR Es E. simpl in Es, E. destruct (K !! i) as [[f off|f]|] eqn:Hi; simplify_eq.
  pose proof (slots_rel _ _ _ _ HR i) as Hs. rewrite Hi in Hs. destruct Hs as (Hw & _).
  destruct (write (stream m i) src w) as [[[[]|] s1] w1] eqn:Ew; simplify_eq. split; [done|].
  destruct (write_stores _ _ _ (host_stores _) _ _ _ _ _ Ew Hw eq_refl) as (Hw1 & Hh1 & out & Hst & Hout).
  rewrite <- (insert_id K' i (Writing f)) by done. by eapply session_store.
Qed.

Lemma flush_refines i : refines (FlushStream i).
Proof.
  intros m w F K a F' K' r m' w' HR Es E. simpl in Es, E. destruct (K !! i) as [k|] eqn:Hi; simplify_eq.
  pose proof (slots_rel _ _ _ _ HR i) as Hs. rewrite Hi in Hs.
  destruct (flush (stream m i) w) as [[ok s1] w1] eqn:Ef. destruct ok; simplify_eq. split; [done|].
  rewrite <- (insert_id K' i k) by done. destruct k as [f off|f].
  - destruct Hs as (Hr & He & _). pose proof Hr as (Ho & Hm & _). unfold flush in Ef. rewrite Ho, Hm in Ef. simplify_eq.
    rewrite <- (Nat.add_0_r off). change 0 with (length (@nil ascii)). eapply session_read; [done..|apply only_read_refl|done|done|done|done].
  - pose proof Hs as ((Ho & Hm & Hp) & d & t & _ & _ & _ & _ & _ & HF). unfold flush in Ef. rewrite Ho in Ef.
    assert (flush_buffer (stream m i) w = (true, s1, w')) as Efb by (by destruct (mode_ (stream m i))).
    destruct (flush_buffer_stores _ _ _ (host_stores _) _ _ _ _ Efb (conj Ho (conj Hm Hp)) eq_refl) as (Hw1 & Hh1 & _ & Hz & Hst).
    rewrite <- (insert_id F' f (default [] (F' !! f) ++ [])) by (rewrite app_nil_r; by rewrite HF).
    eapply session_store; [done..|]. by rewrite (pending_flushed s1), !app_nil_r.
Qed.

(** *** Opening, closing and moving *)

Lemma close_refines i : refines (CloseStream i).
Proof.
  intros m w F K a F' K' r m' w' HR Es E. simpl in Es, E. simplify_eq.
  destruct (close (stream m i) w) as [[ok s1] w1] eqn:Ec. destruct ok; simplify_eq. split; [done|].
  destruct (close_slot _ _ _ _ _ _ _ Ec (slots_rel _ _ _ _ HR i) (or_introl eq_refl)) as (Hc & Ho & Hf & Hown).
  by eapply session_close.
Qed.

Lemma exists_in_use K f i x : K !! i = Some x -> used_file x = f -> in_use K f = true.
Proof. intros Hi Hf. apply bool_decide_eq_true. by exists i, x. Qed.

Lemma exists_written_to K f i : K !! i = Some (Writing f) -> written_to K f = true.
Proof. intros Hi. apply bool_decide_eq_true. by exists i, (Writing f). Qed.

(** Moving onto a closed stream leaves the opened one there, and does nothing else. *)
Lemma move_assign_closed s other w : is_open s = false -> move_assign s other w = (other, snd (move_construct other), w).
Proof. intros Hc. unfold move_assign, close. by rewrite Hc. Qed.

Lemma open_opens path mode size w s w' :
  open path mode size w = (s, w') -> is_open s = true ->
  os_open path mode w = (SysOk (handle_ s), w') /\ mode_ s = mode /\ error_ s = 0%Z /\ buffer_pos_ s = 0 /\ buffer_len_ s = 0 /\ 0 < length (buffer_ s).
Proof.
  unfold open. destruct (os_open path mode w) as [[h|e] w1]; intros E Ho; simplify_eq. cbn -[replicate]. rewrite length_replicate. split_and!; done || lia.
Qed.

(** A file opened on a new handle: for reading, a file nobody writes; for writing, one nobody uses. *)
Lemma session_open i s f how k' m fs F K F' :
  session_rel m fs F K -> K !! i = None -> opened fs !! handle_ s = None -> slot_rel (Some k') s (fs_open (handle_ s) f how fs) F' ->
  (exists off, k' = Reading f off /\ creating how = false /\ F' = F /\ written_to K f = false) \/
  (k' = Writing f /\ in_use K f = false /\ forall g, g <> f -> F' !! g = F !! g) ->
  session_rel (<[i := s]> m) (fs_open (handle_ s) f how fs) F' (<[i := k']> K).
Proof.
  intros HR Hi Hh Hk Hcase. pose proof HR as [HS HH HO HU].
  assert (forall j, is_open (stream m j) = true -> handle_ s <> handle_ (stream m j)) as Hnew.
  { intros j Hj E. pose proof (HS j) as Hs. destruct (proj1 (slot_open _ _ _ _ Hs) Hj) as [x Hx]. rewrite Hx in Hs.
    destruct x; simpl in Hs; [destruct Hs as (_ & _ & _ & (d & Hd & _) & _)|destruct Hs as (_ & d & t & Hd & _)]; congruence. }
  assert (forall g, g <> f -> files (fs_open (handle_ s) f how fs) !! g = files fs !! g /\ F' !! g = F !! g) as Hoth.
  { intros g Hg. split; [unfold fs_open; simpl; destruct (creating how); [by rewrite lookup_insert_ne|done]|].
    destruct Hcase as [(off & _ & _ & -> & _)|(_ & _ & HF)]; [done|by apply HF]. }
  apply (session_update i s (Some k') m fs F K _ F'); [done|done|..].
  - intros j Hj Hjo. split; [|intros _; by apply Hnew]. simpl. rewrite lookup_insert_ne; [done|by apply Hnew].
  - intros j x Hj Hx. destruct Hcase as [(off & _ & Hc & -> & _)|(_ & Hu & _)]; [unfold fs_open; simpl; by rewrite Hc|].
    apply Hoth. intros E. by rewrite (exists_in_use _ _ _ _ Hx E) in Hu.
  - intros j x y Hj Hx [= <-] Hxy. destruct Hcase as [(off & -> & _ & _ & Hw)|(-> & Hu & _)]; simpl in *.
    + split; [|done]. intros ->. by rewrite (exists_written_to _ _ _ Hx) in Hw.
    + by rewrite (exists_in_use _ _ _ _ Hx Hxy) in Hu.
  - intros g Hg Hj. assert (files fs !! g = F !! g) as Hset.
    { apply HU. intros j. destruct (decide (j = i)) as [->|]; [by rewrite Hi|by apply Hj]. }
    destruct (decide (g = f)) as [->|Hgf]; [|destruct (Hoth g Hgf); congruence].
    destruct Hcase as [(off & -> & Hc & -> & _)|(-> & _)]; [unfold fs_open; simpl; by rewrite Hc|done].
Qed.

(** The stream that [open] returns for a file that is created or appended to. *)
Lemma open_writer f mode s m fs F K :
  session_rel m fs F K -> is_open s = true -> mode_ s = mode -> writes mode = true -> buffer_pos_ s = 0 -> in_use K f = false ->
  let F' := <[f := if truncating (how_of_mode mode) then [] else default [] (F !! f)]> F in
  slot_rel (Some (Writing f)) s (fs_open (handle_ s) f (how_of_mode mode) fs) F'.
Proof.
  intros HR Ho Hm Hwm Hp Hu F'. simpl. split; [unfold writer; split_and!; [done|congruence|lia]|].
  assert (files fs !! f = F !! f) as Hf.
  { apply (settled _ _ _ _ HR). intros i Hi. by rewrite (exists_in_use K f i _ Hi eq_refl) in Hu. }
  assert (pending s = []) as -> by (by apply pending_flushed). unfold F', fs_open, text_of. simpl. rewrite !lookup_insert_eq, Hf.
  destruct mode; [done|..]; simpl; rewrite lookup_insert_eq; eexists _, _; rewrite app_nil_r; split_and!; done.
Qed.

Lemma open_refines i path mode size : refines (OpenFile i path mode size).
Proof.
  intros m w F K a F' K' r m' w' HR Es E. cbn [spec_call run_call] in Es, E. set (f := resolve (c_str path)) in *.
  pose proof (slots_rel _ _ _ _ HR i) as Hs. destruct (K !! i) as [k|] eqn:Hi; [by destruct mode|]. simpl in Hs.
  destruct (open path mode size w) as [s w1] eqn:Eo. rewrite move_assign_closed in E by done. destruct (is_open s) eqn:Ho; simplify_eq.
  destruct (open_opens _ _ _ _ _ _ Eo Ho) as (Eos & Hm & He & Hp & Hl & Hb). apply host_open in Eos as (Hnew & Hfs & Hex). fold f in Hfs, Hex. rewrite Hfs.
  destruct mode.
  - destruct (written_to K f) eqn:Hw; [done|]. destruct (F !! f) as [t|] eqn:Ht; simplify_eq. split; [done|].
    eapply session_open; [done..| |left; by exists 0]. simpl. rewrite Ht.
    assert (files (fs_of w) !! f = F' !! f) as Hff.
    { apply (settled _ _ _ _ HR). intros j Hj. by rewrite (exists_written_to _ _ _ Hj) in Hw. }
    split_and!; [unfold reader; split_and!; done || lia|done|by eexists|by eexists; rewrite lookup_insert_eq; split_and!|].
    unfold window, fs_unread. rewrite Hl. simpl. rewrite lookup_insert_eq. simpl. unfold text_of. simpl. by rewrite Hff, Ht.
  - destruct (in_use K f) eqn:Hu; simplify_eq. split; [done|]. eapply session_open; [done..| |right; split_and!; [done..|intros; by rewrite lookup_insert_ne]].
    exact (open_writer f write_mode s m _ F K HR Ho Hm eq_refl Hp Hu).
  - destruct (in_use K f) eqn:Hu; simplify_eq. split; [done|]. eapply session_open; [done..| |right; split_and!; [done..|intros; by rewrite lookup_insert_ne]].
    exact (open_writer f append_mode s m _ F K HR Ho Hm eq_refl Hp Hu).
Qed.

(** A stream changes its slot: [old i j] is where the one now in slot [x] was. *)
Definition old (i j x : nat) : nat := if decide (x = j) then i else x.

Lemma old_inj i j x y : x <> i -> y <> i -> old i j x = old i j y -> x = y.
Proof. unfold old. repeat case_decide; congruence. Qed.

Lemma session_move i j other m fs F K :
  i <> j -> session_rel m fs F K -> K !! j = None -> is_open other = false ->
  session_rel (<[i := other]> (<[j := stream m i]> m)) fs F (delete i (partial_alter (fun _ => K !! i) j K)).
Proof.
  intros Hij [HS HH HO HU] Hj Hc. set (m' := <[i := other]> _). set (K' := delete i _).
  assert (stream m' i = other /\ K' !! i = None) as [Hmi Hki] by (unfold m', K'; by rewrite stream_insert_eq, lookup_delete_eq).
  assert (forall x, x <> i -> stream m' x = stream m (old i j x) /\ K' !! x = K !! old i j x) as Hold.
  { intros x Hx. unfold m', K', old. rewrite stream_insert_ne, lookup_delete_ne by done. case_decide as E.
    - subst x. by rewrite stream_insert_eq, lookup_partial_alter_eq.
    - by rewrite stream_insert_ne, lookup_partial_alter_ne. }
  split.
  - intros x. destruct (decide (x = i)) as [->|Hx]; [by rewrite Hmi, Hki|]. destruct (Hold x Hx) as [-> ->]. apply HS.
  - intros x y Hxy Hx Hy. assert (x <> i) as Hxi by congruence. assert (y <> i) as Hyi by congruence.
    destruct (Hold x Hxi) as [Ex _], (Hold y Hyi) as [Ey _]. rewrite Ex, Ey in *. apply HH; [|done..]. intros E. by apply Hxy, (old_inj i j).
  - intros x y f k Hx Hy Hu. assert (x <> i) as Hxi by congruence. assert (y <> i) as Hyi by congruence.
    destruct (Hold x Hxi) as [_ Ex], (Hold y Hyi) as [_ Ey]. rewrite Ex in Hx. rewrite Ey in Hy. apply (old_inj i j); [done..|]. by eapply HO.
  - intros f Hf. apply HU. intros x Hx. destruct (decide (x = i)) as [->|Hxi].
    + apply (Hf j). destruct (Hold j (not_eq_sym Hij)) as [_ ->]. unfold old. by rewrite decide_True.
    + assert (x <> j) as Hxj by congruence. apply (Hf x). destruct (Hold x Hxi) as [_ ->]. unfold old. by rewrite decide_False.
Qed.

Lemma move_refines i j : refines (MoveStream i j).
Proof.
  intros m w F K a F' K' r m' w' HR Es E. cbn [spec_call run_call] in Es, E. destruct (decide (i = j)) as [->|Hij].
  { assert (a = Done /\ F' = F /\ K' = K) as (-> & -> & ->) by (destruct (K !! j) as [[]|]; by simplify_eq). by simplify_eq. }
  assert ((forall f, K !! j <> Some (Writing f)) /\ a = Done /\ F' = F /\ K' = delete i (partial_alter (fun _ => K !! i) j K)) as (Hnw & -> & -> & ->)
    by (destruct (K !! j) as [[]|]; by simplify_eq).
  unfold move_assign in E. destruct (close (stream m j) w) as [[ok s1] w1] eqn:Ec. simpl in E. injection E as <- <- <-. split; [done|].
  destruct (close_slot _ _ _ _ _ _ _ Ec (slots_rel _ _ _ _ HR j) (or_intror Hnw)) as (Hc & Ho & Hf & Hown).
  pose proof (session_close j s1 m _ F K _ HR Hc Ho Hf Hown) as HR1.
  pose proof (session_move i j (snd (move_construct (stream m i))) _ _ _ _ Hij HR1 (lookup_delete_eq K j) eq_refl) as HR2.
  rewrite stream_insert_ne, insert_insert_eq, lookup_delete_ne in HR2 by done.
  replace (partial_alter (fun _ => K !! i) j (delete j K)) with (partial_alter (fun _ => K !! i) j K) in HR2; [done|].
  apply map_eq. intros x. destruct (decide (x = j)) as [->|Hx]; [by rewrite !lookup_partial_alter_eq|by rewrite !lookup_partial_alter_ne, lookup_delete_ne].
Qed.

Lemma calls_refine c : refines c.
Proof.
  destruct c; [apply open_refines|apply write_refines|apply flush_refines|apply read_refines|apply read_line_refines|apply close_refines|apply move_refines].
Qed.

Lemma program_refines cs m w F K answers F' K' ok got m' w' :
  session_rel m (fs_of w) F K -> spec_program resolve cs F K = Some (answers, F', K') -> run_program cs m w = (ok, got, m', w') ->
  got `prefix_of` answers /\ (ok = true -> got = answers /\ session_rel m' (fs_of w') F' K').
Proof.
  revert m w F K answers got. induction cs as [|c cs IH]; intros m w F K answers got HR Es E; simpl in Es, E; [by simplify_eq|].
  destruct (spec_call resolve c F K) as [[[a F1] K1]|] eqn:Ec; [|done].
  destruct (spec_program resolve cs F1 K1) as [[[as1 F2] K2]|] eqn:Ep; simplify_eq.
  destruct (run_call c m w) as [[[r|] m1] w1] eqn:Er; simplify_eq; [|split; [apply prefix_nil|done]].
  destruct (run_program cs m1 w1) as [[[ok1 got1] m2] w2] eqn:Ep1. simplify_eq. destruct (calls_refine c _ _ _ _ _ _ _ _ _ _ HR Ec Er) as [-> HR1].
  destruct (IH _ _ _ _ _ _ HR1 Ep Ep1) as [Hpre Hok]. split; [by apply prefix_cons|]. intros Ht. destruct (Hok Ht) as [-> ?]. done.
Qed.

Lemma session_start w : session_rel ∅ (fs_of w) (files (fs_of w)) ∅.
Proof.
  by split.
Qed.

(** C35. Files as texts.  A program of any number of streams over any files -- opened for reading, writing or appending, with buffers of any
    sizes, written, flushed, read, closed, moved between objects, in any interleaving -- gets, up to the first call that reports a
    failure, the answers of an unbuffered file system in which a file is a text: what one stream has written and closed, the next one
    reads.  If nothing fails, every file that no stream still writes holds exactly its text at the end.  This on either platform, however
    the system splits, interrupts or refuses the calls, as long as no file is opened while another stream writes it, nor opened for
    writing while another stream reads it. *)
Theorem sessions_refine_files cs w answers F K ok got m w' :
  spec_program resolve cs (files (fs_of w)) ∅ = Some (answers, F, K) -> run_program cs ∅ w = (ok, got, m, w') ->
  got `prefix_of` answers /\
  (ok = true -> got = answers /\ forall f, (forall i, K !! i <> Some (Writing f)) -> files (fs_of w') !! f = F !! f).
Proof.
  intros Es E. destruct (program_refines _ _ _ _ _ _ _ _ _ _ _ _ (session_start w) Es E) as [Hpre Hok].
  split; [done|]. intros Ht. destruct (Hok Ht) as [-> HR]. split; [done|]. apply (settled _ _ _ _ HR).
Qed.

End refinement.

Definition demo_faults : list fault := [Short 1; Interrupted; Short 0; Short 2; Short 1; Interrupted; Interrupted].
Definition demo_refusal : list fault := [Short 1; Short 0; Short 2; Short 5; Short 9; Fails 5].

(** On both platforms: writes split and interrupted, two streams at once, a moved stream, lines read back. *)
Lemma sessions_refine_files_witness :
  let '(ok, got, m, w') := run_program demo_session ∅ (demo_disk demo_faults) in
  let '(ok', got', m', v') := run_program demo_session ∅ (WinFile (demo_disk demo_refusal)) in
  match spec_program (fun path => path) demo_session {[ $"in" := $"abcdef" ]} ∅ with
  | Some (answers, F, K) =>
      ok = true /\ got = answers /\ (forall f, files (disk_fs w') !! f = F !! f) /\ length got' = 3 /\ got' `prefix_of` answers
  | None => False
  end.
Proof.
  assert ((run_program demo_session ∅ (demo_disk demo_faults)).1.1.1 = true) as Hok by (vm_compute; reflexivity).
  assert (length (run_program demo_session ∅ (WinFile (demo_disk demo_refusal))).1.1.2 = 3) as Hl by (vm_compute; reflexivity).
  pose proof (sessions_refine_files (W := disk_world) demo_session (demo_disk demo_faults)) as H.
  pose proof (sessions_refine_files (W := win_file disk_world) demo_session (WinFile (demo_disk demo_refusal))) as H'.
  assert (match spec_program (fun path => path) demo_session {[ $"in" := $"abcdef" ]} ∅ with
          | Some (_, _, K) => bool_decide (K = ∅) | None => false end = true) as Hs by (vm_compute; reflexivity).
  destruct (run_program demo_session ∅ (demo_disk demo_faults)) as [[[ok got] m] w'].
  destruct (run_program demo_session ∅ (WinFile (demo_disk demo_refusal))) as [[[ok' got'] m'] v'].
  destruct (spec_program (fun path => path) demo_session {[ $"in" := $"abcdef" ]} ∅) as [[[answers F] K]|] eqn:Es; [|done].
  apply bool_decide_eq_true in Hs. subst K. destruct (H _ _ _ _ _ _ _ Es eq_refl) as [_ [Ha Hf]]; [done|].
  destruct (H' _ _ _ _ _ _ _ Es eq_refl) as [Hpre _]. split_and!; [done|done|intros f; by apply Hf|done|done].
Defined.
