(* ===== verification/SocketHost.v ===== *)
(** * The host functions of TcpSocket (tcp_socket.cpp): POSIX and Winsock

    The socket calls both platforms have are [NetOs], on the state [W] of the world outside; what the two branches do
    differently is [SocketHost].  [NetOsLaws] and [SocketHostLaws] are what the sockets rely on; each platform's
    functions are shown to keep the latter. *)

From S2P Require Import Prelude Posix.
Open Scope Z_scope.

(** What [getaddrinfo] returns for each address. *)
Record addrinfo := AddrInfo { ai_family : Z; ai_addr : text }.

(** The options of [SOL_SOCKET] the code reads or sets. *)
Inductive sockopt : Set := SO_ERROR | SO_REUSEADDR | SO_NOSIGPIPE.

(** [errno w] is what the thread's [errno] (on Windows, [WSAGetLastError]) holds: most calls report their own failure, but the
    resolver need not set it.  [calm w] bounds the interruptions still to come. *)
Class NetOs (W : Type) := {
  POLLIN : Z; POLLOUT : Z; POLLERR : Z; POLLNVAL : Z;
  calm : W -> nat;
  errno : W -> Z;
  sys_getaddrinfo : text -> text -> W -> (Z + list addrinfo) * W;
  sys_socket : Z -> W -> sysret Z * W;
  sys_connect : Z -> addrinfo -> W -> sysret unit * W;
  sys_close_fd : Z -> W -> W;
  sys_send : Z -> text -> Z -> W -> sysret nat * W;
  sys_recv : Z -> nat -> W -> sysret text * W;
  sys_poll : Z -> Z -> Z -> W -> sysret (Z * Z) * W;
  sys_select : Z -> option (Z * Z) -> W -> sysret Z * option (Z * Z) * W;
  sys_getsockopt : Z -> sockopt -> W -> sysret Z * W;
  sys_setsockopt : Z -> sockopt -> Z -> W -> sysret unit * W;
  sys_shutdown : Z -> W -> sysret unit * W;
  sys_bind : Z -> Z -> W -> sysret unit * W;
  sys_listen : Z -> Z -> W -> sysret unit * W;
  sys_getsockname : Z -> W -> sysret Z * W;
  sys_accept : Z -> W -> sysret Z * W;
  descriptors : W -> gset Z
}.

(** [FD_SET] is defined for the descriptors [fd_set_holds]. *)
Class SocketHost (W : Type) := {
  is_would_block : Z -> bool;
  is_in_progress : Z -> bool;
  is_interrupted : Z -> bool;
  native_send : Z -> text -> W -> sysret nat * W;
  native_recv : Z -> nat -> W -> sysret text * W;
  set_nonblocking_native : Z -> bool -> W -> sysret unit * W;
  configure_new_socket : Z -> W -> W;
  ensure_started : W -> W;
  fd_set_holds : Z -> bool
}.

(** [sent] and [incoming]: the bytes a connection has taken from the program, and those it still has for it. *)
Class NetOsLaws (W : Type) `{NetOs W} (interrupted : Z -> bool) (sent incoming : Z -> W -> text) : Prop := {
  socket_ok f w fd w' : sys_socket f w = (SysOk fd, w') -> 0 <= fd /\ (fd ∉ descriptors w) /\ descriptors w' = {[fd]} ∪ descriptors w;
  socket_failed f w e w' : sys_socket f w = (SysErr e, w') -> descriptors w' = descriptors w /\ e <> 0;
  accept_ok h w fd w' : sys_accept h w = (SysOk fd, w') -> 0 <= fd /\ (fd ∉ descriptors w) /\ descriptors w' = {[fd]} ∪ descriptors w;
  accept_failed h w e w' : sys_accept h w = (SysErr e, w') -> descriptors w' = descriptors w /\ (interrupted e = true -> calm w' < calm w)%nat;
  close_fd h w : descriptors (sys_close_fd h w) = descriptors w ∖ {[h]};
  getaddrinfo_fds host port w r w' : sys_getaddrinfo host port w = (r, w') -> descriptors w' = descriptors w;
  connect_fds h ai w r w' : sys_connect h ai w = (r, w') -> descriptors w' = descriptors w /\ (forall e, r = SysErr e -> e <> 0);
  poll_fds h ev t w r w' : sys_poll h ev t w = (r, w') ->
    descriptors w' = descriptors w /\ (forall e, r = SysErr e -> interrupted e = true -> calm w' < calm w)%nat;
  select_fds h tv w r tv' w' : sys_select h tv w = (r, tv', w') ->
    descriptors w' = descriptors w /\ (forall e, r = SysErr e -> interrupted e = true -> calm w' < calm w)%nat;
  getsockopt_fds h o w r w' : sys_getsockopt h o w = (r, w') -> descriptors w' = descriptors w;
  setsockopt_fds h o v w r w' : sys_setsockopt h o v w = (r, w') -> descriptors w' = descriptors w;
  shutdown_fds h w r w' : sys_shutdown h w = (r, w') -> descriptors w' = descriptors w;
  bind_fds h port w r w' : sys_bind h port w = (r, w') -> descriptors w' = descriptors w;
  listen_fds h backlog w r w' : sys_listen h backlog w = (r, w') -> descriptors w' = descriptors w;
  getsockname_fds h w r w' : sys_getsockname h w = (r, w') -> descriptors w' = descriptors w;
  send_ok h bs flags w n w' : sys_send h bs flags w = (SysOk n, w') -> descriptors w' = descriptors w /\ (n <= length bs)%nat /\ sent h w' = sent h w ++ take n bs;
  send_failed h bs flags w e w' : sys_send h bs flags w = (SysErr e, w') ->
    descriptors w' = descriptors w /\ sent h w' = sent h w /\ (interrupted e = true -> calm w' < calm w)%nat;
  recv_ok h n w bs w' : sys_recv h n w = (SysOk bs, w') ->
    descriptors w' = descriptors w /\ (length bs <= n)%nat /\ incoming h w = bs ++ incoming h w';
  recv_failed h n w e w' : sys_recv h n w = (SysErr e, w') ->
    descriptors w' = descriptors w /\ incoming h w' = incoming h w /\ (interrupted e = true -> calm w' < calm w)%nat
}.

Class SocketHostLaws (W : Type) `{NetOs W, SocketHost W} (sent incoming : Z -> W -> text) : Prop := {
  #[global] host_net :: NetOsLaws W is_interrupted sent incoming;
  native_send_spec fd bs w r w' : native_send fd bs w = (r, w') ->
    descriptors w' = descriptors w /\
    match r with SysOk n => (n <= length bs)%nat /\ sent fd w' = sent fd w ++ take n bs | SysErr _ => sent fd w' = sent fd w end;
  native_recv_spec fd n w r w' : native_recv fd n w = (r, w') ->
    descriptors w' = descriptors w /\
    match r with SysOk bs => (length bs <= n)%nat /\ incoming fd w = bs ++ incoming fd w' | SysErr _ => incoming fd w' = incoming fd w end;
  set_nonblocking_fds fd b w r w' : set_nonblocking_native fd b w = (r, w') -> descriptors w' = descriptors w /\ (forall e, r = SysErr e -> e <> 0);
  configure_fds fd w : descriptors (configure_new_socket fd w) = descriptors w;
  ensure_started_fds w : descriptors (ensure_started w) = descriptors w
}.

(** ** Options: the same on both platforms *)

Section options.
Context {W : Type} `{!NetOs W}.

(** [value] is [0] before the call, and keeps it when the call fails. *)
Definition get_so_error (fd : Z) (w : W) : Z * W :=
  match sys_getsockopt fd SO_ERROR w with
  | (SysOk value, w) => (value, w)
  | (SysErr _, w) => (0, w)
  end.

Definition set_reuse_addr (fd : Z) (w : W) : W := let '(_, w) := sys_setsockopt fd SO_REUSEADDR 1 w in w.

Context (interrupted : Z -> bool) (sent incoming : Z -> W -> text) `{!NetOsLaws W interrupted sent incoming}.

Lemma so_error_fds fd w so w' : get_so_error fd w = (so, w') -> descriptors w' = descriptors w.
Proof.
  unfold get_so_error. destruct (sys_getsockopt fd SO_ERROR w) as [[v|e] w1] eqn:E; apply getsockopt_fds in E; by intros [= <- <-].
Qed.

Lemma reuse_fds fd w : descriptors (set_reuse_addr fd w) = descriptors w.
Proof. unfold set_reuse_addr. destruct (sys_setsockopt fd SO_REUSEADDR 1 w) as [r w1] eqn:E. by apply setsockopt_fds in E. Qed.

End options.

(** ** POSIX

    What the headers of the platform define: [MSG_NOSIGNAL], a flag of [send] (Linux), or the option [SO_NOSIGPIPE] (macOS and
    the BSDs); both keep a send to a closed connection from raising [SIGPIPE]. *)

Class PosixNet (W : Type) := {
  MSG_NOSIGNAL : option Z; has_so_nosigpipe : bool;
  EINTR_ : Z; EWOULDBLOCK : Z; EAGAIN : Z; EINPROGRESS : Z; O_NONBLOCK : Z; FD_SETSIZE : Z;
  sys_getfl : Z -> W -> sysret Z * W;
  sys_setfl : Z -> Z -> W -> sysret unit * W
}.

Class PosixNetLaws (W : Type) `{NetOs W, PosixNet W} : Prop := {
  getfl_fds h w r w' : sys_getfl h w = (r, w') -> descriptors w' = descriptors w /\ (forall e, r = SysErr e -> e <> 0);
  setfl_fds h flags w r w' : sys_setfl h flags w = (r, w') -> descriptors w' = descriptors w /\ (forall e, r = SysErr e -> e <> 0)
}.

Module PosixSockets.
Section posix.
Context {W : Type} `{!NetOs W, !PosixNet W}.

Definition is_would_block (e : Z) : bool := (e =? EWOULDBLOCK) || (e =? EAGAIN).
Definition is_in_progress (e : Z) : bool := e =? EINPROGRESS.
Definition is_interrupted (e : Z) : bool := e =? EINTR_.

Definition k_send_flags : Z := default 0 MSG_NOSIGNAL.

Definition native_send (fd : Z) (bs : text) (w : W) : sysret nat * W := retry is_interrupted calm (sys_send fd bs k_send_flags) w.
Definition native_recv (fd : Z) (n : nat) (w : W) : sysret text * W := retry is_interrupted calm (sys_recv fd n) w.

Definition set_nonblocking_native (fd : Z) (enabled : bool) (w : W) : sysret unit * W :=
  match sys_getfl fd w with
  | (SysErr e, w) => (SysErr e, w)
  | (SysOk flags, w) => sys_setfl fd (if enabled then Z.lor flags O_NONBLOCK else Z.ldiff flags O_NONBLOCK) w
  end.

Definition configure_new_socket (fd : Z) (w : W) : W :=
  if has_so_nosigpipe then let '(_, w) := sys_setsockopt fd SO_NOSIGPIPE 1 w in w else w.

Definition ensure_started (w : W) : W := w.

(** [fd_set] is a bit set of [FD_SETSIZE] descriptors. *)
Definition fd_set_holds (fd : Z) : bool := (0 <=? fd) && (fd <? FD_SETSIZE).

#[global] Instance host : SocketHost W := {
  SocketHost.is_would_block := is_would_block;
  SocketHost.is_in_progress := is_in_progress;
  SocketHost.is_interrupted := is_interrupted;
  SocketHost.native_send := native_send;
  SocketHost.native_recv := native_recv;
  SocketHost.set_nonblocking_native := set_nonblocking_native;
  SocketHost.configure_new_socket := configure_new_socket;
  SocketHost.ensure_started := ensure_started;
  SocketHost.fd_set_holds := fd_set_holds
}.

Context (sent incoming : Z -> W -> text) `{!NetOsLaws W is_interrupted sent incoming, !PosixNetLaws W}.

#[global] Instance laws : SocketHostLaws W sent incoming.
Proof.
  split; [done|..].
  - intros fd bs w r w' E. destruct (retry_spec is_interrupted calm (fun w1 => descriptors w1 = descriptors w /\ sent fd w1 = sent fd w) (sys_send fd bs k_send_flags) w r w')
      as (_ & w1 & [Hw1 Hs1] & Es & _); [|done|done|].
    + intros w1 w2 e [H1 H2] Es He. destruct (send_failed _ _ _ _ _ _ Es) as (H3 & H4 & H5). split; [split; congruence|]. by apply H5.
    + destruct r as [n|e]; [destruct (send_ok _ _ _ _ _ _ Es) as (H1 & H2 & H3)|destruct (send_failed _ _ _ _ _ _ Es) as (H1 & H2 & _)];
        rewrite <- Hs1; split_and!; congruence || done.
  - intros fd n w r w' E. destruct (retry_spec is_interrupted calm (fun w1 => descriptors w1 = descriptors w /\ incoming fd w1 = incoming fd w) (sys_recv fd n) w r w')
      as (_ & w1 & [Hw1 Hs1] & Es & _); [|done|done|].
    + intros w1 w2 e [H1 H2] Es He. destruct (recv_failed _ _ _ _ _ Es) as (H3 & H4 & H5). split; [split; congruence|]. by apply H5.
    + destruct r as [bs|e]; [destruct (recv_ok _ _ _ _ _ Es) as (H1 & H2 & H3)|destruct (recv_failed _ _ _ _ _ Es) as (H1 & H2 & _)];
        rewrite <- Hs1; split_and!; congruence || done.
  - intros fd b w r w'. simpl. unfold set_nonblocking_native. destruct (sys_getfl fd w) as [[flags|e] w1] eqn:E1; destruct (getfl_fds _ _ _ _ E1) as [H1 H1e].
    + intros E2. destruct (setfl_fds _ _ _ _ _ E2) as [H2 H2e]. split; [congruence|done].
    + intros [= <- <-]. split; [done|]. intros e' [= <-]. by apply (H1e e).
  - intros fd w. simpl. unfold configure_new_socket. destruct has_so_nosigpipe; [|done].
    destruct (sys_setsockopt fd SO_NOSIGPIPE 1 w) as [r w1] eqn:E. by apply setsockopt_fds in E.
  - done.
Qed.

End posix.
End PosixSockets.

(** ** Winsock

    The library is started once for the process ([std::call_once]) and never shut down; no call is interrupted; sizes are
    capped to [INT_MAX]; an [fd_set] is an array of handles. *)

Class WinNet (W : Type) := {
  WSAEWOULDBLOCK : Z;
  started : W -> bool;
  WSAStartup : W -> W;
  sys_ioctlsocket : Z -> Z -> W -> sysret unit * W
}.

Class WinNetLaws (W : Type) `{NetOs W, WinNet W} : Prop := {
  WSAStartup_starts w : started (WSAStartup w) = true /\ descriptors (WSAStartup w) = descriptors w;
  ioctl_fds h mode w r w' : sys_ioctlsocket h mode w = (r, w') -> descriptors w' = descriptors w /\ (forall e, r = SysErr e -> e <> 0)
}.

Definition int_max : Z := 2 ^ 31 - 1.

Module WindowsSockets.
Section windows.
Context {W : Type} `{!NetOs W, !WinNet W}.

Definition is_would_block (e : Z) : bool := e =? WSAEWOULDBLOCK.
Definition is_in_progress (e : Z) : bool := e =? WSAEWOULDBLOCK.
Definition is_interrupted (e : Z) : bool := false.

(** [std::min<std::size_t>(len, INT_MAX)]. *)
Definition capped (n : nat) : nat := Z.to_nat (Z.min (Z.of_nat n) int_max).

Definition native_send (fd : Z) (bs : text) (w : W) : sysret nat * W := sys_send fd (take (capped (length bs)) bs) 0 w.
Definition native_recv (fd : Z) (n : nat) (w : W) : sysret text * W := sys_recv fd (capped n) w.
Definition set_nonblocking_native (fd : Z) (enabled : bool) (w : W) : sysret unit * W := sys_ioctlsocket fd (if enabled then 1 else 0) w.
Definition configure_new_socket (fd : Z) (w : W) : W := w.
Definition ensure_started (w : W) : W := if started w then w else WSAStartup w.
Definition fd_set_holds (fd : Z) : bool := true.

#[export] Instance host : SocketHost W := {
  SocketHost.is_would_block := is_would_block;
  SocketHost.is_in_progress := is_in_progress;
  SocketHost.is_interrupted := is_interrupted;
  SocketHost.native_send := native_send;
  SocketHost.native_recv := native_recv;
  SocketHost.set_nonblocking_native := set_nonblocking_native;
  SocketHost.configure_new_socket := configure_new_socket;
  SocketHost.ensure_started := ensure_started;
  SocketHost.fd_set_holds := fd_set_holds
}.

Context (sent incoming : Z -> W -> text) `{!NetOsLaws W is_interrupted sent incoming, !WinNetLaws W}.

Lemma started_once w : started (ensure_started w) = true /\ ensure_started (ensure_started w) = ensure_started w.
Proof.
  unfold ensure_started. destruct (started w) eqn:E; [by rewrite E|]. destruct (WSAStartup_starts w) as [Hs _]. by rewrite Hs.
Qed.

Lemma socket_capped_le n : (capped n <= n)%nat.
Proof. unfold capped, int_max. lia. Qed.

#[export] Instance laws : SocketHostLaws W sent incoming.
Proof.
  split; [done|..].
  - intros fd bs w [n|e] w' E; pose proof (socket_capped_le (length bs)) as Hle.
    + destruct (send_ok _ _ _ _ _ _ E) as (H1 & H2 & H3). rewrite length_take in H2. rewrite take_take, Nat.min_l in H3 by lia. split_and!; try done. lia.
    + by destruct (send_failed _ _ _ _ _ _ E) as (H1 & H2 & _).
  - intros fd n w [bs|e] w' E; pose proof (socket_capped_le n) as Hle.
    + destruct (recv_ok _ _ _ _ _ E) as (H1 & H2 & H3). split_and!; try done. lia.
    + by destruct (recv_failed _ _ _ _ _ E) as (H1 & H2 & _).
  - intros fd b w r w' E. exact (ioctl_fds _ _ _ _ _ E).
  - done.
  - intros w. simpl. unfold ensure_started. destruct (started w); [done|]. by destruct (WSAStartup_starts w).
Qed.

End windows.
End WindowsSockets.
