(* ===== verification/TcpSocket.v ===== *)
(** * TcpSocket and TcpServer (tcp_socket.hpp, tcp_socket.cpp): sockets

    The operations pass the world outside along and reach it through the calls of [NetOs] and [SocketHost], so that
    every theorem holds on POSIX and on Windows. *)

From S2P Require Import Prelude Charconv Posix SocketHost.
Open Scope Z_scope.

Inductive WaitResult : Set := ready | timed_out | wait_error.
Inductive IoStatus : Set := io_ok | io_closed | would_block | io_error.
Record IoResult := MkIo { status : IoStatus; bytes : nat }.

(** [IoResult::operator bool]. *)
Definition transferred (r : IoResult) : bool := match status r with io_ok => true | _ => false end.

Definition invalid_handle : Z := -1.

Record tcp_socket := TcpSocket { handle_ : Z; error_ : Z; non_blocking_ : bool }.
Record tcp_server := TcpServer { server_handle_ : Z; server_error_ : Z; local_port_ : Z; server_non_blocking_ : bool }.

Definition is_open (s : tcp_socket) : bool := negb (handle_ s =? invalid_handle).
Definition server_is_open (s : tcp_server) : bool := negb (server_handle_ s =? invalid_handle).
Definition set_error (s : tcp_socket) (e : Z) : tcp_socket := TcpSocket (handle_ s) e (non_blocking_ s).
Definition server_set_error (s : tcp_server) (e : Z) : tcp_server := TcpServer (server_handle_ s) e (local_port_ s) (server_non_blocking_ s).

Section sockets.
Context {W : Type} `{!NetOs W, !SocketHost W}.

(** ** Waiting *)

(** [poll_one]: the result, and [revents] or the error. *)
Definition poll_one (fd events timeout_ms : Z) (w : W) : WaitResult * Z * Z * W :=
  match retry is_interrupted calm (sys_poll fd events timeout_ms) w with
  | (SysErr e, w) => (wait_error, 0, e, w)
  | (SysOk (n, revents), w) => if n =? 0 then (timed_out, 0, 0, w) else (ready, revents, 0, w)
  end.

(** [timeval *timeout]: a null pointer waits for ever. *)
Definition timeval_of (timeout_ms : Z) : option (Z * Z) :=
  if 0 <=? timeout_ms then Some (Z.quot timeout_ms 1000, Z.rem timeout_ms 1000 * 1000) else None.

(** The loop passes the same [timeval] to each call, as the call before has left it.  [FD_SET] is only defined for
    the descriptors an [fd_set] can hold; beyond them the behaviour is undefined ([None]). *)
Definition wait_connect_resolved (fd timeout_ms : Z) (w : W) : option (WaitResult * Z * W) :=
  if fd_set_holds fd then
    let call (tw : option (Z * Z) * W) := let '(r, t, w) := sys_select fd tw.1 tw.2 in (r, (t, w)) in
    let '(r, (_, w)) := retry is_interrupted (fun tw => calm tw.2) call (timeval_of timeout_ms, w) in
    Some (match r with
          | SysErr e => (wait_error, e, w)
          | SysOk n => if n =? 0 then (timed_out, 0, w) else (ready, 0, w)
          end)
  else None.

(** ** TcpSocket *)

Definition close (s : tcp_socket) (w : W) : bool * tcp_socket * W :=
  if is_open s then (true, TcpSocket invalid_handle (error_ s) (non_blocking_ s), sys_close_fd (handle_ s) w) else (true, s, w).

Definition destroy (s : tcp_socket) (w : W) : W := let '(_, _, w) := close s w in w.

Definition move_construct (other : tcp_socket) : tcp_socket * tcp_socket :=
  (other, TcpSocket invalid_handle (error_ other) (non_blocking_ other)).

Definition move_assign (s other : tcp_socket) (w : W) : tcp_socket * tcp_socket * W :=
  let '(_, _, w) := close s w in
  let '(s, other) := move_construct other in
  (s, other, w).

(** The loop over the addresses: the descriptor, or the error of the last attempt. *)
Fixpoint try_addresses (non_blocking : bool) (ais : list addrinfo) (last : Z) (w : W) : (Z + Z) * W :=
  match ais with
  | [] => (inr last, w)
  | ai :: ais =>
      match sys_socket (ai_family ai) w with
      | (SysErr e, w) => try_addresses non_blocking ais e w
      | (SysOk fd, w) =>
          let w := configure_new_socket fd w in
          match (if non_blocking then set_nonblocking_native fd true w else (SysOk tt, w)) with
          | (SysErr e, w) => try_addresses non_blocking ais e (sys_close_fd fd w)
          | (SysOk _, w) =>
              match sys_connect fd ai w with
              | (SysOk _, w) => (inl fd, w)
              | (SysErr e, w) => if is_in_progress e then (inl fd, w) else try_addresses non_blocking ais e (sys_close_fd fd w)
              end
          end
      end
  end.

Definition connect (host : text) (port : Z) (non_blocking : bool) (w : W) : tcp_socket * W :=
  let w := ensure_started w in
  match sys_getaddrinfo (c_str host) (digits 10 port) w with
  | (inl _, w) => (TcpSocket invalid_handle (errno w) non_blocking, w)
  | (inr ais, w) =>
      match try_addresses non_blocking ais 0 w with
      | (inl fd, w) => (TcpSocket fd 0 non_blocking, w)
      | (inr last, w) => (TcpSocket invalid_handle last non_blocking, w)
      end
  end.

Definition set_non_blocking (s : tcp_socket) (enabled : bool) (w : W) : bool * tcp_socket * W :=
  if is_open s then
    match set_nonblocking_native (handle_ s) enabled w with
    | (SysErr e, w) => (false, set_error s e, w)
    | (SysOk _, w) => (true, TcpSocket (handle_ s) (error_ s) enabled, w)
    end
  else (false, s, w).

Definition wait_connected (s : tcp_socket) (timeout_ms : Z) (w : W) : option (WaitResult * tcp_socket * W) :=
  if is_open s then
    match wait_connect_resolved (handle_ s) timeout_ms w with
    | None => None
    | Some (wait_error, e, w) => Some (wait_error, set_error s e, w)
    | Some (timed_out, _, w) => Some (timed_out, s, w)
    | Some (ready, _, w) =>
        let '(so, w) := get_so_error (handle_ s) w in
        Some (if so =? 0 then (ready, s, w) else (wait_error, set_error s so, w))
    end
  else Some (wait_error, s, w).

Definition wait_readable (s : tcp_socket) (timeout_ms : Z) (w : W) : WaitResult * tcp_socket * W :=
  if is_open s then
    match poll_one (handle_ s) POLLIN timeout_ms w with
    | (wait_error, _, e, w) => (wait_error, set_error s e, w)
    | (r, _, _, w) => (r, s, w)
    end
  else (wait_error, s, w).

Definition wait_writable (s : tcp_socket) (timeout_ms : Z) (w : W) : WaitResult * tcp_socket * W :=
  if is_open s then
    match poll_one (handle_ s) POLLOUT timeout_ms w with
    | (wait_error, _, e, w) => (wait_error, set_error s e, w)
    | (timed_out, _, _, w) => (timed_out, s, w)
    | (ready, revents, _, w) =>
        if Z.land revents (Z.lor POLLERR POLLNVAL) =? 0 then (ready, s, w)
        else
          let '(so, w) := get_so_error (handle_ s) w in
          (wait_error, set_error s (if so =? 0 then error_ s else so), w)
    end
  else (wait_error, s, w).

Definition send (s : tcp_socket) (src : text) (w : W) : IoResult * tcp_socket * W :=
  if is_open s then
    match native_send (handle_ s) src w with
    | (SysErr e, w) => if is_would_block e then (MkIo would_block 0, s, w) else (MkIo io_error 0, set_error s e, w)
    | (SysOk n, w) => (MkIo io_ok n, s, w)
    end
  else (MkIo io_error 0, s, w).

(** [recv(dst)] with [dst.size() = n]: the bytes stored at the front of [dst], too. *)
Definition recv (s : tcp_socket) (n : nat) (w : W) : IoResult * text * tcp_socket * W :=
  if is_open s then
    match native_recv (handle_ s) n w with
    | (SysErr e, w) => if is_would_block e then (MkIo would_block 0, [], s, w) else (MkIo io_error 0, [], set_error s e, w)
    | (SysOk [], w) => (MkIo io_closed 0, [], s, w)
    | (SysOk bs, w) => (MkIo io_ok (length bs), bs, s, w)
    end
  else (MkIo io_error 0, [], s, w).

Definition shutdown_write (s : tcp_socket) (w : W) : bool * tcp_socket * W :=
  if is_open s then
    match sys_shutdown (handle_ s) w with
    | (SysErr e, w) => (false, set_error s e, w)
    | (SysOk _, w) => (true, s, w)
    end
  else (false, s, w).

(** ** TcpServer *)

Definition server_close (s : tcp_server) (w : W) : bool * tcp_server * W :=
  if server_is_open s then (true, TcpServer invalid_handle (server_error_ s) 0 (server_non_blocking_ s), sys_close_fd (server_handle_ s) w)
  else (true, s, w).

Definition server_destroy (s : tcp_server) (w : W) : W := let '(_, _, w) := server_close s w in w.

Definition server_move_construct (other : tcp_server) : tcp_server * tcp_server :=
  (other, TcpServer invalid_handle (server_error_ other) 0 (server_non_blocking_ other)).

Definition server_move_assign (s other : tcp_server) (w : W) : tcp_server * tcp_server * W :=
  let '(_, _, w) := server_close s w in
  let '(s, other) := server_move_construct other in
  (s, other, w).

(** [AF_INET] is the family 2; the address is every interface. *)
Definition listen (port backlog : Z) (non_blocking : bool) (w : W) : tcp_server * W :=
  let failed e := TcpServer invalid_handle e 0 non_blocking in
  let w := ensure_started w in
  match sys_socket 2 w with
  | (SysErr e, w) => (failed e, w)
  | (SysOk fd, w) =>
      let w := set_reuse_addr fd w in
      match (if non_blocking then set_nonblocking_native fd true w else (SysOk tt, w)) with
      | (SysErr e, w) => (failed e, sys_close_fd fd w)
      | (SysOk _, w) =>
          match sys_bind fd port w with
          | (SysErr e, w) => (failed e, sys_close_fd fd w)
          | (SysOk _, w) =>
              match sys_listen fd backlog w with
              | (SysErr e, w) => (failed e, sys_close_fd fd w)
              | (SysOk _, w) =>
                  match sys_getsockname fd w with
                  | (SysOk bound, w) => (TcpServer fd 0 bound non_blocking, w)
                  | (SysErr _, w) => (TcpServer fd 0 port non_blocking, w)
                  end
              end
          end
      end
  end.

Definition server_wait_readable (s : tcp_server) (timeout_ms : Z) (w : W) : WaitResult * tcp_server * W :=
  if server_is_open s then
    match poll_one (server_handle_ s) POLLIN timeout_ms w with
    | (wait_error, _, e, w) => (wait_error, server_set_error s e, w)
    | (r, _, _, w) => (r, s, w)
    end
  else (wait_error, s, w).

(** The [for (;;)] of the code only comes round again after [EINTR]. *)
Definition accept (s : tcp_server) (w : W) : option tcp_socket * tcp_server * W :=
  if server_is_open s then
    let s := server_set_error s 0 in
    match retry is_interrupted calm (sys_accept (server_handle_ s)) w with
    | (SysErr e, w) => (None, if is_would_block e then s else server_set_error s e, w)
    | (SysOk fd, w) =>
        match set_nonblocking_native fd (server_non_blocking_ s) w with
        | (SysErr e, w) => (None, server_set_error s e, sys_close_fd fd w)
        | (SysOk _, w) => (Some (TcpSocket fd 0 (server_non_blocking_ s)), s, w)
        end
    end
  else (None, s, w).

End sockets.

Section laws.
Context {W : Type} `{!NetOs W, !SocketHost W} (sent incoming : Z -> W -> text) `{!SocketHostLaws W sent incoming}.

Lemma retry_fds {A} (sys : W -> sysret A * W) w r w' :
  (forall w r w', sys w = (r, w') -> descriptors w' = descriptors w /\ (forall e, r = SysErr e -> is_interrupted e = true -> calm w' < calm w)%nat) ->
  retry is_interrupted calm sys w = (r, w') -> descriptors w' = descriptors w.
Proof.
  intros H E. destruct (retry_spec is_interrupted calm (fun w1 => descriptors w1 = descriptors w) sys w r w') as (_ & w1 & Hw1 & Es & _); [|done|done|].
  - intros w1 w2 e Hw1 Es He. destruct (H _ _ _ Es) as [Hd Hc]. split; [congruence|]. by apply (Hc e).
  - destruct (H _ _ _ Es) as [Hd _]. congruence.
Qed.

Lemma if_nonblocking_fds (b : bool) fd w r w' :
  (if b then set_nonblocking_native fd true w else (SysOk tt, w)) = (r, w') -> descriptors w' = descriptors w /\ (forall e, r = SysErr e -> e <> 0).
Proof. destruct b; [apply set_nonblocking_fds|intros [= <- <-]; done]. Qed.

(** Closing what was just opened. *)
Lemma close_opened (fd : Z) (D : gset Z) : fd ∉ D -> ({[fd]} ∪ D) ∖ {[fd]} = D.
Proof. set_solver. Qed.

(** What trying the addresses [ais] comes to, from the descriptors [D]. *)
Definition attempt (D : gset Z) (ais : list addrinfo) (last : Z) (r : Z + Z) (w' : W) : Prop :=
  match r with
  | inl fd => 0 <= fd /\ (fd ∉ D) /\ descriptors w' = {[fd]} ∪ D
  | inr e => descriptors w' = D /\ (ais <> [] -> e <> 0) /\ (ais = [] -> e = last)
  end.

Lemma attempt_later D ai ais last e r w' : e <> 0 -> attempt D ais e r w' -> attempt D (ai :: ais) last r w'.
Proof.
  intros He. destruct r as [fd|e']; [done|]. intros (H1 & H2 & H3). split_and!; [done| |done].
  intros _. destruct ais; [by rewrite H3|by apply H2].
Qed.

Lemma try_addresses_spec nb ais last w r w' : try_addresses nb ais last w = (r, w') -> attempt (descriptors w) ais last r w'.
Proof.
  revert last w. induction ais as [|ai ais IH]; intros last w E; simpl in E; [by simplify_eq|].
  destruct (sys_socket (ai_family ai) w) as [[fd|e] w1] eqn:E1.
  - destruct (socket_ok _ _ _ _ E1) as (H0 & Hn & Hd). cbv zeta in E.
    destruct (if nb then _ else _) as [[u|e] w2] eqn:E2; destruct (if_nonblocking_fds _ _ _ _ _ E2) as [H2 H2e]; rewrite configure_fds in H2.
    + destruct (sys_connect fd ai w2) as [[u'|e] w3] eqn:E3; destruct (connect_fds _ _ _ _ _ E3) as [H3 H3e].
      * simplify_eq. unfold attempt. split_and!; [done|done|congruence].
      * destruct (is_in_progress e); [simplify_eq; unfold attempt; split_and!; [done|done|congruence]|].
        apply (attempt_later _ _ _ _ e); [by apply H3e|]. apply IH in E. by rewrite close_fd, H3, H2, Hd, close_opened in E.
    + apply (attempt_later _ _ _ _ e); [by apply H2e|]. apply IH in E. by rewrite close_fd, H2, Hd, close_opened in E.
  - destruct (socket_failed _ _ _ _ E1) as [H1 H1e]. apply (attempt_later _ _ _ _ e); [done|]. apply IH in E. by rewrite H1 in E.
Qed.

Lemma connect_spec host port nb w s w' :
  connect host port nb w = (s, w') ->
  (is_open s = false /\ descriptors w' = descriptors w) \/
  (0 <= handle_ s /\ (handle_ s ∉ descriptors w) /\ descriptors w' = {[handle_ s]} ∪ descriptors w).
Proof.
  unfold connect. destruct (sys_getaddrinfo _ _ _) as [[e|ais] w1] eqn:E1; pose proof (getaddrinfo_fds _ _ _ _ _ E1) as H1; rewrite ensure_started_fds in H1.
  - intros [= <- <-]. by left.
  - destruct (try_addresses nb ais 0 w1) as [[fd|e] w2] eqn:E2; pose proof (try_addresses_spec _ _ _ _ _ _ E2) as H2; rewrite H1 in H2;
      intros [= <- <-]; simpl in *; [by right|by left; destruct H2].
Qed.

Lemma listen_spec port backlog nb w s w' :
  listen port backlog nb w = (s, w') ->
  (server_is_open s = false /\ descriptors w' = descriptors w) \/
  (0 <= server_handle_ s /\ (server_handle_ s ∉ descriptors w) /\ descriptors w' = {[server_handle_ s]} ∪ descriptors w).
Proof.
  unfold listen. destruct (sys_socket 2 _) as [[fd|e] w1] eqn:E1.
  - destruct (socket_ok _ _ _ _ E1) as (H0 & Hn & Hd). rewrite ensure_started_fds in Hn, Hd. pose proof (reuse_fds is_interrupted sent incoming fd w1) as Hr. cbv zeta.
    destruct (if nb then _ else _) as [[u|e] w2] eqn:E2; destruct (if_nonblocking_fds _ _ _ _ _ E2) as [H2 _];
      [|intros [= <- <-]; left; by rewrite close_fd, H2, Hr, Hd, close_opened].
    destruct (sys_bind fd port w2) as [[u'|e] w3] eqn:E3; pose proof (bind_fds _ _ _ _ _ E3) as H3;
      [|intros [= <- <-]; left; by rewrite close_fd, H3, H2, Hr, Hd, close_opened].
    destruct (sys_listen fd backlog w3) as [[u''|e] w4] eqn:E4; pose proof (listen_fds _ _ _ _ _ E4) as H4;
      [|intros [= <- <-]; left; by rewrite close_fd, H4, H3, H2, Hr, Hd, close_opened].
    destruct (sys_getsockname fd w4) as [[bound|e] w5] eqn:E5; pose proof (getsockname_fds _ _ _ _ E5) as H5; intros [= <- <-]; right;
      simpl; (split_and!; [done|done|congruence]).
  - destruct (socket_failed _ _ _ _ E1) as [H1 _]. rewrite ensure_started_fds in H1. intros [= <- <-]. by left.
Qed.

Lemma accept_spec s w r s' w' :
  accept s w = (r, s', w') ->
  server_handle_ s' = server_handle_ s /\
  match r with
  | None => descriptors w' = descriptors w
  | Some c => 0 <= handle_ c /\ (handle_ c ∉ descriptors w) /\ descriptors w' = {[handle_ c]} ∪ descriptors w
  end.
Proof.
  unfold accept. destruct (server_is_open s); [|by intros [= <- <- <-]]. cbv zeta.
  destruct (retry is_interrupted calm _ w) as [r1 w1] eqn:E1.
  destruct (retry_spec is_interrupted calm (fun w1 => descriptors w1 = descriptors w) (sys_accept (server_handle_ (server_set_error s 0))) w r1 w1) as (_ & w0 & Hw0 & Es & _); [|done|done|].
  { intros w2 w3 e H2 Es He. destruct (accept_failed _ _ _ _ Es) as [H3 H4]. split; [congruence|by apply H4]. }
  destruct r1 as [fd|e].
  - destruct (accept_ok _ _ _ _ Es) as (H0 & Hn & Hd). rewrite Hw0 in *. destruct (set_nonblocking_native _ _ w1) as [[u|e] w2] eqn:E2;
      destruct (set_nonblocking_fds _ _ _ _ _ E2) as [H2 _]; intros [= <- <- <-]; (split; [done|]); simpl.
    + split_and!; [done|done|congruence].
    + by rewrite close_fd, H2, Hd, close_opened.
  - destruct (accept_failed _ _ _ _ Es) as [H1 _]. intros [= <- <- <-]. split; [by destruct (is_would_block e)|congruence].
Qed.

End laws.
