(* ===== verification/SocketSignals.v ===== *)
(** * SIGPIPE and the sockets of TcpSocket and TcpServer (tcp_socket.cpp, POSIX branch)

    A send to a connection that its peer has closed raises the signal [SIGPIPE], which ends the process, unless the call carries
    [MSG_NOSIGNAL] or the socket has the option [SO_NOSIGPIPE].  The code uses the flag where the platform has one
    ([k_send_flags]) and else the option ([configure_new_socket]).  Here: which sockets are protected. *)

From S2P Require Import Prelude Posix SocketHost TcpSocket.
Open Scope Z_scope.

Section signals.
Context {W : Type} `{!NetOs W, !PosixNet W}.
Import PosixSockets.

(** [silent fd w]: the socket [fd] has [SO_NOSIGPIPE]. *)
Context (silent : Z -> W -> bool).

(** May a send on [fd] with these flags raise the signal? *)
Definition may_raise (fd flags : Z) (w : W) : bool :=
  negb (silent fd w) && match MSG_NOSIGNAL with Some f => Z.land flags f =? 0 | None => true end.

(** A system function that leaves the option of every socket as it was. *)
Definition keeps_silent {A} (sys : W -> A * W) : Prop := forall w r w' fd, sys w = (r, w') -> silent fd w' = silent fd w.

(** A new socket lacks the option, an accepted one has it at most when its listener does, and only setting it changes it.  Interruptions are
    finite. *)
Class SilentLaws : Prop := {
  socket_silent f w fd w' : sys_socket f w = (SysOk fd, w') -> silent fd w' = false;
  accept_silent h w fd w' : sys_accept h w = (SysOk fd, w') -> silent fd w' = true -> silent h w = true;
  accept_retry_silent h w e w' : sys_accept h w = (SysErr e, w') ->
    silent h w' = silent h w /\ (is_interrupted e = true -> calm w' < calm w)%nat;
  set_silent fd w u w' : sys_setsockopt fd SO_NOSIGPIPE 1 w = (SysOk u, w') -> silent fd w' = true;
  reuse_silent fd v : keeps_silent (sys_setsockopt fd SO_REUSEADDR v);
  getfl_silent fd : keeps_silent (sys_getfl fd);
  setfl_silent fd flags : keeps_silent (sys_setfl fd flags);
  connect_silent fd ai : keeps_silent (sys_connect fd ai);
  bind_silent fd port : keeps_silent (sys_bind fd port);
  listen_silent fd backlog : keeps_silent (sys_listen fd backlog);
  getsockname_silent fd : keeps_silent (sys_getsockname fd)
}.

Context `{!SilentLaws}.

Lemma set_nonblocking_silent fd b : keeps_silent (set_nonblocking_native fd b).
Proof.
  intros w r w' h. unfold set_nonblocking_native. destruct (sys_getfl fd w) as [[flags|e] w1] eqn:E1; pose proof (getfl_silent _ _ _ _ h E1) as H1.
  - intros E2. by rewrite (setfl_silent _ _ _ _ _ h E2), H1.
  - by intros [= _ <-].
Qed.

Lemma if_nonblocking_silent (b : bool) fd : keeps_silent (fun w => if b then set_nonblocking_native fd true w else (SysOk tt, w)).
Proof. intros w r w' h. destruct b; [apply set_nonblocking_silent|by intros [= _ <-]]. Qed.

(** Where [send] has no flag, every listener, and so every connection it accepts, lacks the protection. *)
Lemma listener_not_silent port backlog nb w s w' :
  listen port backlog nb w = (s, w') -> server_is_open s = true -> silent (server_handle_ s) w' = false.
Proof.
  unfold listen. destruct (sys_socket 2 _) as [[fd|e] w1] eqn:E1; [|by intros [= <- <-]]. pose proof (socket_silent _ _ _ _ E1) as H1. cbv zeta.
  unfold set_reuse_addr. destruct (sys_setsockopt fd SO_REUSEADDR 1 w1) as [r0 w2] eqn:E2. pose proof (reuse_silent _ _ _ _ _ fd E2) as H2.
  destruct (if nb then _ else _) as [[u|e] w3] eqn:E3; [|by intros [= <- <-]]. pose proof (if_nonblocking_silent nb fd _ _ _ fd E3) as H3.
  destruct (sys_bind fd port w3) as [[u'|e] w4] eqn:E4; [|by intros [= <- <-]]. pose proof (bind_silent _ _ _ _ _ fd E4) as H4.
  destruct (sys_listen fd backlog w4) as [[u''|e] w5] eqn:E5; [|by intros [= <- <-]]. pose proof (listen_silent _ _ _ _ _ fd E5) as H5.
  destruct (sys_getsockname fd w5) as [[bound|e] w6] eqn:E6; pose proof (getsockname_silent _ _ _ _ fd E6) as H6; intros [= <- <-] _; simpl; congruence.
Qed.

Lemma accepted_not_silent s w c s' w' :
  accept s w = (Some c, s', w') -> silent (server_handle_ s) w = false -> silent (handle_ c) w' = false.
Proof.
  unfold accept. destruct (server_is_open s); [|done]. cbv zeta. intros E Hs.
  destruct (retry SocketHost.is_interrupted calm _ w) as [r1 w1] eqn:E1.
  destruct (retry_spec is_interrupted calm (fun w1 => silent (server_handle_ s) w1 = false) (sys_accept (server_handle_ s)) w r1 w1) as (_ & w0 & Hw0 & Es & _); [|done|done|].
  { intros w2 w3 e H2 Es He. destruct (accept_retry_silent _ _ _ _ Es) as [-> H4]. split; [done|by apply H4]. }
  destruct r1 as [fd|e]; [|done]. simpl in E. destruct (set_nonblocking_native fd (server_non_blocking_ s) w1) as [[u|e] w2] eqn:E2; [|done].
  injection E as <- _ <-. simpl. rewrite (set_nonblocking_silent _ _ _ _ _ fd E2). destruct (silent fd w1) eqn:Hf; [|done].
  by rewrite (accept_silent _ _ _ _ Es Hf) in Hw0.
Qed.

(** On a platform without [MSG_NOSIGNAL] (macOS, the BSDs) a send on an accepted connection may raise the signal: [accept] never
    calls [configure_new_socket], as [connect] does. *)
Theorem accepted_sockets_may_raise port backlog nb w s w1 c s' w2 :
  @MSG_NOSIGNAL W _ = None -> listen port backlog nb w = (s, w1) -> server_is_open s = true -> accept s w1 = (Some c, s', w2) ->
  may_raise (handle_ c) k_send_flags w2 = true.
Proof.
  intros Hf El Ho Ea. unfold may_raise. rewrite Hf, andb_true_r. apply negb_true_iff, (accepted_not_silent _ _ _ _ _ Ea).
  by apply (listener_not_silent _ _ _ _ _ _ El).
Qed.

(** What [try_addresses] gives is protected, by the option where there is one. *)
Lemma tried_silent nb ais last w fd w' :
  @has_so_nosigpipe W _ = true -> (forall fd w, exists u w', sys_setsockopt fd SO_NOSIGPIPE 1 w = (SysOk u, w')) ->
  try_addresses nb ais last w = (inl fd, w') -> silent fd w' = true.
Proof.
  intros Hh Hset. revert last w. induction ais as [|ai ais IH]; intros last w; simpl; [done|].
  destruct (sys_socket (ai_family ai) w) as [[fd1|e] w1]; [|apply IH]. cbv zeta.
  unfold configure_new_socket. rewrite Hh. destruct (Hset fd1 w1) as (u & w2 & E2). rewrite E2. pose proof (set_silent _ _ _ _ E2) as H2.
  destruct (if nb then _ else _) as [[u'|e] w3] eqn:E3; [|apply IH]. pose proof (if_nonblocking_silent nb fd1 _ _ _ fd1 E3) as H3.
  destruct (sys_connect fd1 ai w3) as [[u''|e] w4] eqn:E4; pose proof (connect_silent _ _ _ _ _ fd1 E4) as H4.
  - intros [= <- <-]. congruence.
  - match goal with |- (if ?b then _ else _) = _ -> _ => destruct b end; [intros [= <- <-]; congruence|apply IH].
Qed.

(** A connected socket never raises it, with the flag or with the option. *)
Theorem connected_sockets_never_raise host port nb w s w' :
  (exists f, @MSG_NOSIGNAL W _ = Some f /\ f <> 0) \/
  (@has_so_nosigpipe W _ = true /\ (forall fd w, exists u w', sys_setsockopt fd SO_NOSIGPIPE 1 w = (SysOk u, w'))) ->
  connect host port nb w = (s, w') -> is_open s = true -> may_raise (handle_ s) k_send_flags w' = false.
Proof.
  intros [(f & Hf & Hz)|[Hh Hset]] E Ho; unfold may_raise.
  - unfold k_send_flags. rewrite Hf. simpl. rewrite Z.land_diag, (proj2 (Z.eqb_neq f 0) Hz). apply andb_false_r.
  - unfold connect in E. destruct (sys_getaddrinfo _ _ _) as [[e|ais] w1]; [by injection E as <- <-|].
    destruct (try_addresses nb ais 0 w1) as [[fd|e] w2] eqn:Et; injection E as <- <-; [|done]. simpl. by rewrite (tried_silent _ _ _ _ _ _ Hh Hset Et).
Qed.

End signals.

(** ** A host of macOS's kind: no [MSG_NOSIGNAL], and the option [SO_NOSIGPIPE]

    It keeps the next descriptor, the open ones, and those with the option; every call succeeds. *)

Record mac_host := MacHost { mac_next : Z; mac_open : gset Z; mac_silent : gset Z }.

Definition mac_new (w : mac_host) : sysret Z * mac_host :=
  (SysOk (mac_next w), MacHost (mac_next w + 1) ({[mac_next w]} ∪ mac_open w) (mac_silent w ∖ {[mac_next w]})).

Definition mac_done {A} (a : A) (w : mac_host) : sysret A * mac_host := (SysOk a, w).

#[export] Instance mac_network : NetOs mac_host := {
  POLLIN := 1; POLLOUT := 4; POLLERR := 8; POLLNVAL := 32;
  calm w := 0%nat;
  errno w := 0;
  sys_getaddrinfo host port w := (inr [AddrInfo 2 host], w);
  sys_socket f := mac_new;
  sys_connect h ai := mac_done tt;
  sys_close_fd h w := MacHost (mac_next w) (mac_open w ∖ {[h]}) (mac_silent w);
  sys_send h bs flags := mac_done (length bs);
  sys_recv h n := mac_done [];
  sys_poll h ev t := mac_done (1, ev);
  sys_select h tv w := (SysOk 1, tv, w);
  sys_getsockopt h o := mac_done 0;
  sys_setsockopt h o v w :=
    (SysOk tt, match o with SO_NOSIGPIPE => MacHost (mac_next w) (mac_open w) ({[h]} ∪ mac_silent w) | _ => w end);
  sys_shutdown h := mac_done tt;
  sys_bind h port := mac_done tt;
  sys_listen h backlog := mac_done tt;
  sys_getsockname h := mac_done 49152;
  sys_accept h := mac_new;
  descriptors w := mac_open w
}.

#[export] Instance mac_posix : PosixNet mac_host := {
  MSG_NOSIGNAL := None; has_so_nosigpipe := true;
  EINTR_ := 4; EWOULDBLOCK := 35; EAGAIN := 35; EINPROGRESS := 36; O_NONBLOCK := 4; FD_SETSIZE := 1024;
  sys_getfl h := mac_done 2;
  sys_setfl h flags := mac_done tt
}.

Definition mac_option (fd : Z) (w : mac_host) : bool := bool_decide (fd ∈ mac_silent w).

#[export] Instance mac_silent_laws : SilentLaws mac_option.
Proof.
  split; unfold keeps_silent, mac_option; simpl; unfold mac_new, mac_done; intros; simplify_eq/=; try done.
  - apply bool_decide_eq_false. set_solver.
  - apply bool_decide_eq_true in H0. set_solver.
  - apply bool_decide_eq_true. set_solver.
Qed.

(** The same host answers a listener and its first connection as it answers a client, save for the option. *)
Definition mac_start : mac_host := MacHost 3 {[0; 1; 2]} ∅.

Example accepted_may_raise_connected_not :
  let '(s, w) := listen 0 128 false mac_start in
  let '(c, _, w) := accept s w in
  let '(d, w) := connect ($"peer") 80 false w in
  (server_handle_ s, handle_ <$> c, handle_ d) = (3, Some 4, 5) /\
  may_raise mac_option 4 PosixSockets.k_send_flags w = true /\ may_raise mac_option 5 PosixSockets.k_send_flags w = false.
Proof. vm_compute. split_and!; reflexivity. Qed.
