(* ===== verification/TcpSession.v ===== *)
(** * Programs that use sockets: who owns which descriptor

    A session creates, uses, moves, closes and destroys [TcpSocket] and [TcpServer] variables in any order. *)

From S2P Require Import Prelude Charconv Posix SocketHost TcpSocket.
Open Scope Z_scope.

Section session.
Context {W : Type} `{!NetOs W, !SocketHost W} (sent incoming : Z -> W -> text) `{!SocketHostLaws W sent incoming}.

Inductive object : Type := Socket (s : tcp_socket) | Server (s : tcp_server).

Definition handle_of (o : object) : Z := match o with Socket s => handle_ s | Server s => server_handle_ s end.
Definition owned_by (o : object) : option Z := if handle_of o =? invalid_handle then None else Some (handle_of o).

Inductive operation : Type :=
  | Send (src : text)
  | Recv (n : nat)
  | WaitReadable (timeout_ms : Z)
  | WaitWritable (timeout_ms : Z)
  | WaitConnected (timeout_ms : Z)
  | SetNonBlocking (enabled : bool)
  | ShutdownWrite.

(** An operation on an object; [None] where the object has no such operation, or the behaviour is undefined. *)
Definition operate (op : operation) (o : object) (w : W) : option (object * W) :=
  match o, op with
  | Socket s, Send src => let '(_, s, w) := send s src w in Some (Socket s, w)
  | Socket s, Recv n => let '(_, _, s, w) := recv s n w in Some (Socket s, w)
  | Socket s, WaitReadable t => let '(_, s, w) := wait_readable s t w in Some (Socket s, w)
  | Socket s, WaitWritable t => let '(_, s, w) := wait_writable s t w in Some (Socket s, w)
  | Socket s, WaitConnected t => match wait_connected s t w with Some (_, s, w) => Some (Socket s, w) | None => None end
  | Socket s, SetNonBlocking b => let '(_, s, w) := set_non_blocking s b w in Some (Socket s, w)
  | Socket s, ShutdownWrite => let '(_, s, w) := shutdown_write s w in Some (Socket s, w)
  | Server s, WaitReadable t => let '(_, s, w) := server_wait_readable s t w in Some (Server s, w)
  | Server _, _ => None
  end.

Definition close_object (o : object) (w : W) : object * W :=
  match o with
  | Socket s => let '(_, s, w) := close s w in (Socket s, w)
  | Server s => let '(_, s, w) := server_close s w in (Server s, w)
  end.

Definition destroy_object (o : object) (w : W) : W := match o with Socket s => destroy s w | Server s => server_destroy s w end.

Definition construct_from (o : object) : object * object :=
  match o with
  | Socket s => let '(new, old) := move_construct s in (Socket new, Socket old)
  | Server s => let '(new, old) := server_move_construct s in (Server new, Server old)
  end.

Definition assign_from (o other : object) (w : W) : option (object * object * W) :=
  match o, other with
  | Socket s, Socket s' => let '(s, s', w) := move_assign s s' w in Some (Socket s, Socket s', w)
  | Server s, Server s' => let '(s, s', w) := server_move_assign s s' w in Some (Server s, Server s', w)
  | _, _ => None
  end.

Inductive command : Type :=
  | Connect (h : nat) (host : text) (port : Z) (non_blocking : bool)
  | Listen (h : nat) (port backlog : Z) (non_blocking : bool)
  | Accept (server h : nat)
  | Use (h : nat) (op : operation)
  | MoveConstruct (h from : nat)
  | MoveAssign (h from : nat)
  | Close (h : nat)
  | Destroy (h : nat).

Abbreviation variables := (gmap nat object).

(** One statement of the program; [None] where it is not a C++ program (a variable used before its
    construction or after its destruction) or its behaviour is undefined. *)
Definition run_command (c : command) (m : variables) (w : W) : option (variables * W) :=
  match c with
  | Connect h host port nb => match m !! h with None => let '(s, w) := connect host port nb w in Some (<[h := Socket s]> m, w) | Some _ => None end
  | Listen h port backlog nb => match m !! h with None => let '(s, w) := listen port backlog nb w in Some (<[h := Server s]> m, w) | Some _ => None end
  | Accept hs h =>
      match m !! hs, m !! h with
      | Some (Server s), None =>
          let '(c, s, w) := accept s w in
          let m := <[hs := Server s]> m in
          Some (match c with Some c => <[h := Socket c]> m | None => m end, w)
      | _, _ => None
      end
  | Use h op => o ← m !! h; r ← operate op o w; Some (<[h := r.1]> m, r.2)
  | MoveConstruct h from =>
      o ← m !! from;
      match m !! h with None => let '(new, old) := construct_from o in Some (<[h := new]> (<[from := old]> m), w) | Some _ => None end
  | MoveAssign h from =>
      o ← m !! h; other ← m !! from;
      if decide (h = from) then Some (m, w)
      else r ← assign_from o other w; let '(o, other, w) := r in Some (<[h := o]> (<[from := other]> m), w)
  | Close h => o ← m !! h; let '(o, w) := close_object o w in Some (<[h := o]> m, w)
  | Destroy h => o ← m !! h; Some (delete h m, destroy_object o w)
  end.

Fixpoint run_session (cs : list command) (m : variables) (w : W) : option (variables * W) :=
  match cs with
  | [] => Some (m, w)
  | c :: cs => r ← run_command c m w; run_session cs r.1 r.2
  end.

Definition owner (m : variables) (h : nat) (fd : Z) : Prop := exists o, m !! h = Some o /\ owned_by o = Some fd.

(** The open descriptors are those of the outside [F] and those the variables own, each by one. *)
Record sound (F : gset Z) (m : variables) (D : gset Z) : Prop := {
  s_open : forall fd, fd ∈ D <-> fd ∈ F \/ exists h, owner m h fd;
  s_one : forall h h' fd, owner m h fd -> owner m h' fd -> h = h';
  s_own : forall h fd, owner m h fd -> fd ∉ F
}.

Lemma owner_insert m h o h' fd : owner (<[h := o]> m) h' fd <-> (h' = h /\ owned_by o = Some fd) \/ (h' <> h /\ owner m h' fd).
Proof.
  unfold owner. destruct (decide (h' = h)) as [->|Hn].
  - rewrite lookup_insert_eq. split; [intros (? & [= <-] & ?); by left|]. intros [[_ ?]|[? _]]; [by eexists|done].
  - rewrite lookup_insert_ne by done. split; [intros ?; by right|]. by intros [[? _]|[_ ?]].
Qed.

Lemma owner_delete m h h' fd : owner (delete h m) h' fd <-> h' <> h /\ owner m h' fd.
Proof.
  unfold owner. destruct (decide (h' = h)) as [->|Hn].
  - rewrite lookup_delete_eq. split; [by intros (? & ? & ?)|by intros [? _]].
  - rewrite lookup_delete_ne by done. naive_solver.
Qed.

Lemma owned_handle o fd : owned_by o = Some fd -> handle_of o = fd /\ fd <> invalid_handle.
Proof. unfold owned_by. destruct (Z.eqb_spec (handle_of o) invalid_handle); [done|]. intros [= <-]. done. Qed.

(** *** What a statement can do *)

Lemma sound_same F m m' D : sound F m D -> (forall h fd, owner m' h fd <-> owner m h fd) -> sound F m' D.
Proof.
  intros [H1 H2 H3] He. split.
  - intros fd. rewrite H1. by setoid_rewrite He.
  - intros h h' fd. rewrite !He. apply H2.
  - intros h fd. rewrite He. apply H3.
Qed.

Lemma sound_opened F m m' D h fd :
  sound F m D -> fd ∉ D -> (forall fd', ~ owner m h fd') -> (forall h' fd', owner m' h' fd' <-> (h' = h /\ fd' = fd) \/ owner m h' fd') ->
  sound F m' ({[fd]} ∪ D).
Proof.
  intros [H1 H2 H3] Hn Hh He.
  assert (fd ∉ F /\ forall h', ~ owner m h' fd) as [HF Ho].
  { split; [intros HF; apply Hn, H1; by left|]. intros h' Ho. apply Hn, H1. right. by exists h'. }
  split.
  - intros fd'. rewrite elem_of_union, elem_of_singleton, H1. setoid_rewrite He. naive_solver.
  - intros h1 h2 fd'. rewrite !He. intros [[-> ->]|O1] [[-> E]|O2]; [done|by destruct (Ho h2)|by subst; destruct (Ho h1)|by eapply H2].
  - intros h' fd'. rewrite He. intros [[-> ->]|O1]; [done|by eapply H3].
Qed.

Lemma sound_closed F m m' D h fd :
  sound F m D -> owner m h fd -> (forall h' fd', owner m' h' fd' <-> h' <> h /\ owner m h' fd') -> sound F m' (D ∖ {[fd]}).
Proof.
  intros [H1 H2 H3] Ho He. split.
  - intros fd'. rewrite elem_of_difference, elem_of_singleton, H1. setoid_rewrite He. split.
    + intros [[HF|[h' Oh]] Hne]; [by left|right]. exists h'. split; [|done]. intros ->. apply Hne. destruct Ho as (o & E1 & E2), Oh as (o' & E3 & E4). congruence.
    + intros [HF|[h' [Hne Oh]]]; [split; [by left|intros ->; by eapply H3]|]. split; [right; by exists h'|]. intros ->. by destruct (H2 _ _ _ Ho Oh).
  - intros h1 h2 fd'. rewrite !He. intros [_ O1] [_ O2]. by eapply H2.
  - intros h' fd'. rewrite He. intros [_ O1]. by eapply H3.
Qed.

Lemma sound_moved F m m' D h from :
  sound F m D -> (forall fd, ~ owner m h fd) -> h <> from ->
  (forall h' fd, owner m' h' fd <-> (h' = h /\ owner m from fd) \/ (h' <> h /\ h' <> from /\ owner m h' fd)) -> sound F m' D.
Proof.
  intros [H1 H2 H3] Hh Hne He. split.
  - intros fd. rewrite H1. setoid_rewrite He. split; (intros [HF|[h' O1]]; [by left|right]).
    + destruct (decide (h' = from)) as [->|]; [exists h; by left|]. exists h'. right. split_and!; [|done|done]. intros ->. by destruct (Hh fd).
    + destruct O1 as [[-> O1]|(_ & _ & O1)]; eauto.
  - intros h1 h2 fd. rewrite !He. intros [[-> O1]|(N1 & N1' & O1)] [[-> O2]|(N2 & N2' & O2)]; [done| | |by eapply H2].
    + destruct N2'. by eapply H2.
    + destruct N1'. by eapply H2.
  - intros h' fd. rewrite He. intros [[-> O1]|(_ & _ & O1)]; by eapply H3.
Qed.

Lemma poll_one_fds fd ev t w r rev e w' : poll_one fd ev t w = (r, rev, e, w') -> descriptors w' = descriptors w.
Proof.
  unfold poll_one. destruct (retry is_interrupted calm _ w) as [[[n revents]|e1] w1] eqn:E; pose proof (retry_fds _ _ _ _ (poll_fds fd ev t) E) as Hd;
    [destruct (n =? 0)|]; by intros; simplify_eq.
Qed.

Lemma wait_connect_fds fd t w r e w' : wait_connect_resolved fd t w = Some (r, e, w') -> descriptors w' = descriptors w.
Proof.
  unfold wait_connect_resolved. destruct (fd_set_holds fd); [|done].
  destruct (retry _ _ _ _) as [r1 [t1 w1]] eqn:E.
  destruct (fun HI HP => retry_spec is_interrupted _ (fun tw : option (Z * Z) * W => descriptors tw.2 = descriptors w) _ _ _ _ HI HP E)
    as (_ & [t2 w2] & Hw2 & Es & _); [|done|].
  - intros [t2 w2] [t3 w3] e1 H2. simpl. destruct (sys_select fd t2 w2) as [[r2 t4] w4] eqn:Es. intros [= -> <- <-] He.
    destruct (select_fds _ _ _ _ _ _ Es) as [H3 H4]. simpl in *. split; [congruence|by apply (H4 e1)].
  - simpl in *. destruct (sys_select fd t2 w2) as [[r2 t4] w4] eqn:Es2. simplify_eq. destruct (select_fds _ _ _ _ _ _ Es2) as [H3 _].
    destruct r1 as [n|e1]; [destruct (n =? 0)|]; intros; simplify_eq; congruence.
Qed.

Lemma operate_fds op o w o' w' : operate op o w = Some (o', w') -> handle_of o' = handle_of o /\ descriptors w' = descriptors w.
Proof.
  destruct o as [s|s]; [destruct op as [src|n|t|t|t|b|]|destruct op as [src|n|t|t|t|b|]; try done]; simpl.
  - unfold send. destruct (is_open s); [|by intros; simplify_eq]. destruct (native_send _ _ w) as [r w1] eqn:E.
    destruct (native_send_spec _ _ _ _ _ E) as [Hd _]. destruct r as [n|e]; [|destruct (is_would_block e)]; by intros; simplify_eq.
  - unfold recv. destruct (is_open s); [|by intros; simplify_eq]. destruct (native_recv _ _ w) as [r w1] eqn:E.
    destruct (native_recv_spec _ _ _ _ _ E) as [Hd _]. destruct r as [[|b bs]|e]; [..|destruct (is_would_block e)]; by intros; simplify_eq.
  - unfold wait_readable. destruct (is_open s); [|by intros; simplify_eq]. destruct (poll_one _ _ _ w) as [[[r rev] e] w1] eqn:E.
    apply poll_one_fds in E. destruct r; by intros; simplify_eq.
  - unfold wait_writable. destruct (is_open s); [|by intros; simplify_eq]. destruct (poll_one _ _ _ w) as [[[r rev] e] w1] eqn:E.
    apply poll_one_fds in E. destruct r; [|by intros; simplify_eq..]. destruct (_ =? 0); [by intros; simplify_eq|].
    destruct (get_so_error (handle_ s) w1) as [so w2] eqn:Eo. apply (so_error_fds is_interrupted sent incoming) in Eo. intros; simplify_eq. split; [done|congruence].
  - unfold wait_connected. destruct (is_open s); [|by intros; simplify_eq]. destruct (wait_connect_resolved _ _ w) as [[[r e] w1]|] eqn:E; [|done].
    apply wait_connect_fds in E. destruct r; [|by intros; simplify_eq..].
    destruct (get_so_error (handle_ s) w1) as [so w2] eqn:Eo. apply (so_error_fds is_interrupted sent incoming) in Eo. destruct (so =? 0); intros; simplify_eq; (split; [done|congruence]).
  - unfold set_non_blocking. destruct (is_open s); [|by intros; simplify_eq]. destruct (set_nonblocking_native _ _ w) as [r w1] eqn:E.
    destruct (set_nonblocking_fds _ _ _ _ _ E) as [Hd _]. destruct r; by intros; simplify_eq.
  - unfold shutdown_write. destruct (is_open s); [|by intros; simplify_eq]. destruct (sys_shutdown _ w) as [r w1] eqn:E.
    apply shutdown_fds in E. destruct r; by intros; simplify_eq.
  - unfold server_wait_readable. destruct (server_is_open s); [|by intros; simplify_eq]. destruct (poll_one _ _ _ w) as [[[r rev] e] w1] eqn:E.
    apply poll_one_fds in E. destruct r; by intros; simplify_eq.
Qed.

Lemma sound_quiet F m D h o o' :
  sound F m D -> m !! h = Some o -> handle_of o' = handle_of o -> sound F (<[h := o']> m) D.
Proof.
  intros H Ho Hh. apply (sound_same F m); [done|]. intros h' fd. rewrite owner_insert. unfold owned_by. rewrite Hh. fold (owned_by o).
  unfold owner. destruct (decide (h' = h)) as [->|]; [rewrite Ho|]; naive_solver.
Qed.

Lemma sound_new F m D h o D' :
  sound F m D -> m !! h = None ->
  (handle_of o = invalid_handle /\ D' = D) \/ (0 <= handle_of o /\ handle_of o ∉ D /\ D' = {[handle_of o]} ∪ D) -> sound F (<[h := o]> m) D'.
Proof.
  intros H Hm Ho. assert (forall fd, ~ owner m h fd) as Hno by (intros fd (o' & E & _); congruence).
  destruct Ho as [[Ho ->]|(Hp & Hn & ->)].
  - apply (sound_same F m); [done|]. intros h' fd. rewrite owner_insert. unfold owned_by. rewrite Ho. simpl.
    split; [by intros [[_ ?]|[_ ?]]|]. intros O1. right. split; [intros ->; by destruct (Hno fd)|done].
  - apply (sound_opened F m _ D h); [done..|]. intros h' fd. rewrite owner_insert. unfold owned_by.
    destruct (Z.eqb_spec (handle_of o) invalid_handle) as [E|_]; [unfold invalid_handle in E; lia|].
    split; [intros [[-> [= <-]]|[_ O1]]; auto|]. intros [[-> ->]|O1]; [by left|]. right. split; [intros ->; by destruct (Hno fd)|done].
Qed.

Lemma close_object_spec o w : (close_object o w).2 = (if handle_of o =? invalid_handle then w else sys_close_fd (handle_of o) w) /\
  owned_by (close_object o w).1 = None.
Proof.
  unfold owned_by. destruct o as [[h e b]|[h e p b]]; simpl; unfold close, server_close, is_open, server_is_open; simpl;
    destruct (h =? invalid_handle) eqn:E; simpl; by rewrite ?E.
Qed.

(** Closing a variable, which then owns nothing or is gone. *)
Lemma sound_close F m m' w h o :
  sound F m (descriptors w) -> m !! h = Some o -> (forall h' fd, owner m' h' fd <-> h' <> h /\ owner m h' fd) ->
  sound F m' (descriptors (close_object o w).2).
Proof.
  intros H Ho He. destruct (close_object_spec o w) as [-> _]. destruct (owned_by o) as [fd|] eqn:Eo.
  - pose proof (owned_handle _ _ Eo) as [Hh Hne]. rewrite Hh. destruct (Z.eqb_spec fd invalid_handle); [done|]. rewrite close_fd.
    apply (sound_closed F m _ _ h fd); [done|by exists o|done].
  - unfold owned_by in Eo. destruct (handle_of o =? invalid_handle) eqn:E; [|done]. apply (sound_same F m); [done|]. intros h' fd. rewrite He.
    split; [tauto|]. intros O1. split; [|done]. intros ->. destruct O1 as (o' & E1 & E2). rewrite Ho in E1. simplify_eq. unfold owned_by in E2. by rewrite E in E2.
Qed.

Lemma destroy_object_close o w : destroy_object o w = (close_object o w).2.
Proof.
  destruct o as [s|s]; simpl; unfold destroy, server_destroy; [destruct (close s w) as [[b s'] w']|destruct (server_close s w) as [[b s'] w']]; done.
Qed.

Lemma construct_from_spec o : owned_by (construct_from o).1 = owned_by o /\ owned_by (construct_from o).2 = None.
Proof. by destruct o. Qed.

Lemma assign_from_spec o other w r :
  assign_from o other w = Some r -> owned_by r.1.1 = owned_by other /\ owned_by r.1.2 = None /\ r.2 = (close_object o w).2.
Proof.
  destruct o as [s|s], other as [s'|s']; simpl; try done; unfold move_assign, server_move_assign;
    [destruct (close s w) as [[b s1] w']|destruct (server_close s w) as [[b s1] w']]; intros [= <-]; done.
Qed.

Lemma sound_command F c m w m' w' : sound F m (descriptors w) -> run_command c m w = Some (m', w') -> sound F m' (descriptors w').
Proof.
  intros H E. destruct c as [h host port nb|h port backlog nb|hs h|h op|h from|h from|h|h]; simpl in E.
  - destruct (m !! h) eqn:Eh; [done|]. destruct (connect host port nb w) as [s w1] eqn:Ec. simplify_eq. eapply sound_new; [done..|].
    destruct (connect_spec sent incoming _ _ _ _ _ _ Ec) as [[Hc Hd]|?]; [left; unfold is_open in Hc; bools; by split|by right].
  - destruct (m !! h) eqn:Eh; [done|]. destruct (listen port backlog nb w) as [s w1] eqn:Ec. simplify_eq. eapply sound_new; [done..|].
    destruct (listen_spec sent incoming _ _ _ _ _ _ Ec) as [[Hc Hd]|?]; [left; unfold server_is_open in Hc; bools; by split|by right].
  - destruct (m !! hs) as [[s|s]|] eqn:Es; [done| |done]. destruct (m !! h) eqn:Eh; [done|].
    destruct (accept s w) as [[c s1] w1] eqn:Ea. destruct (accept_spec sent incoming _ _ _ _ _ Ea) as [Hh Hc].
    assert (sound F (<[hs := Server s1]> m) (descriptors w)) as Hq by (by eapply sound_quiet).
    destruct c as [c|]; simplify_eq; [|by rewrite Hc]. eapply sound_new; [done| |by right].
    rewrite lookup_insert_ne; [done|]. intros ->. congruence.
  - destruct (m !! h) as [o|] eqn:Eh; [|done]. simpl in E. destruct (operate op o w) as [[o' w1]|] eqn:Eo; simplify_eq/=.
    destruct (operate_fds _ _ _ _ _ Eo) as [Hh Hd]. rewrite Hd. by eapply sound_quiet.
  - destruct (m !! from) as [o|] eqn:Ef; [|done]. simpl in E. destruct (m !! h) eqn:Eh; [done|]. destruct (construct_from o) as [new old] eqn:Eo.
    pose proof (construct_from_spec o) as [Hn Ho]. rewrite Eo in *. simplify_eq/=. assert (h <> from) as Hne by congruence.
    apply (sound_moved F m _ _ h from); [done|intros fd (o' & E1 & _); congruence|done|]. intros h' fd. rewrite !owner_insert, Hn, Ho.
    unfold owner at 2. rewrite Ef. split; [intros [[-> ?]|[? [[_ ?]|[? ?]]]]; eauto; done|]. intros [[-> (o' & [= <-] & ?)]|(? & ? & ?)]; auto.
  - destruct (m !! h) as [o|] eqn:Eh; [|done]. simpl in E. destruct (m !! from) as [other|] eqn:Ef; [|done]. simpl in E.
    case_decide as Hne; [by simplify_eq|]. destruct (assign_from o other w) as [[[o1 o2] w1]|] eqn:Ea; simplify_eq/=.
    destruct (assign_from_spec _ _ _ _ Ea) as (H1 & H2 & H3). simpl in *. subst w'.
    apply (sound_moved F (delete h m) _ _ h from); [|intros fd (o' & E1 & _); by rewrite lookup_delete_eq in E1|done|].
    + apply (sound_close F m _ _ h); [done..|]. intros h' fd. apply owner_delete.
    + intros h' fd. rewrite !owner_insert, !owner_delete, H1, H2. unfold owner at 2. rewrite Ef.
      split; [intros [[-> ?]|[? [[_ ?]|[? ?]]]]; [left; split; [done|]; split; [done|eauto]|done|right; auto]|].
      intros [[-> [_ (o' & [= <-] & ?)]]|(? & ? & [_ ?])]; auto.
  - destruct (m !! h) as [o|] eqn:Eh; [|done]. simpl in E. pose proof (close_object_spec o w) as [_ Hn]. pose proof (sound_close F m (<[h := (close_object o w).1]> m) w h o H Eh) as Hs.
    destruct (close_object o w) as [o' w1]. simplify_eq/=. apply Hs. intros h' fd. rewrite owner_insert, Hn. naive_solver.
  - destruct (m !! h) as [o|] eqn:Eh; [|done]. simplify_eq/=. rewrite destroy_object_close. eapply sound_close; [done..|]. intros h' fd. apply owner_delete.
Qed.

Lemma sound_session F cs m w m' w' : sound F m (descriptors w) -> run_session cs m w = Some (m', w') -> sound F m' (descriptors w').
Proof.
  revert m w. induction cs as [|c cs IH]; intros m w H E; simpl in E; [by simplify_eq|].
  destruct (run_command c m w) as [[m1 w1]|] eqn:Ec; [|done]. simpl in E. eapply IH; [|done]. by eapply sound_command.
Qed.

(** C39. No descriptor is leaked, shared, or closed twice.  After any program of connects, listens, accepts (failed ones
    included), sends, waits, moves, closes and destructions of sockets and servers, the descriptors that are open are those that were
    open before, untouched, and those the variables hold, each held by exactly one; so when every variable has been
    destroyed, what is open is what was open at the start. *)
Theorem descriptors_have_one_owner cs w m' w' :
  run_session cs ∅ w = Some (m', w') ->
  (forall fd, fd ∈ descriptors w' <-> fd ∈ descriptors w \/ exists h, owner m' h fd) /\
  (forall h h' fd, owner m' h fd -> owner m' h' fd -> h = h') /\
  (forall h fd, owner m' h fd -> fd ∉ descriptors w) /\
  (m' = ∅ -> descriptors w' = descriptors w).
Proof.
  intros E. assert (sound (descriptors w) ∅ (descriptors w)) as H0.
  { split; [intros fd; split; [by left|intros [|(h & o & E1 & _)]; [done|by rewrite lookup_empty in E1]]|..]; intros * (o & E1 & _); by rewrite lookup_empty in E1. }
  destruct (sound_session _ _ _ _ _ _ H0 E) as [H1 H2 H3]. split_and!; [done|done|done|]. intros ->. apply set_eq. intros fd. rewrite H1.
  split; [|by left]. intros [|(h & o & E1 & _)]; [done|by rewrite lookup_empty in E1].
Qed.

(** ** Transfers *)

Fixpoint run_sends (srcs : list text) (s : tcp_socket) (w : W) : list IoResult * tcp_socket * W :=
  match srcs with
  | [] => ([], s, w)
  | src :: srcs =>
      let '(r, s, w) := send s src w in
      let '(rs, s, w) := run_sends srcs s w in
      (r :: rs, s, w)
  end.

Fixpoint run_recvs (ns : list nat) (s : tcp_socket) (w : W) : list (IoResult * text) * tcp_socket * W :=
  match ns with
  | [] => ([], s, w)
  | n :: ns =>
      let '(r, bs, s, w) := recv s n w in
      let '(rs, s, w) := run_recvs ns s w in
      ((r, bs) :: rs, s, w)
  end.

Lemma send_spec s src w r s' w' :
  send s src w = (r, s', w') -> is_open s = true ->
  handle_ s' = handle_ s /\ (bytes r <= length src)%nat /\ sent (handle_ s) w' = sent (handle_ s) w ++ take (bytes r) src /\
  (status r <> io_ok -> bytes r = 0%nat) /\ (status r <> io_error -> error_ s' = error_ s).
Proof.
  intros E Ho. unfold send in E. rewrite Ho in E. destruct (native_send _ _ w) as [r1 w1] eqn:En.
  destruct (native_send_spec _ _ _ _ _ En) as (_ & Hs).
  destruct r1 as [n|e]; [destruct Hs as [Hn Hs]|destruct (is_would_block e)]; simplify_eq; simpl; split_and!; try done; try lia; by rewrite ?take_0, ?app_nil_r.
Qed.

Lemma recv_spec s n w r bs s' w' :
  recv s n w = (r, bs, s', w') -> is_open s = true ->
  handle_ s' = handle_ s /\ length bs = bytes r /\ (bytes r <= n)%nat /\ incoming (handle_ s) w = bs ++ incoming (handle_ s) w' /\
  (status r = io_ok <-> bytes r <> 0%nat) /\ (status r <> io_error -> error_ s' = error_ s).
Proof.
  intros E Ho. unfold recv in E. rewrite Ho in E. destruct (native_recv _ _ w) as [r1 w1] eqn:En.
  destruct (native_recv_spec _ _ _ _ _ En) as (_ & Hs).
  destruct r1 as [[|b bs1]|e]; [destruct Hs as [Hn Hs]|destruct Hs as [Hn Hs]|destruct (is_would_block e)]; simplify_eq/=; split_and!; try done; try lia.
Qed.

(** Transfers are exact.  Whatever the sizes and results of the sends on an open socket, the connection has taken,
    in order, the prefixes they report, nothing more or less: a call that reports [would_block] or an error has sent
    nothing, so resending the remainder never duplicates or loses a byte.  Likewise the bytes received are, one call
    after another, the beginning of what the peer sent, and [ok] is reported exactly when there are some. *)
Theorem transfers_are_exact srcs ns s w rs s1 w1 rs' s2 w2 :
  is_open s = true -> run_sends srcs s w = (rs, s1, w1) -> run_recvs ns s w = (rs', s2, w2) ->
  sent (handle_ s) w1 = sent (handle_ s) w ++ concat (zip_with (fun r src => take (bytes r) src) rs srcs) /\
  Forall (fun r => status r <> io_ok -> bytes r = 0%nat) rs /\
  incoming (handle_ s) w = concat (map snd rs') ++ incoming (handle_ s) w2 /\
  Forall (fun r => length r.2 = bytes r.1 /\ (status r.1 = io_ok <-> bytes r.1 <> 0%nat)) rs'.
Proof.
  intros Ho Es Er. enough (
    (sent (handle_ s) w1 = sent (handle_ s) w ++ concat (zip_with (fun r src => take (bytes r) src) rs srcs) /\
     Forall (fun r => status r <> io_ok -> bytes r = 0%nat) rs) /\
    incoming (handle_ s) w = concat (map snd rs') ++ incoming (handle_ s) w2 /\
    Forall (fun r => length r.2 = bytes r.1 /\ (status r.1 = io_ok <-> bytes r.1 <> 0%nat)) rs') by tauto. split.
  - clear Er. revert s w rs Ho Es. induction srcs as [|src srcs IH]; intros s w rs Ho Es; simpl in Es; [simplify_eq; by rewrite app_nil_r|].
    destruct (send s src w) as [[r s3] w3] eqn:E1. destruct (run_sends srcs s3 w3) as [[rs3 s4] w4] eqn:E2. simplify_eq.
    destruct (send_spec _ _ _ _ _ _ E1 Ho) as (Hh & _ & Hs & Hz & _). destruct (IH s3 w3 rs3) as [H1 H2]; [by unfold is_open in *; rewrite Hh|done|].
    rewrite Hh in *. split; [by rewrite H1, Hs; simpl; rewrite app_assoc|by constructor].
  - clear Es. revert s w rs' Ho Er. induction ns as [|n ns IH]; intros s w rs' Ho Er; simpl in Er; [by simplify_eq|].
    destruct (recv s n w) as [[[r bs] s3] w3] eqn:E1. destruct (run_recvs ns s3 w3) as [[rs3 s4] w4] eqn:E2. simplify_eq.
    destruct (recv_spec _ _ _ _ _ _ _ E1 Ho) as (Hh & Hl & _ & Hs & Hz & _). destruct (IH s3 w3 rs3) as [H1 H2]; [by unfold is_open in *; rewrite Hh|done|].
    rewrite Hh in *. split; [by simpl; rewrite Hs, H1, app_assoc|by constructor].
Qed.

(** A failed connect says why: when the host has resolved to at least one address and no attempt succeeds, the closed
    socket holds the error of the last attempt, which is not zero; when the connect is started, [error()] is zero, and
    the mode is the one asked for. *)
Theorem connect_reports_errors host port nb w s w' ais w1 :
  sys_getaddrinfo (c_str host) (digits 10 port) (ensure_started w) = (inr ais, w1) -> ais <> [] -> connect host port nb w = (s, w') ->
  (is_open s = true <-> error_ s = 0) /\ non_blocking_ s = nb.
Proof.
  intros Eg Hne E. unfold connect in E. rewrite Eg in E. destruct (try_addresses nb ais 0 w1) as [[fd|e] w2] eqn:Et;
    pose proof (try_addresses_spec sent incoming _ _ _ _ _ _ Et) as H; simplify_eq; (split; [|done]); unfold is_open; simpl.
  - destruct H as [H _]. split; [done|intros _]. destruct (Z.eqb_spec fd invalid_handle) as [E|]; [unfold invalid_handle in E; lia|done].
  - destruct H as (_ & H & _). specialize (H Hne). split; [done|]. intros E. by rewrite E in H.
Qed.

(** [wait_connected] is only safe for the descriptors an [fd_set] can hold, which [connect] does not check. *)
Lemma wait_connected_is_defined s t w :
  is_open s = true -> (is_Some (wait_connected s t w) <-> fd_set_holds (handle_ s) = true).
Proof.
  intros Ho. unfold wait_connected, wait_connect_resolved. rewrite Ho. destruct (fd_set_holds (handle_ s)); [|split; [by intros [? ?]|done]].
  destruct (retry _ _ _ _) as [r [t1 w2]]. split; [done|intros _]. destruct r as [n|e]; [destruct (n =? 0)|]; [by eexists| |by eexists].
  destruct (get_so_error (handle_ s) w2) as [so w3]. destruct (so =? 0); by eexists.
Qed.

End session.

(** On POSIX the behaviour of [wait_connected] is defined exactly when the descriptor is below [FD_SETSIZE]; with Winsock it
    always is. *)
Theorem wait_connected_defined {W} `{!NetOs W, !PosixNet W, !WinNet W} s t (w : W) :
  is_open s = true -> 0 <= handle_ s ->
  (is_Some (wait_connected (SocketHost0 := PosixSockets.host) s t w) <-> handle_ s < FD_SETSIZE) /\
  is_Some (wait_connected (SocketHost0 := WindowsSockets.host) s t w).
Proof.
  intros Ho Hh. rewrite !wait_connected_is_defined by done. split; [|done]. simpl. unfold PosixSockets.fd_set_holds.
  rewrite andb_true_iff, Z.leb_le, Z.ltb_lt. tauto.
Qed.

(** ** A network in memory: every call does as the next fault says, and succeeds when there are none left *)

Record memory_net := MemoryNet { next_fd : Z; open_fds : gset Z; outgoing : text; ingoing : text; script : list fault; last_errno : Z }.

Definition next_script (w : memory_net) : option fault * memory_net :=
  match script w with
  | [] => (None, w)
  | f :: fs => (Some f, MemoryNet (next_fd w) (open_fds w) (outgoing w) (ingoing w) fs (last_errno w))
  end.

(** A call that may fail, and otherwise acts by [k], to which a limit on the transfer may be given. *)
Definition scripted {A} (w : memory_net) (k : option nat -> memory_net -> A * memory_net) : sysret A * memory_net :=
  match next_script w with
  | (Some Interrupted, w) => (SysErr 4, w)
  | (Some (Fails e), w) => if e =? 0 then let '(a, w) := k None w in (SysOk a, w) else (SysErr e, w)
  | (Some (Short n), w) => let '(a, w) := k (Some n) w in (SysOk a, w)
  | (None, w) => let '(a, w) := k None w in (SysOk a, w)
  end.

Definition fresh_fd (w : memory_net) : Z * memory_net :=
  let fd := Z.max (next_fd w) (foldr Z.max 0 (elements (open_fds w)) + 1) in
  (fd, MemoryNet (fd + 1) ({[fd]} ∪ open_fds w) (outgoing w) (ingoing w) (script w) (last_errno w)).

#[export] Instance memory_network : NetOs memory_net := {
  POLLIN := 1; POLLOUT := 4; POLLERR := 8; POLLNVAL := 32;
  calm w := length (script w);
  errno w := last_errno w;
  sys_getaddrinfo host port w := (if bool_decide (host = []) then inl (-2) else inr [AddrInfo 2 host; AddrInfo 10 host], w);
  sys_socket f w := scripted w (fun _ => fresh_fd);
  sys_connect h ai w := scripted w (fun _ w => (tt, w));
  sys_close_fd h w := MemoryNet (next_fd w) (open_fds w ∖ {[h]}) (outgoing w) (ingoing w) (script w) (last_errno w);
  sys_send h bs flags w := scripted w (fun limit w =>
    let n := default (length bs) (min (length bs) <$> limit) in
    (n, MemoryNet (next_fd w) (open_fds w) (outgoing w ++ take n bs) (ingoing w) (script w) (last_errno w)));
  sys_recv h n w := scripted w (fun limit w =>
    let n := default n (min n <$> limit) in
    (take n (ingoing w), MemoryNet (next_fd w) (open_fds w) (outgoing w) (drop n (ingoing w)) (script w) (last_errno w)));
  sys_poll h ev t w := scripted w (fun _ w => ((1, ev), w));
  sys_select h tv w := let '(r, w) := scripted w (fun _ w => (1, w)) in (r, tv, w);
  sys_getsockopt h o w := (SysOk 0, w);
  sys_setsockopt h o v w := (SysOk tt, w);
  sys_shutdown h w := scripted w (fun _ w => (tt, w));
  sys_bind h port w := scripted w (fun _ w => (tt, w));
  sys_listen h backlog w := scripted w (fun _ w => (tt, w));
  sys_getsockname h w := scripted w (fun _ w => (49152, w));
  sys_accept h w := scripted w (fun _ => fresh_fd);
  descriptors w := open_fds w
}.

#[export] Instance memory_posix : PosixNet memory_net := {
  MSG_NOSIGNAL := Some 16384; has_so_nosigpipe := false;
  EINTR_ := 4; EWOULDBLOCK := 11; EAGAIN := 11; EINPROGRESS := 115; O_NONBLOCK := 2048; FD_SETSIZE := 1024;
  sys_getfl h w := scripted w (fun _ w => (2, w));
  sys_setfl h flags w := scripted w (fun _ w => (tt, w))
}.

(** Until it is started, Winsock answers [WSANOTINITIALISED]. *)
#[export] Instance memory_winsock : WinNet memory_net := {
  WSAEWOULDBLOCK := 10035;
  started w := negb (last_errno w =? 10093);
  WSAStartup w := MemoryNet (next_fd w) (open_fds w) (outgoing w) (ingoing w) (script w) 0;
  sys_ioctlsocket h mode w := scripted w (fun _ w => (tt, w))
}.

Lemma fresh_fd_spec w : let '(fd, w') := fresh_fd w in 0 <= fd /\ (fd ∉ open_fds w) /\ open_fds w' = {[fd]} ∪ open_fds w.
Proof.
  unfold fresh_fd. simpl. assert (forall l : list Z, (forall x, x ∈ l -> x <= foldr Z.max 0 l) /\ 0 <= foldr Z.max 0 l) as Hm.
  { induction l as [|y l [IH1 IH2]]; simpl; [split; [by intros x ?%not_elem_of_nil|lia]|]. split; [|lia].
    intros x [->|Hx]%elem_of_cons; [lia|]. specialize (IH1 _ Hx). lia. }
  destruct (Hm (elements (open_fds w))) as [H1 H2]. split_and!; [lia| |done]. intros Hin. apply elem_of_elements, H1 in Hin. lia.
Qed.

(** What a scripted call comes to. *)
Lemma scripted_spec {A} w (k : option nat -> memory_net -> A * memory_net) r w' :
  scripted w k = (r, w') ->
  match r with
  | SysOk a => exists limit w1, k limit w1 = (a, w') /\ open_fds w1 = open_fds w /\ outgoing w1 = outgoing w /\ ingoing w1 = ingoing w
  | SysErr e => e <> 0 /\ open_fds w' = open_fds w /\ outgoing w' = outgoing w /\ ingoing w' = ingoing w /\ (length (script w') < length (script w))%nat
  end.
Proof.
  unfold scripted, next_script. destruct w as [nf fds og ig [|[|n|e] fs] er]; simpl; intros E.
  - destruct (k None _) eqn:Ek; simplify_eq. by eexists _, _.
  - simplify_eq. simpl. split_and!; try done; lia.
  - destruct (k (Some n) _) eqn:Ek; simplify_eq. by eexists _, _.
  - destruct (Z.eqb_spec e 0); [destruct (k None _) eqn:Ek; simplify_eq; by eexists _, _|]. simplify_eq. simpl. split_and!; try done; lia.
Qed.


Ltac scripted H := apply scripted_spec in H; simpl in H.

#[export] Instance memory_net_laws interrupted : NetOsLaws memory_net interrupted (fun _ w => outgoing w) (fun _ w => ingoing w).
Proof.
  split; simpl; intros.
  - scripted H. destruct H as (l & w1 & E & Hf & _). pose proof (fresh_fd_spec w1) as Hs. rewrite E in Hs. by rewrite <- Hf.
  - scripted H. by destruct H as (? & ? & _).
  - scripted H. destruct H as (l & w1 & E & Hf & _). pose proof (fresh_fd_spec w1) as Hs. rewrite E in Hs. by rewrite <- Hf.
  - scripted H. by destruct H as (? & ? & _ & _ & ?).
  - done.
  - by simplify_eq.
  - destruct r; scripted H; [destruct H as (? & ? & ? & ? & _)|destruct H as (? & ? & _)]; simplify_eq; (split; [done|]); intros; by simplify_eq.
  - destruct r; scripted H; [destruct H as (? & ? & ? & ? & _)|destruct H as (? & ? & _ & _ & ?)]; simplify_eq; (split; [done|]); intros; by simplify_eq.
  - destruct (scripted w (fun _ w => (1, w))) as [r1 w1] eqn:E. simplify_eq.
    destruct r; scripted E; [destruct E as (? & ? & ? & ? & _)|destruct E as (? & ? & _ & _ & ?)]; simplify_eq; (split; [done|]); intros; by simplify_eq.
  - by simplify_eq.
  - by simplify_eq.
  - destruct r; scripted H; [destruct H as (? & ? & ? & ? & _)|destruct H as (? & ? & _)]; by simplify_eq.
  - destruct r; scripted H; [destruct H as (? & ? & ? & ? & _)|destruct H as (? & ? & _)]; by simplify_eq.
  - destruct r; scripted H; [destruct H as (? & ? & ? & ? & _)|destruct H as (? & ? & _)]; by simplify_eq.
  - destruct r; scripted H; [destruct H as (? & ? & ? & ? & _)|destruct H as (? & ? & _)]; by simplify_eq.
  - scripted H. destruct H as (l & w1 & E & Hf & Ho & _). simplify_eq/=. rewrite Ho. split_and!; [done| |done]. destruct l; simpl; lia.
  - scripted H. by destruct H as (? & ? & ? & _ & ?).
  - scripted H. destruct H as (l & w1 & E & Hf & _ & Hi). simplify_eq/=. rewrite <- Hi, take_drop. split_and!; [done| |done].
    rewrite length_take. destruct l; simpl; lia.
  - scripted H. by destruct H as (? & ? & _ & ? & ?).
Qed.

#[export] Instance memory_posix_laws : PosixNetLaws memory_net.
Proof.
  split; simpl; intros;
    (destruct r; scripted H; [destruct H as (? & ? & ? & ? & _)|destruct H as (? & ? & _)]; simplify_eq; (split; [done|]); intros; by simplify_eq).
Qed.

#[export] Instance memory_winsock_laws : WinNetLaws memory_net.
Proof.
  split; simpl; [done|]. intros.
  destruct r; scripted H; [destruct H as (? & ? & ? & ? & _)|destruct H as (? & ? & _)]; simplify_eq; (split; [done|]); intros; by simplify_eq.
Qed.

(** A program: a listener, an accept that fails half-way, one that succeeds, a connection that needs the second
    address, moves in both directions, transfers cut short, and the end of all variables. *)
Definition demo_net : memory_net := MemoryNet 3 {[0; 1; 2]} [] ($"reply") [Short 0; Short 0; Short 0; Short 0; Short 0; Short 0; Short 7; Short 0; Fails 9; Interrupted] 0.

Definition demo_program : list command :=
  [Listen 0 0 128 true; Accept 0 1; Accept 0 1; Connect 2 ($"localhost") 80 true; Use 2 (Send ($"hello")); MoveConstruct 3 2;
   MoveAssign 1 3; Use 1 (Recv 3); Use 1 (WaitConnected 10); Close 1; Close 1; Destroy 0; Destroy 1; Destroy 2; Destroy 3].

Lemma descriptors_have_one_owner_witness :
  exists m' w', run_session demo_program ∅ demo_net = Some (m', w') /\
  (forall fd, fd ∈ descriptors w' <-> fd ∈ descriptors demo_net \/ exists h, owner m' h fd) /\
  (forall h h' fd, owner m' h fd -> owner m' h' fd -> h = h') /\
  (forall h fd, owner m' h fd -> fd ∉ descriptors demo_net) /\
  (m' = ∅ -> descriptors w' = descriptors demo_net).
Proof.
  destruct (run_session demo_program ∅ demo_net) as [[m' w']|] eqn:E; [|exfalso; vm_compute in E; discriminate E].
  exists m', w'. split; [done|]. exact (descriptors_have_one_owner (fun _ w => outgoing w) (fun _ w => ingoing w) demo_program demo_net m' w' E).
Defined.

Definition demo_socket : tcp_socket := TcpSocket 5 0 true.

Lemma transfers_are_exact_witness :
  let w := MemoryNet 6 {[5]} [] ($"reply") [Short 2; Fails 10035; Interrupted] 0 in
  let '(rs, s1, w1) := run_sends (SocketHost0 := WindowsSockets.host) [$"abc"; $"c"; $"c"] demo_socket w in
  let '(rs', s2, w2) := run_recvs (SocketHost0 := WindowsSockets.host) [9; 3; 9]%nat demo_socket w in
  outgoing w1 = outgoing w ++ concat (zip_with (fun r src => take (bytes r) src) rs [$"abc"; $"c"; $"c"]) /\
  Forall (fun r => status r <> io_ok -> bytes r = 0%nat) rs /\
  ingoing w = concat (map snd rs') ++ ingoing w2 /\
  Forall (fun r => length r.2 = bytes r.1 /\ (status r.1 = io_ok <-> bytes r.1 <> 0%nat)) rs'.
Proof.
  cbv zeta. destruct (run_sends _ _ _) as [[rs s1] w1] eqn:E1. destruct (run_recvs _ _ _) as [[rs' s2] w2] eqn:E2.
  exact (transfers_are_exact (SocketHostLaws0 := WindowsSockets.laws _ _) (fun _ w => outgoing w) (fun _ w => ingoing w) _ _ demo_socket _ rs s1 w1 rs' s2 w2 eq_refl E1 E2).
Defined.

Definition refusing_net : memory_net := MemoryNet 3 ∅ [] [] [Short 0; Short 0; Short 0; Fails 111; Fails 97] 0.

Lemma connect_reports_errors_witness :
  let '(s, w') := connect ($"localhost") 80 true refusing_net in
  (is_open s = true <-> error_ s = 0) /\ non_blocking_ s = true /\ error_ s = 97.
Proof.
  destruct (connect _ _ _ _) as [s w'] eqn:E.
  assert (sys_getaddrinfo (c_str ($"localhost")) (digits 10 80) (ensure_started refusing_net) = (inr [AddrInfo 2 ($"localhost"); AddrInfo 10 ($"localhost")], refusing_net))
    as Hg by (vm_compute; reflexivity).
  destruct (connect_reports_errors (fun _ w => outgoing w) (fun _ w => ingoing w) _ _ true _ s w' _ _ Hg ltac:(done) E) as [H1 H2].
  split; [exact H1|]. split; [exact H2|]. vm_compute in E. injection E as <- _. reflexivity.
Defined.

Lemma wait_connected_defined_witness :
  (is_Some (wait_connected demo_socket 10 demo_net) <-> 5 < 1024) /\
  is_Some (wait_connected (SocketHost0 := WindowsSockets.host) demo_socket 10 demo_net).
Proof. exact (wait_connected_defined demo_socket 10 demo_net eq_refl ltac:(vm_compute; discriminate)). Defined.

(** A host that does not resolve gives a closed socket whose [error()] is 0: the resolver's own code is dropped, and [errno] is
    read instead, which the resolver has not set. *)
Lemma unresolved_host_reports_no_error : let '(s, _) := connect [] 80 true demo_net in is_open s = false /\ error_ s = 0.
Proof. by vm_compute. Qed.
