(* ===== verification/Conversation.v ===== *)
(** * Two sockets of the library at the two ends of one connection

    [TcpSession] says what one socket's transfers are; here both ends are [TcpSocket]s and their programs interleave.  What is
    relied on is TCP's promise for each direction ([flow]): the bytes taken at one end are, in order, those that arrive at the other,
    and the end of the stream is seen once the sender has shut down its side and everything has been read.  It is a law of
    the system calls; each platform's wrappers are shown to keep it. *)

From S2P Require Import Prelude Posix SocketHost TcpSocket.
Open Scope Z_scope.

Section conversation.
Context {W : Type} `{!NetOs W, !SocketHost W}.
(** [incoming y w]: the bytes on their way to, or waiting at, the end [y]; [finished x w]: the end [x] has shut down writing. *)
Context (incoming : Z -> W -> text) (finished : Z -> W -> bool).

(** ** The promise, for the direction from [x] to [y] *)

Record flow (snd_ : Z -> text -> W -> sysret nat * W) (rcv : Z -> nat -> W -> sysret text * W) (x y : Z) : Prop := {
  flow_send src w r w' : snd_ x src w = (r, w') ->
    finished x w' = finished x w /\
    match r with
    | SysOk n => (n <= length src)%nat /\ incoming y w' = incoming y w ++ take n src /\ (finished x w = true -> n = 0%nat)
    | SysErr _ => incoming y w' = incoming y w
    end;
  flow_recv n w r w' : rcv y n w = (r, w') ->
    finished x w' = finished x w /\
    match r with
    | SysOk bs => incoming y w = bs ++ incoming y w' /\ (bs = [] -> (0 < n)%nat -> finished x w = true /\ incoming y w = [])
    | SysErr _ => incoming y w' = incoming y w
    end;
  flow_back_send src w r w' : snd_ y src w = (r, w') -> finished x w' = finished x w /\ incoming y w' = incoming y w;
  flow_back_recv n w r w' : rcv x n w = (r, w') -> finished x w' = finished x w /\ incoming y w' = incoming y w;
  flow_shutdown w r w' : sys_shutdown x w = (r, w') ->
    incoming y w' = incoming y w /\ finished x w' = match r with SysOk _ => true | SysErr _ => finished x w end;
  flow_back_shutdown w r w' : sys_shutdown y w = (r, w') -> finished x w' = finished x w /\ incoming y w' = incoming y w
}.

(** The promise of the system calls, whatever flags [send] is given. *)
Definition sys_flow (x y : Z) : Prop := forall flags, flow (fun h src => sys_send h src flags) sys_recv x y.

(** What is asked of a platform: its wrappers keep the promise its system calls make. *)
Class KeepsFlow : Prop := keeps_flow x y : sys_flow x y -> flow native_send native_recv x y.

(** ** A conversation: each step is an operation of one end, [true] the left one *)

Inductive action : Type := Send (src : text) | Recv (n : nat) | Shutdown.

(** What a step shows its program: the prefix of a send that was taken, bytes received, the end of the stream, a shutdown that
    succeeded; [Took []] and [Got []] when nothing moved. *)
Inductive event : Type := Took (bs : text) | Got (bs : text) | Ended | Finished | Refused.

Definition act (a : action) (s : tcp_socket) (w : W) : event * tcp_socket * W :=
  match a with
  | Send src => let '(r, s, w) := send s src w in (Took (take (bytes r) src), s, w)
  | Recv n =>
      let '(r, bs, s, w) := recv s n w in
      (match status r with io_closed => if (0 <? n)%nat then Ended else Got bs | _ => Got bs end, s, w)
  | Shutdown => let '(ok, s, w) := shutdown_write s w in (if ok then Finished else Refused, s, w)
  end.

Fixpoint converse (script : list (bool * action)) (l r : tcp_socket) (w : W) : list (bool * event) * (tcp_socket * tcp_socket) * W :=
  match script with
  | [] => ([], (l, r), w)
  | (side, a) :: script =>
      let '(e, s, w) := act a (if side then l else r) w in
      let '(es, ends, w) := converse script (if side then s else l) (if side then r else s) w in
      ((side, e) :: es, ends, w)
  end.

(** The bytes taken from, and given to, one end. *)
Definition taken (side : bool) (es : list (bool * event)) : text :=
  concat (omap (fun e => match e with (b, Took bs) => if bool_decide (b = side) then Some bs else None | _ => None end) es).
Definition given (side : bool) (es : list (bool * event)) : text :=
  concat (omap (fun e => match e with (b, Got bs) => if bool_decide (b = side) then Some bs else None | _ => None end) es).

(** ** One direction *)

Section direction.
Context (x y : Z) (F : flow native_send native_recv x y).

(** A step of the sender, and one of the receiver. *)
Lemma sender_step a s w e s' w' :
  act a s w = (e, s', w') -> is_open s = true -> handle_ s = x ->
  is_open s' = true /\ handle_ s' = x /\
  incoming y w' = incoming y w ++ (match e with Took bs => bs | _ => [] end) /\
  (finished x w = true -> finished x w' = true /\ forall bs, e = Took bs -> bs = []) /\
  (finished x w' = true -> finished x w = true \/ e = Finished).
Proof.
  intros E Ho Hx. destruct a as [src|n|]; simpl in E.
  - unfold send in E. rewrite Ho, Hx in E. destruct (native_send x src w) as [r1 w1] eqn:En. destruct (flow_send _ _ _ _ F _ _ _ _ En) as [Hf Hs].
    destruct r1 as [n|e1]; [destruct Hs as (Hn & Hi & Hz)|destruct (is_would_block e1)]; simplify_eq/=; rewrite ?take_0, ?app_nil_r, ?Hf;
      split_and!; try done; try (by left); intros; split; try done; intros; simplify_eq; by rewrite ?Hz, ?take_0.
  - unfold recv in E. rewrite Ho, Hx in E. destruct (native_recv x n w) as [r1 w1] eqn:En. destruct (flow_back_recv _ _ _ _ F _ _ _ _ En) as [Hf Hi].
    destruct r1 as [[|b bs]|e1]; [|..|destruct (is_would_block e1)]; simpl in E; try case_match; simplify_eq/=; rewrite ?app_nil_r, ?Hf;
      split_and!; try done; by left.
  - unfold shutdown_write in E. rewrite Ho, Hx in E. destruct (sys_shutdown x w) as [r1 w1] eqn:En. destruct (flow_shutdown _ _ _ _ F _ _ _ En) as [Hi Hf].
    destruct r1; simplify_eq/=; rewrite ?app_nil_r, ?Hf; split_and!; try done; [by right|by left].
Qed.

Lemma receiver_step a s w e s' w' :
  act a s w = (e, s', w') -> is_open s = true -> handle_ s = y ->
  is_open s' = true /\ handle_ s' = y /\ finished x w' = finished x w /\
  incoming y w = (match e with Got bs => bs | _ => [] end) ++ incoming y w' /\
  (e = Ended -> finished x w = true /\ incoming y w = []).
Proof.
  intros E Ho Hx. destruct a as [src|n|]; simpl in E.
  - unfold send in E. rewrite Ho, Hx in E. destruct (native_send y src w) as [r1 w1] eqn:En. destruct (flow_back_send _ _ _ _ F _ _ _ _ En) as [Hf Hi].
    destruct r1 as [n|e1]; [|destruct (is_would_block e1)]; simplify_eq/=; by rewrite ?Hf, ?Hi.
  - unfold recv in E. rewrite Ho, Hx in E. destruct (native_recv y n w) as [r1 w1] eqn:En. destruct (flow_recv _ _ _ _ F _ _ _ _ En) as [Hf Hi].
    destruct r1 as [[|b bs]|e1]; [destruct (Nat.ltb_spec 0 n)|..|destruct (is_would_block e1)]; simplify_eq/=; split_and!; try done; try tauto.
  - unfold shutdown_write in E. rewrite Ho, Hx in E. destruct (sys_shutdown y w) as [r1 w1] eqn:En. destruct (flow_back_shutdown _ _ _ _ F _ _ _ En) as [Hf Hi].
    destruct r1; simplify_eq/=; by rewrite ?Hf, ?Hi.
Qed.

(** What a whole conversation comes to for the direction whose sender is the side [p]. *)
Record carried (p : bool) (w w' : W) (es : list (bool * event)) : Prop := {
  c_stream : incoming y w ++ taken p es = given (negb p) es ++ incoming y w';
  c_after : finished x w = true -> finished x w' = true /\ taken p es = [];
  c_shutdown : finished x w' = true -> finished x w = true \/ (p, Finished) ∈ es;
  c_end : (negb p, Ended) ∈ es -> finished x w' = true /\ incoming y w' = []
}.

Lemma carried_nil p w : carried p w w [].
Proof. split; simpl; try done; [by rewrite app_nil_r|by left|by intros ?%not_elem_of_nil]. Qed.

Lemma carried_sender p w w1 w' e es :
  incoming y w1 = incoming y w ++ (match e with Took bs => bs | _ => [] end) ->
  (finished x w = true -> finished x w1 = true /\ forall bs, e = Took bs -> bs = []) ->
  (finished x w1 = true -> finished x w = true \/ e = Finished) ->
  carried p w1 w' es -> carried p w w' ((p, e) :: es).
Proof.
  intros Hi Hf Hs [H1 H2 H3 H4]. assert (taken p ((p, e) :: es) = (match e with Took bs => bs | _ => [] end) ++ taken p es) as Et.
  { unfold taken. destruct e; simpl; try done. by rewrite bool_decide_eq_true_2. }
  assert (given (negb p) ((p, e) :: es) = given (negb p) es) as Eg.
  { unfold given. destruct e; simpl; try done. by rewrite bool_decide_eq_false_2 by (by destruct p). }
  split; rewrite ?Et, ?Eg.
  - by rewrite app_assoc, <- Hi.
  - intros Hw. destruct (Hf Hw) as [Hw1 Hz]. destruct (H2 Hw1) as [Hw' ->]. split; [done|]. rewrite app_nil_r. destruct e; try done. by apply Hz.
  - intros [Hw|Hin]%H3; [|right; by apply elem_of_cons; right]. destruct (Hs Hw) as [?| ->]; [by left|right; by apply elem_of_cons; left].
  - intros [Heq|Hin]%elem_of_cons; [destruct p; simplify_eq|by apply H4].
Qed.

Lemma carried_receiver p w w1 w' e es :
  finished x w1 = finished x w ->
  incoming y w = (match e with Got bs => bs | _ => [] end) ++ incoming y w1 ->
  (e = Ended -> finished x w = true /\ incoming y w = []) ->
  carried p w1 w' es -> carried p w w' ((negb p, e) :: es).
Proof.
  intros Hf Hi He [H1 H2 H3 H4]. assert (given (negb p) ((negb p, e) :: es) = (match e with Got bs => bs | _ => [] end) ++ given (negb p) es) as Eg.
  { unfold given. destruct e; simpl; try done. by rewrite bool_decide_eq_true_2. }
  assert (taken p ((negb p, e) :: es) = taken p es) as Et.
  { unfold taken. destruct e; simpl; try done. by rewrite bool_decide_eq_false_2 by (by destruct p). }
  split; rewrite ?Et, ?Eg.
  - by rewrite Hi, <- !app_assoc, H1.
  - by rewrite <- Hf.
  - intros [Hw|Hin]%H3; [left; congruence|right; by apply elem_of_cons; right].
  - intros [Heq|Hin]%elem_of_cons; [|by apply H4]. simplify_eq. destruct (He eq_refl) as [Hw Hn]. rewrite <- Hf in Hw. destruct (H2 Hw) as [Hw' Ht].
    split; [done|]. rewrite Ht, app_nil_r in H1. rewrite Hn in Hi. simpl in Hi. rewrite <- Hi in H1. symmetry in H1. by apply app_nil in H1 as [_ ?].
Qed.

Lemma converse_carried (p : bool) script l r w es ends w' :
  is_open l = true -> is_open r = true -> handle_ (if p then l else r) = x -> handle_ (if p then r else l) = y ->
  converse script l r w = (es, ends, w') -> carried p w w' es.
Proof.
  revert l r w es. induction script as [|[side a] script IH]; intros l r w es Ol Or Hx Hy E; simpl in E; [simplify_eq; apply carried_nil|].
  destruct (act a (if side then l else r) w) as [[e s] w1] eqn:Ea.
  destruct (converse script (if side then s else l) (if side then r else s) w1) as [[es1 ends1] w2] eqn:Ec. simplify_eq.
  destruct (decide (side = p)) as [->|Hs].
  - destruct (sender_step a (if p then l else r) w e s w1 Ea) as (H1 & H2 & H3 & H4 & H5); [by destruct p|done|].
    eapply carried_sender; [done..|]. eapply IH; [..|exact Ec]; by destruct p.
  - assert (side = negb p) as -> by (by destruct side, p).
    destruct (receiver_step a (if negb p then l else r) w e s w1 Ea) as (H1 & H2 & H3 & H4 & H5); [by destruct p|by destruct p|].
    eapply carried_receiver; [done..|]. eapply IH; [..|exact Ec]; by destruct p.
Qed.
End direction.

(** C40. Two programs that talk through sockets of the library hear each other exactly.  However their operations interleave,
    however many sends are cut short or refused, for each direction: what the receiver has been given is, in order, the beginning of what the
    sender's calls reported as taken, and the rest is on its way; and when [recv] reports [closed] (for a buffer that is not empty),
    the sender has shut down its side and the receiver has been given everything. *)
Theorem conversations_are_exact `{keeps : !KeepsFlow} script l r w es ends w' :
  is_open l = true -> is_open r = true ->
  sys_flow (handle_ l) (handle_ r) -> sys_flow (handle_ r) (handle_ l) ->
  converse script l r w = (es, ends, w') ->
  forall p : bool,
    let x := handle_ (if p then l else r) in
    let y := handle_ (if p then r else l) in
    incoming y w ++ taken p es = given (negb p) es ++ incoming y w' /\
    ((negb p, Ended) ∈ es ->
      given (negb p) es = incoming y w ++ taken p es /\ (finished x w = true \/ (p, Finished) ∈ es)).
Proof.
  intros Ol Or Fl%keeps_flow Fr%keeps_flow E p x y. assert (carried x y p w w' es) as [H1 _ H3 H4].
  { eapply converse_carried; [|exact Ol|exact Or|done|done|exact E]. by destruct p. }
  split; [done|]. intros Hin. destruct (H4 Hin) as [Hf Hn]. split; [by rewrite H1, Hn, app_nil_r|by apply H3].
Qed.
End conversation.

(** ** Both platforms keep the promise their system makes *)

Section platforms.
Context {W : Type} `{!NetOs W} (sent incoming : Z -> W -> text) (finished : Z -> W -> bool).

Section posix.
Context `{!PosixNet W, !NetOsLaws W PosixSockets.is_interrupted sent incoming}.

(** Interrupted calls change nothing, so a retried call does what its last attempt did. *)
Lemma retried {A} (line : W -> bool * text) (sys : W -> sysret A * W) w r w' :
  (forall w1 e w2, sys w1 = (SysErr e, w2) -> line w2 = line w1) ->
  (forall w1 e w2, sys w1 = (SysErr e, w2) -> PosixSockets.is_interrupted e = true -> (calm w2 < calm w1)%nat) ->
  retry PosixSockets.is_interrupted calm sys w = (r, w') -> exists w1, line w1 = line w /\ sys w1 = (r, w').
Proof.
  intros Hl Hc E. destruct (retry_spec PosixSockets.is_interrupted calm (fun w1 => line w1 = line w) sys w r w') as (_ & w1 & H1 & H2 & _); [|done|done|by exists w1].
  intros w1 w2 e H1 Es He. split; [by rewrite (Hl _ _ _ Es)|by apply (Hc _ e)].
Qed.

#[global] Instance posix_keeps_flow : KeepsFlow incoming finished.
Proof.
  intros x y F. destruct (F PosixSockets.k_send_flags) as [F1 F2 F3 F4 F5 F6]. pose (line := fun w => (finished x w, incoming y w)).
  assert (forall h src flags w e w', sys_send h src flags w = (SysErr e, w') -> PosixSockets.is_interrupted e = true -> (calm w' < calm w)%nat) as Cs.
  { intros h src flags w e w' E. by destruct (send_failed _ _ _ _ _ _ E) as (_ & _ & ?). }
  assert (forall h n w e w', sys_recv h n w = (SysErr e, w') -> PosixSockets.is_interrupted e = true -> (calm w' < calm w)%nat) as Cr.
  { intros h n w e w' E. by destruct (recv_failed _ _ _ _ _ E) as (_ & _ & ?). }
  split; try done.
  - intros src w r w' E. destruct (retried line (sys_send x src PosixSockets.k_send_flags) w r w') as (w1 & [= Hf Hi] & Es); [|by apply Cs|done|].
    + intros w1 e w2 Es. destruct (F1 _ _ _ _ Es) as [Hf Hi]. unfold line. by rewrite Hf, Hi.
    + rewrite <- Hf, <- Hi. by apply F1.
  - intros n w r w' E. destruct (retried line (sys_recv y n) w r w') as (w1 & [= Hf Hi] & Es); [|by apply Cr|done|].
    + intros w1 e w2 Es. destruct (F2 _ _ _ _ Es) as [Hf Hi]. unfold line. by rewrite Hf, Hi.
    + rewrite <- Hf, <- Hi. by apply (F2 n _ r).
  - intros src w r w' E. destruct (retried line (sys_send y src PosixSockets.k_send_flags) w r w') as (w1 & [= Hf Hi] & Es); [|by apply Cs|done|].
    + intros w1 e w2 Es. destruct (F3 _ _ _ _ Es) as [Hf Hi]. unfold line. by rewrite Hf, Hi.
    + rewrite <- Hf, <- Hi. by apply (F3 src _ r).
  - intros n w r w' E. destruct (retried line (sys_recv x n) w r w') as (w1 & [= Hf Hi] & Es); [|by apply Cr|done|].
    + intros w1 e w2 Es. destruct (F4 _ _ _ _ Es) as [Hf Hi]. unfold line. by rewrite Hf, Hi.
    + rewrite <- Hf, <- Hi. by apply (F4 n _ r).
Qed.
End posix.

#[global] Instance windows_keeps_flow `{!WinNet W} : KeepsFlow (SocketHost0 := WindowsSockets.host) incoming finished.
Proof.
  intros x y F. destruct (F 0) as [F1 F2 F3 F4 F5 F6]. split; try done.
  - intros src w r w' E. pose proof (WindowsSockets.socket_capped_le (length src)) as Hle. destruct (F1 _ _ _ _ E) as [Hf Hi]. split; [done|].
    destruct r as [n|e]; [|done]. destruct Hi as (Hn & Hi & Hz). rewrite length_take in Hn. rewrite take_take, Nat.min_l in Hi by lia. split_and!; try done. lia.
  - intros n w r w' E. destruct (F2 _ _ _ _ E) as [Hf Hi]. split; [done|]. destruct r as [bs|e]; [|done]. destruct Hi as [Hi Hz]. split; [done|].
    intros Hb Hn. apply Hz; [done|]. unfold WindowsSockets.capped, int_max. lia.
  - intros src w r w' E. by apply (F3 _ _ r w' E).
  - intros n w r w' E. by apply (F4 _ _ r w' E).
Qed.
End platforms.

(** ** A connection in memory, between the descriptors 3 and 4

    Each direction is what was sent, what is still unread of it, and whether it has ended; calls go as the next fault says; nothing else is there. *)

Record wire := Wire { sent_ : text; unread_ : text; ended_ : bool }.
Record pipe := Pipe { from_three : wire; from_four : wire; pipe_faults : list fault }.

Definition next_pipe_fault (w : pipe) : option fault * pipe :=
  match pipe_faults w with [] => (None, w) | f :: fs => (Some f, Pipe (from_three w) (from_four w) fs) end.

Definition out_wire (h : Z) (w : pipe) : wire := if h =? 3 then from_three w else from_four w.
Definition in_wire (h : Z) (w : pipe) : wire := if h =? 3 then from_four w else from_three w.
Definition set_out (h : Z) (x : wire) (w : pipe) : pipe := if h =? 3 then Pipe x (from_four w) (pipe_faults w) else Pipe (from_three w) x (pipe_faults w).
Definition set_in (h : Z) (x : wire) (w : pipe) : pipe := if h =? 3 then Pipe (from_three w) x (pipe_faults w) else Pipe x (from_four w) (pipe_faults w).

(** A fault decides an error or a limit on the transfer. *)
Definition faulty {A} (k : option nat -> pipe -> sysret A * pipe) (w : pipe) : sysret A * pipe :=
  match next_pipe_fault w with
  | (Some Interrupted, w) => (SysErr 4, w)
  | (Some (Fails e), w) => (SysErr e, w)
  | (Some (Short n), w) => k (Some n) w
  | (None, w) => k None w
  end.

Definition pipe_send (h : Z) (bs : text) : pipe -> sysret nat * pipe := faulty (fun limit w =>
  let x := out_wire h w in
  if ended_ x then (SysErr 32, w)
  else
    let n := default (length bs) (min (length bs) <$> limit) in
    (SysOk n, set_out h (Wire (sent_ x ++ take n bs) (unread_ x ++ take n bs) (ended_ x)) w)).

(** Without data, [EAGAIN], unless the stream has ended. *)
Definition pipe_recv (h : Z) (n : nat) : pipe -> sysret text * pipe := faulty (fun limit w =>
  let x := in_wire h w in
  let bs := take (default n (min n ∘ S <$> limit)) (unread_ x) in
  if bool_decide (unread_ x = []) && negb (ended_ x) then (SysErr 11, w)
  else (SysOk bs, set_in h (Wire (sent_ x) (drop (length bs) (unread_ x)) (ended_ x)) w)).

Definition pipe_shutdown (h : Z) : pipe -> sysret unit * pipe := faulty (fun _ w =>
  let x := out_wire h w in (SysOk tt, set_out h (Wire (sent_ x) (unread_ x) true) w)).

#[export] Instance pipe_network : NetOs pipe := {
  POLLIN := 1; POLLOUT := 4; POLLERR := 8; POLLNVAL := 32;
  calm w := length (pipe_faults w);
  errno w := 0;
  sys_getaddrinfo host port w := (inl (-2), w);
  sys_socket f w := (SysErr 24, w);
  sys_connect h ai w := (SysErr 106, w);
  sys_close_fd h w := w;
  sys_send h bs flags := pipe_send h bs;
  sys_recv := pipe_recv;
  sys_poll h ev t w := (SysOk (1, ev), w);
  sys_select h tv w := (SysOk 1, tv, w);
  sys_getsockopt h o w := (SysOk 0, w);
  sys_setsockopt h o v w := (SysOk tt, w);
  sys_shutdown := pipe_shutdown;
  sys_bind h port w := (SysErr 22, w);
  sys_listen h backlog w := (SysErr 22, w);
  sys_getsockname h w := (SysOk 49152, w);
  sys_accept h w := (SysErr 22, w);
  descriptors w := ∅
}.

#[export] Instance pipe_posix : PosixNet pipe := {
  MSG_NOSIGNAL := Some 16384; has_so_nosigpipe := false;
  EINTR_ := 4; EWOULDBLOCK := 11; EAGAIN := 11; EINPROGRESS := 115; O_NONBLOCK := 2048; FD_SETSIZE := 1024;
  sys_getfl h w := (SysOk 2, w);
  sys_setfl h flags w := (SysOk tt, w)
}.

Definition pipe_incoming (h : Z) (w : pipe) : text := unread_ (in_wire h w).
Definition pipe_finished (h : Z) (w : pipe) : bool := ended_ (out_wire h w).
Definition pipe_sent (h : Z) (w : pipe) : text := sent_ (out_wire h w).

Lemma faulty_spec {A} (k : option nat -> pipe -> sysret A * pipe) w r w' :
  faulty k w = (r, w') ->
  exists w1, from_three w1 = from_three w /\ from_four w1 = from_four w /\
    ((w' = w1 /\ (exists e, r = SysErr e) /\ (length (pipe_faults w') < length (pipe_faults w))%nat) \/ exists limit, k limit w1 = (r, w')).
Proof.
  unfold faulty, next_pipe_fault. destruct w as [t f [|[|n|e] fs]]; simpl; intros E.
  - exists (Pipe t f []). split_and!; try done. right. by exists None.
  - simplify_eq. exists (Pipe t f fs). split_and!; try done. left. split_and!; [done|by eexists|simpl; lia].
  - exists (Pipe t f fs). split_and!; try done. right. by exists (Some n).
  - simplify_eq. exists (Pipe t f fs). split_and!; try done. left. split_and!; [done|by eexists|simpl; lia].
Qed.

Lemma limit_le n (limit : option nat) : (default n (min n <$> limit) <= n)%nat.
Proof. destruct limit; simpl; lia. Qed.

Lemma take_then_drop (k : nat) (l : text) : l = take k l ++ drop (length (take k l)) l.
Proof.
  rewrite length_take. destruct (decide (k <= length l)%nat); [by rewrite Nat.min_l, take_drop by done|].
  by rewrite Nat.min_r, drop_all, app_nil_r, take_ge by lia.
Qed.

(** An empty read that asked for something is the end of the stream. *)
Lemma empty_read (n : nat) (limit : option nat) (l : text) (e : bool) :
  bool_decide (l = []) && negb e = false -> take (default n (min n ∘ S <$> limit)) l = [] -> (0 < n)%nat -> e = true /\ l = [].
Proof.
  intros Hb Ht Hn. destruct l as [|c l]; [rewrite bool_decide_eq_true_2 in Hb by done; by destruct e|]. exfalso.
  destruct limit as [k|]; simpl in Ht; [destruct n; [lia|done]|]. destruct n; [lia|done].
Qed.

(** The two ends of the pipe, and its two directions. *)
Definition ends_of (x y : Z) : Prop := x = 3 /\ y = 4 \/ x = 4 /\ y = 3.

Lemma pipe_flow x y : ends_of x y -> sys_flow pipe_incoming pipe_finished x y.
Proof.
  intros He flags. split; simpl; intros *; unfold pipe_send, pipe_recv, pipe_shutdown; intros E; apply faulty_spec in E as (w1 & H3 & H4 & [(-> & [e ->] & _)|[limit E]]);
    unfold pipe_incoming, pipe_finished, in_wire, out_wire, set_in, set_out in *; rewrite <- ?H3, <- ?H4;
    destruct He as [[-> ->]|[-> ->]]; simpl in *; rewrite <- ?H3, <- ?H4; try done;
    repeat match type of E with context [if ?b then _ else _] => destruct b eqn:? end; simplify_eq/=; split_and!; try done;
    first [apply limit_le|apply take_then_drop|by apply empty_read].
Qed.

#[export] Instance pipe_laws : NetOsLaws pipe PosixSockets.is_interrupted pipe_sent pipe_incoming.
Proof.
  split; simpl; intros *; try (intros; simplify_eq/=; split; [done|]; intros; by simplify_eq); try (intros; by simplify_eq/=); try set_solver.
  all: try match goal with |- Z -> _ => intros _ end; intros *; unfold pipe_send, pipe_recv; intros E; apply faulty_spec in E as (w1 & H3 & H4 & [(-> & [e' Ee] & Hf)|[limit E]]); simplify_eq;
    unfold pipe_sent, pipe_incoming, in_wire, out_wire, set_in, set_out in *; rewrite <- ?H3, <- ?H4; split_and!; try done;
    destruct (h =? 3); simpl in *;
    repeat match type of E with context [if ?b then _ else _] => destruct b eqn:? end; simplify_eq/=; try done;
    first [apply limit_le|apply take_then_drop|idtac].
  all: rewrite length_take; destruct limit; simpl; lia.
Qed.

(** A conversation over POSIX: sends cut short, interrupted and refused, data arriving late, a shutdown on each side. *)
Definition talk : list (bool * action) :=
  [(true, Send ($"hello")); (false, Recv 3); (true, Send ($"lo")); (false, Recv 9); (false, Recv 9); (false, Send ($"ok")); (true, Shutdown);
   (false, Recv 9); (true, Send ($"!")); (true, Recv 1); (false, Shutdown); (true, Recv 5); (true, Recv 5)].

Definition quiet_pipe : pipe := Pipe (Wire [] [] false) (Wire [] [] false) [Short 3; Interrupted; Interrupted; Fails 11].

Lemma conversations_are_exact_witness :
  let '(es, _, w') := converse talk (TcpSocket 3 0 true) (TcpSocket 4 0 true) quiet_pipe in
  given false es = $"hello" /\ given true es = $"ok" /\
  forall p : bool,
    let y := if p then 4 else 3 in
    pipe_incoming y quiet_pipe ++ taken p es = given (negb p) es ++ pipe_incoming y w' /\
    ((negb p, Ended) ∈ es ->
      given (negb p) es = pipe_incoming y quiet_pipe ++ taken p es /\ (pipe_finished (if p then 3 else 4) quiet_pipe = true \/ (p, Finished) ∈ es)).
Proof.
  destruct (converse _ _ _ _) as [[es s] w'] eqn:E.
  pose proof (conversations_are_exact (keeps := posix_keeps_flow pipe_sent _ _) pipe_incoming pipe_finished talk (TcpSocket 3 0 true) (TcpSocket 4 0 true)
    quiet_pipe es s w' eq_refl eq_refl (pipe_flow 3 4 (or_introl (conj eq_refl eq_refl))) (pipe_flow 4 3 (or_intror (conj eq_refl eq_refl))) E) as H.
  split; [|split]; [vm_compute in E; injection E as <- _ _; reflexivity..|]. intros p. specialize (H p). destruct p; exact H.
Defined.

(** The exception for empty buffers is needed: [recv] into one is answered with nothing by the system, and so reports [closed] while the
    peer has neither shut down nor been read to its end. *)
Theorem empty_recv_reports_closed :
  let w := Pipe (Wire [] [] false) (Wire ($"abc") ($"abc") false) [] in
  let '(r, _, _, w') := recv (TcpSocket 3 0 true) 0 w in
  status r = io_closed /\ pipe_finished 4 w' = false /\ pipe_incoming 3 w' = $"abc".
Proof. by vm_compute. Qed.
