(* ===== verification/Fuzz.v ===== *)
(** * The fuzz harnesses (src/fuzz): three loops over untrusted bytes

    Each harness drives one parser of the library over arbitrary input: the JSON pull parser with its string decoder, the
    command-line parser behind a split on NUL bytes, and the binary reader driven by a selector byte.  The invariant the
    harnesses assert by running -- no input makes them throw or run on -- is proved here for every input, together with what they
    compute. *)

From S2P Require Import Prelude StdAlgo StringSplitter BinarySerializer CliParser CliProofs JsonParser JsonGrammar JsonLexer JsonProofs JsonDecode.

(** ** fuzz_json_parser.cpp *)

Definition carries_text (t : JsonToken) : bool := match t with key | string_ => true | _ => false end.

(** What the loop of [fuzz_one] has decoded when it stops; the parser is [JsonParser<>], so [MaxDepth] is 64. *)
Fixpoint json_walk (fuel : nat) (p : JsonParser.parser) (decoded : list (option text)) : option (list (option text)) :=
  match fuel with
  | O => None
  | S fuel =>
      let '(p, event) := next 64 p in
      match type_ event with
      | end_ | error => Some decoded
      | t => json_walk fuel p (if carries_text t then decoded ++ [decode_string (text_ event)] else decoded)
      end
  end.

Definition json_fuzz_one (input : text) : option (list (option text)) := json_walk (S (length input)) (make 64 input) [].

Definition decodings (es : list JsonEvent) : list (option text) :=
  omap (fun e => if carries_text (type_ e) then Some (decode_string (text_ e)) else None) es.

Lemma mstep_type M P c e c' : mstep M P c e c' -> type_ e <> end_ /\ type_ e <> error.
Proof. destruct 1; try done; by match goal with H : starts _ _ _ _ _ _ _ |- _ => destruct H end. Qed.

Lemma json_walk_drive fuel p decoded :
  wf 64 p -> state_ p = running -> length (rest p) < fuel ->
  json_walk fuel p decoded = Some (decoded ++ decodings (drive 64 fuel p)).
Proof.
  revert p decoded. induction fuel as [|fuel IH]; intros p decoded Hw Hr Hl; [lia|]. simpl.
  destruct (next 64 p) as [p' e] eqn:E.
  destruct (next_cases 64 p p' e Hw Hr E) as [(-> & [->| ->])|(-> & He & Hne & Hw' & Hr' & Hlt)]; [by rewrite app_nil_r..|].
  assert (type_ e <> end_ /\ type_ e <> error) as [H1 H2].
  { destruct (next_some 64 p p' e Hw Hr E He) as [(? & _)|(Hs & _)]; [done|by eapply mstep_type]. }
  assert (json_walk fuel p' (if carries_text (type_ e) then decoded ++ [decode_string (text_ e)] else decoded) =
    Some (decoded ++ decodings (e :: drive 64 fuel p'))) as H.
  { rewrite IH by (done || lia). cbn [decodings omap list_omap]. destruct (carries_text (type_ e)); [|done]. by rewrite <- app_assoc. }
  destruct (type_ e); done.
Qed.

(** ** fuzz_cli_parser.cpp *)

Definition split_step (st : list text * text) (ch : ascii) : list text * text :=
  let '(storage, current) := st in
  if Ascii.eqb ch NUL then (storage ++ [current], []) else (storage, current ++ [ch]).

Definition split_nul (input : text) : list text :=
  let '(storage, current) := foldl split_step ([], []) input in storage ++ [current].

Lemma nul_first c t : NUL <> c -> find_first [NUL] (c :: t) = S <$> find_first [NUL] t.
Proof. intros Hc. cbn [find_first starts_with]. by destruct (Ascii.eqb_spec NUL c). Qed.

Lemma find_nul t : NUL ∉ t -> find_first [NUL] t = None.
Proof.
  induction t as [|c t IH]; intros H; [done|]. apply not_elem_of_cons in H as [H1 H2]. by rewrite nul_first, IH.
Qed.

Lemma cut_nul t : NUL ∉ t -> cut [NUL] t.
Proof.
  unfold cut. induction t as [|c t IH]; intros H; [done|]. apply not_elem_of_cons in H as [H1 H2]. cbn [app length].
  by rewrite nul_first, IH.
Qed.

(** The harness splits as [StringSplitter] does with a NUL delimiter. *)
Lemma split_nul_tokens input : split_nul input = tokens input [NUL].
Proof.
  apply (splits_deterministic [NUL] input); [done| |by apply tokens_split].
  unfold split_nul. enough (forall storage current, NUL ∉ current ->
    exists ts, (let '(s, c) := foldl split_step (storage, current) input in s ++ [c]) = storage ++ ts /\ splits [NUL] (current ++ input) ts) as H.
  { destruct (H [] []) as (ts & E & Hs); [set_solver|]. simpl in *. by rewrite E. }
  induction input as [|ch input IH]; intros storage current Hc.
  - exists [current]. split; [done|]. rewrite app_nil_r. by constructor; apply find_nul.
  - cbn [foldl split_step]. destruct (Ascii.eqb_spec ch NUL) as [->|Hn].
    + destruct (IH (storage ++ [current]) []) as (ts & E & Hs); [set_solver|]. exists (current :: ts). split; [by rewrite E, <- app_assoc|].
      apply (splits_cut [NUL] current input); [by apply cut_nul|done].
    + destruct (IH storage (current ++ [ch])) as (ts & E & Hs); [set_solver|]. exists ts. split; [done|]. by rewrite <- app_assoc in Hs.
Qed.

Section cli.
Context {F : Type} (float_parse : text -> option F) (zero : F).

(** The five locals: [verbose], [count], [ratio], [name], [input_path]. *)
Definition locals : gmap nat (cli_value (F := F)) :=
  {[0 := VBool false; 1 := VInt 1; 2 := VFloat zero; 3 := VText []; 4 := VText []]}.

Definition fuzz_parser : outcome CliParser.parser :=
  let! p := add_flag (make_parser ($"fuzz") ($"CliParser fuzz harness.")) ($"verbose") "v" ($"verbose flag") 0 in
  let! p := add_option p ($"count") "c" ($"count option") (Target 1 (KInt (- 2 ^ 31) (2 ^ 31 - 1))) false ($"N") in
  let! p := add_option p ($"ratio") "r" ($"ratio option") (Target 2 KFloat) false ($"R") in
  let! p := add_option p ($"name") "n" ($"name option") (Target 3 KText) false ($"NAME") in
  add_positional p ($"input") ($"input path") (Target 4 KText) true.

Definition cli_fuzz_one (input : text) : outcome (CliParser.world (F := F) * ParseResult) :=
  let! p := fuzz_parser in CliParser.parse float_parse p locals (split_nul input).

Lemma fuzz_parser_built : exists p, fuzz_parser = Ret p /\ built p.
Proof.
  destruct fuzz_parser as [p|] eqn:H; [exists p; split; [done|]|vm_compute in H; discriminate]. unfold fuzz_parser in H.
  destruct (add_flag _ _ _ _ _) as [p1|] eqn:E1; [|done]. cbn [outcome_bind] in H.
  destruct (add_option p1 _ _ _ _ _ _) as [p2|] eqn:E2; [|done]. cbn [outcome_bind] in H.
  destruct (add_option p2 _ _ _ _ _ _) as [p3|] eqn:E3; [|done]. cbn [outcome_bind] in H.
  destruct (add_option p3 _ _ _ _ _ _) as [p4|] eqn:E4; [|done]. cbn [outcome_bind] in H.
  eapply built_positional; [|exact H]. eapply built_option; [|exact E4]. eapply built_option; [|exact E3].
  eapply built_option; [|exact E2]. eapply built_flag; [|exact E1]. apply built_make.
Qed.

Lemma cli_fuzz_one_returns input :
  exists p' s' r p, cli_fuzz_one input = Ret ((p', s'), r) /\ fuzz_parser = Ret p /\ clear_seen p' = clear_seen p.
Proof.
  destruct fuzz_parser_built as (p & E & Hb). unfold cli_fuzz_one. rewrite E. cbn [outcome_bind].
  destruct (parse_returns float_parse p locals (split_nul input) Hb) as (p' & s' & r & H & Hp & _). by exists p', s', r, p.
Qed.
End cli.

(** ** fuzz_binary_serializer.cpp *)

Section binary.
Context (native : endian).

(** [in.read<T>()] for a type of [n] bytes. *)
Definition read_word (n : nat) (d : deserializer) : deserializer * option Z :=
  let '(d, v) := read (T := word n) native d in (d, proj1_sig <$> v).

(** [progressing = in.read<T>().has_value()]. *)
Definition read_progress (n : nat) (d : deserializer) : deserializer * bool :=
  let '(d, v) := read_word n d in (d, bool_decide (v <> None)).

(** The default case: a length byte, then that many bytes. *)
Definition length_prefixed (d : deserializer) : deserializer * bool :=
  match read_word 1 d with
  | (d, Some length) => let '(d, v) := read_bytes d (Z.to_nat length) in (d, bool_decide (v <> None))
  | (d, None) => (d, false)
  end.

(** The switch: the reader after it, and [progressing]. *)
Definition read_selected (selector : Z) (d : deserializer) : deserializer * bool :=
  match (selector mod 6)%Z with
  | 0%Z => read_progress 2 d
  | 1%Z => read_progress 4 d
  | 2%Z => read_progress 8 d
  | 3%Z => read_progress 4 d
  | 4%Z => read_progress 8 d
  | _ => length_prefixed d
  end.

Fixpoint binary_walk (fuel : nat) (d : deserializer) : option deserializer :=
  match fuel with
  | O => None
  | S fuel =>
      if (available d =? 0)%nat then Some d
      else
        match read_word 1 d with
        | (d, None) => Some d
        | (d, Some selector) => let '(d, progressing) := read_selected selector d in if progressing then binary_walk fuel d else Some d
        end
  end.

Definition binary_fuzz_one (bytes : text) : option deserializer := binary_walk (S (length bytes)) (make_deserializer bytes little).

(** A reader over the same source, not before [d] and not past the end. *)
Definition onward (d d' : deserializer) : Prop :=
  BinarySerializer.source_ d' = BinarySerializer.source_ d /\ cursor_ d <= cursor_ d' /\ cursor_ d' <= length (BinarySerializer.source_ d).

Lemma onward_trans d d' d'' : onward d d' -> onward d' d'' -> onward d d''.
Proof. intros (H1 & H2 & H3) (H4 & H5 & H6). rewrite H1 in *. split_and!; try done; lia. Qed.

Lemma read_word_onward n d : cursor_ d <= length (BinarySerializer.source_ d) ->
  let '(d', v) := read_word n d in
  onward d d' /\ match v with Some _ => cursor_ d' = cursor_ d + n | None => d' = d /\ available d < n end.
Proof.
  intros Hc. unfold read_word. pose proof (reads_stay_inside (T := word n) native d Hc) as H.
  destruct (read native d) as [d' v]. destruct H as (H1 & H2 & H3 & H4 & H5). simpl in H3, H5. unfold onward, available. destruct v as [v|]; simpl.
  - specialize (H5 ltac:(done)). split_and!; try done; lia.
  - destruct H3 as [H3 _]. rewrite H4 by done. specialize (H3 eq_refl). split_and!; try done; lia.
Qed.

Lemma read_bytes_onward n d : cursor_ d <= length (BinarySerializer.source_ d) -> onward d (read_bytes d n).1.
Proof. intros Hc. unfold read_bytes, onward, available. destruct (Nat.ltb_spec (length (BinarySerializer.source_ d) - cursor_ d) n); simpl; split_and!; try done; lia. Qed.

Lemma read_progress_onward n d : cursor_ d <= length (BinarySerializer.source_ d) -> onward d (read_progress n d).1.
Proof. intros Hc. unfold read_progress. pose proof (read_word_onward n d Hc) as H. destruct (read_word n d) as [d' v]. apply H. Qed.

Lemma length_prefixed_onward d : cursor_ d <= length (BinarySerializer.source_ d) -> onward d (length_prefixed d).1.
Proof.
  intros Hc. unfold length_prefixed. pose proof (read_word_onward 1 d Hc) as H. destruct (read_word 1 d) as [d1 [l|]]; [|apply H].
  destruct H as [H _]. pose proof (read_bytes_onward (Z.to_nat l) d1) as Hb. destruct (read_bytes d1 (Z.to_nat l)) as [d2 v].
  eapply onward_trans; [exact H|]. apply Hb. destruct H as (-> & _ & ?). done.
Qed.

Lemma read_selected_onward selector d : cursor_ d <= length (BinarySerializer.source_ d) -> onward d (read_selected selector d).1.
Proof. intros Hc. unfold read_selected. repeat case_match; by apply read_progress_onward || apply length_prefixed_onward. Qed.

Lemma binary_walk_ends fuel d : cursor_ d <= length (BinarySerializer.source_ d) -> available d < fuel -> exists d', binary_walk fuel d = Some d' /\ onward d d'.
Proof.
  revert d. induction fuel as [|fuel IH]; intros d Hc Hf; [lia|]. simpl. destruct (Nat.eqb_spec (available d) 0); [exists d; split; [done|split_and!; done || lia]|].
  pose proof (read_word_onward 1 d Hc) as H. destruct (read_word 1 d) as [d1 [selector|]]; [|exists d1; split; [done|apply H]].
  destruct H as [H Hs]. pose proof (read_selected_onward selector d1) as Hd. destruct (read_selected selector d1) as [d2 progressing]. simpl in Hd.
  assert (onward d d2) as H2. { eapply onward_trans; [exact H|]. apply Hd. destruct H as (-> & _ & ?). done. }
  destruct progressing; [|by exists d2].
  destruct (IH d2) as (d' & E & H'); [by destruct H2 as (-> & _ & ?)| |exists d'; split; [done|by eapply onward_trans]].
  assert (onward d1 d2) as (H3 & H4 & _). { apply Hd. destruct H as (-> & _ & ?). done. }
  destruct H as (H5 & _ & _). unfold available in *. rewrite H3, H5. lia.
Qed.
End binary.

(** ** No input makes a harness throw or run on *)

(** The invariant the fuzz harnesses assert, for every input.  The JSON walk ends within one call more than the input has
    bytes and has decoded exactly the keys and strings of its events; the command line is split as [StringSplitter] splits on NUL,
    and registering the harness' options and parsing never throws; and the binary walk ends with its cursor inside the buffer. *)
Theorem fuzz_targets_complete {F : Type} (float_parse : text -> option F) (zero : F) native input :
  json_fuzz_one input = Some (decodings (events 64 input)) /\
  (split_nul input = tokens input [NUL] /\ exists w r, cli_fuzz_one float_parse zero input = Ret (w, r)) /\
  exists d, binary_fuzz_one native input = Some d /\ BinarySerializer.source_ d = input /\ cursor_ d <= length input.
Proof.
  split_and!.
  - unfold json_fuzz_one. destruct (make_wf 64 input) as [Hw _]. rewrite json_walk_drive; try done. change (rest (make 64 input)) with input. lia.
  - apply split_nul_tokens.
  - destruct (cli_fuzz_one_returns float_parse zero input) as (p & s & r & _ & H & _). by exists (p, s), r.
  - destruct (binary_walk_ends native (S (length input)) (make_deserializer input little)) as (d & H & (H1 & _ & H3)); [simpl; lia|unfold available; simpl; lia|].
    by exists d.
Qed.

Example json_fuzz_sample : json_fuzz_one (quoted ($"{'a\n':['b\u12']}")) = Some [Some (["a"; "010"]%char)].
Proof. reflexivity. Qed.

Example binary_fuzz_sample : cursor_ <$> binary_fuzz_one little (["005"; "002"; "a"; "b"; "000"; "a"]%char) = Some 5.
Proof. reflexivity. Qed.

(** ** The entry points, and the standalone replay (fuzz_standalone.hpp) *)

Definition json_test_one_input (data : text) : option Z := (fun _ => 0%Z) <$> json_fuzz_one data.

Definition cli_test_one_input {F : Type} (float_parse : text -> option F) (zero : F) (data : text) : outcome Z :=
  let! _ := cli_fuzz_one float_parse zero data in Ret 0%Z.

Definition binary_test_one_input (native : endian) (data : text) : option Z := (fun _ => 0%Z) <$> binary_fuzz_one native data.

Section standalone.
(** [ifstream_bytes path]: what the stream opened on [path] delivers, [None] when it does not open; [one_input]: the entry
    point the program is linked with. *)
Context {R : Type} (ifstream_bytes : text -> option text) (one_input : text -> R).

Fixpoint replay (paths : list text) : list R :=
  match paths with
  | [] => []
  | path :: paths => match ifstream_bytes path with None => replay paths | Some bytes => one_input bytes :: replay paths end
  end.

(** [main]; without even a program name, [subspan(1)] is out of range: [None]. *)
Definition standalone_main (args : list text) : option (list R * Z) :=
  match args with [] => None | _ :: paths => Some (replay paths, 0%Z) end.

Lemma replay_runs paths : replay paths = one_input <$> omap ifstream_bytes paths.
Proof. induction paths as [|path paths IH]; [done|]. cbn. destruct (ifstream_bytes path); by rewrite IH. Qed.

Lemma replay_same c : (forall bytes, one_input bytes = c) -> forall paths, replay paths = replicate (length (omap ifstream_bytes paths)) c.
Proof. intros Hc paths. induction paths as [|path paths IH]; [done|]. cbn. destruct (ifstream_bytes path); cbn; by rewrite ?Hc, IH. Qed.
End standalone.

(** A replay runs the harness once on each file that opens, and every run comes back with 0: so does the program. *)
Theorem replay_completes {F : Type} (float_parse : text -> option F) (zero : F) native ifstream_bytes program paths :
  let ran {R} (r : R) := Some (replicate (length (omap ifstream_bytes paths)) r, 0%Z) in
  standalone_main ifstream_bytes json_test_one_input (program :: paths) = ran (Some 0%Z) /\
  standalone_main ifstream_bytes (cli_test_one_input float_parse zero) (program :: paths) = ran (Ret 0%Z) /\
  standalone_main ifstream_bytes (binary_test_one_input native) (program :: paths) = ran (Some 0%Z).
Proof.
  simpl. pose proof (fuzz_targets_complete float_parse zero native) as H. split_and!; do 2 f_equal; apply replay_same; intros bytes;
    destruct (H bytes) as (H1 & (_ & w & r & H2) & d & H3 & _).
  - unfold json_test_one_input. by rewrite H1.
  - unfold cli_test_one_input. by rewrite H2.
  - unfold binary_test_one_input. by rewrite H3.
Qed.
