(* ===== verification/Bench.v ===== *)
(** * The benchmark scenarios (src/bench): the components driven the way the suite times them

    Each scenario is the body the harness runs once to warm up and then [k_reps] times, on state captured once.  [consumed] is what a
    body hands to [do_not_optimize].  What a number printed by the suite stands for depends on what the timed operations did; the theorem says
    what: no timed operation takes a failure path.  The timing itself is [Stopwatch]'s; the statistics over it and the
    printed table are in [BenchHarness]. *)

From S2P Require Import Prelude StdAlgo FlatCore FlatMap CircularBuffer StackAllocator Hash BinarySerializer StringBuilder ObjectPool LockFreeQueue.

Local Open Scope nat_scope.

Definition k_reps : nat := 64.

(** ** Loops *)

Section loops.
Context {S R : Type}.

(** [for (i = 0; i < ops; ++i)]: the state left, and what each round consumed. *)
Definition ops_loop (op : nat -> S -> S * R) (ops : nat) (s : S) : S * list R :=
  foldl (fun '(s, rs) i => let '(s, r) := op i s in (s, rs ++ [r])) (s, []) (seq 0 ops).

(** [measure]: the warm-up call and the timed ones, on the same captured state. *)
Definition measure (body : nat -> S -> S * R) (ops_per_rep reps : nat) (s : S) : S * list R :=
  ops_loop (fun _ => body ops_per_rep) (1 + reps) s.

(** An invariant that may count the rounds done so far, up to a limit. *)
Lemma ops_loop_spec (P : nat -> S -> Prop) (expected : nat -> R) op ops k s :
  (forall i s, i < ops -> P (k + i) s -> P (k + i + 1) (op i s).1 /\ (op i s).2 = expected i) ->
  P k s -> P (k + ops) (ops_loop op ops s).1 /\ (ops_loop op ops s).2 = map expected (seq 0 ops).
Proof.
  intros Hstep H0. unfold ops_loop.
  enough (forall n, n <= ops -> let r := foldl (fun '(s, rs) i => let '(s, r) := op i s in (s, rs ++ [r])) (s, []) (seq 0 n) in
    P (k + n) r.1 /\ r.2 = map expected (seq 0 n)) as H by (by apply H).
  induction n as [|n IH]; intros Hn; [by rewrite Nat.add_0_r|]. rewrite seq_S, foldl_app. simpl in *.
  destruct (foldl _ _ (seq 0 n)) as [s1 rs]. destruct (IH ltac:(lia)) as [H1 H2]. simpl in *. destruct (Hstep n s1 Hn H1) as [H3 H4].
  destruct (op n s1) as [s2 r]. simpl in *. rewrite map_app, H2, H4. by replace (k + Datatypes.S n) with (k + n + 1) by lia.
Qed.
End loops.

(** ** bench_fnv1a *)

Definition blob : text := map (fun i => Ascii.ascii_of_nat (97 + i mod 26)) (seq 0 4096).
Definition window : nat := 64.
Definition slack : nat := length blob - window.

Definition window_at (i : nat) : text := take window (drop (i mod slack) blob).

Definition fnv1a_body (ops : nat) : Z := foldl (fun acc i => Z.lxor acc (fnv1a_64 (window_at i))) 0%Z (seq 0 ops).

(** The windows slid over the blob repeat after 26: the blob is the alphabet over and over. *)
Lemma window_at_repeats i : window_at i = window_at (i mod slack mod 26).
Proof.
  assert (slack = 4032) as Hslack by reflexivity. unfold window_at. pose proof (Nat.mod_upper_bound i slack ltac:(lia)) as Hi.
  pose proof (Nat.mod_upper_bound (i mod slack) 26 ltac:(lia)) as Hj. rewrite (Nat.mod_small (i mod slack mod 26) slack) by lia.
  generalize dependent (i mod slack). intros j Hi Hj. unfold window, blob. rewrite !skipn_map, !firstn_map. 
  assert (forall a, a <= 4032 -> take 64 (drop a (seq 0 4096)) = seq a 64) as H.
  { intros a Ha. rewrite drop_seq, take_seq. f_equal; lia. }
  rewrite !H by lia. apply list_eq. intros n. rewrite !list_lookup_fmap. destruct (decide (n < 64)) as [Hn|Hn].
  - rewrite !lookup_seq_lt by done. cbn [fmap option_fmap option_map]. do 3 f_equal. by rewrite Nat.Div0.add_mod_idemp_l.
  - by rewrite !lookup_seq_ge by lia.
Qed.

(** ** bench_flat_map_lookup *)

Definition entries : nat := 1024.

Definition populated : flat_map (K := Z) (V := Z) :=
  foldl (fun m i => (FlatMap.insert Z.ltb m (Z.of_nat i * 2)%Z (Z.of_nat i)).1) empty_map (seq 0 entries).
Definition keys : list Z := map (fun i => (Z.of_nat i * 2)%Z) (seq 0 entries).

(** A subscript out of [keys] would be undefined; it never is. *)
Definition flat_map_body (ops : nat) : option nat :=
  foldl (fun hits i => h ← hits; key ← keys !! (i mod entries); Some (h + if contains Z.ltb populated key then 1 else 0)) (Some 0) (seq 0 ops).

Lemma contains_entry {V} (m : flat_map (K := Z) (V := V)) k e :
  FlatMap.wf Z.ltb m -> entry fst Z.ltb (data_ m) k = Some e -> contains Z.ltb m k = true.
Proof.
  destruct m as [l]. simpl. intros Hw He. destruct (wf_located fst Z.ltb l k Hw) as [l1 e' l2 -> Hk H1 H2|l1 l2 -> H1 H2].
  - by apply (found_contains Z.ltb l1 e' l2 k).
  - by rewrite entry_absent in He.
Qed.

Lemma populated_contains i : i < entries -> contains Z.ltb populated (Z.of_nat i * 2)%Z = true.
Proof.
  intros Hi. unfold populated.
  enough (forall n, let m := foldl (fun m i => (FlatMap.insert Z.ltb m (Z.of_nat i * 2)%Z (Z.of_nat i)).1) empty_map (seq 0 n) in
    FlatMap.wf Z.ltb m /\ (i < n -> exists e, entry fst Z.ltb (data_ m) (Z.of_nat i * 2)%Z = Some e)) as H.
  { destruct (H entries) as [Hw He]. destruct (He Hi) as [e E]. by eapply contains_entry. }
  induction n as [|n IH]; [split; [constructor|lia]|]. rewrite seq_S, foldl_app. simpl in *. destruct IH as [Hw He].
  destruct (insert_impl_refines Z.ltb _ (Z.of_nat n * 2, Z.of_nat n)%Z Hw) as [Hw' E]. unfold FlatMap.insert. split; [done|]. intros Hn. rewrite E.
  destruct (entry _ _ _ (Z.of_nat i * 2)%Z) as [e|] eqn:Ei; [by exists e|]. simpl.
  destruct (decide (i = n)) as [->|]; [|destruct He as [e ?]; [lia|done]]. unfold equivalent. rewrite Z.ltb_irrefl. by eexists.
Qed.

Lemma flat_map_body_hits ops : flat_map_body ops = Some ops.
Proof.
  unfold flat_map_body. induction ops as [|ops IH]; [done|]. rewrite seq_S, foldl_app, IH. cbn [foldl Nat.add mbind option_bind].
  pose proof (Nat.mod_upper_bound ops entries ltac:(unfold entries; lia)) as Hi.
  unfold keys. rewrite list_lookup_fmap, lookup_seq_lt by done. cbn [fmap option_fmap option_map mbind option_bind].
  rewrite populated_contains by done. f_equal. lia.
Qed.

(** ** bench_object_pool: acquire, and release at the end of the round *)

Definition pool_op (i : nat) (p : option (pool (T := Z))) : option (pool (T := Z)) * bool :=
  match p with
  | None => (None, false)
  | Some p => let '(p, handle) := try_acquire p in (release_slot p handle, bool_decide (handle <> None))
  end.

Definition pool_body : nat -> option pool -> option pool * list bool := ops_loop pool_op.

Lemma pool_op_spec i n v : 0 < n -> pool_op i (Some (ObjectPool.make n v)) = (Some (ObjectPool.make n v), true).
Proof.
  intros Hn. unfold pool_op, try_acquire, ObjectPool.make, init_free_list. rewrite length_replicate. simpl.
  destruct (Nat.eqb_spec n 0); [lia|]. rewrite lookup_seq_lt by lia. simpl. unfold release. simpl. rewrite length_seq.
  destruct (Nat.ltb_spec (n - 1) n); [|lia]. f_equal. do 2 f_equal; [|lia]. apply list_insert_id. by rewrite lookup_seq_lt by lia.
Qed.

(** ** bench_circular_buffer *)

Definition buffer_op (moved : Z -> Z) (i : nat) (b : circular_buffer (T := Z)) : circular_buffer (T := Z) * option Z :=
  pop moved (push_impl b (Z.of_nat i)).1.

Definition buffer_body (moved : Z -> Z) : nat -> circular_buffer -> circular_buffer * list (option Z) := ops_loop (buffer_op moved).

Lemma buffer_op_spec moved i b :
  CircularBuffer.wf b -> count_ b = 0 ->
  CircularBuffer.wf (buffer_op moved i b).1 /\ count_ (buffer_op moved i b).1 = 0 /\ (buffer_op moved i b).2 = Some (Z.of_nat i).
Proof.
  intros Hw H0. pose proof Hw as [Hh _]. destruct (push_contents b (Z.of_nat i) Hw) as [Hw1 Hc1]; [lia|].
  unfold buffer_op, push_impl, full. destruct (Nat.eqb_spec (count_ b) (length (CircularBuffer.buffer_ b))) as [|_]; [lia|].
  cbn [fst]. set (b1 := CircularBuffer _ _ _) in *. rewrite (contents_nil b Hw H0) in Hc1.
  destruct (pop_contents moved b1 Hw1) as [Hw2 _]; [simpl; lia|].
  pose proof (front_contents b1 Hw1 ltac:(simpl; lia)) as Hf. rewrite Hc1 in Hf. unfold front in Hf.
  unfold pop, CircularBuffer.empty. destruct (Nat.eqb_spec (count_ b1) 0) as [E|_]; [simpl in E; lia|].
  split; [done|]. split; [simpl; lia|done].
Qed.

(** ** bench_lock_free_queue: one thread, each call run to its return *)

(** A call from its first step to its return; alone, the weak exchange is taken not to fail spuriously. *)
Fixpoint complete (fuel : nat) (q : queue Z) (c : pc Z) : option (queue Z * label Z) :=
  match fuel with
  | O => None
  | Datatypes.S fuel => r ← LockFreeQueue.advance q c false; if is_rest r.1.2 then Some (r.1.1, r.2) else complete fuel r.1.1 r.1.2
  end.

(** The steps of an uncontended call: six. *)
Definition queue_op (i : nat) (q : option (queue Z)) : option (queue Z) * option (label Z) :=
  match q ← q; complete 6 q (PushLoad (Z.of_nat i)) with
  | None => (None, None)
  | Some (q, _) =>
      match complete 6 q PopLoad with
      | None => (None, None)
      | Some (q, popped) => (Some q, Some popped)
      end
  end.

Definition queue_body : nat -> option (queue Z) -> option (queue Z) * list (option (label Z)) := ops_loop queue_op.

(** Between rounds: empty, after [k] of them. *)
Definition drained (k : nat) (q : queue Z) : Prop :=
  mask_ q = 1023%Z /\ length (slots_ q) = 1024 /\ enqueue_pos_ q = Z.of_nat k /\ dequeue_pos_ q = Z.of_nat k /\
  forall p, k <= p < k + 1024 -> slots_ q !! (p mod 1024) = Some (Slot (Z.of_nat p) None).

Lemma index_1024 (q : queue Z) k : mask_ q = 1023%Z -> LockFreeQueue.index q (Z.of_nat k) = k mod 1024.
Proof.
  intros Hm. unfold LockFreeQueue.index. rewrite Hm. change 1023%Z with (Z.ones 10). rewrite Z.land_ones by lia.
  change (2 ^ 10)%Z with (Z.of_nat 1024). by rewrite <- Nat2Z.inj_mod, Nat2Z.id.
Qed.

Lemma complete_step fuel q c q' c' l :
  LockFreeQueue.advance q c false = Some (q', c', l) -> is_rest c' = false -> complete (Datatypes.S fuel) q c = complete fuel q' c'.
Proof. intros E Hc. cbn [complete]. rewrite E. cbn [mbind option_bind fst snd]. by rewrite Hc. Qed.

Lemma gap_same z : gap z z = 0%Z.
Proof. unfold gap. by rewrite Z.sub_diag. Qed.

(** A push that finds its slot free, and a pop that finds its slot filled. *)
Lemma push_completes q v s :
  slots_ q !! LockFreeQueue.index q (enqueue_pos_ q) = Some s -> sequence s = enqueue_pos_ q ->
  complete 6 q (PushLoad v) =
    Some (Queue (<[LockFreeQueue.index q (enqueue_pos_ q) := Slot (u64 (enqueue_pos_ q + 1)) (Some v)]> (slots_ q))
      (mask_ q) (u64 (enqueue_pos_ q + 1)) (dequeue_pos_ q), Pushed true).
Proof.
  intros Hs He. pose proof (lookup_lt_Some _ _ _ Hs) as Hl. set (pos := enqueue_pos_ q) in *.
  rewrite (complete_step _ _ _ q (PushSequence v pos) Silent) by done.
  rewrite (complete_step _ _ _ q (PushClaim v pos) Silent) by (cbn [LockFreeQueue.advance]; rewrite ?Hs; cbn [mbind option_bind]; rewrite ?He, ?gap_same; done).
  rewrite (complete_step _ _ _ (Queue (slots_ q) (mask_ q) (u64 (pos + 1)) (dequeue_pos_ q)) (PushEmplace v pos) (Accepted v))
    by (cbn [LockFreeQueue.advance]; fold pos; rewrite ?Z.eqb_refl; done).
  set (q1 := Queue _ _ _ _). change (LockFreeQueue.index q pos) with (LockFreeQueue.index q1 pos) in Hs, Hl |- *. change (slots_ q) with (slots_ q1) in Hs, Hl |- *.
  rewrite (complete_step _ _ _ (set_slot q1 pos (Slot (sequence s) (Some v))) (PushPublish pos) Silent)
    by (cbn [LockFreeQueue.advance]; rewrite ?Hs; done).
  set (q2 := set_slot _ _ _). assert (slots_ q2 !! LockFreeQueue.index q2 pos = Some (Slot (sequence s) (Some v))) as H2 by (by apply list_lookup_insert_eq).
  rewrite (complete_step _ _ _ (set_slot q2 pos (Slot (u64 (pos + 1)) (Some v))) (PushReturn true) Silent)
    by (cbn [LockFreeQueue.advance]; rewrite ?H2; done).
  cbn. unfold set_slot. simpl. do 3 f_equal. apply list_insert_insert_eq.
Qed.

Lemma pop_completes q v s :
  slots_ q !! LockFreeQueue.index q (dequeue_pos_ q) = Some s -> sequence s = u64 (dequeue_pos_ q + 1) -> value s = Some v ->
  complete 6 q PopLoad =
    Some (Queue (<[LockFreeQueue.index q (dequeue_pos_ q) := Slot (u64 (u64 (dequeue_pos_ q + mask_ q) + 1)) None]> (slots_ q))
      (mask_ q) (enqueue_pos_ q) (u64 (dequeue_pos_ q + 1)), Popped (Some v)).
Proof.
  intros Hs He Hv. pose proof (lookup_lt_Some _ _ _ Hs) as Hl. set (pos := dequeue_pos_ q) in *.
  rewrite (complete_step _ _ _ q (PopSequence pos) Silent) by done.
  rewrite (complete_step _ _ _ q (PopClaim pos) Silent) by (cbn [LockFreeQueue.advance]; rewrite ?Hs; cbn [mbind option_bind]; rewrite ?He, ?gap_same; done).
  rewrite (complete_step _ _ _ (Queue (slots_ q) (mask_ q) (enqueue_pos_ q) (u64 (pos + 1))) (PopTake pos) Claimed)
    by (cbn [LockFreeQueue.advance]; fold pos; rewrite ?Z.eqb_refl; done).
  set (q1 := Queue _ _ _ _). change (LockFreeQueue.index q pos) with (LockFreeQueue.index q1 pos) in Hs, Hl |- *. change (slots_ q) with (slots_ q1) in Hs, Hl |- *.
  rewrite (complete_step _ _ _ (set_slot q1 pos (Slot (sequence s) None)) (PopVacate pos (Some v)) (Took pos (Some v)))
    by (cbn [LockFreeQueue.advance]; rewrite ?Hs; cbn [mbind option_bind]; rewrite ?Hv; done).
  set (q2 := set_slot _ _ _). assert (slots_ q2 !! LockFreeQueue.index q2 pos = Some (Slot (sequence s) None)) as H2 by (by apply list_lookup_insert_eq).
  rewrite (complete_step _ _ _ (set_slot q2 pos (Slot (u64 (u64 (pos + mask_ q) + 1)) None)) (PopReturn (Some v)) Silent)
    by (cbn [LockFreeQueue.advance]; rewrite ?H2; done).
  cbn. unfold set_slot. simpl. do 3 f_equal. apply list_insert_insert_eq.
Qed.

Lemma queue_op_spec i k q :
  drained k q -> (Z.of_nat (k + 1024) < 2 ^ 63)%Z ->
  exists q', queue_op i (Some q) = (Some q', Some (Popped (Some (Z.of_nat i)))) /\ drained (k + 1) q'.
Proof.
  destruct q as [sl m e d]. intros (Hm & Hl & He & Hd & Hs) Hk. cbn [mask_ slots_ enqueue_pos_ dequeue_pos_] in *. subst m e d.
  assert (k mod 1024 < length sl) as Hx by (rewrite Hl; apply Nat.mod_upper_bound; lia).
  assert (u64 (Z.of_nat k + 1) = Z.of_nat (k + 1)) as E1 by (rewrite u64_small; lia).
  assert (u64 (u64 (Z.of_nat k + 1023) + 1) = Z.of_nat (k + 1024)) as E2 by (rewrite (u64_small (Z.of_nat k + 1023)), u64_small; lia).
  unfold queue_op. cbn [mbind option_bind].
  rewrite (push_completes _ _ (Slot (Z.of_nat k) None)) by (cbn [slots_ enqueue_pos_]; rewrite ?index_1024 by done; first [done|apply Hs; lia]).
  cbn [enqueue_pos_ dequeue_pos_ mask_ slots_]. rewrite index_1024, E1 by done.
  rewrite (pop_completes _ (Z.of_nat i) (Slot (Z.of_nat (k + 1)) (Some (Z.of_nat i))))
    by (cbn [slots_ sequence value dequeue_pos_]; rewrite ?index_1024, ?E1 by done; first [done|by apply list_lookup_insert_eq]).
  cbn [enqueue_pos_ dequeue_pos_ mask_ slots_]. rewrite index_1024, E1, E2, list_insert_insert_eq by done.
  eexists. split; [done|]. split_and!; cbn [mask_ slots_ enqueue_pos_ dequeue_pos_]; try done; [by rewrite length_insert|]. intros p Hp.
  destruct (decide (p = k + 1024)) as [->|Hn].
  - replace ((k + 1024) mod 1024) with (k mod 1024) by (rewrite <- (Nat.Div0.mod_add k 1); f_equal; lia). by apply list_lookup_insert_eq.
  - rewrite list_lookup_insert_ne; [apply Hs; lia|]. intros E.
    pose proof (Nat.div_mod_eq p 1024). pose proof (Nat.div_mod_eq k 1024). rewrite E in *. nia.
Qed.

(** ** bench_stack_allocator: a block of 64 bytes from 4096 *)

(** The default alignment, [alignof(std::max_align_t)], on the hosts of the matrix. *)
Definition max_align : Z := 16.

Definition allocator_op (base : Z) (i : nat) (a : stack_allocator) : stack_allocator * outcome Z :=
  allocate 4096 base (StackAllocator.reset a) 64 max_align.

Definition allocator_body (base : Z) : nat -> stack_allocator -> stack_allocator * list (outcome Z) := ops_loop (allocator_op base).

Lemma allocator_op_spec base : exists p, (max_align | p)%Z /\ (base <= p /\ p + 64 <= base + 4096)%Z /\ forall i a, (allocator_op base i a).2 = Ret p.
Proof.
  destruct (allocate_cases 4096 base (StackAllocator 0) 64 max_align) as [(p & E & Hd & Hp & Hle)|(_ & Hno)]; [done|..].
  - exists p. split_and!; [done|simpl in Hp; lia|lia|]. intros i a. unfold allocator_op, StackAllocator.reset. by rewrite E.
  - destruct (align_up max_align base) as (Ha & Hd & _); [done|]. specialize (Hno _ Hd). unfold max_align in *. simpl in Hno. lia.
Qed.

(** ** bench_string_builder *)

Definition builder_body (ops : nat) : nat := StringBuilder.size (foldl (fun b (_ : nat) => append_text b ($"abcd")) empty_builder (seq 0 ops)).

Lemma builder_body_size ops : builder_body ops = 4 * ops.
Proof.
  unfold builder_body. enough (forall b (l : list nat), StringBuilder.size (foldl (fun b (_ : nat) => append_text b ($"abcd")) b l) = StringBuilder.size b + 4 * length l) as H.
  { by rewrite H, length_seq. }
  intros b l. revert b. induction l as [|x l IH]; intros b; [simpl; lia|]. cbn [foldl length]. rewrite IH.
  unfold StringBuilder.size, append_text. simpl. rewrite length_app. simpl. lia.
Qed.

(** ** bench_binary_serializer: a [uint64_t] and the double 1.5 through a buffer of 32 bytes *)

Definition one_and_a_half : word 8 := unbits 0x3FF8000000000000.

Definition serializer_op (native : endian) (i : nat) (st : text * Z) : (text * Z) * option (word 8) :=
  let '(buf, acc) := st in
  let out := (write native (make_serializer buf little) (unbits (Z.of_nat i) : word 8)).1 in
  let out := (write native out one_and_a_half).1 in
  let buf := BinarySerializer.buffer_ out in
  let '(d, v) := read (T := word 8) native (make_deserializer buf little) in
  let acc := Z.lxor acc (default 0%Z (proj1_sig <$> v)) in
  ((buf, acc), (read (T := word 8) native d).2).

(** The accumulator is local to a call of the body; what it consumes is the doubles read and, at its end, the accumulator. *)
Definition serializer_body (native : endian) (ops : nat) (buf : text) : text * (list (option (word 8)) * Z) :=
  let '((buf, acc), doubles) := ops_loop (serializer_op native) ops (buf, 0%Z) in (buf, (doubles, acc)).

Definition xor_below (n : nat) : Z := foldl (fun acc i => Z.lxor acc (Z.of_nat i)) 0%Z (seq 0 n).

Lemma write_word native (v : word 8) buf pos :
  pos + 8 <= length buf ->
  (write native (Serializer buf pos little false) v).1 = Serializer (copy_at pos (le_bytes 8 (bits v)) buf) (pos + 8) little false.
Proof.
  intros Hl. change (write native (Serializer buf pos little false) v) with (write_field native (Serializer buf pos little false) (Value _ _ v)).
  rewrite write_field_spec. unfold remaining. cbn [encode layout BinarySerializer.buffer_ BinarySerializer.pos_ order_ overflowed_ fst]. rewrite length_le_bytes.
  destruct (Nat.ltb_spec (length buf - pos) (sizeof (word 8))) as [Hlt|_]; [change (sizeof (word 8)) with 8 in Hlt; lia|]. done.
Qed.

Lemma serializer_op_spec native i buf acc :
  (Z.of_nat i < 2 ^ 64)%Z -> length buf = 32 ->
  exists buf', length buf' = 32 /\ serializer_op native i (buf, acc) = ((buf', Z.lxor acc (Z.of_nat i)), Some one_and_a_half).
Proof.
  intros Hi Hb. set (v := unbits (Z.of_nat i) : word 8). set (e1 := le_bytes 8 (bits v)). set (e2 := le_bytes 8 (bits one_and_a_half)).
  assert (length e1 = 8) as L1 by apply length_le_bytes. assert (length e2 = 8) as L2 by apply length_le_bytes.
  assert (copy_at 8 e2 (copy_at 0 e1 buf) = e1 ++ e2 ++ drop 16 buf) as E.
  { unfold copy_at. rewrite L1, L2, take_0, app_nil_l, take_app_length', !drop_app_ge, drop_drop by lia. by rewrite L1. }
  exists (e1 ++ e2 ++ drop 16 buf). split; [rewrite !length_app, length_drop; lia|].
  unfold serializer_op, make_serializer, make_deserializer. fold v. rewrite write_word by lia. fold e1. change (0 + 8) with 8. rewrite write_word.
  2: { unfold copy_at. rewrite !length_app, length_take, length_drop. lia. }
  fold e2. cbn [BinarySerializer.buffer_]. rewrite E.
  pose proof (read_at native little v [] (e2 ++ drop 16 buf)) as R1. cbn [layout app] in R1. change (sizeof (word 8)) with 8 in R1. fold e1 in R1. change (length (@nil ascii)) with 0 in R1. rewrite R1.
  pose proof (read_at native little one_and_a_half e1 (drop 16 buf)) as R2. cbn [layout] in R2. change (sizeof (word 8)) with 8 in R2. fold e2 in R2. rewrite R2.
  cbn [fst snd fmap option_fmap option_map default]. do 3 f_equal. unfold v. simpl. apply Z.mod_small. lia.
Qed.

Lemma map_const_seq {A} (x : A) k n : map (fun _ : nat => x) (seq k n) = replicate n x.
Proof. revert k. induction n as [|n IH]; intros k; simpl; [done|]. by rewrite IH. Qed.

Lemma serializer_body_spec native ops buf :
  (Z.of_nat ops < 2 ^ 64)%Z -> length buf = 32 ->
  exists buf', length buf' = 32 /\ serializer_body native ops buf = (buf', (replicate ops (Some one_and_a_half), xor_below ops)).
Proof.
  intros Ho Hb. unfold serializer_body.
  pose proof (ops_loop_spec (fun k st => length st.1 = 32 /\ st.2 = xor_below k) (fun _ => Some one_and_a_half) (serializer_op native) ops 0 (buf, 0%Z)) as H.
  destruct H as [[H1 H2] H3].
  - intros i [b acc] Hi [Hl Ha]. simpl in Hl, Ha. subst acc. destruct (serializer_op_spec native i b (xor_below i) ltac:(lia) Hl) as (b' & Hl' & ->).
    split_and!; try done. simpl. unfold xor_below. by rewrite Nat.add_1_r, seq_S, foldl_app.
  - done.
  - destruct (ops_loop _ ops _) as [[b acc] ds]. simpl in *. exists b. split; [done|]. subst acc ds. do 3 f_equal. apply map_const_seq.
Qed.

(** ** Every timed operation succeeds *)

Lemma measure_spec {S R} (P : nat -> S -> Prop) (expected : R) body ops reps s :
  (forall k s, k <= reps -> P k s -> P (k + 1) (body ops s).1 /\ (body ops s).2 = expected) ->
  P 0 s -> P (1 + reps) (measure body ops reps s).1 /\ (measure body ops reps s).2 = replicate (1 + reps) expected.
Proof.
  intros Hstep H0. unfold measure. rewrite <- (map_const_seq expected 0 (1 + reps)).
  apply (ops_loop_spec P (fun _ => expected) (fun _ => body ops) (1 + reps) 0); [|done]. intros k s' Hk. apply Hstep. lia.
Qed.

Lemma measured_queue (ops reps : nat) q :
  (Z.of_nat ((1 + reps) * ops + 1024) < 2 ^ 63)%Z -> LockFreeQueue.make 1024 = Ret q ->
  (measure queue_body ops reps (Some q)).2 = replicate (1 + reps) (map (fun i => Some (Popped (Some (Z.of_nat i)))) (seq 0 ops)).
Proof.
  intros Hb Hq. destruct (make_inv _ _ Hq ltac:(lia)) as (_ & Hc & HE & HD & Hs). change (bit_ceil 1024) with 1024%Z in Hc.
  apply (measure_spec (fun k q => exists q0, q = Some q0 /\ drained (k * ops) q0)).
  - intros k s Hk (q0 & -> & H0).
    pose proof (ops_loop_spec (fun n q => exists q1, q = Some q1 /\ drained n q1) (fun i => Some (Popped (Some (Z.of_nat i)))) queue_op ops (k * ops) (Some q0)) as H.
    replace ((k + 1) * ops) with (k * ops + ops) by lia. apply H; [|by exists q0]. intros i s Hi (q1 & -> & H1).
    destruct (queue_op_spec i (k * ops + i) q1 H1) as (q2 & -> & H2); [nia|]. split; [by exists q2|done].
  - exists q. split; [done|]. rewrite Hc in Hs. unfold LockFreeQueue.capacity in Hc. split_and!; [lia|by rewrite Hs, length_map, length_seq|done..|].
    intros p Hp. rewrite Nat.mod_small, Hs, list_lookup_fmap, lookup_seq_lt by lia. done.
Qed.

(** What the suite times is the successful path of every component: each of the warm-up and timed rounds of each scenario finds
    its key, borrows and returns an object, pops the value it has just pushed, is given the same aligned block inside the
    arena, appends its four bytes, and reads back the number and the double it has just written; no access leaves an array.  Only
    the hashing scenario does not do quite what its comment says: its windows are 26 in number. *)
Theorem benchmarks_time_successes (moved : Z -> Z) base native (ops reps : nat) buf q :
  (Z.of_nat ((1 + reps) * ops + 1024) < 2 ^ 63)%Z -> length buf = 32 -> LockFreeQueue.make 1024 = Ret q ->
  flat_map_body ops = Some ops /\
  (measure pool_body ops reps (Some (ObjectPool.make 256 0%Z))).2 = replicate (1 + reps) (replicate ops true) /\
  (measure (buffer_body moved) ops reps (CircularBuffer.make 1024 0%Z)).2 =
    replicate (1 + reps) (map (fun i => Some (Z.of_nat i)) (seq 0 ops)) /\
  (measure queue_body ops reps (Some q)).2 = replicate (1 + reps) (map (fun i => Some (Popped (Some (Z.of_nat i)))) (seq 0 ops)) /\
  (exists p, (max_align | p)%Z /\ (base <= p /\ p + 64 <= base + 4096)%Z /\
    (measure (allocator_body base) ops reps StackAllocator.make).2 = replicate (1 + reps) (replicate ops (Ret p))) /\
  builder_body ops = 4 * ops /\
  (measure (serializer_body native) ops reps buf).2 = replicate (1 + reps) (replicate ops (Some one_and_a_half), xor_below ops) /\
  (forall i, exists j, j < 26 /\ window_at i = window_at j).
Proof.
  intros Hb Hl Hq. assert (Z.of_nat ops < 2 ^ 64)%Z as Ho by nia. split_and!.
  - apply flat_map_body_hits.
  - apply (measure_spec (fun _ p => p = Some (ObjectPool.make 256 0%Z))); [|done]. intros _ s _ ->. rewrite <- (map_const_seq true 0 ops).
    apply (ops_loop_spec (fun _ p => p = Some (ObjectPool.make 256 0%Z)) (fun _ => true) pool_op ops 0); [|done].
    intros i s _ ->. by rewrite pool_op_spec by lia.
  - apply (measure_spec (fun _ b => CircularBuffer.wf b /\ count_ b = 0)); [|by split; [apply buffer_make_wf; lia|]]. intros _ s _ Hs.
    apply (ops_loop_spec (fun _ b => CircularBuffer.wf b /\ count_ b = 0) (fun i => Some (Z.of_nat i)) (buffer_op moved) ops 0); [|done].
    intros i b _ [Hw H0]. by destruct (buffer_op_spec moved i b Hw H0) as (? & ? & ?).
  - by apply measured_queue.
  - destruct (allocator_op_spec base) as (p & Hd & Hp & E). exists p. split_and!; [done|lia|lia|].
    apply (measure_spec (fun _ _ => True)); [|done]. intros _ s _ _. rewrite <- (map_const_seq (Ret p) 0 ops).
    apply (ops_loop_spec (fun _ _ => True) (fun _ => Ret p) (allocator_op base) ops 0); [|done]. intros i a _ _. by rewrite E.
  - apply builder_body_size.
  - apply (measure_spec (fun _ b => length b = 32)); [|done]. intros _ s _ Hs. by destruct (serializer_body_spec native ops s Ho Hs) as (b & ? & ->).
  - intros i. exists (i mod slack mod 26). split; [apply Nat.mod_upper_bound; lia|apply window_at_repeats].
Qed.

Lemma benchmarks_time_successes_witness :
  exists q, LockFreeQueue.make (T := Z) 1024 = Ret q /\ flat_map_body 100 = Some 100 /\
  (measure (buffer_body id) 100 k_reps (CircularBuffer.make 1024 0%Z)).2 =
    replicate (1 + k_reps) (map (fun i => Some (Z.of_nat i)) (seq 0 100)).
Proof.
  destruct (LockFreeQueue.make (T := Z) 1024) as [q|] eqn:E; [|discriminate E]. exists q. split; [reflexivity|].
  destruct (benchmarks_time_successes id 0 little 100 k_reps (replicate 32 "000"%char) q) as (H1 & _ & H2 & _);
    [unfold k_reps; lia|reflexivity|exact E|]. split; [exact H1|exact H2].
Defined.
