(* ===== verification/BenchHarness.v ===== *)
(** * The benchmark harness (benchmark_harness.hpp, main of bench_main.cpp): timings, statistics and the table

    A [double] is a value of the Standard Library's specification of IEEE 754 binary64 arithmetic.  [std::ranges::sort] is a
    parameter that sorts any list without NaN; the readings of the clock are arguments.  What the timed bodies do is in
    [Bench]. *)

From Stdlib Require Import SpecFloat.
From S2P Require Import Prelude StdAlgo Charconv Version Stopwatch Bench.

Local Open Scope Z_scope.

(** ** Doubles *)

Abbreviation double := spec_float.
Abbreviation prec := 53.
Abbreviation emax := 1024.

(** [static_cast<double>] of an integer, division, multiplication, and [<]. *)
Definition of_int (z : Z) : double := binary_normalize prec emax z 0 false.
Definition fdiv (x y : double) : double := SFdiv prec emax x y.
Definition fmul (x y : double) : double := SFmul prec emax x y.
Definition flt (x y : double) : bool := SFltb x y.

(** [static_cast<std::size_t>]: truncation; undefined when the result is out of range. *)
Definition to_size (x : double) : option Z :=
  match x with
  | S754_zero _ => Some 0
  | S754_finite s m e =>
      let magnitude := if 0 <=? e then Zpos m * 2 ^ e else Zpos m / 2 ^ (- e) in
      let z := if s then - magnitude else magnitude in
      if (0 <=? z) && (z <? 2 ^ 64) then Some z else None
  | _ => None
  end.

(** ** The statistics *)

Record Stats := MkStats { median_ns : double; p99_ns : double; ops_per_sec : double }.

(** [0.99], as the literal is rounded. *)
Definition ninety_nine : double := fdiv (of_int 99) (of_int 100).

(** One timed repetition: the stopwatch started at one reading of the clock and read at another. *)
Definition per_op (ops_per_rep : Z) (reading : Z * Z) : option double :=
  match start_new (fst reading) with
  | Throw _ => None
  | Ret stopwatch => nanos ← elapsed stopwatch (snd reading); Some (fdiv (of_int nanos) (of_int ops_per_rep))
  end.

Definition p99_index (size : nat) : option nat := Z.to_nat <$> to_size (fmul (of_int (Z.of_nat size - 1)) ninety_nine).

(** [None]: a subscript out of range, or a conversion that is undefined. *)
Definition summarize (sorted_per_op : list double) : option Stats :=
  median ← sorted_per_op !! (length sorted_per_op / 2)%nat;
  i ← p99_index (length sorted_per_op);
  p99 ← sorted_per_op !! i;
  Some (MkStats median p99 (if flt (S754_zero false) median then fdiv (of_int 1000000000) median else S754_zero false)).

Section harness.
Context (sort : list double -> list double).

Definition measure_stats (ops_per_rep : Z) (readings : list (Z * Z)) : option Stats :=
  samples ← mapM (per_op ops_per_rep) readings; summarize (sort samples).

(** ** The table *)

Definition pad_right (w : nat) (t : text) : text := t ++ replicate (w - length t) " "%char.
Definition pad_left (w : nat) (t : text) : text := replicate (w - length t) " "%char ++ t.

(** [n / d] rounded to the nearest integer, ties to even. *)
Definition round_half_even (n d : Z) : Z :=
  let q := n / d in
  match 2 * (n mod d) ?= d with Lt => q | Gt => q + 1 | Eq => if Z.even q then q else q + 1 end.

(** [std::fixed << std::setprecision(2)]. *)
Definition hundredths (m : positive) (e : Z) : Z := if 0 <=? e then 100 * Zpos m * 2 ^ e else round_half_even (100 * Zpos m) (2 ^ (- e)).
Definition fixed2 (x : double) : text :=
  let signed (s : bool) t := if s then "-"%char :: t else t in
  let number h := digits 10 (h / 100) ++ "."%char :: digit_char (h mod 100 / 10) :: [digit_char (h mod 10)] in
  match x with
  | S754_zero s => signed s (number 0)
  | S754_finite s m e => signed s (number (hundredths m e))
  | S754_infinity s => signed s ($"inf")
  | S754_nan => $"nan"
  end.

Definition report (name : text) (stats : Stats) : text :=
  pad_right 34 name ++ pad_left 12 (fixed2 (median_ns stats)) ++ $" ns" ++ pad_left 12 (fixed2 (p99_ns stats)) ++ $" ns" ++
  pad_left 12 (fixed2 (fdiv (ops_per_sec stats) (of_int 1000000))) ++ $" M/s" ++ ["010"%char].

Definition report_header : text :=
  pad_right 34 ($"scenario") ++ pad_left 15 ($"median") ++ pad_left 15 ($"p99") ++ pad_left 15 ($"throughput") ++ ["010"%char] ++
  replicate 79 "-"%char ++ ["010"%char].

(** The scenarios in the order of [main], each with the operations of a repetition. *)
Definition scenarios : list (text * Z) :=
  [($"hash::fnv1a_64 (64B window)", 2 ^ 16); ($"FlatMap<int,int>::contains (1024)", 2 ^ 16); ($"ObjectPool<int> acquire+release", 2 ^ 16);
   ($"LockFreeQueue<int> push+pop (1t)", 2 ^ 16); ($"CircularBuffer<int> push+pop", 2 ^ 16); ($"StackAllocator reset+allocate(64)", 2 ^ 16);
   ($"StringBuilder::append(4B)", 2 ^ 14); ($"BinarySerializer u64+f64 round-trip", 2 ^ 16)].

Definition scenario_row (scenario : text * Z) (readings : list (Z * Z)) : option text :=
  report scenario.1 <$> measure_stats scenario.2 readings.

(** [main]: the rows of the scenarios in turn, up to the first that throws; what is printed on [std::cout], on [std::cerr], and the
    result.  [what] is the text of an exception. *)
Fixpoint run_suite (what : exn -> text) (out : text) (rows : list (outcome text)) : text * text * Z :=
  match rows with
  | [] => (out, [], 0)
  | Ret row :: rows => run_suite what (out ++ row) rows
  | Throw e :: _ => (out, $"benchmark failed: " ++ what e ++ ["010"%char], 1)
  end.

Definition banner (version : text) : text := $"egl-util-cpp benchmark suite v" ++ version ++ $" (release, single-threaded)" ++ ["010"; "010"]%char.

Definition bench_main (what : exn -> text) (version : text) (rows : list (outcome text)) : text * text * Z :=
  run_suite what (banner version ++ report_header) rows.

(** Given the readings of each scenario; no body throws ([Bench]). *)
Definition suite (what : exn -> text) (version : text) (readings : list (list (Z * Z))) : option (text * text * Z) :=
  rows ← mapM (fun '(s, rs) => scenario_row s rs) (zip scenarios readings); Some (bench_main what version (map Ret rows)).
End harness.

Example fixed2_samples :
  map fixed2 [of_int 3; fdiv (of_int 1) (of_int 3); fdiv (of_int 5) (of_int 8); fdiv (of_int 7) (of_int 8); of_int 0; of_int (2 ^ 63); fdiv (of_int 1999) (of_int 1000)] =
  [$"3.00"; $"0.33"; $"0.62"; $"0.88"; $"0.00"; $"9223372036854775808.00"; $"2.00"].
Proof. vm_compute. reflexivity. Qed.

Example p99_samples : map p99_index [1; 2; 64; 101; 1001]%nat = map Some [0; 0; 62; 99; 990]%nat.
Proof. vm_compute. reflexivity. Qed.

(** ** The conversion of an integer of at most 53 bits is exact *)

Definition width (p : positive) : Z := Zpos (digits2_pos p).

Lemma width_bounds p : 2 ^ (width p - 1) <= Zpos p < 2 ^ width p.
Proof.
  unfold width. induction p as [p IH|p IH|]; simpl digits2_pos; rewrite ?Pos2Z.inj_succ; [| |by vm_compute].
  all: rewrite Z.pow_succ_r by lia; replace (Z.succ (Zpos (digits2_pos p)) - 1) with (Z.succ (Zpos (digits2_pos p) - 1)) by lia;
    rewrite Z.pow_succ_r by lia; lia.
Qed.

Lemma width_unique p d : 0 < d -> 2 ^ (d - 1) <= Zpos p < 2 ^ d -> width p = d.
Proof.
  intros Hd Hp. pose proof (width_bounds p) as Hw. assert (0 < width p) by (unfold width; lia). destruct (Z.lt_trichotomy (width p) d) as [Hlt|[|Hlt]]; [|done|].
  - pose proof (Z.pow_le_mono_r 2 (width p) (d - 1)). lia.
  - pose proof (Z.pow_le_mono_r 2 d (width p - 1)). lia.
Qed.

Lemma iter_doubles p n : Zpos (Pos.iter xO p n) = Zpos p * 2 ^ Zpos n.
Proof.
  induction n as [|n IH] using Pos.peano_ind; [simpl; lia|]. rewrite Pos.iter_succ, Pos2Z.inj_succ, Z.pow_succ_r by lia.
  change (Zpos (Pos.iter xO p n)~0) with (2 * Zpos (Pos.iter xO p n)). rewrite IH. lia.
Qed.

(** Shifting a mantissa down: the quotient, with a location that rounds it up by one at most. *)
Lemma shr_1_quotient mrs : 0 <= shr_m mrs -> shr_m (shr_1 mrs) = shr_m mrs / 2.
Proof. destruct mrs as [[|[m|m|]|m] r s]; simpl; intros H; try done; try lia; [pose proof (Z.div_unique (Zpos m~1) 2 (Zpos m) 1)|pose proof (Z.div_unique (Zpos m~0) 2 (Zpos m) 0)]; lia. Qed.

Lemma iter_shr_quotient n mrs : 0 <= shr_m mrs -> shr_m (SpecFloat.iter_pos shr_1 n mrs) = shr_m mrs / 2 ^ Zpos n.
Proof.
  assert (forall a p, 0 <= a -> 0 <= a / 2 ^ Zpos p) as Hpos by (intros; by apply Z.div_pos; lia).
  revert mrs. induction n as [n IH|n IH|]; intros mrs H; simpl SpecFloat.iter_pos.
  - assert (0 <= shr_m (shr_1 mrs)) as H1 by (rewrite shr_1_quotient by done; apply Z.div_pos; lia).
    rewrite !IH, shr_1_quotient by (rewrite ?IH; auto).
    replace (2 ^ Zpos n~1) with (2 * 2 ^ Zpos n * 2 ^ Zpos n); [by rewrite <- !Z.div_div by lia|].
    rewrite Pos2Z.inj_xI, Z.add_1_r, Z.pow_succ_r, <- Z.mul_assoc, <- Z.pow_add_r by lia. do 2 f_equal. lia.
  - rewrite !IH by (rewrite ?IH; auto). replace (2 ^ Zpos n~0) with (2 ^ Zpos n * 2 ^ Zpos n); [by rewrite <- !Z.div_div by lia|].
    rewrite Pos2Z.inj_xO, <- Z.pow_add_r by lia. f_equal. lia.
  - by apply shr_1_quotient.
Qed.

Lemma rne_bound m l : m <= round_nearest_even m l <= m + 1.
Proof. destruct l as [|[| |]]; simpl; try destruct (Z.even m); lia. Qed.

Lemma shr_quotient mrs e n : 0 <= shr_m mrs -> 0 <= n -> exists mrs', shr mrs e n = (mrs', e + n) /\ shr_m mrs' = shr_m mrs / 2 ^ n.
Proof.
  intros Hm Hn. destruct n as [|n|n]; [|eexists; split; [done|by apply iter_shr_quotient]|lia]. exists mrs. simpl. by rewrite Z.add_0_r, Z.div_1_r.
Qed.

Lemma fexp_width p e : fexp prec emax (width p + e) = Z.max (width p + e - 53) (-1074).
Proof. done. Qed.

(** Rounding [p * 2^ex] with a mantissa of 53 bits or more, far from both ends of the range: the quotient by [2^(width - 53)] or one more, and
    half of that when it has a bit too many. *)
Lemma round_spec p ex :
  53 <= width p -> -1074 <= width p + ex - 53 <= 900 ->
  exists m n, binary_round_aux prec emax false (Zpos p) ex loc_Exact = S754_finite false m (ex + (width p - 53) + n) /\
    0 <= n <= 1 /\ Zpos p / 2 ^ (width p - 53) / 2 ^ n <= Zpos m <= (Zpos p / 2 ^ (width p - 53) + 1) / 2 ^ n.
Proof.
  intros Hw He. unfold binary_round_aux, shr_fexp. change (Zdigits2 (Zpos p)) with (width p).
  rewrite fexp_width, Z.max_l by lia. replace (width p + ex - 53 - ex) with (width p - 53) by lia. set (k := width p - 53) in *.
  destruct (shr_quotient (shr_record_of_loc (Zpos p) loc_Exact) ex k) as (mrs1 & -> & Hq1); [done|lia|]. simpl in Hq1.
  set (q := Zpos p / 2 ^ k) in *. assert (2 ^ 52 <= q < 2 ^ 53) as Hq.
  { pose proof (width_bounds p) as Hp. unfold q. split.
    - apply Z.div_le_lower_bound; [lia|]. rewrite <- Z.pow_add_r by lia. replace (k + 52) with (width p - 1) by lia. lia.
    - apply Z.div_lt_upper_bound; [lia|]. rewrite <- Z.pow_add_r by lia. replace (k + 53) with (width p) by lia. lia. }
  rewrite Hq1. pose proof (rne_bound q (loc_of_shr_record mrs1)) as Hr. set (r := round_nearest_even q _) in *.
  destruct r as [|r'|r'] eqn:Er; [lia| |lia]. change (Zdigits2 (Zpos r')) with (width r').
  assert (exists n, 0 <= n <= 1 /\ fexp prec emax (width r' + (ex + k)) - (ex + k) = n /\ 2 ^ n <= Zpos r') as (n & Hn & -> & Hnr).
  { rewrite fexp_width. destruct (decide (Zpos r' < 2 ^ 53)).
    - exists 0. rewrite (width_unique r' 53) by lia. lia.
    - exists 1. rewrite (width_unique r' 54) by lia. lia. }
  destruct (shr_quotient (shr_record_of_loc (Zpos r') loc_Exact) (ex + k) n) as (mrs2 & -> & Hq2); [done|lia|]. simpl in Hq2.
  assert (0 < Zpos r' / 2 ^ n) as Hpos by (apply Z.div_str_pos; lia). rewrite Hq2. destruct (Zpos r' / 2 ^ n) as [|m|m] eqn:Em; [lia| |lia].
  destruct (Z.leb_spec (ex + k + n) (emax - prec)); [|lia]. exists m, n. split; [done|]. split; [done|]. rewrite <- Em. split; apply Z.div_le_mono; lia.
Qed.

(** Nothing is rounded off a mantissa of 53 bits. *)
Lemma round_exact p ex : width p = 53 -> -1074 <= ex <= 971 -> binary_round_aux prec emax false (Zpos p) ex loc_Exact = S754_finite false p ex.
Proof.
  intros Hw He. unfold binary_round_aux, shr_fexp. change (Zdigits2 (Zpos p)) with (width p).
  replace (fexp prec emax (width p + ex) - ex) with 0 by (rewrite fexp_width; lia). simpl. change (Zpos (digits2_pos p)) with (width p).
  replace (fexp prec emax (width p + ex) - ex) with 0 by (rewrite fexp_width; lia). simpl. tests; [done|bools; lia].
Qed.

(** An integer of at most 53 bits gets a mantissa of exactly 53. *)
Lemma of_int_exact p : width p <= 53 ->
  exists m, of_int (Zpos p) = S754_finite false m (width p - 53) /\ Zpos m = Zpos p * 2 ^ (53 - width p) /\ width m = 53.
Proof.
  intros Hw. unfold of_int, binary_normalize, binary_round. change (Zpos (digits2_pos p)) with (width p). rewrite fexp_width, Z.add_0_r, Z.max_l by (unfold width; lia).
  assert (exists m, shl_align p 0 (width p - 53) = (m, width p - 53) /\ Zpos m = Zpos p * 2 ^ (53 - width p)) as (m & -> & Hm).
  { unfold shl_align. rewrite Z.sub_0_r. destruct (width p - 53) as [|d|d] eqn:E; [exists p|lia|exists (Pos.iter xO p d)].
    - split; [done|]. replace (53 - width p) with 0 by lia. lia.
    - split; [done|]. rewrite iter_doubles. f_equal. f_equal. lia. }
  assert (width m = 53) as Hwm.
  { apply width_unique; [lia|]. pose proof (width_bounds p) as Hp. rewrite Hm. assert (0 < 2 ^ (53 - width p)) by lia. split.
    - replace (53 - 1) with (width p - 1 + (53 - width p)) by lia. rewrite Z.pow_add_r by (unfold width in *; lia). nia.
    - replace (2 ^ 53) with (2 ^ width p * 2 ^ (53 - width p)) by (rewrite <- Z.pow_add_r by (unfold width in *; lia); f_equal; lia). nia. }
  exists m. split; [|done]. apply round_exact; [done|]. unfold width in *. lia.
Qed.

(** ** The subscripts of the statistics are in range *)

Lemma p99_index_in_range size : (0 < size)%nat -> Z.of_nat size <= 2 ^ 31 -> exists i, p99_index size = Some i /\ (i < size)%nat.
Proof.
  intros H0 Hs. unfold p99_index. destruct (Z.of_nat size - 1) as [|p|p] eqn:Ep; [exists 0%nat; split; [done|lia]| |lia].
  assert (width p <= 31) as Hw31.
  { pose proof (width_bounds p). destruct (decide (width p <= 31)); [done|]. pose proof (Z.pow_le_mono_r 2 31 (width p - 1)). lia. }
  destruct (of_int_exact p) as (m & -> & Hm & Hwm); [lia|]. assert (0 < width p) by (unfold width; lia).
  assert (ninety_nine = S754_finite false 8917127262193582 (-53)) as -> by (vm_compute; reflexivity). unfold fmul, SFmul. simpl xorb.
  set (P := (m * 8917127262193582)%positive). pose proof (width_bounds m) as Hmb. rewrite Hwm in Hmb.
  assert (105 <= width P <= 106) as HwP.
  { pose proof (width_bounds P) as HP. destruct (decide (width P < 105)); [pose proof (Z.pow_le_mono_r 2 (width P) 104); lia|].
    destruct (decide (106 < width P)); [pose proof (Z.pow_le_mono_r 2 106 (width P - 1)); lia|lia]. }
  destruct (round_spec P (width p - 53 + -53)) as (r & n & -> & Hn & Hr); [lia..|].
  set (k := width P - 53) in *. unfold to_size. destruct (Z.leb_spec 0 (width p - 53 + -53 + k + n)); [lia|].
  set (T := 106 - width p - k). replace (- (width p - 53 + -53 + k + n)) with (T - n) by lia.
  assert (Zpos P / 2 ^ k <= Zpos p * 2 ^ T) as Hq.
  { apply Z.div_le_upper_bound; [lia|]. replace (2 ^ k * (Zpos p * 2 ^ T)) with (Zpos m * 2 ^ 53); [lia|].
    rewrite Hm, <- !Z.mul_assoc, (Z.mul_comm (2 ^ k)), <- !Z.mul_assoc, <- !Z.pow_add_r by lia. do 2 f_equal. lia. }
  assert (0 <= Zpos r / 2 ^ (T - n) < Zpos p + 1) as [Hz1 Hz2].
  { split; [apply Z.div_pos; lia|]. eapply Z.le_lt_trans; [apply Z.div_le_mono; [lia|apply Hr]|].
    rewrite Z.div_div, <- Z.pow_add_r by lia. replace (n + (T - n)) with T by lia. apply Z.div_lt_upper_bound; [lia|].
    pose proof (Z.pow_le_mono_r 2 1 T). lia. }
  destruct (Z.leb_spec 0 (Zpos r / 2 ^ (T - n))), (Z.ltb_spec (Zpos r / 2 ^ (T - n)) (2 ^ 64)); [|lia..]. simpl. eexists. split; [done|]. lia.
Qed.

(** ** Samples are numbers, and the statistics are order statistics *)

Definition number (x : double) : Prop := x <> S754_nan.

Lemma shr_nonneg mrs e n : 0 <= shr_m mrs -> 0 <= shr_m (shr mrs e n).1.
Proof. intros H. destruct n as [|n|n]; [done| |done]. simpl. rewrite iter_shr_quotient by done. apply Z.div_pos; lia. Qed.

Lemma round_number mx ex l : 0 <= mx -> number (binary_round_aux prec emax false mx ex l).
Proof.
  intros Hm. unfold number, binary_round_aux, shr_fexp. set (mrs := shr_record_of_loc mx l). assert (0 <= shr_m mrs) as H0 by (by destruct l as [|[| |]]).
  pose proof (shr_nonneg mrs ex (fexp prec emax (Zdigits2 mx + ex) - ex) H0) as H1. destruct (shr mrs ex _) as [mrs1 e1]. simpl in H1.
  set (r := round_nearest_even _ _). assert (0 <= r) as Hr by (pose proof (rne_bound (shr_m mrs1) (loc_of_shr_record mrs1)); lia).
  pose proof (shr_nonneg (shr_record_of_loc r loc_Exact) e1 (fexp prec emax (Zdigits2 r + e1) - e1) Hr) as H2.
  destruct (shr (shr_record_of_loc r loc_Exact) _ _) as [mrs2 e2]. simpl in H2. destruct (shr_m mrs2); [done| |lia]. by tests.
Qed.

Lemma of_int_finite p : width p <= 900 -> exists m e, of_int (Zpos p) = S754_finite false m e.
Proof.
  intros Hw. destruct (decide (width p <= 53)) as [Hle|Hgt].
  - destruct (of_int_exact p Hle) as (m & -> & _). by eexists _, _.
  - unfold of_int, binary_normalize, binary_round. change (Zpos (digits2_pos p)) with (width p). rewrite fexp_width, Z.add_0_r, Z.max_l by lia.
    assert (shl_align p 0 (width p - 53) = (p, 0)) as ->.
    { unfold shl_align. rewrite Z.sub_0_r. by destruct (width p - 53) eqn:E; [| |lia]. }
    destruct (round_spec p 0) as (m & n & -> & _); [lia..|]. by eexists _, _.
Qed.

Lemma width_below p d : 0 < d -> Zpos p < 2 ^ d -> width p <= d.
Proof. intros Hd Hp. pose proof (width_bounds p). destruct (decide (width p <= d)); [done|]. pose proof (Z.pow_le_mono_r 2 d (width p - 1)). lia. Qed.

(** A reading of the clock no earlier than the start, neither beyond the range of a 64-bit count. *)
Definition plausible (reading : Z * Z) : Prop := 0 <= reading.1 <= reading.2 /\ reading.2 < 2 ^ 63.

Lemma per_op_number ops reading : 0 < ops < 2 ^ 64 -> plausible reading -> exists x, per_op ops reading = Some x /\ number x.
Proof.
  intros Ho [H1 H2]. unfold per_op, start_new, start, elapsed, stopped, count64. simpl.
  assert (forall z, 0 <= z < 2 ^ 63 -> (- 2 ^ 63 <=? z) && (z <? 2 ^ 63) = true) as Hin.
  { intros z Hz. destruct (Z.leb_spec (- 2 ^ 63) z), (Z.ltb_spec z (2 ^ 63)); lia || done. }
  rewrite Hin by lia. simpl. rewrite Hin by lia. simpl. eexists. split; [done|].
  destruct ops as [|o|o]; [lia| |lia]. destruct (of_int_finite o) as (mo & eo & ->); [pose proof (width_below o 64); lia|].
  rewrite Z.add_0_l. destruct (reading.2 - reading.1) as [|d|d] eqn:Ed; [done| |lia].
  destruct (of_int_finite d) as (md & ed & ->); [pose proof (width_below d 63); lia|]. unfold fdiv, SFdiv.
  destruct (SFdiv_core_binary prec emax (Zpos md) ed (Zpos mo) eo) as [[q e] l] eqn:Eq. simpl xorb. apply round_number.
  unfold SFdiv_core_binary in Eq. set (m' := match _ with Z0 => _ | _ => _ end) in Eq. assert (0 <= m') as Hm' by (unfold m'; destruct (ed - eo - _); [lia|apply Z.shiftl_nonneg; lia|lia]).
  pose proof (Z.div_pos m' (Zpos mo) Hm' ltac:(lia)) as Hq. unfold Z.div in Hq. destruct (Z.div_eucl m' (Zpos mo)) as [q' r]. by simplify_eq.
Qed.

Lemma samples_numbers ops readings :
  0 < ops < 2 ^ 64 -> Forall plausible readings ->
  exists samples, mapM (per_op ops) readings = Some samples /\ length samples = length readings /\ Forall number samples.
Proof.
  intros Ho H. induction H as [|r rs Hr _ IH]; [by exists []|]. destruct IH as (xs & Exs & Hl & Hx). destruct (per_op_number ops r Ho Hr) as (x & Ex & Hn).
  exists (x :: xs). rewrite mapM_Some in Exs |- *. split_and!; [by constructor|simpl; by rewrite Hl|by constructor].
Qed.

Lemma sorted_lookup l i j x y : sorted flt l -> l !! i = Some x -> l !! j = Some y -> (i < j)%nat -> flt y x = false.
Proof.
  intros Hs. revert i j. induction Hs as [|z l Hs IH Hz]; intros i j Hi Hj Hij; [done|]. destruct j as [|j]; [lia|]. destruct i as [|i].
  - simplify_eq/=. by eapply Forall_lookup_1 in Hz.
  - apply (IH i j); [done|done|lia].
Qed.

Section theorems.
Context (sort : list double -> list double).

(** [std::ranges::sort] on numbers. *)
Context (sort_numbers : forall l, Forall number l -> sort l ≡ₚ l /\ sorted flt (sort l)).

(** The statistics of a scenario.  For one repetition or more and plausible readings of the clock, [measure] has a result -- no subscript is out of range,
    no conversion undefined -- and its median and its 99th percentile are samples taken: at most half of the samples, and at most
    [size - 1 - i] of them, come after in the sorted order, none before is greater and none after is less. *)
Theorem statistics_are_samples ops readings :
  0 < ops < 2 ^ 64 -> Forall plausible readings -> readings <> [] -> Z.of_nat (length readings) <= 2 ^ 31 ->
  exists samples stats i, mapM (per_op ops) readings = Some samples /\ measure_stats sort ops readings = Some stats /\
    (i < length samples)%nat /\ p99_index (length samples) = Some i /\ sort samples ≡ₚ samples /\
    sort samples !! (length samples / 2)%nat = Some (median_ns stats) /\ sort samples !! i = Some (p99_ns stats) /\
    forall j x, sort samples !! j = Some x ->
      ((j < length samples / 2)%nat -> flt (median_ns stats) x = false) /\ ((length samples / 2 < j)%nat -> flt x (median_ns stats) = false) /\
      ((j < i)%nat -> flt (p99_ns stats) x = false) /\ ((i < j)%nat -> flt x (p99_ns stats) = false).
Proof.
  intros Ho Hp Hne Hl. destruct (samples_numbers ops readings Ho Hp) as (xs & Exs & Hlx & Hn). destruct (sort_numbers xs Hn) as [Hperm Hs].
  assert (0 < length xs)%nat as Hpos by (destruct readings; [done|rewrite Hlx; simpl; lia]).
  destruct (p99_index_in_range (length xs)) as (i & Hi & Hlt); [done|by rewrite Hlx|].
  pose proof (Permutation_length Hperm) as Hls.
  destruct (lookup_lt_is_Some_2 (sort xs) (length xs / 2)) as [med Hmed]; [rewrite Hls; apply Nat.div_lt; lia|].
  destruct (lookup_lt_is_Some_2 (sort xs) i) as [p Hpi]; [by rewrite Hls|].
  eexists xs, _, i. split; [done|]. split.
  { unfold measure_stats. rewrite Exs. cbn [mbind option_bind]. unfold summarize. rewrite Hls, Hmed. cbn [mbind option_bind]. rewrite Hi. cbn [mbind option_bind]. rewrite Hpi. done. }
  split_and!; [done..|]. intros j x Hj. simpl. split_and!; intros; by eapply sorted_lookup.
Qed.
End theorems.

(** Rows are one column wider than the header they stand under, and the name of the last scenario does not fit its column. *)
Theorem rows_overhang name stats :
  (length name <= 34)%nat -> (length (fixed2 (median_ns stats)) <= 12)%nat -> (length (fixed2 (p99_ns stats)) <= 12)%nat ->
  (length (fixed2 (fdiv (ops_per_sec stats) (of_int 1000000))) <= 12)%nat ->
  length (report name stats) = 81%nat /\ take 80 report_header = pad_right 34 ($"scenario") ++ pad_left 45 (pad_left 15 ($"median") ++ pad_left 15 ($"p99") ++ pad_left 15 ($"throughput")) ++ ["010"%char] /\
  exists last, List.last (map fst scenarios) [] = last /\ length last = 35%nat.
Proof.
  intros H1 H2 H3 H4. split_and!; [|by vm_compute|by eexists]. unfold report, pad_right, pad_left. rewrite !length_app, !length_replicate.
  change (length ($" ns")) with 3%nat. change (length ($" M/s")) with 4%nat. change (length ["010"%char]) with 1%nat. lia.
Qed.

(** Every row printed before the first exception stays printed, nothing after it is, and the result tells. *)
Lemma run_suite_stops what out rows e rest :
  run_suite what out (map Ret rows ++ Throw e :: rest) = (out ++ concat rows, $"benchmark failed: " ++ what e ++ ["010"%char], 1).
Proof. revert out. induction rows as [|r rows IH]; intros out; simpl; [by rewrite app_nil_r|]. by rewrite IH, <- app_assoc. Qed.

Lemma run_suite_completes what out rows : run_suite what out (map Ret rows) = (out ++ concat rows, [], 0).
Proof. revert out. induction rows as [|r rows IH]; intros out; simpl; [by rewrite app_nil_r|]. by rewrite IH, <- app_assoc. Qed.

(** A whole run on readings of 1, 2, ... microseconds: eight rows under the header. *)
Definition demo_readings (n : nat) : list (Z * Z) := map (fun k => (1000, 1000 + 65536 * Z.of_nat (S k))) (seq 0 n).

Example suite_sample :
  (fun '(out, err, code) => (length out, err, code)) <$> suite (stable_sort flt) (fun _ => []) version_string (replicate 8 (demo_readings 64)) = Some (873%nat, [], 0).
Proof. vm_compute. reflexivity. Qed.

Example row_sample :
  scenario_row (stable_sort flt) ($"FlatMap<int,int>::contains (1024)", 2 ^ 16) (demo_readings 64) =
    Some ($"FlatMap<int,int>::contains (1024)        33.00 ns       63.00 ns       30.30 M/s" ++ ["010"%char]).
Proof. vm_compute. reflexivity. Qed.
